(* ===== verification/_CoqProject ===== *)
-Q . S2P
Prelude.v
GoInt.v
Errors.v
Crc.v
WalRecord.v
Replay.v
ReplayProps.v
GoHeap.v
Message.v
Heaps.v
Codec.v
MessageProps.v
Index.v
QueueSpec.v
IndexInv.v
IndexRefine.v
IndexProps.v
Durable.v
Log.v
LogInv.v
LogProps.v
Queue.v
Load.v
QueueInv.v
QueueOps.v
QueueTick.v
Writer.v
Compact.v
Snapshot.v
SnapshotProps.v
CompactProps.v
Recovery.v
Json.v
JsonProps.v
Sample.v
Timer.v
QueueTrace.v
QueueProps.v
TimerProps.v
QueueCompact.v
Inspect.v
Request.v
Manager.v
Server.v
Main.v
InspectProps.v
Sound.v
ManagerProps.v
Damage.v
MainProps.v
ServerProps.v
Report.v
Lab.v
LabProps.v
Client.v
Runner.v
RunnerProps.v
ClientProps.v
Dashboard.v
DashboardProps.v
DashboardSafe.v
LabTruth.v
