(* ===== verification/Prelude.v ===== *)
(** * artie-queue: a verification development

    artie-queue is a durable message queue server in Go.  Each queue keeps its
    messages in three heaps, an id map, a dead-letter list and a dedup map, all
    of it rebuilt from an append-only log; a background goroutine writes the log
    in batches, one fsync each, and another promotes delayed messages and expires
    leases; a manager opens the queues of a directory, and an HTTP interface serves
    them.  This development models the storage engine, the queue engine and the
    server on top of them, [internal/wal], [internal/queue], [internal/api] and
    [cmd/artie-queue], and the demo that drives it over HTTP ([internal/demo],
    [cmd/jobrunner]): client, worker pool, supervisor and dashboard.  It proves that
    acknowledged operations survive a crash anywhere, that the queue hands out the
    right messages, and that the server keeps both promises to its clients.

    ** Files, in dependency order

    - [Prelude]: tactics, hints and generic lemmas.  [GoInt]: Go's integers at
      their width, little-endian encodings, strings as bytes, [time.Time] and
      [time.Duration].  [Errors]: every error value the code returns.
    - [Crc], [WalRecord]: CRC-32C over its table and the framing of a record
      ([wal/record.go]); that one changed byte changes a checksum.
    - [Replay]: [wal.Replay] ([wal/replay.go]) as the loop it is, over a reader
      and a callback, and the relation [scans] between bytes and records it
      implements.  [ReplayProps]: its theorems.
    - [GoHeap]: [container/heap] over the interface [HeapInterface], its laws
      [HeapLaws] and the correctness of [Init], [Push], [Pop] and [Remove] against
      them.  [Heaps]: the three heap types of [queue/heaps.go] as pointers into a
      shared store of messages, an instance of both classes.
    - [Message], [Codec], [MessageProps]: [queue/message.go] and
      [queue/codec.go]; validation, the comparator, round trips.
    - [Index]: the fields of [Queue] the mutex guards but for the log, and the
      [apply*] transitions ([queue/queue.go]).  [QueueSpec]: the same transitions
      on a map from id to message, without heaps and pointers.  [IndexInv]: the
      invariant.  [IndexRefine]: each transition of [Index] implements the one of
      [QueueSpec].  [IndexProps]: the theorems.
    - [Log]: [wal/log.go], one definition per critical section; the flusher
      goroutine is a state machine, the file has a part on disk and a part that a
      crash may tear.  [LogInv]: the interleavings [log_step] and their invariant.
      [LogProps]: durability, sticky failure, progress.
    - [Queue], [Load]: the operations of [queue.go] over index and log, the timer,
      [Create] and [Load].  [Durable]: the part of a state the log determines
      ([Core]) and what each record does to it.  [QueueInv], [QueueOps],
      [QueueTick]: every operation keeps the invariant [QInv] between index and
      log, and has the outcome its contract names.
    - [Writer]: the snapshot writer of [wal/replay.go].  [Compact]: compaction.
      [Snapshot]: its records as a function of the abstract state, and the core
      they replay to; [SnapshotProps]: that core stands for the old log's;
      [CompactProps]: every outcome of [Compact] keeps [QInv].
    - [Json], [JsonProps]: [encoding/json] on the configuration record, as far as
      [encodeConfig] and [decodeConfig] reach, an instance of the class
      [Load.ConfigCodec] and of its laws.
    - [Recovery], [QueueTrace], [QueueProps], [QueueCompact]: a queue's whole life
      ([queue_step] over labels [QueueOp]; [queue_reachable]: created, stepped,
      compacted, crashed, loaded again; [reachable_by], with the latest reading of
      the clock) and the theorems about it.  [Sample]: the concrete run that
      instantiates them.
    - [Timer], [TimerProps]: the goroutine [run] of [queue.go] between its critical
      sections ([run_step]), and its interleaving with clients, log and clock
      ([life_step]).
    - [Inspect], [InspectProps]: [Stats], [Peek], [DLQ] and [PayloadJSON] of
      [queue.go].
    - [Sound]: every operation of a queue with a well-formed index goes through and
      keeps it well-formed, whatever it is given.
    - [Manager], [ManagerProps]: [queue/manager.go]; what a restart owes each queue
      ([recovered]) and the directory a crash leaves ([directory]).
    - [Request], [Server], [ServerProps]: [api/server.go].  [Request]: request
      bodies through [json.Decoder], field by field.  [Server]: a function per
      handler, and [serve], which routes a request to one.
    - [Main], [Damage], [MainProps]: the [serve], [verify] and [repair] commands of
      [cmd/artie-queue/main.go].  [Damage]: a log with one byte changed.
    - [Report]: the bytes that [verify] prints.  [Lab], [LabProps]: the demo's
      supervisor ([internal/demo/supervisor.go]): the log pane, the child process,
      the corruption lab and the repair that reads [verify]'s report.
    - [Client], [ClientProps]: the demo's HTTP client ([internal/demo/client.go]):
      a call as the bytes it sends, what is read out of the answer, and [toReq], the
      way of a call to the handlers of [Server].
    - [Runner], [RunnerProps]: the demo's job runner ([internal/demo/runner.go]):
      the pool of workers behind its mutex, and [worker_step], a worker goroutine
      between two of its calls.
    - [Dashboard], [DashboardProps], [DashboardSafe], [LabTruth]: the dashboard
      ([internal/demo/dashboard.go]) and its command ([cmd/jobrunner/main.go]), a
      function per control over the dashboard's state, the request, the files and
      what the world returns ([DashIn]); [EnsureQueues] against the modelled server;
      what controls may do, with the critical sections of overlapping requests in any
      order ([section]); the corruption lab from the request to its explanation.

    ** How state and operations correspond to the code

    A pointer to a message is a [loc] into [ix_store]; an assignment through one
    is seen through all, and a dereference of a pointer that is not there, an
    index out of range or any other run-time panic is [None].  A Go [error] is a
    value of [Err].  The clock, the random bytes of an id and the results of
    system calls are arguments of the operations that use them.  An operation that
    waits for the disk is two functions, because it has two critical sections: the
    first returns a [Phase], the batch to wait for and the result to return, the
    second is [waitDurable] (or [Enqueue_finish], [Nack_finish]); between the two
    anything may happen.  [uint64] and [int64] arithmetic wraps where the code's
    does.  Times are integers of nanoseconds, and [UnixNano] wraps as Go's does.

    A request is handled by [serve] up to the wait for the disk, if there is one,
    and by [serve_finish] after it; what it takes from outside (clock, random
    bytes, map orders, results of system calls and of waits) is a record [Env].
    A directory is the list of its entries [DirEntry], with what [Load] finds under
    each.

    The histories of [queue_reachable] are those in which [Enqueue] fits the stored
    widths ([enqueue_ok]): a new id, a payload of at most 1 MiB, a dedup id shorter
    than 2^16 bytes, and now, now plus the delay and now plus the dedup window within
    int64 nanoseconds (until 2262).  What happens outside is shown on its own:
    [Enqueue_total], [only_Ack_removes] and the first half of [serve_safe] take any
    arguments, and [far_future_delay_lost] says what the log makes of such a time.

    The ghost fields [lg_base] and [lg_hist] of a [Log] record what was in the
    file when it was opened and every entry appended since, with its batch.  The
    ghost field [q_detached] of a [Queue] lists what the file at the log's path may
    be once a compaction that failed after its rename has left the descriptor on
    another file.

    ** What is shown

    - Durability ([LogProps], [QueueProps]): what [Wait] reports durable is in
      every file a crash can leave; such a file always loads, into the state of a
      prefix of the history that has everything acknowledged; acknowledged enqueues
      survive, acknowledged acks are final; reloading agrees with running.
    - Compaction ([QueueCompact]): whatever fails, the state is untouched and every
      file left behind loads to it; the snapshot does not depend on map order.
    - Integrity of the log ([ReplayProps]): a torn tail is dropped and reported, a
      single damaged byte is never accepted in silence; Replay terminates on any
      input and reads back exactly what [Encode] wrote.
    - Structure ([IndexProps], [QueueProps]): [checkInvariants], the assertion of
      the test suite, holds in every reachable state; transitions refine
      [QueueSpec]; [container/heap] over the three heaps is correct.
    - Delivery ([QueueProps]): the order of [Dequeue], exclusive leases, outcomes
      of every operation on every branch and for any arguments, only [Ack] removes a
      message.
    - The timer ([QueueProps], [TimerProps]): a tick leaves nothing due, ages exactly
      when the interval has passed, forgets exactly the dedup entries out of the
      window, and no
      wake-up is lost: whenever the goroutine waits with nobody about to wake it,
      its timer fires in time for whatever is next.
    - Encodings ([MessageProps], [JsonProps]): every payload in the log reads back.
    - Progress ([LogProps]): [Wait] for an issued batch returns.
    - Inspection ([InspectProps]): the counts of [Stats] add up, [Peek] lists the
      ready messages in the order [Dequeue] hands them out, and any payload is
      shown as valid JSON.
    - The server ([ServerProps]): every request, whatever its body, is answered
      without a panic and leaves every queue well-formed; one within the bounds above
      keeps every queue reachable, so that the theorems above hold behind the
      interface; a 201 is only sent for a message that survives.
    - Start and repair ([MainProps]): after a crash every queue comes back and
      unfinished directories are passed over; one changed byte stops the server and
      is reported by [verify] at its record; [repair] saves a copy before it cuts,
      and cutting where [verify] says gives back a server with everything before.
    - The demo ([LabProps], [RunnerProps]): the lab's torn tail costs nothing, its
      flipped byte stops the server until [repair] has cut the log at the damaged
      record; the worker pool has the size asked for under any interleaving, and a
      worker told to stop stops.
    - The dashboard ([ClientProps], [DashboardProps], [DashboardSafe], [LabTruth]):
      every request of the client is understood by the server as it was meant; the
      demo's queues are created through it, also over the leftover of an unfinished
      creation; the pool and the panes stay bounded however requests overlap; every
      control answers, and a request that no other comes between changes files only in
      the lab and only once the server is down; what the lab says of a torn tail and
      of a damaged record is what the server does.
    - Three theorems show misbehaviour: [duplicate_before_durable],
      [far_future_delay_lost] and [repair_cuts_another_queue].

    ** Fuel

    [replay_loop] gets one unit more than the file has bytes, and consumes at least
    a header per record; [promoteDue] and [expire_loop] one more than the heap has
    messages, and take one out per turn; the loops of [container/heap] the length
    of the heap.  Running out is [None], and the theorems show it does not happen.
    [parseJSON] gets twice the length of its input plus two.

    ** Not modelled

    Logging calls, command line flags, signals, sockets, and the writing of a
    response as text ([net/http] and [encoding/json] do it; a [Response] is its
    status and the value written).  Of the demo, the files of its page, the loop of
    [/api/stream] (a snapshot four times a second), the texts of the event log and
    of messages (constructors with the values they show), and the two times of a
    leased message, which nothing reads.  A control's call of [EnsureQueues] whose
    result is dropped is left out: it changes the server's state, which is an
    argument there.  A control is one function although it holds no lock from its
    first critical section to its last: what the sections of overlapping requests
    keep is shown ([section]), but what the files of the lab go through when another
    request starts the server between the check and the write is not.  The disk is
    assumed to do what [fsync] promises and to tear an unsynced write at any byte
    but not to reorder it. *)

From Stdlib Require Import ZArith Lia Bool List.
From Stdlib Require Export Strings.Byte.
From stdpp Require Export base tactics numbers option list gmap strings.

#[global] Open Scope Z_scope.

(** ** Notation and tactics *)

(** Split every boolean connective of the hypotheses into propositions. *)
Ltac bool_prop :=
  repeat match goal with
  | H : _ && _ = true |- _ => apply andb_prop in H; destruct H
  | H : _ || _ = false |- _ => apply orb_false_elim in H; destruct H
  | H : negb _ = true |- _ => apply negb_true_iff in H
  | H : negb _ = false |- _ => apply negb_false_iff in H
  | H : bool_decide _ = true |- _ => apply bool_decide_eq_true in H
  | H : bool_decide _ = false |- _ => apply bool_decide_eq_false in H
  | H : (_ =? _) = true |- _ => apply Z.eqb_eq in H
  | H : (_ =? _) = false |- _ => apply Z.eqb_neq in H
  | H : (_ <? _) = true |- _ => apply Z.ltb_lt in H
  | H : (_ <? _) = false |- _ => apply Z.ltb_ge in H
  | H : (_ <=? _) = true |- _ => apply Z.leb_le in H
  | H : (_ <=? _) = false |- _ => apply Z.leb_gt in H
  | H : (_ >? _) = true |- _ => rewrite Z.gtb_ltb in H; apply Z.ltb_lt in H
  | H : (_ >? _) = false |- _ => rewrite Z.gtb_ltb in H; apply Z.ltb_ge in H
  | H : (_ =? _)%nat = true |- _ => apply Nat.eqb_eq in H
  | H : (_ =? _)%nat = false |- _ => apply Nat.eqb_neq in H
  | H : (_ <? _)%nat = true |- _ => apply Nat.ltb_lt in H
  | H : (_ <? _)%nat = false |- _ => apply Nat.ltb_ge in H
  | H : (_ <=? _)%nat = true |- _ => apply Nat.leb_le in H
  | H : (_ <=? _)%nat = false |- _ => apply Nat.leb_gt in H
  end.

(** Case analysis on the test of the innermost [if] or [match] of the goal or of [H]. *)
Ltac case_if_goal :=
  match goal with
  | |- context [if ?b then _ else _] => destruct b eqn:?
  end.
Ltac case_if_in H :=
  match type of H with
  | context [if ?b then _ else _] => destruct b eqn:?
  end.

Create HintDb artie.

(** ** Bytes *)

#[export] Instance byte_eq_dec : EqDecision byte := Byte.byte_eq_dec.
#[export] Instance byte_inhabited : Inhabited byte := populate x00.

Definition byteZ (b : byte) : Z := Z.of_N (Byte.to_N b).

(** Conversion [byte(z)]: the low eight bits. *)
Definition Zbyte (z : Z) : byte :=
  match Byte.of_N (Z.to_N (z mod 256)) with
  | Some b => b
  | None => x00
  end.

Lemma byteZ_range b : 0 <= byteZ b < 256.
Proof.
  unfold byteZ. split; [lia|].
  pose proof (Byte.to_N_bounded b). lia.
Qed.

Lemma byteZ_inj b1 b2 : byteZ b1 = byteZ b2 -> b1 = b2.
Proof.
  unfold byteZ. intros H%N2Z.inj.
  pose proof (Byte.of_to_N b1) as E1. pose proof (Byte.of_to_N b2) as E2.
  rewrite H in E1. congruence.
Qed.

Lemma byteZ_Zbyte z : byteZ (Zbyte z) = z mod 256.
Proof.
  unfold Zbyte, byteZ.
  pose proof (Z.mod_pos_bound z 256 ltac:(lia)) as Hr.
  destruct (Byte.of_N (Z.to_N (z mod 256))) as [b|] eqn:E.
  - apply Byte.to_of_N in E. rewrite E. lia.
  - apply Byte.of_N_None_iff in E. lia.
Qed.

Lemma Zbyte_byteZ b : Zbyte (byteZ b) = b.
Proof.
  apply byteZ_inj. rewrite byteZ_Zbyte.
  apply Z.mod_small, byteZ_range.
Qed.

Lemma Zbyte_mod z : Zbyte (z mod 256) = Zbyte z.
Proof. unfold Zbyte. by rewrite Z.mod_mod by lia. Qed.

#[export] Hint Resolve byteZ_range : artie.
#[export] Hint Rewrite byteZ_Zbyte Zbyte_byteZ : artie.

(** ** Generic lemmas on lists *)

Lemma take_drop_app {A} (l : list A) n m :
  take (n + m) l = take n l ++ take m (drop n l).
Proof.
  revert l. induction n as [|n IH]; intros [|x l]; simpl; try done.
  - by destruct m.
  - by rewrite IH.
Qed.

Lemma length_take_le {A} (l : list A) n : (n <= length l)%nat -> length (take n l) = n.
Proof. intros. rewrite length_take. lia. Qed.

Lemma app_prefix_split {A} (a b p : list A) :
  p `prefix_of` a ++ b ->
  p `prefix_of` a \/ exists q, p = a ++ q /\ q `prefix_of` b.
Proof.
  intros [s Hs]. destruct (decide (length p <= length a)%nat) as [Hl|Hl].
  - left. exists (drop (length p) a).
    rewrite <- (take_drop (length p) a) at 1. f_equal.
    apply (f_equal (take (length p))) in Hs.
    rewrite take_app_le in Hs by done.
    by rewrite take_app_length in Hs.
  - right. exists (drop (length a) p).
    assert (take (length a) p = a) as Ha.
    { apply (f_equal (take (length a))) in Hs.
      rewrite take_app_length in Hs. rewrite take_app_le in Hs by lia. done. }
    split.
    + rewrite <- Ha at 1. by rewrite take_drop.
    + exists s. rewrite <- (take_drop (length a) p), Ha, <- app_assoc in Hs.
      by apply app_inv_head in Hs.
Qed.

Lemma Forall_prefix_of {A} (P : A -> Prop) (k l : list A) :
  k `prefix_of` l -> Forall P l -> Forall P k.
Proof. intros [s ->] H. by apply Forall_app in H as [? _]. Qed.
