(* ===== verification/GoInt.v ===== *)
(** * Machine integers, byte order, strings and time

    The parts of Go's language and standard library the source computes with:
    fixed-width integers with their wrap-around, [encoding/binary]'s
    little-endian encoding, conversions between [string] and [[]byte], and
    [time.Time]/[time.Duration]. *)

From Stdlib Require Import ZArith Lia.
From S2P Require Import Prelude.

(** ** Fixed-width integers *)

(** Conversion to an unsigned [w]-bit integer. *)
Definition uint (w : Z) (z : Z) : Z := z mod 2 ^ w.
(** Conversion to a signed [w]-bit integer (two's complement). *)
Definition sint (w : Z) (z : Z) : Z := (z + 2 ^ (w - 1)) mod 2 ^ w - 2 ^ (w - 1).

Definition uint8 := uint 8.
Definition uint16 := uint 16.
Definition uint32 := uint 32.
Definition uint64 := uint 64.
Definition int64 := sint 64.

Definition in_uint (w z : Z) : Prop := 0 <= z < 2 ^ w.
Definition in_int64 (z : Z) : Prop := - 2 ^ 63 <= z < 2 ^ 63.

Lemma uint_small w z : in_uint w z -> uint w z = z.
Proof. unfold uint, in_uint. apply Z.mod_small. Qed.

Lemma uint_range w z : 0 <= w -> in_uint w (uint w z).
Proof. intros. unfold uint, in_uint. apply Z.mod_pos_bound. lia. Qed.

Lemma int64_small z : in_int64 z -> int64 z = z.
Proof. unfold int64, sint, in_int64. intros H. rewrite Z.mod_small; lia. Qed.

Lemma int64_range z : in_int64 (int64 z).
Proof.
  unfold int64, sint, in_int64.
  pose proof (Z.mod_pos_bound (z + 2 ^ (64 - 1)) (2 ^ 64) ltac:(lia)). lia.
Qed.

(** The cast pair [int64(uint64(x))] of the codec is the identity on [int64]. *)
Lemma int64_uint64 z : int64 (uint64 z) = int64 z.
Proof.
  unfold int64, uint64, sint, uint. f_equal.
  by rewrite Z.add_mod_idemp_l by lia.
Qed.

(** ** [encoding/binary.LittleEndian] *)

(** The [n] low bytes of [z], least significant first. *)
Fixpoint le_bytes (n : nat) (z : Z) : list byte :=
  match n with
  | O => []
  | S n' => Zbyte z :: le_bytes n' (Z.shiftr z 8)
  end.

Fixpoint le_Z (l : list byte) : Z :=
  match l with
  | [] => 0
  | b :: l' => byteZ b + 256 * le_Z l'
  end.

(** [binary.LittleEndian.AppendUintN(buf, v)] and [UintN(b)] (the latter reads
    the first N/8 bytes of its argument). *)
Definition AppendUint16 (buf : list byte) (v : Z) : list byte := buf ++ le_bytes 2 (uint16 v).
Definition AppendUint32 (buf : list byte) (v : Z) : list byte := buf ++ le_bytes 4 (uint32 v).
Definition AppendUint64 (buf : list byte) (v : Z) : list byte := buf ++ le_bytes 8 (uint64 v).
Definition Uint16 (b : list byte) : Z := le_Z (take 2 b).
Definition Uint32 (b : list byte) : Z := le_Z (take 4 b).
Definition Uint64 (b : list byte) : Z := le_Z (take 8 b).

Lemma length_le_bytes n z : length (le_bytes n z) = n.
Proof. revert z. induction n; intros; simpl; auto. Qed.

Lemma le_Z_range l : 0 <= le_Z l < 256 ^ Z.of_nat (length l).
Proof.
  induction l as [|b l IH]; [simpl; lia|].
  cbn [le_Z length]. rewrite Nat2Z.inj_succ, Z.pow_succ_r by lia.
  pose proof (byteZ_range b). lia.
Qed.

Lemma le_Z_le_bytes n z : le_Z (le_bytes n z) = z mod 256 ^ Z.of_nat n.
Proof.
  revert z. induction n as [|n IH]; intros z.
  - simpl. by rewrite Z.mod_1_r.
  - cbn [le_Z le_bytes].
    rewrite IH, byteZ_Zbyte, Nat2Z.inj_succ, Z.pow_succ_r by lia.
    rewrite Z.shiftr_div_pow2 by lia. change (2 ^ 8) with 256.
    rewrite Z.rem_mul_r by lia. lia.
Qed.

Lemma le_bytes_le_Z l : le_bytes (length l) (le_Z l) = l.
Proof.
  induction l as [|b l IH]; [done|].
  cbn [length le_Z le_bytes]. f_equal.
  - rewrite <- Zbyte_mod.
    replace (byteZ b + 256 * le_Z l) with (byteZ b + le_Z l * 256) by lia.
    rewrite Z.mod_add, Zbyte_mod by lia. apply Zbyte_byteZ.
  - rewrite Z.shiftr_div_pow2 by lia. change (2 ^ 8) with 256.
    replace (byteZ b + 256 * le_Z l) with (byteZ b + le_Z l * 256) by lia.
    rewrite Z.div_add by lia.
    pose proof (byteZ_range b). rewrite Z.div_small by lia. done.
Qed.

Lemma le_bytes_inj n z1 z2 :
  0 <= z1 < 256 ^ Z.of_nat n -> 0 <= z2 < 256 ^ Z.of_nat n ->
  le_bytes n z1 = le_bytes n z2 -> z1 = z2.
Proof.
  intros H1 H2 E%(f_equal le_Z). rewrite !le_Z_le_bytes in E.
  by rewrite !Z.mod_small in E.
Qed.

Lemma le_Z_inj l1 l2 : length l1 = length l2 -> le_Z l1 = le_Z l2 -> l1 = l2.
Proof.
  intros Hl E. rewrite <- (le_bytes_le_Z l1), <- (le_bytes_le_Z l2).
  by rewrite Hl, E.
Qed.

(** Reading back an encoded value from the front of a buffer. *)
Lemma Uint16_le_bytes v r : in_uint 16 v -> Uint16 (le_bytes 2 v ++ r) = v.
Proof.
  intros. unfold Uint16.
  rewrite (take_app_length' _ _ 2), le_Z_le_bytes by by rewrite length_le_bytes.
  by apply Z.mod_small.
Qed.

Lemma Uint32_le_bytes v r : in_uint 32 v -> Uint32 (le_bytes 4 v ++ r) = v.
Proof.
  intros. unfold Uint32.
  rewrite (take_app_length' _ _ 4), le_Z_le_bytes by by rewrite length_le_bytes.
  by apply Z.mod_small.
Qed.

Lemma Uint64_le_bytes v r : in_uint 64 v -> Uint64 (le_bytes 8 v ++ r) = v.
Proof.
  intros. unfold Uint64.
  rewrite (take_app_length' _ _ 8), le_Z_le_bytes by by rewrite length_le_bytes.
  by apply Z.mod_small.
Qed.

Lemma Uint32_range b : in_uint 32 (Uint32 b).
Proof.
  unfold Uint32, in_uint. pose proof (le_Z_range (take 4 b)) as H.
  assert (256 ^ Z.of_nat (length (take 4 b)) <= 256 ^ 4).
  { apply Z.pow_le_mono_r; [lia|]. rewrite length_take. lia. }
  change (2 ^ 32) with (256 ^ 4). lia.
Qed.

#[export] Hint Rewrite length_le_bytes : artie.
#[export] Hint Resolve int64_range Uint32_range : artie.

(** ** [string] and [[]byte]

    A Go string is an immutable sequence of bytes; [String.string] is one too
    (its characters are eight bits wide), and the two conversions are inverse. *)

Definition bytes_of_string : string -> list byte := String.list_byte_of_string.
Definition string_of_bytes : list byte -> string := String.string_of_list_byte.

Lemma string_of_bytes_of_string s : string_of_bytes (bytes_of_string s) = s.
Proof. apply String.string_of_list_byte_of_string. Qed.

Lemma bytes_of_string_of_bytes b : bytes_of_string (string_of_bytes b) = b.
Proof. apply String.list_byte_of_string_of_list_byte. Qed.

Lemma bytes_of_string_app s1 s2 :
  bytes_of_string (s1 ++ s2)%string = bytes_of_string s1 ++ bytes_of_string s2.
Proof.
  unfold bytes_of_string, String.list_byte_of_string. rewrite <- map_app. f_equal.
  induction s1 as [|c s1 IH]; [done|]. change (String c s1 +:+ s2)%string with (String c (s1 +:+ s2)).
  cbn [String.list_ascii_of_string app]. by rewrite IH.
Qed.

(** [len(s)]. *)
Definition strlen (s : string) : nat := length (bytes_of_string s).

#[export] Hint Rewrite string_of_bytes_of_string bytes_of_string_of_bytes : artie.

(** ** [time]

    A [time.Time] is an instant, here its distance in nanoseconds from the Unix
    epoch (wall and monotonic readings are taken to agree); the zero [Time] is
    1 January of year 1.  A [time.Duration] is an [int64] of nanoseconds. *)

Definition Time := Z.
Definition Duration := Z.

Definition zeroTime : Time := -62135596800 * 10 ^ 9.

Definition Nanosecond : Duration := 1.
Definition Millisecond : Duration := 10 ^ 6.
Definition Second : Duration := 10 ^ 9.
Definition Minute : Duration := 60 * Second.
Definition Hour : Duration := 60 * Minute.

Definition IsZero (t : Time) : bool := t =? zeroTime.
Definition After (t u : Time) : bool := u <? t.
Definition Before (t u : Time) : bool := t <? u.
Definition Equal (t u : Time) : bool := t =? u.
Definition Add (t : Time) (d : Duration) : Time := t + d.
(** [t.Sub(u)] saturates at the bounds of [Duration]. *)
Definition Sub (t u : Time) : Duration := Z.max (- 2 ^ 63) (Z.min (2 ^ 63 - 1) (t - u)).
(** [t.UnixNano()] is computed in [int64] arithmetic: it wraps for instants
    outside the years 1678 to 2262. *)
Definition UnixNano (t : Time) : Z := int64 t.
(** [time.Unix(0, ns)]. *)
Definition UnixZero (ns : Z) : Time := ns.

(** [a * b] on [Duration]s wraps. *)
Definition mulDuration (a b : Duration) : Duration := int64 (a * b).
(** Integer division truncates toward zero. *)
Definition quotDuration (a b : Duration) : Z := int64 (Z.quot a b).
