(* ===== verification/Errors.v ===== *)
(** * Errors

    The [error] values of [internal/wal] and [internal/queue] as one sum type.
    A Go [error] result is an [option Err], [None] being [nil]; [fmt.Errorf]
    with [%w] keeps the wrapped error, which [errors.Is]/[errors.As] find. *)

From S2P Require Import Prelude GoInt.

(** Why a record is corrupt: the four [Reason]s of [wal.Replay]. *)
Inductive CorruptionReason :=
  | HeaderChecksumMismatch (want got : Z)
  | LengthExceedsMaximum (length : Z)
  | ChecksumMismatch (want got length : Z)
  | UnknownRecordType (t : byte).

Inductive Err :=
  (** what the operating system reports *)
  | EIO (what : string)
  (** internal/wal *)
  | CorruptionError (path : string) (offset : Z) (reason : CorruptionReason)
  | EReadingHeader (off : Z) (path : string) (e : Err)
  | EReadingPayload (off : Z) (path : string) (e : Err)
  | EApplying (t : byte) (off : Z) (e : Err)
  | ErrWalClosed
  | EWrapped (what : string) (e : Err)
  (** internal/queue *)
  | ErrNotFound
  | ErrNotInFlight
  | ErrClosed
  | ErrIncompleteQueue (path : string)
  | ErrQueueExists (name : string)
  | EUnreadableLog (name : string) (e : Err)
  | EFirstRecordNotMeta
  | ENoMeta (name path : string)
  | ELoadingQueue (name : string) (e : Err)
  | errShortPayload
  | EUnsupportedVersion (v : Z)
  | EPriorityTooWide (p : Z)
  | EEmptyId
  | EJson (what : string)
  | EInvalidName (name : string)
  | EInvalidOrdering (ordering : string)
  | EInvalidConfig (field : string) (value : Z)
  | EDuplicateMessageId (id : string)
  | EAckUnknown (id : string)
  | EAttemptUnknown (id : string)
  | EUnhandledRecordType (t : byte)
  (** internal/api *)
  | EMsg (what : string)
  (** internal/demo *)
  | apiError (status : Z) (body : list byte).

(** The error a wrapper carries ([errors.Unwrap]). *)
Definition Unwrap (e : Err) : option Err :=
  match e with
  | EReadingHeader _ _ e | EReadingPayload _ _ e | EApplying _ _ e | EWrapped _ e
  | EUnreadableLog _ e | ELoadingQueue _ e => Some e
  | _ => None
  end.

(** [errors.As(err, &ce)] for a [*CorruptionError]: search the wrapped chain. *)
Fixpoint asCorruption (e : Err) : option (string * Z * CorruptionReason) :=
  match e with
  | CorruptionError p off r => Some (p, off, r)
  | EReadingHeader _ _ e | EReadingPayload _ _ e | EApplying _ _ e | EWrapped _ e
  | EUnreadableLog _ e | ELoadingQueue _ e => asCorruption e
  | _ => None
  end.

(** [errors.Is(err, target)]: the error itself or one it wraps. *)
Fixpoint Is (target : Err -> bool) (e : Err) : bool :=
  target e ||
  match e with
  | EReadingHeader _ _ e | EReadingPayload _ _ e | EApplying _ _ e | EWrapped _ e
  | EUnreadableLog _ e | ELoadingQueue _ e => Is target e
  | _ => false
  end.

(** The targets the source asks for. *)
Definition isErrIncompleteQueue (e : Err) : bool := match e with ErrIncompleteQueue _ => true | _ => false end.
Definition isErrQueueExists (e : Err) : bool := match e with ErrQueueExists _ => true | _ => false end.
Definition isErrNotFound (e : Err) : bool := match e with ErrNotFound => true | _ => false end.
Definition isErrNotInFlight (e : Err) : bool := match e with ErrNotInFlight => true | _ => false end.
Definition isErrClosed (e : Err) : bool := match e with ErrClosed => true | _ => false end.
