(* ===== verification/Crc.v ===== *)
(** * [hash/crc32] with the Castagnoli polynomial

    The checksum of [internal/wal/record.go] (line 106): [crc32.MakeTable],
    [crc32.Update] and [crc32.Checksum] of the standard library, and the
    algebra the corruption policy rests on: a byte step is injective in the
    register and in the byte, so no change of a single byte goes unnoticed. *)

From Stdlib Require Import ZArith Lia.
From S2P Require Import Prelude GoInt.

(** ** The table *)

Definition Castagnoli : Z := 0x82f63b78.

Definition table_step (poly crc : Z) : Z :=
  if Z.odd crc then Z.lxor (Z.shiftr crc 1) poly else Z.shiftr crc 1.

Definition MakeTable (poly : Z) : list Z :=
  map (fun i => Nat.iter 8 (table_step poly) (Z.of_nat i)) (seq 0 256).

Definition crcTable : list Z := Eval vm_compute in MakeTable Castagnoli.

(** ** Update and Checksum *)

Definition not32 (crc : Z) : Z := Z.lxor crc 0xffffffff.

(** [tab[byte(crc)^v] ^ (crc >> 8)] *)
Definition update_byte (tab : list Z) (crc : Z) (v : byte) : Z :=
  Z.lxor (nth (Z.to_nat (Z.lxor (Z.land crc 255) (byteZ v))) tab 0) (Z.shiftr crc 8).

Definition Update (crc : Z) (tab : list Z) (p : list byte) : Z :=
  not32 (foldl (update_byte tab) (not32 crc) p).

Definition Checksum (data : list byte) (tab : list Z) : Z := Update 0 tab data.

(** ** Facts about the table, by computation *)

Lemma crcTable_spec : crcTable = MakeTable Castagnoli.
Proof. vm_compute. reflexivity. Qed.

(** The published check value of CRC-32C. *)
Example crc32c_check :
  Checksum (bytes_of_string "123456789") crcTable = 0xe3069283.
Proof. vm_compute. reflexivity. Qed.

Lemma crcTable_length : length crcTable = 256%nat.
Proof. reflexivity. Qed.

Lemma crcTable_range i : in_uint 32 (nth i crcTable 0).
Proof.
  assert (forallb (fun x => (0 <=? x) && (x <? 2 ^ 32)) crcTable = true) as H
    by (vm_compute; reflexivity).
  rewrite forallb_forall in H. unfold in_uint.
  destruct (Nat.lt_ge_cases i (length crcTable)) as [Hi|Hi].
  - specialize (H _ (nth_In crcTable 0 Hi)). bool_prop. lia.
  - rewrite nth_overflow by done. lia.
Qed.

Lemma crcTable_top_NoDup : NoDup (map (fun x => Z.shiftr x 24) crcTable).
Proof. apply (bool_decide_eq_true_1 (NoDup _)). vm_compute. reflexivity. Qed.

(** The top byte of a table entry determines its index. *)
Lemma crcTable_top_inj i j :
  (i < 256)%nat -> (j < 256)%nat ->
  Z.shiftr (nth i crcTable 0) 24 = Z.shiftr (nth j crcTable 0) 24 -> i = j.
Proof.
  intros Hi Hj E.
  assert (forall k, (k < 256)%nat ->
    map (fun x => Z.shiftr x 24) crcTable !! k = Some (Z.shiftr (nth k crcTable 0) 24)) as Hk.
  { intros k Hk. change (map ?f ?l) with (f <$> l). rewrite list_lookup_fmap.
    destruct (nth_lookup_or_length crcTable k 0) as [->|H]; [done|].
    rewrite crcTable_length in H. lia. }
  eapply NoDup_lookup; [apply crcTable_top_NoDup|by apply Hk|].
  rewrite E. by apply Hk.
Qed.

(** ** Bit-level lemmas *)

Lemma lxor_range n a b : 0 <= n ->
  0 <= a < 2 ^ n -> 0 <= b < 2 ^ n -> 0 <= Z.lxor a b < 2 ^ n.
Proof.
  intros Hn Ha Hb.
  assert (0 <= Z.lxor a b) as H0 by (apply Z.lxor_nonneg; lia).
  split; [done|].
  destruct (decide (Z.lxor a b = 0)) as [->|Hx]; [lia|].
  apply Z.log2_lt_pow2; [lia|].
  eapply Z.le_lt_trans; [apply Z.log2_lxor; lia|].
  destruct (decide (a = 0)) as [->|]; destruct (decide (b = 0)) as [->|];
    rewrite ?Z.lxor_nilpotent in Hx; try done;
    apply Z.max_lub_lt; try (apply Z.log2_lt_pow2; lia);
    simpl; destruct (decide (n = 0)) as [->|]; simpl in *; lia.
Qed.

Lemma lxor_cancel_l a b c : Z.lxor a b = Z.lxor a c -> b = c.
Proof.
  intros E. apply (f_equal (Z.lxor a)) in E.
  by rewrite <- !Z.lxor_assoc, Z.lxor_nilpotent, !Z.lxor_0_l in E.
Qed.

Lemma lxor_cancel_r a b c : Z.lxor b a = Z.lxor c a -> b = c.
Proof. rewrite !(Z.lxor_comm _ a). apply lxor_cancel_l. Qed.

Lemma low_high c : c = Z.shiftr c 8 * 256 + Z.land c 255.
Proof.
  rewrite Z.shiftr_div_pow2 by lia. change 255 with (Z.ones 8).
  rewrite Z.land_ones by lia. change (2 ^ 8) with 256.
  pose proof (Z.div_mod c 256). lia.
Qed.

Lemma land_255_range c : 0 <= Z.land c 255 < 2 ^ 8.
Proof.
  change 255 with (Z.ones 8). rewrite Z.land_ones by lia.
  apply Z.mod_pos_bound. lia.
Qed.

Lemma shiftr8_range c : in_uint 32 c -> 0 <= Z.shiftr c 8 < 2 ^ 24.
Proof.
  unfold in_uint. intros. rewrite Z.shiftr_div_pow2 by lia.
  split; [apply Z.div_pos; lia|]. apply Z.div_lt_upper_bound; lia.
Qed.

(** ** One byte *)

Section Step.
Context (c1 c2 : Z) (b1 b2 : byte).
Hypothesis Hc1 : in_uint 32 c1.
Hypothesis Hc2 : in_uint 32 c2.

Lemma update_byte_range : in_uint 32 (update_byte crcTable c1 b1).
Proof using Hc1.
  unfold update_byte, in_uint. apply lxor_range; [lia|apply crcTable_range|].
  pose proof (shiftr8_range _ Hc1). lia.
Qed.

Lemma index_range c b : (Z.to_nat (Z.lxor (Z.land c 255) (byteZ b)) < 256)%nat.
Proof using.
  pose proof (lxor_range 8 (Z.land c 255) (byteZ b) ltac:(lia)
    (land_255_range c) (byteZ_range b)). lia.
Qed.

(** The new register determines the old high bytes and the table index. *)
Lemma update_byte_split :
  update_byte crcTable c1 b1 = update_byte crcTable c2 b2 ->
  Z.shiftr c1 8 = Z.shiftr c2 8 /\
  Z.lxor (Z.land c1 255) (byteZ b1) = Z.lxor (Z.land c2 255) (byteZ b2).
Proof using Hc1 Hc2.
  unfold update_byte. intros E.
  pose proof (f_equal (fun x => Z.shiftr x 24) E) as Et. cbv beta in Et.
  rewrite !Z.shiftr_lxor in Et.
  assert (forall c, in_uint 32 c -> Z.shiftr (Z.shiftr c 8) 24 = 0) as Hz.
  { intros c Hc. rewrite (Z.shiftr_div_pow2 (Z.shiftr c 8)) by lia.
    apply Z.div_small, shiftr8_range, Hc. }
  rewrite !Hz, !Z.lxor_0_r in Et by done.
  apply crcTable_top_inj in Et; [|apply index_range..].
  rewrite Et in E. apply lxor_cancel_l in E. split; [done|].
  pose proof (lxor_range 8 _ _ ltac:(lia) (land_255_range c1) (byteZ_range b1)).
  pose proof (lxor_range 8 _ _ ltac:(lia) (land_255_range c2) (byteZ_range b2)).
  lia.
Qed.
End Step.

Lemma update_byte_inj_crc c1 c2 b :
  in_uint 32 c1 -> in_uint 32 c2 ->
  update_byte crcTable c1 b = update_byte crcTable c2 b -> c1 = c2.
Proof.
  intros H1 H2 E. apply update_byte_split in E as [Eh El]; [|done..].
  apply lxor_cancel_r in El. rewrite (low_high c1), (low_high c2). congruence.
Qed.

Lemma update_byte_inj_byte c b1 b2 :
  in_uint 32 c ->
  update_byte crcTable c b1 = update_byte crcTable c b2 -> b1 = b2.
Proof.
  intros Hc E. apply update_byte_split in E as [_ El]; [|done..].
  by apply lxor_cancel_l, byteZ_inj in El.
Qed.

(** ** Byte strings *)

Lemma foldl_update_range c p :
  in_uint 32 c -> in_uint 32 (foldl (update_byte crcTable) c p).
Proof.
  revert c. induction p as [|b p IH]; intros c Hc; [done|].
  simpl. by apply IH, update_byte_range.
Qed.

Lemma foldl_update_inj c1 c2 p :
  in_uint 32 c1 -> in_uint 32 c2 ->
  foldl (update_byte crcTable) c1 p = foldl (update_byte crcTable) c2 p -> c1 = c2.
Proof.
  revert c1 c2. induction p as [|b p IH]; intros c1 c2 H1 H2 E; [done|].
  simpl in E. apply IH in E; [|by apply update_byte_range..].
  by apply update_byte_inj_crc in E.
Qed.

Lemma not32_range c : in_uint 32 c -> in_uint 32 (not32 c).
Proof. intros. unfold not32, in_uint. apply lxor_range; [lia|done|lia]. Qed.

Lemma not32_involutive c : not32 (not32 c) = c.
Proof. unfold not32. by rewrite Z.lxor_assoc, Z.lxor_nilpotent, Z.lxor_0_r. Qed.

Lemma Update_range c p : in_uint 32 c -> in_uint 32 (Update c crcTable p).
Proof. intros. by apply not32_range, foldl_update_range, not32_range. Qed.

Lemma Checksum_range p : in_uint 32 (Checksum p crcTable).
Proof. apply Update_range. unfold in_uint. lia. Qed.

(** Updating in two parts is checksumming the concatenation. *)
Lemma Update_app c tab p q : Update (Update c tab p) tab q = Update c tab (p ++ q).
Proof. unfold Update. by rewrite not32_involutive, foldl_app. Qed.

(** Changing one byte changes the checksum. *)
Lemma Checksum_single_byte pre b1 b2 post :
  Checksum (pre ++ b1 :: post) crcTable = Checksum (pre ++ b2 :: post) crcTable ->
  b1 = b2.
Proof.
  unfold Checksum, Update. intros E. apply lxor_cancel_r in E.
  rewrite !foldl_app in E. simpl in E.
  assert (in_uint 32 (foldl (update_byte crcTable) (not32 0) pre)).
  { apply foldl_update_range, not32_range. unfold in_uint. lia. }
  apply foldl_update_inj in E; [|by apply update_byte_range..].
  by apply update_byte_inj_byte in E.
Qed.

#[export] Hint Resolve Checksum_range Update_range : artie.
