(* ===== verification/WalRecord.v ===== *)
(** * Record framing ([internal/wal/record.go])

    [[4B length][1B type][4B header crc32c][4B record crc32c][payload]]: the
    record types, the two checksums and [Encode], with the facts [Replay] relies
    on: the layout of an encoded record, and the fields read back from it. *)

From Stdlib Require Import ZArith Lia.
From S2P Require Import Prelude GoInt Crc.

(** ** Types *)

(** [type Type uint8] and its constants. *)
Notation RecType := byte (only parsing).
Definition TypeMeta : RecType := x01.
Definition TypeEnqueue : RecType := x02.
Definition TypeAck : RecType := x03.
Definition TypeNack : RecType := x04.
Definition TypeLeaseExpire : RecType := x05.
Definition TypeDedup : RecType := x06.

Definition Type_String (t : RecType) : string :=
  if decide (t = TypeMeta) then "META"
  else if decide (t = TypeEnqueue) then "ENQUEUE"
  else if decide (t = TypeAck) then "ACK"
  else if decide (t = TypeNack) then "NACK"
  else if decide (t = TypeLeaseExpire) then "LEASE_EXPIRE"
  else if decide (t = TypeDedup) then "DEDUP"
  else "UNKNOWN".

Definition valid (t : RecType) : bool :=
  (byteZ TypeMeta <=? byteZ t) && (byteZ t <=? byteZ TypeDedup).

Definition HeaderSize : nat := 13.
Definition MaxRecordSize : Z := Z.shiftl 64 20.

(** [type Record struct] *)
Record Record_ := mkRecord {
  r_Type : RecType;
  r_Payload : list byte;
  r_Offset : Z;
}.

Definition EncodedLen (payload : list byte) : nat := (HeaderSize + length payload)%nat.

(** ** Checksums *)

Definition headerChecksum (hdr : list byte) : Z := Checksum (take 5 hdr) crcTable.

Definition recordChecksum (hdr payload : list byte) : Z :=
  let crc := Update 0 crcTable (take 5 hdr) in
  Update crc crcTable payload.

(** ** Encode *)

(** [binary.LittleEndian.PutUint32(hdr[off:off+4], v)] *)
Definition PutUint32 (off : nat) (v : Z) (hdr : list byte) : list byte :=
  take off hdr ++ le_bytes 4 (uint32 v) ++ drop (off + 4) hdr.

Definition encodeHeader (t : RecType) (payload : list byte) : list byte :=
  let hdr := replicate HeaderSize x00 in
  let hdr := PutUint32 0 (Z.of_nat (length payload)) hdr in
  let hdr := <[4%nat := t]> hdr in
  let hdr := PutUint32 5 (headerChecksum hdr) hdr in
  PutUint32 9 (recordChecksum hdr payload) hdr.

Definition Encode (dst : list byte) (t : RecType) (payload : list byte) : list byte :=
  let dst := dst ++ encodeHeader t payload in
  dst ++ payload.

(** ** The layout of an encoded record *)

(** The framing fields the header checksum covers. *)
Definition frame (t : RecType) (payload : list byte) : list byte :=
  le_bytes 4 (uint32 (Z.of_nat (length payload))) ++ [t].

Lemma length_frame t payload : length (frame t payload) = 5%nat.
Proof. unfold frame. by rewrite length_app, length_le_bytes. Qed.

Lemma PutUint32_app pre mid post off v :
  length pre = off -> length mid = 4%nat ->
  PutUint32 off v (pre ++ mid ++ post) = pre ++ le_bytes 4 (uint32 v) ++ post.
Proof.
  intros Hp Hm. unfold PutUint32.
  rewrite (take_app_length' pre (mid ++ post) off) by done.
  do 2 f_equal. rewrite app_assoc. apply drop_app_length'. rewrite length_app. lia.
Qed.

Lemma headerChecksum_layout fr r :
  length fr = 5%nat -> headerChecksum (fr ++ r) = Checksum fr crcTable.
Proof. intros. unfold headerChecksum. by rewrite (take_app_length' fr r 5). Qed.

Lemma recordChecksum_layout fr r payload :
  length fr = 5%nat -> recordChecksum (fr ++ r) payload = Checksum (fr ++ payload) crcTable.
Proof.
  intros. unfold recordChecksum. by rewrite (take_app_length' fr r 5), Update_app.
Qed.

Lemma encodeHeader_layout t payload :
  encodeHeader t payload =
    frame t payload
      ++ le_bytes 4 (Checksum (frame t payload) crcTable)
      ++ le_bytes 4 (Checksum (frame t payload ++ payload) crcTable).
Proof.
  unfold encodeHeader. cbv zeta.
  set (hdr0 := <[4%nat := t]> _).
  assert (hdr0 = frame t payload ++ replicate 4 x00 ++ replicate 4 x00) as ->.
  { subst hdr0. unfold PutUint32, frame, HeaderSize. cbn [le_bytes]. reflexivity. }
  pose proof (length_frame t payload) as Hfr.
  rewrite headerChecksum_layout, PutUint32_app, recordChecksum_layout by done.
  rewrite <- (app_nil_r (replicate 4 x00)), (app_assoc (frame t payload)).
  rewrite PutUint32_app by (rewrite ?length_app, ?length_le_bytes, ?Hfr; done).
  unfold uint32. rewrite !uint_small by apply Checksum_range.
  by rewrite app_nil_r, <- app_assoc.
Qed.

Lemma length_encodeHeader t payload : length (encodeHeader t payload) = HeaderSize.
Proof.
  rewrite encodeHeader_layout, !length_app, !length_le_bytes, length_frame. done.
Qed.

Lemma Encode_nil dst t payload : Encode dst t payload = dst ++ Encode [] t payload.
Proof. unfold Encode. by rewrite app_assoc. Qed.

Lemma Encode_split t payload : Encode [] t payload = encodeHeader t payload ++ payload.
Proof. done. Qed.

Lemma length_Encode t payload : length (Encode [] t payload) = EncodedLen payload.
Proof. by rewrite Encode_split, length_app, length_encodeHeader. Qed.

(** ** Reading the fields of a header *)

(** The four fields [Replay] reads from [hdr]. *)
Definition hdr_length (hdr : list byte) : Z := Uint32 (take 4 hdr).
Definition hdr_header (hdr : list byte) : Z := Uint32 (take 4 (drop 5 hdr)).
Definition hdr_record (hdr : list byte) : Z := Uint32 (take 4 (drop 9 hdr)).
Definition hdr_type (hdr : list byte) : RecType := hdr !!! 4%nat.

Lemma Uint32_take b : Uint32 (take 4 b) = Uint32 b.
Proof. unfold Uint32. by rewrite take_take. Qed.

(** A header is its fields: any 13 bytes are determined by length, type and the
    two stored checksums. *)
Lemma hdr_eta hdr :
  length hdr = HeaderSize ->
  hdr = (le_bytes 4 (hdr_length hdr) ++ [hdr_type hdr])
          ++ le_bytes 4 (hdr_header hdr) ++ le_bytes 4 (hdr_record hdr).
Proof.
  intros H. unfold HeaderSize in H.
  do 14 (destruct hdr as [|? hdr]; try done).
  unfold hdr_length, hdr_header, hdr_record, hdr_type. rewrite !Uint32_take.
  unfold Uint32. simpl take. rewrite !(le_bytes_le_Z [_; _; _; _]). reflexivity.
Qed.

Lemma MaxRecordSize_val : MaxRecordSize = 67108864.
Proof. reflexivity. Qed.

Section Fields.
Context (t : RecType) (payload : list byte).
Hypothesis Hlen : Z.of_nat (length payload) <= MaxRecordSize.

Lemma uint32_length : uint32 (Z.of_nat (length payload)) = Z.of_nat (length payload).
Proof using Hlen. apply uint_small. unfold in_uint. rewrite MaxRecordSize_val in Hlen. lia. Qed.

Lemma encodeHeader_length : hdr_length (encodeHeader t payload) = Z.of_nat (length payload).
Proof using Hlen.
  unfold hdr_length. rewrite encodeHeader_layout, Uint32_take. unfold frame.
  rewrite <- !app_assoc, Uint32_le_bytes; [apply uint32_length|].
  apply uint_range. lia.
Qed.

Lemma encodeHeader_type : hdr_type (encodeHeader t payload) = t.
Proof using. unfold hdr_type. rewrite encodeHeader_layout. reflexivity. Qed.

Lemma encodeHeader_header :
  hdr_header (encodeHeader t payload) = headerChecksum (encodeHeader t payload).
Proof using.
  unfold hdr_header. rewrite encodeHeader_layout, Uint32_take.
  rewrite headerChecksum_layout by apply length_frame.
  rewrite (drop_app_length' (frame t payload)) by by rewrite length_frame.
  by rewrite Uint32_le_bytes by auto with artie.
Qed.

Lemma encodeHeader_record :
  hdr_record (encodeHeader t payload) = recordChecksum (encodeHeader t payload) payload.
Proof using.
  unfold hdr_record. rewrite encodeHeader_layout, Uint32_take.
  rewrite recordChecksum_layout by apply length_frame.
  rewrite app_assoc, drop_app_length'
    by by rewrite length_app, length_frame, length_le_bytes.
  rewrite <- (app_nil_r (le_bytes 4 (Checksum (frame t payload ++ payload) crcTable))).
  by rewrite Uint32_le_bytes by auto with artie.
Qed.
End Fields.

(** The record type [Encode] writes is one [Replay] accepts exactly for the six
    constants. *)
Lemma valid_iff t :
  valid t = true <->
  t ∈ [TypeMeta; TypeEnqueue; TypeAck; TypeNack; TypeLeaseExpire; TypeDedup].
Proof.
  destruct t; split; intros H; try discriminate H;
    try (repeat (rewrite list_elem_of_In in * || simpl in * || intuition congruence); fail);
    try reflexivity.
  all: repeat (apply elem_of_cons in H as [H|H]; [discriminate H|]); inversion H.
Qed.
