(* ===== verification/Replay.v ===== *)
(** * Reading a log back ([internal/wal/replay.go])

    [Replay]: every record in order to a callback, a torn tail reported, any
    damage an error naming the offset.  [next] and [scans] say what the bytes of
    a log mean independently of the loop; [Replay_spec] is the refinement, and
    the corruption policy is a set of theorems about [next]. *)

From Stdlib Require Import ZArith Lia.
From S2P Require Import Prelude GoInt Errors Crc WalRecord.

(** ** Results *)

Record TornTail := mkTorn { t_Offset : Z; t_Bytes : Z }.

Record ReplayResult := mkResult {
  ValidBytes : Z;
  Records : Z;
  Torn : option TornTail;
}.

(** What [os.Open], [Stat] and the reads see of the file at a path. *)
Record FileView := mkFile {
  f_data : list byte;
  f_stat_err : option Err;
  f_read_err : Z -> option Err;   (** an I/O error reading at an offset *)
}.

Inductive Opened :=
  | NotExist
  | OpenErr (e : Err)
  | OpenOk (f : FileView).

(** A file that is simply there. *)
Definition plainFile (data : list byte) : FileView := mkFile data None (fun _ => None).

(** ** Replay *)

Section Replay.
Context {St : Type} (path : string) (fn : Record_ -> St -> St * option Err).

Section Loop.
Context (f : FileView).
Let size : Z := Z.of_nat (length (f_data f)).

(** [io.ReadFull(br, buf)] for [n] bytes with the reader at [off]. *)
Definition ReadFull (off : Z) (n : nat) : list byte + Err :=
  match f_read_err f off with
  | Some e => inr e
  | None => inl (take n (drop (Z.to_nat off) (f_data f)))
  end.

(** The [for] loop: [None] if [fuel] iterations do not finish it. *)
Fixpoint replay_loop (fuel : nat) (off : Z) (records : Z) (st : St)
    : option (ReplayResult * option Err * St) :=
  let failed e st := Some (mkResult 0 records None, Some e, st) in
  match fuel with
  | O => None
  | S fuel =>
    let remaining := size - off in
    if remaining =? 0 then Some (mkResult off records None, None, st)
    else if remaining <? Z.of_nat HeaderSize then
      Some (mkResult off records (Some (mkTorn off remaining)), None, st)
    else match ReadFull off HeaderSize with
    | inr e => failed (EReadingHeader off path e) st
    | inl hdr =>
      let len := hdr_length hdr in
      let wantHeader := hdr_header hdr in
      let wantRecord := hdr_record hdr in
      let got := headerChecksum hdr in
      if negb (got =? wantHeader) then
        failed (CorruptionError path off (HeaderChecksumMismatch wantHeader got)) st
      else if len >? MaxRecordSize then
        failed (CorruptionError path off (LengthExceedsMaximum len)) st
      else if len >? remaining - Z.of_nat HeaderSize then
        Some (mkResult off records (Some (mkTorn off remaining)), None, st)
      else match ReadFull (off + Z.of_nat HeaderSize) (Z.to_nat len) with
      | inr e => failed (EReadingPayload off path e) st
      | inl payload =>
        let got := recordChecksum hdr payload in
        if negb (got =? wantRecord) then
          failed (CorruptionError path off (ChecksumMismatch wantRecord got len)) st
        else
          let t := hdr_type hdr in
          if negb (valid t) then
            failed (CorruptionError path off (UnknownRecordType t)) st
          else
            let (st, err) := fn (mkRecord t payload off) st in
            match err with
            | Some e => failed (EApplying t off e) st
            | None => replay_loop fuel (off + (Z.of_nat HeaderSize + len)) (records + 1) st
            end
      end
    end
  end.
End Loop.

(** Every iteration that goes on consumes a header, so one more iteration than
    there are bytes is enough ([replay_terminates]). *)
Definition Replay (file : Opened) (st : St) : option (ReplayResult * option Err * St) :=
  match file with
  | NotExist => Some (mkResult 0 0 None, None, st)
  | OpenErr e => Some (mkResult 0 0 None, Some e, st)
  | OpenOk f =>
    match f_stat_err f with
    | Some e => Some (mkResult 0 0 None, Some e, st)
    | None => replay_loop f (S (length (f_data f))) 0 0 st
    end
  end.
End Replay.

(** ** What the bytes of a log mean *)

(** The first item of a byte string. *)
Inductive Item :=
  | IClean                                             (* no bytes left *)
  | ITorn                                              (* ends inside a record *)
  | IBad (reason : CorruptionReason)
  | IRecord (t : RecType) (payload rest : list byte).

Definition next (rest : list byte) : Item :=
  let n := Z.of_nat (length rest) in
  if n =? 0 then IClean
  else if n <? Z.of_nat HeaderSize then ITorn
  else
    let hdr := take HeaderSize rest in
    let len := hdr_length hdr in
    if negb (headerChecksum hdr =? hdr_header hdr) then
      IBad (HeaderChecksumMismatch (hdr_header hdr) (headerChecksum hdr))
    else if len >? MaxRecordSize then IBad (LengthExceedsMaximum len)
    else if len >? n - Z.of_nat HeaderSize then ITorn
    else
      let payload := take (Z.to_nat len) (drop HeaderSize rest) in
      if negb (recordChecksum hdr payload =? hdr_record hdr) then
        IBad (ChecksumMismatch (hdr_record hdr) (recordChecksum hdr payload) len)
      else if negb (valid (hdr_type hdr)) then IBad (UnknownRecordType (hdr_type hdr))
      else IRecord (hdr_type hdr) payload (drop (Z.to_nat len) (drop HeaderSize rest)).

(** How a log ends, with the offset where it does. *)
Inductive Ending :=
  | EndClean (off : Z)
  | EndTorn (off bytes : Z)
  | EndBad (off : Z) (reason : CorruptionReason).

(** [scans off rest recs e]: from [off], the bytes [rest] hold the complete,
    verified records [recs] and then end as [e] says. *)
Inductive scans : Z -> list byte -> list Record_ -> Ending -> Prop :=
  | scans_clean off rest :
      next rest = IClean -> scans off rest [] (EndClean off)
  | scans_torn off rest :
      next rest = ITorn -> scans off rest [] (EndTorn off (Z.of_nat (length rest)))
  | scans_bad off rest reason :
      next rest = IBad reason -> scans off rest [] (EndBad off reason)
  | scans_record off rest t payload rest' recs e :
      next rest = IRecord t payload rest' ->
      scans (off + Z.of_nat (EncodedLen payload)) rest' recs e ->
      scans off rest (mkRecord t payload off :: recs) e.

(** Handing records to the callback, in order, until it fails. *)
Fixpoint deliver {St} (fn : Record_ -> St -> St * option Err)
    (recs : list Record_) (n : Z) (st : St) : St * Z * option Err :=
  match recs with
  | [] => (st, n, None)
  | r :: recs =>
    let (st, err) := fn r st in
    match err with
    | Some e => (st, n, Some (EApplying (r_Type r) (r_Offset r) e))
    | None => deliver fn recs (n + 1) st
    end
  end.

(** The result of a replay whose records were all accepted. *)
Definition ending_result (path : string) (n : Z) (e : Ending) : ReplayResult * option Err :=
  match e with
  | EndClean off => (mkResult off n None, None)
  | EndTorn off bytes => (mkResult off n (Some (mkTorn off bytes)), None)
  | EndBad off reason => (mkResult 0 n None, Some (CorruptionError path off reason))
  end.

Definition replay_outcome {St} (path : string) (fn : Record_ -> St -> St * option Err)
    (recs : list Record_) (e : Ending) (n : Z) (st : St) : ReplayResult * option Err * St :=
  match deliver fn recs n st with
  | (st, n, Some err) => (mkResult 0 n None, Some err, st)
  | (st, n, None) => (ending_result path n e, st)
  end.

(** ** The loop follows [scans] *)

Lemma next_record_inv rest t payload rest' :
  next rest = IRecord t payload rest' ->
  rest = Encode [] t payload ++ rest' /\ valid t = true /\
  Z.of_nat (length payload) <= MaxRecordSize.
Proof.
  unfold next. intros H. cbv zeta in H. repeat case_if_in H; try done. bool_prop. inv H.
  set (hdr := take HeaderSize rest) in *.
  assert (length hdr = HeaderSize) as Hh.
  { subst hdr. apply length_take_le. unfold HeaderSize in *. lia. }
  assert (length (drop HeaderSize rest) = (length rest - HeaderSize)%nat) as Hd
    by apply length_drop.
  pose proof (Uint32_range (take 4 hdr)) as Hr. fold (hdr_length hdr) in Hr.
  unfold in_uint in Hr.
  set (payload := take _ (drop HeaderSize rest)) in *.
  assert (length payload = Z.to_nat (hdr_length hdr)) as Hp.
  { subst payload. apply length_take_le. unfold HeaderSize in *. lia. }
  split; [|split; [done|rewrite Hp; lia]].
  rewrite <- (take_drop HeaderSize rest) at 1. fold hdr.
  rewrite <- (take_drop (Z.to_nat (hdr_length hdr)) (drop HeaderSize rest)) at 1.
  fold payload. rewrite Encode_split, <- app_assoc. f_equal.
  rewrite encodeHeader_layout. unfold frame. rewrite Hp, Z2Nat.id by lia.
  unfold uint32. rewrite uint_small by (unfold in_uint; lia).
  rewrite (hdr_eta hdr) at 1 by done.
  assert (take 5 hdr = le_bytes 4 (hdr_length hdr) ++ [hdr_type hdr]) as H5.
  { rewrite (hdr_eta hdr) at 1 by done. reflexivity. }
  unfold headerChecksum, recordChecksum in *. rewrite Update_app, H5 in *.
  change (Update 0 crcTable ?p) with (Checksum p crcTable) in *. congruence.
Qed.

Lemma next_clean_inv rest : next rest = IClean -> rest = [].
Proof.
  unfold next. intros H. cbv zeta in H. repeat case_if_in H; try done. bool_prop.
  by apply nil_length_inv, Nat2Z.inj.
Qed.

Lemma length_record_rest t payload rest' :
  length (Encode [] t payload ++ rest') = (EncodedLen payload + length rest')%nat.
Proof. by rewrite length_app, length_Encode. Qed.

(** Every byte string has a scan, and only one. *)
Lemma scans_total off rest : exists recs e, scans off rest recs e.
Proof.
  remember (length rest) as n eqn:Hn. revert off rest Hn.
  induction n as [n IH] using lt_wf_ind. intros off rest ->.
  destruct (next rest) as [| |reason|t payload rest'] eqn:E;
    try (eexists [], _; by constructor).
  pose proof (next_record_inv _ _ _ _ E) as [-> _].
  destruct (IH (length rest') ltac:(rewrite length_record_rest; unfold EncodedLen, HeaderSize; lia)
    (off + Z.of_nat (EncodedLen payload)) rest' eq_refl) as (recs & e & Hs).
  eexists _, _. by eapply scans_record.
Qed.

Lemma scans_det off rest r1 e1 r2 e2 :
  scans off rest r1 e1 -> scans off rest r2 e2 -> r1 = r2 /\ e1 = e2.
Proof.
  intros H. revert r2 e2. induction H; intros r2 e2 H2; inversion H2; subst; try congruence;
    try (split; congruence).
  match goal with
  | E1 : next ?r = IRecord _ _ _, E2 : next ?r = IRecord _ _ _ |- _ =>
      rewrite E1 in E2; injection E2 as <- <- <-
  end.
  destruct (IHscans _ _ ltac:(eassumption)) as [-> ->]. done.
Qed.

Section Loop.
Context {St : Type} (path : string) (fn : Record_ -> St -> St * option Err).
Context (data : list byte).

(** One iteration of the loop, in terms of [next]. *)
Lemma replay_loop_next fuel off records st :
  0 <= off <= Z.of_nat (length data) ->
  replay_loop path fn (plainFile data) (S fuel) off records st =
  let rest := drop (Z.to_nat off) data in
  match next rest with
  | IClean => Some (mkResult off records None, None, st)
  | ITorn => Some (mkResult off records (Some (mkTorn off (Z.of_nat (length rest)))), None, st)
  | IBad reason => Some (mkResult 0 records None, Some (CorruptionError path off reason), st)
  | IRecord t payload _ =>
    match fn (mkRecord t payload off) st with
    | (st, Some e) => Some (mkResult 0 records None, Some (EApplying t off e), st)
    | (st, None) =>
      replay_loop path fn (plainFile data) fuel
        (off + Z.of_nat (EncodedLen payload)) (records + 1) st
    end
  end.
Proof using.
  intros Hoff. set (rest := drop (Z.to_nat off) data).
  assert (Z.of_nat (length data) - off = Z.of_nat (length rest)) as Hn
    by (subst rest; rewrite length_drop; lia).
  assert (drop (Z.to_nat (off + Z.of_nat HeaderSize)) data = drop HeaderSize rest) as Hd.
  { subst rest. rewrite drop_drop. f_equal. lia. }
  cbn [replay_loop]. unfold ReadFull, plainFile. cbn [f_data f_read_err].
  fold rest. rewrite Hn, Hd. unfold next. cbv zeta.
  repeat (case_if_goal; [done|]).
  bool_prop.
  destruct (fn _ st) as [st' [e|]]; [done|].
  pose proof (Uint32_range (take 4 (take HeaderSize rest))) as Hr.
  fold (hdr_length (take HeaderSize rest)) in Hr. unfold in_uint in Hr.
  do 2 f_equal. unfold EncodedLen. rewrite length_take, length_drop.
  unfold HeaderSize in *. lia.
Qed.

(** The loop from [off] does what the scan of the rest of the file says. *)
Lemma replay_loop_scans off rest recs e :
  scans off rest recs e ->
  forall fuel records st,
  0 <= off -> rest = drop (Z.to_nat off) data -> (Z.to_nat off <= length data)%nat ->
  (length rest < fuel)%nat ->
  replay_loop path fn (plainFile data) fuel off records st =
    Some (replay_outcome path fn recs e records st).
Proof using.
  induction 1 as [off rest E|off rest E|off rest reason E|off rest t payload rest' recs e E H IH];
    intros [|fuel] records st Hoff Hrest Hle Hfuel; try lia;
    rewrite replay_loop_next by lia; cbv zeta; rewrite <- Hrest, E; try done.
  pose proof (next_record_inv _ _ _ _ E) as [Hr _].
  assert (length rest = (EncodedLen payload + length rest')%nat) as Hl
    by (rewrite Hr; apply length_record_rest).
  unfold replay_outcome. cbn [deliver r_Type r_Offset].
  destruct (fn _ st) as [st' [err|]]; [done|].
  assert (length rest = (length data - Z.to_nat off)%nat) by (rewrite Hrest; apply length_drop).
  unfold EncodedLen, HeaderSize in *.
  rewrite IH; [done|lia| |lia|lia].
  replace (Z.to_nat _) with (Z.to_nat off + (13 + length payload))%nat by lia.
  rewrite <- drop_drop, <- Hrest, Hr. symmetry. apply drop_app_length'.
  by rewrite length_Encode.
Qed.

Lemma Replay_scans recs e st :
  scans 0 data recs e ->
  Replay path fn (OpenOk (plainFile data)) st = Some (replay_outcome path fn recs e 0 st).
Proof using.
  intros H. unfold Replay, plainFile. cbn [f_stat_err f_data]. fold (plainFile data).
  eapply replay_loop_scans; [exact H|lia|done|lia|lia].
Qed.
End Loop.

(** ** Logs written by [Encode] *)

Definition Entry : Type := RecType * list byte.

Definition encode_entry (e : Entry) : list byte := Encode [] e.1 e.2.

(** The bytes of a sequence of appended records. *)
Definition encode_all (es : list Entry) : list byte := concat (map encode_entry es).

(** What [Replay] accepts: a known type and a payload within the bound. *)
Definition entry_ok (e : Entry) : Prop :=
  valid e.1 = true /\ Z.of_nat (length e.2) <= MaxRecordSize.

(** The records [Replay] reports for entries written from offset [off]. *)
Fixpoint records_at (off : Z) (es : list Entry) : list Record_ :=
  match es with
  | [] => []
  | (t, p) :: es => mkRecord t p off :: records_at (off + Z.of_nat (EncodedLen p)) es
  end.

Lemma encode_all_cons e es : encode_all (e :: es) = encode_entry e ++ encode_all es.
Proof. done. Qed.

Lemma encode_all_app es1 es2 : encode_all (es1 ++ es2) = encode_all es1 ++ encode_all es2.
Proof. unfold encode_all. by rewrite map_app, concat_app. Qed.

Lemma encode_all_snoc es e : encode_all (es ++ [e]) = encode_all es ++ encode_entry e.
Proof. by rewrite encode_all_app, encode_all_cons, app_nil_r. Qed.

Lemma length_encode_entry e : length (encode_entry e) = EncodedLen e.2.
Proof. apply length_Encode. Qed.

Lemma length_records_at off es : length (records_at off es) = length es.
Proof. revert off. induction es as [|[t p] es IH]; intros; simpl; auto. Qed.

(** [next] when the header is complete. *)
Lemma next_header hdr body :
  length hdr = HeaderSize ->
  next (hdr ++ body) =
    let len := hdr_length hdr in
    if negb (headerChecksum hdr =? hdr_header hdr) then
      IBad (HeaderChecksumMismatch (hdr_header hdr) (headerChecksum hdr))
    else if len >? MaxRecordSize then IBad (LengthExceedsMaximum len)
    else if len >? Z.of_nat (length body) then ITorn
    else
      let payload := take (Z.to_nat len) body in
      if negb (recordChecksum hdr payload =? hdr_record hdr) then
        IBad (ChecksumMismatch (hdr_record hdr) (recordChecksum hdr payload) len)
      else if negb (valid (hdr_type hdr)) then IBad (UnknownRecordType (hdr_type hdr))
      else IRecord (hdr_type hdr) payload (drop (Z.to_nat len) body).
Proof.
  intros H. unfold next. cbv zeta. rewrite length_app, H.
  rewrite (take_app_length' hdr body), (drop_app_length' hdr body) by done.
  unfold HeaderSize in *.
  destruct (Z.eqb_spec (Z.of_nat (13 + length body)) 0); [lia|].
  destruct (Z.ltb_spec (Z.of_nat (13 + length body)) (Z.of_nat 13)); [lia|].
  replace (Z.of_nat (13 + length body) - Z.of_nat 13) with (Z.of_nat (length body)) by lia.
  done.
Qed.

Section OneEntry.
Context (t : RecType) (p : list byte).
Hypothesis Hok : entry_ok (t, p).

Lemma header_passes :
  negb (headerChecksum (encodeHeader t p) =? hdr_header (encodeHeader t p)) = false /\
  (hdr_length (encodeHeader t p) >? MaxRecordSize) = false.
Proof using Hok.
  destruct Hok as [_ Hl]. simpl in Hl. rewrite encodeHeader_header, encodeHeader_length by done.
  rewrite Z.eqb_refl, Z.gtb_ltb. split; [done|]. by apply Z.ltb_ge.
Qed.

(** An encoded record is read back, whatever follows it. *)
Lemma next_Encode tail : next (Encode [] t p ++ tail) = IRecord t p tail.
Proof using Hok.
  rewrite Encode_split, <- app_assoc, next_header by apply length_encodeHeader.
  cbv zeta. destruct header_passes as [-> ->]. destruct Hok as [Hv Hl]. simpl in Hv, Hl.
  rewrite encodeHeader_length, encodeHeader_type, encodeHeader_record by done.
  rewrite Nat2Z.id, (take_app_length' p tail), (drop_app_length' p tail) by done.
  rewrite Z.eqb_refl, Hv, length_app, Z.gtb_ltb.
  destruct (Z.ltb_spec (Z.of_nat (length p + length tail)) (Z.of_nat (length p))); [lia|].
  done.
Qed.

(** A file that ends strictly inside a record is torn there, never corrupt. *)
Lemma next_torn k :
  (0 < k < EncodedLen p)%nat -> next (take k (Encode [] t p)) = ITorn.
Proof using Hok.
  intros Hk. unfold EncodedLen in Hk.
  destruct (decide (k < HeaderSize)%nat) as [Hs|Hs].
  - unfold next. rewrite length_take_le
      by (rewrite length_Encode; unfold EncodedLen, HeaderSize in *; lia).
    cbv zeta. unfold HeaderSize in *.
    destruct (Z.eqb_spec (Z.of_nat k) 0); [lia|].
    destruct (Z.ltb_spec (Z.of_nat k) (Z.of_nat 13)); [done|lia].
  - rewrite Encode_split, take_app_ge by (rewrite length_encodeHeader; lia).
    rewrite next_header by apply length_encodeHeader.
    cbv zeta. destruct header_passes as [-> ->]. destruct Hok as [_ Hl]. simpl in Hl.
    rewrite encodeHeader_length, length_encodeHeader by done.
    rewrite length_take_le by lia. rewrite Z.gtb_ltb.
    destruct (Z.ltb_spec (Z.of_nat (k - HeaderSize)) (Z.of_nat (length p))); [done|lia].
Qed.

(** Damage to one byte. *)

Lemma Checksum_insert l i b b' :
  l !! i = Some b -> b <> b' ->
  Checksum (<[i := b']> l) crcTable <> Checksum l crcTable.
Proof using.
  intros Hi Hne E.
  assert (i < length l)%nat by by eapply lookup_lt_Some.
  rewrite <- (take_drop_middle l i b Hi), insert_app_r_alt in E
    by (rewrite length_take_le; lia).
  rewrite length_take_le, Nat.sub_diag in E by lia. simpl in E.
  by apply Checksum_single_byte in E.
Qed.

Lemma le_bytes_insert_ne v i b b' :
  le_bytes 4 v !! i = Some b -> b <> b' -> le_Z (<[i := b']> (le_bytes 4 v)) <> le_Z (le_bytes 4 v).
Proof using.
  intros Hi Hne E. apply le_Z_inj in E; [|by rewrite length_insert].
  apply (f_equal (.!! i)) in E.
  rewrite list_lookup_insert_eq in E by by eapply lookup_lt_Some. congruence.
Qed.

(** [next] on the four parts of a header. *)
Lemma next_fields fr h r body :
  length fr = 5%nat -> length h = 4%nat -> length r = 4%nat ->
  next (fr ++ h ++ r ++ body) =
    let len := le_Z (take 4 fr) in
    if negb (Checksum fr crcTable =? le_Z h) then IBad (HeaderChecksumMismatch (le_Z h) (Checksum fr crcTable))
    else if len >? MaxRecordSize then IBad (LengthExceedsMaximum len)
    else if len >? Z.of_nat (length body) then ITorn
    else
      let payload := take (Z.to_nat len) body in
      if negb (Checksum (fr ++ payload) crcTable =? le_Z r) then
        IBad (ChecksumMismatch (le_Z r) (Checksum (fr ++ payload) crcTable) len)
      else if negb (valid (fr !!! 4%nat)) then IBad (UnknownRecordType (fr !!! 4%nat))
      else IRecord (fr !!! 4%nat) payload (drop (Z.to_nat len) body).
Proof using.
  intros Hf Hh Hr.
  replace (fr ++ h ++ r ++ body) with ((fr ++ h ++ r) ++ body) by by rewrite <- !app_assoc.
  rewrite next_header by (unfold HeaderSize; rewrite !length_app; lia).
  rewrite headerChecksum_layout by done.
  assert (hdr_length (fr ++ h ++ r) = le_Z (take 4 fr)) as ->.
  { unfold hdr_length, Uint32. by rewrite take_take, take_app_le by lia. }
  assert (hdr_header (fr ++ h ++ r) = le_Z h) as ->.
  { unfold hdr_header. rewrite Uint32_take, (drop_app_length' fr) by done.
    unfold Uint32. by rewrite take_app_length'. }
  assert (hdr_record (fr ++ h ++ r) = le_Z r) as ->.
  { unfold hdr_record. rewrite Uint32_take, app_assoc, drop_app_length'
      by (rewrite length_app; lia).
    unfold Uint32. by rewrite take_ge by lia. }
  assert (hdr_type (fr ++ h ++ r) = fr !!! 4%nat) as ->.
  { unfold hdr_type. apply lookup_total_app_l. lia. }
  cbv zeta. by rewrite recordChecksum_layout.
Qed.

Lemma le_Z_checksum l : le_Z (le_bytes 4 (Checksum l crcTable)) = Checksum l crcTable.
Proof using. rewrite le_Z_le_bytes. apply Z.mod_small, (Checksum_range l). Qed.

Lemma neqb_true x y : x <> y -> negb (x =? y) = true.
Proof using. intros. by apply negb_true_iff, Z.eqb_neq. Qed.

Lemma frame_length : le_Z (take 4 (frame t p)) = Z.of_nat (length p).
Proof using Hok.
  destruct Hok as [_ Hl]. simpl in Hl. unfold frame.
  rewrite uint32_length, (take_app_length' _ _ 4), le_Z_le_bytes by (done || by rewrite length_le_bytes).
  apply Z.mod_small. rewrite MaxRecordSize_val in Hl. lia.
Qed.

(** Changing one byte of a record to any other value is detected as damage to
    that record, whatever follows. *)
Lemma next_flip i b b' tail :
  Encode [] t p !! i = Some b -> b <> b' ->
  exists reason, next (<[i := b']> (Encode [] t p) ++ tail) = IBad reason.
Proof using Hok.
  rewrite Encode_split, encodeHeader_layout, <- !app_assoc. intros Hi Hne.
  set (fr := frame t p) in *. assert (length fr = 5%nat) as Hf by apply length_frame.
  set (h := le_bytes 4 (Checksum fr crcTable)) in *.
  set (r := le_bytes 4 (Checksum (fr ++ p) crcTable)) in *.
  assert (length h = 4%nat) as Hh by apply length_le_bytes.
  assert (length r = 4%nat) as Hr by apply length_le_bytes.
  pose proof (le_Z_checksum fr) as Eh. fold h in Eh.
  pose proof (le_Z_checksum (fr ++ p)) as Er. fold r in Er.
  pose proof frame_length as El. fold fr in El.
  apply lookup_app_Some in Hi as [Hi|[Hge Hi]].
  { rewrite insert_app_l by by eapply lookup_lt_Some. rewrite <- !app_assoc, next_fields
      by (rewrite ?length_insert; done).
    cbv zeta. rewrite neqb_true; [by eexists|]. rewrite Eh. by eapply Checksum_insert. }
  rewrite insert_app_r_alt by done. set (j := (i - length fr)%nat) in *.
  apply lookup_app_Some in Hi as [Hi|[Hge' Hi]].
  { rewrite insert_app_l by by eapply lookup_lt_Some. rewrite <- !app_assoc, next_fields
      by (rewrite ?length_insert; done).
    cbv zeta. rewrite neqb_true; [by eexists|]. rewrite <- Eh.
    by apply not_eq_sym, le_bytes_insert_ne with b. }
  rewrite insert_app_r_alt by done. set (k := (j - length h)%nat) in *.
  assert ((Z.of_nat (length p) >? MaxRecordSize) = false) as Hmax.
  { destruct Hok as [_ Hl]. rewrite Z.gtb_ltb. by apply Z.ltb_ge. }
  assert (forall q, length q = length p ->
    (Z.of_nat (length p) >? Z.of_nat (length (q ++ tail))) = false /\
    take (Z.to_nat (Z.of_nat (length p))) (q ++ tail) = q) as Hq.
  { intros q Hq. rewrite Z.gtb_ltb, length_app, Nat2Z.id. split; [apply Z.ltb_ge; lia|].
    by rewrite take_app_length'. }
  apply lookup_app_Some in Hi as [Hi|[Hge'' Hi]].
  - rewrite insert_app_l by by eapply lookup_lt_Some. rewrite <- !app_assoc, next_fields
      by (rewrite ?length_insert; done).
    cbv zeta. rewrite El, <- Eh, Z.eqb_refl, Hmax. cbn [negb].
    destruct (Hq p eq_refl) as [-> ->].
    rewrite neqb_true; [by eexists|]. rewrite <- Er.
    by apply not_eq_sym, le_bytes_insert_ne with b.
  - rewrite insert_app_r_alt by done. set (n := (k - length r)%nat) in *.
    rewrite <- !app_assoc, next_fields by done.
    cbv zeta. rewrite El, <- Eh, Z.eqb_refl, Hmax. cbn [negb].
    destruct (Hq (<[n:=b']> p)) as [-> ->]; [apply length_insert|].
    rewrite neqb_true; [by eexists|]. rewrite Er.
    rewrite <- (insert_app_r fr p n b'). eapply Checksum_insert; [|done].
    by rewrite lookup_app_r, Nat.add_sub' by lia.
Qed.
End OneEntry.

#[export] Hint Rewrite encode_all_app encode_all_cons length_encode_entry : artie.

(** ** Scanning concatenations *)

Lemma scans_encode_all es tail recs e off :
  Forall entry_ok es ->
  scans (off + Z.of_nat (length (encode_all es))) tail recs e ->
  scans off (encode_all es ++ tail) (records_at off es ++ recs) e.
Proof.
  intros Hok. revert off. induction Hok as [|[t p] es He Hes IH]; intros off Hs.
  - by rewrite Z.add_0_r in Hs.
  - rewrite encode_all_cons, length_app, length_encode_entry, Nat2Z.inj_add, Z.add_assoc in Hs.
    rewrite encode_all_cons, <- app_assoc. eapply scans_record.
    + by apply next_Encode.
    + by apply IH.
Qed.

Lemma scans_decompose off rest recs e :
  scans off rest recs e ->
  exists es tail,
    rest = encode_all es ++ tail /\ Forall entry_ok es /\ recs = records_at off es /\
    scans (off + Z.of_nat (length (encode_all es))) tail [] e.
Proof.
  induction 1 as [off rest E|off rest E|off rest reason E|off rest t payload rest' recs e E H IH];
    try (exists [], rest; split_and!; try done; simpl; rewrite Z.add_0_r; by constructor).
  destruct IH as (es & tail & -> & Hok & -> & Hs).
  apply next_record_inv in E as (-> & Hv & Hl).
  exists ((t, payload) :: es), tail. split_and!; [by rewrite encode_all_cons, <- app_assoc| |done|].
  - by constructor.
  - by rewrite encode_all_cons, length_app, length_encode_entry, Nat2Z.inj_add, Z.add_assoc.
Qed.

Lemma next_clean : next [] = IClean.
Proof. done. Qed.

(** The entries of [es] that lie completely within the first [n] bytes. *)
Fixpoint fitting (n : nat) (es : list Entry) : list Entry :=
  match es with
  | [] => []
  | e :: es =>
    if (length (encode_entry e) <=? n)%nat then e :: fitting (n - length (encode_entry e)) es
    else []
  end.

(** How a log cut after [n] bytes ends. *)
Definition cut_ending (n : nat) (es : list Entry) : Ending :=
  let v := length (encode_all (fitting n es)) in
  if (v =? n)%nat then EndClean (Z.of_nat n)
  else EndTorn (Z.of_nat v) (Z.of_nat n - Z.of_nat v).

Lemma fitting_prefix n es : fitting n es `prefix_of` es.
Proof.
  revert n. induction es as [|e es IH]; intros n; simpl; [done|].
  case_if_goal; [by apply prefix_cons|apply prefix_nil].
Qed.

Lemma scans_cut es n off :
  Forall entry_ok es -> (n <= length (encode_all es))%nat ->
  exists tail,
    take n (encode_all es) = encode_all (fitting n es) ++ tail /\
    (length (encode_all (fitting n es)) + length tail = n)%nat /\
    scans off tail [] (if decide (tail = []) then EndClean off
                       else EndTorn off (Z.of_nat (length tail))).
Proof.
  intros Hok. revert n. induction Hok as [|[t p] es He Hes IH]; intros n Hn.
  - change (encode_all []) with (@nil byte) in *. simpl in Hn.
    exists []. rewrite take_nil. split_and!; [done|simpl; lia|]. by constructor.
  - cbn [fitting]. destruct (Nat.leb_spec (length (encode_entry (t, p))) n) as [Hle|Hgt].
    + rewrite encode_all_cons, length_app in Hn.
      destruct (IH (n - length (encode_entry (t, p)))%nat ltac:(lia)) as (tail & Ht & Hl & Hs).
      exists tail. rewrite !encode_all_cons, take_app_ge, Ht, length_app, <- app_assoc by lia.
      split_and!; [done|lia|done].
    + exists (take n (encode_entry (t, p))).
      rewrite encode_all_cons, take_app_le, length_take_le by lia. split_and!; [done..|].
      rewrite length_encode_entry in Hgt.
      destruct (decide _) as [E|E].
      * rewrite E. by constructor.
      * rewrite <- (length_take_le (encode_entry (t, p)) n) at 2
          by (rewrite length_encode_entry; lia).
        apply scans_torn, next_torn; [done|].
        destruct n; [done|]. simpl in *. lia.
Qed.

(** Replaying a log cut after [n] bytes. *)
Lemma Replay_cut {St} path (fn : Record_ -> St -> St * option Err) es n st :
  Forall entry_ok es -> (n <= length (encode_all es))%nat ->
  Replay path fn (OpenOk (plainFile (take n (encode_all es)))) st
  = Some (replay_outcome path fn (records_at 0 (fitting n es)) (cut_ending n es) 0 st).
Proof.
  intros Hok Hn.
  destruct (scans_cut es n (Z.of_nat (length (encode_all (fitting n es)))) Hok Hn)
    as (tail & Ht & Hl & Hs).
  apply Replay_scans. rewrite Ht, <- (app_nil_r (records_at _ _)).
  apply scans_encode_all; [by eapply Forall_prefix_of; [apply fitting_prefix|]|].
  unfold cut_ending. destruct (decide (tail = [])) as [->|Hne]; simpl in Hl.
  - rewrite (proj2 (Nat.eqb_eq _ n)) by lia. replace n with (length (encode_all (fitting n es))) at 2 by lia. done.
  - rewrite (proj2 (Nat.eqb_neq _ n)) by (destruct tail; simpl in *; [done|lia]).
    replace (Z.of_nat n - _) with (Z.of_nat (length tail)) by lia. done.
Qed.

(** Records that end before the cut are all delivered. *)
Lemma fitting_app n es1 es2 :
  (length (encode_all es1) <= n)%nat -> es1 `prefix_of` fitting n (es1 ++ es2).
Proof.
  revert n. induction es1 as [|e es1 IH]; intros n Hn; [apply prefix_nil|].
  rewrite encode_all_cons, length_app in Hn. cbn [app fitting].
  rewrite (proj2 (Nat.leb_le _ _)) by lia. apply prefix_cons, IH. lia.
Qed.

(** ** Termination *)

Lemma replay_loop_terminates {St} path (fn : Record_ -> St -> St * option Err) f fuel off records st :
  0 <= off <= Z.of_nat (length (f_data f)) ->
  (length (f_data f) - Z.to_nat off < fuel)%nat ->
  is_Some (replay_loop path fn f fuel off records st).
Proof.
  revert off records st. induction fuel as [|fuel IH]; intros off records st Hoff Hf; [lia|].
  cbn [replay_loop]. set (rem := _ - off).
  repeat (case_if_goal; [by eexists|]).
  destruct (ReadFull f off HeaderSize) as [hdr|e]; [|by eexists].
  repeat (case_if_goal; [by eexists|]).
  destruct (ReadFull f _ _) as [payload|e]; [|by eexists].
  repeat (case_if_goal; [by eexists|]).
  destruct (fn _ st) as [st' [err|]]; [by eexists|].
  pose proof (Uint32_range (take 4 hdr)) as Hr. fold (hdr_length hdr) in Hr. unfold in_uint in Hr.
  bool_prop. unfold HeaderSize in *. apply IH; lia.
Qed.
