(* ===== verification/ReplayProps.v ===== *)
(** * The corruption policy of [wal.Replay]

    The properties of replay: it terminates on every file; on what [Encode]
    wrote it delivers exactly that, in order; a log cut anywhere is a torn tail
    and never an error; a log with one damaged byte is always an error naming
    the damaged record; and whatever it accepts is, byte for byte, what
    [Encode] writes. *)

From Stdlib Require Import ZArith Lia.
From S2P Require Import Prelude GoInt Errors WalRecord Replay.

(** A record with one byte changed stops [Replay] at its offset, for the same
    reason whoever reads it. *)
Lemma Replay_damaged (pre : list Entry) (t : byte) (p tail : list byte) (i : nat) (b b' : byte) :
  Forall entry_ok pre -> entry_ok (t, p) -> Encode [] t p !! i = Some b -> b <> b' ->
  exists reason, forall St path (fn : Record_ -> St -> St * option Err) st st' n,
    deliver fn (records_at 0 pre) 0 st = (st', n, None) ->
    Replay path fn (OpenOk (plainFile (encode_all pre ++ <[i := b']> (Encode [] t p) ++ tail))) st
    = Some (mkResult 0 n None,
            Some (CorruptionError path (Z.of_nat (length (encode_all pre))) reason), st').
Proof.
  intros Hpre Hok Hi Hne. destruct (next_flip t p Hok i b b' tail Hi Hne) as [reason Hr]. exists reason.
  intros St path fn st st' n Hd. erewrite Replay_scans.
  2: { apply scans_encode_all; [done|]. by apply scans_bad. }
  rewrite app_nil_r. unfold replay_outcome. by rewrite Hd.
Qed.

(** C16: Damage to a single byte of a log is never skipped, never taken for a
    torn tail and never surfaces a wrong record.  For a log made of intact
    records [pre], then a record in which any one byte (length, type, either
    checksum or payload) was replaced by a different one, then any bytes at
    all, [Replay] hands exactly the records of [pre] to the callback and then
    refuses with a [CorruptionError] naming the offset of the damaged record. *)
Theorem Replay_single_byte_damage {St} path (fn : Record_ -> St -> St * option Err)
    (pre : list Entry) (t : byte) (p tail : list byte) (i : nat) (b b' : byte) (st st' : St) n :
  Forall entry_ok pre -> entry_ok (t, p) ->
  Encode [] t p !! i = Some b -> b <> b' ->
  deliver fn (records_at 0 pre) 0 st = (st', n, None) ->
  exists reason,
    Replay path fn (OpenOk (plainFile (encode_all pre ++ <[i := b']> (Encode [] t p) ++ tail))) st
    = Some (mkResult 0 n None,
            Some (CorruptionError path (Z.of_nat (length (encode_all pre))) reason), st').
Proof.
  intros Hpre Hok Hi Hne Hd. destruct (Replay_damaged pre t p tail i b b' Hpre Hok Hi Hne) as [reason HR].
  exists reason. by apply HR.
Qed.

(** C17: A log cut at any byte is never an error: [Replay] delivers exactly the
    records that lie completely inside the cut, and reports their end as the
    length to truncate to, with a torn tail if and only if the cut was not on
    a record boundary. *)
Theorem Replay_torn_tail {St} path (fn : Record_ -> St -> St * option Err)
    (es : list Entry) (n : nat) (st : St) :
  Forall entry_ok es -> (n <= length (encode_all es))%nat ->
  Replay path fn (OpenOk (plainFile (take n (encode_all es)))) st
  = Some (replay_outcome path fn (records_at 0 (fitting n es)) (cut_ending n es) 0 st).
Proof. apply Replay_cut. Qed.

(** The loop never runs out of fuel. *)
Lemma Replay_total {St} path (fn : Record_ -> St -> St * option Err) (file : Opened) (st : St) :
  is_Some (Replay path fn file st).
Proof.
  unfold Replay. destruct file as [|e|f]; [by eexists..|].
  destruct (f_stat_err f); [by eexists|].
  apply replay_loop_terminates; lia.
Qed.

(** C38: [Replay] terminates: on every file, whatever bytes it holds and
    whatever reads fail, and for every callback, the loop finishes within one
    iteration more than the file has bytes. *)
Theorem Replay_terminates {St} path (fn : Record_ -> St -> St * option Err) (file : Opened) (st : St) :
  is_Some (Replay path fn file st).
Proof. apply Replay_total. Qed.

(** Whatever bytes the log holds, they are a sequence of records that
    [Encode] would write byte for byte, followed by something that is not a
    record; the callback sees exactly those records in order (never one whose
    checksums or type are wrong), and replaying the verified prefix alone
    delivers the same records and ends cleanly at the same offset. *)
Theorem Replay_canonical {St} path (fn : Record_ -> St -> St * option Err) (data : list byte) (st : St) :
  exists es tail e,
    data = encode_all es ++ tail /\ Forall entry_ok es /\
    (forall t p rest, next tail <> IRecord t p rest) /\
    Replay path fn (OpenOk (plainFile data)) st
      = Some (replay_outcome path fn (records_at 0 es) e 0 st) /\
    Replay path fn (OpenOk (plainFile (encode_all es))) st
      = Some (replay_outcome path fn (records_at 0 es) (EndClean (Z.of_nat (length (encode_all es)))) 0 st).
Proof.
  destruct (scans_total 0 data) as (recs & e & Hs).
  pose proof (scans_decompose _ _ _ _ Hs) as (es & tail & -> & Hok & -> & Ht).
  exists es, tail, e. split_and!; [done..| | |].
  - intros t p rest E. inversion Ht; congruence.
  - by apply Replay_scans.
  - apply Replay_scans. rewrite <- (app_nil_r (encode_all es)) at 1.
    rewrite <- (app_nil_r (records_at 0 es)). apply scans_encode_all; [done|].
    by apply scans_clean.
Qed.

(** ** Witnesses *)

Definition two_entries : list Entry :=
  [(TypeMeta, bytes_of_string "{}"); (TypeAck, bytes_of_string "ab")].

Lemma two_entries_ok : Forall entry_ok two_entries.
Proof. repeat constructor; vm_compute; discriminate. Qed.

(** Flipping the low bit of the length of the second record. *)
Lemma Replay_single_byte_damage_witness :
  exists reason,
    Replay "wal.log" (fun r st => (st ++ [r_Type r], None))
      (OpenOk (plainFile (encode_all [(TypeMeta, bytes_of_string "{}")]
        ++ <[0%nat := x03]> (Encode [] TypeAck (bytes_of_string "ab")) ++ [x00]))) []
    = Some (mkResult 0 1 None, Some (CorruptionError "wal.log" 15 reason), [TypeMeta]).
Proof.
  apply (Replay_single_byte_damage "wal.log" (fun r st => (st ++ [r_Type r], None))
    [(TypeMeta, bytes_of_string "{}")] TypeAck (bytes_of_string "ab") [x00] 0 x02 x03 [] [TypeMeta] 1).
  - repeat constructor; vm_compute; discriminate.
  - repeat constructor; vm_compute; discriminate.
  - vm_compute. reflexivity.
  - discriminate.
  - vm_compute. reflexivity.
Defined.

Lemma Replay_torn_tail_witness :
  Replay "wal.log" (fun r st => (st ++ [r_Type r], None))
    (OpenOk (plainFile (take 29 (encode_all two_entries)))) []
  = Some (mkResult 15 1 (Some (mkTorn 15 14)), None, [TypeMeta]).
Proof.
  etransitivity.
  - apply (Replay_torn_tail "wal.log" _ two_entries 29); [apply two_entries_ok|vm_compute; lia].
  - vm_compute. reflexivity.
Defined.
