(* ===== verification/GoHeap.v ===== *)
(** * [container/heap]

    The standard library's binary heap, over its [heap.Interface].  The three
    heaps of [internal/queue/heaps.go] implement the interface ([HeapInterface],
    with its laws [HeapLaws]); every theorem here is proved once against the
    laws.  A [None] is a run-time panic (an index out of range) or, for the
    loops, fuel that ran out: the theorems show neither happens. *)

From Stdlib Require Import ZArith Lia.
From S2P Require Import Prelude.

Local Open Scope nat_scope.

(** ** The interface *)

(** [heap.Interface]: [sort.Interface] with [Push] and [Pop] at the end. *)
Class HeapInterface (H A : Type) := {
  Len : H -> nat;
  Less : H -> nat -> nat -> option bool;
  Swap : nat -> nat -> H -> option H;
  HPush : A -> H -> option H;
  HPop : H -> option (A * H);
}.

(** ** The algorithms *)

Section Algorithms.
Context {H A : Type} `{HeapInterface H A}.

(** [func up(h Interface, j int)] *)
Fixpoint up (fuel : nat) (j : nat) (h : H) : option H :=
  match fuel with
  | 0 => None
  | S fuel =>
    let i := (j - 1) / 2 in   (* parent *)
    if i =? j then Some h
    else
      b ← Less h j i;
      if negb b then Some h
      else h ← Swap i j h; up fuel i h
  end.

(** The loop of [down]; the result holds the final [i]. *)
Fixpoint down_loop (fuel : nat) (i n : nat) (h : H) : option (nat * H) :=
  match fuel with
  | 0 => None
  | S fuel =>
    let j1 := 2 * i + 1 in
    if n <=? j1 then Some (i, h)
    else
      let j2 := j1 + 1 in
      j ← (if j2 <? n then b ← Less h j2 j1; Some (if b : bool then j2 else j1)
           else Some j1);
      b ← Less h j i;
      if negb b then Some (i, h)
      else h ← Swap i j h; down_loop fuel j n h
  end.

(** [func down(h Interface, i0, n int) bool] *)
Definition down (i0 n : nat) (h : H) : option (bool * H) :=
  '(i, h) ← down_loop (S n) i0 n h;
  Some (i0 <? i, h).

(** The loop of [heap.Init]: [for i := n/2 - 1; i >= 0; i-- { down(h, i, n) }],
    with [k] the iterations left, i.e. [i = k - 1]. *)
Fixpoint Init_loop (k n : nat) (h : H) : option H :=
  match k with
  | 0 => Some h
  | S i => '(_, h) ← down i n h; Init_loop i n h
  end.

Definition Init (h : H) : option H :=
  let n := Len h in
  Init_loop (n / 2) n h.

Definition Push (x : A) (h : H) : option H :=
  h ← HPush x h;
  up (Len h) (Len h - 1) h.

Definition Pop (h : H) : option (A * H) :=
  if Len h =? 0 then None   (* Swap(0, -1) panics *)
  else
    let n := Len h - 1 in
    h ← Swap 0 n h;
    '(_, h) ← down 0 n h;
    HPop h.

Definition Remove (i : nat) (h : H) : option (A * H) :=
  if Len h =? 0 then None
  else
    let n := Len h - 1 in
    h ← (if n =? i then Some h
         else
           h ← Swap i n h;
           '(moved, h) ← down i n h;
           if moved : bool then Some h else up (S i) i h);
    HPop h.
End Algorithms.

(** ** Positions *)

Definition par (k : nat) : nat := (k - 1) / 2.

Lemma par_spec k : 0 < k -> k = 2 * par k + 1 \/ k = 2 * par k + 2.
Proof. unfold par. intros. pose proof (Nat.div_mod_eq (k - 1) 2).
  pose proof (Nat.mod_upper_bound (k - 1) 2). lia. Qed.

Lemma par_lt k : 0 < k -> par k < k.
Proof. intros. pose proof (par_spec k). lia. Qed.

Lemma par_of_children i k : 0 < k -> par k = i <-> k = 2 * i + 1 \/ k = 2 * i + 2.
Proof.
  intros Hk. split.
  - intros <-. by apply par_spec.
  - pose proof (par_spec k Hk). lia.
Qed.

(** ** Swapping two positions of a list *)

Definition list_swap {A} (i j : nat) (l : list A) : list A :=
  match l !! i, l !! j with
  | Some x, Some y => <[j := x]> (<[i := y]> l)
  | _, _ => l
  end.

(** The transposition of two positions. *)
Definition transp (i j k : nat) : nat :=
  if k =? i then j else if k =? j then i else k.

Section ListSwap.
Context {A : Type} (i j : nat) (l : list A).

Lemma length_list_swap : length (list_swap i j l) = length l.
Proof using. unfold list_swap. repeat case_match; by rewrite ?length_insert. Qed.

Hypothesis Hi : i < length l.
Hypothesis Hj : j < length l.

Lemma lookup_list_swap k : list_swap i j l !! k = l !! transp i j k.
Proof using Hi Hj.
  destruct (lookup_lt_is_Some_2 _ _ Hi) as [x Hx].
  destruct (lookup_lt_is_Some_2 _ _ Hj) as [y Hy].
  unfold list_swap, transp. rewrite Hx, Hy.
  destruct (k =? i) eqn:E1; [|destruct (k =? j) eqn:E2]; bool_prop; subst;
    rewrite ?list_lookup_insert; repeat case_decide; rewrite ?length_insert in *;
    naive_solver.
Qed.

Lemma list_swap_Permutation : list_swap i j l ≡ₚ l.
Proof using Hi Hj.
  apply Permutation_inj. split; [by rewrite length_list_swap|].
  exists (transp i j). split.
  - intros a b. unfold transp. repeat case_match; bool_prop; congruence.
  - apply lookup_list_swap.
Qed.
End ListSwap.

(** ** Heap order on lists *)

Section Order.
Context {A : Type} (lt : A -> A -> bool).

(** The item at [a] does not sort before the item at [b]. *)
Definition nle (l : list A) (a b : nat) : Prop :=
  forall x y, l !! a = Some x -> l !! b = Some y -> lt x y = false.

(** No child below [n] whose parent is at [b] or after sorts before it. *)
Definition heap_from (b n : nat) (l : list A) : Prop :=
  forall k, 0 < k < n -> b <= par k -> nle l k (par k).

(** The heap property of a whole list. *)
Definition heap_prop (l : list A) : Prop := heap_from 0 (length l) l.

(** A strict weak order on the items of a list. *)
Record weak_order (l : list A) : Prop := {
  wo_asym x y : x ∈ l -> y ∈ l -> lt x y = true -> lt y x = false;
  wo_trans x y z : x ∈ l -> y ∈ l -> z ∈ l -> lt x y = false -> lt y z = false -> lt x z = false;
}.

(** Heap order except between [i] and its parent: what [up] repairs. *)
Record up_inv (n i : nat) (l : list A) : Prop := {
  up_other k : 0 < k < n -> k <> i -> nle l k (par k);
  up_grand k : 0 < k < n -> par k = i -> 0 < i -> nle l k (par i);
}.

(** Heap order from [b] except between [i] and its children: what [down]
    repairs; without [i] and its parent too in the weak form. *)
Record down_weak (b n i : nat) (l : list A) : Prop := {
  down_other k : 0 < k < n -> b <= par k -> par k <> i -> k <> i -> nle l k (par k);
  down_grand k : 0 < k < n -> par k = i -> 0 < i -> b <= par i -> nle l k (par i);
}.

Definition down_inv (b n i : nat) (l : list A) : Prop :=
  down_weak b n i l /\ (0 < i -> b <= par i -> nle l i (par i)).

Lemma weak_order_perm l l' : l ≡ₚ l' -> weak_order l -> weak_order l'.
Proof using.
  intros Hp [Ha Ht]. split; intros *; rewrite <- !Hp; [apply Ha|apply Ht].
Qed.

Section Facts.
Context (l : list A) (Hwo : weak_order l).

Lemma nle_refl a : nle l a a.
Proof using Hwo.
  intros x y Hx Hy. rewrite Hx in Hy. injection Hy as <-.
  destruct (lt x x) eqn:E; [|done].
  assert (x ∈ l) by by eapply list_elem_of_lookup_2.
  pose proof (wo_asym _ Hwo x x). naive_solver.
Qed.

Lemma nle_trans a b c : b < length l -> nle l a b -> nle l b c -> nle l a c.
Proof using Hwo.
  intros Hb Hab Hbc x z Hx Hz.
  destruct (lookup_lt_is_Some_2 _ _ Hb) as [y Hy].
  eapply (wo_trans _ Hwo x y z); eauto using list_elem_of_lookup_2.
Qed.

Lemma nle_asym a b x y :
  l !! a = Some x -> l !! b = Some y -> lt x y = true -> nle l b a.
Proof using Hwo.
  intros Hx Hy E y' x' Hy' Hx'. simplify_eq.
  eapply (wo_asym _ Hwo); eauto using list_elem_of_lookup_2.
Qed.

Lemma nle_swap i j a b :
  i < length l -> j < length l ->
  nle (list_swap i j l) a b <-> nle l (transp i j a) (transp i j b).
Proof using. intros. unfold nle. by rewrite !lookup_list_swap. Qed.

Context (n : nat) (Hn : n <= length l).

(** [up] stops at the root or when the order holds. *)
Lemma up_stop i :
  up_inv n i l -> (0 < i -> nle l i (par i)) -> heap_from 0 n l.
Proof.
  intros [Ho _] Hi k Hk _. destruct (decide (k = i)) as [->|]; [apply Hi; lia|by apply Ho].
Qed.

(** Unfold a statement about a swapped list and settle each transposed index. *)
Ltac swap_cases :=
  rewrite nle_swap by lia; unfold transp;
  repeat match goal with
  | |- context [?x =? ?y] => destruct (Nat.eqb_spec x y)
  end; subst; try lia.

Lemma up_step i x y :
  0 < i < n -> up_inv n i l ->
  l !! i = Some x -> l !! par i = Some y -> lt x y = true ->
  up_inv n (par i) (list_swap (par i) i l).
Proof.
  intros Hi [Ho Hg] Hx Hy E. pose proof (par_lt i ltac:(lia)) as Hp.
  pose proof (nle_asym i (par i) x y Hx Hy E) as Hasym.
  split.
  - intros k Hk Hne. pose proof (par_lt k ltac:(lia)). swap_cases.
    + done.
    + apply nle_trans with (par i); [lia| |done].
      replace (par i) with (par k) by done. apply Ho; lia.
    + apply Hg; lia.
    + apply Ho; lia.
  - intros k Hk Hpk Hpos. pose proof (par_lt k ltac:(lia)).
    pose proof (par_lt (par i) ltac:(lia)). swap_cases.
    + apply Ho; lia.
    + apply nle_trans with (par i); [lia| |apply Ho; lia]. rewrite <- Hpk. apply Ho; lia.
Qed.

(** [down] stops at a leaf or when both children are in order. *)
Lemma down_stop b i :
  down_inv b n i l ->
  (forall k, 0 < k < n -> par k = i -> nle l k i) ->
  heap_from b n l.
Proof.
  intros [[Ho _] Hi] Hc k Hk Hb.
  destruct (decide (par k = i)) as [<-|]; [by apply Hc|].
  destruct (decide (k = i)) as [->|]; [apply Hi; lia|by apply Ho].
Qed.

(** [c] is a child of [i] that sorts before it and not after its sibling. *)
Lemma down_step b i c x y :
  b <= i -> 0 < c < n -> par c = i -> down_weak b n i l ->
  (forall k, 0 < k < n -> par k = i -> nle l k c) ->
  l !! c = Some x -> l !! i = Some y -> lt x y = true ->
  down_inv b n c (list_swap i c l).
Proof.
  intros Hb Hc <- [Ho Hg] Hmin Hx Hy E.
  pose proof (par_lt c ltac:(lia)) as Hp.
  pose proof (nle_asym c (par c) x y Hx Hy E) as Hasym.
  split; [split|].
  - intros k Hk Hbk Hne1 Hne2. pose proof (par_lt k ltac:(lia)). swap_cases.
    + apply Hg; lia.
    + apply Hmin; lia.
    + apply Ho; lia.
  - intros k Hk Hpk _ _. pose proof (par_lt k ltac:(lia)).
    swap_cases. apply Ho; lia.
  - intros _ _. swap_cases. done.
Qed.
End Facts.

Lemma heap_prop_root l x :
  weak_order l -> heap_prop l -> l !! 0 = Some x ->
  forall y, y ∈ l -> lt y x = false.
Proof using.
  intros Hwo Hh H0 y [k Hk]%list_elem_of_lookup_1.
  enough (nle l k 0) as Hn by by apply Hn.
  pose proof (lookup_lt_Some _ _ _ Hk) as Hlt. clear Hk. revert Hlt.
  induction k as [k IH] using lt_wf_ind. intros Hlt.
  destruct (decide (k = 0)) as [->|]; [by apply nle_refl|].
  pose proof (par_lt k ltac:(lia)).
  apply nle_trans with (par k); [done|lia|apply Hh; lia|apply IH; lia].
Qed.

Lemma heap_from_take b n l : heap_from b n l -> heap_from b n (take n l).
Proof using.
  intros Hh k Hk Hb. pose proof (par_lt k ltac:(lia)).
  intros x y. rewrite !lookup_take_lt by lia. by apply Hh.
Qed.
End Order.

(** ** What an implementation of the interface promises *)

(** [view] is the slice of items, [lt] the order [Less] tests, [obs] whatever
    else the operations may change about an item (its recorded position), and
    [same] relates states that differ only in such observations. *)
Class HeapLaws (H A O : Type) `{!HeapInterface H A} := {
  view : H -> list A;
  lt : H -> A -> A -> bool;
  obs : H -> A -> O;
  hok : H -> Prop;
  pushable : A -> H -> Prop;
  same : H -> H -> Prop;
  same_preorder :: PreOrder same;
  same_lt h h' a b : same h h' -> lt h' a b = lt h a b;
  hok_order h : hok h -> weak_order (lt h) (view h);
  Len_view h : Len h = length (view h);
  Less_law h i j x y :
    hok h -> view h !! i = Some x -> view h !! j = Some y -> Less h i j = Some (lt h x y);
  Swap_law h i j :
    hok h -> i < length (view h) -> j < length (view h) ->
    exists h', Swap i j h = Some h' /\ hok h' /\ view h' = list_swap i j (view h) /\
      same h h' /\ (forall a, a ∉ view h -> obs h' a = obs h a);
  HPush_law h x :
    hok h -> pushable x h ->
    exists h', HPush x h = Some h' /\ hok h' /\ view h' = view h ++ [x] /\
      same h h' /\ (forall a, a <> x -> obs h' a = obs h a);
  HPop_law h l x :
    hok h -> view h = l ++ [x] ->
    exists h', HPop h = Some (x, h') /\ hok h' /\ view h' = l /\
      same h h' /\ (forall a, a <> x -> obs h' a = obs h a);
}.

Section Correctness.
Context {H A O : Type} `{HeapLaws H A O}.
Implicit Types (h : H) (x : A).

(** [h'] is [h] with the items below [n] rearranged. *)
Record moved (n : nat) (h h' : H) : Prop := {
  mv_ok : hok h';
  mv_perm : view h' ≡ₚ view h;
  mv_same : same h h';
  mv_obs a : a ∉ view h -> obs h' a = obs h a;
  mv_above k : n <= k -> view h' !! k = view h !! k;
}.

Lemma moved_refl n h : hok h -> moved n h h.
Proof. by split. Qed.

Lemma moved_trans n h1 h2 h3 : moved n h1 h2 -> moved n h2 h3 -> moved n h1 h3.
Proof.
  intros [O1 P1 S1 B1 A1] [O2 P2 S2 B2 A2]. split; [done| | | |].
  - by rewrite P2.
  - by transitivity h2.
  - intros a Ha. rewrite B2; [by apply B1|by rewrite P1].
  - intros k Hk. by rewrite A2, A1.
Qed.

Lemma moved_length n h h' : moved n h h' -> length (view h') = length (view h).
Proof. intros M. by apply Permutation_length, (mv_perm _ _ _ M). Qed.

(** Facts about order carry over to a state with the same items. *)
Lemma nle_same h h' l a b : same h h' -> nle (lt h') l a b <-> nle (lt h) l a b.
Proof. intros Hs. unfold nle. by setoid_rewrite (same_lt h h' _ _ Hs). Qed.

Lemma heap_from_same h h' b n l : same h h' -> heap_from (lt h') b n l <-> heap_from (lt h) b n l.
Proof. intros Hs. unfold heap_from. by setoid_rewrite (nle_same h h' _ _ _ Hs). Qed.

Lemma Swap_moved n h i j :
  hok h -> i < n -> j < n -> n <= length (view h) ->
  exists h', Swap i j h = Some h' /\ view h' = list_swap i j (view h) /\ moved n h h'.
Proof.
  intros Hok Hi Hj Hn.
  destruct (Swap_law h i j Hok ltac:(lia) ltac:(lia)) as (h' & E & Hok' & Hv & Hs & Ho).
  exists h'. split_and!; [done..|]. split; [done| |done|done|].
  - rewrite Hv. apply list_swap_Permutation; lia.
  - intros k Hk. rewrite Hv, lookup_list_swap by lia. unfold transp.
    destruct (Nat.eqb_spec k i), (Nat.eqb_spec k j); (done || lia).
Qed.

Lemma lookup_view h i : i < length (view h) -> exists x, view h !! i = Some x.
Proof. apply lookup_lt_is_Some_2. Qed.

(** [up] restores the heap property below [n]. *)
Lemma up_correct n fuel i h :
  hok h -> i < n -> n <= length (view h) -> i < fuel ->
  up_inv (lt h) n i (view h) ->
  exists h', up fuel i h = Some h' /\ moved n h h' /\ heap_from (lt h) 0 n (view h').
Proof.
  revert i h. induction fuel as [|fuel IH]; intros i h Hok Hi Hn Hf Hinv; [lia|].
  cbn [up]. fold (par i). destruct (Nat.eqb_spec (par i) i) as [Hr|Hr].
  { exists h. split_and!; [done|by apply moved_refl|]. eapply up_stop; [done..|].
    intros ?%par_lt. lia. }
  assert (0 < i) as Hpos by (destruct i; [done|lia]). pose proof (par_lt i Hpos).
  destruct (lookup_view h i ltac:(lia)) as [x Hx].
  destruct (lookup_view h (par i) ltac:(lia)) as [y Hy].
  rewrite (Less_law h i (par i) x y) by done. simpl.
  destruct (lt h x y) eqn:E; simpl.
  - destruct (Swap_moved n h (par i) i Hok ltac:(lia) Hi Hn) as (h1 & -> & Hv & M). simpl.
    pose proof (mv_same _ _ _ M) as Hs.
    destruct (IH (par i) h1) as (h' & -> & M' & Hh); [apply M|lia|by rewrite (moved_length _ _ _ M)|lia| |].
    + rewrite Hv. pose proof (up_step (lt h) (view h) (hok_order h Hok) n Hn i x y) as Hst.
      destruct Hst as [Ho Hg]; [done..|].
      split; intros; rewrite (nle_same h h1) by done; [by apply Ho|by apply Hg].
    + exists h'. split_and!; [done|by eapply moved_trans|].
      by rewrite <- (heap_from_same h h1).
  - exists h. split_and!; [done|by apply moved_refl|]. eapply up_stop; [done..|].
    intros _ x' y' Hx' Hy'. naive_solver.
Qed.

(** The child [down] compares with [i]. *)
Lemma down_choice n h i :
  hok h -> n <= length (view h) -> 2 * i + 1 < n ->
  exists c x y,
    (if 2 * i + 1 + 1 <? n
     then b ← Less h (2 * i + 1 + 1) (2 * i + 1);
          Some (if b : bool then 2 * i + 1 + 1 else 2 * i + 1)
     else Some (2 * i + 1)) = Some c /\
    0 < c < n /\ par c = i /\
    view h !! c = Some x /\ view h !! i = Some y /\ Less h c i = Some (lt h x y) /\
    (forall k, 0 < k < n -> par k = i -> nle (lt h) (view h) k c).
Proof.
  intros Hok Hn Hi. pose proof (hok_order h Hok) as Hwo.
  destruct (lookup_view h i ltac:(lia)) as [y Hy].
  destruct (lookup_view h (2 * i + 1) ltac:(lia)) as [x1 Hx1].
  assert (par (2 * i + 1) = i) as Hp1 by (apply par_of_children; lia).
  destruct (Nat.ltb_spec (2 * i + 1 + 1) n) as [Hlt|Hge].
  - destruct (lookup_view h (2 * i + 1 + 1) ltac:(lia)) as [x2 Hx2].
    assert (par (2 * i + 1 + 1) = i) as Hp2 by (apply par_of_children; lia).
    rewrite (Less_law h _ _ x2 x1) by done. simpl.
    destruct (lt h x2 x1) eqn:E; eexists _, _, _; (split_and!; [done|lia|lia|done|done|done|by apply Less_law|]);
      intros k Hk [->|Hk2]%par_of_children; try lia.
    + by eapply nle_asym.
    + replace k with (2 * i + 1 + 1) by lia. by apply nle_refl.
    + by apply nle_refl.
    + replace k with (2 * i + 1 + 1) by lia. intros x' y' Hx' Hy'. naive_solver.
  - eexists _, _, _. split_and!; [done|lia|lia|done|done|done|by apply Less_law|].
    intros k Hk [->|Hk2]%par_of_children; try lia. by apply nle_refl.
Qed.
(** One iteration of [down]: it stops with the children of [i] in order, or
    swaps and goes on from a child, the order above it restored. *)
Lemma down_unfold b n fuel i h :
  hok h -> b <= i -> i < n -> n <= length (view h) -> down_weak (lt h) b n i (view h) ->
  (down_loop (S fuel) i n h = Some (i, h) /\
     forall k, 0 < k < n -> par k = i -> nle (lt h) (view h) k i) \/
  (exists c h1, down_loop (S fuel) i n h = down_loop fuel c n h1 /\
     i < c < n /\ moved n h h1 /\ down_inv (lt h1) b n c (view h1)).
Proof.
  intros Hok Hb Hi Hn Hinv. cbn [down_loop].
  destruct (Nat.leb_spec n (2 * i + 1)) as [Hleaf|Hch].
  { left. split; [done|]. intros k Hk Hp%par_of_children; lia. }
  destruct (down_choice n h i Hok Hn Hch) as (c & x & y & -> & Hc & Hpc & Hx & Hy & HL & Hmin).
  simpl. rewrite HL. simpl. pose proof (hok_order h Hok) as Hwo.
  destruct (lt h x y) eqn:E; simpl.
  - right. pose proof (par_lt c ltac:(lia)).
    destruct (Swap_moved n h i c Hok Hi ltac:(lia) Hn) as (h1 & -> & Hv & M). simpl.
    exists c, h1. split_and!; [done|lia|lia|done|].
    pose proof (mv_same _ _ _ M) as Hs.
    destruct (down_step (lt h) (view h) Hwo n Hn b i c x y Hb Hc Hpc Hinv Hmin Hx Hy E)
      as [[Ho Hg] Ht].
    rewrite Hv. split; [split|]; intros; rewrite (nle_same h h1) by done;
      [by apply Ho|by apply Hg|by apply Ht].
  - left. split; [done|]. intros k Hk Hpk.
    apply (nle_trans _ _ Hwo) with c; [lia|by apply Hmin|].
    intros x' y' Hx' Hy'. naive_solver.
Qed.

(** [down] restores the heap property from [b] on, below [n]. *)
Lemma down_loop_correct b n fuel i h :
  hok h -> b <= i -> i < n -> n <= length (view h) -> n - i < fuel ->
  down_inv (lt h) b n i (view h) ->
  exists i' h', down_loop fuel i n h = Some (i', h') /\ i <= i' /\
    moved n h h' /\ heap_from (lt h) b n (view h').
Proof.
  revert i h. induction fuel as [|fuel IH]; intros i h Hok Hb Hi Hn Hf Hinv; [lia|].
  destruct (down_unfold b n fuel i h Hok Hb Hi Hn (proj1 Hinv)) as [[-> Hc]|(c & h1 & -> & Hc & M & Hinv1)].
  - exists i, h. split_and!; [done|done|by apply moved_refl|]. by eapply down_stop.
  - destruct (IH c h1) as (i' & h' & -> & Hi' & M' & Hh); [apply M|lia|lia| |lia|done|].
    { by rewrite (moved_length _ _ _ M). }
    exists i', h'. split_and!; [done|lia|by eapply moved_trans|].
    by rewrite <- (heap_from_same h h1) by apply M.
Qed.

(** ** The exported functions *)

(** What every exported function guarantees of the resulting state. *)
Definition heap_ok h : Prop := hok h /\ heap_prop (lt h) (view h).

Lemma Init_loop_correct n h k :
  hok h -> n = length (view h) -> 2 * k <= n ->
  heap_from (lt h) k n (view h) ->
  exists h', Init_loop k n h = Some h' /\ moved n h h' /\ heap_from (lt h) 0 n (view h').
Proof.
  revert h. induction k as [|i IH]; intros h Hok Hn Hk Hh.
  { exists h. split_and!; [done|by apply moved_refl|done]. }
  cbn [Init_loop]. unfold down.
  destruct (down_loop_correct i n (S n) i h) as (i' & h1 & -> & _ & M & Hh1); [done|lia..| |].
  { split; [split|].
    - intros. apply Hh; lia.
    - intros k _ _ ??. pose proof (par_lt i). lia.
    - intros ??. pose proof (par_lt i). lia. }
  simpl. destruct (IH h1) as (h' & -> & M' & Hh').
  - apply M.
  - by rewrite (moved_length _ _ _ M).
  - lia.
  - by rewrite (heap_from_same h h1) by apply M.
  - exists h'. split_and!; [done|by eapply moved_trans|].
    by rewrite <- (heap_from_same h h1) by apply M.
Qed.

Theorem Init_correct h :
  hok h -> exists h', Init h = Some h' /\ moved (length (view h)) h h' /\ heap_ok h'.
Proof.
  intros Hok. unfold Init. rewrite Len_view.
  pose proof (Nat.div_mod_eq (length (view h)) 2).
  pose proof (Nat.mod_upper_bound (length (view h)) 2).
  destruct (Init_loop_correct (length (view h)) h (length (view h) / 2)) as (h' & -> & M & Hh);
    [done..|lia| |].
  { intros k Hk Hb. pose proof (par_spec k). lia. }
  exists h'. split_and!; [done|done|]. split; [apply M|].
  unfold heap_prop. rewrite (moved_length _ _ _ M). by rewrite (heap_from_same h h') by apply M.
Qed.

(** [h'] is [h] with [x] added (or removed, read backwards). *)
Record added x h h' : Prop := {
  ad_perm : view h' ≡ₚ x :: view h;
  ad_same : same h h';
  ad_obs a : a ∉ x :: view h -> obs h' a = obs h a;
}.

Theorem Push_correct h x :
  heap_ok h -> pushable x h ->
  exists h', Push x h = Some h' /\ heap_ok h' /\ added x h h'.
Proof.
  intros [Hok Hh] Hp. unfold Push.
  destruct (HPush_law h x Hok Hp) as (h1 & -> & Hok1 & Hv & Hs & Ho). simpl.
  rewrite Len_view. set (n := length (view h1)).
  assert (n = S (length (view h))) as Hn by (subst n; rewrite Hv, length_app; simpl; lia).
  assert (heap_from (lt h1) 0 (length (view h)) (view h1)) as Hh1.
  { intros k Hk _ a b. pose proof (par_lt k ltac:(lia)).
    rewrite Hv, !lookup_app_l by lia. rewrite (same_lt h h1) by done. apply Hh; lia. }
  destruct (up_correct n n (n - 1) h1) as (h' & -> & M & Hh'); [done|lia..| |].
  { split.
    - intros k Hk Hne. apply Hh1; lia.
    - intros k Hk Hpk Hpos. pose proof (par_lt k). lia. }
  exists h'. split_and!; [done| |].
  - split; [apply M|]. unfold heap_prop. rewrite (moved_length _ _ _ M).
    by rewrite (heap_from_same h1 h') by apply M.
  - assert (view h1 ≡ₚ x :: view h) as Hpm by (rewrite Hv; symmetry; apply Permutation_cons_append).
    split.
    + by rewrite (mv_perm _ _ _ M).
    + transitivity h1; [done|apply M].
    + intros a Ha. rewrite (mv_obs _ _ _ M) by by rewrite Hpm. apply Ho. set_solver.
Qed.

(** [h'] is [h] with [x] removed. *)
Record removed x h h' : Prop := {
  rm_perm : view h ≡ₚ x :: view h';
  rm_same : same h h';
  rm_obs a : a ∉ view h -> obs h' a = obs h a;
}.

(** The common tail of [Pop] and [Remove]: dropping the last item of a state
    whose other items form a heap. *)
Lemma drop_last_correct h h1 x n :
  view h1 !! n = Some x -> length (view h1) = S n -> x ∈ view h ->
  hok h1 -> view h1 ≡ₚ view h -> same h h1 -> (forall a, a ∉ view h -> obs h1 a = obs h a) ->
  heap_from (lt h1) 0 n (view h1) ->
  exists h', HPop h1 = Some (x, h') /\ heap_ok h' /\ removed x h h'.
Proof.
  intros Hx Hl Hin Hok Hp Hs Hob Hh.
  assert (view h1 = take n (view h1) ++ [x]) as Hv.
  { rewrite <- (take_drop n (view h1)) at 1. f_equal. rewrite (drop_S _ x n) by done.
    f_equal. apply drop_ge. lia. }
  destruct (HPop_law h1 _ x Hok Hv) as (h' & E & Hok' & Hv' & Hs' & Ho).
  exists h'. split_and!; [done| |].
  - split; [done|]. unfold heap_prop. rewrite Hv', length_take_le by lia.
    apply heap_from_take. by rewrite (heap_from_same h1 h').
  - split.
    + rewrite <- Hp, Hv, Hv'. symmetry. apply Permutation_cons_append.
    + by transitivity h1.
    + intros a Ha. rewrite Ho; [by apply Hob|]. by intros ->.
Qed.

Lemma heap_from_shrink f b n m l : n <= m -> heap_from (A:=A) f b m l -> heap_from f b n l.
Proof. intros Hn Hh k Hk. apply Hh. lia. Qed.

Theorem Pop_correct h x :
  heap_ok h -> view h !! 0 = Some x ->
  exists h', Pop h = Some (x, h') /\ heap_ok h' /\ removed x h h' /\
    (forall y, y ∈ view h' -> lt h y x = false).
Proof.
  intros [Hok Hh] Hx. unfold Pop. rewrite Len_view.
  pose proof (lookup_lt_Some _ _ _ Hx) as Hlen.
  destruct (Nat.eqb_spec (length (view h)) 0) as [|_]; [lia|].
  set (n := length (view h) - 1).
  destruct (Swap_law h 0 n Hok Hlen ltac:(lia)) as (h1 & -> & Hok1 & Hv1 & Hs1 & Ho1). simpl.
  assert (view h1 ≡ₚ view h) as Hp1 by (rewrite Hv1; apply list_swap_Permutation; lia).
  assert (length (view h1) = S n) as Hl1 by (rewrite (Permutation_length Hp1); lia).
  assert (exists i' h2, down_loop (S n) 0 n h1 = Some (i', h2) /\ moved n h1 h2 /\
    heap_from (lt h1) 0 n (view h2)) as (i' & h2 & E & M & Hh2).
  { destruct (decide (n = 0)) as [->|Hn].
    { exists 0, h1. split_and!; [done|by apply moved_refl|]. intros k Hk. lia. }
    destruct (down_loop_correct 0 n (S n) 0 h1) as (i' & h2 & E & _ & M & Hh2);
      [done|lia..| |by eauto].
    split; [split|lia]; [|lia].
    intros k Hk _ Hpk _. rewrite Hv1, nle_swap by lia. pose proof (par_lt k ltac:(lia)).
    unfold transp. destruct (Nat.eqb_spec k 0), (Nat.eqb_spec k n), (Nat.eqb_spec (par k) 0),
      (Nat.eqb_spec (par k) n); try lia.
    rewrite (nle_same h h1) by done. apply Hh; lia. }
  unfold down. rewrite E. simpl.
  destruct (drop_last_correct h h2 x n) as (h' & -> & Hok' & Hrm).
  - rewrite (mv_above _ _ _ M), Hv1, lookup_list_swap by lia. unfold transp.
    destruct (Nat.eqb_spec n 0) as [->|]; [done|]. by rewrite Nat.eqb_refl.
  - by rewrite (moved_length _ _ _ M).
  - by eapply list_elem_of_lookup_2.
  - apply M.
  - by rewrite (mv_perm _ _ _ M).
  - transitivity h1; [done|apply M].
  - intros a Ha. rewrite (mv_obs _ _ _ M) by by rewrite Hp1. by apply Ho1.
  - by rewrite (heap_from_same h1 h2) by apply M.
  - exists h'. split_and!; [done..|]. intros y Hy.
    apply (heap_prop_root _ _ _ (hok_order h Hok) Hh Hx).
    rewrite (rm_perm _ _ _ Hrm). by right.
Qed.
(** The item swapped to [i] is out of order at most with its parent or with
    its children: [down] if it can move down, [up] otherwise, repairs it. *)
Lemma down_up_correct n h i :
  hok h -> i < n -> n <= length (view h) -> down_weak (lt h) 0 n i (view h) ->
  exists h', ('(moved, h) ← down i n h; if moved : bool then Some h else up (S i) i h) = Some h' /\
    moved n h h' /\ heap_from (lt h) 0 n (view h').
Proof.
  intros Hok Hi Hn Hw. unfold down.
  destruct (down_unfold 0 n n i h Hok ltac:(lia) Hi Hn Hw) as [[-> Hc]|(c & h1 & -> & Hc & M & Hd)].
  - cbn [mbind option_bind]. rewrite Nat.ltb_irrefl. apply up_correct; [done..|lia|]. split.
    + intros k Hk Hne. destruct (decide (par k = i)) as [<-|]; [by apply Hc|].
      apply (down_other _ _ _ _ _ Hw); lia || done.
    + intros k Hk Hpk Hpos. apply (down_grand _ _ _ _ _ Hw); lia || done.
  - destruct (down_loop_correct 0 n n c h1) as (i' & h' & -> & Hi' & M' & Hh);
      [apply M|lia..| |lia|done|].
    { by rewrite (moved_length _ _ _ M). }
    simpl. rewrite (proj2 (Nat.ltb_lt i i')) by lia.
    exists h'. split_and!; [done|by eapply moved_trans|].
    by rewrite <- (heap_from_same h h1) by apply M.
Qed.

Theorem Remove_correct h i x :
  heap_ok h -> view h !! i = Some x ->
  exists h', Remove i h = Some (x, h') /\ heap_ok h' /\ removed x h h'.
Proof.
  intros [Hok Hh] Hx. unfold Remove. rewrite Len_view.
  pose proof (lookup_lt_Some _ _ _ Hx) as Hlen.
  destruct (Nat.eqb_spec (length (view h)) 0) as [|_]; [lia|].
  set (n := length (view h) - 1).
  assert (x ∈ view h) as Hin by by eapply list_elem_of_lookup_2.
  destruct (Nat.eqb_spec n i) as [<-|Hne]; simpl.
  { apply (drop_last_correct h h x n); [done|lia|done..|].
    apply (heap_from_shrink _ _ _ (length (view h))); [lia|done]. }
  destruct (Swap_law h i n Hok Hlen ltac:(lia)) as (h1 & -> & Hok1 & Hv1 & Hs1 & Ho1). simpl.
  assert (view h1 ≡ₚ view h) as Hp1 by (rewrite Hv1; apply list_swap_Permutation; lia).
  assert (length (view h1) = S n) as Hl1 by (rewrite (Permutation_length Hp1); lia).
  assert (forall a b, a < n -> b < n -> a <> i -> b <> i ->
    nle (lt h) (view h) a b -> nle (lt h1) (view h1) a b) as Hkeep.
  { intros a b Ha Hb Hai Hbi Hab. rewrite (nle_same h h1), Hv1, nle_swap by (done || lia).
    unfold transp. destruct (Nat.eqb_spec a i), (Nat.eqb_spec b i), (Nat.eqb_spec a n),
      (Nat.eqb_spec b n); (done || lia). }
  destruct (down_up_correct n h1 i) as (h2 & E & M & Hh2); [done|lia..| |].
  { split.
    - intros k Hk _ Hpk Hki. pose proof (par_lt k ltac:(lia)).
      apply Hkeep; [lia..|done|done|]. apply Hh; lia.
    - intros k Hk Hpk Hpos _. pose proof (par_lt k ltac:(lia)). pose proof (par_lt i Hpos).
      apply Hkeep; [lia..|]. pose proof (hok_order h Hok) as Hwo.
      apply (nle_trans _ _ Hwo) with i; [lia| |apply Hh; lia].
      rewrite <- Hpk. apply Hh; lia. }
  simpl in E. rewrite E. simpl. apply (drop_last_correct h h2 x n).
  - rewrite (mv_above _ _ _ M), Hv1, lookup_list_swap by lia. unfold transp.
    destruct (Nat.eqb_spec n i) as [->|]; [done|]. by rewrite Nat.eqb_refl.
  - by rewrite (moved_length _ _ _ M).
  - done.
  - apply M.
  - by rewrite (mv_perm _ _ _ M).
  - transitivity h1; [done|apply M].
  - intros a Ha. rewrite (mv_obs _ _ _ M) by by rewrite Hp1. by apply Ho1.
  - by rewrite (heap_from_same h1 h2) by apply M.
Qed.
End Correctness.
