(* ===== verification/Message.v ===== *)
(** * Messages and configuration ([internal/queue/message.go])

    The message, its state, a queue's configuration with [Validate], the one
    comparator [less] every queue type comes from, and message ids. *)

From Stdlib Require Import ZArith Lia.
From S2P Require Import Prelude GoInt Errors GoHeap.

(** ** Data *)

(** [type Ordering string] *)
Notation Ordering := string (only parsing).
Definition FIFO : Ordering := "fifo".
Definition LIFO : Ordering := "lifo".

Inductive state := stateReady | stateDelayed | stateInFlight | stateDead.

#[export] Instance state_eq_dec : EqDecision state.
Proof. solve_decision. Defined.

Definition state_String (s : state) : string :=
  match s with
  | stateReady => "ready"
  | stateDelayed => "delayed"
  | stateInFlight => "in_flight"
  | stateDead => "dead"
  end.

(** [type Message struct] *)
Record Message := mkMessage {
  m_ID : string;
  m_DedupID : string;
  m_Seq : Z;
  m_Priority : Z;
  m_VisibleAt : Time;
  m_Payload : list byte;
  m_Attempts : Z;
  m_CreatedAt : Time;
  m_state : state;
  m_index : Z;
  m_effPriority : Z;
  m_deadline : Time;
}.

(** Field assignment. *)
Definition set_index (i : Z) (m : Message) : Message :=
  mkMessage (m_ID m) (m_DedupID m) (m_Seq m) (m_Priority m) (m_VisibleAt m) (m_Payload m)
    (m_Attempts m) (m_CreatedAt m) (m_state m) i (m_effPriority m) (m_deadline m).
Definition set_state (s : state) (m : Message) : Message :=
  mkMessage (m_ID m) (m_DedupID m) (m_Seq m) (m_Priority m) (m_VisibleAt m) (m_Payload m)
    (m_Attempts m) (m_CreatedAt m) s (m_index m) (m_effPriority m) (m_deadline m).
Definition set_effPriority (p : Z) (m : Message) : Message :=
  mkMessage (m_ID m) (m_DedupID m) (m_Seq m) (m_Priority m) (m_VisibleAt m) (m_Payload m)
    (m_Attempts m) (m_CreatedAt m) (m_state m) (m_index m) p (m_deadline m).
Definition set_deadline (t : Time) (m : Message) : Message :=
  mkMessage (m_ID m) (m_DedupID m) (m_Seq m) (m_Priority m) (m_VisibleAt m) (m_Payload m)
    (m_Attempts m) (m_CreatedAt m) (m_state m) (m_index m) (m_effPriority m) t.
Definition set_Attempts (n : Z) (m : Message) : Message :=
  mkMessage (m_ID m) (m_DedupID m) (m_Seq m) (m_Priority m) (m_VisibleAt m) (m_Payload m)
    n (m_CreatedAt m) (m_state m) (m_index m) (m_effPriority m) (m_deadline m).
Definition set_VisibleAt (t : Time) (m : Message) : Message :=
  mkMessage (m_ID m) (m_DedupID m) (m_Seq m) (m_Priority m) t (m_Payload m)
    (m_Attempts m) (m_CreatedAt m) (m_state m) (m_index m) (m_effPriority m) (m_deadline m).

(** [func (m *Message) Deadline() time.Time] *)
Definition Deadline (m : Message) : Time := m_deadline m.

(** [type Config struct] *)
Record Config := mkConfig {
  c_Name : string;
  c_Ordering : Ordering;
  c_PriorityEnabled : bool;
  c_MaxAttempts : Z;
  c_DefaultVisibilityTimeoutMS : Z;
  c_AgingIntervalMS : Z;
  c_AgingMaxBoost : Z;
  c_DedupWindowMS : Z;
  c_NextSeq : Z;
}.

Definition set_Ordering (o : Ordering) (c : Config) : Config :=
  mkConfig (c_Name c) o (c_PriorityEnabled c) (c_MaxAttempts c) (c_DefaultVisibilityTimeoutMS c)
    (c_AgingIntervalMS c) (c_AgingMaxBoost c) (c_DedupWindowMS c) (c_NextSeq c).
Definition set_MaxAttempts (n : Z) (c : Config) : Config :=
  mkConfig (c_Name c) (c_Ordering c) (c_PriorityEnabled c) n (c_DefaultVisibilityTimeoutMS c)
    (c_AgingIntervalMS c) (c_AgingMaxBoost c) (c_DedupWindowMS c) (c_NextSeq c).
Definition set_DefaultVisibilityTimeoutMS (n : Z) (c : Config) : Config :=
  mkConfig (c_Name c) (c_Ordering c) (c_PriorityEnabled c) (c_MaxAttempts c) n
    (c_AgingIntervalMS c) (c_AgingMaxBoost c) (c_DedupWindowMS c) (c_NextSeq c).
Definition set_DedupWindowMS (n : Z) (c : Config) : Config :=
  mkConfig (c_Name c) (c_Ordering c) (c_PriorityEnabled c) (c_MaxAttempts c)
    (c_DefaultVisibilityTimeoutMS c) (c_AgingIntervalMS c) (c_AgingMaxBoost c) n (c_NextSeq c).
Definition set_AgingMaxBoost (n : Z) (c : Config) : Config :=
  mkConfig (c_Name c) (c_Ordering c) (c_PriorityEnabled c) (c_MaxAttempts c)
    (c_DefaultVisibilityTimeoutMS c) (c_AgingIntervalMS c) n (c_DedupWindowMS c) (c_NextSeq c).
Definition set_NextSeq (n : Z) (c : Config) : Config :=
  mkConfig (c_Name c) (c_Ordering c) (c_PriorityEnabled c) (c_MaxAttempts c)
    (c_DefaultVisibilityTimeoutMS c) (c_AgingIntervalMS c) (c_AgingMaxBoost c) (c_DedupWindowMS c) n.

Definition DefaultVisibilityTimeout : Duration := 30 * Second.
Definition DefaultMaxAttempts : Z := 5.
Definition DefaultDedupWindow : Duration := 5 * Minute.

(** ** The name check *)

Definition alnum (b : byte) : bool :=
  let n := byteZ b in
  ((97 <=? n) && (n <=? 122)) || ((65 <=? n) && (n <=? 90)) || ((48 <=? n) && (n <=? 57)).

(** [[a-zA-Z0-9_.-]] *)
Definition nameByte (b : byte) : bool :=
  alnum b || (byteZ b =? 95) || (byteZ b =? 46) || (byteZ b =? 45).

(** [nameRE.MatchString]: [^[a-zA-Z0-9][a-zA-Z0-9_.-]{0,63}$]. *)
Definition nameRE (name : string) : bool :=
  match bytes_of_string name with
  | [] => false
  | b :: rest => alnum b && (length rest <=? 63)%nat && forallb nameByte rest
  end.

(** ** Validate *)

(** The receiver as [Validate] leaves it, and the error it returns. *)
Definition Validate (c : Config) : Config * option Err :=
  if negb (nameRE (c_Name c)) then (c, Some (EInvalidName (c_Name c)))
  else
    let switch :=
      if bool_decide (c_Ordering c = "") then Some (set_Ordering FIFO c)
      else if bool_decide (c_Ordering c = FIFO) || bool_decide (c_Ordering c = LIFO) then Some c
      else None in
    match switch with
    | None => (c, Some (EInvalidOrdering (c_Ordering c)))
    | Some c =>
      let c := if c_MaxAttempts c =? 0 then set_MaxAttempts DefaultMaxAttempts c else c in
      if c_MaxAttempts c <? 1 then (c, Some (EInvalidConfig "max_attempts" (c_MaxAttempts c)))
      else
        let c := if c_DefaultVisibilityTimeoutMS c =? 0
                 then set_DefaultVisibilityTimeoutMS (quotDuration DefaultVisibilityTimeout Millisecond) c
                 else c in
        if c_DefaultVisibilityTimeoutMS c <? 0 then
          (c, Some (EInvalidConfig "default_visibility_timeout_ms" (c_DefaultVisibilityTimeoutMS c)))
        else
          let c := if c_DedupWindowMS c =? 0
                   then set_DedupWindowMS (quotDuration DefaultDedupWindow Millisecond) c else c in
          if c_DedupWindowMS c <? 0 then
            (c, Some (EInvalidConfig "dedup_window_ms" (c_DedupWindowMS c)))
          else if c_AgingIntervalMS c <? 0 then
            (c, Some (EInvalidConfig "aging_interval_ms" (c_AgingIntervalMS c)))
          else
            let c := if (c_AgingIntervalMS c >? 0) && (c_AgingMaxBoost c <=? 0)
                     then set_AgingMaxBoost 10 c else c in
            if negb (c_PriorityEnabled c) && (c_AgingIntervalMS c >? 0) then
              (c, Some (EInvalidConfig "aging_interval_ms requires priority_enabled" (c_AgingIntervalMS c)))
            else (c, None)
    end.

Definition visibilityTimeout (c : Config) : Duration :=
  mulDuration (c_DefaultVisibilityTimeoutMS c) Millisecond.
Definition dedupWindow (c : Config) : Duration :=
  mulDuration (c_DedupWindowMS c) Millisecond.
Definition agingInterval (c : Config) : Duration :=
  mulDuration (c_AgingIntervalMS c) Millisecond.

(** ** The comparator *)

Definition less (c : Config) (a b : Message) : bool :=
  if c_PriorityEnabled c && negb (m_effPriority a =? m_effPriority b) then
    m_effPriority a >? m_effPriority b
  else if bool_decide (c_Ordering c = LIFO) then m_Seq a >? m_Seq b
  else m_Seq a <? m_Seq b.

(** ** Message ids *)

Definition hexDigit (n : Z) : byte := Zbyte (if n <? 10 then 48 + n else 87 + n).

(** [hex.EncodeToString] *)
Fixpoint hexEncode (b : list byte) : list byte :=
  match b with
  | [] => []
  | x :: b => hexDigit (Z.shiftr (byteZ x) 4) :: hexDigit (Z.land (byteZ x) 15) :: hexEncode b
  end.

(** [newID], given the eight bytes [crypto/rand] delivered. *)
Definition newID (rand8 : list byte) : string := string_of_bytes (hexEncode rand8).

(** ** Facts: the comparator *)

Section Less.
Context (c : Config).

(** [less] is the order on [(effPriority, Seq)] pairs the configuration picks:
    greater priority first when priorities are on, then [Seq] ascending or
    descending. *)
Lemma less_spec a b :
  less c a b = true <->
  (c_PriorityEnabled c = true /\ m_effPriority b < m_effPriority a) \/
  ((c_PriorityEnabled c = true -> m_effPriority a = m_effPriority b) /\
   if bool_decide (c_Ordering c = LIFO) then m_Seq b < m_Seq a else m_Seq a < m_Seq b).
Proof using.
  unfold less. rewrite !Z.gtb_ltb.
  destruct (c_PriorityEnabled c); simpl;
    [destruct (Z.eqb_spec (m_effPriority a) (m_effPriority b))|]; simpl;
    case_bool_decide; rewrite ?Z.ltb_lt; intuition (congruence || lia).
Qed.

Lemma less_asym a b : less c a b = true -> less c b a = false.
Proof using.
  intros Hab. apply not_true_iff_false. rewrite less_spec in *.
  case_bool_decide; intuition lia.
Qed.

Lemma less_trans a b d : less c a b = true -> less c b d = true -> less c a d = true.
Proof using. rewrite !less_spec. case_bool_decide; intuition lia. Qed.

(** Messages with distinct sequence numbers are always ordered one way. *)
Lemma less_total a b : m_Seq a <> m_Seq b -> less c a b = true \/ less c b a = true.
Proof using.
  intros. rewrite !less_spec. destruct (c_PriorityEnabled c);
    destruct (Z.lt_trichotomy (m_effPriority a) (m_effPriority b)) as [|[|]];
    case_bool_decide; destruct (Z.lt_trichotomy (m_Seq a) (m_Seq b)); intuition (congruence || lia).
Qed.

Lemma less_negtrans a b d : less c a b = false -> less c b d = false -> less c a d = false.
Proof using.
  intros Hab Hbd. apply not_true_iff_false in Hab, Hbd.
  apply not_true_iff_false. intros Had. rewrite less_spec in *.
  destruct (c_PriorityEnabled c); case_bool_decide; intuition lia.
Qed.
End Less.

(** [less] reads only the priority in force and the sequence number. *)
Lemma less_ext c a a' b b' :
  m_effPriority a = m_effPriority a' -> m_Seq a = m_Seq a' ->
  m_effPriority b = m_effPriority b' -> m_Seq b = m_Seq b' ->
  less c a b = less c a' b'.
Proof. unfold less. by intros -> -> -> ->. Qed.

(** ** Facts: validation *)

(** What a validated configuration satisfies. *)
Record config_ok (c : Config) : Prop := {
  ok_name : nameRE (c_Name c) = true;
  ok_ordering : c_Ordering c = FIFO \/ c_Ordering c = LIFO;
  ok_attempts : 1 <= c_MaxAttempts c;
  ok_visibility : 0 < c_DefaultVisibilityTimeoutMS c;
  ok_dedup : 0 < c_DedupWindowMS c;
  ok_aging : 0 <= c_AgingIntervalMS c;
  ok_boost : 0 < c_AgingIntervalMS c -> 0 < c_AgingMaxBoost c;
  ok_aging_priority : 0 < c_AgingIntervalMS c -> c_PriorityEnabled c = true;
}.

Lemma Validate_ok c : config_ok c -> Validate c = (c, None).
Proof.
  intros [Hn Ho Ha Hv Hd Hag Hb Hp]. unfold Validate. rewrite Hn. simpl negb.
  assert (bool_decide (c_Ordering c = "") = false) as -> by
    (apply bool_decide_eq_false; destruct Ho as [-> | ->]; discriminate).
  assert (bool_decide (c_Ordering c = FIFO) || bool_decide (c_Ordering c = LIFO) = true) as -> by
    (destruct Ho as [-> | ->]; reflexivity).
  repeat match goal with
  | |- context [?x =? ?y] => rewrite (proj2 (Z.eqb_neq x y)) by lia
  | |- context [?x <? ?y] => rewrite (proj2 (Z.ltb_ge x y)) by lia
  end.
  cbv zeta. rewrite !Z.gtb_ltb. destruct (Z.ltb_spec 0 (c_AgingIntervalMS c)); simpl.
  - rewrite (proj2 (Z.leb_gt _ _)) by auto. by rewrite Hp by done.
  - rewrite (proj2 (Z.ltb_ge _ _)) by done. by rewrite andb_false_r.
Qed.

Lemma Validate_sound c c' : Validate c = (c', None) -> config_ok c'.
Proof.
  unfold Validate. intros H.
  destruct (nameRE (c_Name c)) eqn:Hn; cbn [negb] in H; [|discriminate].
  match type of H with (match ?s with _ => _ end) = _ => destruct s as [c1|] eqn:Hs; [|discriminate] end.
  assert (nameRE (c_Name c1) = true /\ (c_Ordering c1 = FIFO \/ c_Ordering c1 = LIFO)) as [Hn1 Ho1].
  { repeat case_bool_decide; simplify_eq/=; auto. }
  clear Hs Hn c. revert H.
  repeat match goal with
  | |- context [if ?b then _ else _] => destruct b eqn:?; cbn -[Z.mul Z.pow quotDuration]
  end; intros H; inversion H; subst; clear H; bool_prop; split; cbn -[quotDuration] in *; auto;
    try (unfold quotDuration, DefaultMaxAttempts in *; vm_compute; congruence);
    try lia; try (intros; lia); try congruence;
    (intros Hpos; destruct (c_PriorityEnabled _); [done|];
     rewrite Z.gtb_ltb, (proj2 (Z.ltb_lt _ _)) in * by done; done).
Qed.

(** ** Facts: widths *)

(** A configuration whose fields fit their Go types. *)
Record config_typed (c : Config) : Prop := {
  ct_MaxAttempts : in_int64 (c_MaxAttempts c);
  ct_Visibility : in_int64 (c_DefaultVisibilityTimeoutMS c);
  ct_AgingInterval : in_int64 (c_AgingIntervalMS c);
  ct_AgingMaxBoost : in_int64 (c_AgingMaxBoost c);
  ct_DedupWindow : in_int64 (c_DedupWindowMS c);
  ct_NextSeq : in_uint 64 (c_NextSeq c);
}.

Lemma Validate_typed c c' :
  Validate c = (c', None) -> config_typed c -> config_typed c' /\ c_NextSeq c' = c_NextSeq c.
Proof.
  assert (in_int64 DefaultMaxAttempts /\ in_int64 (quotDuration DefaultVisibilityTimeout Millisecond) /\
    in_int64 (quotDuration DefaultDedupWindow Millisecond) /\ in_int64 10) as (D1 & D2 & D3 & D4)
    by (vm_compute; repeat split; congruence).
  unfold Validate. intros H [H1 H2 H3 H4 H5 H6].
  destruct (negb (nameRE (c_Name c))); [done|].
  match type of H with (match ?s with _ => _ end) = _ => destruct s as [c1|] eqn:Hs; [|done] end.
  assert (config_typed c1 /\ c_NextSeq c1 = c_NextSeq c) as [[G1 G2 G3 G4 G5 G6] <-].
  { repeat case_bool_decide; simplify_eq/=; done. }
  clear Hs H1 H2 H3 H4 H5 H6. revert H.
  repeat match goal with
  | |- context [if ?b then _ else _] => destruct b; cbn -[Z.mul Z.pow quotDuration in_int64]
  end; intros [= <-]; (split; [|done]); split; assumption.
Qed.

Lemma Validate_MaxAttempts c c' n :
  DefaultMaxAttempts < n -> Validate c = (c', None) -> c_MaxAttempts c < n -> c_MaxAttempts c' < n.
Proof.
  unfold Validate. intros Hd H Hn. destruct (negb (nameRE (c_Name c))); [done|].
  match type of H with (match ?s with _ => _ end) = _ => destruct s as [c1|] eqn:Hs; [|done] end.
  assert (c_MaxAttempts c1 < n) as H1 by (repeat case_bool_decide; simplify_eq/=; done).
  clear Hs Hn. revert H. repeat match goal with
  | |- context [if ?b then _ else _] => destruct b; cbn -[Z.mul Z.pow quotDuration in_int64 DefaultMaxAttempts]
  end; intros [= <-]; done.
Qed.

(** The configuration but for [NextSeq], which [Compact] writes to the log and not
    to the queue. *)
Definition same_cfg (c c' : Config) : Prop := set_NextSeq 0 c = set_NextSeq 0 c'.

#[export] Instance same_cfg_equiv : Equivalence same_cfg.
Proof. unfold same_cfg. split; [by intros c|by intros c c' ->|by intros c c' c'' -> ->]. Qed.

Lemma same_cfg_fields c c' :
  same_cfg c c' ->
  c_Name c = c_Name c' /\ c_Ordering c = c_Ordering c' /\ c_PriorityEnabled c = c_PriorityEnabled c' /\
  c_MaxAttempts c = c_MaxAttempts c' /\ visibilityTimeout c = visibilityTimeout c' /\
  dedupWindow c = dedupWindow c' /\ agingInterval c = agingInterval c' /\ c_AgingMaxBoost c = c_AgingMaxBoost c'.
Proof.
  destruct c, c'. unfold same_cfg, set_NextSeq, visibilityTimeout, dedupWindow, agingInterval. simpl.
  intros [= -> -> -> -> -> -> -> ->]. done.
Qed.

Lemma same_cfg_NextSeq n c : same_cfg (set_NextSeq n c) c.
Proof. by destruct c. Qed.

Lemma same_cfg_set n c c' : same_cfg c c' -> set_NextSeq n c = set_NextSeq n c'.
Proof. destruct c, c'. unfold same_cfg, set_NextSeq. simpl. by intros [= -> -> -> -> -> -> -> ->]. Qed.

Lemma set_NextSeq_ok n c : config_ok c -> config_ok (set_NextSeq n c).
Proof. intros [? ? ? ? ? ? ? ?]. by destruct c; split. Qed.

Lemma set_NextSeq_typed n c : config_typed c -> in_uint 64 n -> config_typed (set_NextSeq n c).
Proof. intros [? ? ? ? ? ?] ?. by destruct c; split. Qed.

(** ** Facts: queue names are safe directory names *)

Lemma nameRE_spec name :
  nameRE name = true ->
  exists b rest, bytes_of_string name = b :: rest /\ alnum b = true /\
    (length rest <= 63)%nat /\ Forall (fun x => nameByte x = true) rest.
Proof.
  unfold nameRE. destruct (bytes_of_string name) as [|b rest]; [done|].
  intros H. bool_prop. exists b, rest. split_and!; [done..|].
  rewrite List.Forall_forall. by apply forallb_forall.
Qed.

(** ** Facts: message ids *)

Lemma hexDigit_inj m n : 0 <= m < 16 -> 0 <= n < 16 -> hexDigit m = hexDigit n -> m = n.
Proof.
  intros Hm Hn E%(f_equal byteZ). unfold hexDigit in E. rewrite !byteZ_Zbyte in E.
  repeat case_if_in E; bool_prop; rewrite !Z.mod_small in E by lia; lia.
Qed.

Lemma length_hexEncode b : length (hexEncode b) = (2 * length b)%nat.
Proof. induction b; simpl; lia. Qed.

Lemma hexEncode_inj b1 b2 : hexEncode b1 = hexEncode b2 -> b1 = b2.
Proof.
  revert b2. induction b1 as [|x b1 IH]; intros [|y b2]; try done. simpl.
  intros E. injection E as Eh El ?%IH. subst. f_equal. apply byteZ_inj.
  pose proof (byteZ_range x). pose proof (byteZ_range y).
  assert (forall z, 0 <= z < 256 -> 0 <= Z.shiftr z 4 < 16 /\ 0 <= Z.land z 15 < 16 /\
    z = Z.shiftr z 4 * 16 + Z.land z 15) as Hz.
  { intros z Hz. change 15 with (Z.ones 4). rewrite Z.shiftr_div_pow2, Z.land_ones by lia.
    change (2 ^ 4) with 16. pose proof (Z.div_mod z 16). pose proof (Z.mod_pos_bound z 16).
    pose proof (Z.div_lt_upper_bound z 16 16). pose proof (Z.div_pos z 16). lia. }
  destruct (Hz (byteZ x)) as (?&?&->); [done|]. destruct (Hz (byteZ y)) as (?&?&->); [done|].
  apply hexDigit_inj in Eh, El; [|done..]. congruence.
Qed.

Lemma newID_inj b1 b2 : newID b1 = newID b2 -> b1 = b2.
Proof.
  unfold newID. intros E%(f_equal bytes_of_string).
  rewrite !bytes_of_string_of_bytes in E. by apply hexEncode_inj.
Qed.
