(* ===== verification/Heaps.v ===== *)
(** * The three heaps ([internal/queue/heaps.go])

    [readyHeap], [delayedHeap] and [leaseHeap] hold pointers to messages; their
    methods move the pointers and write the position of a message into its
    [index] field.  A pointer is a [loc] into the store of messages all three
    (and the queue's other indexes) share, so an update through one is seen by
    all.  The methods implement [heap.Interface], and the laws of
    [GoHeap.HeapLaws] hold of them. *)

From Stdlib Require Import ZArith Lia.
From S2P Require Import Prelude GoInt Message GoHeap.

(** ** Pointers *)

Notation loc := positive (only parsing).
Notation Store := (gmap positive Message) (only parsing).

(** [p.field = v] through a pointer; [None] is a nil dereference. *)
Definition assign (l : loc) (f : Message -> Message) (st : Store) : option Store :=
  m ← st !! l; Some (<[l := f m]> st).

(** ** Orders *)

Definition delayedHeap_less (a b : Message) : bool :=
  if negb (Equal (m_VisibleAt a) (m_VisibleAt b)) then Before (m_VisibleAt a) (m_VisibleAt b)
  else m_Seq a <? m_Seq b.

Definition leaseHeap_less (a b : Message) : bool :=
  if negb (Equal (m_deadline a) (m_deadline b)) then Before (m_deadline a) (m_deadline b)
  else m_Seq a <? m_Seq b.

(** The three types; a [readyHeap] carries its queue's configuration. *)
Inductive heapKind := readyHeap (cfg : Config) | delayedHeap | leaseHeap.

Definition kind_less (k : heapKind) : Message -> Message -> bool :=
  match k with
  | readyHeap cfg => less cfg
  | delayedHeap => delayedHeap_less
  | leaseHeap => leaseHeap_less
  end.

(** A heap of kind [k]: its [items], and the store they point into. *)
Record msgHeap (k : heapKind) := mkHeap { items : list loc; store : Store }.
Arguments mkHeap {k} _ _.
Arguments items {k} _.
Arguments store {k} _.

(** ** Methods (the same for the three types but for [Less]) *)

Section Methods.
Context {k : heapKind}.
Implicit Types h : msgHeap k.

Definition heap_Len h : nat := length (items h).

Definition heap_Less h (i j : nat) : option bool :=
  x ← items h !! i; y ← items h !! j;
  a ← store h !! x; b ← store h !! y;
  Some (kind_less k a b).

Definition heap_Swap (i j : nat) h : option (msgHeap k) :=
  a ← items h !! i; b ← items h !! j;
  let its := <[j := a]> (<[i := b]> (items h)) in
  pi ← its !! i;
  st ← assign pi (set_index (Z.of_nat i)) (store h);
  pj ← its !! j;
  st ← assign pj (set_index (Z.of_nat j)) st;
  Some (mkHeap its st).

Definition heap_Push (m : loc) h : option (msgHeap k) :=
  st ← assign m (set_index (Z.of_nat (length (items h)))) (store h);
  Some (mkHeap (items h ++ [m]) st).

Definition heap_Pop h : option (loc * msgHeap k) :=
  let old := items h in
  let n := length old in
  if (n =? 0)%nat then None   (* old[-1] *)
  else
    m ← old !! (n - 1)%nat;
    st ← assign m (set_index (-1)) (store h);
    Some (m, mkHeap (take (n - 1) old) st).
End Methods.

#[export] Instance msgHeap_Interface k : HeapInterface (msgHeap k) loc := {
  Len := heap_Len;
  Less := heap_Less;
  Swap := heap_Swap;
  HPush := heap_Push;
  HPop := heap_Pop;
}.

(** ** The orders are strict weak orders *)

Record strict_weak (f : Message -> Message -> bool) : Prop := {
  sw_asym a b : f a b = true -> f b a = false;
  sw_negtrans a b d : f a b = false -> f b d = false -> f a d = false;
}.

Lemma time_seq_strict_weak (key : Message -> Time) :
  strict_weak (fun a b => if negb (Equal (key a) (key b)) then Before (key a) (key b)
                          else m_Seq a <? m_Seq b).
Proof.
  unfold Equal, Before. split; intros *;
    repeat match goal with |- context [?x =? ?y] => destruct (Z.eqb_spec x y) end; simpl;
    rewrite ?Z.ltb_ge, ?Z.ltb_lt; lia.
Qed.

Lemma kind_less_strict_weak k : strict_weak (kind_less k).
Proof.
  destruct k as [cfg| |]; [split; [apply less_asym|apply less_negtrans]|..];
    apply time_seq_strict_weak.
Qed.

(** The fields a kind's order reads. *)
Definition kind_agree (k : heapKind) (a b : Message) : Prop :=
  m_Seq a = m_Seq b /\
  match k with
  | readyHeap _ => m_effPriority a = m_effPriority b
  | delayedHeap => m_VisibleAt a = m_VisibleAt b
  | leaseHeap => m_deadline a = m_deadline b
  end.

Lemma kind_less_agree k a a' b b' :
  kind_agree k a a' -> kind_agree k b b' -> kind_less k a b = kind_less k a' b'.
Proof.
  intros [Hs1 H1] [Hs2 H2]. destruct k; simpl in *.
  - by apply less_ext.
  - unfold delayedHeap_less. by rewrite Hs1, H1, Hs2, H2.
  - unfold leaseHeap_less. by rewrite Hs1, H1, Hs2, H2.
Qed.

(** ** Stores up to heap positions *)

Definition erase (m : Message) : Message := set_index 0 m.

(** The two stores differ at most in [index] fields. *)
Definition store_sim (st st' : Store) : Prop := erase <$> st = erase <$> st'.

#[export] Instance store_sim_equiv : Equivalence store_sim.
Proof. split; unfold store_sim; [by intros ?|by intros ??|intros ???; congruence]. Qed.

Lemma store_sim_lookup st st' l m :
  store_sim st st' -> st !! l = Some m ->
  exists m', st' !! l = Some m' /\ erase m = erase m'.
Proof.
  intros Hs Hl. apply (f_equal (.!! l)) in Hs. rewrite !lookup_fmap, Hl in Hs.
  destruct (st' !! l) as [m'|]; [|done]. exists m'. split; [done|]. by apply (inj Some).
Qed.

Lemma store_sim_is_Some st st' l : store_sim st st' -> is_Some (st !! l) <-> is_Some (st' !! l).
Proof.
  intros Hs. split; intros [m Hm]; (edestruct store_sim_lookup as (m' & ? & _); [|exact Hm|by eexists]).
  - done.
  - by symmetry.
Qed.

Lemma store_sim_set_index st l m i :
  st !! l = Some m -> store_sim st (<[l := set_index i m]> st).
Proof.
  intros Hl. unfold store_sim. rewrite fmap_insert. apply map_eq. intros l'.
  destruct (decide (l' = l)) as [->|]; [by rewrite lookup_fmap, Hl, lookup_insert_eq|].
  by rewrite lookup_insert_ne.
Qed.

(** Messages equal up to position differ in nothing else. *)
Lemma erase_eq a b : erase a = erase b -> a = set_index (m_index a) b.
Proof.
  intros E. transitivity (set_index (m_index a) (erase a)); [by destruct a|]. by rewrite E.
Qed.

Lemma erase_kind_agree k a b : erase a = erase b -> kind_agree k a b.
Proof. intros ->%erase_eq. destruct k; split; reflexivity. Qed.

(** ** The laws *)

Section Laws.
Context {k : heapKind}.
Implicit Types h : msgHeap k.

Definition store_lt (st : Store) (a b : loc) : bool :=
  match st !! a, st !! b with
  | Some x, Some y => kind_less k x y
  | _, _ => false
  end.

(** Pointers are distinct, valid, and know their position. *)
Definition positioned h : Prop :=
  NoDup (items h) /\
  forall i l, items h !! i = Some l -> exists m, store h !! l = Some m /\ m_index m = Z.of_nat i.

Lemma positioned_lookup h i l :
  positioned h -> items h !! i = Some l -> exists m, store h !! l = Some m /\ m_index m = Z.of_nat i.
Proof. intros [_ H]. apply H. Qed.

Lemma positioned_elem h l : positioned h -> l ∈ items h -> is_Some (store h !! l).
Proof. intros [_ H] [i Hi]%list_elem_of_lookup_1. destruct (H i l Hi) as (m & ? & _). by eexists. Qed.

Lemma store_lt_sim st st' a b : store_sim st st' -> store_lt st' a b = store_lt st a b.
Proof.
  intros Hs. unfold store_lt.
  destruct (st !! a) as [x|] eqn:Ha.
  - destruct (store_sim_lookup _ _ _ _ Hs Ha) as (x' & -> & Ex).
    destruct (st !! b) as [y|] eqn:Hb.
    + destruct (store_sim_lookup _ _ _ _ Hs Hb) as (y' & -> & Ey).
      symmetry. by apply kind_less_agree; apply erase_kind_agree.
    + destruct (st' !! b) eqn:Hb'; [|done].
      apply symmetry in Hs. destruct (store_sim_lookup _ _ _ _ Hs Hb') as (? & ? & _). congruence.
  - destruct (st' !! a) eqn:Ha'; [|done].
    apply symmetry in Hs. destruct (store_sim_lookup _ _ _ _ Hs Ha') as (? & ? & _). congruence.
Qed.

Lemma positioned_order h : positioned h -> weak_order (store_lt (store h)) (items h).
Proof.
  intros Hp. pose proof (kind_less_strict_weak k) as [Ha Ht]. unfold store_lt. split.
  - intros x y [a ->]%(positioned_elem h x Hp) [b ->]%(positioned_elem h y Hp). apply Ha.
  - intros x y z [a ->]%(positioned_elem h x Hp) [b ->]%(positioned_elem h y Hp)
      [c ->]%(positioned_elem h z Hp). apply Ht.
Qed.

Lemma heap_Less_law h i j x y :
  positioned h -> items h !! i = Some x -> items h !! j = Some y ->
  heap_Less h i j = Some (store_lt (store h) x y).
Proof.
  intros Hp Hi Hj. unfold heap_Less, store_lt. rewrite Hi, Hj. simpl.
  destruct (positioned_lookup h i x Hp Hi) as (a & -> & _).
  destruct (positioned_lookup h j y Hp Hj) as (b & -> & _). done.
Qed.

(** What a method does to the store: positions of the pointers in [X] only. *)
Definition store_moves (X : list loc) (st st' : Store) : Prop :=
  store_sim st st' /\ forall l, l ∉ X -> st' !! l = st !! l.

Lemma assign_moves (X : list loc) st l m i :
  st !! l = Some m -> l ∈ X ->
  assign l (set_index i) st = Some (<[l := set_index i m]> st) /\
  store_moves X st (<[l := set_index i m]> st).
Proof.
  intros Hl Hin. unfold assign. rewrite Hl. split; [done|split].
  - by apply store_sim_set_index.
  - intros l' Hl'. apply lookup_insert_ne. by intros ->.
Qed.

Lemma heap_Swap_law h i j :
  positioned h -> (i < length (items h))%nat -> (j < length (items h))%nat ->
  exists h', heap_Swap i j h = Some h' /\ positioned h' /\
    items h' = list_swap i j (items h) /\ store_moves (items h) (store h) (store h').
Proof.
  intros Hp Hi Hj. pose proof Hp as [Hnd Hpos].
  destruct (lookup_lt_is_Some_2 _ _ Hi) as [a Ha]. destruct (lookup_lt_is_Some_2 _ _ Hj) as [b Hb].
  pose proof (lookup_list_swap i j (items h) Hi Hj) as Hsw.
  assert (<[j := a]> (<[i := b]> (items h)) = list_swap i j (items h)) as Els
    by (unfold list_swap; by rewrite Ha, Hb).
  assert (list_swap i j (items h) !! i = Some b) as Hi'
    by (rewrite Hsw; unfold transp; by rewrite Nat.eqb_refl).
  assert (list_swap i j (items h) !! j = Some a) as Hj'.
  { rewrite Hsw. unfold transp. rewrite Nat.eqb_refl.
    destruct (Nat.eqb_spec j i) as [->|]; congruence. }
  destruct (Hpos _ _ Ha) as (ma & Hma & Ima). destruct (Hpos _ _ Hb) as (mb & Hmb & Imb).
  destruct (assign_moves (items h) (store h) b mb (Z.of_nat i) Hmb) as [E1 [S1 M1]];
    [by eapply list_elem_of_lookup_2|].
  set (st1 := <[b := set_index (Z.of_nat i) mb]> (store h)) in *.
  assert (exists ma', st1 !! a = Some ma') as [ma' Hma'].
  { destruct (store_sim_lookup _ _ _ _ S1 Hma) as (? & ? & _). eauto. }
  destruct (assign_moves (items h) st1 a ma' (Z.of_nat j) Hma') as [E2 [S2 M2]];
    [by eapply list_elem_of_lookup_2|].
  unfold heap_Swap. rewrite Ha, Hb. simpl. rewrite Els, Hi'. simpl. rewrite E1. simpl.
  rewrite Hj'. simpl. rewrite E2. simpl.
  eexists. split_and!; [done| |done|].
  - split; simpl; [by rewrite list_swap_Permutation by done|].
    intros p l Hl. rewrite Hsw in Hl. unfold transp in Hl.
    destruct (decide (l = a)) as [->|Hla].
    + assert (p = j) as ->.
      { apply (NoDup_lookup (list_swap i j (items h)) p j a); [by rewrite list_swap_Permutation by done| |done].
        by rewrite Hsw. }
      rewrite lookup_insert_eq. by eexists.
    + rewrite lookup_insert_ne by done. subst st1.
      destruct (decide (l = b)) as [->|Hlb].
      * assert (p = i) as ->.
        { apply (NoDup_lookup (list_swap i j (items h)) p i b); [by rewrite list_swap_Permutation by done| |done].
          by rewrite Hsw. }
        rewrite lookup_insert_eq. by eexists.
      * rewrite lookup_insert_ne by done.
        destruct (Nat.eqb_spec p i) as [->|]; [congruence|].
        destruct (Nat.eqb_spec p j) as [->|]; [congruence|]. by apply Hpos.
  - split; simpl; [by transitivity st1|]. intros l Hl. by rewrite M2, M1.
Qed.
Lemma heap_Push_law h x :
  positioned h -> x ∉ items h -> is_Some (store h !! x) ->
  exists h', heap_Push x h = Some h' /\ positioned h' /\
    items h' = items h ++ [x] /\ store_moves [x] (store h) (store h').
Proof.
  intros [Hnd Hpos] Hx [m Hm]. unfold heap_Push.
  destruct (assign_moves [x] (store h) x m (Z.of_nat (length (items h))) Hm) as [-> M];
    [by left|]. simpl.
  eexists. split_and!; [done| |done|done]. split; simpl.
  - apply NoDup_app. split_and!; [done| |apply NoDup_singleton].
    intros y Hy ->%list_elem_of_singleton. done.
  - intros i l Hl. destruct (decide (l = x)) as [->|Hne].
    + rewrite lookup_insert_eq. eexists. split; [done|]. simpl. f_equal.
      apply lookup_app_Some in Hl as [Hl|[Hge Hl]].
      * destruct Hx. by eapply list_elem_of_lookup_2.
      * apply list_lookup_singleton_Some in Hl as [? _]. lia.
    + rewrite lookup_insert_ne by done. apply Hpos.
      apply lookup_app_Some in Hl as [Hl|[_ [_ ?]%list_lookup_singleton_Some]]; congruence.
Qed.

Lemma heap_Pop_law h l x :
  positioned h -> items h = l ++ [x] ->
  exists h', heap_Pop h = Some (x, h') /\ positioned h' /\
    items h' = l /\ store_moves [x] (store h) (store h') /\
    (exists m, store h' !! x = Some m /\ m_index m = -1).
Proof.
  intros [Hnd Hpos] Hv. unfold heap_Pop. rewrite Hv in *. rewrite length_app. simpl.
  rewrite Nat.add_1_r. simpl. rewrite Nat.sub_0_r.
  assert ((l ++ [x]) !! length l = Some x) as Hx by (by rewrite lookup_app_r, Nat.sub_diag).
  destruct (Hpos _ _ Hx) as (m & Hm & _). rewrite Hx. simpl.
  destruct (assign_moves [x] (store h) x m (-1) Hm) as [-> M]; [by left|]. simpl.
  eexists. split_and!; [done| | |done|].
  - apply NoDup_app in Hnd as (Hl & Hdisj & _). split; simpl; rewrite take_app_length; [done|].
    intros i y Hy. rewrite lookup_insert_ne.
    + apply Hpos. by apply lookup_app_l_Some.
    + intros <-. apply (Hdisj x); [by eapply list_elem_of_lookup_2|by left].
  - simpl. apply take_app_length.
  - simpl. rewrite lookup_insert_eq. by eexists.
Qed.
End Laws.

(** [heap.Interface] is implemented: [container/heap]'s theorems apply to the
    three heaps. *)
#[export] Instance msgHeap_Laws k : HeapLaws (msgHeap k) loc (option Message).
Proof.
  refine {|
    view := @items k;
    lt h := @store_lt k (store h);
    obs h l := store h !! l;
    hok := positioned;
    pushable x h := x ∉ items h /\ is_Some (store h !! x);
    same h h' := store_sim (store h) (store h');
  |}.
  - split; [by intros h|by intros h1 h2 h3 ->].
  - intros. by apply store_lt_sim.
  - apply positioned_order.
  - done.
  - apply heap_Less_law.
  - intros h i j Hok Hi Hj. destruct (heap_Swap_law h i j Hok Hi Hj) as (h' & ? & ? & ? & ? & ?). eauto 10.
  - intros h x Hok [Hx Hs]. destruct (heap_Push_law h x Hok Hx Hs) as (h' & ? & ? & ? & ? & Hm).
    exists h'. split_and!; try done. intros a Ha. apply Hm. by rewrite list_elem_of_singleton.
  - intros h l x Hok Hv. destruct (heap_Pop_law h l x Hok Hv) as (h' & ? & ? & ? & [? Hm] & _).
    exists h'. split_and!; try done. intros a Ha. apply Hm. by rewrite list_elem_of_singleton.
Defined.
