(* ===== verification/Codec.v ===== *)
(** * Wire encoding of record payloads ([internal/queue/codec.go])

    The binary layout of messages and dedup entries, their decoders, and the
    round trips.  The JSON encoding of [META] is in [Json]. *)

From Stdlib Require Import ZArith Lia.
From S2P Require Import Prelude GoInt Errors Message.

(** A [(T, error)] result of which only one is meaningful. *)
Notation "'Result' A" := (sum A Err) (at level 10, only parsing).
Notation "'letR' x ':=' e 'in' k" :=
  (match e with inl x => k | inr err => inr err end)
  (at level 200, x pattern, e at level 100, k at level 200).

Definition messageFormatVersion : Z := 2.

(** ** Strings with a 16-bit length *)

Definition appendString16 (dst : list byte) (s : string) : list byte :=
  let dst := AppendUint16 dst (Z.of_nat (strlen s)) in
  dst ++ bytes_of_string s.

(** The string at [p] and the position after it. *)
Definition readString16 (b : list byte) (p : nat) : Result (string * nat) :=
  if (length b <? p + 2)%nat then inr errShortPayload
  else
    let n := Z.to_nat (Uint16 (drop p b)) in
    let p := (p + 2)%nat in
    if (length b <? p + n)%nat then inr errShortPayload
    else inl (string_of_bytes (take n (drop p b)), (p + n)%nat).

(** ** Messages *)

Definition encodeMessage (m : Message) : list byte :=
  let buf := [Zbyte messageFormatVersion] in
  let buf := AppendUint64 buf (m_Seq m) in
  let buf := AppendUint64 buf (m_Priority m) in
  let buf := AppendUint64 buf (UnixNano (m_VisibleAt m)) in
  let buf := AppendUint64 buf (UnixNano (m_CreatedAt m)) in
  let buf := AppendUint32 buf (m_Attempts m) in
  let flags := if decide (m_state m = stateDead) then x01 else x00 in
  let buf := buf ++ [flags] in
  let buf := appendString16 buf (m_ID m) in
  let buf := appendString16 buf (m_DedupID m) in
  let buf := AppendUint32 buf (Z.of_nat (length (m_Payload m))) in
  buf ++ m_Payload m.

Definition decodeMessage (b : list byte) : Result Message :=
  if (length b <? 38)%nat then inr errShortPayload
  else if negb (byteZ (b !!! 0%nat) =? messageFormatVersion) then
    inr (EUnsupportedVersion (byteZ (b !!! 0%nat)))
  else
    let p := 1%nat in
    let seq := Uint64 (drop p b) in
    let p := (p + 8)%nat in
    let priority := int64 (Uint64 (drop p b)) in
    if negb (int64 priority =? priority) then inr (EPriorityTooWide priority)
    else
      let p := (p + 8)%nat in
      let visibleAt := UnixZero (int64 (Uint64 (drop p b))) in
      let p := (p + 8)%nat in
      let createdAt := UnixZero (int64 (Uint64 (drop p b))) in
      let p := (p + 8)%nat in
      let attempts := Uint32 (drop p b) in
      let p := (p + 4)%nat in
      let flags := b !!! p in
      let p := (p + 1)%nat in
      letR (id, p) := readString16 b p in
      letR (dedup, p) := readString16 b p in
      if (length b <? p + 4)%nat then inr errShortPayload
      else
        let n := Z.to_nat (Uint32 (drop p b)) in
        let p := (p + 4)%nat in
        if (length b <? p + n)%nat then inr errShortPayload
        else
          let payload := take n (drop p b) in
          if bool_decide (id = "") then inr EEmptyId
          else
            let state := if negb (Z.land (byteZ flags) 1 =? 0) then stateDead else stateReady in
            inl (mkMessage id dedup seq priority visibleAt payload attempts createdAt
                   state 0 priority zeroTime).

(** ** Dedup entries *)

(** [type dedupEntry struct] *)
Record dedupEntry := mkDedup {
  e_DedupID : string;
  e_MessageID : string;
  e_ExpiresAt : Time;
}.

Definition encodeDedup (e : dedupEntry) : list byte :=
  let buf := [] in
  let buf := appendString16 buf (e_DedupID e) in
  let buf := appendString16 buf (e_MessageID e) in
  AppendUint64 buf (UnixNano (e_ExpiresAt e)).

Definition decodeDedup (b : list byte) : Result dedupEntry :=
  letR (dedup, p) := readString16 b 0 in
  letR (msg, p) := readString16 b p in
  if (length b <? p + 8)%nat then inr errShortPayload
  else inl (mkDedup dedup msg (UnixZero (int64 (Uint64 (drop p b))))).

(** ** Reading back strings *)

Definition short16 (s : string) : Prop := Z.of_nat (strlen s) < 2 ^ 16.

(** The bytes [appendString16] adds. *)
Definition str16 (s : string) : list byte :=
  le_bytes 2 (uint16 (Z.of_nat (strlen s))) ++ bytes_of_string s.

Lemma appendString16_eq dst s : appendString16 dst s = dst ++ str16 s.
Proof. unfold appendString16, AppendUint16, str16. by rewrite <- app_assoc. Qed.

Lemma length_str16 s : length (str16 s) = (2 + strlen s)%nat.
Proof. unfold str16. by rewrite length_app, length_le_bytes. Qed.

Lemma readString16_str16 pre s rest p :
  short16 s -> p = length pre ->
  readString16 (pre ++ str16 s ++ rest) p = inl (s, (p + length (str16 s))%nat).
Proof.
  intros Hs ->. unfold readString16. rewrite !length_app, length_str16.
  rewrite (proj2 (Nat.ltb_ge _ (length pre + 2))) by lia.
  rewrite drop_app_length. unfold str16. rewrite <- app_assoc.
  assert (in_uint 16 (Z.of_nat (strlen s))) as Hr by (unfold in_uint, short16 in *; lia).
  unfold uint16. rewrite uint_small, Uint16_le_bytes, Nat2Z.id by done.
  rewrite (proj2 (Nat.ltb_ge _ (length pre + 2 + strlen s))) by lia.
  do 2 f_equal; [|lia].
  rewrite <- drop_drop, drop_app_length, (drop_app_length' (le_bytes 2 _)) by by rewrite length_le_bytes.
  unfold strlen. rewrite take_app_length. apply string_of_bytes_of_string.
Qed.

(** What is read from a prefix of the bytes is what is read from all of them. *)
Lemma readString16_prefix b k p s q :
  (k <= length b)%nat ->
  readString16 (take k b) p = inl (s, q) -> (q <= k)%nat /\ readString16 b p = inl (s, q).
Proof.
  intros Hk. unfold readString16. rewrite length_take_le by done.
  destruct (Nat.ltb_spec k (p + 2)); [done|].
  assert (Uint16 (drop p (take k b)) = Uint16 (drop p b)) as ->.
  { unfold Uint16. rewrite skipn_firstn_comm, take_take. f_equal. f_equal. lia. }
  set (n := Z.to_nat (Uint16 (drop p b))).
  destruct (Nat.ltb_spec k (p + 2 + n)); [done|].
  intros [= <- <-]. split; [done|].
  rewrite (proj2 (Nat.ltb_ge (length b) (p + 2))), (proj2 (Nat.ltb_ge (length b) (p + 2 + n))) by lia.
  do 3 f_equal. rewrite skipn_firstn_comm, take_take. f_equal. lia.
Qed.

(** ** Message round trip *)

(** The fields fit the widths they are stored in. *)
Record encodable (m : Message) : Prop := {
  enc_seq : in_uint 64 (m_Seq m);
  enc_priority : in_int64 (m_Priority m);
  enc_visible : in_int64 (m_VisibleAt m);
  enc_created : in_int64 (m_CreatedAt m);
  enc_attempts : in_uint 32 (m_Attempts m);
  enc_id : short16 (m_ID m) /\ m_ID m <> "";
  enc_dedup : short16 (m_DedupID m);
  enc_payload : Z.of_nat (length (m_Payload m)) < 2 ^ 32;
}.

(** What survives: the persisted block, the dead flag, and the runtime fields at
    their initial values. *)
Definition persisted (m : Message) : Message :=
  mkMessage (m_ID m) (m_DedupID m) (m_Seq m) (m_Priority m) (m_VisibleAt m) (m_Payload m)
    (m_Attempts m) (m_CreatedAt m)
    (if decide (m_state m = stateDead) then stateDead else stateReady) 0 (m_Priority m) zeroTime.

(** The fixed-width fields: 38 bytes. *)
Definition fixedPart (m : Message) : list byte :=
  [Zbyte messageFormatVersion] ++ le_bytes 8 (uint64 (m_Seq m)) ++ le_bytes 8 (uint64 (m_Priority m))
    ++ le_bytes 8 (uint64 (UnixNano (m_VisibleAt m))) ++ le_bytes 8 (uint64 (UnixNano (m_CreatedAt m)))
    ++ le_bytes 4 (uint32 (m_Attempts m)) ++ [if decide (m_state m = stateDead) then x01 else x00].

Definition payloadPart (m : Message) : list byte :=
  le_bytes 4 (uint32 (Z.of_nat (length (m_Payload m)))) ++ m_Payload m.

Lemma encodeMessage_eq m :
  encodeMessage m = fixedPart m ++ str16 (m_ID m) ++ str16 (m_DedupID m) ++ payloadPart m.
Proof.
  unfold encodeMessage, AppendUint64, AppendUint32. cbv zeta. rewrite !appendString16_eq.
  unfold fixedPart, payloadPart. by rewrite <- !app_assoc.
Qed.

Lemma length_fixedPart m : length (fixedPart m) = 38%nat.
Proof. unfold fixedPart. by rewrite !length_app, !length_le_bytes. Qed.

(** The fixed-width fields read back from any bytes that start with them. *)
Lemma fixedPart_fields m rest :
  let b := fixedPart m ++ rest in
  b !!! 0%nat = x02 /\
  Uint64 (drop 1 b) = uint64 (m_Seq m) /\
  Uint64 (drop 9 b) = uint64 (m_Priority m) /\
  Uint64 (drop 17 b) = uint64 (UnixNano (m_VisibleAt m)) /\
  Uint64 (drop 25 b) = uint64 (UnixNano (m_CreatedAt m)) /\
  Uint32 (drop 33 b) = uint32 (m_Attempts m) /\
  b !!! 37%nat = (if decide (m_state m = stateDead) then x01 else x00).
Proof.
  assert (forall z r, Uint64 (le_bytes 8 (uint64 z) ++ r) = uint64 z) as H64
    by (intros; apply Uint64_le_bytes, uint_range; lia).
  cbv zeta. unfold fixedPart. rewrite <- !app_assoc. split_and!.
  - reflexivity.
  - exact (H64 _ _).
  - exact (H64 (m_Priority m) _).
  - exact (H64 (UnixNano (m_VisibleAt m)) _).
  - exact (H64 (UnixNano (m_CreatedAt m)) _).
  - apply (Uint32_le_bytes (uint32 (m_Attempts m))), uint_range. lia.
  - reflexivity.
Qed.

(** The message [decodeMessage] builds from its parts. *)
Definition decoded (m : Message) (id dedup : string) (payload : list byte) : Message :=
  mkMessage id dedup (uint64 (m_Seq m)) (int64 (m_Priority m)) (int64 (m_VisibleAt m)) payload
    (uint32 (m_Attempts m)) (int64 (m_CreatedAt m))
    (if decide (m_state m = stateDead) then stateDead else stateReady) 0
    (int64 (m_Priority m)) zeroTime.

Lemma int64_idem z : int64 (int64 z) = int64 z.
Proof. apply int64_small, int64_range. Qed.

(** Decoding after the fixed part. *)
Lemma decodeMessage_fixedPart m rest :
  decodeMessage (fixedPart m ++ rest) =
    (let b := fixedPart m ++ rest in
     letR (id, p) := readString16 b 38 in
     letR (dedup, p) := readString16 b p in
     if (length b <? p + 4)%nat then inr errShortPayload
     else
       let n := Z.to_nat (Uint32 (drop p b)) in
       if (length b <? p + 4 + n)%nat then inr errShortPayload
       else if bool_decide (id = "") then inr EEmptyId
       else inl (decoded m id dedup (take n (drop (p + 4) b)))).
Proof.
  unfold decodeMessage.
  destruct (fixedPart_fields m rest) as (E0 & E1 & E2 & E3 & E4 & E5 & E6). cbv zeta in *.
  rewrite (proj2 (Nat.ltb_ge _ 38)) by (rewrite length_app, length_fixedPart; lia).
  cbn [Nat.add]. rewrite E0, E1, E2, E3, E4, E5, E6.
  change (negb (byteZ x02 =? messageFormatVersion)) with false. cbv iota.
  rewrite !int64_uint64, int64_idem, Z.eqb_refl. cbn [negb].
  unfold UnixZero, UnixNano. rewrite !int64_idem. unfold decoded.
  destruct (readString16 _ 38) as [[id p]|]; [|done].
  destruct (readString16 _ p) as [[dedup q]|]; [|done].
  repeat (case_if_goal; [done|]).
  by destruct (decide (m_state m = stateDead)).
Qed.

Lemma decoded_persisted m :
  encodable m -> decoded m (m_ID m) (m_DedupID m) (m_Payload m) = persisted m.
Proof.
  intros [Hs Hp Hv Hc Ha _ _ _]. unfold decoded, persisted, uint64, uint32.
  by rewrite !uint_small, !int64_small.
Qed.

(** Where the payload of an encoded message starts. *)
Definition payloadStart (m : Message) : nat :=
  (38 + length (str16 (m_ID m)) + length (str16 (m_DedupID m)))%nat.

Lemma readString16_message m tail :
  short16 (m_ID m) -> short16 (m_DedupID m) ->
  let b := encodeMessage m ++ tail in
  readString16 b 38 = inl (m_ID m, (38 + length (str16 (m_ID m)))%nat) /\
  readString16 b (38 + length (str16 (m_ID m))) = inl (m_DedupID m, payloadStart m) /\
  drop (payloadStart m) b = payloadPart m ++ tail.
Proof.
  intros Hi Hd. cbv zeta. rewrite encodeMessage_eq.
  pose proof (length_fixedPart m) as Hf. split_and!.
  - rewrite <- !app_assoc. by apply readString16_str16.
  - rewrite (app_assoc (fixedPart m)), <- !app_assoc, (app_assoc (fixedPart m)).
    apply readString16_str16; [done|]. by rewrite length_app, Hf.
  - rewrite !app_assoc, <- (app_assoc _ (payloadPart m)). apply drop_app_length'.
    unfold payloadStart. rewrite !length_app. lia.
Qed.

Lemma decodeMessage_app m tail :
  encodable m -> decodeMessage (encodeMessage m ++ tail) = inl (persisted m).
Proof.
  intros He. pose proof He as [_ _ _ _ _ [Hi Hne] Hd Hp].
  destruct (readString16_message m tail Hi Hd) as (R1 & R2 & Hdrop). cbv zeta in *.
  assert (length (encodeMessage m ++ tail)
    = payloadStart m + (4 + length (m_Payload m)) + length tail)%nat as Hlen.
  { rewrite encodeMessage_eq, !length_app, length_fixedPart. unfold payloadPart, payloadStart.
    rewrite length_app, length_le_bytes. lia. }
  rewrite encodeMessage_eq, <- app_assoc in *. rewrite decodeMessage_fixedPart. cbv zeta.
  set (b := fixedPart m ++ _) in *. clearbody b.
  rewrite R1, R2, Hlen, <- drop_drop, Hdrop.
  rewrite (proj2 (Nat.ltb_ge _ (payloadStart m + 4))) by lia.
  unfold payloadPart, uint32. rewrite <- app_assoc, uint_small, Uint32_le_bytes, Nat2Z.id
    by (unfold in_uint; lia).
  rewrite (proj2 (Nat.ltb_ge _ _)) by lia.
  rewrite bool_decide_eq_false_2 by done.
  rewrite (drop_app_length' (le_bytes 4 _)) by by rewrite length_le_bytes.
  rewrite take_app_length. by rewrite decoded_persisted.
Qed.

(** Reading a string only ever fails as truncated. *)
Lemma readString16_err b p e : readString16 b p = inr e -> e = errShortPayload.
Proof. unfold readString16. cbv zeta. intros H. repeat case_if_in H; congruence. Qed.

(** Any proper prefix of an encoded message is refused as truncated. *)
Lemma decodeMessage_short m k :
  encodable m -> (k < length (encodeMessage m))%nat ->
  decodeMessage (take k (encodeMessage m)) = inr errShortPayload.
Proof.
  intros He Hk. pose proof He as [_ _ _ _ _ [Hi Hne] Hd Hp].
  destruct (decide (k < 38)%nat) as [Hs|Hs].
  { unfold decodeMessage. rewrite length_take_le by lia. by rewrite (proj2 (Nat.ltb_lt k 38)). }
  destruct (readString16_message m [] Hi Hd) as (R1 & R2 & Hdrop). rewrite app_nil_r in *.
  assert (length (encodeMessage m) = payloadStart m + (4 + length (m_Payload m)))%nat as Hlen.
  { rewrite encodeMessage_eq, !length_app, length_fixedPart. unfold payloadPart, payloadStart.
    rewrite length_app, length_le_bytes. lia. }
  set (b := encodeMessage m) in *.
  assert (take k b = fixedPart m ++ take (k - 38) (drop 38 b)) as Ht.
  { subst b. rewrite encodeMessage_eq, take_app_ge, length_fixedPart, drop_app_length'
      by (rewrite length_fixedPart; lia || done). done. }
  rewrite Ht, decodeMessage_fixedPart, <- Ht. cbv zeta.
  destruct (readString16 (take k b) 38) as [[id p]|e] eqn:E1;
    [|by rewrite (readString16_err _ _ _ E1)].
  apply readString16_prefix in E1 as [_ E1]; [|lia]. 
  assert (id = m_ID m /\ p = (38 + length (str16 (m_ID m)))%nat) as [-> ->] by (split; congruence).
  destruct (readString16 (take k b) _) as [[dedup q]|e] eqn:E2;
    [|by rewrite (readString16_err _ _ _ E2)].
  apply readString16_prefix in E2 as [Hq E2]; [|lia]. 
  assert (dedup = m_DedupID m /\ q = payloadStart m) as [-> ->] by (split; congruence).
  rewrite length_take_le by lia.
  destruct (Nat.ltb_spec k (payloadStart m + 4)) as [|H4]; [done|].
  assert (Uint32 (drop (payloadStart m) (take k b)) = Z.of_nat (length (m_Payload m))) as ->.
  { unfold Uint32. rewrite skipn_firstn_comm, take_take, Nat.min_l by lia.
    rewrite Hdrop. unfold payloadPart, uint32.
    rewrite uint_small, <- app_assoc by (unfold in_uint; lia).
    apply (Uint32_le_bytes (Z.of_nat (length (m_Payload m)))). unfold in_uint. lia. }
  rewrite Nat2Z.id. by rewrite (proj2 (Nat.ltb_lt k _)) by lia.
Qed.

(** ** Dedup round trip *)

Record dedup_encodable (e : dedupEntry) : Prop := {
  de_dedup : short16 (e_DedupID e);
  de_message : short16 (e_MessageID e);
  de_expires : in_int64 (e_ExpiresAt e);
}.

Lemma decodeDedup_encodeDedup e :
  dedup_encodable e -> decodeDedup (encodeDedup e) = inl e.
Proof.
  intros [Hd Hm He]. unfold encodeDedup, decodeDedup, AppendUint64. cbv zeta.
  rewrite !appendString16_eq, app_nil_l.
  set (tl := le_bytes 8 (uint64 (UnixNano (e_ExpiresAt e)))).
  set (b := (str16 (e_DedupID e) ++ str16 (e_MessageID e)) ++ tl).
  assert (readString16 b 0 = inl (e_DedupID e, length (str16 (e_DedupID e)))) as ->.
  { subst b. rewrite <- app_assoc. by apply (readString16_str16 [] (e_DedupID e)). }
  assert (readString16 b (length (str16 (e_DedupID e)))
    = inl (e_MessageID e, length (str16 (e_DedupID e) ++ str16 (e_MessageID e)))) as ->.
  { subst b. rewrite <- app_assoc, readString16_str16 by done. by rewrite length_app. }
  subst b. rewrite (length_app _ tl), drop_app_length. subst tl. rewrite length_le_bytes, Nat.ltb_irrefl.
  assert (Uint64 (le_bytes 8 (uint64 (UnixNano (e_ExpiresAt e)))) = uint64 (UnixNano (e_ExpiresAt e))) as ->.
  { rewrite <- (app_nil_r (le_bytes 8 _)). apply Uint64_le_bytes, uint_range. lia. }
  unfold UnixNano, UnixZero. rewrite int64_uint64, int64_idem, int64_small by done.
  by destruct e.
Qed.
