(* ===== verification/MessageProps.v ===== *)
(** * Properties of messages, configurations and the wire encoding

    What [message.go] and [codec.go] promise their callers: the comparator is a
    strict total order of the documented shape, validation is sound and stable,
    queue names are safe directory names, and the binary encoding round-trips,
    refuses truncation and is exact on the widths it stores. *)

From Stdlib Require Import ZArith Lia.
From S2P Require Import Prelude GoInt Errors Message Codec.

(** ** The comparator *)

(** The key order of the four queue types, most urgent first: the priority in
    force (when priorities are on), then the sequence number. *)
Definition before_key (prio lifo : bool) (a b : Z * Z) : Prop :=
  (prio = true /\ b.1 < a.1) \/
  ((prio = true -> a.1 = b.1) /\ if lifo then b.2 < a.2 else a.2 < b.2).

Definition key (m : Message) : Z * Z := (m_effPriority m, m_Seq m).

(** [less] is a strict total order on messages with distinct sequence numbers, for every configuration: it is irreflexive, transitive and decides any two such messages one way and only one way, and it is exactly the lexicographic order the four documented queue types describe (priority in force descending when enabled, then [Seq] ascending for FIFO and descending for LIFO). *)
Lemma less_strict_total (c : Config) (a b d : Message) :
  (less c a b = true <->
     before_key (c_PriorityEnabled c) (bool_decide (c_Ordering c = LIFO)) (key a) (key b)) /\
  less c a a = false /\
  (less c a b = true -> less c b d = true -> less c a d = true) /\
  (less c a b = true -> less c b a = false) /\
  (m_Seq a <> m_Seq b -> less c a b = true \/ less c b a = true).
Proof.
  split_and!.
  - apply less_spec.
  - destruct (less c a a) eqn:E; [|done]. by rewrite (less_asym c a a E) in E.
  - apply less_trans.
  - apply less_asym.
  - apply less_total.
Qed.

(** ** Validation *)

(** A configuration [Validate] accepts is left normalised — a legal name and ordering, at least one attempt, positive visibility timeout and dedup window, a non-negative aging interval that only occurs together with priorities and a positive boost — and validating it again changes nothing; the fields that identify the queue ([Name], [PriorityEnabled], [NextSeq]) are never altered. *)
Lemma Validate_normalises (c c' : Config) :
  Validate c = (c', None) ->
  config_ok c' /\ Validate c' = (c', None) /\
  c_Name c' = c_Name c /\ c_PriorityEnabled c' = c_PriorityEnabled c /\ c_NextSeq c' = c_NextSeq c.
Proof.
  intros H. pose proof (Validate_sound c c' H) as Hok.
  split; [done|]. split; [by apply Validate_ok|]. clear Hok. revert H. unfold Validate.
  repeat match goal with
  | |- context [if ?b then _ else _] => destruct b; cbn -[Z.mul Z.pow quotDuration]
  end; intros [= <-]; split_and!; reflexivity.
Qed.

(** [/], the path separator. *)
Definition slash : byte := x2f.
Definition dot : byte := x2e.

(** The name check is a security boundary: an accepted queue name is between 1 and 64 bytes, contains no path separator and no NUL, and does not start with a dot — so it is neither empty, nor [.], nor [..], nor a path leaving the data directory. *)
Theorem nameRE_safe (name : string) :
  nameRE name = true ->
  (1 <= strlen name <= 64)%nat /\
  slash ∉ bytes_of_string name /\ x00 ∉ bytes_of_string name /\
  head (bytes_of_string name) <> Some dot.
Proof.
  intros (b & rest & E & Hb & Hl & Hr)%nameRE_spec. unfold strlen. rewrite E. simpl.
  assert (forall x, alnum x = true -> x <> slash /\ x <> x00 /\ x <> dot) as Hal
    by (intros x Hx; split_and!; intros ->; discriminate).
  assert (forall x, nameByte x = true -> x <> slash /\ x <> x00) as Hnb
    by (intros x Hx; split_and!; intros ->; discriminate).
  rewrite Forall_forall in Hr. destruct (Hal b Hb) as (?&?&?).
  split_and!; [lia|lia| | |congruence]; intros [?|Hin]%elem_of_cons; try congruence;
    destruct (Hnb _ (Hr _ Hin)); congruence.
Qed.

(** ** The wire encoding *)

(** C35: The message encoding is exact: decoding an encoded message, whatever bytes follow it, gives back every persisted field and the dead flag with the runtime fields at their initial values, and decoding any proper prefix of it is refused as truncated rather than misread. *)
Theorem encodeMessage_roundtrip (m : Message) (tail : list byte) (k : nat) :
  encodable m ->
  decodeMessage (encodeMessage m ++ tail) = inl (persisted m) /\
  ((k < length (encodeMessage m))%nat -> decodeMessage (take k (encodeMessage m)) = inr errShortPayload).
Proof. intros He. split; [by apply decodeMessage_app|by apply decodeMessage_short]. Qed.

Definition sample_msg : Message :=
  mkMessage "0123456789abcdef" "order-17" 42 (-7) 1700000000000000000 [x7b; x7d] 2
    1699999999000000000 stateInFlight 3 11 1700000030000000000.

Lemma sample_encodable : encodable sample_msg.
Proof. split; unfold in_uint, in_int64, short16; vm_compute; repeat split; congruence. Qed.

Lemma encodeMessage_roundtrip_witness :
  decodeMessage (encodeMessage sample_msg ++ [xff]) = inl (persisted sample_msg) /\
  decodeMessage (take 67 (encodeMessage sample_msg)) = inr errShortPayload.
Proof.
  destruct (encodeMessage_roundtrip sample_msg [xff] 67 sample_encodable) as [H1 H2].
  split; [exact H1|]. apply H2. vm_compute. lia.
Defined.

(** Two dedup entries that fit their stored widths have the same encoding only if they are equal, and decoding gives the entry back. *)
Lemma encodeDedup_roundtrip (e e' : dedupEntry) :
  dedup_encodable e -> dedup_encodable e' ->
  decodeDedup (encodeDedup e) = inl e /\ (encodeDedup e = encodeDedup e' -> e = e').
Proof.
  intros He He'. split; [by apply decodeDedup_encodeDedup|].
  intros E%(f_equal decodeDedup). rewrite !decodeDedup_encodeDedup in E by done. by injection E.
Qed.

(** ** Where the stored width loses information *)

(** Everything fits but the visibility time, which lies past what an [int64] of
    nanoseconds can say (the year 2262). *)
Definition far_future (m : Message) : Prop :=
  2 ^ 63 <= m_VisibleAt m < 2 ^ 64 + 2 ^ 63 /\ encodable (set_VisibleAt 0 m).

(** C40: A message delayed beyond the year 2262 does not survive a restart as delayed: [UnixNano] wraps, and the decoded message is visible 2^64 nanoseconds (some 584 years) too early — for a visibility time up to 2^64 nanoseconds after the epoch, before 1970, so at once. *)
Theorem far_future_delay_lost (m : Message) :
  far_future m ->
  exists m', decodeMessage (encodeMessage m) = inl m' /\
    m_VisibleAt m' = m_VisibleAt m - 2 ^ 64 /\
    (m_VisibleAt m < 2 ^ 64 -> forall now, 0 <= now -> After (m_VisibleAt m') now = false).
Proof.
  intros [Hv He]. set (v := m_VisibleAt m - 2 ^ 64).
  assert (in_int64 v) as Hr by (unfold in_int64; subst v; lia).
  assert (int64 (m_VisibleAt m) = v) as Hw.
  { rewrite <- (int64_small v Hr). unfold int64, sint. f_equal. subst v.
    replace (m_VisibleAt m - 2 ^ 64 + 2 ^ (64 - 1)) with (m_VisibleAt m + 2 ^ (64 - 1) + (-1) * 2 ^ 64) by lia.
    by rewrite Z.mod_add by lia. }
  assert (encodeMessage m = encodeMessage (set_VisibleAt v m)) as Henc.
  { unfold encodeMessage, UnixNano. cbn [m_VisibleAt set_VisibleAt m_Seq m_Priority m_CreatedAt m_Attempts
      m_state m_ID m_DedupID m_Payload]. by rewrite Hw, (int64_small v Hr). }
  exists (persisted (set_VisibleAt v m)). rewrite Henc. split.
  - rewrite <- (app_nil_r (encodeMessage _)). apply decodeMessage_app.
    destruct He. split; done.
  - unfold After. cbn [persisted set_VisibleAt m_VisibleAt]. split; [done|].
    intros ? now ?. apply Z.ltb_ge. subst v. lia.
Qed.

Lemma far_future_delay_lost_witness :
  exists m', decodeMessage (encodeMessage (set_VisibleAt (2 ^ 63 + 5) sample_msg)) = inl m' /\
    After (m_VisibleAt m') 0 = false.
Proof.
  destruct (far_future_delay_lost (set_VisibleAt (2 ^ 63 + 5) sample_msg)) as (m' & H1 & _ & H3).
  - split; [vm_compute; split; congruence|].
    split; unfold in_uint, in_int64, short16; vm_compute; repeat split; congruence.
  - exists m'. split; [exact H1|]. apply H3; vm_compute; congruence.
Defined.
