(* ===== verification/Index.v ===== *)
(** * The queue's index and its transitions ([internal/queue/queue.go])

    What the mutex guards apart from the log: the configuration, the three heaps,
    the id map, the dead-letter list, the dedup map and the sequence counter, all
    sharing one store of messages; and the [apply*] transitions, which are the
    only code that changes it, on the live path and on replay.  A [None] is a
    run-time panic (a nil dereference or an index out of range), an
    [option Err] the [error] result. *)

From Stdlib Require Import ZArith Lia.
From S2P Require Import Prelude GoInt Errors WalRecord GoHeap Message Heaps Codec.

(** ** State *)

Record Index := mkIndex {
  ix_cfg : Config;
  ix_store : Store;
  ix_ready : list loc;
  ix_delayed : list loc;
  ix_inflight : list loc;
  ix_byID : gmap string loc;
  ix_dlq : list loc;
  ix_dedup : gmap string dedupEntry;
  ix_nextSeq : Z;
}.

Definition set_cfg (c : Config) (ix : Index) : Index :=
  mkIndex c (ix_store ix) (ix_ready ix) (ix_delayed ix) (ix_inflight ix) (ix_byID ix) (ix_dlq ix)
    (ix_dedup ix) (ix_nextSeq ix).
Definition set_store (st : Store) (ix : Index) : Index :=
  mkIndex (ix_cfg ix) st (ix_ready ix) (ix_delayed ix) (ix_inflight ix) (ix_byID ix) (ix_dlq ix)
    (ix_dedup ix) (ix_nextSeq ix).
Definition set_byID (b : gmap string loc) (ix : Index) : Index :=
  mkIndex (ix_cfg ix) (ix_store ix) (ix_ready ix) (ix_delayed ix) (ix_inflight ix) b (ix_dlq ix)
    (ix_dedup ix) (ix_nextSeq ix).
Definition set_dlq (d : list loc) (ix : Index) : Index :=
  mkIndex (ix_cfg ix) (ix_store ix) (ix_ready ix) (ix_delayed ix) (ix_inflight ix) (ix_byID ix) d
    (ix_dedup ix) (ix_nextSeq ix).
Definition set_dedup (d : gmap string dedupEntry) (ix : Index) : Index :=
  mkIndex (ix_cfg ix) (ix_store ix) (ix_ready ix) (ix_delayed ix) (ix_inflight ix) (ix_byID ix)
    (ix_dlq ix) d (ix_nextSeq ix).
Definition set_nextSeq (n : Z) (ix : Index) : Index :=
  mkIndex (ix_cfg ix) (ix_store ix) (ix_ready ix) (ix_delayed ix) (ix_inflight ix) (ix_byID ix)
    (ix_dlq ix) (ix_dedup ix) n.

(** The configuration of a queue not loaded yet: Go's zero value. *)
Definition zeroConfig : Config := mkConfig "" "" false 0 0 0 0 0 0.

(** [newQueue]'s index: empty maps, [nextSeq] 1. *)
Definition newIndex : Index := mkIndex zeroConfig ∅ [] [] [] ∅ [] ∅ 1.

(** [*m = v] and the allocation of a message. *)
Definition assign_ix (l : loc) (f : Message -> Message) (ix : Index) : option Index :=
  st ← assign l f (ix_store ix); Some (set_store st ix).

Definition alloc (m : Message) (ix : Index) : loc * Index :=
  let l := fresh (dom (ix_store ix)) in
  (l, set_store (<[l := m]> (ix_store ix)) ix).

(** ** The three heaps as parts of the index *)

Inductive slot := Ready | Delayed | InFlight.

#[export] Instance slot_eq_dec : EqDecision slot.
Proof. solve_decision. Defined.

Definition slot_state (s : slot) : state :=
  match s with Ready => stateReady | Delayed => stateDelayed | InFlight => stateInFlight end.

(** [q.ready.cfg = &q.cfg]: the ready heap reads the queue's configuration. *)
Definition slot_kind (s : slot) (c : Config) : heapKind :=
  match s with Ready => readyHeap c | Delayed => delayedHeap | InFlight => leaseHeap end.

Definition slot_items (s : slot) (ix : Index) : list loc :=
  match s with Ready => ix_ready ix | Delayed => ix_delayed ix | InFlight => ix_inflight ix end.

Definition get_heap (s : slot) (ix : Index) : msgHeap (slot_kind s (ix_cfg ix)) :=
  mkHeap (slot_items s ix) (ix_store ix).

Definition put_heap (s : slot) (its : list loc) (st : Store) (ix : Index) : Index :=
  mkIndex (ix_cfg ix) st
    (match s with Ready => its | _ => ix_ready ix end)
    (match s with Delayed => its | _ => ix_delayed ix end)
    (match s with InFlight => its | _ => ix_inflight ix end)
    (ix_byID ix) (ix_dlq ix) (ix_dedup ix) (ix_nextSeq ix).

Definition heapPush (s : slot) (l : loc) (ix : Index) : option Index :=
  h ← Push l (get_heap s ix); Some (put_heap s (items h) (store h) ix).
Definition heapPop (s : slot) (ix : Index) : option (loc * Index) :=
  '(l, h) ← Pop (get_heap s ix); Some (l, put_heap s (items h) (store h) ix).
Definition heapRemove (s : slot) (i : Z) (ix : Index) : option Index :=
  '(_, h) ← Remove (Z.to_nat i) (get_heap s ix); Some (put_heap s (items h) (store h) ix).
Definition heapInit (s : slot) (ix : Index) : option Index :=
  h ← Init (get_heap s ix); Some (put_heap s (items h) (store h) ix).

(** ** Transitions *)

Definition effectivePriority (cfg : Config) (m : Message) (now : Time) : Z :=
  let iv := agingInterval cfg in
  if (iv <=? 0) || negb (c_PriorityEnabled cfg) then m_Priority m
  else
    let boost := quotDuration (Sub now (m_CreatedAt m)) iv in
    let boost := if boost >? c_AgingMaxBoost cfg then c_AgingMaxBoost cfg else boost in
    let boost := if boost <? 0 then 0 else boost in
    int64 (m_Priority m + boost).

Definition place (l : loc) (now : Time) (ix : Index) : option Index :=
  m ← ix_store ix !! l;
  if After (m_VisibleAt m) now then
    ix ← assign_ix l (set_state stateDelayed) ix;
    heapPush Delayed l ix
  else
    ix ← assign_ix l (set_state stateReady) ix;
    ix ← assign_ix l (set_effPriority (effectivePriority (ix_cfg ix) m now)) ix;
    heapPush Ready l ix.

Definition applyEnqueue (l : loc) (now : Time) (ix : Index) : option (Index * option Err) :=
  m ← ix_store ix !! l;
  match ix_byID ix !! m_ID m with
  | Some _ => Some (ix, Some (EDuplicateMessageId (m_ID m)))
  | None =>
    let ix := if m_Seq m >=? ix_nextSeq ix then set_nextSeq (uint64 (m_Seq m + 1)) ix else ix in
    let ix := set_byID (<[m_ID m := l]> (ix_byID ix)) ix in
    let ix :=
      if negb (bool_decide (m_DedupID m = "")) then
        set_dedup (<[m_DedupID m := mkDedup (m_DedupID m) (m_ID m)
                      (Add (m_CreatedAt m) (dedupWindow (ix_cfg ix)))]> (ix_dedup ix)) ix
      else ix in
    if bool_decide (m_state m = stateDead) then
      ix ← assign_ix l (set_index (-1)) ix;
      Some (set_dlq (ix_dlq ix ++ [l]) ix, None)
    else
      ix ← place l now ix;
      Some (ix, None)
  end.

(** [q.dlq = append(q.dlq[:i], q.dlq[i+1:]...)] at the first [i] with [d == m]. *)
Fixpoint removeFirst (l : loc) (d : list loc) : list loc :=
  match d with
  | [] => []
  | x :: d => if decide (x = l) then d else x :: removeFirst l d
  end.

Definition detachFrom (s : slot) (m : Message) (ix : Index) : option Index :=
  if (m_index m >=? 0) && (m_index m <? Z.of_nat (length (slot_items s ix)))
  then heapRemove s (m_index m) ix
  else Some ix.

Definition detach (l : loc) (ix : Index) : option Index :=
  m ← ix_store ix !! l;
  ix ← match m_state m with
       | stateReady => detachFrom Ready m ix
       | stateDelayed => detachFrom Delayed m ix
       | stateInFlight => detachFrom InFlight m ix
       | stateDead => Some (set_dlq (removeFirst l (ix_dlq ix)) ix)
       end;
  assign_ix l (set_index (-1)) ix.

Definition applyAck (id : string) (ix : Index) : option (Index * option Err) :=
  match ix_byID ix !! id with
  | None => Some (ix, Some (EAckUnknown id))
  | Some l =>
    ix ← detach l ix;
    Some (set_byID (delete id (ix_byID ix)) ix, None)
  end.

Definition applyAttempt (id : string) (now : Time) (ix : Index) : option (Index * (bool * option Err)) :=
  match ix_byID ix !! id with
  | None => Some (ix, (false, Some (EAttemptUnknown id)))
  | Some l =>
    ix ← detach l ix;
    m ← ix_store ix !! l;
    let attempts := int64 (m_Attempts m + 1) in
    ix ← assign_ix l (set_Attempts attempts) ix;
    if attempts >=? c_MaxAttempts (ix_cfg ix) then
      ix ← assign_ix l (set_state stateDead) ix;
      ix ← assign_ix l (set_index (-1)) ix;
      Some (set_dlq (ix_dlq ix ++ [l]) ix, (true, None))
    else
      ix ← assign_ix l (set_VisibleAt now) ix;
      ix ← place l now ix;
      Some (ix, (false, None))
  end.

(** [apply], over the JSON decoder of [META] payloads. *)
Section Apply.
Context (decodeConfig : list byte -> Result Config).

Definition apply (rec : Record_) (now : Time) (ix : Index) : option (Index * option Err) :=
  let t := r_Type rec in
  if bool_decide (t = TypeMeta) then
    match decodeConfig (r_Payload rec) with
    | inr err => Some (ix, Some err)
    | inl cfg =>
      match Validate cfg with
      | (_, Some err) => Some (ix, Some err)
      | (cfg, None) =>
        let ix := set_cfg cfg ix in
        let ix := if c_NextSeq cfg >? ix_nextSeq ix then set_nextSeq (c_NextSeq cfg) ix else ix in
        Some (ix, None)
      end
    end
  else if bool_decide (t = TypeEnqueue) then
    match decodeMessage (r_Payload rec) with
    | inr err => Some (ix, Some err)
    | inl m => let '(l, ix) := alloc m ix in applyEnqueue l now ix
    end
  else if bool_decide (t = TypeAck) then applyAck (string_of_bytes (r_Payload rec)) ix
  else if bool_decide (t = TypeNack) || bool_decide (t = TypeLeaseExpire) then
    '(ix, (_, err)) ← applyAttempt (string_of_bytes (r_Payload rec)) now ix;
    Some (ix, err)
  else if bool_decide (t = TypeDedup) then
    match decodeDedup (r_Payload rec) with
    | inr err => Some (ix, Some err)
    | inl e => Some (set_dedup (<[e_DedupID e := e]> (ix_dedup ix)) ix, None)
    end
  else Some (ix, Some (EUnhandledRecordType t)).
End Apply.

(** ** Promotion and aging *)

(** The loop of [promoteDue]. *)
Fixpoint promoteDue_loop (fuel : nat) (now : Time) (ix : Index) : option Index :=
  match fuel with
  | O => None
  | S fuel =>
    match ix_delayed ix with
    | [] => Some ix
    | l :: _ =>
      m ← ix_store ix !! l;
      if negb (After (m_VisibleAt m) now) then
        '(l, ix) ← heapPop Delayed ix;
        m ← ix_store ix !! l;
        ix ← assign_ix l (set_state stateReady) ix;
        ix ← assign_ix l (set_effPriority (effectivePriority (ix_cfg ix) m now)) ix;
        ix ← heapPush Ready l ix;
        promoteDue_loop fuel now ix
      else Some ix
    end
  end.

(** Each iteration takes one message out of the delayed heap. *)
Definition promoteDue (now : Time) (ix : Index) : option Index :=
  promoteDue_loop (S (length (ix_delayed ix))) now ix.

(** The [range] loop of [agePriorities]: the new store and [changed]. *)
Fixpoint age_items (cfg : Config) (now : Time) (its : list loc) (st : Store) : option (Store * bool) :=
  match its with
  | [] => Some (st, false)
  | l :: its =>
    m ← st !! l;
    let eff := effectivePriority cfg m now in
    if negb (eff =? m_effPriority m) then
      st ← assign l (set_effPriority eff) st;
      '(st, _) ← age_items cfg now its st;
      Some (st, true)
    else age_items cfg now its st
  end.

(** The body of [agePriorities] past its early return. *)
Definition ageReady (now : Time) (ix : Index) : option Index :=
  '(st, changed) ← age_items (ix_cfg ix) now (ix_ready ix) (ix_store ix);
  let ix := set_store st ix in
  if changed : bool then heapInit Ready ix else Some ix.

(** The lease loop of [Dequeue]: the clones handed out. *)
Fixpoint lease_loop (max : nat) (deadline : Time) (ix : Index) : option (list Message * Index) :=
  match max with
  | O => Some ([], ix)
  | S max =>
    if (length (ix_ready ix) =? 0)%nat then Some ([], ix)
    else
      '(l, ix) ← heapPop Ready ix;
      ix ← assign_ix l (set_state stateInFlight) ix;
      ix ← assign_ix l (set_deadline deadline) ix;
      ix ← heapPush InFlight l ix;
      m ← ix_store ix !! l;
      '(out, ix) ← lease_loop max deadline ix;
      Some (m :: out, ix)
  end.
