(* ===== verification/QueueSpec.v ===== *)
(** * What a queue's index promises, abstractly

    The specification [Index] implements: a map from id to message, the dedup
    map and the sequence counter, with every transition a pure function on the
    map.  No heaps, no pointers, no positions: a message's [index] is erased. *)

From Stdlib Require Import ZArith Lia.
From S2P Require Import Prelude GoInt Errors WalRecord Message Heaps Codec Index.

(** On an error the state stays as it is. *)
Notation "'letS' x ':=' e 'in' k 'at' s" :=
  (match e with inl x => k | inr err => (s, Some err) end)
  (at level 200, x pattern, e at level 100, k at level 200, s at level 0).

Record Spec := mkSpec {
  sp_cfg : Config;
  sp_msgs : gmap string Message;
  sp_dedup : gmap string dedupEntry;
  sp_nextSeq : Z;
}.

Definition sp_with (msgs : gmap string Message) (s : Spec) : Spec :=
  mkSpec (sp_cfg s) msgs (sp_dedup s) (sp_nextSeq s).
Definition sp_set (id : string) (m : Message) (s : Spec) : Spec :=
  sp_with (<[id := m]> (sp_msgs s)) s.

(** A live message goes to the delayed or to the ready messages. *)
Definition routed (cfg : Config) (now : Time) (m : Message) : Message :=
  if After (m_VisibleAt m) now then set_state stateDelayed m
  else set_effPriority (effectivePriority cfg m now) (set_state stateReady m).

Definition spec_register (m : Message) (s : Spec) : Spec :=
  mkSpec (sp_cfg s) (sp_msgs s)
    (if decide (m_DedupID m = "") then sp_dedup s
     else <[m_DedupID m := mkDedup (m_DedupID m) (m_ID m)
              (Add (m_CreatedAt m) (dedupWindow (sp_cfg s)))]> (sp_dedup s))
    (if m_Seq m >=? sp_nextSeq s then uint64 (m_Seq m + 1) else sp_nextSeq s).

Definition spec_enqueue (m : Message) (now : Time) (s : Spec) : Spec * option Err :=
  match sp_msgs s !! m_ID m with
  | Some _ => (s, Some (EDuplicateMessageId (m_ID m)))
  | None =>
    (sp_set (m_ID m) (if decide (m_state m = stateDead) then m else routed (sp_cfg s) now m)
       (spec_register m s), None)
  end.

Definition spec_ack (id : string) (s : Spec) : Spec * option Err :=
  match sp_msgs s !! id with
  | None => (s, Some (EAckUnknown id))
  | Some _ => (sp_with (delete id (sp_msgs s)) s, None)
  end.

(** The message after a failed delivery, and whether it is dead. *)
Definition attempted (cfg : Config) (now : Time) (m : Message) : Message * bool :=
  let m := set_Attempts (int64 (m_Attempts m + 1)) m in
  if m_Attempts m >=? c_MaxAttempts cfg then (set_state stateDead m, true)
  else (routed cfg now (set_VisibleAt now m), false).

Definition spec_attempt (id : string) (now : Time) (s : Spec) : Spec * (bool * option Err) :=
  match sp_msgs s !! id with
  | None => (s, (false, Some (EAttemptUnknown id)))
  | Some m => let '(m, dead) := attempted (sp_cfg s) now m in (sp_set id m s, (dead, None))
  end.

(** Every delayed message that has become visible is ready. *)
Definition promoted (cfg : Config) (now : Time) (m : Message) : Message :=
  if decide (m_state m = stateDelayed) then routed cfg now m else m.
Definition spec_promote (now : Time) (s : Spec) : Spec :=
  sp_with (promoted (sp_cfg s) now <$> sp_msgs s) s.

(** Every ready message has the priority in force at [now]. *)
Definition aged (cfg : Config) (now : Time) (m : Message) : Message :=
  if decide (m_state m = stateReady) then set_effPriority (effectivePriority cfg m now) m else m.
Definition spec_age (now : Time) (s : Spec) : Spec :=
  sp_with (aged (sp_cfg s) now <$> sp_msgs s) s.

(** Every in-flight message whose lease has run out has failed an attempt. *)
Definition expired (cfg : Config) (now : Time) (m : Message) : Message :=
  if decide (m_state m = stateInFlight /\ After (m_deadline m) now = false) then (attempted cfg now m).1
  else m.
Definition spec_expire (now : Time) (s : Spec) : Spec :=
  sp_with (expired (sp_cfg s) now <$> sp_msgs s) s.

Definition leased (deadline : Time) (m : Message) : Message :=
  set_deadline deadline (set_state stateInFlight m).

(** The transition a log record stands for, over the decoder of [META]. *)
Definition spec_apply (decodeConfig : list byte -> Result Config) (rec : Record_) (now : Time)
    (s : Spec) : Spec * option Err :=
  let t := r_Type rec in
  let id := string_of_bytes (r_Payload rec) in
  if decide (t = TypeMeta) then
    letS cfg := decodeConfig (r_Payload rec) in
    (match Validate cfg with
     | (_, Some err) => (s, Some err)
     | (cfg, None) => (mkSpec cfg (sp_msgs s) (sp_dedup s) (Z.max (sp_nextSeq s) (c_NextSeq cfg)), None)
     end) at s
  else if decide (t = TypeEnqueue) then
    letS m := decodeMessage (r_Payload rec) in spec_enqueue m now s at s
  else if decide (t = TypeAck) then spec_ack id s
  else if decide (t = TypeNack \/ t = TypeLeaseExpire) then
    let '(s, (_, err)) := spec_attempt id now s in (s, err)
  else if decide (t = TypeDedup) then
    letS e := decodeDedup (r_Payload rec) in
    (mkSpec (sp_cfg s) (sp_msgs s) (<[e_DedupID e := e]> (sp_dedup s)) (sp_nextSeq s), None) at s
  else (s, Some (EUnhandledRecordType t)).

(** ** The abstraction *)

(** The messages an index holds, by id, without their positions. *)
Definition msgs (ix : Index) : gmap string Message :=
  omap (fun l => erase <$> ix_store ix !! l) (ix_byID ix).

Definition abs (ix : Index) : Spec := mkSpec (ix_cfg ix) (msgs ix) (ix_dedup ix) (ix_nextSeq ix).

Lemma msgs_lookup ix id m :
  msgs ix !! id = Some m <->
  exists l m0, ix_byID ix !! id = Some l /\ ix_store ix !! l = Some m0 /\ m = erase m0.
Proof.
  unfold msgs. rewrite lookup_omap. split.
  - intros (l & Hl & (m0 & Hm & ?)%fmap_Some)%bind_Some. eauto.
  - intros (l & m0 & Hl & Hm & ->). apply bind_Some. exists l. by rewrite Hl, Hm.
Qed.

(** Positions are not part of the abstraction. *)
Lemma msgs_sim ix ix' :
  store_sim (ix_store ix) (ix_store ix') -> ix_byID ix' = ix_byID ix -> msgs ix' = msgs ix.
Proof.
  intros Hs Hb. unfold msgs. rewrite Hb. apply map_eq. intros id. rewrite !lookup_omap.
  destruct (ix_byID ix !! id) as [l|]; [|done]. simpl. rewrite <- !lookup_fmap. by rewrite Hs.
Qed.

Lemma sp_set_set id m m' s : sp_set id m (sp_set id m' s) = sp_set id m s.
Proof. unfold sp_set, sp_with. simpl. by rewrite insert_insert_eq. Qed.

Lemma sp_set_id id m s : sp_msgs s !! id = Some m -> sp_set id m s = s.
Proof. intros. unfold sp_set, sp_with. rewrite insert_id by done. by destruct s. Qed.

(** The transformations of a message do not read or write its position. *)
Lemma routed_ID cfg now m : m_ID (routed cfg now m) = m_ID m.
Proof. unfold routed. by case_match. Qed.
