(* ===== verification/IndexInv.v ===== *)
(** * The index's invariant

    [Inv] is what [checkInvariants] of the test suite asserts: every registered
    message is in exactly the structure its [state] names, every structure holds
    registered messages only, the three heaps are heaps and every message in one
    knows its position.  The lemmas follow a message through a transition: it is
    taken out of its structure ([Floating]), its fields are changed, and it is put
    into another; each step says what it does to the abstraction. *)

From Stdlib Require Import ZArith Lia.
From S2P Require Import Prelude GoInt Errors WalRecord GoHeap Message Heaps Codec Index QueueSpec.

(** ** The invariant *)

(** [l] is registered, in state [t]. *)
Definition owned (l : loc) (t : state) (ix : Index) : Prop :=
  exists m, ix_store ix !! l = Some m /\ m_state m = t /\ ix_byID ix !! m_ID m = Some l.

(** The invariant with the message at [x], if any, in no structure: who is where,
    and the heaps. *)
Record InvS (x : option loc) (ix : Index) : Prop := {
  inv_id id l : ix_byID ix !! id = Some l -> exists m, ix_store ix !! l = Some m /\ m_ID m = id;
  inv_slot s l : l ∈ slot_items s ix <-> Some l <> x /\ owned l (slot_state s) ix;
  inv_dlq l : l ∈ ix_dlq ix <-> Some l <> x /\ owned l stateDead ix;
  inv_dlq_nodup : NoDup (ix_dlq ix);
}.

Record InvX (x : option loc) (ix : Index) : Prop := {
  inv_struct :> InvS x ix;
  inv_heap s : heap_ok (get_heap s ix);
}.

Definition Inv (ix : Index) : Prop := InvX None ix.

Lemma newIndex_Inv : Inv newIndex.
Proof.
  split; [split|].
  - intros id l Hl. exfalso. exact (lookup_empty_Some (M:=gmap string) _ _ Hl).
  - intros s l. split; [by destruct s; intros ?%not_elem_of_nil|].
    intros (_ & m & Hm & _). exfalso. exact (lookup_empty_Some (M:=gmap loc) _ _ Hm).
  - intros l. split; [by intros ?%not_elem_of_nil|]. intros (_ & m & Hm & _). exfalso. exact (lookup_empty_Some (M:=gmap loc) _ _ Hm).
  - apply NoDup_nil_2.
  - intros s. split.
    + split; [destruct s; apply NoDup_nil_2|]. intros i l. destruct s; simpl; by rewrite lookup_nil.
    + intros k Hk. destruct s; simpl in Hk; lia.
Qed.

Lemma slot_state_inj s s' : slot_state s = slot_state s' -> s = s'.
Proof. by destruct s, s'. Qed.

Lemma slot_state_live s : slot_state s <> stateDead.
Proof. by destruct s. Qed.

Lemma owned_state l t t' ix : owned l t ix -> owned l t' ix -> t = t'.
Proof. intros (m & Hm & <- & _) (m' & Hm' & <- & _). congruence. Qed.

Lemma owned_sim ix ix' l t :
  store_sim (ix_store ix) (ix_store ix') -> ix_byID ix' = ix_byID ix -> owned l t ix -> owned l t ix'.
Proof.
  intros Hs Hb (m & Hm & Ht & Hi). destruct (store_sim_lookup _ _ _ _ Hs Hm) as (m' & Hm' & E).
  exists m'. apply erase_eq in E. rewrite Hb. split; [done|]. by rewrite E in Ht, Hi.
Qed.

(** A heap stays one when the messages in it stay as they are. *)
Lemma heap_ok_frame {k} its (st st' : Store) :
  (forall a, a ∈ its -> st' !! a = st !! a) ->
  heap_ok (@mkHeap k its st) -> heap_ok (@mkHeap k its st').
Proof.
  intros Hst [[Hnd Hpos] Hh]. split.
  - split; [done|]. intros i l Hl. simpl in *. rewrite Hst; [by apply Hpos|].
    by eapply list_elem_of_lookup_2.
  - intros j Hj Hb x y Hx Hy. specialize (Hh j Hj Hb x y Hx Hy). simpl in *. unfold store_lt in *.
    by rewrite !Hst by by eapply list_elem_of_lookup_2.
Qed.

Lemma heap_ok_shape s its st ix :
  heap_ok (get_heap s (put_heap s its st ix)) <-> heap_ok (@mkHeap (slot_kind s (ix_cfg ix)) its st).
Proof. by destruct s. Qed.

(** Replacing one heap, and the positions of its messages, keeps the invariant
    when the new heap holds what it should. *)
Lemma put_heap_inv x y s its st ix :
  InvS x ix ->
  (forall t, t <> s -> heap_ok (get_heap t ix)) ->
  heap_ok (@mkHeap (slot_kind s (ix_cfg ix)) its st) ->
  store_sim (ix_store ix) st ->
  (forall a, Some a <> x -> a ∉ slot_items s ix -> st !! a = ix_store ix !! a) ->
  (forall a, a ∈ its <-> Some a <> y /\ owned a (slot_state s) ix) ->
  (forall l t, x = Some l \/ y = Some l -> owned l t ix -> t = slot_state s) ->
  InvX y (put_heap s its st ix).
Proof.
  intros [Hid Hslot Hdlq Hnd] Hheap Hh Hsim Hobs Hits Hxy.
  set (ix' := put_heap s its st ix).
  assert (forall l t, owned l t ix' <-> owned l t ix) as Hown.
  { intros l t. split; apply owned_sim; done || by symmetry. }
  assert (forall l t, t <> slot_state s ->
    Some l <> x /\ owned l t ix <-> Some l <> y /\ owned l t ix) as Hother.
  { intros l t Ht. split; intros [_ Ho]; (split; [|done]); intros E; apply Ht, (Hxy l); auto. }
  split; [split|].
  - intros id l Hl. destruct (Hid id l Hl) as (m & Hm & <-).
    destruct (store_sim_lookup _ _ _ _ Hsim Hm) as (m' & Hm' & ->%erase_eq). by exists m'.
  - intros t l. rewrite Hown. destruct (decide (t = s)) as [->|Hts].
    + rewrite <- Hits. by destruct s.
    + rewrite <- Hother by (intros E; by apply Hts, slot_state_inj).
      rewrite <- Hslot. by destruct t, s.
  - intros l. rewrite Hown, <- Hother by (symmetry; apply slot_state_live). apply Hdlq.
  - done.
  - intros t. destruct (decide (t = s)) as [->|Hts].
    + by apply heap_ok_shape.
    + assert (heap_ok (@mkHeap (slot_kind t (ix_cfg ix)) (slot_items t ix) st)) as Ht;
        [|by destruct t, s].
      apply (heap_ok_frame _ (ix_store ix)); [|by apply Hheap].
      intros a [Hax Ha]%Hslot. apply Hobs; [done|]. intros [_ Ha']%Hslot.
      by apply Hts, slot_state_inj, (owned_state a _ _ ix).
Qed.

(** ** A message out of its structure *)

(** [m], without its position, is at [x] and registered, but in no structure;
    [S] is the abstract state but for [m]. *)
Record Floating (x : loc) (m : Message) (S : Spec) (ix : Index) : Prop := {
  fl_inv : InvX (Some x) ix;
  fl_store : exists m0, ix_store ix !! x = Some m0 /\ erase m0 = m;
  fl_byID : ix_byID ix !! m_ID m = Some x;
  fl_abs : abs ix = sp_set (m_ID m) m S;
}.

Lemma erase_ID m0 m : erase m0 = m -> m_ID m0 = m_ID m.
Proof. by intros <-. Qed.
Lemma erase_state m0 m : erase m0 = m -> m_state m0 = m_state m.
Proof. by intros <-. Qed.

Lemma fl_cfg x m S ix : Floating x m S ix -> ix_cfg ix = sp_cfg S.
Proof. intros F. apply (f_equal sp_cfg (fl_abs _ _ _ _ F)). Qed.

Lemma fl_owned x m S ix t : Floating x m S ix -> owned x t ix <-> t = m_state m.
Proof.
  intros [_ (m0 & Hm0 & E) Hb _]. pose proof (erase_ID _ _ E). pose proof (erase_state _ _ E). split.
  - intros (m1 & Hm1 & <- & _). congruence.
  - intros ->. exists m0. split_and!; congruence.
Qed.

Lemma inv_elem_store s ix x l : InvX x ix -> l ∈ slot_items s ix -> is_Some (ix_store ix !! l).
Proof. intros HI [_ (m & Hm & _)]%(inv_slot _ _ HI). by eexists. Qed.

(** An assignment to a message in no structure. *)
Lemma Floating_assign (f g : Message -> Message) x m S ix :
  Floating x m S ix ->
  (forall m0, erase (f m0) = g (erase m0)) -> (forall m0, m_ID (g m0) = m_ID m0) ->
  exists ix', assign_ix x f ix = Some ix' /\ Floating x (g m) S ix'.
Proof.
  intros [[[Hid Hslot Hdlq Hnd] Hheap] (m0 & Hm0 & <-) Hb Habs] Hfg HgID.
  unfold assign_ix, assign. rewrite Hm0. simpl. eexists. split; [done|].
  set (ix' := set_store _ ix).
  assert (m_ID (f m0) = m_ID m0) as HfID.
  { change (m_ID (erase (f m0)) = m_ID m0). by rewrite Hfg, HgID. }
  assert (forall l t, l <> x -> owned l t ix' <-> owned l t ix) as Hown.
  { intros l t Hl. unfold owned. simpl. by setoid_rewrite lookup_insert_ne; [|done]. }
  assert (forall s a, a ∈ slot_items s ix -> a <> x) as Hnx by (intros s a [? _]%Hslot; congruence).
  split.
  - split; [split|].
    + intros id l Hl. simpl in *. destruct (Hid id l Hl) as (m & Hm & <-).
      destruct (decide (l = x)) as [->|]; [rewrite lookup_insert_eq|rewrite lookup_insert_ne by done];
        eexists; (split; [done|]); congruence.
    + intros s l. change (slot_items s ix') with (slot_items s ix). rewrite Hslot.
      split; intros [Hl Ho]; (split; [done|]); [rewrite Hown|rewrite <- Hown]; congruence.
    + intros l. change (ix_dlq ix') with (ix_dlq ix). rewrite Hdlq.
      split; intros [Hl Ho]; (split; [done|]); [rewrite Hown|rewrite <- Hown]; congruence.
    + done.
    + intros s. apply (heap_ok_frame _ (ix_store ix)); [|apply Hheap].
      intros a Ha. simpl. apply lookup_insert_ne. symmetry. by eapply Hnx.
  - exists (f m0). simpl. by rewrite lookup_insert_eq.
  - by rewrite HgID.
  - rewrite HgID. transitivity (sp_set (m_ID (erase m0)) (g (erase m0)) (abs ix));
      [|by rewrite Habs, sp_set_set].
    unfold abs, sp_set, sp_with. f_equal. simpl. apply map_eq. intros id.
    destruct (decide (id = m_ID m0)) as [->|Hne].
    + rewrite lookup_insert_eq. apply msgs_lookup. exists x, (f m0). simpl.
      by rewrite lookup_insert_eq.
    + rewrite lookup_insert_ne by done. unfold msgs. rewrite !lookup_omap.
      destruct (ix_byID ix !! id) as [l|] eqn:Hl; simpl; rewrite Hl; [|done]. simpl.
      rewrite lookup_insert_ne; [done|]. intros <-.
      destruct (Hid id x Hl) as (m & Hm & <-). congruence.
Qed.

(** Into a heap. *)
Lemma Floating_push s x m S ix :
  Floating x m S ix -> m_state m = slot_state s ->
  exists its st, heapPush s x ix = Some (put_heap s its st ix) /\ its ≡ₚ x :: slot_items s ix /\
    Inv (put_heap s its st ix) /\ abs (put_heap s its st ix) = sp_set (m_ID m) m S.
Proof.
  intros F Hst. pose proof F as [HI (m0 & Hm0 & E) Hb Habs].
  assert (x ∉ slot_items s ix) as Hx by (by intros [? _]%(inv_slot _ _ HI)).
  destruct (Push_correct (get_heap s ix) x (inv_heap _ _ HI s)) as (h & Hpush & Hh & [Hp Hs Ho]).
  { split; [done|by eexists]. }
  exists (items h), (store h). unfold heapPush. rewrite Hpush. simpl in *.
  split_and!; [done|done| |].
  - apply (put_heap_inv (Some x) None); [apply HI|intros; apply HI| |done| | |].
    + by destruct h.
    + intros a Ha Ha'. apply Ho. intros [->|?]%elem_of_cons; congruence.
    + intros a. rewrite Hp, elem_of_cons, (inv_slot _ _ HI). split.
      * intros [->|[_ ?]]; (split; [done|]); [by apply (fl_owned _ _ _ _ _ F)|done].
      * intros [_ ?]. destruct (decide (a = x)) as [->|]; [by left|right]. split; [congruence|done].
    + intros l t [[= <-]|?] Ht; [|done]. apply (fl_owned _ _ _ _ _ F) in Ht. congruence.
  - rewrite <- Habs. unfold abs. f_equal. apply msgs_sim; [done|by destruct s].
Qed.

(** Into the dead-letter list. *)
Lemma Floating_bury x m S ix :
  Floating x m S ix -> m_state m = stateDead ->
  Inv (set_dlq (ix_dlq ix ++ [x]) ix) /\ abs (set_dlq (ix_dlq ix ++ [x]) ix) = sp_set (m_ID m) m S.
Proof.
  intros F Hst. pose proof F as [[[Hid Hslot Hdlq Hnd] Hheap] _ _ Habs].
  split; [|done]. split; [split|]; simpl.
  - done.
  - intros s l. change (slot_items s _) with (slot_items s ix). rewrite Hslot. split.
    + by intros [_ ?].
    + intros [_ Ho]. split; [|done]. intros [= ->].
      apply (fl_owned _ _ _ _ _ F) in Ho. by apply (slot_state_live s); congruence.
  - intros l. rewrite elem_of_app, Hdlq, list_elem_of_singleton. split.
    + intros [[_ ?]| ->]; (split; [done|]); [done|]. by apply (fl_owned _ _ _ _ _ F).
    + intros [_ ?]. destruct (decide (l = x)) as [->|]; [by right|left]. split; [congruence|done].
  - apply NoDup_app. split_and!; [done| |apply NoDup_singleton].
    intros y Hy ->%list_elem_of_singleton. by apply Hdlq in Hy as [? _].
  - done.
Qed.

(** Out of a heap: what [heap.Pop] and [heap.Remove] of [x] leave. *)
Lemma removed_Floating s x its st ix :
  Inv ix ->
  heap_ok (@mkHeap (slot_kind s (ix_cfg ix)) its st) ->
  removed x (get_heap s ix) (mkHeap its st) ->
  exists m, m_state m = slot_state s /\ sp_msgs (abs ix) !! m_ID m = Some m /\
    Floating x m (abs ix) (put_heap s its st ix).
Proof.
  intros HI Hh [Hp Hs Ho]. simpl in *.
  assert (x ∈ slot_items s ix) as Hx by (rewrite Hp; by left).
  pose proof (proj1 (inv_slot _ _ HI s x) Hx) as [_ Hown]. pose proof Hown as (m0 & Hm0 & Hst & Hb).
  assert (NoDup (x :: its)) as [Hxi _]%NoDup_cons.
  { rewrite <- Hp. apply (inv_heap _ _ HI s). }
  exists (erase m0). split_and!; [done|apply msgs_lookup; by exists x, m0|]. split.
  - apply (put_heap_inv None (Some x)); [apply HI|intros; apply HI|done..| | |].
    + intros a _ Ha. by apply Ho.
    + intros a. split.
      * intros Ha. assert (a ∈ slot_items s ix) as [_ ?]%(inv_slot _ _ HI) by (rewrite Hp; by right).
        split; [congruence|done].
      * intros [Hne Ho']. assert (a ∈ slot_items s ix) as Ha by by apply (inv_slot _ _ HI).
        rewrite Hp in Ha. apply elem_of_cons in Ha as [->|?]; congruence.
    + intros l t [?|[= <-]] Ht; [done|]. by apply (owned_state x _ _ ix).
  - destruct (store_sim_lookup _ _ _ _ Hs Hm0) as (m' & Hm' & E). by exists m'.
  - done.
  - rewrite sp_set_id by (apply msgs_lookup; by exists x, m0).
    unfold abs. f_equal. apply msgs_sim; [done|by destruct s].
Qed.

Lemma heapPop_correct s ix x rest :
  Inv ix -> slot_items s ix = x :: rest ->
  exists its st m, heapPop s ix = Some (x, put_heap s its st ix) /\
    slot_items s ix ≡ₚ x :: its /\ m_state m = slot_state s /\ sp_msgs (abs ix) !! m_ID m = Some m /\
    Floating x m (abs ix) (put_heap s its st ix) /\
    (forall y, y ∈ its -> @store_lt (slot_kind s (ix_cfg ix)) (ix_store ix) y x = false).
Proof.
  intros HI Hitems.
  destruct (Pop_correct (get_heap s ix) x (inv_heap _ _ HI s)) as (h & Hpop & Hh & Hr & Hmin).
  { simpl. by rewrite Hitems. }
  assert (mkHeap (items h) (store h) = h) as Eh by by destruct h.
  destruct (removed_Floating s x (items h) (store h) ix HI) as (m & Hst & Hm & F); [by rewrite Eh..|].
  exists (items h), (store h), m. unfold heapPop. rewrite Hpop. split_and!; try done. apply Hr.
Qed.

Lemma heapRemove_correct s ix x i :
  Inv ix -> slot_items s ix !! i = Some x ->
  exists its st m, heapRemove s (Z.of_nat i) ix = Some (put_heap s its st ix) /\
    slot_items s ix ≡ₚ x :: its /\ m_state m = slot_state s /\ sp_msgs (abs ix) !! m_ID m = Some m /\
    Floating x m (abs ix) (put_heap s its st ix).
Proof.
  intros HI Hi.
  destruct (Remove_correct (get_heap s ix) i x (inv_heap _ _ HI s) Hi) as (h & Hrem & Hh & Hr).
  assert (mkHeap (items h) (store h) = h) as Eh by by destruct h.
  destruct (removed_Floating s x (items h) (store h) ix HI) as (m & Hst & Hm & F); [by rewrite Eh..|].
  exists (items h), (store h), m. unfold heapRemove. rewrite Nat2Z.id, Hrem. split_and!; try done. apply Hr.
Qed.

(** ** Detaching and placing *)

Lemma inv_registered id l ix :
  Inv ix -> ix_byID ix !! id = Some l ->
  exists m, ix_store ix !! l = Some m /\ m_ID m = id /\ owned l (m_state m) ix /\
    sp_msgs (abs ix) !! id = Some (erase m).
Proof.
  intros HI Hl. destruct (inv_id _ _ HI id l Hl) as (m & Hm & Hid).
  exists m. split_and!; [done..| |].
  - exists m. split_and!; congruence.
  - apply msgs_lookup. by exists l, m.
Qed.

(** A message in a heap is where its [index] says. *)
Lemma inv_position s l m ix :
  Inv ix -> ix_store ix !! l = Some m -> owned l (slot_state s) ix ->
  exists i, slot_items s ix !! i = Some l /\ m_index m = Z.of_nat i.
Proof.
  intros HI Hm Ho. assert (l ∈ slot_items s ix) as Hin by by apply (inv_slot _ _ HI).
  apply list_elem_of_lookup_1 in Hin as [i Hi]. exists i. split; [done|].
  destruct (proj1 (inv_heap _ _ HI s)) as [_ Hpos]. destruct (Hpos i l Hi) as (m' & Hm' & ?).
  simpl in Hm'. congruence.
Qed.

Lemma detachFrom_correct s l m ix :
  Inv ix -> ix_store ix !! l = Some m -> owned l (slot_state s) ix ->
  exists ix' m', detachFrom s m ix = Some ix' /\ sp_msgs (abs ix) !! m_ID m' = Some m' /\
    Floating l m' (abs ix) ix'.
Proof.
  intros HI Hm Ho. destruct (inv_position s l m ix HI Hm Ho) as (i & Hi & E).
  destruct (heapRemove_correct s ix l i HI Hi) as (its & st & m' & Hr & _ & _ & Hm' & F).
  unfold detachFrom. rewrite E, Z.geb_leb, (proj2 (Z.leb_le 0 _)) by lia.
  apply lookup_lt_Some in Hi. rewrite (proj2 (Z.ltb_lt _ _)) by lia. simpl. eauto.
Qed.

Lemma elem_of_removeFirst l d y : NoDup d -> y ∈ removeFirst l d <-> y <> l /\ y ∈ d.
Proof.
  induction 1 as [|x d Hx Hd IH]; simpl; [set_solver|].
  case_decide; [subst; set_solver|]. rewrite elem_of_cons, IH. set_solver.
Qed.

Lemma NoDup_removeFirst l d : NoDup d -> NoDup (removeFirst l d).
Proof.
  induction 1 as [|x d Hx Hd IH]; simpl; [apply NoDup_nil_2|].
  case_decide; [done|]. apply NoDup_cons. split; [|done]. rewrite elem_of_removeFirst by done. tauto.
Qed.

Lemma removeFirst_Floating l m ix :
  Inv ix -> ix_store ix !! l = Some m -> ix_byID ix !! m_ID m = Some l -> m_state m = stateDead ->
  Floating l (erase m) (abs ix) (set_dlq (removeFirst l (ix_dlq ix)) ix).
Proof.
  intros HI Hm Hb Hst. pose proof HI as [[Hid Hslot Hdlq Hnd] Hheap].
  assert (owned l stateDead ix) as Hown by by exists m.
  split; [split; [split|]| | |]; simpl.
  - done.
  - intros s y. change (slot_items s _) with (slot_items s ix). rewrite Hslot.
    split; intros [_ Ho]; (split; [|done]); [|done]. intros [= ->].
    by apply (slot_state_live s), (owned_state l _ _ ix).
  - intros y. rewrite elem_of_removeFirst, Hdlq by done. split.
    + intros (? & _ & ?). split; [congruence|done].
    + intros (? & ?). split_and!; [congruence|done..].
  - by apply NoDup_removeFirst.
  - done.
  - by exists m.
  - done.
  - rewrite sp_set_id; [done|]. apply msgs_lookup. by exists l, m.
Qed.

Lemma detach_correct id l ix :
  Inv ix -> ix_byID ix !! id = Some l ->
  exists ix' m, detach l ix = Some ix' /\ m_ID m = id /\ sp_msgs (abs ix) !! id = Some m /\
    Floating l m (abs ix) ix'.
Proof.
  intros HI Hl. destruct (inv_registered id l ix HI Hl) as (m & Hm & Hid & Ho & Habs).
  assert (exists ix1 m', (match m_state m with
       | stateReady => detachFrom Ready m ix
       | stateDelayed => detachFrom Delayed m ix
       | stateInFlight => detachFrom InFlight m ix
       | stateDead => Some (set_dlq (removeFirst l (ix_dlq ix)) ix)
       end) = Some ix1 /\ sp_msgs (abs ix) !! m_ID m' = Some m' /\ Floating l m' (abs ix) ix1)
    as (ix1 & m' & E1 & Hm' & F1).
  { destruct (m_state m) eqn:Hst.
    - by apply (detachFrom_correct Ready l).
    - by apply (detachFrom_correct Delayed l).
    - by apply (detachFrom_correct InFlight l).
    - eexists _, (erase m). split; [done|]. split.
      + change (m_ID (erase m)) with (m_ID m). by rewrite Hid.
      + apply removeFirst_Floating; congruence. }
  destruct (Floating_assign (set_index (-1)) (fun m => m) l m' (abs ix) ix1 F1) as (ix' & E' & F');
    [done..|].
  assert (m_ID m' = id) as Hid'.
  { apply msgs_lookup in Hm' as (l' & m0 & Hl' & Hm0 & Em'). apply (f_equal m_ID) in Em'. 
    pose proof (fl_byID _ _ _ _ F1) as Hb.
    assert (ix_byID ix1 = ix_byID ix) as Eb.
    { revert E1. destruct (m_state m); unfold detachFrom, heapRemove; intros E1;
        repeat case_match; simplify_eq; try done;
        apply bind_Some in E1 as ([??] & _ & E1); by injection E1 as <-. }
    rewrite Eb in Hb. destruct (inv_id _ _ HI _ _ Hb) as (m1 & ? & ?). congruence. }
  exists ix', m'. unfold detach. rewrite Hm. cbn [mbind option_bind]. rewrite E1. cbn [mbind option_bind].
  split_and!; [done|done|congruence|done].
Qed.

Lemma place_correct x m S ix now :
  Floating x m S ix ->
  exists ix', place x now ix = Some ix' /\ Inv ix' /\
    abs ix' = sp_set (m_ID m) (routed (sp_cfg S) now m) S.
Proof.
  intros F. pose proof (fl_store _ _ _ _ F) as (m0 & Hm0 & E). pose proof (fl_cfg _ _ _ _ F) as Hcfg.
  assert (m_VisibleAt m0 = m_VisibleAt m /\
    effectivePriority (ix_cfg ix) m0 now = effectivePriority (sp_cfg S) m now) as [Ev Ee]
    by (rewrite <- E, Hcfg; done).
  unfold place, routed. rewrite Hm0. simpl. rewrite Ev. destruct (After (m_VisibleAt m) now).
  - destruct (Floating_assign (set_state stateDelayed) (set_state stateDelayed) x m S ix F)
      as (ix1 & -> & F1); [done..|]. simpl.
    destruct (Floating_push Delayed x _ S ix1 F1) as (its & st & -> & _ & HI & Ha); [done|]. eauto.
  - destruct (Floating_assign (set_state stateReady) (set_state stateReady) x m S ix F)
      as (ix1 & -> & F1); [done..|]. simpl.
    assert (ix_cfg ix1 = ix_cfg ix) as -> by (by rewrite (fl_cfg _ _ _ _ F1)). rewrite Ee.
    destruct (Floating_assign (set_effPriority (effectivePriority (sp_cfg S) m now))
      (set_effPriority (effectivePriority (sp_cfg S) m now)) x _ S ix1 F1) as (ix2 & -> & F2); [done..|].
    simpl. destruct (Floating_push Ready x _ S ix2 F2) as (its & st & -> & _ & HI & Ha); [done|]. eauto.
Qed.
