(* ===== verification/IndexRefine.v ===== *)
(** * The transitions implement their specification

    Every transition of [Index], run in a state that satisfies the invariant,
    neither panics nor breaks the invariant, and does to the abstraction what
    [QueueSpec] says. *)

From Stdlib Require Import ZArith Lia.
From S2P Require Import Prelude GoInt Errors WalRecord GoHeap Message Heaps Codec Index QueueSpec IndexInv.

(** The result [r] of the code is the result [s] of the specification. *)
Definition implements {X} (r : option (Index * X)) (s : Spec * X) : Prop :=
  exists ix, r = Some (ix, s.2) /\ Inv ix /\ abs ix = s.1.

Definition implements1 (r : option Index) (s : Spec) : Prop :=
  exists ix, r = Some ix /\ Inv ix /\ abs ix = s.

Lemma assign_ix_frame x f ix ix' :
  assign_ix x f ix = Some ix' ->
  (forall s, slot_items s ix' = slot_items s ix) /\ ix_byID ix' = ix_byID ix /\
  ix_dlq ix' = ix_dlq ix /\ ix_cfg ix' = ix_cfg ix.
Proof. unfold assign_ix. intros (st & _ & [= <-])%bind_Some. split_and!; [by intros []|done..]. Qed.

Lemma abs_lookup_None id ix : Inv ix -> sp_msgs (abs ix) !! id = None <-> ix_byID ix !! id = None.
Proof.
  intros HI. split.
  - intros E. destruct (ix_byID ix !! id) as [l|] eqn:Hl; [|done].
    destruct (inv_registered id l ix HI Hl) as (? & _ & _ & _ & ?). congruence.
  - intros E. destruct (sp_msgs (abs ix) !! id) eqn:Hm; [|done].
    apply msgs_lookup in Hm as (l & ? & ? & _). congruence.
Qed.

(** ** Ack and attempts *)

(** A message in no structure may be forgotten. *)
Lemma Floating_delete x m S ix :
  Floating x m S ix ->
  let ix' := set_byID (delete (m_ID m) (ix_byID ix)) ix in
  Inv ix' /\ abs ix' = sp_with (delete (m_ID m) (sp_msgs S)) S.
Proof.
  intros [[[Hid Hslot Hdlq Hnd] Hheap] _ Hb Habs]. cbv zeta. set (ix' := set_byID _ ix).
  assert (forall y t, owned y t ix' <-> Some y <> Some x /\ owned y t ix) as Hown.
  { intros y t. unfold owned. simpl. split.
    - intros (m' & ? & ? & [Hne Hb']%lookup_delete_Some).
      split; [|by exists m']. intros [= ->]. destruct (Hid _ _ Hb) as (? & ? & ?). congruence.
    - intros (Hne & m' & ? & ? & ?). exists m'. split_and!; [done..|].
      rewrite lookup_delete_ne; congruence. }
  split; [split; [split|]|].
  - intros id y Hy. simpl in Hy. apply lookup_delete_Some in Hy as [_ Hy]. by apply Hid.
  - intros s y. rewrite Hown. change (slot_items s ix') with (slot_items s ix).
    rewrite Hslot. naive_solver.
  - intros y. rewrite Hown. change (ix_dlq ix') with (ix_dlq ix). rewrite Hdlq. naive_solver.
  - done.
  - done.
  - assert (sp_with (delete (m_ID m) (sp_msgs S)) S = sp_with (delete (m_ID m) (sp_msgs (abs ix))) (abs ix)) as ->.
    { rewrite Habs. unfold sp_with. simpl. by rewrite delete_insert_eq. }
    unfold abs, sp_with. simpl. f_equal. apply map_eq. intros id.
    unfold msgs. rewrite lookup_omap. simpl.
    destruct (decide (id = m_ID m)) as [->|].
    + by rewrite !lookup_delete_eq.
    + by rewrite !lookup_delete_ne, lookup_omap.
Qed.

Lemma applyAck_implements id ix :
  Inv ix -> implements (applyAck id ix) (spec_ack id (abs ix)).
Proof.
  intros HI. unfold applyAck, spec_ack.
  destruct (ix_byID ix !! id) as [l|] eqn:Hl.
  - destruct (detach_correct id l ix HI Hl) as (ix1 & m & -> & <- & -> & F). simpl.
    destruct (Floating_delete l m _ ix1 F) as [HI' Ha]. by eexists.
  - rewrite (proj2 (abs_lookup_None id ix HI)) by done. by eexists.
Qed.

Lemma applyAttempt_implements id now ix :
  Inv ix -> implements (applyAttempt id now ix) (spec_attempt id now (abs ix)).
Proof.
  intros HI. unfold applyAttempt, spec_attempt.
  destruct (ix_byID ix !! id) as [l|] eqn:Hl.
  2: { rewrite (proj2 (abs_lookup_None id ix HI)) by done. by eexists. }
  destruct (detach_correct id l ix HI Hl) as (ix1 & m & -> & Hid & -> & F). simpl.
  pose proof (fl_store _ _ _ _ F) as (m0 & Hm0 & E). rewrite Hm0. simpl.
  assert (m_Attempts m0 = m_Attempts m) as -> by by rewrite <- E.
  set (n := int64 (m_Attempts m + 1)).
  destruct (Floating_assign (set_Attempts n) (set_Attempts n) l m _ ix1 F) as (ix2 & -> & F2); [done..|].
  simpl. unfold attempted. cbn [m_Attempts set_Attempts]. fold n.
  rewrite (fl_cfg _ _ _ _ F2). destruct (n >=? c_MaxAttempts _) eqn:Hmax.
  - destruct (Floating_assign (set_state stateDead) (set_state stateDead) l _ _ ix2 F2)
      as (ix3 & -> & F3); [done..|]. simpl.
    destruct (Floating_assign (set_index (-1)) (fun m => m) l _ _ ix3 F3) as (ix4 & -> & F4); [done..|].
    simpl. destruct (Floating_bury l _ _ ix4 F4) as [HI' Ha]; [done|].
    eexists. split_and!; [done|done|]. rewrite Ha. simpl. by rewrite Hid.
  - destruct (Floating_assign (set_VisibleAt now) (set_VisibleAt now) l _ _ ix2 F2)
      as (ix3 & -> & F3); [done..|]. simpl.
    destruct (place_correct l _ _ ix3 now F3) as (ix4 & -> & HI' & Ha). simpl.
    eexists. split_and!; [done|done|]. rewrite Ha. simpl. by rewrite Hid.
Qed.

(** ** Enqueue *)

(** [l] points to [m], which is not registered. *)
Definition unregistered (l : loc) (m : Message) (ix : Index) : Prop :=
  ix_store ix !! l = Some m /\ forall id, ix_byID ix !! id <> Some l.

Lemma alloc_correct m ix :
  Inv ix ->
  exists l ix', alloc m ix = (l, ix') /\ Inv ix' /\ abs ix' = abs ix /\ unregistered l m ix'.
Proof.
  intros [[Hid Hslot Hdlq Hnd] Hheap]. unfold alloc. set (l := fresh _).
  assert (ix_store ix !! l = None) as Hl by (apply not_elem_of_dom, is_fresh).
  clearbody l. eexists _, _. split; [done|]. set (ix' := set_store _ ix).
  assert (forall y m', ix_store ix !! y = Some m' -> ix_store ix' !! y = Some m') as Hst.
  { intros y m' Hy. simpl. rewrite lookup_insert_ne; [done|]. congruence. }
  assert (forall y id, ix_byID ix !! id = Some y -> ix_store ix' !! y = ix_store ix !! y) as Hreg.
  { intros y id Hy. destruct (Hid id y Hy) as (m' & Hm' & _). rewrite Hm'. by apply Hst. }
  assert (forall y t, owned y t ix' <-> owned y t ix) as Hown.
  { intros y t. unfold owned. change (ix_byID ix') with (ix_byID ix).
    split; intros (m' & Hm' & Ht & Hb); exists m'; [rewrite <- (Hreg _ _ Hb)|rewrite (Hreg _ _ Hb)]; done. }
  split_and!.
  - split; [split|].
    + intros id y Hy. destruct (Hid id y Hy) as (m' & ? & ?). exists m'. eauto.
    + intros s y. rewrite Hown. apply Hslot.
    + intros y. rewrite Hown. apply Hdlq.
    + done.
    + intros s. apply (heap_ok_frame _ (ix_store ix)); [|apply Hheap].
      intros a (_ & m' & Hm' & _)%Hslot. rewrite Hm'. by apply Hst.
  - unfold abs. f_equal. apply map_eq. intros id. unfold msgs. rewrite !lookup_omap.
    change (ix_byID ix') with (ix_byID ix).
    destruct (ix_byID ix !! id) as [y|] eqn:Hy; [|done]. cbn [mbind option_bind].
    by rewrite (Hreg _ _ Hy).
  - split; simpl; [apply lookup_insert_eq|].
    intros id Hy. destruct (Hid id l Hy) as (m' & ? & _). congruence.
Qed.

(** Registering a message makes it float. *)
Lemma register_Floating l m nextSeq dedup ix :
  Inv ix -> unregistered l m ix -> ix_byID ix !! m_ID m = None ->
  Floating l (erase m) (mkSpec (ix_cfg ix) (msgs ix) dedup nextSeq)
    (mkIndex (ix_cfg ix) (ix_store ix) (ix_ready ix) (ix_delayed ix) (ix_inflight ix)
       (<[m_ID m := l]> (ix_byID ix)) (ix_dlq ix) dedup nextSeq).
Proof.
  intros [[Hid Hslot Hdlq Hnd] Hheap] [Hm Hun] Hnone. set (ix' := mkIndex _ _ _ _ _ _ _ _ _).
  assert (forall y t, Some y <> Some l /\ owned y t ix' <-> Some y <> None /\ owned y t ix) as Hown.
  { intros y t. unfold owned. simpl. split.
    - intros (Hne & m' & ? & ? & [[_ ?]|[? ?]]%lookup_insert_Some); [congruence|].
      split; [done|]. by exists m'.
    - intros (_ & m' & ? & ? & Hb). split; [intros [= ->]; by eapply Hun|]. exists m'.
      split_and!; [done..|]. rewrite lookup_insert_ne; [done|]. congruence. }
  split; [split; [split|]| | |].
  - intros id y Hy. simpl in Hy. apply lookup_insert_Some in Hy as [[<- <-]|[? ?]]; [by exists m|by apply Hid].
  - intros s y. rewrite Hown, <- Hslot. by destruct s.
  - intros y. rewrite Hown, <- Hdlq. done.
  - done.
  - intros s. specialize (Hheap s). by destruct s.
  - by exists m.
  - simpl. apply lookup_insert_eq.
  - unfold abs, sp_set, sp_with. f_equal. apply map_eq. intros id. unfold msgs. simpl.
    rewrite lookup_omap. destruct (decide (id = m_ID m)) as [->|].
    + rewrite !lookup_insert_eq. simpl. by rewrite Hm.
    + by rewrite !lookup_insert_ne, lookup_omap.
Qed.

Lemma applyEnqueue_implements l m now ix :
  Inv ix -> unregistered l m ix ->
  implements (applyEnqueue l now ix) (spec_enqueue (erase m) now (abs ix)).
Proof.
  intros HI Hun. pose proof Hun as [Hm _]. unfold applyEnqueue, spec_enqueue. rewrite Hm. cbn [mbind option_bind].
  change (m_ID (erase m)) with (m_ID m).
  destruct (ix_byID ix !! m_ID m) as [l'|] eqn:Hl.
  { destruct (inv_registered _ _ _ HI Hl) as (? & _ & _ & _ & ->). by eexists. }
  rewrite (proj2 (abs_lookup_None _ ix HI)) by done.
  set (seq := if m_Seq m >=? ix_nextSeq ix then uint64 (m_Seq m + 1) else ix_nextSeq ix).
  set (dd := if decide (m_DedupID m = "") then ix_dedup ix else
    <[m_DedupID m := mkDedup (m_DedupID m) (m_ID m) (Add (m_CreatedAt m) (dedupWindow (ix_cfg ix)))]> (ix_dedup ix)).
  pose proof (register_Floating l m seq dd ix HI Hun Hl) as F.
  match type of F with Floating _ _ _ ?i => set (ix1 := i) in F end.
  match goal with |- context [if bool_decide (m_state m = _) then assign_ix _ _ ?i ≫= _ else _] =>
    assert (i = ix1) as -> by (subst ix1 seq dd; cbv zeta; repeat case_match; bool_prop; simplify_eq; done)
  end.
  change (spec_register (erase m) (abs ix)) with (mkSpec (ix_cfg ix) (msgs ix) dd seq).
  change (sp_cfg (abs ix)) with (ix_cfg ix).
  destruct (decide (m_state (erase m) = stateDead)) as [Hd|Hd]; simpl in Hd.
  - rewrite bool_decide_eq_true_2 by done.
    destruct (Floating_assign (set_index (-1)) (fun m => m) l _ _ ix1 F) as (ix2 & -> & F2); [done..|].
    simpl. destruct (Floating_bury l _ _ ix2 F2 Hd) as [HI' Ha]. by eexists.
  - rewrite bool_decide_eq_false_2 by done.
    destruct (place_correct l _ _ ix1 now F) as (ix2 & -> & HI' & Ha). by eexists.
Qed.

(** ** A log record *)

(** Another configuration, when nothing is ordered by the old one. *)
Lemma set_cfg_Inv c n ix :
  Inv ix -> ix_ready ix = [] ->
  Inv (set_nextSeq n (set_cfg c ix)) /\
  abs (set_nextSeq n (set_cfg c ix)) = mkSpec c (msgs ix) (ix_dedup ix) n.
Proof.
  intros [[Hid Hslot Hdlq Hnd] Hheap] Hr. split; [|done]. split; [split|].
  - done.
  - intros s l. specialize (Hslot s l). by destruct s.
  - done.
  - done.
  - intros s. specialize (Hheap s). destruct s; [|done..].
    unfold get_heap. simpl. rewrite Hr. split.
    + split; [apply NoDup_nil_2|]. intros i l. simpl. by rewrite lookup_nil.
    + intros k Hk. simpl in Hk. lia.
Qed.

Lemma set_dedup_Inv d ix : Inv ix -> Inv (set_dedup d ix).
Proof.
  intros [[Hid Hslot Hdlq Hnd] Hheap]. by split; [split|].
Qed.

Lemma apply_implements decodeConfig rec now ix :
  Inv ix -> (r_Type rec = TypeMeta -> ix_ready ix = []) ->
  implements (apply decodeConfig rec now ix) (spec_apply decodeConfig rec now (abs ix)).
Proof.
  intros HI Hmeta. unfold apply, spec_apply.
  destruct (decide (r_Type rec = TypeMeta)) as [E|E];
    [rewrite bool_decide_eq_true_2 by done|rewrite bool_decide_eq_false_2 by done].
  { specialize (Hmeta E). destruct (decodeConfig _) as [cfg|err]; [|by eexists].
    destruct (Validate cfg) as [cfg' [err|]]; [by eexists|].
    destruct (set_cfg_Inv cfg' (Z.max (ix_nextSeq ix) (c_NextSeq cfg')) ix HI Hmeta) as [HI' Ha].
    eexists. split; [done|]. cbv zeta. simpl.
    assert ((if c_NextSeq cfg' >? ix_nextSeq ix then set_nextSeq (c_NextSeq cfg') (set_cfg cfg' ix)
      else set_cfg cfg' ix) = set_nextSeq (Z.max (ix_nextSeq ix) (c_NextSeq cfg')) (set_cfg cfg' ix)) as ->
      by (destruct (c_NextSeq cfg' >? ix_nextSeq ix) eqn:E'; bool_prop; unfold set_nextSeq; simpl;
          [by rewrite Z.max_r by lia|by rewrite Z.max_l by lia]).
    done. }
  clear E Hmeta.
  destruct (decide (r_Type rec = TypeEnqueue)) as [E|E];
    [rewrite bool_decide_eq_true_2 by done|rewrite bool_decide_eq_false_2 by done].
  { destruct (decodeMessage (r_Payload rec)) as [m|err] eqn:Hdec; [|by eexists].
    destruct (alloc_correct m ix HI) as (l & ix1 & -> & HI1 & <- & Hun).
    assert (m = erase m) as Hm.
    { unfold decodeMessage in Hdec. repeat case_match; simplify_eq; done. }
    rewrite Hm at 1. by apply applyEnqueue_implements. }
  clear E.
  destruct (decide (r_Type rec = TypeAck)) as [E|E];
    [rewrite bool_decide_eq_true_2 by done|rewrite bool_decide_eq_false_2 by done].
  { by apply applyAck_implements. }
  clear E.
  destruct (decide (r_Type rec = TypeNack \/ r_Type rec = TypeLeaseExpire)) as [E|E].
  { assert (bool_decide (r_Type rec = TypeNack) || bool_decide (r_Type rec = TypeLeaseExpire) = true) as ->
      by (destruct E as [-> | ->]; reflexivity).
    destruct (applyAttempt_implements (string_of_bytes (r_Payload rec)) now ix HI) as (ix' & -> & HI' & Ha).
    simpl. destruct (spec_attempt _ now (abs ix)) as [s [b err]]. simpl in *. by exists ix'. }
  rewrite !bool_decide_eq_false_2 by naive_solver. simpl. clear E.
  destruct (decide (r_Type rec = TypeDedup)) as [E|E];
    [rewrite bool_decide_eq_true_2 by done|rewrite bool_decide_eq_false_2 by done]; [|by eexists].
  destruct (decodeDedup (r_Payload rec)) as [e|err]; [|by eexists].
  eexists. split_and!; [done|by apply set_dedup_Inv|done].
Qed.

(** ** Promotion *)

Lemma promoted_promoted cfg now m :
  m_state m = stateDelayed -> After (m_VisibleAt m) now = false ->
  promoted cfg now (promoted cfg now m) = promoted cfg now m.
Proof.
  intros Hst Hv. unfold promoted at 2 3. rewrite decide_True by done.
  unfold routed. rewrite Hv. done.
Qed.

(** Nothing due: promotion changes nothing. *)
Lemma promote_idle now ix :
  Inv ix ->
  (forall l m, l ∈ ix_delayed ix -> ix_store ix !! l = Some m -> After (m_VisibleAt m) now = true) ->
  spec_promote now (abs ix) = abs ix.
Proof.
  intros HI Hd. unfold spec_promote, sp_with, abs. f_equal. apply map_eq. intros id. simpl.
  rewrite lookup_fmap. destruct (msgs ix !! id) as [m|] eqn:Hm; [|done]. simpl. f_equal.
  apply msgs_lookup in Hm as (l & m0 & Hl & Hm0 & ->). unfold promoted.
  destruct (decide (m_state (erase m0) = stateDelayed)) as [Hst|]; [|done].
  destruct (inv_registered id l ix HI Hl) as (m1 & Hm1 & _ & Ho & _).
  assert (m1 = m0) as -> by congruence. simpl in Hst. rewrite Hst in Ho.
  assert (l ∈ ix_delayed ix) as Hin by (apply (inv_slot _ _ HI Delayed); done).
  unfold routed. simpl. rewrite (Hd l m0 Hin Hm0). destruct m0; simpl in *. by rewrite Hst.
Qed.

(** The head of a heap ordered by a time is the first to come due. *)
Lemma head_first s (key : Message -> Time) ix l rest m now :
  (forall c a b, kind_less (slot_kind s c) a b =
     if negb (Equal (key a) (key b)) then Before (key a) (key b) else m_Seq a <? m_Seq b) ->
  Inv ix -> slot_items s ix = l :: rest -> ix_store ix !! l = Some m -> After (key m) now = true ->
  forall l' m', l' ∈ slot_items s ix -> ix_store ix !! l' = Some m' -> After (key m') now = true.
Proof.
  intros Hkey HI Hd Hm Hv l' m' Hl' Hm'.
  destruct (inv_heap _ _ HI s) as [Hok Hh].
  pose proof (heap_prop_root _ _ l (hok_order _ Hok) Hh) as Hmin. simpl in Hmin. rewrite Hd in Hmin.
  specialize (Hmin eq_refl l'). rewrite <- Hd in Hmin. specialize (Hmin Hl').
  unfold store_lt in Hmin. rewrite Hm, Hm', Hkey in Hmin. unfold Equal, Before, After in *.
  destruct (Z.eqb_spec (key m') (key m)); simpl in Hmin; bool_prop; apply Z.ltb_lt; lia.
Qed.

Lemma promoteDue_loop_implements fuel now ix :
  Inv ix -> (length (ix_delayed ix) < fuel)%nat ->
  implements1 (promoteDue_loop fuel now ix) (spec_promote now (abs ix)).
Proof.
  revert ix. induction fuel as [|fuel IH]; intros ix HI Hf; [lia|]. cbn [promoteDue_loop].
  destruct (ix_delayed ix) as [|l rest] eqn:Hd.
  { exists ix. split_and!; [done..|]. symmetry. apply promote_idle; [done|].
    intros l m Hl. rewrite Hd in Hl. by apply not_elem_of_nil in Hl. }
  destruct (inv_elem_store Delayed ix None l HI) as [m Hm]; [simpl; rewrite Hd; by left|].
  rewrite Hm. cbn [mbind option_bind]. destruct (After (m_VisibleAt m) now) eqn:Hv; simpl.
  { exists ix. split_and!; [done..|]. symmetry. apply promote_idle; [done|].
    by apply (head_first Delayed m_VisibleAt ix l rest m). }
  destruct (heapPop_correct Delayed ix l rest HI Hd) as (its & st & m1 & -> & Hp & Hst & Hm1 & F & _).
  simpl. pose proof (fl_store _ _ _ _ F) as (m0 & Hm0 & E0). simpl in Hm0. rewrite Hm0. simpl.
  assert (erase m = m1) as Em.
  { apply msgs_lookup in Hm1 as (l' & m' & Hl' & Hm' & ->).
    pose proof (fl_byID _ _ _ _ F) as Hb. simpl in Hb, Hl'. congruence. }
  destruct (Floating_assign (set_state stateReady) (set_state stateReady) l m1 _ _ F)
    as (ix1 & H1 & F1); [done..|]. rewrite H1. simpl.
  destruct (assign_ix_frame _ _ _ _ H1) as (It1 & _ & _ & Hc1). rewrite Hc1. simpl.
  assert (effectivePriority (ix_cfg ix) m0 now = effectivePriority (ix_cfg ix) m1 now) as -> by (by rewrite <- E0).
  destruct (Floating_assign (set_effPriority (effectivePriority (ix_cfg ix) m1 now))
      (set_effPriority (effectivePriority (ix_cfg ix) m1 now)) l _ _ ix1 F1) as (ix2 & H2 & F2); [done..|].
  rewrite H2. simpl. destruct (assign_ix_frame _ _ _ _ H2) as (It2 & _ & _ & _).
  destruct (Floating_push Ready l _ _ ix2 F2) as (its' & st' & -> & _ & HI3 & Ha3); [done|]. simpl.
  set (ix3 := put_heap Ready its' st' ix2) in *.
  assert (ix_delayed ix3 = its) as Hd3.
  { change (ix_delayed ix3) with (slot_items Delayed ix2). by rewrite It2, It1. }
  simpl in Hp. rewrite Hd in Hp. apply Permutation_length in Hp. simpl in Hp.
  destruct (IH ix3 HI3) as (ix' & -> & HI' & Ha'); [rewrite Hd3; simpl in Hf; lia|].
  exists ix'. split_and!; [done..|]. rewrite Ha', Ha3. unfold spec_promote, sp_set, sp_with.
  simpl. f_equal. rewrite fmap_insert. apply map_eq. intros id.
  assert (After (m_VisibleAt m1) now = false) as Hv1 by (rewrite <- Em; done).
  assert (promoted (ix_cfg ix) now m1 =
    set_effPriority (effectivePriority (ix_cfg ix) m1 now) (set_state stateReady m1)) as Hpr.
  { unfold promoted, routed. rewrite decide_True by done. by rewrite Hv1. }
  simpl in Hm1. destruct (decide (id = m_ID m1)) as [->|].
  - rewrite lookup_insert_eq, lookup_fmap, Hm1. simpl. f_equal.
    rewrite <- Hpr. by apply promoted_promoted.
  - rewrite lookup_insert_ne by done. done.
Qed.

Lemma promoteDue_implements now ix :
  Inv ix -> implements1 (promoteDue now ix) (spec_promote now (abs ix)).
Proof. intros HI. apply promoteDue_loop_implements; [done|lia]. Qed.

(** ** Aging *)

Definition age1 (cfg : Config) (now : Time) (m : Message) : Message :=
  set_effPriority (effectivePriority cfg m now) m.

(** The loop writes the priority in force into the listed messages. *)
Lemma age_items_correct cfg now its st :
  NoDup its -> (forall l, l ∈ its -> is_Some (st !! l)) ->
  exists st' b, age_items cfg now its st = Some (st', b) /\
    (forall l, l ∈ its -> st' !! l = age1 cfg now <$> st !! l) /\
    (forall l, l ∉ its -> st' !! l = st !! l) /\ (b = false -> st' = st).
Proof.
  intros Hnd. revert st. induction Hnd as [|l its Hl Hnd IH]; intros st Hst; simpl.
  { eexists _, _. split_and!; [done| |done..]. by intros l Hl%not_elem_of_nil. }
  destruct (Hst l) as [m Hm]; [by left|]. rewrite Hm. simpl.
  destruct (Z.eqb_spec (effectivePriority cfg m now) (m_effPriority m)) as [E|E]; simpl.
  - destruct (IH st) as (st' & b & -> & Hin & Hout & Hb); [intros; apply Hst; by right|].
    assert (age1 cfg now m = m) as Hid by (unfold age1; rewrite E; by destruct m).
    exists st', b. split_and!; [done| | |done].
    + intros y [->|Hy]%elem_of_cons; [|by apply Hin]. rewrite Hout, Hm by done. simpl. by rewrite Hid.
    + intros y Hy. apply Hout. set_solver.
  - unfold assign. rewrite Hm. simpl. set (st1 := <[l := _]> st).
    assert (forall y, y <> l -> st1 !! y = st !! y) as H1 by (intros; by apply lookup_insert_ne).
    destruct (IH st1) as (st' & b & -> & Hin & Hout & Hb).
    { intros y Hy. rewrite H1 by congruence. apply Hst. by right. }
    exists st', true. split_and!; [done| | |done].
    + intros y [->|Hy]%elem_of_cons.
      * rewrite Hout by done. unfold st1. by rewrite lookup_insert_eq, Hm.
      * rewrite Hin, H1 by congruence. done.
    + intros y Hy. rewrite Hout, H1 by set_solver. done.
Qed.

Lemma ageReady_implements now ix :
  Inv ix -> implements1 (ageReady now ix) (spec_age now (abs ix)).
Proof.
  intros HI. pose proof HI as [[Hid Hslot Hdlq Hnd] Hheap]. unfold ageReady.
  destruct (Hheap Ready) as [[HndR HposR] _]. simpl in HndR, HposR.
  destruct (age_items_correct (ix_cfg ix) now (ix_ready ix) (ix_store ix)) as (st & b & -> & Hin & Hout & Hb).
  { done. } { intros l Hl. apply (inv_elem_store Ready ix None l HI Hl). }
  simpl. set (ix1 := set_store st ix).
  assert (forall l m, ix_store ix !! l = Some m -> exists m', st !! l = Some m' /\
    m_ID m' = m_ID m /\ m_state m' = m_state m) as Hsame.
  { intros l m Hm. destruct (decide (l ∈ ix_ready ix)) as [Hl|Hl].
    - rewrite Hin, Hm by done. by eexists.
    - rewrite Hout by done. eauto. }
  assert (forall l m, ix_byID ix !! m_ID m = Some l -> st !! l = Some m -> exists m', ix_store ix !! l = Some m' /\
    m_ID m' = m_ID m /\ m_state m' = m_state m) as Hback.
  { intros l m Hl Hm. destruct (Hid _ _ Hl) as (m' & Hm' & _).
    destruct (Hsame l m' Hm') as (m2 & ? & ? & ?). exists m'. split_and!; congruence. }
  assert (forall l t, owned l t ix1 <-> owned l t ix) as Hown.
  { intros l t. unfold owned. simpl. split; intros (m & Hm & <- & Hl).
    - destruct (Hback l m Hl Hm) as (m' & ? & ? & ?). exists m'. split_and!; congruence.
    - destruct (Hsame l m Hm) as (m' & ? & ? & ?). exists m'. split_and!; congruence. }
  assert (InvS None ix1) as HS.
  { split.
    - intros id l Hl. destruct (Hid id l Hl) as (m & Hm & <-). destruct (Hsame l m Hm) as (m' & ? & ? & _).
      eauto.
    - intros s l. rewrite Hown. change (slot_items s ix1) with (slot_items s ix). apply Hslot.
    - intros l. rewrite Hown. apply Hdlq.
    - done. }
  assert (forall t, t <> Ready -> heap_ok (get_heap t ix1)) as Hother.
  { intros t Ht. apply (heap_ok_frame _ (ix_store ix)); [|apply Hheap].
    intros a [_ Ha]%Hslot. apply Hout. intros [_ Ha']%(Hslot Ready).
    apply Ht, slot_state_inj. by apply (owned_state a _ _ ix). }
  assert (abs ix1 = spec_age now (abs ix)) as Habs.
  { unfold spec_age, sp_with, abs. f_equal. apply map_eq. intros id. simpl.
    rewrite lookup_fmap. unfold msgs. rewrite !lookup_omap. simpl.
    destruct (ix_byID ix !! id) as [l|] eqn:Hl; [|done]. cbn [mbind option_bind].
    destruct (inv_registered id l ix HI Hl) as (m & Hm & _ & Ho & _). rewrite Hm.
    cbn. unfold aged. f_equal. destruct (decide (m_state (erase m) = stateReady)) as [Hst|Hst].
    - assert (l ∈ ix_ready ix) as Hl' by (apply (Hslot Ready); simpl in Hst; by rewrite Hst in Ho).
      rewrite Hin, Hm by done. done.
    - assert (l ∉ ix_ready ix) as Hl'.
      { intros [_ Ho']%(Hslot Ready). apply Hst. by apply (owned_state l _ _ ix). }
      rewrite Hout, Hm by done. done. }
  destruct b.
  - destruct (Init_correct (get_heap Ready ix1)) as (h & Hinit & M & Hh).
    { split; [done|]. intros i l Hl. simpl in *. destruct (HposR i l Hl) as (m & Hm & Hi).
      rewrite Hin, Hm by (by eapply list_elem_of_lookup_2). by eexists. }
    destruct M as [_ Mp Ms Mo _]. simpl in Mp, Ms, Mo.
    unfold heapInit. rewrite Hinit. simpl. eexists. split_and!; [done| |].
    + apply (put_heap_inv None None Ready _ _ ix1 HS Hother); [by destruct h|done| | |by intros ?? [?|?]].
      * intros a _ Ha. by apply Mo.
      * intros a. rewrite Mp. apply (inv_slot _ _ HS Ready).
    + rewrite <- Habs. unfold abs. f_equal. by apply msgs_sim.
  - subst ix1. rewrite (Hb eq_refl) in *. eexists. split_and!; [done|by destruct ix|done].
Qed.

(** ** Leasing *)

(** [m] is ready in [s] and no ready message sorts before it. *)
Definition first_ready (m : Message) (s : Spec) : Prop :=
  sp_msgs s !! m_ID m = Some m /\ m_state m = stateReady /\
  forall id m', sp_msgs s !! id = Some m' -> m_state m' = stateReady -> less (sp_cfg s) m' m = false.

(** Leasing up to [max] messages, one first ready message after the other. *)
Inductive leases (deadline : Time) : nat -> Spec -> list Message -> Spec -> Prop :=
  | leases_full s : leases deadline 0 s [] s
  | leases_empty max s :
      (forall id m, sp_msgs s !! id = Some m -> m_state m <> stateReady) -> leases deadline max s [] s
  | leases_one max s m out s' :
      first_ready m s ->
      leases deadline max (sp_set (m_ID m) (leased deadline m) s) out s' ->
      leases deadline (S max) s (leased deadline m :: out) s'.

Lemma lease_loop_implements max deadline ix :
  Inv ix ->
  exists out ix', lease_loop max deadline ix = Some (out, ix') /\ Inv ix' /\
    leases deadline max (abs ix) (erase <$> out) (abs ix').
Proof.
  revert ix. induction max as [|max IH]; intros ix HI; cbn [lease_loop].
  { exists [], ix. split_and!; [done..|constructor]. }
  destruct (ix_ready ix) as [|l rest] eqn:Hr; simpl.
  { exists [], ix. split_and!; [done..|]. constructor 2. intros id m (l & m0 & Hl & Hm0 & ->)%msgs_lookup Hst.
    destruct (inv_registered id l ix HI Hl) as (m & Hm & _ & Ho & _).
    assert (l ∈ ix_ready ix) as Hin.
    { apply (inv_slot _ _ HI Ready). split; [done|]. simpl in Hst.
      replace (slot_state Ready) with (m_state m) by (simpl; congruence). done. }
    rewrite Hr in Hin. by apply not_elem_of_nil in Hin. }
  destruct (heapPop_correct Ready ix l rest HI Hr) as (its & st & m & -> & Hp & Hst & Hm & F & Hmin). simpl.
  destruct (Floating_assign (set_state stateInFlight) (set_state stateInFlight) l m _ _ F)
    as (ix1 & -> & F1); [done..|]. simpl.
  destruct (Floating_assign (set_deadline deadline) (set_deadline deadline) l _ _ ix1 F1)
    as (ix2 & -> & F2); [done..|]. simpl.
  destruct (Floating_push InFlight l _ _ ix2 F2) as (its' & st' & -> & _ & HI3 & Ha3); [done|].
  cbn [mbind option_bind]. set (ix3 := put_heap InFlight its' st' ix2) in *.
  assert (sp_msgs (abs ix3) !! m_ID m = Some (leased deadline m)) as Hm3
    by (rewrite Ha3; apply lookup_insert_eq).
  pose proof (fl_byID _ _ _ _ F2) as Hb2. simpl in Hb2.
  apply msgs_lookup in Hm3 as (l' & m3 & Hl' & Hm3 & Em3).
  assert (l' = l) as -> by (change (ix_byID ix3) with (ix_byID ix2) in Hl'; congruence).
  rewrite Hm3. simpl. destruct (IH ix3 HI3) as (out & ix' & -> & HI' & Hlease). simpl.
  exists (m3 :: out), ix'. split_and!; [done..|]. simpl. rewrite <- Em3.
  constructor; [|by rewrite Ha3 in Hlease].
  split_and!; [done|done|]. intros id m' (lm & m0 & Hlm & Hm0 & ->)%msgs_lookup Hst'.
  destruct (inv_registered id lm ix HI Hlm) as (m0' & Hm0' & _ & Ho & _).
  assert (m0' = m0) as -> by congruence. simpl in Hst'. rewrite Hst' in Ho.
  assert (lm ∈ ix_ready ix) as Hin by by apply (inv_slot _ _ HI Ready).
  simpl in Hp. rewrite Hp in Hin. apply msgs_lookup in Hm as (lx & mx & Hlx & Hmx & ->).
  pose proof (fl_byID _ _ _ _ F) as Hb. simpl in Hb, Hlx.
  assert (lx = l) as -> by congruence.
  apply elem_of_cons in Hin as [->|Hin].
  - assert (m0 = mx) as -> by congruence. simpl.
    destruct (less (ix_cfg ix) (erase mx) (erase mx)) eqn:E; [|done].
    by rewrite (less_asym _ _ _ E) in E.
  - specialize (Hmin lm Hin). unfold store_lt in Hmin. by rewrite Hm0, Hmx in Hmin.
Qed.

(** ** Counting *)

(** The messages of [ix] in state [t], by id. *)
Definition in_state (t : state) (s : Spec) : gmap string Message :=
  filter (fun '(_, m) => m_state m = t) (sp_msgs s).

Lemma in_state_lookup t s id m : in_state t s !! id = Some m <-> sp_msgs s !! id = Some m /\ m_state m = t.
Proof. unfold in_state. rewrite map_lookup_filter_Some. done. Qed.

(** A list of exactly the messages in a state is as long as there are such. *)
Lemma owned_count ix t (its : list loc) :
  InvS None ix -> NoDup its -> (forall l, l ∈ its <-> owned l t ix) ->
  length its = size (in_state t (abs ix)).
Proof.
  intros HS Hnd Hits.
  set (idOf := fun l => default "" (m_ID <$> ix_store ix !! l)).
  assert (forall l m, ix_store ix !! l = Some m -> idOf l = m_ID m) as HidOf
    by (intros l m Hm; unfold idOf; by rewrite Hm).
  assert (NoDup (idOf <$> its)) as Hnd'.
  { apply NoDup_fmap_2_strong; [|done]. intros l l' (m & Hm & _ & Hl)%Hits (m' & Hm' & _ & Hl')%Hits.
    rewrite (HidOf l m), (HidOf l' m') by done. congruence. }
  rewrite <- (length_fmap idOf), <- (size_list_to_set (C:=gset string)) by done.
  rewrite <- (size_dom (D:=gset string)). f_equal. apply set_eq. intros id.
  rewrite elem_of_list_to_set, list_elem_of_fmap, elem_of_dom. split.
  - intros (l & -> & (m & Hm & Ht & Hl)%Hits). exists (erase m). apply in_state_lookup.
    split; [|done]. apply msgs_lookup. exists l, m. by rewrite (HidOf l m).
  - intros [m [Hm Ht]%in_state_lookup]. apply msgs_lookup in Hm as (l & m0 & Hl & Hm0 & ->).
    destruct (inv_id _ _ HS _ _ Hl) as (m1 & Hm1 & <-). assert (m1 = m0) as -> by congruence.
    exists l. split; [by rewrite (HidOf l m0)|]. apply Hits. by exists m0.
Qed.

Lemma slot_count s ix : Inv ix -> length (slot_items s ix) = size (in_state (slot_state s) (abs ix)).
Proof.
  intros HI. apply owned_count; [apply HI|apply (inv_heap _ _ HI s)|].
  intros l. rewrite (inv_slot _ _ HI). naive_solver.
Qed.

Lemma dlq_count ix : Inv ix -> length (ix_dlq ix) = size (in_state stateDead (abs ix)).
Proof.
  intros HI. apply owned_count; [apply HI|apply HI|]. intros l. rewrite (inv_dlq _ _ HI). naive_solver.
Qed.

(** A failed attempt on an in-flight message ends its lease. *)
Lemma attempt_ends_lease id now m s :
  sp_msgs s !! id = Some m -> m_state m = stateInFlight ->
  (size (in_state stateInFlight (spec_attempt id now s).1) < size (in_state stateInFlight s))%nat.
Proof.
  intros Hm Hst. unfold spec_attempt. rewrite Hm.
  destruct (attempted (sp_cfg s) now m) as [m' dead] eqn:Hatt. simpl. unfold in_state. simpl.
  assert (m_state m' <> stateInFlight) as Hst'.
  { unfold attempted, routed in Hatt. repeat case_match; by simplify_eq/=. }
  rewrite map_filter_insert_False by done. rewrite map_filter_delete.
  pose proof (proj2 (in_state_lookup stateInFlight s id m) (conj Hm Hst)) as Hx.
  unfold in_state in *. rewrite map_size_delete, Hx.
  match goal with |- (Nat.pred (size ?f) < _)%nat =>
    assert (size f <> 0%nat) by (intros E%map_size_empty_inv; by rewrite E, lookup_empty in Hx) end.
  lia.
Qed.
