(* ===== verification/IndexProps.v ===== *)
(** * Properties of the index

    The structural rules the test suite checks, [container/heap] over the three
    heaps, the refinement of the transitions, and what [leases] says of the
    messages a [Dequeue] hands out. *)

From Stdlib Require Import ZArith Lia Sorting.Sorted.
From S2P Require Import Prelude GoInt Errors WalRecord GoHeap Message Heaps Codec Index QueueSpec IndexInv IndexRefine.

(** ** [checkInvariants] of [robustness_test.go] *)

Definition all_in_state (t : state) (its : list loc) (ix : Index) : bool :=
  forallb (fun l => match ix_store ix !! l with Some m => bool_decide (m_state m = t) | None => false end) its.

Fixpoint indexed_from (i : Z) (its : list loc) (st : Store) : bool :=
  match its with
  | [] => true
  | l :: its =>
    match st !! l with Some m => m_index m =? i | None => false end && indexed_from (i + 1) its st
  end.

Definition heap_property (s : slot) (ix : Index) : bool :=
  forallb (fun i => match Less (get_heap s ix) i ((i - 1) / 2)%nat with Some b => negb b | None => false end)
    (seq 1 (Len (get_heap s ix) - 1)).

Definition checkInvariants (ix : Index) : bool :=
  all_in_state stateReady (ix_ready ix) ix && all_in_state stateDelayed (ix_delayed ix) ix &&
  all_in_state stateInFlight (ix_inflight ix) ix && all_in_state stateDead (ix_dlq ix) ix &&
  (length (ix_ready ix) + length (ix_delayed ix) + length (ix_inflight ix) + length (ix_dlq ix) =? size (ix_byID ix))%nat &&
  forallb (fun s => indexed_from 0 (slot_items s ix) (ix_store ix)) [Ready; Delayed; InFlight] &&
  forallb (fun s => heap_property s ix) [Ready; Delayed; InFlight].

(** ** It holds *)

Lemma all_in_state_ok t its ix :
  (forall l, l ∈ its -> owned l t ix) -> all_in_state t its ix = true.
Proof.
  intros H. apply forallb_forall. intros l Hl%list_elem_of_In. destruct (H l Hl) as (m & -> & Ht & _).
  by apply bool_decide_eq_true.
Qed.

Lemma indexed_from_ok i its st :
  (forall k l, its !! k = Some l -> exists m, st !! l = Some m /\ m_index m = i + Z.of_nat k) ->
  indexed_from i its st = true.
Proof.
  revert i. induction its as [|l its IH]; intros i H; [done|]. simpl.
  destruct (H 0%nat l eq_refl) as (m & -> & ->). rewrite IH, andb_true_r; [apply Z.eqb_eq; lia|].
  intros k x Hk. destruct (H (S k) x Hk) as (m' & ? & ?). exists m'. split; [done|lia].
Qed.

Lemma heap_property_ok s ix : Inv ix -> heap_property s ix = true.
Proof.
  intros HI. destruct (inv_heap _ _ HI s) as [Hp Hh]. apply forallb_forall. intros i Hi%in_seq.
  change (Len (get_heap s ix)) with (length (slot_items s ix)) in Hi.
  destruct (lookup_lt_is_Some_2 (slot_items s ix) i) as [x Hx]; [lia|].
  assert ((i - 1) / 2 < length (slot_items s ix))%nat as Hpar.
  { pose proof (Nat.Div0.div_le_upper_bound (i - 1) 2 (i - 1)). lia. }
  destruct (lookup_lt_is_Some_2 (slot_items s ix) ((i - 1) / 2)) as [y Hy]; [done|].
  change (Less (get_heap s ix) i ((i - 1) / 2)) with (heap_Less (get_heap s ix) i ((i - 1) / 2)%nat).
  rewrite (heap_Less_law (get_heap s ix) i _ x y Hp Hx Hy).
  assert (store_lt (k:=slot_kind s (ix_cfg ix)) (store (get_heap s ix)) x y = false) as ->; [|done].
  assert (0 < i < length (slot_items s ix))%nat as Hi' by lia.
  exact (Hh i Hi' (Nat.le_0_l _) x y Hx Hy).
Qed.

(** Every message is in one of the four states. *)
Lemma size_by_state (M : gmap string Message) :
  size M = (size (filter (fun '(_, m) => m_state m = stateReady) M) +
    size (filter (fun '(_, m) => m_state m = stateDelayed) M) +
    size (filter (fun '(_, m) => m_state m = stateInFlight) M) +
    size (filter (fun '(_, m) => m_state m = stateDead) M))%nat.
Proof.
  assert (forall t id m (N : gmap string Message), N !! id = None ->
    size (filter (fun '(_, m) => m_state m = t) (<[id := m]> N)) =
    ((if decide (m_state m = t) then 1 else 0) + size (filter (fun '(_, m) => m_state m = t) N))%nat) as Hone.
  { intros t id m N Hid. case_decide.
    - rewrite map_filter_insert_True by done. rewrite map_size_insert_None; [done|].
      apply map_lookup_filter_None. by left.
    - rewrite map_filter_insert_False by done. by rewrite delete_id. }
  induction M as [|id m M Hid IH] using map_ind; [by rewrite !map_filter_empty|].
  rewrite map_size_insert_None, !Hone, IH by done. destruct (m_state m); repeat case_decide; (done || lia).
Qed.

Lemma size_msgs ix : Inv ix -> size (msgs ix) = size (ix_byID ix).
Proof.
  intros HI. rewrite <- !(size_dom (D:=gset string)). f_equal. apply set_eq. intros id.
  rewrite !elem_of_dom. unfold is_Some. split.
  - intros (m & (l & _ & Hl & _)%msgs_lookup). eauto.
  - intros [l Hl]. destruct (inv_id _ _ HI _ _ Hl) as (m & Hm & _). exists (erase m). apply msgs_lookup. eauto.
Qed.

Lemma Inv_checkInvariants ix : Inv ix -> checkInvariants ix = true.
Proof.
  intros HI. unfold checkInvariants.
  assert (forall s, all_in_state (slot_state s) (slot_items s ix) ix = true) as Hst.
  { intros s. apply all_in_state_ok. intros l [_ Hl]%(inv_slot _ _ HI s). done. }
  pose proof (Hst Ready) as S1. pose proof (Hst Delayed) as S2. pose proof (Hst InFlight) as S3.
  simpl in S1, S2, S3. rewrite S1, S2, S3.
  rewrite (all_in_state_ok stateDead (ix_dlq ix) ix) by (intros l [_ Hl]%(inv_dlq _ _ HI); done).
  pose proof (slot_count Ready _ HI) as C1. pose proof (slot_count Delayed _ HI) as C2.
  pose proof (slot_count InFlight _ HI) as C3. pose proof (dlq_count ix HI) as C4.
  pose proof (size_by_state (msgs ix)) as Hsum. rewrite (size_msgs ix HI) in Hsum.
  change (slot_items Ready ix) with (ix_ready ix) in C1. change (slot_items Delayed ix) with (ix_delayed ix) in C2.
  change (slot_items InFlight ix) with (ix_inflight ix) in C3.
  rewrite (proj2 (Nat.eqb_eq _ _)) by (rewrite C1, C2, C3, C4; symmetry; exact Hsum).
  assert (forall s, indexed_from 0 (slot_items s ix) (ix_store ix) = true) as Hpos.
  { intros s. apply indexed_from_ok. destruct (inv_heap _ _ HI s) as [[_ Hp] _]. intros k l Hk.
    destruct (Hp k l Hk) as (m & ? & ?). exists m. split; [done|lia]. }
  cbn [forallb]. by rewrite !Hpos, !heap_property_ok.
Qed.

(** ** Order of delivery *)

(** The messages of a specification state are filed under their ids. *)
Definition filed (s : Spec) : Prop := forall id m, sp_msgs s !! id = Some m -> m_ID m = id.

Lemma abs_filed ix : Inv ix -> filed (abs ix).
Proof.
  intros HI id m (l & m0 & Hl & Hm0 & ->)%msgs_lookup. destruct (inv_id _ _ HI _ _ Hl) as (m1 & ? & ?).
  simpl. congruence.
Qed.

Lemma promoted_ID cfg now m : m_ID (promoted cfg now m) = m_ID m.
Proof. unfold promoted, routed. by repeat case_match. Qed.

Lemma filed_promote now s : filed s -> filed (spec_promote now s).
Proof.
  intros H id m. simpl. rewrite lookup_fmap, fmap_Some. intros (m0 & Hm & ->). rewrite promoted_ID. by apply H.
Qed.

(** What a sequence of leases hands out. *)
Record handed_out (deadline : Time) (n : nat) (s : Spec) (out : list Message) (s' : Spec) : Prop := {
  ho_count : length out = min n (size (in_state stateReady s));
  ho_from m : m ∈ out -> exists m0, sp_msgs s !! m_ID m = Some m0 /\ m_state m0 = stateReady /\ m = leased deadline m0;
  ho_leased m : m ∈ out -> sp_msgs s' !! m_ID m = Some m;
  ho_rest id : id ∉ m_ID <$> out -> sp_msgs s' !! id = sp_msgs s !! id;
  ho_nodup : NoDup (m_ID <$> out);
  ho_sorted : StronglySorted (fun a b => less (sp_cfg s) b a = false) out;
  ho_first m id m' : m ∈ out -> sp_msgs s' !! id = Some m' -> m_state m' = stateReady -> less (sp_cfg s) m' m = false;
}.

Lemma in_state_lease s m deadline :
  sp_msgs s !! m_ID m = Some m -> m_state m = stateReady ->
  size (in_state stateReady s) = S (size (in_state stateReady (sp_set (m_ID m) (leased deadline m) s))).
Proof.
  intros Hm Hst. unfold in_state. cbn [sp_set sp_with sp_msgs].
  rewrite map_filter_insert_False by done. rewrite map_filter_delete, map_size_delete.
  pose proof (proj2 (in_state_lookup stateReady s (m_ID m) m) (conj Hm Hst)) as Hx. unfold in_state in Hx. rewrite Hx.
  match goal with |- size ?f = _ =>
    assert (size f <> 0%nat) by (intros E%map_size_empty_inv; by rewrite E, lookup_empty in Hx) end.
  lia.
Qed.

Lemma leases_handed_out deadline n s out s' :
  filed s -> leases deadline n s out s' -> handed_out deadline n s out s'.
Proof.
  intros Hf Hl. induction Hl as [s|n s Hnone|n s m out s' (Hm & Hst & Hmin) Hl IH].
  - split; simpl; try (by intros ? ?%not_elem_of_nil); try done; [constructor|constructor|].
    by intros ? ? ? ?%not_elem_of_nil.
  - split; simpl; try (by intros ? ?%not_elem_of_nil); try done; [|constructor|constructor|].
    + assert (in_state stateReady s = ∅) as E; [|by rewrite E, map_size_empty, Nat.min_0_r].
      apply map_empty. intros id. destruct (in_state stateReady s !! id) as [m|] eqn:E; [|done].
      apply in_state_lookup in E as [? ?]. by destruct (Hnone id m).
    + by intros ? ? ? ?%not_elem_of_nil.
  - set (s1 := sp_set (m_ID m) (leased deadline m) s) in *.
    assert (filed s1) as Hf1.
    { intros id x. subst s1. simpl. intros [[<- <-]|[_ Hx]]%lookup_insert_Some; [done|by apply Hf]. }
    destruct (IH Hf1) as [Hc Hfrom Hlsd Hrest Hnd Hso Hfi]. clear IH.
    assert (forall x, x ∈ out -> exists m0, sp_msgs s !! m_ID x = Some m0 /\ m_state m0 = stateReady /\
      x = leased deadline m0 /\ m_ID x <> m_ID m) as Hfrom'.
    { intros x Hx. destruct (Hfrom x Hx) as (m0 & Hm0 & Hst0 & E). subst s1. simpl in Hm0.
      apply lookup_insert_Some in Hm0 as [[_ <-]|[Hne Hm0]]; [done|]. exists m0. by split_and!. }
    assert (m_ID m ∉ m_ID <$> out) as Hnin.
    { intros (x & E & Hx)%list_elem_of_fmap. destruct (Hfrom' x Hx) as (_ & _ & _ & _ & Hne). congruence. }
    split.
    + simpl. rewrite Hc, (in_state_lease s m deadline Hm Hst). done.
    + intros x [->|Hx]%elem_of_cons; [by exists m|]. destruct (Hfrom' x Hx) as (m0 & ? & ? & ? & _). eauto.
    + intros x [->|Hx]%elem_of_cons; [|by apply Hlsd]. simpl. rewrite Hrest by done. apply lookup_insert_eq.
    + intros id [Hne Hid]%not_elem_of_cons. rewrite Hrest by done. simpl. rewrite lookup_insert_ne; [done|].
      intros <-. by apply Hne.
    + simpl. by constructor.
    + constructor; [done|]. apply Forall_forall. intros x Hx. destruct (Hfrom' x Hx) as (m0 & Hm0 & Hst0 & -> & _).
      rewrite (less_ext (sp_cfg s) (leased deadline m0) m0 (leased deadline m) m) by done. by eapply Hmin.
    + intros x id x' [->|Hx]%elem_of_cons Hx' Hst'; [|by eapply Hfi].
      rewrite (less_ext (sp_cfg s) x' x' (leased deadline m) m) by done.
      assert (id ∉ m_ID <$> out) as Hid.
      { intros (y & -> & Hy)%list_elem_of_fmap. rewrite (Hlsd y Hy) in Hx'. injection Hx' as <-.
        destruct (Hfrom' y Hy) as (m0 & _ & _ & -> & _). done. }
      rewrite Hrest in Hx' by done. subst s1. simpl in Hx'.
      apply lookup_insert_Some in Hx' as [[_ <-]|[_ Hx']]; [done|]. by eapply Hmin.
Qed.

(** ** Theorems *)

(** C32: [container/heap] over [readyHeap], [delayedHeap] and [leaseHeap]: on a heap whose messages know their positions, [Push] of a new message, [Remove] at any position and [Pop] never panic and leave such a heap, of exactly the messages it should hold; [Pop] takes out one no remaining message sorts before; [Init] restores the heap property after any change of priorities; and no field of a message but its position changes. *)
Theorem heaps_correct (k : heapKind) (h : msgHeap k) :
  (positioned h -> exists h', Init h = Some h' /\ heap_ok h' /\ items h' ≡ₚ items h /\ store_sim (store h) (store h')) /\
  (heap_ok h ->
    (forall x, x ∉ items h -> is_Some (store h !! x) ->
      exists h', Push x h = Some h' /\ heap_ok h' /\ items h' ≡ₚ x :: items h /\ store_sim (store h) (store h')) /\
    (forall i x, items h !! i = Some x ->
      exists h', Remove i h = Some (x, h') /\ heap_ok h' /\ items h ≡ₚ x :: items h' /\ store_sim (store h) (store h')) /\
    (forall x, items h !! 0%nat = Some x ->
      exists h', Pop h = Some (x, h') /\ heap_ok h' /\ items h ≡ₚ x :: items h' /\ store_sim (store h) (store h') /\
        forall y a b, y ∈ items h' -> store h' !! y = Some a -> store h' !! x = Some b -> kind_less k a b = false)).
Proof.
  split; [|intros Hh; split_and!].
  - intros Hp. change (hok h) in Hp. destruct (Init_correct h Hp) as (h' & E & M & Hh'). exists h'.
    split_and!; [done|done|apply M|apply M].
  - intros x Hx Hs. destruct (Push_correct h x Hh (conj Hx Hs)) as (h' & E & Hh' & [Hp Hsm _]). by exists h'.
  - intros i x Hx. destruct (Remove_correct h i x Hh Hx) as (h' & E & Hh' & [Hp Hsm _]). by exists h'.
  - intros x Hx. destruct (Pop_correct h x Hh Hx) as (h' & E & Hh' & [Hp Hsm _] & Hmin).
    exists h'. split_and!; try done. intros y a b Hy Ha Hb. specialize (Hmin y Hy).
    change (store_lt (k:=k) (store h) y x = false) in Hmin.
    rewrite <- (store_lt_sim _ _ _ _ Hsm) in Hmin. unfold store_lt in Hmin. by rewrite Ha, Hb in Hmin.
Qed.

(** C33: Refinement of the transitions: in every index that satisfies the invariant, replaying one log record of any type with the clock at any time neither panics nor breaks the invariant, returns the error the specification returns, and takes the abstract state (messages by id, dedup map, counter, no heaps or pointers) exactly where the specification does; a [META] record comes while nothing is ready. *)
Theorem apply_refines decodeConfig (rec : Record_) (now : Time) (ix : Index) :
  Inv ix -> (r_Type rec = TypeMeta -> ix_ready ix = []) ->
  implements (apply decodeConfig rec now ix) (spec_apply decodeConfig rec now (abs ix)).
Proof. apply apply_implements. Qed.

(** Refinement of the operations that write no record: promoting due messages, aging the ready ones and leasing the first [max] each terminate without a panic, keep the invariant and do to the abstract state what the specification says, whatever the heaps look like inside. *)
Theorem unlogged_operations_refine (now deadline : Time) (max : nat) (ix : Index) :
  Inv ix ->
  implements1 (promoteDue now ix) (spec_promote now (abs ix)) /\
  implements1 (ageReady now ix) (spec_age now (abs ix)) /\
  exists out ix', lease_loop max deadline ix = Some (out, ix') /\ Inv ix' /\
    handed_out deadline max (abs ix) (erase <$> out) (abs ix').
Proof.
  intros HI. split_and!; [by apply promoteDue_implements|by apply ageReady_implements|].
  destruct (lease_loop_implements max deadline ix HI) as (out & ix' & E & HI' & Hl).
  exists out, ix'. split_and!; [done..|]. apply leases_handed_out; [by apply abs_filed|done].
Qed.

(** ** Witnesses *)

Definition wit_msg (seq : Z) (id : string) : Message := mkMessage id "" seq 0 0 [] 0 0 stateReady seq 0 zeroTime.
Definition wit_heap : msgHeap delayedHeap := mkHeap [] {[1%positive := wit_msg 1 "a"]}.

Lemma heaps_correct_witness :
  exists h', Push 1%positive wit_heap = Some h' /\ heap_ok h' /\ items h' ≡ₚ [1%positive].
Proof.
  assert (heap_ok wit_heap) as Hh.
  { split; [split; [apply NoDup_nil_2|intros i l Hl; simpl in Hl; by rewrite lookup_nil in Hl]|].
    intros j Hj. simpl in Hj. lia. }
  destruct (proj1 (proj2 (heaps_correct delayedHeap wit_heap) Hh) 1%positive) as (h' & E & Hok & Hp & _);
    [by apply not_elem_of_nil|by eexists|by exists h'].
Defined.

Lemma apply_refines_witness :
  implements (apply (fun _ => inr (EJson "unused")) (mkRecord TypeAck (bytes_of_string "a") 0) 5 newIndex)
    (abs newIndex, Some (EAckUnknown "a")).
Proof. apply (apply_refines (fun _ => inr (EJson "unused")) (mkRecord TypeAck (bytes_of_string "a") 0) 5 newIndex newIndex_Inv). intros E. discriminate. Defined.
