(* ===== verification/Durable.v ===== *)
(** * What the log makes durable

    [Core] is the part of a queue's state its log determines: no clock, no
    leases, no positions, no priorities in force.  [core_apply] is what a record
    does to it.  [represents] relates a state to a core; every transition that
    writes a record takes the core where [core_apply] says, every other one
    leaves it, and so does replay, whatever its clock reads: a live queue and a
    queue loaded from its log represent the same core. *)

From Stdlib Require Import ZArith Lia.
From S2P Require Import Prelude GoInt Errors WalRecord Replay Message Heaps Codec Index QueueSpec.

(** ** Cores *)

(** [k_VisibleAt] is the delay the message was enqueued with, as long as no
    attempt on it has failed. *)
Record CoreMsg := mkCoreMsg {
  k_DedupID : string;
  k_Seq : Z;
  k_Priority : Z;
  k_Payload : list byte;
  k_CreatedAt : Time;
  k_Attempts : Z;
  k_dead : bool;
  k_VisibleAt : option Time;
}.

Record Core := mkCore {
  k_cfg : Config;
  k_msgs : gmap string CoreMsg;
  k_dedup : gmap string dedupEntry;
  k_nextSeq : Z;
}.

Definition core_msg (m : Message) : CoreMsg :=
  mkCoreMsg (m_DedupID m) (m_Seq m) (m_Priority m) (m_Payload m) (m_CreatedAt m) (m_Attempts m)
    (bool_decide (m_state m = stateDead)) (Some (m_VisibleAt m)).

Definition core_enqueue (m : Message) (c : Core) : Core + Err :=
  match k_msgs c !! m_ID m with
  | Some _ => inr (EDuplicateMessageId (m_ID m))
  | None =>
    inl (mkCore (k_cfg c) (<[m_ID m := core_msg m]> (k_msgs c))
      (if decide (m_DedupID m = "") then k_dedup c
       else <[m_DedupID m := mkDedup (m_DedupID m) (m_ID m) (Add (m_CreatedAt m) (dedupWindow (k_cfg c)))]>
              (k_dedup c))
      (if m_Seq m >=? k_nextSeq c then uint64 (m_Seq m + 1) else k_nextSeq c))
  end.

Definition core_attempted (cfg : Config) (k : CoreMsg) : CoreMsg :=
  let n := int64 (k_Attempts k + 1) in
  mkCoreMsg (k_DedupID k) (k_Seq k) (k_Priority k) (k_Payload k) (k_CreatedAt k) n
    (n >=? c_MaxAttempts cfg) None.

Section CoreApply.
Context (decodeConfig : list byte -> Result Config).

Definition core_apply (e : Entry) (c : Core) : Core + Err :=
  let '(t, payload) := e in
  let id := string_of_bytes payload in
  if decide (t = TypeMeta) then
    letR cfg := decodeConfig payload in
    (match Validate cfg with
     | (_, Some err) => inr err
     | (cfg, None) => inl (mkCore cfg (k_msgs c) (k_dedup c) (Z.max (k_nextSeq c) (c_NextSeq cfg)))
     end)
  else if decide (t = TypeEnqueue) then
    letR m := decodeMessage payload in core_enqueue m c
  else if decide (t = TypeAck) then
    match k_msgs c !! id with
    | None => inr (EAckUnknown id)
    | Some _ => inl (mkCore (k_cfg c) (delete id (k_msgs c)) (k_dedup c) (k_nextSeq c))
    end
  else if decide (t = TypeNack \/ t = TypeLeaseExpire) then
    match k_msgs c !! id with
    | None => inr (EAttemptUnknown id)
    | Some k => inl (mkCore (k_cfg c) (<[id := core_attempted (k_cfg c) k]> (k_msgs c)) (k_dedup c) (k_nextSeq c))
    end
  else if decide (t = TypeDedup) then
    letR e := decodeDedup payload in
    inl (mkCore (k_cfg c) (k_msgs c) (<[e_DedupID e := e]> (k_dedup c)) (k_nextSeq c))
  else inr (EUnhandledRecordType t).

(** A sequence of records. *)
Fixpoint core_run (es : list Entry) (c : Core) : Core + Err :=
  match es with
  | [] => inl c
  | e :: es => letR c := core_apply e c in core_run es c
  end.

Lemma core_run_app es1 es2 c :
  core_run (es1 ++ es2) c = (letR c := core_run es1 c in core_run es2 c).
Proof.
  revert c. induction es1 as [|e es1 IH]; intros c; simpl; [done|].
  destruct (core_apply e c); [apply IH|done].
Qed.

(** If a history runs, so does every prefix of it. *)
Lemma core_run_prefix es1 es c c' :
  es1 `prefix_of` es -> core_run es c = inl c' -> exists c1, core_run es1 c = inl c1.
Proof.
  intros [es2 ->]. rewrite core_run_app. destruct (core_run es1 c); [eauto|done].
Qed.
End CoreApply.

(** The core of a queue no record of which was read. *)
Definition core0 : Core := mkCore zeroConfig ∅ ∅ 1.

(** ** States that represent a core *)

(** A dedup entry, if it still suppresses duplicates at [t]. *)
Definition alive (t : Time) (o : option dedupEntry) : option dedupEntry :=
  match o with
  | Some e => if Before t (e_ExpiresAt e) then Some e else None
  | None => None
  end.

Definition rep_msg (m : Message) (k : CoreMsg) : Prop :=
  m_DedupID m = k_DedupID k /\ m_Seq m = k_Seq k /\ m_Priority m = k_Priority k /\
  m_Payload m = k_Payload k /\ m_CreatedAt m = k_CreatedAt k /\ m_Attempts m = k_Attempts k /\
  bool_decide (m_state m = stateDead) = k_dead k /\
  (forall v, k_VisibleAt k = Some v -> m_VisibleAt m = v).

(** From [T] on, [s] is indistinguishable from [c] as far as the log goes. *)
Record represents (T : Time) (s : Spec) (c : Core) : Prop := {
  rp_cfg : same_cfg (sp_cfg s) (k_cfg c);
  rp_msgs id : option_Forall2 rep_msg (sp_msgs s !! id) (k_msgs c !! id);
  rp_dedup k t : T <= t -> alive t (sp_dedup s !! k) = alive t (k_dedup c !! k);
  rp_nextSeq : sp_nextSeq s = k_nextSeq c;
}.

Lemma rep_msg_core m : rep_msg m (core_msg m).
Proof. split_and!; try done. by intros v [= ->]. Qed.

(** Routing and promoting, aging and leasing a live message do not matter. *)
Lemma rep_msg_live m m' k :
  rep_msg m k -> m_state m <> stateDead -> m_state m' <> stateDead ->
  m_DedupID m' = m_DedupID m -> m_Seq m' = m_Seq m -> m_Priority m' = m_Priority m ->
  m_Payload m' = m_Payload m -> m_CreatedAt m' = m_CreatedAt m -> m_Attempts m' = m_Attempts m ->
  m_VisibleAt m' = m_VisibleAt m -> rep_msg m' k.
Proof.
  intros (?&?&?&?&?&?&Hd&Hv) Hl1 Hl2 E1 E2 E3 E4 E5 E6 E7. split_and!; try congruence.
  - rewrite bool_decide_eq_false_2 in * by done. done.
  - intros v Hk. rewrite E7. auto.
Qed.

Lemma routed_live cfg now m : m_state (routed cfg now m) <> stateDead.
Proof. unfold routed. by case_match. Qed.

Lemma rep_msg_routed cfg now m k : rep_msg m k -> m_state m <> stateDead -> rep_msg (routed cfg now m) k.
Proof.
  intros H Hm. apply (rep_msg_live m); [done..|apply routed_live| | | | | | |];
    unfold routed; by case_match.
Qed.

Lemma rep_msg_attempted cfg cfg' now m k :
  same_cfg cfg cfg' -> rep_msg m k -> rep_msg (attempted cfg now m).1 (core_attempted cfg' k).
Proof.
  intros (_&_&_&Hc&_)%same_cfg_fields (?&?&?&?&?&Ha&Hd&Hv). unfold attempted, core_attempted.
  rewrite <- Ha, <- Hc. cbn [m_Attempts set_Attempts].
  destruct (_ >=? _).
  - split_and!; try done.
  - split_and!; unfold routed; simpl; by case_match.
Qed.

Lemma rp_lookup T s c id m :
  represents T s c -> sp_msgs s !! id = Some m -> exists k, k_msgs c !! id = Some k /\ rep_msg m k.
Proof. intros R Hm. pose proof (rp_msgs _ _ _ R id) as H. rewrite Hm in H. inversion H; subst; eauto. Qed.

Lemma rp_lookup_None T s c id :
  represents T s c -> sp_msgs s !! id = None <-> k_msgs c !! id = None.
Proof. intros R. destruct (rp_msgs _ _ _ R id); naive_solver. Qed.

(** A dedup entry that matters is in both. *)
Lemma alive_Some t o e : t < e_ExpiresAt e -> alive t o = Some e <-> o = Some e.
Proof.
  intros Hlt. unfold alive, Before. destruct o as [e'|]; [|done]. destruct (Z.ltb_spec t (e_ExpiresAt e')); [done|].
  split; [done|]. intros [= ->]. lia.
Qed.

Lemma rp_dedup_live T s c d e :
  represents T s c -> T < e_ExpiresAt e -> sp_dedup s !! d = Some e <-> k_dedup c !! d = Some e.
Proof. intros R Hlt. rewrite <- (alive_Some T (sp_dedup s !! d)), <- (alive_Some T (k_dedup c !! d)) by done. by rewrite (rp_dedup _ _ _ R d T) by lia. Qed.

Lemma rp_insert T s c id m k (msgs : gmap string Message) :
  represents T s c -> rep_msg m k ->
  (forall i, i <> id -> msgs !! i = sp_msgs s !! i) -> msgs !! id = Some m ->
  forall i, option_Forall2 rep_msg (msgs !! i) (<[id := k]> (k_msgs c) !! i).
Proof.
  intros R Hm Hne Hid i. destruct (decide (i = id)) as [->|].
  - rewrite Hid, lookup_insert_eq. by constructor.
  - rewrite Hne, lookup_insert_ne by done. apply R.
Qed.

Lemma alive_insert t k e (d1 d2 : gmap string dedupEntry) k' :
  alive t (d1 !! k') = alive t (d2 !! k') ->
  alive t (<[k := e]> d1 !! k') = alive t (<[k := e]> d2 !! k').
Proof.
  intros H. destruct (decide (k' = k)) as [->|]; [by rewrite !lookup_insert_eq|by rewrite !lookup_insert_ne].
Qed.

Lemma represents_enqueue T s c m now :
  represents T s c ->
  match core_enqueue m c with
  | inl c' => (spec_enqueue m now s).2 = None /\ represents T (spec_enqueue m now s).1 c'
  | inr err => spec_enqueue m now s = (s, Some err)
  end.
Proof.
  intros R. unfold core_enqueue, spec_enqueue.
  destruct (k_msgs c !! m_ID m) as [k|] eqn:Hk.
  - destruct (sp_msgs s !! m_ID m) eqn:Hm; [done|].
    apply (rp_lookup_None _ _ _ _ R) in Hm. congruence.
  - rewrite (proj2 (rp_lookup_None _ _ _ _ R)) by done. split; [done|].
    pose proof R as [Hcfg Hmsgs Hdd Hseq]. split; simpl.
    + done.
    + eapply rp_insert; [done| |intros i Hi; by apply lookup_insert_ne|apply lookup_insert_eq].
      pose proof (rep_msg_core m). case_decide; [done|]. by apply rep_msg_routed.
    + intros k t Ht. case_decide; [by apply Hdd|].
      destruct (same_cfg_fields _ _ Hcfg) as (_&_&_&_&_&->&_). by apply alive_insert, Hdd.
    + by rewrite Hseq.
Qed.

Lemma represents_ack T s c id :
  represents T s c ->
  match k_msgs c !! id with
  | Some _ => (spec_ack id s).2 = None /\
      represents T (spec_ack id s).1 (mkCore (k_cfg c) (delete id (k_msgs c)) (k_dedup c) (k_nextSeq c))
  | None => spec_ack id s = (s, Some (EAckUnknown id))
  end.
Proof.
  intros R. unfold spec_ack. destruct (k_msgs c !! id) as [k|] eqn:Hk.
  - destruct (sp_msgs s !! id) eqn:Hm; [|apply (rp_lookup_None _ _ _ _ R) in Hm; congruence].
    split; [done|]. pose proof R as [Hcfg Hmsgs Hdd Hseq]. split; simpl; try done.
    intros i. destruct (decide (i = id)) as [->|]; [rewrite !lookup_delete_eq; constructor|].
    by rewrite !lookup_delete_ne.
  - by rewrite (proj2 (rp_lookup_None _ _ _ _ R)).
Qed.

Lemma represents_attempt T s c id now :
  represents T s c ->
  match k_msgs c !! id with
  | Some k => (spec_attempt id now s).2.2 = None /\ represents T (spec_attempt id now s).1
      (mkCore (k_cfg c) (<[id := core_attempted (k_cfg c) k]> (k_msgs c)) (k_dedup c) (k_nextSeq c))
  | None => spec_attempt id now s = (s, (false, Some (EAttemptUnknown id)))
  end.
Proof.
  intros R. unfold spec_attempt. destruct (k_msgs c !! id) as [k|] eqn:Hk.
  - destruct (sp_msgs s !! id) as [m|] eqn:Hm; [|apply (rp_lookup_None _ _ _ _ R) in Hm; congruence].
    pose proof R as [Hcfg Hmsgs Hdd Hseq].
    assert (rep_msg m k) as Hrep by (specialize (Hmsgs id); rewrite Hm, Hk in Hmsgs; by inversion Hmsgs).
    pose proof (rep_msg_attempted _ _ now m k Hcfg Hrep) as Hatt.
    destruct (attempted (sp_cfg s) now m) as [m' dead]. split; [done|].
    split; simpl; try done.
    eapply rp_insert; [done|exact Hatt|intros i Hi; by apply lookup_insert_ne|apply lookup_insert_eq].
  - by rewrite (proj2 (rp_lookup_None _ _ _ _ R)).
Qed.

(** A record does to a state what it does to its core, at any time. *)
Lemma represents_apply decodeConfig T s c rec now :
  represents T s c ->
  match core_apply decodeConfig (r_Type rec, r_Payload rec) c with
  | inl c' => (spec_apply decodeConfig rec now s).2 = None /\
              represents T (spec_apply decodeConfig rec now s).1 c'
  | inr err => spec_apply decodeConfig rec now s = (s, Some err)
  end.
Proof.
  intros R. pose proof R as [Hcfg Hmsgs Hdd Hseq]. unfold core_apply, spec_apply.
  case_decide; [|case_decide; [|case_decide; [|case_decide; [|case_decide]]]].
  - destruct (decodeConfig _) as [cfg|err]; [|done].
    destruct (Validate cfg) as [cfg' [err|]]; [done|]. split; [done|]. split; simpl; try done. by rewrite Hseq.
  - destruct (decodeMessage _) as [m|err]; [|done]. by apply represents_enqueue.
  - pose proof (represents_ack T s c (string_of_bytes (r_Payload rec)) R) as H'. by case_match.
  - pose proof (represents_attempt T s c (string_of_bytes (r_Payload rec)) now R) as H'.
    case_match; destruct (spec_attempt _ now s) as [s' [b err]]; simpl in *; [done|]. by simplify_eq.
  - destruct (decodeDedup _) as [e|err]; [|done]. split; [done|]. split; simpl; try done.
    intros k t Ht. by apply alive_insert, Hdd.
  - done.
Qed.

(** ** Transitions that write no record *)

(** A change of every message that keeps what the core says of it. *)
Lemma represents_fmap T s c f :
  (forall m k, rep_msg m k -> rep_msg (f m) k) ->
  represents T s c -> represents T (sp_with (f <$> sp_msgs s) s) c.
Proof.
  intros Hf [Hcfg Hmsgs Hdd Hseq]. split; simpl; try done.
  intros id. rewrite lookup_fmap. destruct (Hmsgs id); constructor. by apply Hf.
Qed.

Lemma represents_promote T s c now : represents T s c -> represents T (spec_promote now s) c.
Proof.
  apply represents_fmap. intros m k Hm. unfold promoted. case_decide as Hst; [|done].
  apply rep_msg_routed; [done|]. by rewrite Hst.
Qed.

Lemma represents_age T s c now : represents T s c -> represents T (spec_age now s) c.
Proof.
  apply represents_fmap. intros m k Hm. unfold aged. case_decide as Hst; [|done].
  apply (rep_msg_live m); try done; simpl; by rewrite Hst.
Qed.

Lemma represents_leased T s c deadline m :
  sp_msgs s !! m_ID m = Some m -> m_state m = stateReady ->
  represents T s c -> represents T (sp_set (m_ID m) (leased deadline m) s) c.
Proof.
  intros Hm Hst R. pose proof R as [Hcfg Hmsgs Hdd Hseq]. split; simpl; try done.
  intros id. destruct (decide (id = m_ID m)) as [->|]; [|by rewrite lookup_insert_ne].
  rewrite lookup_insert_eq. destruct (rp_lookup _ _ _ _ _ R Hm) as (k & -> & Hk). constructor.
  apply (rep_msg_live m); try done; by rewrite Hst.
Qed.

(** Dropping dedup entries that have expired. *)
Lemma represents_purge T s c now d :
  (forall k, d !! k = alive now (sp_dedup s !! k)) ->
  represents T s c ->
  represents (Z.max T now) (mkSpec (sp_cfg s) (sp_msgs s) d (sp_nextSeq s)) c.
Proof.
  intros Hd [Hcfg Hmsgs Hdd Hseq]. split; simpl; try done.
  intros k t Ht. rewrite <- Hdd by lia. rewrite Hd. unfold alive, Before.
  destruct (sp_dedup s !! k) as [e|]; [|done]. destruct (Z.ltb_spec now (e_ExpiresAt e)); [done|].
  rewrite (proj2 (Z.ltb_ge _ _)) by lia. done.
Qed.

Lemma represents_later T T' s c : T <= T' -> represents T s c -> represents T' s c.
Proof. intros HT [Hcfg Hmsgs Hdd Hseq]. split; try done. intros k t Ht. apply Hdd. lia. Qed.

Lemma represents_init T : represents T (abs newIndex) core0.
Proof. split; try done. intros id. unfold abs, msgs. simpl. rewrite lookup_omap, !lookup_empty. constructor. Qed.

(** ** Well-formed cores *)

(** The fields of a message fit what they are stored in. *)
Record stored (cfg : Config) (id : string) (k : CoreMsg) : Prop := {
  st_id : short16 id /\ id <> "";
  st_dedup : short16 (k_DedupID k);
  st_seq : 0 <= k_Seq k;
  st_priority : in_int64 (k_Priority k);
  st_created : in_int64 (k_CreatedAt k);
  st_payload : Z.of_nat (length (k_Payload k)) <= 2 ^ 20;
  st_attempts : 0 <= k_Attempts k <= c_MaxAttempts cfg;
  st_window : k_DedupID k <> "" -> in_int64 (Add (k_CreatedAt k) (dedupWindow cfg));
}.

(** The dedup entry [applyEnqueue] makes for a message. *)
Definition entryOf (cfg : Config) (id : string) (k : CoreMsg) : dedupEntry :=
  mkDedup (k_DedupID k) id (Add (k_CreatedAt k) (dedupWindow cfg)).

(** What holds of the cores of logs a queue wrote.  Sequence numbers are unique
    and below the counter; a message is dead exactly when its attempts are used
    up; a dedup entry that matters after [T] and whose message is there is that
    message's, and the message the last one with its dedup id; and a message with
    a dedup id has its entry, or one at least as late, unless it has expired. *)
Record core_wf (T : Time) (c : Core) : Prop := {
  cw_cfg : config_ok (k_cfg c) /\ config_typed (k_cfg c) /\ c_MaxAttempts (k_cfg c) < 2 ^ 32;
  cw_next : 1 <= k_nextSeq c < 2 ^ 64;
  cw_stored id k : k_msgs c !! id = Some k -> stored (k_cfg c) id k;
  cw_seq id k : k_msgs c !! id = Some k -> k_Seq k < k_nextSeq c;
  cw_inj id id' k k' : k_msgs c !! id = Some k -> k_msgs c !! id' = Some k' -> k_Seq k = k_Seq k' -> id = id';
  cw_dead id k : k_msgs c !! id = Some k -> k_dead k = true <-> c_MaxAttempts (k_cfg c) <= k_Attempts k;
  cw_dedup d e : k_dedup c !! d = Some e -> e_DedupID e = d /\ d <> "" /\ dedup_encodable e;
  cw_own d e k : k_dedup c !! d = Some e -> T < e_ExpiresAt e -> k_msgs c !! e_MessageID e = Some k ->
    e = entryOf (k_cfg c) (e_MessageID e) k /\
    forall id' k', k_msgs c !! id' = Some k' -> k_DedupID k' = d -> k_Seq k' <= k_Seq k;
  cw_live id k : k_msgs c !! id = Some k -> k_DedupID k <> "" ->
    exists e, k_dedup c !! k_DedupID k = Some e /\
      (e = entryOf (k_cfg c) id k \/ e_ExpiresAt (entryOf (k_cfg c) id k) <= Z.max T (e_ExpiresAt e));
}.

Lemma core_wf_later T T' c : T <= T' -> core_wf T c -> core_wf T' c.
Proof.
  intros HT [H1 H2 H3 H4 H5 H6 H7 H8 H9]. split; try done.
  - intros d e k Hd Hlt. apply H8; [done|lia].
  - intros id k Hk Hne. destruct (H9 id k Hk Hne) as (e & He & [?|?]); exists e; (split; [done|]); [by left|right; lia].
Qed.

Lemma core_wf_empty T cfg n :
  config_ok cfg -> config_typed cfg -> c_MaxAttempts cfg < 2 ^ 32 -> 1 <= n < 2 ^ 64 ->
  core_wf T (mkCore cfg ∅ ∅ n).
Proof.
  intros Hok Hty Hmax Hn.
  assert (forall id k, (∅ : gmap string CoreMsg) !! id = Some k -> False) as H1
    by (intros id k Hk; by rewrite lookup_empty in Hk).
  assert (forall d e, (∅ : gmap string dedupEntry) !! d = Some e -> False) as H2
    by (intros d e Hd; by rewrite lookup_empty in Hd).
  split; simpl; [by split_and!|done|..]; intros; exfalso; eauto.
Qed.

Lemma core_wf_ack T id c :
  core_wf T c -> core_wf T (mkCore (k_cfg c) (delete id (k_msgs c)) (k_dedup c) (k_nextSeq c)).
Proof.
  intros [H1 H2 H3 H4 H5 H6 H7 H8 H9]. split; simpl; [done|done|..|done| |].
  - intros i k [_ Hk]%lookup_delete_Some. eauto.
  - intros i k [_ Hk]%lookup_delete_Some. eauto.
  - intros i i' k k' [_ Hk]%lookup_delete_Some [_ Hk']%lookup_delete_Some. eauto.
  - intros i k [_ Hk]%lookup_delete_Some. eauto.
  - intros d e k Hd Hlt [_ Hk]%lookup_delete_Some. destruct (H8 d e k Hd Hlt Hk) as [? Hs].
    split; [done|]. intros i k' [_ Hk']%lookup_delete_Some. eauto.
  - intros i k [_ Hk]%lookup_delete_Some. eauto.
Qed.

Lemma core_wf_attempt T id k c :
  core_wf T c -> k_msgs c !! id = Some k -> k_dead k = false ->
  core_wf T (mkCore (k_cfg c) (<[id := core_attempted (k_cfg c) k]> (k_msgs c)) (k_dedup c) (k_nextSeq c)).
Proof.
  intros [H1 H2 H3 H4 H5 H6 H7 H8 H9] Hk Hlive.
  assert (k_Attempts k < c_MaxAttempts (k_cfg c)) as Hlt.
  { pose proof (H6 id k Hk). destruct (Z.le_gt_cases (c_MaxAttempts (k_cfg c)) (k_Attempts k)); [|lia]. intuition congruence. }
  assert (int64 (k_Attempts k + 1) = k_Attempts k + 1) as Hint.
  { apply int64_small. pose proof (st_attempts _ _ _ (H3 _ _ Hk)). destruct H1 as (_ & _ & ?). unfold in_int64. lia. }
  assert (forall i k', <[id := core_attempted (k_cfg c) k]> (k_msgs c) !! i = Some k' ->
    exists k0, k_msgs c !! i = Some k0 /\ k_Seq k' = k_Seq k0 /\ k_DedupID k' = k_DedupID k0 /\
      entryOf (k_cfg c) i k' = entryOf (k_cfg c) i k0) as Hold.
  { intros i k' [[<- <-]|[_ Hk']]%lookup_insert_Some; eauto. }
  split; simpl; [done|done|..|done| |].
  - intros i k' [[<- <-]|[_ Hk']]%lookup_insert_Some; [|eauto].
    destruct (H3 _ _ Hk). split; simpl; try done. rewrite Hint. lia.
  - intros i k' (k0 & Hk0 & -> & _)%Hold. eauto.
  - intros i i' k1 k2 (k1' & ? & -> & _)%Hold (k2' & ? & -> & _)%Hold. eauto.
  - intros i k' [[<- <-]|[_ Hk']]%lookup_insert_Some; [|eauto].
    unfold core_attempted. simpl. rewrite Z.geb_leb, Z.leb_le. done.
  - intros d e k' Hd Hexp (k0 & Hk0 & Es & _ & Ee)%Hold. destruct (H8 d e k0 Hd Hexp Hk0) as [-> Hs].
    cbn [e_MessageID entryOf] in *. rewrite Ee. split; [done|]. intros i' k2 (k2' & Hk2 & -> & -> & _)%Hold. rewrite Es. eauto.
  - intros i k' (k0 & Hk0 & _ & -> & Ee)%Hold Hne. destruct (H9 i k0 Hk0 Hne) as (e & He & Hor).
    exists e. split; [done|]. change (Add (k_CreatedAt k') _) with (e_ExpiresAt (entryOf (k_cfg c) i k')). by rewrite Ee.
Qed.

(** A new message: the next sequence number, no attempts, an id no message and no
    dedup entry that matters has, and a dedup id whose entry no longer matters. *)
Lemma core_wf_enqueue T T' m c c' :
  core_wf T c -> T <= T' -> core_enqueue m c = inl c' ->
  m_Seq m = k_nextSeq c -> k_nextSeq c + 1 < 2 ^ 64 -> m_Attempts m = 0 -> m_state m <> stateDead ->
  encodable m -> Z.of_nat (length (m_Payload m)) <= 2 ^ 20 ->
  in_int64 (Add (m_CreatedAt m) (dedupWindow (k_cfg c))) ->
  (forall d e, k_dedup c !! d = Some e -> T < e_ExpiresAt e -> e_MessageID e <> m_ID m) ->
  (forall e, m_DedupID m <> "" -> k_dedup c !! m_DedupID m = Some e -> e_ExpiresAt e <= T') ->
  core_wf T' c'.
Proof.
  intros [H1 H2 H3 H4 H5 H6 H7 H8 H9] HT E Hm Hlt Ha Hst Henc Hpay Hwin Hfresh Hdup. unfold core_enqueue in E.
  destruct (k_msgs c !! m_ID m) eqn:Hnone; [done|]. injection E as <-.
  assert ((if m_Seq m >=? k_nextSeq c then uint64 (m_Seq m + 1) else k_nextSeq c) = k_nextSeq c + 1) as ->.
  { rewrite Z.geb_leb, (proj2 (Z.leb_le _ _)), Hm by lia. unfold uint64. apply uint_small. unfold in_uint. lia. }
  pose proof Henc as [Es Ep Ev Ec Ea Ei Ed _].
  assert (forall d e, (if decide (m_DedupID m = "") then k_dedup c
     else <[m_DedupID m := mkDedup (m_DedupID m) (m_ID m) (Add (m_CreatedAt m) (dedupWindow (k_cfg c)))]> (k_dedup c)) !! d
     = Some e -> (d = m_DedupID m /\ d <> "" /\ e = entryOf (k_cfg c) (m_ID m) (core_msg m)) \/
        (k_dedup c !! d = Some e /\ (d = m_DedupID m -> d = ""))) as Hdd.
  { intros d e. case_decide; [right; split; congruence|]. intros [[<- <-]|[? ?]]%lookup_insert_Some; [by left|right]. split; [done|congruence]. }
  split; simpl; [done|lia|..].
  - intros i k [[<- <-]|[_ Hk]]%lookup_insert_Some; [|eauto]. split; simpl; try done; [unfold in_uint in *; lia|].
    rewrite Ha. pose proof (ok_attempts _ (proj1 H1)). lia.
  - intros i k [[<- <-]|[_ Hk]]%lookup_insert_Some; simpl; [lia|]. specialize (H4 _ _ Hk). lia.
  - intros i i' k k' [[<- <-]|[_ Hk]]%lookup_insert_Some [[<- <-]|[_ Hk']]%lookup_insert_Some; simpl; [done|..|eauto].
    + specialize (H4 _ _ Hk'). lia.
    + specialize (H4 _ _ Hk). lia.
  - intros i k [[<- <-]|[_ Hk]]%lookup_insert_Some; [|eauto]. simpl. rewrite bool_decide_eq_true, Ha.
    pose proof (ok_attempts _ (proj1 H1)). split; [done|lia].
  - intros d e [(-> & ? & ->)|[Hd _]]%Hdd; [|eauto]. split_and!; [done..|]. split; simpl; [done|apply Ei|done].
  - intros d e k [(-> & Hne & ->)|[Hd Hdm]]%Hdd Hexp.
    + cbn [entryOf e_MessageID]. intros [[_ <-]|[? _]]%lookup_insert_Some; [|done]. split; [done|].
      intros i k' [[_ <-]|[_ Hk']]%lookup_insert_Some _; [done|]. specialize (H4 _ _ Hk'). simpl. lia.
    + assert (T < e_ExpiresAt e) as Hexp' by lia.
      intros [[E _]|[_ Hk]]%lookup_insert_Some; [by destruct (Hfresh d e Hd Hexp')|].
      destruct (H8 d e k Hd Hexp' Hk) as [Ee Hs]. split; [done|].
      intros i k' [[_ <-]|[_ Hk']]%lookup_insert_Some Edd; [|eauto]. simpl in Edd. destruct (H7 d e Hd) as (_ & Hne & _).
      destruct Hne. by apply Hdm.
  - intros i k [[<- <-]|[Hne Hk]]%lookup_insert_Some Hdid; simpl in *.
    + rewrite decide_False, lookup_insert_eq by done. eexists. split; [done|by left].
    + destruct (H9 i k Hk Hdid) as (e & He & Hor).
      destruct (decide (k_DedupID k = m_DedupID m)) as [Edd|Edd].
      * rewrite Edd, decide_False, lookup_insert_eq by congruence. eexists. split; [done|right]. simpl.
        rewrite Edd in He. pose proof (Hdup e ltac:(congruence) He) as Hdup'.
        destruct Hor as [->|Hor]; simpl in *; lia.
      * exists e. split; [case_decide; [done|by rewrite lookup_insert_ne]|]. destruct Hor as [->|Hor]; [by left|right; lia].
Qed.
