(* ===== verification/Log.v ===== *)
(** * Group commit ([internal/wal/log.go])

    The log as a state machine: the fields its mutex guards, the two channels,
    the flusher goroutine with its program counter, and the file.  A method that
    does not block is a function on this state; [Wait] and [Sync] block until
    their loop condition says otherwise, so each is a function from the state to
    the result it returns there, if it returns.  The ghost field [lg_hist] lists
    what was appended since the file last began, with the batch of each record;
    no definition of the code reads it. *)

From Stdlib Require Import ZArith Lia.
From S2P Require Import Prelude GoInt Errors WalRecord Replay.

(** ** The file *)

(** What is on disk for certain, and what was written after it but not synced. *)
Record Disk := mkDisk { d_synced : list byte; d_cached : list byte }.

(** [os.File.Size] *)
Definition disk_bytes (d : Disk) : list byte := d_synced d ++ d_cached d.

(** What a crash can leave: everything synced and some prefix of the rest. *)
Definition crash_image (d : Disk) (img : list byte) : Prop :=
  exists k, img = d_synced d ++ take k (d_cached d).

(** How a [Write] followed by a [Sync] ends: [n] bytes written before an error. *)
Inductive WriteSync :=
  | WSynced
  | WWriteErr (n : nat) (e : Err)
  | WSyncErr (e : Err).

(** ** State *)

(** [type Stats struct], without the fields [Stats()] fills in. *)
Record LogStats := mkLogStats {
  st_Records : Z;
  st_Batches : Z;
  st_Bytes : Z;
  st_LastBatch : Z;
  st_MaxBatch : Z;
  st_LastSync : Duration;
  st_TotalSync : Duration;
}.

(** Where the flusher is: at its [select], past it and about to lock the mutex
    in [flushOnce], in [writeSync] with the batch it took, or returned.  [final]
    is the drain after [done] was closed. *)
Inductive Flusher :=
  | AtSelect
  | Woken (final : bool)
  | Writing (final : bool) (data : list byte) (records batch : Z)
  | Returned.

Record Log := mkLog {
  lg_buf : list byte;
  lg_pending : Z;
  lg_nextSeq : Z;
  lg_flushed : Z;
  lg_fatal : option Err;
  lg_fatalSeq : Z;
  lg_closed : bool;
  lg_size : Z;
  lg_signal : bool;      (* the channel of capacity 1 holds a token *)
  lg_done : bool;        (* [done] is closed *)
  lg_stats : LogStats;
  lg_flusher : Flusher;
  lg_disk : Disk;
  lg_base : list byte;               (* ghost: the file when it was opened *)
  lg_hist : list (Z * Entry);        (* ghost: batch and record, oldest first *)
}.

Definition with_buf buf pending hist (l : Log) : Log :=
  mkLog buf pending (lg_nextSeq l) (lg_flushed l) (lg_fatal l) (lg_fatalSeq l) (lg_closed l)
    (lg_size l) (lg_signal l) (lg_done l) (lg_stats l) (lg_flusher l) (lg_disk l) (lg_base l) hist.
Definition with_signal b (l : Log) : Log :=
  mkLog (lg_buf l) (lg_pending l) (lg_nextSeq l) (lg_flushed l) (lg_fatal l) (lg_fatalSeq l)
    (lg_closed l) (lg_size l) b (lg_done l) (lg_stats l) (lg_flusher l) (lg_disk l) (lg_base l) (lg_hist l).
Definition with_flusher f (l : Log) : Log :=
  mkLog (lg_buf l) (lg_pending l) (lg_nextSeq l) (lg_flushed l) (lg_fatal l) (lg_fatalSeq l)
    (lg_closed l) (lg_size l) (lg_signal l) (lg_done l) (lg_stats l) f (lg_disk l) (lg_base l) (lg_hist l).
Definition with_closed c d (l : Log) : Log :=
  mkLog (lg_buf l) (lg_pending l) (lg_nextSeq l) (lg_flushed l) (lg_fatal l) (lg_fatalSeq l)
    c (lg_size l) (lg_signal l) d (lg_stats l) (lg_flusher l) (lg_disk l) (lg_base l) (lg_hist l).
Definition with_fatal e n (l : Log) : Log :=
  mkLog (lg_buf l) (lg_pending l) (lg_nextSeq l) (lg_flushed l) e n (lg_closed l)
    (lg_size l) (lg_signal l) (lg_done l) (lg_stats l) (lg_flusher l) (lg_disk l) (lg_base l) (lg_hist l).

Definition zeroStats : LogStats := mkLogStats 0 0 0 0 0 0 0.

(** ** Open *)

(** [f.Truncate(size)]: cut, or pad with zeros. *)
Definition truncate (size : nat) (b : list byte) : list byte :=
  take size b ++ replicate (size - length b) x00.

(** What each system call of [Open] returned. *)
Record OpenIO := mkOpenIO {
  io_MkdirAll : option Err;
  io_OpenFile : option Err;
  io_Stat : option Err;
  io_Truncate : option Err;
  io_Sync : option Err;
  io_syncDir : option Err;
}.

Definition newLog (size : Z) (d : Disk) : Log :=
  mkLog [] 0 1 0 None 0 false size false false zeroStats AtSelect d (disk_bytes d) [].

(** [Open], on a file that holds [d] (nothing, if it does not exist): the file
    afterwards, and the log or the error. *)
Definition Open (io : OpenIO) (d : Disk) (size : Z) : Disk * (Log + Err) :=
  match io_MkdirAll io with Some err => (d, inr err) | None =>
  match io_OpenFile io with Some err => (d, inr err) | None =>
  match io_Stat io with Some err => (d, inr err) | None =>
  let finish d :=
    match io_syncDir io with
    | Some err => (d, inr err)
    | None => (d, inl (newLog size d))
    end in
  if negb (Z.of_nat (length (disk_bytes d)) =? size) then
    match io_Truncate io with
    | Some err => (d, inr (EWrapped "wal: truncating" err))
    | None =>
      let d' := truncate (Z.to_nat size) (disk_bytes d) in
      match io_Sync io with
      | Some err => (mkDisk (take (length d') (d_synced d)) (drop (length (d_synced d)) d'), inr err)
      | None => finish (mkDisk d' [])
      end
    end
  else finish d
  end end end.

(** ** Append *)

(** A send on the buffered channel never blocks and never overfills it. *)
Definition kick (l : Log) : Log := with_signal true l.

Definition Append (t : RecType) (payload : list byte) (l : Log) : Log * (Z + Err) :=
  match lg_fatal l with
  | Some err => (l, inr err)
  | None =>
    if lg_closed l then (l, inr ErrWalClosed)
    else
      let batch := lg_nextSeq l in
      let l := with_buf (Encode (lg_buf l) t payload) (lg_pending l + 1)
                 (lg_hist l ++ [(batch, (t, payload))]) l in
      let l := kick l in
      (l, inl batch)
  end.

(** ** Wait and Sync *)

(** [None]: the loop waits on the condition variable. *)
Definition Wait (batch : Z) (l : Log) : option (option Err) :=
  if (lg_flushed l <? batch) && bool_decide (lg_fatal l = None) then None
  else
    Some (match lg_fatal l with
          | Some err => if lg_fatalSeq l <=? batch then Some err else None
          | None => None
          end).

(** One turn of the loop of [Sync]: it returns, or kicks the flusher and waits. *)
Definition Sync_turn (l : Log) : Log * option (option Err) :=
  match lg_fatal l with
  | Some err => (l, Some (Some err))
  | None =>
    if (length (lg_buf l) =? 0)%nat && (uint64 (lg_flushed l + 1) =? lg_nextSeq l) then (l, Some None)
    else ((if (0 <? length (lg_buf l))%nat then kick l else l), None)
  end.

(** ** The flusher *)

(** The [select], when it can go on: a token is received ([final] false), or
    [done] was found closed. *)
Definition flusher_select (final : bool) (l : Log) : option Log :=
  match lg_flusher l with
  | AtSelect =>
    if final then if lg_done l then Some (with_flusher (Woken true) l) else None
    else if lg_signal l then Some (with_flusher (Woken false) (with_signal false l)) else None
  | _ => None
  end.

(** Back to the [select], or out of the loop. *)
Definition flusher_resume (final : bool) : Flusher := if final then Returned else AtSelect.

(** [flushOnce] up to its first [Unlock]. *)
Definition flushOnce_take (l : Log) : option Log :=
  match lg_flusher l with
  | Woken final =>
    if (length (lg_buf l) =? 0)%nat || negb (bool_decide (lg_fatal l = None)) then
      Some (with_flusher (flusher_resume final) l)
    else
      Some (mkLog [] 0 (uint64 (lg_nextSeq l + 1)) (lg_flushed l) (lg_fatal l) (lg_fatalSeq l)
              (lg_closed l) (lg_size l) (lg_signal l) (lg_done l) (lg_stats l)
              (Writing final (lg_buf l) (lg_pending l) (lg_nextSeq l))
              (lg_disk l) (lg_base l) (lg_hist l))
  | _ => None
  end.

Definition writeSync (data : list byte) (w : WriteSync) (d : Disk) : Disk * option Err :=
  match w with
  | WWriteErr n e => (mkDisk (d_synced d) (d_cached d ++ take n data), Some (EWrapped "wal: write" e))
  | WSyncErr e => (mkDisk (d_synced d) (d_cached d ++ data), Some (EWrapped "wal: fsync" e))
  | WSynced => (mkDisk (disk_bytes d ++ data) [], None)
  end.

(** The rest of [flushOnce]: the write, and the critical section after it. *)
Definition flushOnce_finish (w : WriteSync) (elapsed : Duration) (l : Log) : option Log :=
  match lg_flusher l with
  | Writing final data records batch =>
    let '(d, err) := writeSync data w (lg_disk l) in
    let n := Z.of_nat (length data) in
    let s := lg_stats l in
    let '(fatal, fatalSeq, size, stats) :=
      match err with
      | Some e => (Some e, batch, lg_size l, s)
      | None =>
        (lg_fatal l, lg_fatalSeq l, lg_size l + n,
         mkLogStats (uint64 (st_Records s + records)) (uint64 (st_Batches s + 1)) (st_Bytes s + n)
           records (if records >? st_MaxBatch s then records else st_MaxBatch s)
           elapsed (int64 (st_TotalSync s + elapsed)))
      end in
    Some (mkLog (lg_buf l) (lg_pending l) (lg_nextSeq l) batch fatal fatalSeq (lg_closed l)
            size (lg_signal l) (lg_done l) stats (flusher_resume final) d (lg_base l) (lg_hist l))
  | _ => None
  end.

(** ** Reading *)

Definition Size (l : Log) : Z := lg_size l.

(** [Stats()]: the counters, [SizeBytes] and [PendingBytes]. *)
Definition Stats (l : Log) : LogStats * Z * Z :=
  (lg_stats l, lg_size l, Z.of_nat (length (lg_buf l))).

(** ** Reopen and Close *)

(** [Reopen] after its [Sync] returned nil: [closeErr] and [openErr] are what
    [f.Close] and [os.OpenFile] returned, [d] the file now at the path. *)
Definition Reopen (size : Z) (closeErr openErr : option Err) (d : Disk) (l : Log) : Log * option Err :=
  if lg_closed l then (l, Some ErrWalClosed)
  else
    match closeErr with
    | Some err => (l, Some err)
    | None =>
      match openErr with
      | Some err =>
        let fatal := EWrapped "wal: reopen" err in
        (with_fatal (Some fatal) 0 l, Some fatal)
      | None =>
        (mkLog (lg_buf l) (lg_pending l) (lg_nextSeq l) (lg_flushed l) (lg_fatal l) (lg_fatalSeq l)
           (lg_closed l) size (lg_signal l) (lg_done l) (lg_stats l) (lg_flusher l)
           d (disk_bytes d) [], None)
      end
    end.

(** The first critical section of [Close]; a second call returns nil there. *)
Definition Close_mark (l : Log) : Log * option (option Err) :=
  if lg_closed l then (l, Some None) else (with_closed true (lg_done l) l, None).

(** [close(l.done)] *)
Definition Close_done (l : Log) : Log := with_closed (lg_closed l) true l.

(** What [Close] returns once [l.wg.Wait()] has; [closeErr] is the result of
    [f.Close]. *)
Definition Close_end (closeErr : option Err) (l : Log) : option (option Err) :=
  match lg_flusher l with
  | Returned => Some (match lg_fatal l with Some err => Some err | None => closeErr end)
  | _ => None
  end.
