(* ===== verification/LogInv.v ===== *)
(** * The log's steps and its invariant

    [log_step] interleaves the callers and the flusher in every order the mutex
    and the channels allow, with every outcome of the system calls.  [LogInv]
    says where each record appended so far is: on disk, lost in a failed write,
    in the batch being written or in the buffer. *)

From Stdlib Require Import ZArith Lia.
From S2P Require Import Prelude GoInt Errors WalRecord Replay Log.

(** ** Steps *)

Inductive log_step : Log -> Log -> Prop :=
  | step_Append t payload l l' r :
      entry_ok (t, payload) -> Append t payload l = (l', r) -> log_step l l'
  | step_Sync l : log_step l (Sync_turn l).1
  | step_select final l l' : flusher_select final l = Some l' -> log_step l l'
  | step_take l l' : lg_nextSeq l + 1 < 2 ^ 64 -> flushOnce_take l = Some l' -> log_step l l'
  | step_finish w elapsed l l' : flushOnce_finish w elapsed l = Some l' -> log_step l l'
  (* the caller of Reopen has excluded appends and put a synced file in place *)
  | step_Reopen closeErr openErr d l l' r :
      (Sync_turn l).2 = Some None -> d_cached d = [] ->
      Reopen (Z.of_nat (length (disk_bytes d))) closeErr openErr d l = (l', r) -> log_step l l'
  | step_Close_mark l : log_step l (Close_mark l).1
  | step_Close_done l : lg_closed l = true -> log_step l (Close_done l).

(** A log as [Open] returns it, on a file that is on disk. *)
Definition log_init (l : Log) : Prop :=
  exists file, l = newLog (Z.of_nat (length file)) (mkDisk file []).

Inductive log_reachable : Log -> Prop :=
  | reach_init l : log_init l -> log_reachable l
  | reach_step l l' : log_reachable l -> log_step l l' -> log_reachable l'.

(** ** The invariant *)

Notation History := (list (Z * Entry)) (only parsing).

Definition bytes_of (h : History) : list byte := encode_all (h.*2).

Lemma bytes_of_app h1 h2 : bytes_of (h1 ++ h2) = bytes_of h1 ++ bytes_of h2.
Proof. unfold bytes_of. by rewrite fmap_app, encode_all_app. Qed.

Lemma bytes_of_snoc h b t payload : bytes_of (h ++ [(b, (t, payload))]) = Encode (bytes_of h) t payload.
Proof.
  rewrite bytes_of_app. unfold bytes_of at 2, encode_all, encode_entry, Encode.
  cbn [fmap list_fmap map concat fst snd]. rewrite app_nil_l, app_nil_r. apply app_assoc.
Qed.

(** The batch the flusher took, if it is writing one. *)
Definition writing (f : Flusher) : option (list byte * Z * Z) :=
  match f with Writing _ data records batch => Some (data, records, batch) | _ => None end.

Definition is_final (f : Flusher) : bool :=
  match f with Woken b | Writing b _ _ _ => b | Returned => true | AtSelect => false end.

Definition in_batch (b : Z) (h : History) : Prop := Forall (fun e => e.1 = b) h.

(** [hist] is what is on disk ([good]), what a failed write lost ([bad]), what
    is being written ([wr]) and what is buffered ([bf]). *)
Record LogParts (good bad wr bf : History) (l : Log) : Prop := {
  lp_hist : lg_hist l = good ++ bad ++ wr ++ bf;
  lp_good : Forall (fun e => e.1 <= lg_flushed l) good;
  lp_bad : Forall (fun e => lg_fatalSeq l <= e.1) bad;
  lp_bad_fatal : bad <> [] -> lg_fatal l <> None;
  lp_synced : d_synced (lg_disk l) = lg_base l ++ bytes_of good;
  lp_cached : exists k, d_cached (lg_disk l) = take k (bytes_of bad);
  lp_bf : lg_buf l = bytes_of bf /\ lg_pending l = Z.of_nat (length bf) /\ in_batch (lg_nextSeq l) bf;
  lp_wr : match writing (lg_flusher l) with
          | Some (data, records, batch) =>
              data = bytes_of wr /\ records = Z.of_nat (length wr) /\ in_batch batch wr /\
              batch = lg_flushed l + 1 /\ lg_nextSeq l = lg_flushed l + 2 /\ lg_fatal l = None
          | None => wr = [] /\ lg_nextSeq l = lg_flushed l + 1
          end;
}.

Record LogInv (l : Log) : Prop := {
  li_parts : exists good bad wr bf, LogParts good bad wr bf l;
  li_ok : Forall (fun e => entry_ok e.2) (lg_hist l);
  li_size : lg_size l = Z.of_nat (length (d_synced (lg_disk l)));
  li_seq : 0 <= lg_flushed l /\ lg_nextSeq l < 2 ^ 64;
  (* no wakeup is lost *)
  li_wakeup : lg_buf l <> [] -> lg_fatal l = None ->
    lg_signal l = true \/ exists f, lg_flusher l = Woken f;
  li_final : is_final (lg_flusher l) = true -> lg_done l = true;
  li_done : lg_done l = true -> lg_closed l = true;
  (* the final drain leaves nothing behind *)
  li_drained : is_final (lg_flusher l) = true -> lg_flusher l <> Woken true ->
    lg_buf l = [] \/ lg_fatal l <> None;
  li_fatalSeq : lg_fatal l <> None -> lg_fatalSeq l <= lg_flushed l;
  li_fatal : lg_fatal l = None -> d_cached (lg_disk l) = [];
}.

Lemma length_bytes_of_0 h : length (bytes_of h) = 0%nat -> h = [].
Proof.
  destruct h as [|e h]; [done|]. unfold bytes_of. cbn [fmap list_fmap].
  rewrite encode_all_cons, length_app, length_encode_entry. unfold EncodedLen, HeaderSize. lia.
Qed.

Lemma newLog_inv l : log_init l -> LogInv l.
Proof.
  intros [file ->]. split; simpl; try done.
  - exists [], [], [], []. split; simpl; try done.
    + unfold disk_bytes. simpl. by rewrite !app_nil_r.
    + by exists 0%nat.
    + by split_and!; [| |apply Forall_nil_2].
Qed.

Lemma Append_inv t payload l l' r :
  entry_ok (t, payload) -> Append t payload l = (l', r) -> LogInv l -> LogInv l'.
Proof.
  intros Hok HA HI. unfold Append in HA. destruct (lg_fatal l) eqn:Hf; [by simplify_eq|].
  destruct (lg_closed l) eqn:Hc; [by simplify_eq|]. injection HA as <- <-.
  pose proof HI as [(good & bad & wr & bf & HP) Hoks Hsz Hseq Hw Hfin Hdone Hdr Hfs Hft].
  split; simpl; try done.
  - exists good, bad, wr, (bf ++ [(lg_nextSeq l, (t, payload))]).
    destruct HP as [Hh Hg Hb Hbf Hs Hca (Hbuf & Hp & Hin) Hwr]. split; simpl; try done.
    + rewrite Hh. by rewrite <- !app_assoc.
    + split_and!.
      * by rewrite bytes_of_snoc, Hbuf.
      * rewrite length_app, Hp. simpl. lia.
      * apply Forall_app. split; [done|]. by apply Forall_singleton.
  - apply Forall_app. split; [done|]. by apply Forall_singleton.
  - auto.
  - intros Hf1 _. specialize (Hdone (Hfin Hf1)). congruence.
Qed.

Lemma with_signal_inv l : LogInv l -> LogInv (with_signal true l).
Proof.
  intros [(good & bad & wr & bf & HP) Hoks Hsz Hseq Hw Hfin Hdone Hdr Hfs Hft]. split; simpl; auto.
  exists good, bad, wr, bf. by destruct HP; split.
Qed.

Lemma Sync_turn_inv l : LogInv l -> LogInv (Sync_turn l).1.
Proof.
  intros HI. unfold Sync_turn. repeat case_match; simpl; try done. by apply with_signal_inv.
Qed.

Lemma flusher_select_inv final l l' : flusher_select final l = Some l' -> LogInv l -> LogInv l'.
Proof.
  unfold flusher_select. destruct (lg_flusher l) eqn:Hfl; try done. intros HS.
  intros [(good & bad & wr & bf & HP) Hoks Hsz Hseq Hw Hfin Hdone Hdr Hfs Hft].
  assert (exists b, l' = with_flusher (Woken final) (with_signal b l) /\ (final = true -> lg_done l = true))
    as (b & -> & Hd).
  { destruct final.
    - destruct (lg_done l) eqn:?; [|done]. injection HS as <-. exists (lg_signal l). by destruct l.
    - destruct (lg_signal l); [|done]. injection HS as <-. by exists false. }
  split; simpl; try done.
  - exists good, bad, wr, bf. destruct HP as [Hh Hg Hb Hbf Hs Hca Hbuf Hwr]. split; try done.
    simpl. by rewrite Hfl in Hwr.
  - intros _ _. right. by exists final.
  - intros ->. by intros [].
Qed.

Lemma flushOnce_take_inv l l' :
  lg_nextSeq l + 1 < 2 ^ 64 \/ lg_buf l = [] -> flushOnce_take l = Some l' -> LogInv l -> LogInv l'.
Proof.
  intros Hlt HT HI. unfold flushOnce_take in HT. destruct (lg_flusher l) as [|final| |] eqn:Hfl; try done.
  pose proof HI as [(good & bad & wr & bf & HP) Hoks Hsz Hseq Hw Hfin Hdone Hdr Hfs Hft].
  pose proof HP as [Hh Hg Hb Hbf Hs Hca (Hbuf & Hp & Hin) Hwr].
  rewrite Hfl in Hwr. simpl in Hwr. destruct Hwr as [-> Hn].
  destruct ((length (lg_buf l) =? 0)%nat || negb (bool_decide (lg_fatal l = None))) eqn:Hcond;
    injection HT as <-.
  - assert (lg_buf l = [] \/ lg_fatal l <> None) as Hnone.
    { apply orb_true_iff in Hcond as [Hc|Hc]; bool_prop; [left; by apply nil_length_inv|by right]. }
    split; simpl; try done.
    + exists good, bad, [], bf. split; try done. simpl. by destruct final.
    + intros ? ?. destruct Hnone; congruence.
    + destruct final; [|done]. intros _. apply Hfin. by rewrite Hfl.
  - bool_prop. destruct Hlt as [Hlt|E]; [|by rewrite E in *].
    unfold uint64. rewrite uint_small by (unfold in_uint; lia).
    assert (bad = []) as -> by (destruct bad; [done|]; exfalso; by apply Hbf).
    split; simpl; try done.
    + exists good, [], bf, []. split; simpl; try done.
      * by rewrite app_nil_r.
      * by split_and!; [| |apply Forall_nil_2].
      * split_and!; try done; lia.
    + lia.
    + intros Hf1. apply Hfin. by rewrite Hfl.
    + by left.
Qed.

(** A write and sync either extends what is on disk by the data, or leaves it
    with some of the data cached. *)
Lemma writeSync_cases data w d :
  d_cached d = [] ->
  writeSync data w d = (mkDisk (d_synced d ++ data) [], None) \/
  exists k e, writeSync data w d = (mkDisk (d_synced d) (take k data), Some e).
Proof.
  destruct d as [s c]. simpl. intros ->. destruct w as [|n e|e]; simpl.
  - left. unfold disk_bytes. simpl. by rewrite app_nil_r.
  - right. by exists n, (EWrapped "wal: write" e).
  - right. exists (length data), (EWrapped "wal: fsync" e). by rewrite take_ge.
Qed.

Lemma is_final_resume final : is_final (flusher_resume final) = final.
Proof. by destruct final. Qed.

Lemma writing_resume final : writing (flusher_resume final) = None.
Proof. by destruct final. Qed.

Lemma flushOnce_finish_inv w elapsed l l' :
  flushOnce_finish w elapsed l = Some l' -> LogInv l -> LogInv l'.
Proof.
  intros HT HI. unfold flushOnce_finish in HT.
  destruct (lg_flusher l) as [| |final data records batch|] eqn:Hfl; try done.
  pose proof HI as [(good & bad & wr & bf & HP) Hoks Hsz Hseq Hw Hfin Hdone Hdr Hfs Hft].
  pose proof HP as [Hh Hg Hb Hbf Hs Hca (Hbuf & Hp & Hin) Hwr].
  rewrite Hfl in *. simpl in Hwr, Hfin, Hdr. destruct Hwr as (-> & -> & Hbatch & -> & Hn & Hnf).
  assert (bad = []) as -> by (destruct bad; [done|]; exfalso; by apply Hbf).
  assert (lg_buf l <> [] -> lg_signal l = true) as Hsig.
  { intros Hne. destruct (Hw Hne Hnf) as [?|[? ?]]; done. }
  assert (final = true -> lg_buf l = []) as Hdr'.
  { intros Hfi. destruct (Hdr Hfi) as [|]; done. }
  destruct (writeSync_cases (bytes_of wr) w (lg_disk l) (Hft Hnf)) as [E|(k & e & E)];
    rewrite E in HT; injection HT as <-; split; simpl; rewrite ?is_final_resume; try done; try lia; eauto.
  - exists (good ++ wr), [], [], bf. split; simpl; try done.
    + by rewrite Hh, <- !app_assoc.
    + apply Forall_app. split; (eapply Forall_impl; [done|]); intros x Hx; simpl in Hx; lia.
    + by rewrite Hs, bytes_of_app, <- app_assoc.
    + by exists 0%nat.
    + rewrite writing_resume. split; [done|lia].
  - rewrite length_app. lia.
  - exists good, wr, [], bf. split; simpl; try done.
    + eapply Forall_impl; [exact Hg|]. intros x Hx. simpl in Hx. lia.
    + eapply Forall_impl; [exact Hbatch|]. intros x Hx. simpl in Hx. lia.
    + by exists k.
    + rewrite writing_resume. split; [done|lia].
Qed.

(** [Sync] returns nil only when nothing is buffered or being written. *)
Lemma Sync_turn_idle good bad wr bf l :
  LogParts good bad wr bf l -> lg_nextSeq l < 2 ^ 64 -> 0 <= lg_flushed l -> (Sync_turn l).2 = Some None ->
  lg_fatal l = None /\ bf = [] /\ wr = [] /\ bad = [] /\ writing (lg_flusher l) = None.
Proof.
  intros [Hh Hg Hb Hbf Hs Hca (Hbuf & Hp & Hin) Hwr] Hlt H0 HS. unfold Sync_turn in HS.
  destruct (lg_fatal l) eqn:Hf; [done|].
  destruct (_ && _) eqn:Hc in HS; [|done]. bool_prop.
  match goal with H : length (lg_buf l) = 0%nat |- _ => rewrite Hbuf in H; apply length_bytes_of_0 in H end.
  assert (bad = []) as -> by (destruct bad; [done|]; exfalso; by apply Hbf).
  destruct (writing (lg_flusher l)) as [[[data records] batch]|] eqn:Hw.
  - destruct Hwr as (_ & _ & _ & -> & Hn & _). exfalso.
    match goal with H : uint64 _ = _ |- _ => unfold uint64 in H; rewrite uint_small in H by (unfold in_uint; lia) end.
    lia.
  - by destruct Hwr as [-> _].
Qed.

Lemma Reopen_inv closeErr openErr d l l' r :
  (Sync_turn l).2 = Some None -> d_cached d = [] ->
  Reopen (Z.of_nat (length (disk_bytes d))) closeErr openErr d l = (l', r) -> LogInv l -> LogInv l'.
Proof.
  intros HS Hd HR HI. pose proof HI as [(good & bad & wr & bf & HP) Hoks Hsz Hseq Hw Hfin Hdone Hdr Hfs Hft].
  destruct (Sync_turn_idle _ _ _ _ _ HP) as (Hnf & -> & -> & -> & Hwn); [lia|lia|done|].
  pose proof HP as [Hh Hg Hb Hbf Hs Hca (Hbuf & Hp & Hin) Hwr]. rewrite Hwn in Hwr.
  unfold Reopen in HR. destruct (lg_closed l) eqn:Hc; [by simplify_eq|].
  destruct closeErr; [by simplify_eq|]. destruct openErr; injection HR as <- <-.
  - split; simpl; rewrite ?Hc; try done; [|intros; by right|lia].
    exists good, [], [], []. split; simpl; try done. by rewrite Hwn.
  - split; simpl; try done.
    + exists [], [], [], []. split; simpl; try done.
      * unfold disk_bytes. rewrite Hd. cbn. by rewrite !app_nil_r.
      * rewrite Hd. by exists 0%nat.
      * by rewrite Hwn.
    + unfold disk_bytes. by rewrite Hd, app_nil_r.
Qed.

Lemma with_closed_inv c d l :
  (lg_closed l = true -> c = true) -> (lg_done l = true -> d = true) -> (d = true -> c = true) ->
  LogInv l -> LogInv (with_closed c d l).
Proof.
  intros Hc Hd Hdc [(good & bad & wr & bf & HP) Hoks Hsz Hseq Hw Hfin Hdone Hdr Hfs Hft].
  split; simpl; auto. exists good, bad, wr, bf. by destruct HP; split.
Qed.

Lemma log_step_inv l l' : log_step l l' -> LogInv l -> LogInv l'.
Proof.
  intros Hstep HI. destruct Hstep.
  - by eapply Append_inv.
  - by apply Sync_turn_inv.
  - by eapply flusher_select_inv.
  - eapply flushOnce_take_inv; eauto.
  - by eapply flushOnce_finish_inv.
  - by eapply Reopen_inv.
  - unfold Close_mark. destruct (lg_closed l) eqn:Hc; [done|]. by apply with_closed_inv.
  - by apply with_closed_inv.
Qed.

Lemma log_reachable_inv l : log_reachable l -> LogInv l.
Proof. induction 1; [by apply newLog_inv|by eapply log_step_inv]. Qed.
