(* ===== verification/LogProps.v ===== *)
(** * Properties of the group-commit log

    Durability: what [Wait] promises, whatever the interleaving and wherever the
    machine stops.  Failure: a write error is sticky.  Liveness: [Wait] returns. *)

From Stdlib Require Import ZArith Lia.
From S2P Require Import Prelude GoInt Errors WalRecord Replay Log LogInv.

(** ** Crashes *)

(** The bytes handed to a [write] that has not returned. *)
Definition in_write (l : Log) : list byte :=
  match lg_flusher l with Writing _ data _ _ => data | _ => [] end.

(** What the file may hold after a crash: everything synced, and some prefix of
    what was written or was being written after it. *)
Definition log_crash (l : Log) (img : list byte) : Prop :=
  exists k, img = d_synced (lg_disk l) ++ take k (d_cached (lg_disk l) ++ in_write l).

(** What is written but not synced begins the bytes of what is not on disk. *)
Lemma unsynced_prefix good bad wr bf l :
  LogInv l -> LogParts good bad wr bf l ->
  exists j, d_cached (lg_disk l) ++ in_write l = take j (bytes_of (bad ++ wr ++ bf)).
Proof.
  intros HI [Hh Hg Hb Hbf Hs [k Hca] Hbuf Hwr]. unfold in_write.
  destruct (lg_flusher l) as [| |final data records batch|] eqn:Hfl; simpl in Hwr.
  3: { destruct Hwr as (-> & _ & _ & _ & _ & Hnf). rewrite (li_fatal _ HI Hnf).
       assert (bad = []) as -> by (destruct bad; [done|]; exfalso; by apply Hbf).
       exists (length (bytes_of wr)). rewrite !app_nil_l, bytes_of_app. by rewrite take_app_length. }
  all: exists (min k (length (bytes_of bad))); rewrite Hca, app_nil_r, bytes_of_app, take_app_le by lia;
    by rewrite <- take_take, firstn_all.
Qed.

(** Every crash image keeps the good records and cuts the rest. *)
Lemma log_crash_cut good bad wr bf l img :
  LogInv l -> LogParts good bad wr bf l -> log_crash l img ->
  exists k, img = lg_base l ++ bytes_of good ++ take k (bytes_of (bad ++ wr ++ bf)).
Proof.
  intros HI HP [k ->]. destruct (unsynced_prefix _ _ _ _ l HI HP) as [j ->].
  exists (min k j). by rewrite take_take, (lp_synced _ _ _ _ _ HP), <- app_assoc.
Qed.

(** A batch [Wait] reports durable is on disk: the others are later. *)
Lemma Wait_nil_good good bad wr bf b l :
  LogInv l -> LogParts good bad wr bf l -> Wait b l = Some None ->
  Forall (fun e => b < e.1) (bad ++ wr ++ bf).
Proof.
  intros HI [Hh Hg Hb Hbf Hs Hca (_ & _ & Hin) Hwr] HW. unfold Wait in HW.
  destruct (_ && _) eqn:Hc in HW; [done|].
  assert (lg_flushed l < lg_nextSeq l) as Hlt
    by (destruct (writing (lg_flusher l)) as [[[? ?] ?]|]; destruct_and?; lia).
  assert (b <= lg_flushed l /\ Forall (fun e => b < e.1) bad) as [Hbf' Hbad].
  { destruct (lg_fatal l) as [e|] eqn:Hf.
    - destruct (Z.leb_spec (lg_fatalSeq l) b) as [|Hfs]; [done|].
      assert (lg_fatalSeq l <= lg_flushed l) by (apply (li_fatalSeq _ HI); by rewrite Hf).
      split; [lia|].
      eapply Forall_impl; [exact Hb|]. intros x Hx. simpl in Hx. lia.
    - rewrite bool_decide_eq_true_2, andb_true_r in Hc by done. bool_prop. split; [lia|].
      destruct bad; [done|]. exfalso. by apply Hbf. }
  rewrite !Forall_app. split_and!; [done| |].
  - destruct (writing (lg_flusher l)) as [[[? ?] ?]|]; destruct_and?; subst; [|done].
    eapply Forall_impl; [eassumption|]. intros x Hx. simpl in Hx. lia.
  - eapply Forall_impl; [exact Hin|]. intros x Hx. simpl in Hx. lia.
Qed.

(** A crash image replays to the complete records in it, cleanly or with a torn
    tail after them. *)
Record replays_to (img : list byte) (es : list Entry) (ending : Ending) : Prop := {
  rt_replay {St} path (fn : Record_ -> St -> St * option Err) st :
    Replay path fn (OpenOk (plainFile img)) st
    = Some (replay_outcome path fn (records_at 0 es) ending 0 st);
  rt_prefix : encode_all es `prefix_of` img;
  rt_ending : let v := Z.of_nat (length (encode_all es)) in
    (ending = EndClean v /\ img = encode_all es) \/ exists n, ending = EndTorn v n;
}.

Lemma cut_replays_to es n :
  Forall entry_ok es -> (n <= length (encode_all es))%nat ->
  replays_to (take n (encode_all es)) (fitting n es) (cut_ending n es).
Proof.
  intros Hok Hn. destruct (scans_cut es n 0 Hok Hn) as (tail & Ht & Hl & _). split.
  - intros. by apply Replay_cut.
  - rewrite Ht. by eexists.
  - unfold cut_ending. destruct (Nat.eqb_spec (length (encode_all (fitting n es))) n) as [E|E].
    + left. split; [by rewrite E|]. rewrite Ht. destruct tail; [by rewrite app_nil_r|simpl in Hl; lia].
    + right. by eexists.
Qed.

(** A log that was written whole replays to all of it. *)
Lemma encode_all_replays_to es :
  Forall entry_ok es -> replays_to (encode_all es) es (EndClean (Z.of_nat (length (encode_all es)))).
Proof.
  intros Hok. pose proof (cut_replays_to es (length (encode_all es)) Hok (Nat.le_refl _)) as Hr.
  assert (fitting (length (encode_all es)) es = es) as E.
  { apply (anti_symm prefix); [apply fitting_prefix|].
    pose proof (fitting_app (length (encode_all es)) es [] (Nat.le_refl _)) as Hp. by rewrite app_nil_r in Hp. }
  unfold cut_ending in Hr. by rewrite E, Nat.eqb_refl, firstn_all in Hr.
Qed.

(** A file replays to one sequence of records. *)
Lemma replays_to_fun img es1 es2 e1 e2 : replays_to img es1 e1 -> replays_to img es2 e2 -> es1 = es2.
Proof.
  intros H1 H2. set (fn := fun (r : Record_) (st : list Entry) => (st ++ [(r_Type r, r_Payload r)], @None Err)).
  assert (forall es off n st, deliver fn (records_at off es) n st = (st ++ es, n + Z.of_nat (length es), None)) as Hd.
  { induction es as [|[t p] es IH]; intros off n st; cbn [records_at deliver length]; [by rewrite app_nil_r, Z.add_0_r|].
    unfold fn at 1. cbn [r_Type r_Payload]. rewrite IH, <- app_assoc. do 2 f_equal. lia. }
  pose proof (rt_replay _ _ _ H1 "" fn []) as R1. rewrite (rt_replay _ _ _ H2 "" fn []) in R1.
  unfold replay_outcome in R1. rewrite !Hd in R1. simpl in R1. by injection R1 as _ ->.
Qed.

(** A log is the log of one sequence of records. *)
Lemma encode_all_inj es1 es2 :
  Forall entry_ok es1 -> Forall entry_ok es2 -> encode_all es1 = encode_all es2 -> es1 = es2.
Proof.
  intros H1 H2 E. pose proof (encode_all_replays_to es2 H2) as R. rewrite <- E in R.
  by eapply replays_to_fun; [apply encode_all_replays_to|].
Qed.

(** Every crash image replays to a prefix of what was written that keeps what
    is on disk. *)
Lemma log_crash_parts_replays good bad wr bf l base img :
  LogInv l -> LogParts good bad wr bf l -> lg_base l = encode_all base -> Forall entry_ok base ->
  log_crash l img ->
  exists es ending, base ++ good.*2 `prefix_of` es /\ es `prefix_of` base ++ (lg_hist l).*2 /\
    Forall entry_ok es /\ replays_to img es ending.
Proof.
  intros HI HP Hbase Hbok Hcr. pose proof (lp_hist _ _ _ _ _ HP) as Hh.
  destruct (log_crash_cut _ _ _ _ _ _ HI HP Hcr) as [k ->].
  set (all := base ++ (lg_hist l).*2).
  assert (Forall entry_ok all) as Hall.
  { apply Forall_app. split; [done|]. apply Forall_fmap, HI. }
  set (n := (length (encode_all (base ++ good.*2)) + min k (length (bytes_of (bad ++ wr ++ bf))))%nat).
  assert (encode_all all = (encode_all (base ++ good.*2)) ++ bytes_of (bad ++ wr ++ bf)) as Hbytes.
  { unfold all, bytes_of. rewrite Hh, fmap_app, app_assoc, encode_all_app. done. }
  assert (lg_base l ++ bytes_of good ++ take k (bytes_of (bad ++ wr ++ bf)) = take n (encode_all all)) as ->.
  { rewrite Hbytes, Hbase. unfold n, bytes_of. rewrite take_app_add, encode_all_app, <- app_assoc.
    by rewrite <- take_take, firstn_all. }
  exists (fitting n all), (cut_ending n all). split_and!.
  - unfold all. rewrite Hh, fmap_app, app_assoc. apply fitting_app. unfold n. lia.
  - exact (fitting_prefix n all).
  - eapply Forall_prefix_of; [apply fitting_prefix|done].
  - apply cut_replays_to; [done|]. rewrite Hbytes, length_app. unfold n. lia.
Qed.

Lemma log_crash_replays l base img :
  LogInv l -> lg_base l = encode_all base -> Forall entry_ok base -> log_crash l img ->
  exists es ending,
    (forall b i e, Wait b l = Some None -> lg_hist l !! i = Some e -> e.1 <= b -> (length base + i < length es)%nat) /\
    (d_synced (lg_disk l) <> [] -> es <> []) /\
    (lg_buf l = [] -> writing (lg_flusher l) = None -> lg_fatal l = None -> es = base ++ (lg_hist l).*2) /\
    base `prefix_of` es /\
    es `prefix_of` base ++ (lg_hist l).*2 /\ Forall entry_ok es /\ replays_to img es ending.
Proof.
  intros HI Hb Hbok Hcr. pose proof (li_parts _ HI) as (good & bad & wr & bf & HP).
  destruct (log_crash_parts_replays _ _ _ _ _ _ _ HI HP Hb Hbok Hcr) as (es & ending & Hpre & Hes & Hok & Hr).
  exists es, ending. split_and!; try done.
  - intros b i e HW Hi He. pose proof (Wait_nil_good _ _ _ _ b l HI HP HW) as Hlate.
    apply prefix_length in Hpre. rewrite length_app, length_fmap in Hpre.
    rewrite (lp_hist _ _ _ _ _ HP) in Hi.
    apply lookup_app_Some in Hi as [Hi|[_ Hi]]; [apply lookup_lt_Some in Hi; lia|].
    rewrite Forall_lookup in Hlate. specialize (Hlate _ _ Hi). lia.
  - intros Hd ->. apply Hd. apply prefix_nil_inv, app_nil in Hpre as [-> Hg]. rewrite (lp_synced _ _ _ _ _ HP), Hb.
    unfold bytes_of. by rewrite Hg.
  - intros Hbf Hwr Hfa. apply prefix_length_eq; [done|].
    assert (lg_hist l = good) as ->; [|by apply prefix_length].
    rewrite (lp_hist _ _ _ _ _ HP).
    assert (bad = []) as -> by (destruct bad; [done|]; exfalso; by apply (lp_bad_fatal _ _ _ _ _ HP)).
    pose proof (lp_wr _ _ _ _ _ HP) as Hw. rewrite Hwr in Hw. destruct Hw as [-> _].
    destruct (lp_bf _ _ _ _ _ HP) as [Hb' _]. rewrite Hbf in Hb'. symmetry in Hb'.
    apply (f_equal length), length_bytes_of_0 in Hb' as ->. by rewrite !app_nil_r.
  - etransitivity; [|exact Hpre]. by eexists.
Qed.

(** C7: Durability of acknowledged writes, for every interleaving of appenders, [Sync], [Reopen], [Close] and the flusher and every outcome of the system calls: when [Wait] returns nil for a batch, then wherever the machine stops, every file it can leave replays without error to a sequence of records that contains all records of that batch and of all earlier ones and is a prefix of what was appended, in append order — with nothing invented, reordered or skipped. *)
Theorem Wait_durable {St} path (fn : Record_ -> St -> St * option Err) (st : St)
    (l : Log) (b : Z) (base : list Entry) (img : list byte) :
  log_reachable l -> lg_base l = encode_all base -> Forall entry_ok base ->
  Wait b l = Some None -> log_crash l img ->
  exists es ending,
    (forall i e, lg_hist l !! i = Some e -> e.1 <= b -> (length base + i < length es)%nat) /\
    es `prefix_of` base ++ (lg_hist l).*2 /\
    (forall off reason, ending <> EndBad off reason) /\
    Replay path fn (OpenOk (plainFile img)) st
      = Some (replay_outcome path fn (records_at 0 es) ending 0 st).
Proof.
  intros HR%log_reachable_inv Hbase Hbok HW Hcr.
  destruct (log_crash_replays l base img HR Hbase Hbok Hcr) as (es & ending & Hin & _ & _ & _ & Hes & _ & [Hr _ He]).
  exists es, ending. split_and!; [by intros i e; apply Hin|done| |apply Hr].
  intros off reason. by destruct He as [[-> _]|[? ->]].
Qed.

(** ** Failure *)

(** A failed write or fsync is fatal and sticky: from then on no step of any kind clears the error or puts another byte on disk, every [Append] and every [Sync] reports it, and [Wait] reports it for the failed batch and every later one while batches before it stay durable. *)
Theorem fatal_sticky (l l' : Log) (e : Err) (t : RecType) (payload : list byte) (b : Z) :
  log_reachable l -> lg_fatal l = Some e -> log_step l l' ->
  lg_fatal l' = Some e /\ lg_fatalSeq l' = lg_fatalSeq l /\ lg_disk l' = lg_disk l /\
  (Append t payload l').2 = inr e /\ (Sync_turn l').2 = Some (Some e) /\
  Wait b l' = Some (if lg_fatalSeq l <=? b then Some e else None).
Proof.
  intros HR Hf Hstep. pose proof (log_reachable_inv l HR) as HI.
  assert (lg_fatal l' = Some e /\ lg_fatalSeq l' = lg_fatalSeq l /\ lg_disk l' = lg_disk l) as (E1 & E2 & E3).
  { destruct Hstep.
    - unfold Append in *. rewrite Hf in *. by simplify_eq.
    - unfold Sync_turn. by rewrite Hf.
    - unfold flusher_select in *. repeat case_match; by simplify_eq/=.
    - unfold flushOnce_take in *. destruct (lg_flusher l); try done.
      rewrite (bool_decide_eq_false_2 (lg_fatal l = None)), orb_true_r in * by congruence. by simplify_eq/=.
    - destruct HI as [(? & ? & ? & ? & HP) _ _ _ _ _ _ _ _]. pose proof (lp_wr _ _ _ _ _ HP) as Hwr.
      unfold flushOnce_finish in *. destruct (lg_flusher l); try done. simpl in Hwr. destruct_and?. congruence.
    - unfold Sync_turn in *. by rewrite Hf in *.
    - unfold Close_mark. by case_match.
    - done. }
  split_and!; [done..| | |].
  - unfold Append. by rewrite E1.
  - unfold Sync_turn. by rewrite E1.
  - unfold Wait. rewrite E1, E2, bool_decide_eq_false_2, andb_false_r by done. done.
Qed.

(** ** Progress *)

(** What the flusher goroutine can do next. *)
Inductive flusher_step (l l' : Log) : Prop :=
  | fs_select final : flusher_select final l = Some l' -> flusher_step l l'
  | fs_take : flushOnce_take l = Some l' -> flusher_step l l'
  | fs_finish w elapsed : flushOnce_finish w elapsed l = Some l' -> flusher_step l l'.

(** However the flusher runs from [l], and whatever its system calls return, it
    gets to a state with [P], and it never stops before. *)
Inductive inevitably (P : Log -> Prop) : Log -> Prop :=
  | inev_now l : P l -> inevitably P l
  | inev_later l :
      (exists l', flusher_step l l') -> (forall l', flusher_step l l' -> inevitably P l') -> inevitably P l.

(** How much the flusher has left to do when nothing is appended. *)
Definition flusher_work (l : Log) : nat :=
  ((if lg_signal l then 2 else 0) + (if lg_done l && negb (is_final (lg_flusher l)) then 2 else 0) +
   (if decide (lg_buf l = []) then 0 else 2) +
   match lg_flusher l with AtSelect => 0 | Woken _ => 1 | Writing _ _ _ _ => 2 | Returned => 0 end)%nat.

Lemma flusher_step_work l l' : flusher_step l l' -> (flusher_work l' < flusher_work l)%nat.
Proof.
  intros [final HS|HT|w elapsed HF].
  - unfold flusher_select in HS. destruct (lg_flusher l) eqn:Hfl; try done.
    unfold flusher_work. rewrite Hfl.
    destruct final; [destruct (lg_done l) eqn:?|destruct (lg_signal l) eqn:?]; simplify_eq/=; try lia.
    repeat case_match; simpl in *; lia.
  - unfold flushOnce_take in HT. destruct (lg_flusher l) as [|final| |] eqn:Hfl; try done.
    unfold flusher_work. rewrite Hfl. destruct (_ || _) eqn:Hc in HT; injection HT as <-; simpl.
    + destruct final; simpl; lia.
    + bool_prop. destruct (decide (lg_buf l = [])) as [E|]; [by rewrite E in *|]. destruct final; simpl; lia.
  - unfold flushOnce_finish in HF. destruct (lg_flusher l) as [| |final data records batch|] eqn:Hfl; try done.
    unfold flusher_work. rewrite Hfl. destruct (writeSync data w (lg_disk l)) as [d [e|]]; injection HF as <-;
      simpl; rewrite is_final_resume; destruct final; simpl; lia.
Qed.

(** A flusher step is a step of the log while batch numbers last. *)
Lemma flusher_step_inv l l' :
  lg_nextSeq l + 1 < 2 ^ 64 \/ lg_buf l = [] -> flusher_step l l' -> LogInv l ->
  LogInv l' /\ lg_hist l' = lg_hist l /\
  (lg_nextSeq l' + 1 < 2 ^ 64 \/ lg_buf l' = []).
Proof.
  intros Hb [final HS|HT|w elapsed HF] HI.
  - split; [by eapply flusher_select_inv|]. unfold flusher_select in HS.
    repeat case_match; by simplify_eq/=.
  - split; [by eapply flushOnce_take_inv|]. unfold flushOnce_take in HT.
    destruct (lg_flusher l); try done. destruct (_ || _) in HT; injection HT as <-; simpl; auto.
  - split; [by eapply flushOnce_finish_inv|]. unfold flushOnce_finish in HF.
    destruct (lg_flusher l) as [| |final data records batch|]; try done.
    destruct (writeSync data w (lg_disk l)) as [d [e|]]; by injection HF as <-.
Qed.

(** While a [Wait] for an issued batch blocks, the flusher can run. *)
Lemma Wait_blocked_runs b e l :
  LogInv l -> (b, e) ∈ lg_hist l -> Wait b l = None -> exists l', flusher_step l l'.
Proof.
  intros HI Hin HW. unfold Wait in HW. destruct (_ && _) eqn:Hc in HW; [|done]. bool_prop.
  destruct (lg_flusher l) as [|final|final data records batch|] eqn:Hfl.
  2: { assert (is_Some (flushOnce_take l)) as [l' Hl'];
         [unfold flushOnce_take; rewrite Hfl; case_if_goal; by eexists|].
       exists l'. by apply fs_take. }
  2: { eexists. eapply (fs_finish _ _ WSynced 0). unfold flushOnce_finish. by rewrite Hfl. }
  all: assert (lg_buf l <> []) as Hbuf;
    [intros E; destruct HI as [(good & bad & wr & bf & HP) _ _ _ _ _ _ _ _ _];
     destruct HP as [Hh Hg Hb Hbf Hs Hca (Hbuf & _) Hwr]; rewrite Hfl in Hwr;
     destruct Hwr as [-> _]; rewrite E in Hbuf; symmetry in Hbuf;
     apply (f_equal length), length_bytes_of_0 in Hbuf as ->;
     assert (bad = []) as -> by (destruct bad; [done|]; exfalso; by apply Hbf);
     rewrite Hh, !app_nil_r in Hin; rewrite Forall_forall in Hg; specialize (Hg _ Hin); simpl in Hg; lia|].
  - destruct (li_wakeup _ HI) as [Hs|[f ?]]; [done|done| |congruence].
    eexists. apply (fs_select _ _ false). unfold flusher_select. by rewrite Hfl, Hs.
  - exfalso. destruct (li_drained _ HI) as [|]; [by rewrite Hfl|by rewrite Hfl|done|done].
Qed.

(** C8: Liveness of [Wait] and no lost wakeup: in every reachable state, for every batch id [Append] has handed out, a blocked [Wait] returns: the flusher alone, on every schedule and whatever its writes and fsyncs return, runs to a state in which [Wait] for that batch is no longer blocked, and it cannot get stuck before (given that fewer than 2^64 batches were written). *)
Theorem Wait_returns (l : Log) (b : Z) (e : Entry) :
  log_reachable l -> (b, e) ∈ lg_hist l -> lg_nextSeq l + 1 < 2 ^ 64 ->
  inevitably (fun l' => is_Some (Wait b l')) l.
Proof.
  intros HR%log_reachable_inv Hin Hlt. assert (lg_nextSeq l + 1 < 2 ^ 64 \/ lg_buf l = []) as Hb by by left.
  clear Hlt. remember (flusher_work l) as n eqn:Hn. revert l Hn HR Hin Hb.
  induction n as [n IH] using lt_wf_ind. intros l -> HI Hin Hb.
  destruct (Wait b l) as [r|] eqn:HW; [apply inev_now; by rewrite HW|].
  apply inev_later; [by eapply Wait_blocked_runs|].
  intros l' Hstep. destruct (flusher_step_inv l l' Hb Hstep HI) as (HI' & Hh & Hb').
  eapply IH; [by apply flusher_step_work|done|done|by rewrite Hh|done].
Qed.

(** ** Witnesses *)

(** One record appended to an empty log and written, while a second one waits
    in the buffer. *)
Definition ex_open : Log := newLog 0 (mkDisk [] []).
Definition ex_appended : Log := (Append TypeMeta (bytes_of_string "{}") ex_open).1.
Definition ex_woken : Log := default ex_open (flusher_select false ex_appended).
Definition ex_taken : Log := default ex_open (flushOnce_take ex_woken).
Definition ex_second : Log := (Append TypeAck (bytes_of_string "ab") ex_taken).1.
Definition ex_synced : Log := default ex_open (flushOnce_finish WSynced 7 ex_second).
Definition ex_failed : Log := default ex_open (flushOnce_finish (WWriteErr 3 (EIO "disk full")) 7 ex_second).

Lemma ex_second_reachable : log_reachable ex_second.
Proof.
  apply (reach_step ex_taken); [apply (reach_step ex_woken); [apply (reach_step ex_appended);
    [apply (reach_step ex_open)|]|]|].
  - apply reach_init. exists []. reflexivity.
  - eapply (step_Append TypeMeta (bytes_of_string "{}")); [split; vm_compute; congruence|reflexivity].
  - apply (step_select false). reflexivity.
  - apply step_take; [vm_compute; reflexivity|reflexivity].
  - eapply (step_Append TypeAck (bytes_of_string "ab")); [split; vm_compute; congruence|reflexivity].
Qed.

Lemma ex_synced_reachable : log_reachable ex_synced.
Proof.
  apply (reach_step ex_second); [apply ex_second_reachable|]. apply (step_finish WSynced 7). reflexivity.
Qed.

Lemma ex_failed_reachable : log_reachable ex_failed.
Proof.
  apply (reach_step ex_second); [apply ex_second_reachable|].
  apply (step_finish (WWriteErr 3 (EIO "disk full")) 7). reflexivity.
Qed.

Lemma Wait_durable_witness :
  Wait 1 ex_synced = Some None /\
  exists es ending,
    (0 < length es)%nat /\ es `prefix_of` (lg_hist ex_synced).*2 /\
    Replay "wal.log" (fun r st => (st ++ [r_Type r], None))
      (OpenOk (plainFile (d_synced (lg_disk ex_synced)))) []
      = Some (replay_outcome "wal.log" (fun r st => (st ++ [r_Type r], None)) (records_at 0 es) ending 0 []).
Proof.
  split; [reflexivity|].
  destruct (Wait_durable "wal.log" (fun r st => (st ++ [r_Type r], None)) [] ex_synced 1 []
    (d_synced (lg_disk ex_synced))) as (es & ending & H1 & H2 & _ & H4).
  - apply ex_synced_reachable.
  - reflexivity.
  - constructor.
  - reflexivity.
  - exists 0%nat. vm_compute. reflexivity.
  - exists es, ending. split; [|split; [exact H2|exact H4]].
    apply (H1 0%nat (1, (TypeMeta, bytes_of_string "{}"))); [reflexivity|discriminate].
Defined.

Lemma Wait_returns_witness :
  Wait 2 ex_synced = None /\ inevitably (fun l' => is_Some (Wait 2 l')) ex_synced.
Proof.
  split; [reflexivity|].
  apply (Wait_returns ex_synced 2 (TypeAck, bytes_of_string "ab")).
  - apply ex_synced_reachable.
  - apply list_elem_of_lookup_2 with 1%nat. reflexivity.
  - vm_compute. reflexivity.
Defined.
