(* ===== verification/Queue.v ===== *)
(** * The queue's operations ([internal/queue/queue.go])

    [Queue] is the index, the log and the rest of what the mutex guards.  An
    operation that waits for the disk has two critical sections: the first is a
    function to the next state and a [Phase], the result or the batch to wait
    for; the second is [waitDurable].  The clock, the random bytes and the
    results of system calls are arguments. *)

From Stdlib Require Import ZArith Lia.
From S2P Require Import Prelude GoInt Errors WalRecord Replay GoHeap Message Heaps Codec Index Log.

(** ** State *)

(** [type Counters struct] *)
Record Counters := mkCounters {
  n_Enqueued : Z;
  n_Dequeued : Z;
  n_Acked : Z;
  n_Nacked : Z;
  n_Expired : Z;
  n_DeadLettered : Z;
  n_Duplicates : Z;
  n_Compactions : Z;
}.

Definition zeroCounters : Counters := mkCounters 0 0 0 0 0 0 0 0.

(** [q.counters.F++] and [+=] on the [uint64] fields. *)
Definition add_Enqueued k c := mkCounters (uint64 (n_Enqueued c + k)) (n_Dequeued c) (n_Acked c) (n_Nacked c)
  (n_Expired c) (n_DeadLettered c) (n_Duplicates c) (n_Compactions c).
Definition add_Dequeued k c := mkCounters (n_Enqueued c) (uint64 (n_Dequeued c + k)) (n_Acked c) (n_Nacked c)
  (n_Expired c) (n_DeadLettered c) (n_Duplicates c) (n_Compactions c).
Definition add_Acked k c := mkCounters (n_Enqueued c) (n_Dequeued c) (uint64 (n_Acked c + k)) (n_Nacked c)
  (n_Expired c) (n_DeadLettered c) (n_Duplicates c) (n_Compactions c).
Definition add_Nacked k c := mkCounters (n_Enqueued c) (n_Dequeued c) (n_Acked c) (uint64 (n_Nacked c + k))
  (n_Expired c) (n_DeadLettered c) (n_Duplicates c) (n_Compactions c).
Definition add_Expired k c := mkCounters (n_Enqueued c) (n_Dequeued c) (n_Acked c) (n_Nacked c)
  (uint64 (n_Expired c + k)) (n_DeadLettered c) (n_Duplicates c) (n_Compactions c).
Definition add_DeadLettered k c := mkCounters (n_Enqueued c) (n_Dequeued c) (n_Acked c) (n_Nacked c)
  (n_Expired c) (uint64 (n_DeadLettered c + k)) (n_Duplicates c) (n_Compactions c).
Definition add_Duplicates k c := mkCounters (n_Enqueued c) (n_Dequeued c) (n_Acked c) (n_Nacked c)
  (n_Expired c) (n_DeadLettered c) (uint64 (n_Duplicates c + k)) (n_Compactions c).
Definition add_Compactions k c := mkCounters (n_Enqueued c) (n_Dequeued c) (n_Acked c) (n_Nacked c)
  (n_Expired c) (n_DeadLettered c) (n_Duplicates c) (uint64 (n_Compactions c + k)).

Record Queue := mkQueue {
  q_path : string;
  q_ix : Index;
  q_log : Log;
  q_failed : option Err;
  q_lastAge : Time;
  q_lastPurge : Time;
  q_counters : Counters;
  q_closed : bool;
  q_compactThreshold : Z;
  q_compactFloor : Z;
  q_wake : bool;          (* the channel of capacity 1 holds a token *)
  q_detached : option (list (list byte));
    (* ghost: when the log's descriptor is no longer the file at the path, what
       that file may be *)
}.

Definition defaultCompactThreshold : Z := Z.shiftl 8 20.
Definition dedupPurgeInterval : Duration := 30 * Second.

Definition with_ix ix q := mkQueue (q_path q) ix (q_log q) (q_failed q) (q_lastAge q) (q_lastPurge q)
  (q_counters q) (q_closed q) (q_compactThreshold q) (q_compactFloor q) (q_wake q) (q_detached q).
Definition with_log l q := mkQueue (q_path q) (q_ix q) l (q_failed q) (q_lastAge q) (q_lastPurge q)
  (q_counters q) (q_closed q) (q_compactThreshold q) (q_compactFloor q) (q_wake q) (q_detached q).
Definition with_failed e q := mkQueue (q_path q) (q_ix q) (q_log q) e (q_lastAge q) (q_lastPurge q)
  (q_counters q) (q_closed q) (q_compactThreshold q) (q_compactFloor q) (q_wake q) (q_detached q).
Definition with_lastAge t q := mkQueue (q_path q) (q_ix q) (q_log q) (q_failed q) t (q_lastPurge q)
  (q_counters q) (q_closed q) (q_compactThreshold q) (q_compactFloor q) (q_wake q) (q_detached q).
Definition with_lastPurge t q := mkQueue (q_path q) (q_ix q) (q_log q) (q_failed q) (q_lastAge q) t
  (q_counters q) (q_closed q) (q_compactThreshold q) (q_compactFloor q) (q_wake q) (q_detached q).
Definition count f q := mkQueue (q_path q) (q_ix q) (q_log q) (q_failed q) (q_lastAge q) (q_lastPurge q)
  (f (q_counters q)) (q_closed q) (q_compactThreshold q) (q_compactFloor q) (q_wake q) (q_detached q).
Definition with_q_closed b q := mkQueue (q_path q) (q_ix q) (q_log q) (q_failed q) (q_lastAge q) (q_lastPurge q)
  (q_counters q) b (q_compactThreshold q) (q_compactFloor q) (q_wake q) (q_detached q).
Definition SetCompactThreshold n q := mkQueue (q_path q) (q_ix q) (q_log q) (q_failed q) (q_lastAge q)
  (q_lastPurge q) (q_counters q) (q_closed q) n (q_compactFloor q) (q_wake q) (q_detached q).
Definition with_compactFloor n q := mkQueue (q_path q) (q_ix q) (q_log q) (q_failed q) (q_lastAge q)
  (q_lastPurge q) (q_counters q) (q_closed q) (q_compactThreshold q) n (q_wake q) (q_detached q).
Definition with_detached d q := mkQueue (q_path q) (q_ix q) (q_log q) (q_failed q) (q_lastAge q)
  (q_lastPurge q) (q_counters q) (q_closed q) (q_compactThreshold q) (q_compactFloor q) (q_wake q) d.
Definition with_wake b q := mkQueue (q_path q) (q_ix q) (q_log q) (q_failed q) (q_lastAge q) (q_lastPurge q)
  (q_counters q) (q_closed q) (q_compactThreshold q) (q_compactFloor q) b (q_detached q).

(** [newQueue] and [start], with the index, the log and the time to begin with. *)
Definition startQueue (path : string) (ix : Index) (l : Log) (now : Time) : Queue :=
  mkQueue path ix l None now now zeroCounters false defaultCompactThreshold 0 false None.

(** What the first critical section of an operation leaves to do. *)
Inductive Phase (R : Type) :=
  | Return (r : R)
  | AwaitDurable (batch : Z) (r : R).   (* [waitDurable(batch)], then [r] *)
Arguments Return {R} _.
Arguments AwaitDurable {R} _ _.

Definition checkLocked (q : Queue) : option Err :=
  if q_closed q then Some ErrClosed else q_failed q.

(** A send that never blocks. *)
Definition signal (q : Queue) : Queue := with_wake true q.

(** [q.log.Append] *)
Definition logAppend (t : RecType) (payload : list byte) (q : Queue) : Queue * (Z + Err) :=
  let '(l, r) := Append t payload (q_log q) in (with_log l q, r).

(** The second critical section: [err] is what [q.log.Wait] returned. *)
Definition waitDurable (err : option Err) (q : Queue) : Queue * option Err :=
  match err with
  | Some e => (if decide (q_failed q = None) then with_failed (Some e) q else q, Some e)
  | None => (q, None)
  end.

(** ** Enqueue *)

(** [type EnqueueResult struct] *)
Record EnqueueResult := mkEnqueueResult {
  er_ID : string;
  er_Seq : Z;
  er_VisibleAt : Time;
  er_Duplicate : bool;
}.

Definition noResult : EnqueueResult := mkEnqueueResult "" 0 zeroTime false.

(** The live dedup entry of an enqueue, if there is one. *)
Definition duplicateOf (now : Time) (dedupID : string) (q : Queue) : option dedupEntry :=
  if bool_decide (dedupID = "") then None
  else
    match ix_dedup (q_ix q) !! dedupID with
    | Some e => if Before now (e_ExpiresAt e) then Some e else None
    | None => None
    end.

(** The message [Enqueue] builds. *)
Definition newMessage (id dedupID : string) (seq priority : Z) (now : Time) (delay : Duration)
    (payload : list byte) : Message :=
  mkMessage id dedupID seq priority (Add now delay) payload 0 now stateReady 0 0 zeroTime.

Definition Enqueue (now : Time) (rand8 : list byte) (payload : list byte) (priority : Z)
    (delay : Duration) (dedupID : string) (q : Queue)
    : option (Queue * Phase (EnqueueResult * option Err)) :=
  match checkLocked q with
  | Some err => Some (q, Return (noResult, Some err))
  | None =>
    match duplicateOf now dedupID q with
    | Some e => Some (count (add_Duplicates 1) q, Return (mkEnqueueResult (e_MessageID e) 0 zeroTime true, None))
    | None =>
      let m := newMessage (newID rand8) dedupID (ix_nextSeq (q_ix q)) priority now delay payload in
      match logAppend TypeEnqueue (encodeMessage m) q with
      | (q, inr err) => Some (with_failed (Some err) q, Return (noResult, Some err))
      | (q, inl batch) =>
        let '(l, ix) := alloc m (q_ix q) in
        '(ix, err) ← applyEnqueue l now ix;
        let q := with_ix ix q in
        match err with
        | Some err => Some (q, Return (noResult, Some err))
        | None =>
          Some (count (add_Enqueued 1) q,
                AwaitDurable batch (mkEnqueueResult (m_ID m) (m_Seq m) (m_VisibleAt m) false, None))
        end
      end
    end
  end.

(** What [Enqueue] does after the wait, with the result [r] of the first phase. *)
Definition Enqueue_finish (r : EnqueueResult) (err : option Err) (q : Queue)
    : Queue * (EnqueueResult * option Err) :=
  match waitDurable err q with
  | (q, Some e) => (q, (noResult, Some e))
  | (q, None) => (signal q, (r, None))
  end.

(** ** Dequeue *)

Definition Dequeue (now : Time) (max : Z) (visibility : Duration) (q : Queue)
    : option (Queue * (list Message * option Err)) :=
  let max := if max <=? 0 then 1 else max in
  match checkLocked q with
  | Some err => Some (q, ([], Some err))
  | None =>
    ix ← promoteDue now (q_ix q);
    let visibility := if visibility <=? 0 then visibilityTimeout (ix_cfg ix) else visibility in
    '(out, ix) ← lease_loop (Z.to_nat max) (Add now visibility) ix;
    let q := count (add_Dequeued (Z.of_nat (length out))) (with_ix ix q) in
    Some ((if (0 <? length out)%nat then signal q else q), (out, None))
  end.

(** ** Ack and Nack *)

Definition Ack (id : string) (q : Queue) : option (Queue * Phase (option Err)) :=
  match checkLocked q with
  | Some err => Some (q, Return (Some err))
  | None =>
    match ix_byID (q_ix q) !! id with
    | None => Some (q, Return (Some ErrNotFound))
    | Some l =>
      m ← ix_store (q_ix q) !! l;
      if negb (bool_decide (m_state m = stateInFlight)) && negb (bool_decide (m_state m = stateDead))
      then Some (q, Return (Some ErrNotInFlight))
      else
        match logAppend TypeAck (bytes_of_string id) q with
        | (q, inr err) => Some (with_failed (Some err) q, Return (Some err))
        | (q, inl batch) =>
          '(ix, err) ← applyAck id (q_ix q);
          let q := with_ix ix q in
          match err with
          | Some err => Some (q, Return (Some err))
          | None => Some (count (add_Acked 1) q, AwaitDurable batch None)
          end
        end
    end
  end.

Definition Nack (now : Time) (id : string) (q : Queue) : option (Queue * Phase (option Err)) :=
  match checkLocked q with
  | Some err => Some (q, Return (Some err))
  | None =>
    match ix_byID (q_ix q) !! id with
    | None => Some (q, Return (Some ErrNotFound))
    | Some l =>
      m ← ix_store (q_ix q) !! l;
      if negb (bool_decide (m_state m = stateInFlight)) then Some (q, Return (Some ErrNotInFlight))
      else
        match logAppend TypeNack (bytes_of_string id) q with
        | (q, inr err) => Some (with_failed (Some err) q, Return (Some err))
        | (q, inl batch) =>
          '(ix, (dead, err)) ← applyAttempt id now (q_ix q);
          let q := with_ix ix q in
          match err with
          | Some err => Some (q, Return (Some err))
          | None =>
            let q := count (add_Nacked 1) q in
            let q := if dead : bool then count (add_DeadLettered 1) q else q in
            Some (q, AwaitDurable batch None)
          end
        end
    end
  end.

(** What [Nack] does after the wait; [Ack] returns what [waitDurable] does. *)
Definition Nack_finish (err : option Err) (q : Queue) : Queue * option Err :=
  match waitDurable err q with
  | (q, Some e) => (q, Some e)
  | (q, None) => (signal q, None)
  end.

(** ** The timer *)

(** The expiry loop of [tick]: the state and [maxBatch]. *)
Fixpoint expire_loop (fuel : nat) (now : Time) (maxBatch : Z) (q : Queue) : option (Queue * Z) :=
  match fuel with
  | O => None
  | S fuel =>
    match ix_inflight (q_ix q) with
    | [] => Some (q, maxBatch)
    | l :: _ =>
      m ← ix_store (q_ix q) !! l;
      if After (m_deadline m) now then Some (q, maxBatch)
      else
        match logAppend TypeLeaseExpire (bytes_of_string (m_ID m)) q with
        | (q, inr err) => Some (with_failed (Some err) q, maxBatch)
        | (q, inl batch) =>
          let maxBatch := if batch >? maxBatch then batch else maxBatch in
          '(ix, (dead, err)) ← applyAttempt (m_ID m) now (q_ix q);
          let q := with_ix ix q in
          match err with
          | Some err => Some (with_failed (Some err) q, maxBatch)
          | None =>
            let q := count (add_Expired 1) q in
            let q := if dead : bool then count (add_DeadLettered 1) q else q in
            expire_loop fuel now maxBatch q
          end
        end
    end
  end.

Definition agePriorities (now : Time) (q : Queue) : option Queue :=
  let iv := agingInterval (ix_cfg (q_ix q)) in
  if (iv <=? 0) || (length (ix_ready (q_ix q)) =? 0)%nat || (Sub now (q_lastAge q) <? iv) then Some q
  else
    let q := with_lastAge now q in
    ix ← ageReady now (q_ix q);
    Some (with_ix ix q).

(** The dedup purge of [tick]. *)
Definition purgeDedup (now : Time) (q : Queue) : Queue :=
  if Sub now (q_lastPurge q) >=? dedupPurgeInterval then
    with_lastPurge now
      (with_ix (set_dedup (filter (fun '(_, e) => Before now (e_ExpiresAt e) = true) (ix_dedup (q_ix q)))
                  (q_ix q)) q)
  else q.

(** The closure [consider] of [nextDeadlineLocked]. *)
Definition consider (t next : Time) : Time :=
  if IsZero t then next
  else if IsZero next || Before t next then t
  else next.

Definition nextDeadlineLocked (q : Queue) : option Time :=
  let ix := q_ix q in
  let next := zeroTime in
  next ← match ix_delayed ix with
         | [] => Some next
         | l :: _ => m ← ix_store ix !! l; Some (consider (m_VisibleAt m) next)
         end;
  next ← match ix_inflight ix with
         | [] => Some next
         | l :: _ => m ← ix_store ix !! l; Some (consider (m_deadline m) next)
         end;
  let iv := agingInterval (ix_cfg ix) in
  let next := if (0 <? iv) && (0 <? length (ix_ready ix))%nat then consider (Add (q_lastAge q) iv) next else next in
  let next := if bool_decide (ix_dedup ix = ∅) then next
              else consider (Add (q_lastPurge q) dedupPurgeInterval) next in
  Some next.

(** What [tick] decided in its critical section. *)
Record Ticked := mkTicked { tk_next : Time; tk_maxBatch : Z; tk_shouldCompact : bool }.

Definition tick (now : Time) (q : Queue) : option (Queue * Ticked) :=
  if negb (bool_decide (q_failed q = None)) || q_closed q then Some (q, mkTicked zeroTime 0 false)
  else
    ix ← promoteDue now (q_ix q);
    let q := with_ix ix q in
    '(q, maxBatch) ← expire_loop (S (length (ix_inflight (q_ix q)))) now 0 q;
    q ← agePriorities now q;
    let q := purgeDedup now q in
    let size := Size (q_log q) in
    let shouldCompact := bool_decide (q_failed q = None) && negb (q_closed q) &&
                         (size >=? q_compactThreshold q) && (size >=? q_compactFloor q) in
    next ← nextDeadlineLocked q;
    Some (q, mkTicked next maxBatch shouldCompact).

(** The timer [run] sets after a tick. *)
Definition timerDelay (now next : Time) : Duration :=
  if negb (IsZero next) then
    let d := Sub next now in
    if d <? Millisecond then Millisecond else d
  else Hour.

(** ** Close *)

(** The first critical section of [Close]; the log is closed after it. *)
Definition Close (q : Queue) : Queue := with_q_closed true q.
