(* ===== verification/Load.v ===== *)
(** * Creating and loading a queue ([Create], [Load] in [internal/queue/queue.go])

    [Load] hands every record of the log to [apply]; the state the callback
    threads is whether [META] was seen and the index, [None] after a panic.
    [Create] refuses a log that holds a record and starts over one that does
    not. *)

From Stdlib Require Import ZArith Lia.
From S2P Require Import Prelude GoInt Errors WalRecord Replay Message Heaps Codec Index Log Queue.

(** ** The codec of [META] *)

(** [encodeConfig] and [decodeConfig]. *)
Class ConfigCodec := {
  encodeConfig : Config -> list byte + Err;
  decodeConfig : list byte -> Result Config;
}.

(** What the queue relies on it for: a validated configuration is encoded, in a
    record-sized payload, and reads back as it was. *)
Class ConfigCodecLaws `{!ConfigCodec} : Prop := {
  encodeConfig_ok c : config_ok c -> config_typed c -> exists b, encodeConfig c = inl b;
  decode_encodeConfig c b :
    config_ok c -> config_typed c -> encodeConfig c = inl b ->
    decodeConfig b = inl c /\ Z.of_nat (length b) <= MaxRecordSize;
}.

Section Load.
Context `{ConfigCodec}.

(** The callback of [Load]; [clock] is what [time.Now()] returns at each record. *)
Definition load_fn (clock : Z -> Time) (rec : Record_) (st : option (bool * Index))
    : option (bool * Index) * option Err :=
  match st with
  | None => (None, None)
  | Some (sawMeta, ix) =>
    if bool_decide (r_Type rec = TypeMeta) then
      match apply decodeConfig rec (clock (r_Offset rec)) ix with
      | None => (None, None)
      | Some (ix, err) => (Some (true, ix), err)
      end
    else if negb sawMeta then (st, Some EFirstRecordNotMeta)
    else
      match apply decodeConfig rec (clock (r_Offset rec)) ix with
      | None => (None, None)
      | Some (ix, err) => (Some (sawMeta, ix), err)
      end
  end.

(** [Load(root, name)] on the file at [path]: [view] is what [Replay] sees of
    it, [d] what it holds, [io] the system calls of [wal.Open]. *)
Definition Load (name path : string) (view : Opened) (clock : Z -> Time) (io : OpenIO) (d : Disk)
    (now : Time) : option (Disk * (Queue + Err)) :=
  match Replay path (load_fn clock) view (Some (false, newIndex)) with
  | None => None
  | Some (_, Some err, _) => Some (d, inr err)
  | Some (res, None, None) => None
  | Some (res, None, Some (sawMeta, ix)) =>
    if negb sawMeta then
      if Records res =? 0 then Some (d, inr (ErrIncompleteQueue path))
      else Some (d, inr (ENoMeta name path))
    else
      match Open io d (ValidBytes res) with
      | (d, inr err) => Some (d, inr err)
      | (d, inl l) => Some (d, inl (startQueue path ix l now))
      end
  end.

(** [Create(root, cfg)] up to its [Wait]: [view] and [d] are the file at the
    path, if any ([statErr] is what [os.Stat] returned); the queue and the batch
    of its [META] record. *)
Definition Create (path : string) (cfg : Config) (statErr : option Err) (view : Opened)
    (io : OpenIO) (d : Disk) : option (Disk * ((Index * Log * Z) + Err)) :=
  match Validate cfg with
  | (_, Some err) => Some (d, inr err)
  | (cfg, None) =>
    exists_err ← (match statErr with
      | Some _ => Some None
      | None =>
        match Replay path (fun _ (st : unit) => (st, None)) view tt with
        | None => None
        | Some (_, Some err, _) => Some (Some (EUnreadableLog (c_Name cfg) err))
        | Some (res, None, _) =>
          Some (if Records res >? 0 then Some (ErrQueueExists (c_Name cfg)) else None)
        end
      end);
    match exists_err with
    | Some err => Some (d, inr err)
    | None =>
      match Open io d 0 with
      | (d, inr err) => Some (d, inr err)
      | (d, inl l) =>
        match encodeConfig cfg with
        | inr err => Some (d, inr err)
        | inl meta =>
          match Append TypeMeta meta l with
          | (_, inr err) => Some (d, inr err)
          | (l, inl batch) => Some (d, inl (set_cfg cfg newIndex, l, batch))
          end
        end
      end
    end
  end.

(** What [Create] returns once [Wait] has returned [err]. *)
Definition Create_finish (path : string) (ix : Index) (l : Log) (now : Time) (err : option Err) : Queue + Err :=
  match err with
  | Some e => inr e
  | None => inl (startQueue path ix l now)
  end.
End Load.
