(* ===== verification/QueueInv.v ===== *)
(** * The queue's invariant

    [QInv] ties the index to the log: the index satisfies its invariant, the log
    its own, and the index represents the core its log determines.  Every
    operation, in every branch, neither panics nor breaks it. *)

From Stdlib Require Import ZArith Lia.
From S2P Require Import Prelude GoInt Errors WalRecord Replay GoHeap Message Heaps Codec Index QueueSpec.
From S2P Require Import IndexInv IndexRefine Durable Log LogInv Queue Load.

(** ** Histories of a queue's log *)

Definition is_meta (e : Entry) : Prop := e.1 = TypeMeta.
#[export] Instance is_meta_dec e : Decision (is_meta e) := decide (e.1 = TypeMeta).

(** [META] comes first, and only there. *)
Definition meta_first (es : list Entry) : Prop :=
  exists p es', es = (TypeMeta, p) :: es' /\ Forall (fun e => ~ is_meta e) es'.

Lemma meta_first_snoc es e : meta_first es -> ~ is_meta e -> meta_first (es ++ [e]).
Proof.
  intros (p & es' & -> & Hes) He. exists p, (es' ++ [e]). split; [done|].
  apply Forall_app. split; [done|]. by apply Forall_singleton.
Qed.

Lemma meta_first_prefix es1 es : es1 `prefix_of` es -> meta_first es -> es1 = [] \/ meta_first es1.
Proof.
  intros Hp (p & es' & -> & Hes). destruct es1 as [|e es1]; [by left|right].
  pose proof (prefix_cons_inv_1 _ _ _ _ Hp) as ->. apply prefix_cons_inv_2 in Hp.
  exists p, es1. split; [done|]. by eapply Forall_prefix_of.
Qed.

(** ** The invariant *)

Section QInv.
Context `{ConfigCodec}.

(** Everything written since the queue was created or last compacted. *)
Definition records_of (base : list Entry) (q : Queue) : list Entry := base ++ (lg_hist (q_log q)).*2.

(** What the fields of a state no log determines must fit to be written. *)
Record spec_ok (s : Spec) : Prop := {
  so_visible id m : sp_msgs s !! id = Some m -> in_int64 (m_VisibleAt m);
  so_dedup d e : sp_dedup s !! d = Some e -> e_DedupID e = d /\ d <> "" /\ dedup_encodable e;
}.

(** Whatever represents [c] from [T] on represents [c0]. *)
Definition refines_core (T : Time) (c c0 : Core) : Prop :=
  forall T' s, T <= T' -> represents T' s c -> represents T' s c0.

(** The entries [es] stand for all that a history with core [c0] does. *)
Record stands_for (T : Time) (es : list Entry) (c0 : Core) : Prop := {
  sf_ok : Forall entry_ok es;
  sf_meta : meta_first es;
  sf_core : exists c, core_run decodeConfig es core0 = inl c /\ refines_core T c c0 /\ core_wf T c;
}.

Record QInv (base : list Entry) (T : Time) (q : Queue) : Prop := {
  qi_index : Inv (q_ix q);
  qi_log : LogInv (q_log q);
  qi_base : lg_base (q_log q) = encode_all base /\ Forall entry_ok base;
  qi_meta : meta_first (records_of base q);
  qi_core : exists c, core_run decodeConfig (records_of base q) core0 = inl c /\
    represents T (abs (q_ix q)) c;
  qi_wf es c : base `prefix_of` es -> es `prefix_of` records_of base q -> es <> [] ->
    core_run decodeConfig es core0 = inl c -> core_wf T c;
  qi_spec : spec_ok (abs (q_ix q));
  qi_detached imgs : q_detached q = Some imgs -> q_failed q <> None /\
    Forall (fun img => exists es c0, img = encode_all es /\
      core_run decodeConfig (records_of base q) core0 = inl c0 /\ stands_for T es c0) imgs;
}.

Lemma stands_for_later T T' es c0 : T <= T' -> stands_for T es c0 -> stands_for T' es c0.
Proof.
  intros HT [H1 H2 (c & Hc & Hr & Hwf)]. split; try done.
  exists c. split_and!; [done| |by eapply core_wf_later]. intros T1 s Hle. apply Hr. lia.
Qed.

Lemma QInv_later base T T' q : T <= T' -> QInv base T q -> QInv base T' q.
Proof.
  intros HT [Hix Hlog Hbase Hmeta (c & Hrun & Hrep) Hwf Hsp Hdet]. split; try done.
  - exists c. split; [done|]. by eapply represents_later.
  - intros es c1 Hb Hp Hne Hr. eapply core_wf_later; [exact HT|]. by eapply Hwf.
  - intros imgs Hd. destruct (Hdet imgs Hd) as [Hf Hi]. split; [done|].
    eapply Forall_impl; [exact Hi|]. intros img (es & c0 & ? & ? & ?). exists es, c0.
    split_and!; [done..|]. by eapply stands_for_later.
Qed.

(** A queue that has not failed writes to the file at its path. *)
Lemma QInv_attached base T q : QInv base T q -> q_failed q = None -> q_detached q = None.
Proof.
  intros HQ Hf. destruct (q_detached q) as [imgs|] eqn:Hd; [|done].
  by destruct (qi_detached _ _ _ HQ imgs Hd).
Qed.

Lemma checkLocked_None q : checkLocked q = None -> q_failed q = None /\ q_closed q = false.
Proof. unfold checkLocked. by destruct (q_closed q). Qed.

(** The invariant depends on the index and the log, and on failing for good. *)
Lemma QInv_same base T q q' :
  q_ix q' = q_ix q -> q_log q' = q_log q -> q_detached q' = q_detached q ->
  (q_failed q' = None -> q_failed q = None) -> QInv base T q -> QInv base T q'.
Proof.
  intros E1 E2 E3 E4 [? ? ? ? ? ? ? Hdet]. split; rewrite ?E1, ?E2; unfold records_of in *; rewrite ?E2; try done.
  intros imgs Hd. rewrite E3 in Hd. destruct (Hdet imgs Hd) as [Hf Hi]. split; [by intros ?%E4|done].
Qed.

(** A change of the index that writes nothing. *)
Lemma QInv_index base T T' q ix :
  QInv base T q -> T <= T' -> q_detached q = None -> Inv ix -> spec_ok (abs ix) ->
  (forall c, represents T (abs (q_ix q)) c -> represents T' (abs ix) c) ->
  QInv base T' (with_ix ix q).
Proof.
  intros HQ HT Hd HI Hsp Hr.
  apply (QInv_later base T T') in HQ as HQ'; [|done].
  destruct HQ as [_ _ _ _ (c & Hrun & Hrep) _ _ _], HQ' as [Hix Hlog Hbase Hmeta _ Hwf _ _].
  split; try done.
  - exists c. split; [done|]. by apply Hr.
  - simpl. by rewrite Hd.
Qed.

Lemma logAppend_cases t payload q :
  (exists err, logAppend t payload q = (q, inr err)) \/
  exists l, logAppend t payload q = (with_log l q, inl (lg_nextSeq (q_log q))) /\
    Append t payload (q_log q) = (l, inl (lg_nextSeq (q_log q))) /\
    lg_hist l = lg_hist (q_log q) ++ [(lg_nextSeq (q_log q), (t, payload))] /\
    lg_base l = lg_base (q_log q).
Proof.
  unfold logAppend, Append. destruct (lg_fatal (q_log q)) as [e|]; [left; exists e; by destruct q|].
  destruct (lg_closed (q_log q)); [left; exists ErrWalClosed; by destruct q|].
  right. by eexists.
Qed.

(** A record and the transition it stands for, together. *)
Lemma QInv_record base T T' t payload q l ix :
  QInv base T q -> T <= T' -> q_failed q = None -> entry_ok (t, payload) -> t <> TypeMeta ->
  Append t payload (q_log q) = (l, inl (lg_nextSeq (q_log q))) ->
  lg_hist l = lg_hist (q_log q) ++ [(lg_nextSeq (q_log q), (t, payload))] ->
  lg_base l = lg_base (q_log q) ->
  Inv ix -> spec_ok (abs ix) ->
  (forall c, represents T (abs (q_ix q)) c -> core_wf T c ->
    exists c', core_apply decodeConfig (t, payload) c = inl c' /\ represents T' (abs ix) c' /\ core_wf T' c') ->
  QInv base T' (with_ix ix (with_log l q)).
Proof.
  intros HQ HT Hf Hok Ht HA Hh Hb HI Hsp Hr. pose proof (QInv_attached _ _ _ HQ Hf) as Hd.
  destruct HQ as [Hix Hlog Hbase Hmeta (c & Hrun & Hrep) Hwf _ _].
  assert (records_of base (with_ix ix (with_log l q)) = records_of base q ++ [(t, payload)]) as Hrec.
  { unfold records_of. simpl. rewrite Hh, fmap_app, app_assoc. done. }
  assert (core_wf T c) as Hwfc by (apply (Hwf (records_of base q) c); [by eexists|done| |done]; by destruct Hmeta as (? & ? & -> & _)).
  destruct (Hr c Hrep Hwfc) as (c' & Ha & Hrep' & Hwf').
  split; rewrite ?Hrec; simpl.
  - done.
  - by eapply Append_inv.
  - by rewrite Hb.
  - by apply meta_first_snoc.
  - exists c'. split; [|done]. rewrite core_run_app, Hrun. cbn [core_run]. by rewrite Ha.
  - intros es c1 Hbp [Hp|(q' & -> & Hq')]%app_prefix_split Hne Hrun1;
      [eapply core_wf_later; [exact HT|]; by eapply Hwf|].
    destruct q' as [|e q'].
    { rewrite app_nil_r in Hrun1. assert (c1 = c) as -> by congruence. by eapply core_wf_later. }
    pose proof (prefix_cons_inv_1 _ _ _ _ Hq') as ->. apply prefix_cons_inv_2, prefix_nil_inv in Hq' as ->.
    rewrite core_run_app, Hrun in Hrun1. cbn [core_run] in Hrun1. rewrite Ha in Hrun1.
    by injection Hrun1 as <-.
  - done.
  - by rewrite Hd.
Qed.

(** The core of a queue's history. *)
Lemma QInv_core_wf base T q :
  QInv base T q -> exists c, core_run decodeConfig (records_of base q) core0 = inl c /\
    represents T (abs (q_ix q)) c /\ core_wf T c.
Proof.
  intros HQ. destruct (qi_core _ _ _ HQ) as (c & Hrun & Hrep). exists c. split_and!; [done..|].
  apply (qi_wf _ _ _ HQ (records_of base q)); [by eexists|done| |done].
  by destruct (qi_meta _ _ _ HQ) as (? & ? & -> & _).
Qed.

(** Ids in the index fit a record. *)
Lemma QInv_id_ok base T q id m t :
  QInv base T q -> sp_msgs (abs (q_ix q)) !! id = Some m -> valid t = true ->
  entry_ok (t, bytes_of_string id).
Proof.
  intros HQ Hm Ht. split; [done|]. cbn [snd]. destruct (QInv_core_wf _ _ _ HQ) as (c & _ & Hrep & Hwf).
  destruct (rp_lookup _ _ _ _ _ Hrep Hm) as (k & Hk & _).
  destruct (st_id _ _ _ (cw_stored _ _ Hwf _ _ Hk)) as [Hs _].
  unfold short16, strlen in Hs. change MaxRecordSize with (64 * 2 ^ 20). lia.
Qed.

(** ** Enqueue *)

(** What [Enqueue] relies on its caller and the random source for: the values
    fit the stored widths, sequence numbers last, and the new id is new. *)
Record enqueue_ok (now : Time) (rand8 payload : list byte) (priority : Z) (delay : Duration)
    (dedupID : string) (q : Queue) : Prop := {
  eo_rand : length rand8 = 8%nat;
  eo_fresh : ix_byID (q_ix q) !! newID rand8 = None;
  eo_payload : Z.of_nat (length payload) <= 2 ^ 20;
  eo_priority : in_int64 priority;
  eo_now : in_int64 now;
  eo_visible : in_int64 (now + delay);
  eo_dedup : short16 dedupID;
  eo_unused d e : ix_dedup (q_ix q) !! d = Some e -> e_MessageID e <> newID rand8;
  eo_window : in_int64 (Add now (dedupWindow (ix_cfg (q_ix q))));
  eo_seq : 0 <= ix_nextSeq (q_ix q) /\ ix_nextSeq (q_ix q) + 1 < 2 ^ 64;
}.

Lemma strlen_newID rand8 : strlen (newID rand8) = (2 * length rand8)%nat.
Proof. unfold strlen, newID. by rewrite bytes_of_string_of_bytes, length_hexEncode. Qed.

Lemma newMessage_encodable now rand8 payload priority delay dedupID q :
  enqueue_ok now rand8 payload priority delay dedupID q ->
  encodable (newMessage (newID rand8) dedupID (ix_nextSeq (q_ix q)) priority now delay payload).
Proof.
  intros [Hr Hf Hp Hpr Hn Hv Hd _ _ Hs]. split; simpl; try done.
  - unfold in_uint. lia.
  - split; unfold short16; rewrite ?strlen_newID, ?Hr; [simpl; lia|].
    intros E. apply (f_equal strlen) in E. rewrite strlen_newID, Hr in E. discriminate.
  - lia.
Qed.

Lemma length_encodeMessage m :
  length (encodeMessage m) = (42 + length (str16 (m_ID m)) + length (str16 (m_DedupID m)) + length (m_Payload m))%nat.
Proof.
  rewrite encodeMessage_eq, !length_app, length_fixedPart. unfold payloadPart.
  rewrite length_app, length_le_bytes. lia.
Qed.

Lemma newMessage_entry_ok now rand8 payload priority delay dedupID q :
  enqueue_ok now rand8 payload priority delay dedupID q ->
  entry_ok (TypeEnqueue,
    encodeMessage (newMessage (newID rand8) dedupID (ix_nextSeq (q_ix q)) priority now delay payload)).
Proof.
  intros [Hr Hf Hp Hpr Hn Hv Hd _ _ Hs]. split; [done|]. cbn [snd].
  rewrite length_encodeMessage, !length_str16. cbn [newMessage m_ID m_DedupID m_Payload].
  rewrite strlen_newID, Hr. unfold short16 in Hd.
  change MaxRecordSize with (64 * 2 ^ 20). lia.
Qed.

(** An enqueued message reads back as it was, but for its runtime fields. *)
Lemma decode_newMessage now rand8 payload priority delay dedupID q :
  enqueue_ok now rand8 payload priority delay dedupID q ->
  let m := newMessage (newID rand8) dedupID (ix_nextSeq (q_ix q)) priority now delay payload in
  decodeMessage (encodeMessage m) = inl (persisted m).
Proof.
  intros Hok m. rewrite <- (app_nil_r (encodeMessage m)). apply decodeMessage_app.
  by apply newMessage_encodable.
Qed.

(** An expired dedup entry, or none: what the core has for the dedup id does not
    matter any more either. *)
Lemma duplicateOf_core T now dedupID q c e :
  represents T (abs (q_ix q)) c -> duplicateOf now dedupID q = None -> dedupID <> "" ->
  k_dedup c !! dedupID = Some e -> e_ExpiresAt e <= Z.max T now.
Proof.
  intros Hrep Hdup Hne He. destruct (Z.le_gt_cases (e_ExpiresAt e) T); [lia|].
  apply (rp_dedup_live _ _ _ _ _ Hrep) in He; [|lia]. simpl in He.
  unfold duplicateOf in Hdup. rewrite bool_decide_eq_false_2, He in Hdup by done.
  unfold Before in Hdup. destruct (Z.ltb_spec now (e_ExpiresAt e)); [done|lia].
Qed.

Lemma spec_ok_enqueue m now s :
  spec_ok s -> in_int64 (m_VisibleAt m) -> short16 (m_DedupID m) -> short16 (m_ID m) ->
  in_int64 (Add (m_CreatedAt m) (dedupWindow (sp_cfg s))) -> spec_ok (spec_enqueue m now s).1.
Proof.
  intros [Hv Hd] Hmv Hmd Hmi Hw. unfold spec_enqueue. destruct (sp_msgs s !! m_ID m); [done|]. split; simpl.
  - intros id m' [[_ <-]|[_ Hm']]%lookup_insert_Some; [|eauto]. case_decide; [done|]. unfold routed. by case_match.
  - intros d e. case_decide; [eauto|]. intros [[<- <-]|[_ He]]%lookup_insert_Some; [|eauto]. by split_and!.
Qed.

(** [Enqueue] past its checks: the message is logged and in the index. *)
Lemma Enqueue_appends base T now rand8 payload priority delay dedupID q l batch :
  QInv base T q -> enqueue_ok now rand8 payload priority delay dedupID q -> q_failed q = None ->
  duplicateOf now dedupID q = None ->
  let m := newMessage (newID rand8) dedupID (ix_nextSeq (q_ix q)) priority now delay payload in
  Append TypeEnqueue (encodeMessage m) (q_log q) = (l, inl batch) ->
  batch = lg_nextSeq (q_log q) ->
  lg_hist l = lg_hist (q_log q) ++ [(lg_nextSeq (q_log q), (TypeEnqueue, encodeMessage m))] ->
  lg_base l = lg_base (q_log q) ->
  exists l0 ix0 ix', alloc m (q_ix q) = (l0, ix0) /\
    applyEnqueue l0 now ix0 = Some (ix', None) /\
    abs ix' = (spec_enqueue m now (abs (q_ix q))).1 /\
    QInv base (Z.max T now) (with_ix ix' (with_log l q)).
Proof.
  intros HQ Hok Hfa Hdup m HA -> Hh Hb. pose proof (qi_index _ _ _ HQ) as Hix.
  destruct (alloc_correct m (q_ix q) Hix) as (l0 & ix0 & -> & HI0 & Ha0 & Hun).
  destruct (applyEnqueue_implements l0 m now ix0 HI0 Hun) as (ix' & Happ & HI' & Ha').
  change (erase m) with m in *. rewrite Ha0 in Happ, Ha'.
  assert (sp_msgs (abs (q_ix q)) !! m_ID m = None) as Hnone
    by (apply abs_lookup_None; [done|]; apply Hok).
  assert ((spec_enqueue m now (abs (q_ix q))).2 = None) as Hne by (unfold spec_enqueue; by rewrite Hnone).
  rewrite Hne in Happ. exists l0, ix0, ix'. split_and!; [done..|].
  pose proof (newMessage_encodable _ _ _ _ _ _ _ Hok) as Henc. fold m in Henc.
  apply (QInv_record base T (Z.max T now) TypeEnqueue (encodeMessage m)); try done.
  - lia.
  - by apply newMessage_entry_ok.
  - rewrite Ha'. apply spec_ok_enqueue; [apply HQ|apply Henc..|apply Hok].
  - intros c1 Hrep1 Hwf1. pose proof (represents_enqueue T _ c1 m now Hrep1) as Henq.
    pose proof (decode_newMessage _ _ _ _ _ _ _ Hok) as Hdec. cbv zeta in Hdec. fold m in Hdec.
    assert (core_apply decodeConfig (TypeEnqueue, encodeMessage m) c1 = core_enqueue m c1) as ->.
    { unfold core_apply. rewrite decide_False, decide_True by done. by rewrite Hdec. }
    destruct (core_enqueue m c1) as [c'|err] eqn:Hce; [|by rewrite Henq in Hne].
    exists c'. rewrite Ha'. split_and!; [done|eapply represents_later; [|apply Henq]; lia|].
    pose proof (eo_seq _ _ _ _ _ _ _ Hok). pose proof (rp_nextSeq _ _ _ Hrep1) as Hseq. simpl in Hseq.
    apply (core_wf_enqueue T (Z.max T now) m c1); try done; simpl; try lia; try apply Hok.
    + destruct (same_cfg_fields _ _ (rp_cfg _ _ _ Hrep1)) as (_&_&_&_&_&<-&_). apply Hok.
    + intros d e He Hlt. eapply eo_unused; [exact Hok|]. by apply (rp_dedup_live _ _ _ _ _ Hrep1 Hlt).
    + intros e Hd He. by eapply duplicateOf_core.
Qed.
End QInv.
