(* ===== verification/QueueOps.v ===== *)
(** * Every operation of a queue keeps its invariant and does what it says

    For each operation of [Queue], in a state that satisfies [QInv]: it does not
    panic, the invariant holds afterwards, and each branch of it has the result
    and the effect on the abstract state that its contract names. *)

From Stdlib Require Import ZArith Lia.
From S2P Require Import Prelude GoInt Errors WalRecord Replay GoHeap Message Heaps Codec Index QueueSpec.
From S2P Require Import IndexInv IndexRefine Durable Log LogInv Queue Load QueueInv.

(** The abstract state of a queue. *)
Definition qabs (q : Queue) : Spec := abs (q_ix q).

(** [q'] is [q] with one more record in its log, in batch [batch]. *)
Definition logged (t : RecType) (payload : list byte) (batch : Z) (q q' : Queue) : Prop :=
  batch = lg_nextSeq (q_log q) /\ (Append t payload (q_log q)) = (q_log q', inl batch) /\
  lg_hist (q_log q') = lg_hist (q_log q) ++ [(batch, (t, payload))].

Section Ops.
Context `{ConfigCodec} (base : list Entry).
Implicit Types (T now : Time) (q : Queue).

Lemma QInv_count T q f : QInv base T q -> QInv base T (count f q).
Proof using. by apply QInv_same. Qed.
Lemma QInv_failed T q e : QInv base T q -> QInv base T (with_failed (Some e) q).
Proof using. by apply QInv_same. Qed.
Lemma QInv_signal T q : QInv base T q -> QInv base T (signal q).
Proof using. by apply QInv_same. Qed.
Hint Resolve QInv_count QInv_failed QInv_signal : artie.

Lemma waitDurable_QInv T q err : QInv base T q -> QInv base T (waitDurable err q).1.
Proof using. intros HQ. unfold waitDurable. destruct err; simpl; [|done]. case_decide; auto with artie. Qed.

(** ** Enqueue *)

(** The ways an [Enqueue] of [m] can end its first critical section. *)
Inductive enqueued now (m : Message) q : Queue -> Phase (EnqueueResult * option Err) -> Prop :=
  | enq_refused err :
      checkLocked q = Some err -> enqueued now m q q (Return (noResult, Some err))
  | enq_duplicate e :
      checkLocked q = None -> duplicateOf now (m_DedupID m) q = Some e ->
      enqueued now m q (count (add_Duplicates 1) q)
        (Return (mkEnqueueResult (e_MessageID e) 0 zeroTime true, None))
  | enq_log_failed err :
      checkLocked q = None -> duplicateOf now (m_DedupID m) q = None ->
      logAppend TypeEnqueue (encodeMessage m) q = (q, inr err) ->
      enqueued now m q (with_failed (Some err) q) (Return (noResult, Some err))
  | enq_done q' batch :
      checkLocked q = None -> duplicateOf now (m_DedupID m) q = None ->
      logged TypeEnqueue (encodeMessage m) batch q q' ->
      spec_enqueue m now (qabs q) = (qabs q', None) ->
      enqueued now m q q'
        (AwaitDurable batch (mkEnqueueResult (m_ID m) (m_Seq m) (m_VisibleAt m) false, None)).

Lemma Enqueue_correct T now rand8 payload priority delay dedupID q :
  QInv base T q -> enqueue_ok now rand8 payload priority delay dedupID q ->
  exists q' ph, Enqueue now rand8 payload priority delay dedupID q = Some (q', ph) /\
    QInv base (Z.max T now) q' /\
    enqueued now (newMessage (newID rand8) dedupID (ix_nextSeq (q_ix q)) priority now delay payload) q q' ph.
Proof using.
  intros HQ Hok. set (m := newMessage _ _ _ _ _ _ _). unfold Enqueue.
  assert (QInv base (Z.max T now) q) as HQ0 by (eapply QInv_later; [|done]; lia).
  destruct (checkLocked q) as [err|] eqn:Hc.
  { eexists _, _. split_and!; [done|done|by constructor]. }
  destruct (checkLocked_None q Hc) as [Hfa _].
  destruct (duplicateOf now dedupID q) as [e|] eqn:Hd.
  { eexists _, _. split_and!; [done|auto with artie|by constructor]. }
  fold m. destruct (logAppend_cases TypeEnqueue (encodeMessage m) q) as [[err HA]|(l & HA & HA' & Hh & Hb)];
    rewrite HA.
  { eexists _, _. split_and!; [done|auto with artie|by constructor]. }
  destruct (Enqueue_appends base T now rand8 payload priority delay dedupID q l _ HQ Hok Hfa Hd HA' eq_refl Hh Hb)
    as (l0 & ix0 & ix' & Hal & Happ & Ha' & HQ').
  fold m in Hal. cbn [q_ix with_log]. rewrite Hal, Happ. simpl.
  eexists _, _. split_and!; [done|by apply QInv_count|].
  constructor; try done. unfold qabs. simpl. rewrite Ha'.
  assert ((spec_enqueue m now (abs (q_ix q))).2 = None) as Hne.
  { unfold spec_enqueue.
    rewrite (proj2 (abs_lookup_None (m_ID m) (q_ix q) (qi_index _ _ _ HQ))) by apply Hok. done. }
  rewrite <- Hne. apply surjective_pairing.
Qed.

(** An id that is taken: the record is in the log before the index refuses it. *)
Record used_id now (m : Message) q (q' : Queue) (ph : Phase (EnqueueResult * option Err)) : Prop := {
  ui_open : checkLocked q = None;
  ui_new : duplicateOf now (m_DedupID m) q = None;
  ui_used : sp_msgs (qabs q) !! m_ID m <> None;
  ui_logged : exists batch, logged TypeEnqueue (encodeMessage m) batch q q';
  ui_state : qabs q' = qabs q /\ q_failed q' = None;
  ui_refused : ph = Return (noResult, Some (EDuplicateMessageId (m_ID m)));
}.

(** Whatever the arguments. *)
Lemma Enqueue_any now rand8 payload priority delay dedupID q :
  Inv (q_ix q) -> let m := newMessage (newID rand8) dedupID (ix_nextSeq (q_ix q)) priority now delay payload in
  exists q' ph, Enqueue now rand8 payload priority delay dedupID q = Some (q', ph) /\ Inv (q_ix q') /\
    (enqueued now m q q' ph \/ used_id now m q q' ph).
Proof using.
  intros HI m. unfold Enqueue. destruct (checkLocked q) as [err|] eqn:Hc.
  { eexists _, _. split_and!; [done|done|left; by constructor]. }
  destruct (duplicateOf now dedupID q) as [e|] eqn:Hd.
  { eexists _, _. split_and!; [done|done|left; by constructor]. }
  fold m. destruct (logAppend_cases TypeEnqueue (encodeMessage m) q) as [[err HA]|(l & HA & HA' & Hh & _)]; rewrite HA.
  { eexists _, _. split_and!; [done|done|left; by constructor]. }
  cbn [q_ix with_log]. destruct (alloc_correct m (q_ix q) HI) as (l0 & ix0 & -> & HI0 & Ha0 & Hun).
  destruct (applyEnqueue_implements l0 m now ix0 HI0 Hun) as (ix' & Happ & HI' & Ha').
  change (erase m) with m in *. rewrite Ha0 in Happ, Ha'. rewrite Happ. cbn [mbind option_bind]. unfold spec_enqueue in Ha' |- *.
  destruct (sp_msgs (abs (q_ix q)) !! m_ID m) as [m0|] eqn:Hm; cbn [snd fst] in *.
  - eexists _, _. split_and!; [done|done|right]. split; [done|done|unfold qabs; congruence| | |done].
    + by exists (lg_nextSeq (q_log q)).
    + split; [exact Ha'|]. by destruct (checkLocked_None _ Hc).
  - eexists _, _. split_and!; [done|done|left]. apply enq_done; try done.
    unfold spec_enqueue. unfold qabs at 1. rewrite Hm. f_equal. symmetry. exact Ha'.
Qed.

(** ** Dequeue *)

Lemma leases_represents deadline n s out s' T c :
  leases deadline n s out s' -> represents T s c -> represents T s' c.
Proof using.
  induction 1 as [| |n s m out s' (Hm & Hst & _) _ IH]; [done..|].
  intros R. by apply IH, represents_leased.
Qed.

Lemma spec_ok_fmap s f :
  (forall m, m_VisibleAt (f m) = m_VisibleAt m) -> spec_ok s -> spec_ok (sp_with (f <$> sp_msgs s) s).
Proof using.
  intros Hf [Hv Hd]. split; simpl; [|done]. intros id m. rewrite lookup_fmap, fmap_Some.
  intros (m0 & Hm & ->). rewrite Hf. eauto.
Qed.

Lemma spec_ok_promote now s : spec_ok s -> spec_ok (spec_promote now s).
Proof using. apply spec_ok_fmap. intros m. unfold promoted, routed. by repeat case_match. Qed.

Lemma spec_ok_age now s : spec_ok s -> spec_ok (spec_age now s).
Proof using. apply spec_ok_fmap. intros m. unfold aged. by case_match. Qed.

Lemma leases_spec_ok deadline n s out s' : leases deadline n s out s' -> spec_ok s -> spec_ok s'.
Proof using.
  induction 1 as [| |n s m out s' (Hm & _) _ IH]; [done..|]. intros [Hv Hd]. apply IH. split; simpl; [|done].
  intros id m'. intros [[_ <-]|[_ Hm']]%lookup_insert_Some; [|eauto]. exact (Hv (m_ID m) m Hm).
Qed.

Lemma Dequeue_correct T now max visibility q :
  QInv base T q ->
  exists q' out err, Dequeue now max visibility q = Some (q', (out, err)) /\ QInv base T q' /\
    q_log q' = q_log q /\ err = checkLocked q /\
    match checkLocked q with
    | Some _ => out = [] /\ q' = q
    | None =>
      leases (Add now (if visibility <=? 0 then visibilityTimeout (sp_cfg (qabs q)) else visibility))
        (Z.to_nat (if max <=? 0 then 1 else max))
        (spec_promote now (qabs q)) (erase <$> out) (qabs q')
    end.
Proof using.
  intros HQ. unfold Dequeue. destruct (checkLocked q) as [err|] eqn:Hc.
  { by eexists _, _, _. }
  destruct (checkLocked_None q Hc) as [Hfa _].
  destruct (promoteDue_implements now (q_ix q) (qi_index _ _ _ HQ)) as (ix1 & -> & HI1 & Ha1).
  cbn [mbind option_bind].
  assert (ix_cfg ix1 = sp_cfg (qabs q)) as -> by (apply (f_equal sp_cfg) in Ha1; done).
  destruct (lease_loop_implements (Z.to_nat (if max <=? 0 then 1 else max))
    (Add now (if visibility <=? 0 then visibilityTimeout (sp_cfg (qabs q)) else visibility)) ix1 HI1)
    as (out & ix2 & -> & HI2 & Hl). simpl.
  rewrite Ha1 in Hl.
  assert (QInv base T (with_ix ix2 q)) as HQ2.
  { apply (QInv_index base T T q ix2 HQ (Z.le_refl T) (QInv_attached _ _ _ HQ Hfa) HI2).
    - eapply leases_spec_ok; [exact Hl|]. apply spec_ok_promote, HQ.
    - intros c Hrep. eapply leases_represents; [exact Hl|]. by apply represents_promote. }
  destruct (0 <? length out)%nat; (eexists _, _, _; split_and!; [done| |done..]); auto with artie.
Qed.

(** ** Ack and Nack *)

(** The state of the message with an id, in the abstract state. *)
Definition state_of (id : string) q : option state := m_state <$> sp_msgs (qabs q) !! id.

Lemma state_of_byID T id q :
  QInv base T q ->
  match ix_byID (q_ix q) !! id with
  | None => state_of id q = None /\ sp_msgs (qabs q) !! id = None
  | Some l => exists m, ix_store (q_ix q) !! l = Some m /\ state_of id q = Some (m_state m) /\
      sp_msgs (qabs q) !! id = Some (erase m)
  end.
Proof using.
  intros HQ. pose proof (qi_index _ _ _ HQ) as HI. unfold state_of, qabs.
  destruct (ix_byID (q_ix q) !! id) as [l|] eqn:Hl.
  - destruct (inv_registered id l _ HI Hl) as (m & Hm & _ & _ & Ha). exists m. by rewrite Ha.
  - by rewrite (proj2 (abs_lookup_None id _ HI)).
Qed.

(** The ways an [Ack] can end its first critical section. *)
Inductive acked (id : string) q : Queue -> Phase (option Err) -> Prop :=
  | ack_refused err : checkLocked q = Some err -> acked id q q (Return (Some err))
  | ack_unknown : checkLocked q = None -> state_of id q = None -> acked id q q (Return (Some ErrNotFound))
  | ack_not_leased st :
      checkLocked q = None -> state_of id q = Some st -> st = stateReady \/ st = stateDelayed ->
      acked id q q (Return (Some ErrNotInFlight))
  | ack_log_failed st err :
      checkLocked q = None -> state_of id q = Some st -> st = stateInFlight \/ st = stateDead ->
      logAppend TypeAck (bytes_of_string id) q = (q, inr err) ->
      acked id q (with_failed (Some err) q) (Return (Some err))
  | ack_done st q' batch :
      checkLocked q = None -> state_of id q = Some st -> st = stateInFlight \/ st = stateDead ->
      logged TypeAck (bytes_of_string id) batch q q' ->
      qabs q' = sp_with (delete id (sp_msgs (qabs q))) (qabs q) ->
      acked id q q' (AwaitDurable batch None).

Lemma core_apply_ack id c :
  core_apply decodeConfig (TypeAck, bytes_of_string id) c =
  match k_msgs c !! id with
  | None => inr (EAckUnknown id)
  | Some _ => inl (mkCore (k_cfg c) (delete id (k_msgs c)) (k_dedup c) (k_nextSeq c))
  end.
Proof using.
  unfold core_apply. rewrite !decide_False, decide_True by done.
  by rewrite string_of_bytes_of_string.
Qed.

Lemma core_apply_attempt t id c :
  t = TypeNack \/ t = TypeLeaseExpire ->
  core_apply decodeConfig (t, bytes_of_string id) c =
  match k_msgs c !! id with
  | None => inr (EAttemptUnknown id)
  | Some k => inl (mkCore (k_cfg c) (<[id := core_attempted (k_cfg c) k]> (k_msgs c)) (k_dedup c) (k_nextSeq c))
  end.
Proof using.
  intros Ht. unfold core_apply. rewrite string_of_bytes_of_string.
  rewrite (decide_True (P:=t = TypeNack \/ t = TypeLeaseExpire)) by done.
  by rewrite !decide_False by (destruct Ht; subst; done).
Qed.

Lemma Ack_correct T id q :
  QInv base T q ->
  exists q' ph, Ack id q = Some (q', ph) /\ QInv base T q' /\ acked id q q' ph.
Proof using.
  intros HQ. unfold Ack. destruct (checkLocked q) as [err|] eqn:Hc.
  { eexists _, _. split_and!; [done|done|by constructor]. }
  destruct (checkLocked_None q Hc) as [Hfa _].
  pose proof (state_of_byID T id q HQ) as Hs. destruct (ix_byID (q_ix q) !! id) as [l|] eqn:Hl.
  2: { eexists _, _. split_and!; [done|done|]. apply ack_unknown; [done|apply Hs]. }
  destruct Hs as (m & Hm & Hst & Habs). rewrite Hm. cbn [mbind option_bind].
  destruct (negb (bool_decide (m_state m = stateInFlight)) && negb (bool_decide (m_state m = stateDead))) eqn:Hlive.
  { bool_prop. eexists _, _. split_and!; [done|done|]. eapply ack_not_leased; [done..|].
    destruct (m_state m); auto; done. }
  assert (m_state m = stateInFlight \/ m_state m = stateDead) as Hst' by (destruct (m_state m); auto; done).
  destruct (logAppend_cases TypeAck (bytes_of_string id) q) as [[err HA]|(lg & HA & HA' & Hh & Hb)]; rewrite HA.
  { eexists _, _. split_and!; [done|auto with artie|by apply (ack_log_failed id q (m_state m))]. }
  destruct (applyAck_implements id (q_ix q) (qi_index _ _ _ HQ)) as (ix' & Happ & HI' & Ha').
  unfold spec_ack in Happ, Ha'. unfold qabs in Habs. rewrite Habs in Happ, Ha'. simpl in Happ, Ha'.
  cbn [q_ix with_log]. rewrite Happ. simpl. eexists _, _. split_and!; [done| |].
  - apply QInv_count. eapply (QInv_record base T T TypeAck); try done.
    + by eapply QInv_id_ok.
    + rewrite Ha'. destruct (qi_spec _ _ _ HQ) as [Hv Hd]. split; simpl; [|exact Hd].
      intros i m' [_ Hm']%lookup_delete_Some. by apply (Hv i).
    + intros c Hrep Hwf. rewrite core_apply_ack.
      pose proof (represents_ack T (abs (q_ix q)) c id Hrep) as Hr.
      destruct (k_msgs c !! id) as [k|] eqn:Hk.
      * eexists. split_and!; [done| |by apply core_wf_ack].
        unfold spec_ack in Hr. rewrite Habs in Hr. rewrite Ha'. apply Hr.
      * apply (rp_lookup_None _ _ _ _ Hrep) in Hk. congruence.
  - by apply (ack_done id q (m_state m)).
Qed.

(** The state after a failed attempt on [id] at [now], as logged in [t]. *)
Lemma attempt_QInv T now t id m q l :
  QInv base T q -> t = TypeNack \/ t = TypeLeaseExpire -> in_int64 now -> q_failed q = None ->
  sp_msgs (qabs q) !! id = Some m -> m_state m = stateInFlight ->
  Append t (bytes_of_string id) (q_log q) = (l, inl (lg_nextSeq (q_log q))) ->
  lg_hist l = lg_hist (q_log q) ++ [(lg_nextSeq (q_log q), (t, bytes_of_string id))] ->
  lg_base l = lg_base (q_log q) ->
  exists ix', applyAttempt id now (q_ix q) = Some (ix', ((spec_attempt id now (qabs q)).2)) /\
    (spec_attempt id now (qabs q)).2 = ((attempted (sp_cfg (qabs q)) now m).2, None) /\
    abs ix' = (spec_attempt id now (qabs q)).1 /\
    QInv base T (with_ix ix' (with_log l q)).
Proof using.
  intros HQ Ht Hnow Hfa Habs Hst HA Hh Hb.
  destruct (applyAttempt_implements id now (q_ix q) (qi_index _ _ _ HQ)) as (ix' & Happ & HI' & Ha').
  exists ix'. split_and!; [done| |done|].
  - unfold spec_attempt, qabs in *. rewrite Habs. by destruct (attempted _ now m).
  - eapply (QInv_record base T T t); try done.
    + eapply QInv_id_ok; [done..|]. by destruct Ht as [-> | ->].
    + by destruct Ht as [-> | ->].
    + rewrite Ha'. unfold spec_attempt. unfold qabs in Habs. rewrite Habs.
      destruct (qi_spec _ _ _ HQ) as [Hv Hd]. destruct (attempted _ now m) as [m' dead] eqn:Hatt.
      split; simpl; [|exact Hd]. intros i m1 [[_ <-]|[_ Hm1]]%lookup_insert_Some; [|by apply (Hv i)].
      unfold attempted, routed in Hatt. specialize (Hv _ _ Habs). repeat case_match; simplify_eq/=; done.
    + intros c Hrep Hwf. rewrite core_apply_attempt by done.
      pose proof (represents_attempt T (abs (q_ix q)) c id now Hrep) as Hr.
      destruct (k_msgs c !! id) as [k|] eqn:Hk.
      * eexists. split_and!; [done|rewrite Ha'; apply Hr|apply core_wf_attempt; try done].
        destruct (rp_lookup _ _ _ _ _ Hrep Habs) as (k' & Hk' & (_&_&_&_&_&_&Hdead&_)).
        rewrite Hk in Hk'. injection Hk' as <-. rewrite <- Hdead, Hst. done.
      * apply (rp_lookup_None _ _ _ _ Hrep) in Hk. unfold qabs in Habs. congruence.
Qed.

(** The ways a [Nack] can end its first critical section. *)
Inductive nacked now (id : string) q : Queue -> Phase (option Err) -> Prop :=
  | nack_refused err : checkLocked q = Some err -> nacked now id q q (Return (Some err))
  | nack_unknown : checkLocked q = None -> state_of id q = None -> nacked now id q q (Return (Some ErrNotFound))
  | nack_not_leased st :
      checkLocked q = None -> state_of id q = Some st -> st <> stateInFlight ->
      nacked now id q q (Return (Some ErrNotInFlight))
  | nack_log_failed err :
      checkLocked q = None -> state_of id q = Some stateInFlight ->
      logAppend TypeNack (bytes_of_string id) q = (q, inr err) ->
      nacked now id q (with_failed (Some err) q) (Return (Some err))
  | nack_done m q' batch :
      checkLocked q = None -> sp_msgs (qabs q) !! id = Some m -> m_state m = stateInFlight ->
      logged TypeNack (bytes_of_string id) batch q q' ->
      qabs q' = sp_set id (attempted (sp_cfg (qabs q)) now m).1 (qabs q) ->
      nacked now id q q' (AwaitDurable batch None).

Lemma Nack_correct T now id q :
  QInv base T q -> in_int64 now ->
  exists q' ph, Nack now id q = Some (q', ph) /\ QInv base T q' /\ nacked now id q q' ph.
Proof using.
  intros HQ Hnow. unfold Nack. destruct (checkLocked q) as [err|] eqn:Hc.
  { eexists _, _. split_and!; [done|done|by constructor]. }
  destruct (checkLocked_None q Hc) as [Hfa _].
  pose proof (state_of_byID T id q HQ) as Hs. destruct (ix_byID (q_ix q) !! id) as [l|] eqn:Hl.
  2: { eexists _, _. split_and!; [done|done|]. apply nack_unknown; [done|apply Hs]. }
  destruct Hs as (m & Hm & Hst & Habs). rewrite Hm. cbn [mbind option_bind].
  destruct (negb (bool_decide (m_state m = stateInFlight))) eqn:Hlive; bool_prop.
  { eexists _, _. split_and!; [done|done|]. by eapply nack_not_leased. }
  rewrite Hlive in Hst.
  destruct (logAppend_cases TypeNack (bytes_of_string id) q) as [[err HA]|(lg & HA & HA' & Hh & Hb)]; rewrite HA.
  { eexists _, _. split_and!; [done|auto with artie|by eapply nack_log_failed]. }
  destruct (attempt_QInv T now TypeNack id (erase m) q lg HQ (or_introl eq_refl) Hnow Hfa Habs Hlive HA' Hh Hb)
    as (ix' & Happ & Hres & Ha' & HQ').
  cbn [q_ix with_log]. rewrite Happ, Hres. simpl.
  assert (qabs (with_ix ix' (with_log lg q)) = sp_set id (attempted (sp_cfg (qabs q)) now (erase m)).1 (qabs q)) as Hq'.
  { unfold qabs at 1. simpl. rewrite Ha'. unfold spec_attempt. rewrite Habs. by destruct (attempted _ now _). }
  eexists _, _. split_and!; [done| |].
  - case_match; repeat apply QInv_count; done.
  - eapply (nack_done now id q (erase m)); try done; by case_match.
Qed.
End Ops.
