(* ===== verification/QueueTick.v ===== *)
(** * The timer keeps the invariant and does what is due

    [tick]: promotion, lease expiry, aging and the dedup purge in one critical
    section, and the time of the next event. *)

From Stdlib Require Import ZArith Lia.
From S2P Require Import Prelude GoInt Errors WalRecord Replay GoHeap Message Heaps Codec Index QueueSpec.
From S2P Require Import IndexInv IndexRefine Durable Log LogInv Queue Load QueueInv QueueOps.

Section Tick.
Context `{ConfigCodec} (base : list Entry).
Implicit Types (T now : Time) (q : Queue).

(** ** Lease expiry *)

(** No lease has run out: expiry changes nothing. *)
Lemma expire_idle now ix :
  Inv ix ->
  (forall l m, l ∈ ix_inflight ix -> ix_store ix !! l = Some m -> After (m_deadline m) now = true) ->
  spec_expire now (abs ix) = abs ix.
Proof using.
  intros HI Hd. unfold spec_expire, sp_with, abs. f_equal. apply map_eq. intros id. simpl.
  rewrite lookup_fmap. destruct (msgs ix !! id) as [m|] eqn:Hm; [|done]. simpl. f_equal.
  apply msgs_lookup in Hm as (l & m0 & Hl & Hm0 & ->). unfold expired.
  destruct (decide _) as [[Hst Hdue]|]; [|done].
  destruct (inv_registered id l ix HI Hl) as (m1 & Hm1 & _ & Ho & _).
  assert (m1 = m0) as -> by congruence. simpl in Hst, Hdue. rewrite Hst in Ho.
  assert (l ∈ ix_inflight ix) as Hin by (apply (inv_slot _ _ HI InFlight); done).
  by rewrite (Hd l m0 Hin Hm0) in Hdue.
Qed.

Lemma attempted_not_leased cfg now m : m_state (attempted cfg now m).1 <> stateInFlight.
Proof using. unfold attempted, routed. by repeat case_match. Qed.

(** Expiring one message, then all: the same as all. *)
Lemma expire_one now id m s :
  sp_msgs s !! id = Some m -> m_state m = stateInFlight -> After (m_deadline m) now = false ->
  spec_expire now (spec_attempt id now s).1 = spec_expire now s.
Proof using.
  intros Hm Hst Hdue. unfold spec_attempt. rewrite Hm.
  destruct (attempted (sp_cfg s) now m) as [m' dead] eqn:Hatt. unfold spec_expire, sp_set, sp_with. simpl.
  f_equal. rewrite fmap_insert. apply map_eq. intros i. destruct (decide (i = id)) as [->|].
  - rewrite lookup_insert_eq, lookup_fmap, Hm. simpl. f_equal. unfold expired.
    rewrite (decide_True (P := m_state m = _ /\ _)) by done. rewrite Hatt.
    rewrite decide_False; [done|]. intros [E _].
    apply (attempted_not_leased (sp_cfg s) now m). by rewrite Hatt.
  - by rewrite lookup_insert_ne.
Qed.

(** The leases [q] and [q'] share: those that have not run out at [now]. *)
Definition keeps_leases now q q' : Prop :=
  forall id m, sp_msgs (qabs q) !! id = Some m -> m_state m = stateInFlight ->
    After (m_deadline m) now = true -> sp_msgs (qabs q') !! id = Some m.

Lemma keeps_leases_trans now q1 q2 q3 : keeps_leases now q1 q2 -> keeps_leases now q2 q3 -> keeps_leases now q1 q3.
Proof using. intros K1 K2 id m Hm Hst Hd. apply K2, Hd; [by apply K1|done]. Qed.

Lemma keeps_leases_attempt now id m q q' :
  sp_msgs (qabs q) !! id = Some m -> After (m_deadline m) now = false ->
  qabs q' = (spec_attempt id now (qabs q)).1 -> keeps_leases now q q'.
Proof using.
  intros Hm Hdue Ha id' m' Hm' _ Hd'. rewrite Ha. unfold spec_attempt. rewrite Hm.
  destruct (attempted _ now m) as [m1 dead]. simpl. rewrite lookup_insert_ne; [done|]. intros ->. congruence.
Qed.

Lemma expire_loop_correct T fuel now maxBatch q :
  QInv base T q -> in_int64 now -> q_failed q = None -> (length (ix_inflight (q_ix q)) < fuel)%nat ->
  exists q' mb, expire_loop fuel now maxBatch q = Some (q', mb) /\ QInv base T q' /\
    q_closed q' = q_closed q /\ q_detached q' = q_detached q /\
    (q_lastAge q', q_lastPurge q') = (q_lastAge q, q_lastPurge q) /\ keeps_leases now q q' /\
    (q_failed q' = q_failed q /\ qabs q' = spec_expire now (qabs q) \/
     exists err, q_failed q' = Some err).
Proof using.
  revert maxBatch q. induction fuel as [|fuel IH]; intros maxBatch q HQ Hnow Hfa Hf; [lia|]. cbn [expire_loop].
  pose proof (qi_index _ _ _ HQ) as HI.
  destruct (ix_inflight (q_ix q)) as [|l rest] eqn:Hd.
  { exists q, maxBatch. split_and!; [done..|by intros id' m'|]. left. split; [done|]. symmetry. apply expire_idle; [done|].
    intros l m Hl. rewrite Hd in Hl. by apply not_elem_of_nil in Hl. }
  assert (l ∈ slot_items InFlight (q_ix q)) as Hin by (simpl; rewrite Hd; by left).
  destruct (proj1 (inv_slot _ _ HI InFlight l) Hin) as (_ & m & Hm & Hst & Hb).
  rewrite Hm. cbn [mbind option_bind]. destruct (After (m_deadline m) now) eqn:Hdue.
  { exists q, maxBatch. split_and!; [done..|by intros id' m'|]. left. split; [done|]. symmetry. apply expire_idle; [done|].
    by apply (head_first InFlight m_deadline (q_ix q) l rest m). }
  destruct (logAppend_cases TypeLeaseExpire (bytes_of_string (m_ID m)) q) as [[err HA]|(lg & HA & HA' & Hh & Hbs)];
    rewrite HA.
  { eexists _, _. split_and!; [done|by apply QInv_failed|done|done|done|by intros id' m'|]. right. by exists err. }
  assert (sp_msgs (qabs q) !! m_ID m = Some (erase m)) as Habs by (apply msgs_lookup; by exists l, m).
  destruct (attempt_QInv base T now TypeLeaseExpire (m_ID m) (erase m) q lg HQ (or_intror eq_refl) Hnow Hfa Habs Hst HA' Hh Hbs)
    as (ix' & Happ & Hres & Ha' & HQ').
  cbn [q_ix with_log]. rewrite Happ, Hres. simpl.
  set (q2 := if (attempted _ now (erase m)).2 then _ else _).
  assert (QInv base T q2 /\ q_ix q2 = ix' /\ q_closed q2 = q_closed q /\ q_failed q2 = q_failed q /\ q_detached q2 = q_detached q /\
    (q_lastAge q2, q_lastPurge q2) = (q_lastAge q, q_lastPurge q)) as (HQ2 & Eix & Ecl & Efa & Edet & Elast).
  { subst q2. case_match; (split; [repeat apply QInv_count; done|done]). }
  clearbody q2. assert (qabs q2 = (spec_attempt (m_ID m) now (qabs q)).1) as Ha2 by (unfold qabs at 1; by rewrite Eix).
  destruct (IH (if lg_nextSeq (q_log q) >? maxBatch then lg_nextSeq (q_log q) else maxBatch) q2 HQ2 Hnow)
    as (q' & mb & -> & HQ3 & Ecl' & Edet' & Elast' & Hkeep & Hres').
  { congruence. }
  { pose proof (attempt_ends_lease (m_ID m) now (erase m) (qabs q) Habs Hst) as Hlt. rewrite <- Ha2 in Hlt.
    pose proof (slot_count InFlight _ HI) as C1. pose proof (slot_count InFlight _ (qi_index _ _ _ HQ2)) as C2.
    unfold qabs in Hlt. simpl in C1, C2, Hlt, Hf. rewrite Hd in C1. simpl in C1. lia. }
  exists q', mb. split_and!; [done|done|congruence|congruence|congruence| |].
  { eapply keeps_leases_trans; [|exact Hkeep]. by eapply keeps_leases_attempt. }
  destruct Hres' as [[Hf' Ha'']|Hf']; [left|by right].
  split; [congruence|]. rewrite Ha'', Ha2. by apply (expire_one now (m_ID m) (erase m)).
Qed.

(** ** Aging and purging *)

(** The interval since the last aging has passed. *)
Definition aging_due now (last : Time) (cfg : Config) : bool :=
  (0 <? agingInterval cfg) && (agingInterval cfg <=? Sub now last).

(** Ready messages age when it has. *)
Definition spec_aged now (last : Time) (s : Spec) : Spec :=
  if aging_due now last (sp_cfg s) then spec_age now s else s.

(** An aging is only counted when there is something to age. *)
Definition aged_at now (last : Time) (s : Spec) : Time :=
  if aging_due now last (sp_cfg s) && negb (bool_decide (in_state stateReady s = ∅)) then now else last.

(** The purge of the dedup entries that have expired. *)
Definition spec_purged now (last : Time) (d : gmap string dedupEntry) : gmap string dedupEntry :=
  if Sub now last >=? dedupPurgeInterval then filter (fun '(_, e) => Before now (e_ExpiresAt e) = true) d else d.

Lemma age_none now s : in_state stateReady s = ∅ -> spec_age now s = s.
Proof using.
  intros He. destruct s as [cfg ms d n]. unfold spec_age, sp_with. cbn [sp_cfg sp_msgs sp_dedup sp_nextSeq]. f_equal.
  apply map_eq. intros id. rewrite lookup_fmap. destruct (ms !! id) as [m|] eqn:Hm; [|done]. simpl. f_equal.
  unfold aged. case_decide as Hst; [|done].
  assert (in_state stateReady (mkSpec cfg ms d n) !! id = Some m) as Hin by by apply in_state_lookup.
  by rewrite He, lookup_empty in Hin.
Qed.

Lemma ready_none ix : Inv ix -> ix_ready ix = [] <-> in_state stateReady (abs ix) = ∅.
Proof using.
  intros HI. pose proof (slot_count Ready ix HI) as Hn. cbn [slot_items slot_state] in Hn.
  rewrite <- map_size_empty_iff, <- Hn. destruct (ix_ready ix); naive_solver.
Qed.

Lemma agePriorities_correct T now q :
  QInv base T q -> q_detached q = None ->
  exists q', agePriorities now q = Some q' /\ QInv base T q' /\ q_log q' = q_log q /\
    q_detached q' = None /\ q_lastPurge q' = q_lastPurge q /\
    q_closed q' = q_closed q /\ q_failed q' = q_failed q /\
    qabs q' = spec_aged now (q_lastAge q) (qabs q) /\ q_lastAge q' = aged_at now (q_lastAge q) (qabs q).
Proof using.
  intros HQ Hdet. unfold agePriorities, spec_aged, aged_at, aging_due. change (sp_cfg (qabs q)) with (ix_cfg (q_ix q)).
  pose proof (ready_none _ (qi_index _ _ _ HQ)) as Hr0. change (abs (q_ix q)) with (qabs q) in Hr0.
  destruct (Z.leb_spec (agingInterval (ix_cfg (q_ix q))) 0) as [Hiv|Hiv]; cbn [orb].
  { assert (0 <? agingInterval (ix_cfg (q_ix q)) = false) as -> by lia. exists q. by split_and!. }
  assert (0 <? agingInterval (ix_cfg (q_ix q)) = true) as -> by lia. cbn [andb].
  destruct (ix_ready (q_ix q)) as [|l rest] eqn:Hr; cbn [length Nat.eqb orb].
  { pose proof (proj1 Hr0 eq_refl) as He. rewrite bool_decide_eq_true_2 by done. rewrite andb_false_r.
    exists q. split_and!; try done. case_match; [by rewrite age_none|done]. }
  assert (in_state stateReady (qabs q) <> ∅) as Hne by (by intros ?%Hr0).
  rewrite bool_decide_eq_false_2 by done. rewrite andb_true_r. cbn [negb].
  rewrite Z.leb_antisym. destruct (Z.ltb_spec (Sub now (q_lastAge q)) (agingInterval (ix_cfg (q_ix q)))); cbn [negb].
  { exists q. by split_and!. }
  assert (QInv base T (with_lastAge now q)) as HQ1 by by apply (QInv_same base T q).
  destruct (ageReady_implements now (q_ix q) (qi_index _ _ _ HQ)) as (ix' & E & HI' & Ha').
  cbn [q_ix with_lastAge]. rewrite E. simpl. eexists. split_and!; try done.
  apply (QInv_index base T T (with_lastAge now q)); [done|lia|done|done|rewrite Ha'; by apply spec_ok_age, HQ|].
  intros c Hrep. rewrite Ha'. by apply represents_age.
Qed.

Lemma purgeDedup_correct T now q :
  QInv base T q -> q_detached q = None ->
  QInv base (Z.max T now) (purgeDedup now q) /\ sp_msgs (qabs (purgeDedup now q)) = sp_msgs (qabs q) /\
  sp_dedup (qabs (purgeDedup now q)) = spec_purged now (q_lastPurge q) (sp_dedup (qabs q)) /\
  (forall k t, now <= t -> alive t (sp_dedup (qabs (purgeDedup now q)) !! k) = alive t (sp_dedup (qabs q) !! k)).
Proof using.
  intros HQ Hdet. unfold purgeDedup, spec_purged. destruct (_ >=? _).
  2: { split_and!; [|done..]. eapply QInv_later; [|done]. lia. }
  set (d := filter _ _).
  assert (forall k, d !! k = alive now (sp_dedup (qabs q) !! k)) as Hd.
  { intros k. subst d. unfold alive, qabs. simpl. rewrite map_lookup_filter.
    destruct (ix_dedup (q_ix q) !! k) as [e|]; simpl; [|done].
    destruct (Before now (e_ExpiresAt e)) eqn:E; by repeat case_guard. }
  split_and!; [|done|done|].
  - assert (QInv base (Z.max T now) (with_ix (set_dedup d (q_ix q)) q)) as HQ'.
    { apply (QInv_index base T); [done|lia|done|by apply set_dedup_Inv, HQ| |].
      { destruct (qi_spec _ _ _ HQ) as [Hv Hdd]. split; simpl; [exact Hv|]. intros k e Hk. rewrite Hd in Hk.
        unfold alive in Hk. simpl in Hdd. unfold qabs in Hk. simpl in Hk.
        destruct (ix_dedup (q_ix q) !! k) eqn:Hk0; [|done]. case_match; [|done]. simplify_eq. by apply Hdd. }
      intros c Hrep. by apply (represents_purge T (abs (q_ix q)) c now d). }
    by apply (QInv_same base (Z.max T now) (with_ix (set_dedup d (q_ix q)) q)).
  - intros k t Ht. transitivity (alive t (d !! k)); [done|]. rewrite Hd. unfold alive, Before.
    destruct (sp_dedup (qabs q) !! k) as [e|]; [|done].
    destruct (Z.ltb_spec now (e_ExpiresAt e)); [done|]. by rewrite (proj2 (Z.ltb_ge _ _)) by lia.
Qed.

(** ** The next event *)

(** [t] is no later than [u], or there is nothing at [u]. *)
Definition no_later (t u : Time) : Prop := u = zeroTime \/ (t <> zeroTime /\ t <= u).

Lemma consider_no_later t next :
  no_later (consider t next) t /\ (forall u, no_later next u -> no_later (consider t next) u).
Proof using.
  unfold consider, no_later, IsZero, Before.
  destruct (Z.eqb_spec t zeroTime); [split; auto|].
  destruct (Z.eqb_spec next zeroTime); simpl; [split; [right; lia|intros u [?|?]; [by left|lia]]|].
  destruct (Z.ltb_spec t next); split; try (right; lia); (intros u [?|[? ?]]; [by left|right; lia]).
Qed.

(** The head of a heap comes due no later than any message in it. *)
Lemma head_no_later s (key : Message -> Time) ix next :
  (forall c a b, kind_less (slot_kind s c) a b =
     if negb (Equal (key a) (key b)) then Before (key a) (key b) else m_Seq a <? m_Seq b) ->
  Inv ix ->
  exists next', (match slot_items s ix with
         | [] => Some next
         | l :: _ => m ← ix_store ix !! l; Some (consider (key m) next)
         end) = Some next' /\
    (forall u, no_later next u -> no_later next' u) /\
    ((forall l m, l ∈ slot_items s ix -> ix_store ix !! l = Some m -> key m <> zeroTime) ->
     forall l m, l ∈ slot_items s ix -> ix_store ix !! l = Some m -> no_later next' (key m)).
Proof using.
  intros Hkey HI. destruct (slot_items s ix) as [|l rest] eqn:Hd.
  - exists next. split_and!; [done..|]. intros _ l m Hl. by apply not_elem_of_nil in Hl.
  - destruct (inv_elem_store s ix None l HI) as [m0 Hm0]; [rewrite Hd; by left|].
    rewrite Hm0. simpl. eexists. split; [done|]. destruct (consider_no_later (key m0) next) as [H1 H2].
    split; [done|]. intros Hnz l' m' Hl' Hm'.
    assert (key m0 <> zeroTime) as Hz by (eapply Hnz; [by left|done]).
    destruct H1 as [?|[? Hle]]; [done|]. right. split; [done|].
    destruct (Z.le_gt_cases (key m0) (key m')) as [|Hgt]; [lia|exfalso].
    assert (After (key m') (key m') = true) as Hx; [|unfold After in Hx; by rewrite Z.ltb_irrefl in Hx].
    eapply (head_first s key ix l rest m0 (key m')); try done; [unfold After; apply Z.ltb_lt; lia|].
    by rewrite Hd.
Qed.

(** [next] is no later than any pending event. *)
Record wakes_for (next : Time) q : Prop := {
  wf_delayed id m : sp_msgs (qabs q) !! id = Some m -> m_state m = stateDelayed -> no_later next (m_VisibleAt m);
  wf_leased id m : sp_msgs (qabs q) !! id = Some m -> m_state m = stateInFlight -> no_later next (m_deadline m);
  wf_aging id m : sp_msgs (qabs q) !! id = Some m -> m_state m = stateReady ->
    0 < agingInterval (sp_cfg (qabs q)) -> no_later next (Add (q_lastAge q) (agingInterval (sp_cfg (qabs q))));
  wf_purge : sp_dedup (qabs q) <> ∅ -> no_later next (Add (q_lastPurge q) dedupPurgeInterval);
}.

(** No message has the zero time as its visibility time or deadline. *)
Definition no_zero_times q : Prop :=
  forall id m, sp_msgs (qabs q) !! id = Some m ->
    (m_state m = stateDelayed -> m_VisibleAt m <> zeroTime) /\
    (m_state m = stateInFlight -> m_deadline m <> zeroTime).

(** The messages in a slot, abstractly. *)
Lemma slot_msgs s ix l m :
  Inv ix -> l ∈ slot_items s ix -> ix_store ix !! l = Some m ->
  msgs ix !! m_ID m = Some (erase m) /\ m_state m = slot_state s.
Proof using.
  intros HI (_ & m0 & Hm0 & Hst & Hb)%(inv_slot _ _ HI) Hm. assert (m0 = m) as -> by congruence.
  split; [|done]. apply msgs_lookup. by exists l, m.
Qed.

Lemma msgs_slot s ix id m :
  Inv ix -> msgs ix !! id = Some m -> m_state m = slot_state s ->
  exists l m0, l ∈ slot_items s ix /\ ix_store ix !! l = Some m0 /\ m = erase m0.
Proof using.
  intros HI (l & m0 & Hl & Hm0 & ->)%msgs_lookup Hst. exists l, m0. split_and!; [|done..].
  apply (inv_slot _ _ HI). split; [done|]. exists m0. split_and!; [done..|].
  destruct (inv_id _ _ HI _ _ Hl) as (m1 & ? & ?). congruence.
Qed.

Lemma nextDeadlineLocked_correct q :
  Inv (q_ix q) ->
  exists next, nextDeadlineLocked q = Some next /\ (no_zero_times q -> wakes_for next q).
Proof using.
  intros HI. unfold nextDeadlineLocked.
  destruct (head_no_later Delayed m_VisibleAt (q_ix q) zeroTime) as (n1 & E1 & M1 & D1); [done..|].
  simpl in E1. rewrite E1. cbn [mbind option_bind].
  destruct (head_no_later InFlight m_deadline (q_ix q) n1) as (n2 & E2 & M2 & D2); [done..|].
  simpl in E2. rewrite E2. cbn [mbind option_bind].
  eexists. split; [done|]. intros Hnz.
  set (aging := (0 <? agingInterval _) && _). set (n3 := if aging then _ else n2).
  set (n4 := if bool_decide _ then n3 else _).
  assert (forall u, no_later n2 u -> no_later n3 u) as M3.
  { intros u Hu. subst n3. destruct aging; [|done]. by apply consider_no_later. }
  assert (forall u, no_later n3 u -> no_later n4 u) as M4.
  { intros u Hu. subst n4. case_bool_decide; [done|]. by apply consider_no_later. }
  split.
  - intros id m Hm Hst. destruct (msgs_slot Delayed (q_ix q) id m HI Hm Hst) as (l & m0 & Hl & Hm0 & ->).
    apply M4, M3, M2. refine (D1 _ l m0 Hl Hm0).
    intros l' m' Hl' Hm'. destruct (slot_msgs Delayed _ l' m' HI Hl' Hm') as [Hx Hy].
    by apply (Hnz _ _ Hx).
  - intros id m Hm Hst. destruct (msgs_slot InFlight (q_ix q) id m HI Hm Hst) as (l & m0 & Hl & Hm0 & ->).
    apply M4, M3. refine (D2 _ l m0 Hl Hm0).
    intros l' m' Hl' Hm'. destruct (slot_msgs InFlight _ l' m' HI Hl' Hm') as [Hx Hy].
    by apply (Hnz _ _ Hx).
  - intros id m Hm Hst Hiv. destruct (msgs_slot Ready (q_ix q) id m HI Hm Hst) as (l & m0 & Hl & Hm0 & ->).
    apply M4. subst n3 aging. simpl in Hl. unfold qabs in Hiv. simpl in Hiv.
    rewrite (proj2 (Z.ltb_lt _ _) Hiv). destruct (ix_ready (q_ix q)); [by apply not_elem_of_nil in Hl|].
    exact (proj1 (consider_no_later _ _)).
  - intros Hd. subst n4. rewrite bool_decide_eq_false_2 by done. exact (proj1 (consider_no_later _ _)).
Qed.

(** ** The whole tick *)

(** Nothing that was due at [now] is left: no message waits past its visibility
    time, none is leased past its deadline. *)
Definition nothing_due now (s : Spec) : Prop :=
  forall id m, sp_msgs s !! id = Some m ->
    (m_state m = stateDelayed -> After (m_VisibleAt m) now = true) /\
    (m_state m = stateInFlight -> After (m_deadline m) now = true).

Lemma promote_expire_nothing_due now s : nothing_due now (spec_expire now (spec_promote now s)).
Proof using.
  intros id m. simpl. rewrite !lookup_fmap, fmap_Some. intros (m1 & (m0 & _ & ->)%fmap_Some & ->).
  unfold expired. destruct (decide _) as [_|Hn].
  - split; [|by intros ?%attempted_not_leased].
    unfold attempted, routed. repeat case_match; done.
  - split.
    + unfold promoted, routed. repeat case_match; try done; simpl; congruence.
    + intros Hst. apply not_false_is_true. intros E. by apply Hn.
Qed.

Lemma age_nothing_due now s : nothing_due now s -> nothing_due now (spec_age now s).
Proof using.
  intros Hd id m. simpl. rewrite lookup_fmap, fmap_Some. intros (m0 & Hm0 & ->).
  specialize (Hd id m0 Hm0). unfold aged. by case_decide.
Qed.

Lemma tick_correct T now q :
  QInv base T q -> in_int64 now ->
  exists q' tk, tick now q = Some (q', tk) /\ QInv base (Z.max T now) q' /\
    match checkLocked q with
    | Some _ => q' = q /\ tk = mkTicked zeroTime 0 false
    | None =>
      (q_failed q' = None -> nothing_due now (qabs q') /\
        let s := spec_expire now (spec_promote now (qabs q)) in
        sp_msgs (qabs q') = sp_msgs (spec_aged now (q_lastAge q) s) /\ q_lastAge q' = aged_at now (q_lastAge q) s /\
        sp_dedup (qabs q') = spec_purged now (q_lastPurge q) (sp_dedup (qabs q))) /\
      keeps_leases now q q' /\
      (no_zero_times q' -> wakes_for (tk_next tk) q') /\
      (tk_shouldCompact tk = true -> q_failed q' = None)
    end.
Proof using.
  intros HQ Hnow. unfold tick, checkLocked.
  destruct (q_closed q) eqn:Hcl; [rewrite orb_true_r|rewrite orb_false_r].
  { exists q, (mkTicked zeroTime 0 false). split_and!; [done|eapply QInv_later; [|done]; lia|done..]. }
  destruct (q_failed q) as [err|] eqn:Hfa.
  { simpl. exists q, (mkTicked zeroTime 0 false). split_and!; [done|eapply QInv_later; [|done]; lia|done..]. }
  rewrite (bool_decide_eq_true_2 (None = None)) by done. cbn [negb].
  destruct (promoteDue_implements now (q_ix q) (qi_index _ _ _ HQ)) as (ix1 & -> & HI1 & Ha1).
  cbn [mbind option_bind].
  assert (QInv base T (with_ix ix1 q)) as HQ1.
  { pose proof (QInv_attached _ _ _ HQ Hfa) as Hdet.
    apply (QInv_index base T); [done|lia|done|done|rewrite Ha1; by apply spec_ok_promote, HQ|].
    intros c Hrep. rewrite Ha1. by apply represents_promote. }
  pose proof (QInv_attached _ _ _ HQ Hfa) as Hdet.
  destruct (expire_loop_correct T (S (length (ix_inflight (q_ix (with_ix ix1 q))))) now 0 _ HQ1 Hnow Hfa)
    as (q2 & mb & -> & HQ2 & Hcl2 & Hdet2 & Hlast2 & Hkeep & Hres); [lia|]. cbn [mbind option_bind].
  cbn [with_ix q_lastAge q_lastPurge] in Hlast2. injection Hlast2 as Hage2 Hpurge2.
  destruct (agePriorities_correct T now q2 HQ2 (eq_trans Hdet2 Hdet))
    as (q3 & -> & HQ3 & _ & Hdet3 & Hpurge3 & Hcl3 & Hf3 & Ha3 & Hage3). cbn [mbind option_bind].
  destruct (purgeDedup_correct T now q3 HQ3 Hdet3) as (HQ4 & Hm4 & Hd4 & _).
  set (q4 := purgeDedup now q3) in *.
  destruct (nextDeadlineLocked_correct q4 (qi_index _ _ _ HQ4)) as (next & -> & Hnext). simpl.
  eexists q4, _. split_and!; [done|done| | |done|].
  - intros Hf4. assert (q_failed q2 = None) as Hf2.
    { rewrite <- Hf3. revert Hf4. subst q4. unfold purgeDedup. by case_match. }
    destruct Hres as [[_ Ha2]|[err Herr]]; [|congruence].
    unfold qabs at 2 in Ha2. simpl in Ha2. rewrite Ha1 in Ha2. fold (qabs q) in Ha2.
    assert (nothing_due now (qabs q3)) as Hd.
    { pose proof (promote_expire_nothing_due now (qabs q)) as Hd. rewrite <- Ha2 in Hd.
      rewrite Ha3. unfold spec_aged. destruct (aging_due _ _ _); [by apply age_nothing_due|done]. }
    split; [intros id m Hm; rewrite Hm4 in Hm; by apply (Hd id)|]. cbv zeta. rewrite <- Ha2. split_and!.
    + change (sp_msgs (qabs q4) = sp_msgs (spec_aged now (q_lastAge q) (qabs q2))). by rewrite Hm4, Ha3, Hage2.
    + transitivity (q_lastAge q3); [subst q4; unfold purgeDedup; by case_match|]. by rewrite Hage3, Hage2.
    + change (sp_dedup (qabs q4) = spec_purged now (q_lastPurge q) (sp_dedup (qabs q))).
      rewrite Hd4, Ha3, Hpurge3, Hpurge2. unfold spec_aged. f_equal. transitivity (sp_dedup (qabs q2)); [by case_match|]. by rewrite Ha2.
  - intros id m Hm Hst Hd. rewrite Hm4.
    assert (sp_msgs (qabs q2) !! id = Some m) as Hm2.
    { apply Hkeep; try done. change (qabs (with_ix ix1 q)) with (abs ix1).
      rewrite Ha1. change (abs (q_ix q)) with (qabs q). cbn [spec_promote sp_with sp_msgs]. rewrite lookup_fmap, Hm.
      simpl. unfold promoted. by rewrite decide_False by congruence. }
    change (sp_msgs (qabs q3) !! id = Some m).
    rewrite Ha3. unfold spec_aged. destruct (aging_due _ _ _); [|done]. cbn [spec_age sp_with sp_msgs]. rewrite lookup_fmap, Hm2. simpl. unfold aged.
    by rewrite decide_False by congruence.
  - simpl. intros Hsc. bool_prop. done.
Qed.
End Tick.
