(* ===== verification/Writer.v ===== *)
(** * Writing a log in one pass ([Writer] in [internal/wal/replay.go])

    Compaction writes a whole new log to a temporary file and renames it over the
    old one.  A [Writer] is what was written through its buffer so far; the
    results of the system calls are arguments, and what they do to the file at
    the final path is in [Install]'s first result: whether that file is now what
    was written. *)

From Stdlib Require Import ZArith Lia.
From S2P Require Import Prelude GoInt Errors WalRecord Replay.

(** [type Writer struct]; [w_data] is the contents of the file [f] followed by
    those of the buffer [bw]. *)
Record Writer := mkWriter {
  w_tmp : string;
  w_data : list byte;
  w_size : Z;
}.

(** [openErr] is what [os.OpenFile] returned: the file is created or truncated. *)
Definition NewWriter (openErr : option Err) (tmp : string) : Writer + Err :=
  match openErr with
  | Some err => inr err
  | None => inl (mkWriter tmp [] 0)
  end.

(** [Append]; [writeErr] is what [w.bw.Write] returned.  After an error the
    caller may only [Abort]: what part of the record was written is not said. *)
Definition Writer_Append (writeErr : option Err) (t : RecType) (payload : list byte) (w : Writer)
    : Writer * option Err :=
  let rec := Encode [] t payload in
  match writeErr with
  | Some err => (w, Some err)
  | None => (mkWriter (w_tmp w) (w_data w ++ rec) (w_size w + Z.of_nat (length rec)), None)
  end.

Definition Writer_Size (w : Writer) : Z := w_size w.

(** The loop of [dirOf]: the last slash before position [i]. *)
Fixpoint lastSlash (p : list byte) (i : nat) : option nat :=
  match i with
  | O => None
  | S i => if bool_decide (p !! i = Some x2f) then Some i else lastSlash p i
  end.

Definition dirOf (p : string) : string :=
  let b := bytes_of_string p in
  match lastSlash b (length b) with
  | None => "."
  | Some i => if (i =? 0)%nat then "/" else string_of_bytes (take i b)
  end.

(** What each call of [Install] returned; [syncDir] is called with a directory. *)
Record InstallIO := mkInstallIO {
  ii_Flush : option Err;
  ii_Sync : option Err;
  ii_Close : option Err;
  ii_Rename : option Err;
  ii_syncDir : string -> option Err;
}.

Definition Install (io : InstallIO) (final : string) (w : Writer) : bool * option Err :=
  match ii_Flush io with Some err => (false, Some err) | None =>
  match ii_Sync io with Some err => (false, Some err) | None =>
  match ii_Close io with Some err => (false, Some err) | None =>
  match ii_Rename io with Some err => (false, Some err) | None =>
  match ii_syncDir io (dirOf final) with
  | Some err =>
    (true, Some (EWrapped ("renamed " ++ final ++ " into place but could not fsync its directory") err))
  | None => (true, None)
  end end end end end.

(** [Abort]: whether the temporary file is still there; [removeErr] is what
    [os.Remove] returned. *)
Definition Writer_Abort (removeErr : option Err) (w : Writer) : bool :=
  bool_decide (removeErr <> None).

(** [Append] of records in order; [io n] is what the [n]-th write returned. *)
Fixpoint writeAll (io : nat -> option Err) (n : nat) (es : list Entry) (w : Writer) : Writer * option Err :=
  match es with
  | [] => (w, None)
  | (t, payload) :: es =>
    match Writer_Append (io n) t payload w with
    | (w, Some err) => (w, Some err)
    | (w, None) => writeAll io (S n) es w
    end
  end.

(** ** What is written *)

Lemma Encode_as_entry t payload : Encode [] t payload = encode_entry (t, payload).
Proof. done. Qed.

(** Records written without an error are the log of those records. *)
Lemma writeAll_data io n es w w' :
  writeAll io n es w = (w', None) ->
  w_data w' = w_data w ++ encode_all es /\ w_tmp w' = w_tmp w /\
  w_size w' - w_size w = Z.of_nat (length (encode_all es)).
Proof.
  revert n w. induction es as [|[t p] es IH]; intros n w E; cbn [writeAll] in E.
  { injection E as <-. split_and!; [by rewrite app_nil_r|done|simpl; lia]. }
  unfold Writer_Append in E. destruct (io n); [done|]. apply IH in E as (Hd & Ht & Hs).
  cbn [w_data w_size w_tmp] in *. rewrite encode_all_cons, Hd, Encode_as_entry, <- app_assoc. split_and!; [done..|].
  rewrite length_app. rewrite Encode_as_entry in Hs. lia.
Qed.

Lemma writeAll_app io n es1 es2 w :
  writeAll io n (es1 ++ es2) w =
    match writeAll io n es1 w with
    | (w, None) => writeAll io (n + length es1) es2 w
    | r => r
    end.
Proof.
  revert n w. induction es1 as [|[t p] es1 IH]; intros n w; cbn [writeAll app length].
  - by rewrite Nat.add_0_r.
  - destruct (Writer_Append _ t p w) as [w1 [e|]]; [done|]. rewrite IH. by rewrite Nat.add_succ_comm.
Qed.

(** The rename has happened exactly when [Install] says so, and then only the
    directory's sync can still fail. *)
Lemma Install_cases io final w :
  (exists err, Install io final w = (false, Some err)) \/
  (ii_Rename io = None /\ exists e, Install io final w = (true, e)).
Proof.
  unfold Install. repeat case_match; simplify_eq; eauto.
Qed.

(** ** [dirOf] *)

Lemma lastSlash_skip p i j :
  (i <= j <= length p)%nat -> (forall k, (i <= k < j)%nat -> p !! k <> Some x2f) -> lastSlash p j = lastSlash p i.
Proof.
  induction j as [|j IH]; intros Hij Hk; [by assert (i = 0%nat) as -> by lia|].
  destruct (decide (i = S j)) as [->|]; [done|]. cbn [lastSlash].
  rewrite bool_decide_eq_false_2 by (apply Hk; lia). apply IH; [lia|]. intros k ?. apply Hk. lia.
Qed.

(** The path up to its last slash. *)
Lemma dirOf_join dir base :
  x2f ∉ bytes_of_string base ->
  dirOf (dir ++ "/" ++ base) = (if decide (dir = "") then "/" else dir) /\ dirOf base = ".".
Proof.
  intros Hb. unfold dirOf. rewrite !bytes_of_string_app. change (bytes_of_string "/") with [x2f].
  set (d := bytes_of_string dir). set (b := bytes_of_string base) in *.
  assert (forall k, b !! k <> Some x2f) as Hbk by (intros k Hk; apply Hb; by eapply list_elem_of_lookup_2).
  split.
  - rewrite (lastSlash_skip _ (S (length d))).
    + cbn [lastSlash]. rewrite bool_decide_eq_true_2 by (by apply list_lookup_middle).
      rewrite take_app_length. unfold d. case_decide as Hd.
      * by subst.
      * destruct (Nat.eqb_spec (length (bytes_of_string dir)) 0) as [E|]; [|by rewrite string_of_bytes_of_string].
        exfalso. apply Hd. rewrite <- (string_of_bytes_of_string dir). by apply nil_length_inv in E as ->.
    + rewrite !length_app. simpl. lia.
    + intros k Hk. rewrite lookup_app_r by lia. destruct (k - length d)%nat eqn:E; [lia|]. apply Hbk.
  - rewrite (lastSlash_skip _ 0); [done|lia|]. intros k _. apply Hbk.
Qed.
