(* ===== verification/Compact.v ===== *)
(** * Compaction ([Compact] in [internal/queue/queue.go])

    The log is rewritten as a snapshot of the live state and swapped with a
    rename.  The whole of it runs under the queue's mutex, so it is one function
    here; what each system call returned, the order in which the two maps were
    iterated and the clock are arguments. *)

From Stdlib Require Import ZArith Lia.
From stdpp Require Import sorting.
From S2P Require Import Prelude GoInt Errors WalRecord Replay GoHeap Message Heaps Codec Index Log Queue Load Writer.

(** ** The snapshot *)

(** [sort.Slice] by sequence number and by dedup id.  Go's sort is not stable;
    neither key occurs twice. *)
Definition seq_le (m1 m2 : Message) : Prop := m_Seq m1 <= m_Seq m2.
Definition dedup_le (e1 e2 : dedupEntry) : Prop := String.le (e_DedupID e1) (e_DedupID e2).
#[export] Instance seq_le_dec m1 m2 : Decision (seq_le m1 m2) := Z.le_dec (m_Seq m1) (m_Seq m2).
#[export] Instance dedup_le_dec e1 e2 : Decision (dedup_le e1 e2) := decide (String.le (e_DedupID e1) (e_DedupID e2)).

(** The messages in [q.byID], collected in the order [ids] and sorted. *)
Definition liveMessages (ids : list string) (ix : Index) : option (list Message) :=
  live ← mapM (fun id => l ← ix_byID ix !! id; ix_store ix !! l) ids;
  Some (merge_sort seq_le live).

(** A dedup entry to write: its window is open and its message is gone. *)
Definition orphan (now : Time) (ix : Index) (e : dedupEntry) : Prop :=
  Before now (e_ExpiresAt e) = true /\ ix_byID ix !! e_MessageID e = None.
#[export] Instance orphan_dec now ix e : Decision (orphan now ix e) :=
  decide (Before now (e_ExpiresAt e) = true /\ ix_byID ix !! e_MessageID e = None).

(** The orphans in [q.dedup], collected in the order [ids] and sorted. *)
Definition orphans (now : Time) (ids : list string) (ix : Index) : list dedupEntry :=
  merge_sort dedup_le (filter (orphan now ix) (omap (fun d => ix_dedup ix !! d) ids)).

Definition enqueueEntry (m : Message) : Entry := (TypeEnqueue, encodeMessage m).
Definition dedupRecord (e : dedupEntry) : Entry := (TypeDedup, encodeDedup e).

(** ** Compact *)

(** What the system calls returned. *)
Record CompactIO := mkCompactIO {
  co_NewWriter : option Err;
  co_Append : nat -> option Err;    (* the n-th record written *)
  co_Install : InstallIO;
  co_Remove : option Err;           (* [os.Remove] in [Abort] *)
  co_Close : option Err;            (* [f.Close] and [os.OpenFile] in [Reopen] *)
  co_OpenFile : option Err;
}.

Definition noCompactIO : CompactIO :=
  mkCompactIO None (fun _ => None) (mkInstallIO None None None None (fun _ => None)) None None None.

Definition notDurable (name : string) (err : Err) : Err :=
  EWrapped ("compaction of queue " ++ name ++ " swapped the log into place but could not make the swap durable") err.
Definition notReopened (name : string) (err : Err) : Err :=
  EWrapped ("compaction of queue " ++ name ++ " installed a new log but could not reopen it") err.

(** The error, and whether the temporary file is still there. *)
Record Compacted := mkCompacted { cp_err : option Err; cp_tmp : bool }.

Section Compact.
Context `{ConfigCodec}.

(** The rename, the swap of the descriptor and what follows, with the snapshot
    written.  [Reopen]'s [Sync] finds the log as [Compact]'s own left it. *)
Definition finishCompact (io : CompactIO) (w : Writer) (q : Queue) : Queue * Compacted :=
  let size := Writer_Size w in
  let name := c_Name (ix_cfg (q_ix q)) in
  match Install (co_Install io) (q_path q) w with
  | (false, Some err) => (q, mkCompacted (Some err) (Writer_Abort (co_Remove io) w))
  | (true, Some err) =>
    let err := notDurable name err in
    (with_detached (Some [disk_bytes (lg_disk (q_log q)); w_data w]) (with_failed (Some err) q),
     mkCompacted (Some err) false)
  | (_, None) =>
    match Reopen size (co_Close io) (co_OpenFile io) (mkDisk (w_data w) []) (q_log q) with
    | (l, Some err) =>
      let err := notReopened name err in
      (with_detached (Some [w_data w]) (with_failed (Some err) (with_log l q)), mkCompacted (Some err) false)
    | (l, None) =>
      (count (add_Compactions 1) (with_compactFloor (2 * size) (with_log l q)), mkCompacted None false)
    end
  end.

(** [Compact]; [syncErr] is what [q.log.Sync] returned. *)
Definition Compact (syncErr : option Err) (now : Time) (liveOrder dedupOrder : list string)
    (io : CompactIO) (q : Queue) : option (Queue * Compacted) :=
  match checkLocked q with
  | Some err => Some (q, mkCompacted (Some err) false)
  | None =>
    match syncErr with
    | Some err => Some (with_failed (Some err) q, mkCompacted (Some err) false)
    | None =>
      let tmp := (q_path q ++ ".compact")%string in
      match NewWriter (co_NewWriter io) tmp with
      | inr err => Some (q, mkCompacted (Some err) false)
      | inl w =>
        let abort w err := Some (q, mkCompacted (Some err) (Writer_Abort (co_Remove io) w)) in
        let cfg := set_NextSeq (ix_nextSeq (q_ix q)) (ix_cfg (q_ix q)) in
        match encodeConfig cfg with
        | inr err => abort w err
        | inl meta =>
          match writeAll (co_Append io) 0 [(TypeMeta, meta)] w with
          | (w, Some err) => abort w err
          | (w, None) =>
            live ← liveMessages liveOrder (q_ix q);
            match writeAll (co_Append io) 1 (enqueueEntry <$> live) w with
            | (w, Some err) => abort w err
            | (w, None) =>
              match writeAll (co_Append io) (S (length live)) (dedupRecord <$> orphans now dedupOrder (q_ix q)) w with
              | (w, Some err) => abort w err
              | (w, None) => Some (finishCompact io w q)
              end
            end
          end
        end
      end
    end
  end.

(** The records of a snapshot. *)
Definition snapshot (now : Time) (liveOrder dedupOrder : list string) (meta : list byte) (ix : Index)
    : option (list Entry) :=
  live ← liveMessages liveOrder ix;
  Some ((TypeMeta, meta) :: (enqueueEntry <$> live) ++ (dedupRecord <$> orphans now dedupOrder ix)).
End Compact.
