(* ===== verification/Snapshot.v ===== *)
(** * What a snapshot stands for

    The records [Compact] writes are a function of the abstract state, whatever
    order the maps were iterated in.  Replaying them gives a core with the same
    messages, the same counter and, for every dedup id, an entry that matters
    exactly when the queue's own does. *)

From Stdlib Require Import ZArith Lia.
From stdpp Require Import sorting.
From S2P Require Import Prelude GoInt Errors WalRecord Replay GoHeap Message Heaps Codec Index QueueSpec.
From S2P Require Import IndexInv IndexRefine Durable Queue Load QueueInv Compact.

(** ** Sorting *)

#[export] Instance seq_le_trans : Transitive seq_le.
Proof. intros m1 m2 m3. unfold seq_le. lia. Qed.
#[export] Instance seq_le_total : Total seq_le.
Proof. intros m1 m2. unfold seq_le. lia. Qed.
#[export] Instance dedup_le_trans : Transitive dedup_le.
Proof. intros e1 e2 e3. unfold dedup_le. apply transitivity. Qed.
#[export] Instance dedup_le_total : Total dedup_le.
Proof. intros e1 e2. unfold dedup_le. apply (total String.le). Qed.

(** Sorting undoes any order the keys came in. *)
Lemma merge_sort_unique {A} (R : relation A) `{!forall x y, Decision (R x y), !Transitive R, !Total R} l1 l2 :
  l1 ≡ₚ l2 -> (forall x y, x ∈ l1 -> y ∈ l1 -> R x y -> R y x -> x = y) ->
  merge_sort R l1 = merge_sort R l2.
Proof.
  intros Hp Hinj. apply (StronglySorted_unique_strong R); [|apply StronglySorted_merge_sort; apply _..|].
  - intros x y Hx Hy. rewrite merge_sort_Permutation in Hx. rewrite merge_sort_Permutation, <- Hp in Hy. by apply Hinj.
  - by rewrite !merge_sort_Permutation.
Qed.

Lemma StronglySorted_filter {A} (R : relation A) (P : A -> Prop) `{!forall x, Decision (P x)} l :
  StronglySorted R l -> StronglySorted R (filter P l).
Proof.
  induction 1 as [|x l _ IH Hx]; [constructor|]. rewrite filter_cons. case_decide; [|done].
  apply StronglySorted_cons. split; [|done]. rewrite Forall_forall in *. intros y [_ Hy]%list_elem_of_filter. auto.
Qed.

(** The values of a map, collected by its keys in any order. *)
Lemma omap_keys {V} (m : gmap string V) ids :
  ids ≡ₚ (map_to_list m).*1 -> omap (fun k => m !! k) ids ≡ₚ (map_to_list m).*2.
Proof.
  intros ->. assert (omap (fun k => m !! k) (map_to_list m).*1 = (map_to_list m).*2) as ->; [|done].
  assert (forall l, (forall k v, (k, v) ∈ l -> m !! k = Some v) -> omap (fun k => m !! k) l.*1 = l.*2) as Hl;
    [|apply Hl; by intros k v ?%elem_of_map_to_list].
  induction l as [|[k v] l IH]; intros Hl; [done|]. cbn [fmap list_fmap omap list_omap fst snd].
  rewrite (Hl k v) by left. f_equal. apply IH. intros k' v' ?. apply Hl. by right.
Qed.

(** ** The snapshot of an abstract state *)

Definition spec_live (s : Spec) : list Message := merge_sort seq_le (map_to_list (sp_msgs s)).*2.

Definition spec_orphan (now : Time) (s : Spec) (e : dedupEntry) : Prop :=
  Before now (e_ExpiresAt e) = true /\ sp_msgs s !! e_MessageID e = None.
#[export] Instance spec_orphan_dec now s e : Decision (spec_orphan now s e) :=
  decide (Before now (e_ExpiresAt e) = true /\ sp_msgs s !! e_MessageID e = None).

Definition spec_orphans (now : Time) (s : Spec) : list dedupEntry :=
  merge_sort dedup_le (filter (spec_orphan now s) (map_to_list (sp_dedup s)).*2).

Definition spec_snapshot (now : Time) (meta : list byte) (s : Spec) : list Entry :=
  (TypeMeta, meta) :: (enqueueEntry <$> spec_live s) ++ (dedupRecord <$> spec_orphans now s).

Lemma elem_of_spec_live s m : m ∈ spec_live s <-> exists id, sp_msgs s !! id = Some m.
Proof.
  unfold spec_live. rewrite merge_sort_Permutation, list_elem_of_fmap. split.
  - intros ([id m'] & -> & Hin%elem_of_map_to_list). eauto.
  - intros [id Hm]. exists (id, m). split; [done|]. by apply elem_of_map_to_list.
Qed.

Lemma elem_of_spec_orphans now s e :
  e ∈ spec_orphans now s <-> spec_orphan now s e /\ exists d, sp_dedup s !! d = Some e.
Proof.
  unfold spec_orphans. rewrite merge_sort_Permutation, list_elem_of_filter, list_elem_of_fmap. split.
  - intros (? & [d e'] & -> & Hin%elem_of_map_to_list). eauto.
  - intros (? & d & Hd). split; [done|]. exists (d, e). split; [done|]. by apply elem_of_map_to_list.
Qed.

(** What [Compact] relies on: every message under its id, no sequence number
    twice, every entry under its dedup id. *)
Record keyed (s : Spec) : Prop := {
  ky_id id m : sp_msgs s !! id = Some m -> m_ID m = id;
  ky_seq id id' m m' : sp_msgs s !! id = Some m -> sp_msgs s !! id' = Some m' -> m_Seq m = m_Seq m' -> id = id';
  ky_dedup d e : sp_dedup s !! d = Some e -> e_DedupID e = d;
}.

(** [Compact] writes the snapshot of the abstract state. *)
Lemma encodeMessage_erase m : encodeMessage (erase m) = encodeMessage m.
Proof. done. Qed.

Lemma liveMessages_spec ix ids :
  Inv ix -> keyed (abs ix) -> ids ≡ₚ (map_to_list (ix_byID ix)).*1 ->
  exists live, liveMessages ids ix = Some live /\ erase <$> live = spec_live (abs ix).
Proof.
  intros HI HK Hids. unfold liveMessages.
  set (f := fun id => l ← ix_byID ix !! id; ix_store ix !! l).
  assert (is_Some (mapM f ids)) as [live Hlive].
  { apply mapM_is_Some_2, Forall_forall. intros id Hid. rewrite Hids in Hid.
    apply list_elem_of_fmap in Hid as ([id' l] & -> & Hl%elem_of_map_to_list). simpl.
    destruct (inv_registered id' l ix HI Hl) as (m & Hm & _). exists m. unfold f. by rewrite Hl. }
  rewrite Hlive. eexists. split; [done|].
  assert (erase <$> live = omap (fun id => sp_msgs (abs ix) !! id) ids) as El.
  { apply mapM_Some in Hlive. clear Hids. induction Hlive as [|id m ids live Hm _ IH]; [done|].
    cbn [fmap list_fmap omap list_omap]. rewrite <- IH.
    apply bind_Some in Hm as (l & Hl & Hm). assert (sp_msgs (abs ix) !! id = Some (erase m)) as ->; [|done].
    apply msgs_lookup. eauto. }
  assert ((map_to_list (ix_byID ix)).*1 ≡ₚ (map_to_list (sp_msgs (abs ix))).*1) as Hkeys.
  { apply NoDup_Permutation; [apply NoDup_fst_map_to_list..|]. intros id.
    rewrite !list_elem_of_fmap. split.
    - intros ([id' l] & -> & Hl%elem_of_map_to_list). destruct (inv_registered id' l ix HI Hl) as (m & _ & _ & _ & Hm).
      exists (id', erase m). split; [done|]. by apply elem_of_map_to_list.
    - intros ([id' m] & -> & Hm%elem_of_map_to_list). apply msgs_lookup in Hm as (l & ? & Hl & _).
      exists (id', l). split; [done|]. by apply elem_of_map_to_list. }
  assert (erase <$> live ≡ₚ (map_to_list (sp_msgs (abs ix))).*2) as Hperm.
  { rewrite El. apply omap_keys. by rewrite Hids. }
  unfold spec_live. apply (StronglySorted_unique_strong seq_le).
  - intros m1 m2 H1 H2 Hle1 Hle2.
    assert (m1 ∈ (map_to_list (sp_msgs (abs ix))).*2) as H1'.
    { by rewrite <- Hperm, <- (merge_sort_Permutation seq_le live). }
    rewrite merge_sort_Permutation in H2.
    apply list_elem_of_fmap in H1' as ([id1 ?] & -> & Hm1%elem_of_map_to_list).
    apply list_elem_of_fmap in H2 as ([id2 ?] & -> & Hm2%elem_of_map_to_list). unfold seq_le in *. simpl in *.
    assert (id1 = id2) as -> by (eapply (ky_seq _ HK); [exact Hm1|exact Hm2|lia]). congruence.
  - apply (StronglySorted_fmap erase seq_le seq_le); [done|]. apply StronglySorted_merge_sort; apply _.
  - apply StronglySorted_merge_sort; apply _.
  - by rewrite !merge_sort_Permutation.
Qed.

Lemma orphans_spec now ix ids :
  Inv ix -> keyed (abs ix) -> ids ≡ₚ (map_to_list (ix_dedup ix)).*1 ->
  orphans now ids ix = spec_orphans now (abs ix).
Proof.
  intros HI HK Hids. unfold orphans, spec_orphans.
  assert (forall l : list dedupEntry, filter (orphan now ix) l = filter (spec_orphan now (abs ix)) l) as Hf.
  { intros l. apply list_filter_iff. intros e. unfold orphan, spec_orphan. by rewrite abs_lookup_None. }
  rewrite Hf. apply merge_sort_unique; [apply _..| |].
  - apply filter_Permutation. by apply omap_keys.
  - intros e1 e2 [_ H1]%list_elem_of_filter [_ H2]%list_elem_of_filter Hle1 Hle2.
    rewrite (omap_keys (ix_dedup ix) ids Hids) in H1, H2.
    apply list_elem_of_fmap in H1 as ([d1 ?] & -> & H1%elem_of_map_to_list).
    apply list_elem_of_fmap in H2 as ([d2 ?] & -> & H2%elem_of_map_to_list). simpl in *.
    pose proof (ky_dedup _ HK _ _ H1). pose proof (ky_dedup _ HK _ _ H2).
    assert (e_DedupID d = e_DedupID d0) as E by by apply (anti_symm String.le). congruence.
Qed.

Lemma snapshot_spec now ix meta ids1 ids2 :
  Inv ix -> keyed (abs ix) -> ids1 ≡ₚ (map_to_list (ix_byID ix)).*1 -> ids2 ≡ₚ (map_to_list (ix_dedup ix)).*1 ->
  snapshot now ids1 ids2 meta ix = Some (spec_snapshot now meta (abs ix)).
Proof.
  intros HI HK H1 H2. unfold snapshot. destruct (liveMessages_spec ix ids1 HI HK H1) as (live & -> & El).
  simpl. rewrite (orphans_spec now ix ids2 HI HK H2). unfold spec_snapshot. rewrite <- El. do 3 f_equal.
  rewrite <- list_fmap_compose. by apply list_fmap_ext.
Qed.

(** ** The core of a snapshot *)

Section Core.
Context `{ConfigCodec}.

(** The last message with a dedup id is the one whose entry stays. *)
Definition lastWith (d : string) (ms : list Message) : option Message :=
  last (filter (fun m => m_DedupID m = d) ms).

Lemma persisted_core m : core_msg (persisted m) = core_msg m.
Proof using.
  unfold core_msg, persisted. simpl. f_equal. apply bool_decide_ext. case_decide; naive_solver.
Qed.

(** [ENQUEUE] records of messages none of which is there. *)
Record enqueued_core (c : Core) (ms : list Message) (c' : Core) : Prop := {
  ec_cfg : k_cfg c' = k_cfg c;
  ec_next : k_nextSeq c' = k_nextSeq c;
  ec_msgs id k : k_msgs c' !! id = Some k <-> exists m, m ∈ ms /\ m_ID m = id /\ k = core_msg m;
  ec_dedup d : k_dedup c' !! d =
    if decide (d = "") then None
    else (fun m => entryOf (k_cfg c) (m_ID m) (core_msg m)) <$> lastWith d ms;
}.

Lemma core_run_enqueues c ms :
  k_msgs c = ∅ -> k_dedup c = ∅ -> Forall encodable ms -> NoDup (m_ID <$> ms) ->
  Forall (fun m => m_Seq m < k_nextSeq c) ms ->
  exists c', core_run decodeConfig (enqueueEntry <$> ms) c = inl c' /\ enqueued_core c ms c'.
Proof using.
  intros Hm Hd. induction ms as [|m ms IH] using rev_ind; intros Henc Hnd Hseq.
  { exists c. split; [done|]. split; try done.
    - intros id k. rewrite Hm, lookup_empty. split; [done|]. by intros (? & ?%elem_of_nil & _).
    - intros d. rewrite Hd, lookup_empty. by case_decide. }
  apply Forall_app in Henc as [Henc [Hem _]%Forall_cons]. apply Forall_app in Hseq as [Hseq [Hlt _]%Forall_cons].
  rewrite fmap_app in Hnd. apply NoDup_app in Hnd as (Hnd & Hnew & _).
  destruct IH as (c1 & Hrun & [Ec En Em Ed]); [done..|].
  assert (k_msgs c1 !! m_ID m = None) as Hnone.
  { destruct (k_msgs c1 !! m_ID m) as [k|] eqn:Hk; [|done]. apply Em in Hk as (m' & Hin & Eid & _).
    destruct (Hnew (m_ID m)); [|by left]. apply list_elem_of_fmap. eauto. }
  rewrite fmap_app, core_run_app, Hrun. cbn [fmap list_fmap core_run]. unfold core_apply, enqueueEntry.
  rewrite decide_False, decide_True by done.
  rewrite <- (app_nil_r (encodeMessage m)), decodeMessage_app by done. unfold core_enqueue.
  change (m_ID (persisted m)) with (m_ID m). rewrite Hnone, persisted_core.
  eexists. split; [done|]. split; simpl; [done|..].
  - rewrite Z.geb_leb, (proj2 (Z.leb_gt _ _)); [done|]. lia.
  - intros id k. rewrite lookup_insert_Some. split.
    + intros [[<- <-]|[_ (m' & Hin & ? & ?)%Em]]; [exists m|exists m'];
        (split_and!; [apply elem_of_app; rewrite ?list_elem_of_singleton; auto|done..]).
    + intros (m' & [Hin|Hin%list_elem_of_singleton]%elem_of_app & <- & ->); [right|subst; by left].
      split; [|apply Em; eauto]. intros E. destruct (Hnew (m_ID m)); [|by left]. apply list_elem_of_fmap. eauto.
  - intros d. unfold lastWith. rewrite filter_app, filter_cons, filter_nil. fold (lastWith d ms).
    destruct (decide (m_DedupID m = d)) as [<-|Hne].
    + rewrite last_snoc. case_decide; [by rewrite Ed, decide_True|]. rewrite lookup_insert_eq. by rewrite Ec.
    + rewrite app_nil_r. case_decide; [apply Ed|]. rewrite lookup_insert_ne by done. apply Ed.
Qed.
(** [DEDUP] records, each for another dedup id. *)
Lemma core_run_dedups c es :
  Forall dedup_encodable es -> NoDup (e_DedupID <$> es) ->
  exists d, core_run decodeConfig (dedupRecord <$> es) c = inl (mkCore (k_cfg c) (k_msgs c) d (k_nextSeq c)) /\
    (forall e, e ∈ es -> d !! e_DedupID e = Some e) /\
    (forall k, k ∉ e_DedupID <$> es -> d !! k = k_dedup c !! k).
Proof using.
  revert c. induction es as [|e es IH]; intros c Henc Hnd.
  { exists (k_dedup c). split; [by destruct c|]. split; [by intros ? ?%elem_of_nil|done]. }
  apply Forall_cons in Henc as [He Henc]. apply NoDup_cons in Hnd as [Hnew Hnd].
  cbn [fmap list_fmap core_run]. unfold core_apply at 1. unfold dedupRecord at 1.
  rewrite !decide_False, decide_True, decodeDedup_encodeDedup by (done || by intros []).
  destruct (IH (mkCore (k_cfg c) (k_msgs c) (<[e_DedupID e := e]> (k_dedup c)) (k_nextSeq c)) Henc Hnd)
    as (d & Hrun & Hin & Hout). cbn [k_cfg k_msgs k_dedup k_nextSeq] in *.
  exists d. split; [exact Hrun|]. split.
  - intros e' [->|?]%elem_of_cons; [|auto]. rewrite Hout by done. apply lookup_insert_eq.
  - intros k [Hne Hk]%not_elem_of_cons. rewrite Hout by done. by apply lookup_insert_ne.
Qed.

(** Where the entry of a dedup id comes from. *)
Inductive snapshot_dedup (now : Time) (s : Spec) (d : string) : option dedupEntry -> Prop :=
  | sd_orphan e : sp_dedup s !! d = Some e -> spec_orphan now s e -> snapshot_dedup now s d (Some e)
  | sd_live id m :
      (forall e, sp_dedup s !! d = Some e -> ~ spec_orphan now s e) ->
      sp_msgs s !! id = Some m -> m_DedupID m = d -> d <> "" ->
      (forall id' m', sp_msgs s !! id' = Some m' -> m_DedupID m' = d -> m_Seq m' <= m_Seq m) ->
      snapshot_dedup now s d (Some (entryOf (sp_cfg s) id (core_msg m)))
  | sd_none :
      (forall e, sp_dedup s !! d = Some e -> ~ spec_orphan now s e) ->
      (forall id m, sp_msgs s !! id = Some m -> m_DedupID m = d -> d = "") ->
      snapshot_dedup now s d None.

(** The core the snapshot of [s] replays to. *)
Record snapshot_core (now : Time) (s : Spec) (c : Core) : Prop := {
  sc_cfg : k_cfg c = set_NextSeq (sp_nextSeq s) (sp_cfg s);
  sc_next : k_nextSeq c = sp_nextSeq s;
  sc_msgs : k_msgs c = core_msg <$> sp_msgs s;
  sc_dedup d : snapshot_dedup now s d (k_dedup c !! d);
}.

(** What fits the stored widths. *)
Record storable (s : Spec) : Prop := {
  sr_msgs id m : sp_msgs s !! id = Some m -> encodable m /\ m_Seq m < sp_nextSeq s;
  sr_dedup d e : sp_dedup s !! d = Some e -> dedup_encodable e;
  sr_next : 1 <= sp_nextSeq s;
}.

Lemma NoDup_live_ids s : keyed s -> NoDup (m_ID <$> spec_live s).
Proof using.
  intros HK. unfold spec_live. rewrite merge_sort_Permutation.
  assert (m_ID <$> (map_to_list (sp_msgs s)).*2 = (map_to_list (sp_msgs s)).*1) as ->; [|apply NoDup_fst_map_to_list].
  rewrite <- list_fmap_compose. apply list_fmap_ext. intros i [id m] Hi%list_elem_of_lookup_2.
  apply elem_of_map_to_list in Hi. by apply (ky_id _ HK).
Qed.

Lemma NoDup_orphan_ids now s : keyed s -> NoDup (e_DedupID <$> spec_orphans now s).
Proof using.
  intros HK. unfold spec_orphans. rewrite merge_sort_Permutation.
  eapply sublist_NoDup; [|apply fmap_sublist, sublist_filter].
  assert (e_DedupID <$> (map_to_list (sp_dedup s)).*2 = (map_to_list (sp_dedup s)).*1) as ->; [|apply NoDup_fst_map_to_list].
  rewrite <- list_fmap_compose. apply list_fmap_ext. intros i [d e] Hi%list_elem_of_lookup_2.
  apply elem_of_map_to_list in Hi. by apply (ky_dedup _ HK).
Qed.

(** The last live message with a dedup id is the one with the highest number. *)
Lemma lastWith_spec d s :
  match lastWith d (spec_live s) with
  | Some m => m ∈ spec_live s /\ m_DedupID m = d /\
      forall m', m' ∈ spec_live s -> m_DedupID m' = d -> m_Seq m' <= m_Seq m
  | None => forall m, m ∈ spec_live s -> m_DedupID m <> d
  end.
Proof using.
  unfold lastWith. assert (StronglySorted seq_le (spec_live s)) as Hs by (apply StronglySorted_merge_sort; apply _).
  destruct (last _) as [m|] eqn:Hl.
  - apply last_Some in Hl as [l' Hf].
    assert (m ∈ filter (fun m => m_DedupID m = d) (spec_live s)) as [Hd Hin]%list_elem_of_filter
      by (rewrite Hf; apply elem_of_app; right; by left).
    split_and!; [done..|]. intros m' Hin' Hd'.
    assert (m' ∈ filter (fun m => m_DedupID m = d) (spec_live s)) as Hm' by by apply list_elem_of_filter.
    assert (StronglySorted seq_le (filter (fun m => m_DedupID m = d) (spec_live s))) as Hsf.
    { by apply StronglySorted_filter. }
    rewrite Hf in Hm', Hsf. apply elem_of_app in Hm' as [Hm'|Hm'%list_elem_of_singleton]; [|subst; lia].
    eapply (StronglySorted_app_1_elem_of seq_le _ _ m' m Hsf); [done|by left].
  - apply last_None in Hl. intros m Hin Hd. eapply (not_elem_of_nil m). rewrite <- Hl. by apply list_elem_of_filter.
Qed.
(** A snapshot replays, to the core it stands for. *)
Lemma spec_snapshot_core now meta s :
  let cfg := set_NextSeq (sp_nextSeq s) (sp_cfg s) in
  keyed s -> storable s -> decodeConfig meta = inl cfg -> Validate cfg = (cfg, None) ->
  exists c, core_run decodeConfig (spec_snapshot now meta s) core0 = inl c /\ snapshot_core now s c.
Proof using.
  intros cfg HK HS Hdec Hval. unfold spec_snapshot. cbn [core_run]. unfold core_apply at 1.
  rewrite decide_True, Hdec, Hval by done. pose proof (sr_next _ HS) as Hnext.
  assert (Z.max (k_nextSeq core0) (c_NextSeq cfg) = sp_nextSeq s) as -> by (destruct s as [[] ? ? ?]; simpl in *; lia).
  set (c0 := mkCore cfg ∅ ∅ (sp_nextSeq s)). change (k_msgs core0) with (k_msgs c0). change (k_dedup core0) with (k_dedup c0).
  change (mkCore cfg (k_msgs c0) (k_dedup c0) (sp_nextSeq s)) with c0.
  destruct (core_run_enqueues c0 (spec_live s)) as (c1 & Hr1 & [Ec En Em Ed]); [done|done|..|].
  { apply Forall_forall. intros m [id Hm]%elem_of_spec_live. by eapply (sr_msgs _ HS). }
  { by apply NoDup_live_ids. }
  { apply Forall_forall. intros m [id Hm]%elem_of_spec_live. by eapply (sr_msgs _ HS). }
  destruct (core_run_dedups c1 (spec_orphans now s)) as (dd & Hr2 & Hin & Hout).
  { apply Forall_forall. intros e [_ [d Hd]]%elem_of_spec_orphans. by eapply (sr_dedup _ HS). }
  { by apply NoDup_orphan_ids. }
  eexists. split; [by rewrite core_run_app, Hr1, Hr2|]. split; cbn [k_cfg k_nextSeq k_msgs k_dedup].
  - by rewrite Ec.
  - by rewrite En.
  - apply map_eq. intros id. apply option_eq. intros k. rewrite Em, lookup_fmap, fmap_Some. split.
    + intros (m & [id' Hm]%elem_of_spec_live & <- & ->). pose proof (ky_id _ HK _ _ Hm) as ->. eauto.
    + intros (m & Hm & ->). exists m. split; [apply elem_of_spec_live; eauto|]. split; [|done]. by apply (ky_id _ HK).
  - intros d. destruct (decide (d ∈ e_DedupID <$> spec_orphans now s)) as [Hd|Hd].
    + apply list_elem_of_fmap in Hd as (e & -> & He). rewrite Hin by done.
      apply elem_of_spec_orphans in He as (Ho & d & Hd). pose proof (ky_dedup _ HK _ _ Hd) as ->. by constructor.
    + assert (forall e, sp_dedup s !! d = Some e -> ~ spec_orphan now s e) as Hno.
      { intros e He Ho. apply Hd, list_elem_of_fmap. exists e. split; [symmetry; by apply (ky_dedup _ HK)|].
        apply elem_of_spec_orphans. eauto. }
      rewrite Hout, Ed by done. pose proof (lastWith_spec d s) as Hl. destruct (lastWith d (spec_live s)) as [m|].
      * destruct Hl as ([id Hm]%elem_of_spec_live & Hdm & Hmax). case_decide.
        { apply sd_none; [done|]. by intros. }
        simpl. pose proof (ky_id _ HK _ _ Hm) as ->.
        change (entryOf cfg) with (entryOf (sp_cfg s)). eapply sd_live; try done.
        intros id' m' Hm' Hd'. apply Hmax; [apply elem_of_spec_live; eauto|done].
      * case_decide; simpl; (apply sd_none; [done|]); [by intros|].
        intros id m Hm Hdm. destruct (Hl m); [apply elem_of_spec_live; eauto|done].
Qed.
End Core.
