(* ===== verification/SnapshotProps.v ===== *)
(** * A snapshot loses nothing

    A queue whose state represents the core of its log can replace the log by a
    snapshot: the snapshot's core is well formed, the state represents it too,
    and whatever represents it represents the core of the old log. *)

From Stdlib Require Import ZArith Lia.
From S2P Require Import Prelude GoInt Errors WalRecord Replay GoHeap Message Heaps Codec Index QueueSpec.
From S2P Require Import IndexInv IndexRefine Durable Queue Load QueueInv Compact Snapshot.

Section SnapshotProps.
Context `{ConfigCodec}.
Context (T now : Time) (s : Spec) (c0 : Core).
Context (Hids : forall id m, sp_msgs s !! id = Some m -> m_ID m = id).
Context (Hwf : core_wf T c0) (Hrep : represents T s c0) (Hok : spec_ok s).

Let x id m := entryOf (sp_cfg s) id (core_msg m).

(** A message of the state is one of the core, with the same dedup entry. *)
Lemma core_message id m :
  sp_msgs s !! id = Some m ->
  exists k, k_msgs c0 !! id = Some k /\ rep_msg m k /\ entryOf (k_cfg c0) id k = x id m.
Proof using Hrep.
  intros Hm. destruct (rp_lookup _ _ _ _ _ Hrep Hm) as (k & Hk & Hr). exists k. split_and!; [done..|].
  destruct (same_cfg_fields _ _ (rp_cfg _ _ _ Hrep)) as (_&_&_&_&_&Hw&_).
  destruct Hr as (Ed & _ & _ & _ & Ec & _). unfold x, entryOf. simpl. by rewrite Ed, Ec, Hw.
Qed.

Lemma keyed_state : keyed s.
Proof using Hids Hwf Hrep Hok.
  split; [done| |].
  - intros id id' m m' Hm Hm' E. destruct (core_message _ _ Hm) as (k & Hk & Hr & _).
    destruct (core_message _ _ Hm') as (k' & Hk' & Hr' & _).
    apply (cw_inj _ _ Hwf id id' k k'); [done..|]. destruct Hr as (_ & <- & _), Hr' as (_ & <- & _). done.
  - intros d e Hd. by destruct (so_dedup _ Hok d e Hd).
Qed.

Lemma storable_state : storable s.
Proof using Hids Hwf Hrep Hok.
  split.
  - intros id m Hm. destruct (core_message _ _ Hm) as (k & Hk & (Ed & Es & Ep & Epl & Ec & Ea & _) & _).
    pose proof (cw_next _ _ Hwf). pose proof (cw_seq _ _ Hwf _ _ Hk). pose proof (Hids _ _ Hm) as Ei.
    destruct (cw_stored _ _ Hwf _ _ Hk) as [Hi Hdd Hsq Hpr Hcr Hpl Hat _].
    destruct (cw_cfg _ _ Hwf) as (_ & _ & Hmax). rewrite (rp_nextSeq _ _ _ Hrep), Es. split; [|done].
    split; rewrite ?Ed, ?Es, ?Ep, ?Epl, ?Ec, ?Ea, ?Ei; try done; try (unfold in_uint; lia); try lia.
    by eapply (so_visible _ Hok).
  - intros d e Hd. by destruct (so_dedup _ Hok d e Hd) as (_ & _ & ?).
  - rewrite (rp_nextSeq _ _ _ Hrep). apply (cw_next _ _ Hwf).
Qed.

(** The entry a message would get has expired, or the one that is there lasts
    at least as long. *)
Lemma live_entry id m :
  sp_msgs s !! id = Some m -> m_DedupID m <> "" ->
  e_ExpiresAt (x id m) <= T \/
  exists e, sp_dedup s !! m_DedupID m = Some e /\ T < e_ExpiresAt e /\ e_ExpiresAt (x id m) <= e_ExpiresAt e.
Proof using Hrep Hwf.
  intros Hm Hne. destruct (core_message _ _ Hm) as (k & Hk & (Ed & _) & Ex).
  destruct (cw_live _ _ Hwf id k Hk) as (e & He & Hor); [congruence|]. rewrite Ex in Hor.
  rewrite <- Ed in He. assert (e_ExpiresAt (x id m) <= Z.max T (e_ExpiresAt e)) as Hle.
  { destruct Hor as [->|]; [lia|done]. }
  destruct (Z.le_gt_cases (e_ExpiresAt e) T); [left; lia|right].
  exists e. split; [by apply (rp_dedup_live _ _ _ _ _ Hrep); [lia|]|lia].
Qed.

(** An entry that matters and whose message is there is its own, and the last. *)
Lemma own_entry d e m :
  sp_dedup s !! d = Some e -> T < e_ExpiresAt e -> sp_msgs s !! e_MessageID e = Some m ->
  e = x (e_MessageID e) m /\ m_DedupID m = d /\ d <> "" /\
  forall id' m', sp_msgs s !! id' = Some m' -> m_DedupID m' = d -> m_Seq m' <= m_Seq m.
Proof using Hrep Hwf Hok.
  intros Hd Hlt Hm. destruct (core_message _ _ Hm) as (k & Hk & (Ed & Es & _) & Ex).
  destruct (cw_own _ _ Hwf d e k (proj1 (rp_dedup_live _ _ _ _ _ Hrep Hlt) Hd) Hlt Hk) as [Ee Hmax]. rewrite Ex in Ee.
  destruct (so_dedup _ Hok d e Hd) as (Eid & Hne & _). split_and!; [done| |done|].
  - rewrite <- Eid, Ee. done.
  - intros id' m' Hm' Ed'. destruct (core_message _ _ Hm') as (k' & Hk' & (Edk & Esk & _) & _).
    rewrite Es, Esk. eapply Hmax; [exact Hk'|congruence].
Qed.

(** A live entry that is no orphan is that of the last message with its id. *)
Lemma kept_entry d e :
  sp_dedup s !! d = Some e -> Z.max T now < e_ExpiresAt e -> ~ spec_orphan now s e ->
  exists m, sp_msgs s !! e_MessageID e = Some m /\ e = x (e_MessageID e) m /\ m_DedupID m = d /\ d <> "" /\
    forall id' m', sp_msgs s !! id' = Some m' -> m_DedupID m' = d -> m_Seq m' <= m_Seq m.
Proof using Hrep Hwf Hok.
  intros Hd Hlt Hno. destruct (sp_msgs s !! e_MessageID e) as [m|] eqn:Hm.
  - exists m. split; [done|]. apply own_entry; [done|lia|done].
  - destruct Hno. split; [|done]. unfold Before. apply Z.ltb_lt. lia.
Qed.

Context (c : Core) (Hc : snapshot_core now s c).

Lemma snapshot_alive d t :
  Z.max T now <= t -> alive t (sp_dedup s !! d) = alive t (k_dedup c !! d).
Proof using Hids Hwf Hrep Hok Hc.
  intros Ht. destruct (sc_dedup _ _ _ Hc d) as [e He _|id m Hno Hm Hd Hne Hmax|Hno Hnone]; [by rewrite He|..].
  - assert (e_ExpiresAt (x id m) <= t -> alive t (Some (x id m)) = None) as Hdead.
    { intros Hle. unfold alive, Before. by rewrite (proj2 (Z.ltb_ge _ _)). }
    fold (x id m). subst d. destruct (sp_dedup s !! m_DedupID m) as [e|] eqn:He.
    + destruct (Z.le_gt_cases (e_ExpiresAt e) (Z.max T now)) as [Hexp|Hexp].
      * unfold alive at 1, Before. rewrite (proj2 (Z.ltb_ge _ _)) by lia. symmetry. apply Hdead.
        destruct (live_entry id m Hm Hne) as [|(e' & He' & _ & ?)]; [lia|]. assert (e' = e) as -> by congruence. lia.
      * destruct (kept_entry _ _ He) as (m' & Hm' & -> & Ed' & _ & Hmax'); [lia|by apply Hno|].
        f_equal. simpl in Hm'. f_equal. assert (e_MessageID e = id) as <-; [|congruence].
        apply (ky_seq _ keyed_state _ _ m' m); [done..|].
        pose proof (Hmax _ _ Hm' Ed'). pose proof (Hmax' _ _ Hm eq_refl). lia.
    + symmetry. apply Hdead. destruct (live_entry id m Hm Hne) as [|(e' & He' & _)]; [lia|congruence].
  - destruct (sp_dedup s !! d) as [e|] eqn:He; [|done]. unfold alive, Before.
    destruct (Z.ltb_spec t (e_ExpiresAt e)); [|done].
    destruct (kept_entry _ _ He) as (m & Hm & _ & Ed & Hne & _); [lia|by apply Hno|]. destruct Hne. eauto.
Qed.

(** The state represents the core of its snapshot. *)
Lemma snapshot_represents : represents (Z.max T now) s c.
Proof using Hids Hwf Hrep Hok Hc.
  split.
  - rewrite (sc_cfg _ _ _ Hc). symmetry. apply same_cfg_NextSeq.
  - intros id. rewrite (sc_msgs _ _ _ Hc), lookup_fmap. destruct (sp_msgs s !! id); constructor. apply rep_msg_core.
  - intros d t. apply snapshot_alive.
  - by rewrite (sc_next _ _ _ Hc).
Qed.

(** What represents the snapshot's core represents the old log's. *)
Lemma snapshot_refines : refines_core (Z.max T now) c c0.
Proof using Hids Hwf Hrep Hok Hc.
  intros T' s' HT [Hcfg Hmsgs Hdd Hseq]. split.
  - rewrite Hcfg, (sc_cfg _ _ _ Hc), same_cfg_NextSeq. apply Hrep.
  - intros id. specialize (Hmsgs id). rewrite (sc_msgs _ _ _ Hc), lookup_fmap in Hmsgs.
    destruct (sp_msgs s !! id) as [m|] eqn:Hm.
    + destruct (core_message _ _ Hm) as (k & -> & (?&?&?&?&?&?&Ed&Ev) & _). simpl in Hmsgs.
      inversion Hmsgs as [m' ? (?&?&?&?&?&?&Ed'&Ev') E1|]; subst. constructor.
      simpl in *. split_and!; try congruence. intros v Hv. rewrite (Ev' _ eq_refl). auto.
    + rewrite (proj1 (rp_lookup_None _ _ _ _ Hrep) Hm). inversion Hmsgs. constructor.
  - intros d t Ht. rewrite Hdd, <- snapshot_alive by lia. apply Hrep. lia.
  - rewrite Hseq, (sc_next _ _ _ Hc). apply Hrep.
Qed.

Lemma snapshot_stored id m k :
  rep_msg m k -> stored (k_cfg c0) id k -> stored (k_cfg c) id (core_msg m).
Proof using Hrep Hc.
  intros (Ed & Es & Ep & Epl & Ec & Ea & _) [Hi Hdd Hsq Hpr Hcr Hpl Hat Hw].
  rewrite (sc_cfg _ _ _ Hc), (same_cfg_set _ _ _ (rp_cfg _ _ _ Hrep)).
  split; simpl; rewrite ?Ed, ?Es, ?Ep, ?Epl, ?Ec, ?Ea; done.
Qed.

(** What the snapshot has for a dedup id lasts as long as any message needs. *)
Lemma snapshot_live id m e :
  sp_msgs s !! id = Some m -> snapshot_dedup now s (m_DedupID m) (Some e) -> m_DedupID m <> "" ->
  e_ExpiresAt (x id m) <= Z.max (Z.max T now) (e_ExpiresAt e).
Proof using Hids Hwf Hrep Hok.
  intros Hm Hsd Hne. destruct (live_entry id m Hm Hne) as [|(e0 & He0 & Hlt & Hle)]; [lia|].
  inversion Hsd as [e1 He1 _ E|id1 m1 Hno Hm1 Hd1 _ Hmax E|]; subst.
  - assert (e0 = e) as -> by congruence. lia.
  - destruct (Z.le_gt_cases (e_ExpiresAt e0) (Z.max T now)) as [|Hexp]; [lia|].
    destruct (kept_entry _ _ He0) as (m2 & Hm2 & Ee0 & Ed2 & _ & Hmax2); [lia|by apply Hno|].
    assert (e_MessageID e0 = id1) as <-.
    { apply (ky_seq _ keyed_state _ _ m2 m1); [done..|].
      pose proof (Hmax _ _ Hm2 Ed2). pose proof (Hmax2 _ _ Hm1 Hd1). lia. }
    assert (m2 = m1) as -> by congruence. rewrite Ee0 in Hle. unfold x in Hle. simpl in *. lia.
Qed.

Lemma snapshot_core_wf : core_wf (Z.max T now) c.
Proof using Hids Hwf Hrep Hok Hc.
  pose proof (sc_cfg _ _ _ Hc) as Ecfg. rewrite (same_cfg_set _ _ _ (rp_cfg _ _ _ Hrep)) in Ecfg.
  pose proof (sc_next _ _ _ Hc) as En. pose proof (rp_nextSeq _ _ _ Hrep) as En0. rewrite En0 in En, Ecfg.
  pose proof (cw_next _ _ Hwf) as Hn.
  assert (forall id k, entryOf (k_cfg c) id k = entryOf (sp_cfg s) id k) as Ent.
  { intros id k. unfold entryOf. rewrite (sc_cfg _ _ _ Hc). done. }
  assert (forall id k, k_msgs c !! id = Some k -> exists m k0, sp_msgs s !! id = Some m /\ k = core_msg m /\
    k_msgs c0 !! id = Some k0 /\ rep_msg m k0) as Hmsg.
  { intros id k Hk. rewrite (sc_msgs _ _ _ Hc), lookup_fmap in Hk. apply fmap_Some in Hk as (m & Hm & ->).
    destruct (core_message _ _ Hm) as (k0 & ? & ? & _). eauto 10. }
  split.
  - destruct (cw_cfg _ _ Hwf) as (? & ? & ?). rewrite Ecfg. split_and!.
    + by apply set_NextSeq_ok.
    + apply set_NextSeq_typed; [done|]. unfold in_uint. lia.
    + done.
  - by rewrite En.
  - intros id k (m & k0 & Hm & -> & Hk0 & Hr)%Hmsg. eapply snapshot_stored; [exact Hr|]. by apply (cw_stored _ _ Hwf).
  - intros id k (m & k0 & Hm & -> & Hk0 & (_ & Es & _))%Hmsg. rewrite En. simpl. rewrite Es. by apply (cw_seq _ _ Hwf id).
  - intros id id' k k' (m & ? & Hm & -> & _)%Hmsg (m' & ? & Hm' & -> & _)%Hmsg E. by apply (ky_seq _ keyed_state id id' m m').
  - intros id k (m & k0 & Hm & -> & Hk0 & (_&_&_&_&_&Ea&Ed&_))%Hmsg. rewrite Ecfg. simpl. rewrite Ea, Ed.
    by apply (cw_dead _ _ Hwf id).
  - intros d e Hd. pose proof (sc_dedup _ _ _ Hc d) as Hsd. rewrite Hd in Hsd.
    inversion Hsd as [e1 He1 _ E|id1 m1 Hno Hm1 Hd1 Hne _ E|]; subst; [by apply (so_dedup _ Hok)|].
    split_and!; [done..|]. destruct (core_message _ _ Hm1) as (k & Hk & (Ed & _ & _ & _ & Ec & _) & _).
    destruct (cw_stored _ _ Hwf _ _ Hk) as [[Hi _] Hdd _ _ _ _ _ Hw]. split; simpl; [by rewrite Ed|done|].
    destruct (same_cfg_fields _ _ (rp_cfg _ _ _ Hrep)) as (_&_&_&_&_&->&_). rewrite Ec. apply Hw. congruence.
  - intros d e k Hd Hexp (m & k0 & Hm & -> & Hk0 & _)%Hmsg. pose proof (sc_dedup _ _ _ Hc d) as Hsd. rewrite Hd in Hsd.
    inversion Hsd as [e1 He1 [_ Hgone] E|id1 m1 Hno Hm1 Hd1 Hne Hmax E|]; subst; [congruence|].
    cbn [e_MessageID entryOf] in *. assert (m1 = m) as -> by congruence. split.
    + by rewrite Ent.
    + intros id' k' (m' & ? & Hm' & -> & _)%Hmsg Ed. simpl in *. by eapply Hmax.
  - intros id k (m & k0 & Hm & -> & Hk0 & _)%Hmsg Hne. simpl in Hne |- *. pose proof (sc_dedup _ _ _ Hc (m_DedupID m)) as Hsd.
    destruct (k_dedup c !! m_DedupID m) as [e|].
    + exists e. split; [done|right]. pose proof (snapshot_live id m e Hm Hsd Hne) as Hle.
      change (e_ExpiresAt (entryOf (k_cfg c) id (core_msg m)) <= Z.max (Z.max T now) (e_ExpiresAt e)).
      rewrite Ent. exact Hle.
    + inversion Hsd as [| |Hno Hnone]. destruct Hne. eauto.
Qed.
End SnapshotProps.
