(* ===== verification/CompactProps.v ===== *)
(** * Compaction is safe

    Every outcome of [Compact], whatever fails on the way: the queue's state is
    untouched, the queue's invariant holds again, and the file a crash can leave
    at the log's path is the whole old log or the whole snapshot, each standing
    for all the old log did. *)

From Stdlib Require Import ZArith Lia.
From S2P Require Import Prelude GoInt Errors WalRecord Replay GoHeap Message Heaps Codec Index QueueSpec.
From S2P Require Import IndexInv IndexRefine Durable Log LogInv LogProps Queue Load QueueInv QueueOps.
From S2P Require Import Writer Compact Snapshot SnapshotProps.

Section CompactProps.
Context `{ConfigCodec}.

(** Every message is under its id. *)
Lemma abs_ids ix id m : Inv ix -> sp_msgs (abs ix) !! id = Some m -> m_ID m = id.
Proof using.
  intros HI (l & m0 & Hl & Hm & ->)%msgs_lookup. destruct (inv_registered id l ix HI Hl) as (m1 & Hm1 & <- & _).
  simpl. congruence.
Qed.

Lemma QInv_keyed base T q : QInv base T q -> keyed (qabs q) /\ storable (qabs q).
Proof using.
  intros HQ. destruct (QInv_core_wf _ _ _ HQ) as (c & _ & Hrep & Hwf). pose proof (qi_spec _ _ _ HQ).
  assert (forall id m, sp_msgs (qabs q) !! id = Some m -> m_ID m = id) as Hids
    by (intros id m; apply abs_ids, HQ).
  split; [by eapply keyed_state|by eapply storable_state].
Qed.

(** The maps' keys, in any order. *)
Definition map_orders (liveOrder dedupOrder : list string) (q : Queue) : Prop :=
  liveOrder ≡ₚ (map_to_list (ix_byID (q_ix q))).*1 /\ dedupOrder ≡ₚ (map_to_list (ix_dedup (q_ix q))).*1.

(** The records [Compact] writes. *)
Definition snapshot_of (now : Time) (q : Queue) (es : list Entry) : Prop :=
  exists meta, encodeConfig (set_NextSeq (ix_nextSeq (q_ix q)) (ix_cfg (q_ix q))) = inl meta /\
    es = spec_snapshot now meta (qabs q).

(** How [Compact] ends. *)
Inductive compacted (now : Time) (syncErr : option Err) (io : CompactIO) (q : Queue) : Queue -> Compacted -> Prop :=
  | cp_refused err :
      checkLocked q = Some err -> compacted now syncErr io q q (mkCompacted (Some err) false)
  | cp_syncFailed err :
      checkLocked q = None -> syncErr = Some err ->
      compacted now syncErr io q (with_failed (Some err) q) (mkCompacted (Some err) false)
  | cp_abandoned err tmp :
      checkLocked q = None -> syncErr = None -> (tmp = true -> co_Remove io <> None) ->
      compacted now syncErr io q q (mkCompacted (Some err) tmp)
  | cp_notDurable es err :
      checkLocked q = None -> syncErr = None -> snapshot_of now q es ->
      compacted now syncErr io q
        (with_detached (Some [disk_bytes (lg_disk (q_log q)); encode_all es]) (with_failed (Some err) q))
        (mkCompacted (Some err) false)
  | cp_notReopened es l err e :
      checkLocked q = None -> syncErr = None -> snapshot_of now q es ->
      Reopen (Z.of_nat (length (encode_all es))) (co_Close io) (co_OpenFile io) (mkDisk (encode_all es) []) (q_log q)
        = (l, Some e) ->
      compacted now syncErr io q
        (with_detached (Some [encode_all es]) (with_failed (Some err) (with_log l q)))
        (mkCompacted (Some err) false)
  | cp_done es l :
      checkLocked q = None -> syncErr = None -> snapshot_of now q es ->
      Reopen (Z.of_nat (length (encode_all es))) (co_Close io) (co_OpenFile io) (mkDisk (encode_all es) []) (q_log q)
        = (l, None) ->
      compacted now syncErr io q
        (count (add_Compactions 1) (with_compactFloor (2 * Z.of_nat (length (encode_all es))) (with_log l q)))
        (mkCompacted None false).

(** With the snapshot written, the end of [Compact] is one of these. *)
Lemma finishCompact_cases now syncErr io w q es :
  checkLocked q = None -> syncErr = None -> snapshot_of now q es ->
  w_data w = encode_all es -> w_size w = Z.of_nat (length (encode_all es)) ->
  compacted now syncErr io q (finishCompact io w q).1 (finishCompact io w q).2.
Proof using.
  intros Hc Hs Hsn Hd Hsz. unfold finishCompact, Writer_Size. rewrite Hd, Hsz.
  destruct (Install_cases (co_Install io) (q_path q) w) as [[err ->]|[_ [[err|] ->]]].
  - apply cp_abandoned; [done..|]. unfold Writer_Abort. by intros ?%bool_decide_eq_true.
  - by apply cp_notDurable.
  - destruct (Reopen _ _ _ _ _) as [l [e|]] eqn:HR; [by eapply cp_notReopened|by eapply cp_done].
Qed.

Lemma Writer_Abort_left io w err : Writer_Abort (co_Remove io) w = err -> err = true -> co_Remove io <> None.
Proof using. by intros <- ?%bool_decide_eq_true. Qed.

Lemma Compact_cases now syncErr ids1 ids2 io q :
  Inv (q_ix q) -> keyed (qabs q) -> map_orders ids1 ids2 q ->
  exists q' r, Compact syncErr now ids1 ids2 io q = Some (q', r) /\ compacted now syncErr io q q' r.
Proof using.
  intros HI HK [H1 H2]. unfold Compact.
  destruct (checkLocked q) as [err|] eqn:Hc; [eexists _, _; split; [done|by apply cp_refused]|].
  destruct syncErr as [err|]; [eexists _, _; split; [done|by apply cp_syncFailed]|].
  unfold NewWriter. destruct (co_NewWriter io) as [err|].
  { eexists _, _. split; [done|]. by apply cp_abandoned. }
  assert (forall w err, exists q' r, Some (q, mkCompacted (Some err) (Writer_Abort (co_Remove io) w)) = Some (q', r) /\
    compacted now None io q q' r) as Hab.
  { intros w err. eexists _, _. split; [done|]. apply cp_abandoned; [done..|]. by eapply Writer_Abort_left. }
  destruct (encodeConfig _) as [meta|err] eqn:Hm; [|apply Hab].
  pose proof (snapshot_spec now (q_ix q) meta ids1 ids2 HI HK H1 H2) as Hsn. unfold snapshot in Hsn.
  set (w0 := mkWriter (q_path q ++ ".compact")%string [] 0).
  destruct (writeAll (co_Append io) 0 _ w0) as [w1 [err|]] eqn:W1; [apply Hab|].
  destruct (liveMessages ids1 (q_ix q)) as [live|]; [|done]. simpl in Hsn |- *.
  destruct (writeAll (co_Append io) 1 _ w1) as [w2 [err|]] eqn:W2; [apply Hab|].
  destruct (writeAll (co_Append io) (S (length live)) _ w2) as [w3 [err|]] eqn:W3; [apply Hab|].
  apply writeAll_data in W1 as (D1 & _ & S1), W2 as (D2 & _ & S2), W3 as (D3 & _ & S3).
  set (es := spec_snapshot now meta (qabs q)).
  assert (encode_all es = w_data w3) as Ed.
  { apply (f_equal (default [])) in Hsn. unfold default, id in Hsn. unfold es, qabs. rewrite <- Hsn, D3, D2, D1.
    by rewrite encode_all_cons, encode_all_app, <- !app_assoc, encode_all_cons, app_nil_l, <- !app_assoc. }
  exists (finishCompact io w3 q).1, (finishCompact io w3 q).2. split; [by destruct (finishCompact io w3 q)|].
  apply (finishCompact_cases now None io w3 q es); [done..|by exists meta|done|].
  rewrite Ed, D3, D2, D1, !length_app. simpl in S1 |- *. lia.
Qed.

(** ** The invariant *)

Context `{!ConfigCodecLaws}.

Lemma length_encodeDedup e : length (encodeDedup e) = (12 + strlen (e_DedupID e) + strlen (e_MessageID e))%nat.
Proof using.
  unfold encodeDedup, AppendUint64. cbv zeta. rewrite !appendString16_eq, !length_app, !length_str16, length_le_bytes.
  simpl. lia.
Qed.

(** The configuration written reads back. *)
Lemma snapshot_meta base T q :
  QInv base T q ->
  let cfg := set_NextSeq (ix_nextSeq (q_ix q)) (ix_cfg (q_ix q)) in
  config_ok cfg /\ config_typed cfg.
Proof using.
  intros HQ cfg. destruct (QInv_core_wf _ _ _ HQ) as (c & _ & Hrep & Hwf).
  destruct (cw_cfg _ _ Hwf) as (Hok & Hty & _). unfold cfg.
  pose proof (rp_cfg _ _ _ Hrep) as Hcfg. simpl in Hcfg. rewrite (same_cfg_set _ _ _ Hcfg).
  split; [by apply set_NextSeq_ok|]. apply set_NextSeq_typed; [done|].
  pose proof (rp_nextSeq _ _ _ Hrep) as En. simpl in En. pose proof (cw_next _ _ Hwf). unfold in_uint. lia.
Qed.

Lemma snapshot_entries_ok base T now q es : QInv base T q -> snapshot_of now q es -> Forall entry_ok es.
Proof using All.
  intros HQ (meta & Henc & ->). destruct (snapshot_meta _ _ _ HQ) as [Hok Hty].
  destruct (decode_encodeConfig _ _ Hok Hty Henc) as [_ Hlen]. destruct (QInv_core_wf _ _ _ HQ) as (c & _ & Hrep & Hwf).
  assert (forall s, strlen s = length (bytes_of_string s)) as Hsl by done.
  constructor; [done|]. apply Forall_app. split; apply Forall_fmap, Forall_forall.
  - intros m [id Hm]%elem_of_spec_live. split; [done|]. cbn [enqueueEntry snd].
    destruct (rp_lookup _ _ _ _ _ Hrep Hm) as (k & Hk & (Ed & _ & _ & Epl & _)).
    destruct (cw_stored _ _ Hwf _ _ Hk) as [[Hi _] Hd _ _ _ Hp _ _].
    pose proof (abs_ids _ _ _ (qi_index _ _ _ HQ) Hm) as Eid.
    rewrite length_encodeMessage, !length_str16, Epl, Ed, Eid. unfold short16 in *.
    change MaxRecordSize with (64 * 2 ^ 20). lia.
  - intros e [_ [d Hd]]%elem_of_spec_orphans. split; [done|]. cbn [dedupRecord snd].
    destruct (so_dedup _ (qi_spec _ _ _ HQ) _ _ Hd) as (_ & _ & [Hd1 Hd2 _]). rewrite length_encodeDedup.
    unfold short16 in *. change MaxRecordSize with (64 * 2 ^ 20). lia.
Qed.

(** A snapshot is META and then anything but. *)
Lemma spec_snapshot_meta_first now meta s : meta_first (spec_snapshot now meta s).
Proof using.
  eexists _, _. split; [done|]. apply Forall_app. split; apply Forall_fmap, Forall_forall; by intros.
Qed.

(** The snapshot stands for the log it replaces. *)
Lemma QInv_snapshot base T now q es :
  QInv base T q -> snapshot_of now q es ->
  exists c0 c, core_run decodeConfig (records_of base q) core0 = inl c0 /\
    stands_for (Z.max T now) es c0 /\
    core_run decodeConfig es core0 = inl c /\ represents (Z.max T now) (qabs q) c /\ core_wf (Z.max T now) c /\
    snapshot_core now (qabs q) c.
Proof using All.
  intros HQ Hsn. pose proof (snapshot_entries_ok _ _ _ _ _ HQ Hsn) as Hes. destruct Hsn as (meta & Henc & ->).
  destruct (QInv_keyed _ _ _ HQ) as [HK HS]. destruct (snapshot_meta _ _ _ HQ) as [Hok Hty].
  destruct (decode_encodeConfig _ _ Hok Hty Henc) as [Hdec _].
  destruct (spec_snapshot_core now meta (qabs q) HK HS Hdec (Validate_ok _ Hok)) as (c & Hrun & Hsc).
  destruct (QInv_core_wf _ _ _ HQ) as (c0 & Hrun0 & Hrep & Hwf).
  assert (forall id m, sp_msgs (qabs q) !! id = Some m -> m_ID m = id) as Hids by (intros id m; apply abs_ids, HQ).
  pose proof (qi_spec _ _ _ HQ) as Hspec.
  pose proof (snapshot_core_wf T now _ _ Hids Hwf Hrep Hspec c Hsc) as Hwf'.
  exists c0, c. split_and!; [done| |done| |done|done].
  - split; [done|apply spec_snapshot_meta_first|]. exists c. split_and!; [done| |done]. by eapply snapshot_refines.
  - by eapply snapshot_represents.
Qed.

(** What an image at the log's path must be for a restart to lose nothing. *)
Definition stands_for_image (T : Time) (base : list Entry) (q : Queue) (img : list byte) : Prop :=
  exists es c0, img = encode_all es /\
    core_run decodeConfig (records_of base q) core0 = inl c0 /\ stands_for T es c0.

Lemma QInv_detach base T q q' imgs :
  QInv base T q -> q_ix q' = q_ix q -> LogInv (q_log q') ->
  lg_hist (q_log q') = lg_hist (q_log q) -> lg_base (q_log q') = lg_base (q_log q) ->
  q_failed q' <> None -> q_detached q' = Some imgs -> Forall (stands_for_image T base q) imgs -> QInv base T q'.
Proof using.
  intros [? ? ? ? ? ? ? _] E1 HL E2 E3 Hf Hd Hi.
  split; rewrite ?E1; unfold records_of in *; rewrite ?E2, ?E3; try done.
  intros imgs' Hd'. assert (imgs' = imgs) as -> by congruence. split; [done|].
  eapply Forall_impl; [exact Hi|]. intros img (es & c0 & ? & ? & ?). unfold records_of in *. eauto 10.
Qed.

Lemma Reopen_cases size closeErr openErr d l l' r :
  Reopen size closeErr openErr d l = (l', r) ->
  (r <> None /\ lg_hist l' = lg_hist l /\ lg_base l' = lg_base l) \/
  (r = None /\ lg_hist l' = [] /\ lg_base l' = disk_bytes d /\ lg_disk l' = d /\ lg_buf l' = lg_buf l).
Proof using. unfold Reopen. intros. repeat case_match; simplify_eq/=; auto 10. Qed.

Lemma Reopen_fresh_inv b closeErr openErr l l' r :
  (Sync_turn l).2 = Some None -> Reopen (Z.of_nat (length b)) closeErr openErr (mkDisk b []) l = (l', r) ->
  LogInv l -> LogInv l'.
Proof using.
  intros HS HR. eapply (Reopen_inv closeErr openErr (mkDisk b [])); [done..|].
  unfold disk_bytes. cbn [d_synced d_cached]. rewrite app_nil_r. exact HR.
Qed.

(** With everything synced, the old log's file is all of its records. *)
Lemma synced_image base T q :
  QInv base T q -> (Sync_turn (q_log q)).2 = Some None ->
  disk_bytes (lg_disk (q_log q)) = encode_all (records_of base q).
Proof using.
  intros HQ HS. pose proof (qi_log _ _ _ HQ) as HL. destruct (li_parts _ HL) as (good & bad & wr & bf & HP).
  destruct (li_seq _ HL). destruct (Sync_turn_idle _ _ _ _ _ HP) as (Hnf & -> & -> & -> & _); [done..|].
  unfold disk_bytes, records_of. rewrite (li_fatal _ HL Hnf), (lp_synced _ _ _ _ _ HP), (lp_hist _ _ _ _ _ HP).
  destruct (qi_base _ _ _ HQ) as [-> _]. by rewrite !app_nil_r, encode_all_app.
Qed.

Lemma old_log_stands_for base T q :
  QInv base T q -> (Sync_turn (q_log q)).2 = Some None ->
  stands_for_image T base q (disk_bytes (lg_disk (q_log q))).
Proof using.
  intros HQ HS. destruct (QInv_core_wf _ _ _ HQ) as (c & Hrun & _ & Hwf).
  exists (records_of base q), c. split_and!; [by eapply synced_image|done|]. split.
  - apply Forall_app. split; [apply HQ|]. apply Forall_fmap, (li_ok _ (qi_log _ _ _ HQ)).
  - apply HQ.
  - exists c. split_and!; [done| |done]. by intros T' s _.
Qed.

Lemma new_log_stands_for base T now q es :
  QInv base T q -> snapshot_of now q es -> stands_for_image (Z.max T now) base q (encode_all es).
Proof using All.
  intros HQ Hsn. destruct (QInv_snapshot _ _ _ _ _ HQ Hsn) as (c0 & c & Hrun & Hst & _). by exists es, c0.
Qed.

(** The log of a queue that has just been compacted. *)
Lemma compacted_QInv base T now q q' es l :
  QInv base T q -> snapshot_of now q es -> q_detached q = None ->
  q_ix q' = q_ix q -> q_log q' = l -> q_detached q' = None ->
  LogInv l -> lg_hist l = [] -> lg_base l = encode_all es -> QInv es (Z.max T now) q'.
Proof using All.
  intros HQ Hsn Hd E1 E2 E3 HL Eh Eb. destruct (QInv_snapshot _ _ _ _ _ HQ Hsn) as (c0 & c & _ & Hst & Hrun & Hrep & Hwf & _).
  assert (records_of es q' = es) as Hrec by (unfold records_of; rewrite E2, Eh; apply app_nil_r).
  split; rewrite ?E1, ?E2, ?E3, ?Hrec; try done.
  - apply HQ.
  - split; [done|]. apply (sf_ok _ _ _ Hst).
  - apply (sf_meta _ _ _ Hst).
  - by exists c.
  - intros es1 c1 Hp1 Hp2 _ Hr. assert (es1 = es) as ->; [|by replace c1 with c by congruence].
    by apply (anti_symm prefix).
  - apply HQ.
Qed.

Lemma Compact_QInv base T now syncErr io q q' r :
  QInv base T q -> (checkLocked q = None -> (Sync_turn (q_log q)).2 = Some syncErr) ->
  compacted now syncErr io q q' r ->
  exists base', QInv base' (Z.max T now) q' /\ qabs q' = qabs q /\ (cp_err r <> None -> base' = base) /\
    (cp_err r = None -> snapshot_of now q base').
Proof using All.
  intros HQ HS Hcp. assert (T <= Z.max T now) as HT by lia. pose proof (QInv_later _ _ _ _ HT HQ) as HQ'.
  destruct Hcp as [err Hc|err Hc ->|err tmp Hc -> _|es err Hc -> Hsn|es l err e Hc -> Hsn HR|es l Hc -> Hsn HR].
  1-3: exists base; split_and!; [|done..]; try done; by apply (QInv_same base _ q).
  - exists base. split_and!; [|done..]. specialize (HS Hc).
    eapply QInv_detach; [exact HQ'|done..|by destruct HQ'|done|done|done|reflexivity|].
    apply Forall_cons. split; [by apply old_log_stands_for|]. apply Forall_singleton. by apply new_log_stands_for.
  - exists base. split_and!; [|done..]. specialize (HS Hc).
    pose proof (Reopen_fresh_inv _ _ _ _ _ _ HS HR (qi_log _ _ _ HQ)) as HRI.
    destruct (Reopen_cases _ _ _ _ _ _ _ HR) as [(_ & Eh & Eb)|[? _]]; [|done].
    eapply QInv_detach; [exact HQ'|done|exact HRI|done|done|done|reflexivity|].
    apply Forall_singleton. by apply new_log_stands_for.
  - exists es. split_and!; [|done..]. specialize (HS Hc).
    pose proof (Reopen_fresh_inv _ _ _ _ _ _ HS HR (qi_log _ _ _ HQ)) as HRI.
    destruct (Reopen_cases _ _ _ _ _ _ _ HR) as [[? _]|(_ & Eh & Eb & _)]; [done|].
    unfold disk_bytes in Eb. cbn [d_synced d_cached] in Eb. rewrite app_nil_r in Eb.
    destruct (checkLocked_None _ Hc) as [Hf _]. pose proof (QInv_attached _ _ _ HQ Hf).
    by eapply compacted_QInv.
Qed.
End CompactProps.
