(* ===== verification/Recovery.v ===== *)
(** * Restarting a queue

    What [Load] rebuilds from a log, and a queue's whole life: the steps of its
    operations, its log and its clients in any interleaving, crashes, and the
    restarts after them. *)

From Stdlib Require Import ZArith Lia.
From S2P Require Import Prelude GoInt Errors WalRecord Replay GoHeap Message Heaps Codec Index QueueSpec.
From S2P Require Import IndexInv IndexRefine Durable Log LogInv LogProps Queue Load QueueInv QueueOps QueueTick.
From S2P Require Import Compact CompactProps.

Section Recovery.
Context `{ConfigCodec}.
Implicit Types (T now : Time) (q : Queue).

(** ** Replaying a history *)

(** [VisibleAt] of every message fits the stored width. *)
Definition visible_ok (s : Spec) : Prop := forall id m, sp_msgs s !! id = Some m -> in_int64 (m_VisibleAt m).

Lemma decodeMessage_visible b m : decodeMessage b = inl m -> in_int64 (m_VisibleAt m).
Proof using.
  unfold decodeMessage. cbv zeta. destruct (_ <? 38)%nat; [done|]. destruct (negb _); [done|]. destruct (negb _); [done|].
  destruct (readString16 b _) as [[id p]|]; [|done]. destruct (readString16 b p) as [[dedup p']|]; [|done].
  destruct (_ <? _)%nat; [done|]. destruct (_ <? _)%nat; [done|]. destruct (bool_decide _); [done|].
  intros [= <-]. apply int64_range.
Qed.

Lemma spec_apply_visible rec now s :
  in_int64 now -> visible_ok s -> visible_ok (spec_apply decodeConfig rec now s).1.
Proof using.
  intros Hnow Hv. unfold spec_apply.
  assert (forall msgs d n cfg, visible_ok s -> msgs = sp_msgs s -> visible_ok (mkSpec cfg msgs d n)) as Hsame
    by (intros; by subst).
  assert (forall cfg m, in_int64 (m_VisibleAt m) -> in_int64 (m_VisibleAt (routed cfg now m))) as Hrt
    by (intros cfg m ?; unfold routed; by case_match).
  repeat case_decide; try done.
  - destruct (decodeConfig _); [|done]. destruct (Validate _) as [? [?|]]; [done|]. by apply Hsame.
  - destruct (decodeMessage _) as [m|] eqn:Hm; [|done]. apply decodeMessage_visible in Hm.
    unfold spec_enqueue. destruct (sp_msgs s !! m_ID m); [done|]. intros id m'. simpl.
    intros [[_ <-]|[_ ?]]%lookup_insert_Some; [|eauto]. case_decide; auto.
  - unfold spec_ack. case_match; [|done]. intros id m'. simpl. intros [_ ?]%lookup_delete_Some. eauto.
  - unfold spec_attempt. destruct (sp_msgs s !! _) as [m|] eqn:Hm; [|done].
    destruct (attempted _ now m) as [m1 dead] eqn:Ha. intros id m'. simpl.
    intros [[_ <-]|[_ ?]]%lookup_insert_Some; [|eauto]. unfold attempted in Ha.
    case_match; injection Ha as <- _; [by apply Hv in Hm|]. by apply Hrt.
  - destruct (decodeDedup _); [|done]. by apply Hsame.
Qed.

(** What a replay has built: an index that represents the core at every time. *)
Record loaded (ix : Index) (c : Core) : Prop := {
  ld_inv : Inv ix;
  ld_rep T : represents T (abs ix) c;
  ld_visible : visible_ok (abs ix);
}.

Lemma newIndex_visible : visible_ok (abs newIndex).
Proof using. intros id m (l & m0 & Hl & _)%msgs_lookup. simpl in Hl. by rewrite lookup_empty in Hl. Qed.

(** One record through the callback of [Load]. *)
Lemma load_fn_apply clock rec sawMeta ix c c' :
  loaded ix c -> in_int64 (clock (r_Offset rec)) ->
  core_apply decodeConfig (r_Type rec, r_Payload rec) c = inl c' ->
  (r_Type rec = TypeMeta -> ix_ready ix = []) -> (r_Type rec <> TypeMeta -> sawMeta = true) ->
  exists ix', load_fn clock rec (Some (sawMeta, ix)) = (Some (true, ix'), None) /\ loaded ix' c'.
Proof using.
  intros [HI Hrep Hv] Hclk Hc Hmeta Hsaw.
  destruct (apply_implements decodeConfig rec (clock (r_Offset rec)) ix HI Hmeta) as (ix' & Happ & HI' & Ha').
  pose proof (fun T => represents_apply decodeConfig T (abs ix) c rec (clock (r_Offset rec)) (Hrep T)) as Hr.
  rewrite Hc in Hr. exists ix'. split.
  - unfold load_fn. rewrite Happ, (proj1 (Hr 0)). case_bool_decide as Ht; [done|]. by rewrite (Hsaw Ht).
  - split; [done|intros T; rewrite Ha'; apply Hr|]. rewrite Ha'. by apply spec_apply_visible.
Qed.

(** Records after [META]. *)
Lemma load_deliver clock es off n ix c c' :
  loaded ix c -> (forall o, in_int64 (clock o)) -> core_run decodeConfig es c = inl c' ->
  Forall (fun e => ~ is_meta e) es ->
  exists ix', deliver (load_fn clock) (records_at off es) n (Some (true, ix))
      = (Some (true, ix'), n + Z.of_nat (length es), None) /\ loaded ix' c'.
Proof using.
  intros HL Hclk Hrun Hm. revert off n ix c HL Hrun.
  induction Hm as [|[t p] es He Hes IH]; intros off n ix c HL Hrun.
  { simpl in Hrun. injection Hrun as <-. exists ix. split; [|done]. cbn [records_at deliver length]. do 2 f_equal. lia. }
  cbn [core_run] in Hrun. destruct (core_apply decodeConfig (t, p) c) as [c1|] eqn:Hc; [|done].
  destruct (load_fn_apply clock (mkRecord t p off) true ix c c1 HL) as (ix1 & E & HL1); [done..|by intros ?; destruct He|done|].
  cbn [records_at deliver]. rewrite E.
  destruct (IH (off + Z.of_nat (EncodedLen p)) (n + 1) ix1 c1 HL1 Hrun) as (ix' & -> & HL').
  exists ix'. split; [|done]. do 2 f_equal. cbn [length]. lia.
Qed.

(** A whole history. *)
Lemma load_history clock es c :
  meta_first es -> (forall o, in_int64 (clock o)) -> core_run decodeConfig es core0 = inl c ->
  exists ix, deliver (load_fn clock) (records_at 0 es) 0 (Some (false, newIndex))
      = (Some (true, ix), Z.of_nat (length es), None) /\ loaded ix c.
Proof using.
  intros (p & es' & -> & Hes) Hclk Hrun. cbn [core_run] in Hrun.
  destruct (core_apply decodeConfig (TypeMeta, p) core0) as [c1|] eqn:Hc; [|done].
  destruct (load_fn_apply clock (mkRecord TypeMeta p 0) false newIndex core0 c1) as (ix1 & E & HL1);
    [split; [apply newIndex_Inv|intros; apply represents_init|apply newIndex_visible]|done..|].
  cbn [records_at deliver]. rewrite E.
  destruct (load_deliver clock es' (0 + Z.of_nat (EncodedLen p)) (0 + 1) ix1 c1 c HL1 Hclk Hrun Hes)
    as (ix' & -> & HL').
  exists ix'. split; [|done]. do 2 f_equal. cbn [length]. lia.
Qed.

(** A loaded state fits the stored widths. *)
Lemma loaded_spec_ok ix c T : loaded ix c -> core_wf T c -> spec_ok (abs ix).
Proof using.
  intros [HI Hrep Hv] Hwf. split; [done|]. intros d e Hd.
  apply (cw_dedup _ _ Hwf). by apply (rp_dedup_live _ _ _ d e (Hrep (e_ExpiresAt e - 1))); [lia|].
Qed.

(** ** Loading a file that replays *)

(** No system call of [wal.Open] fails. *)
Definition noIO : OpenIO := mkOpenIO None None None None None None.

(** [Open] after [Replay]: the file holds the verified prefix, on disk. *)
Lemma Open_verified io img es ending d' r :
  replays_to img es ending ->
  Open io (mkDisk img []) (Z.of_nat (length (encode_all es))) = (d', r) ->
  (exists err, r = inr err) \/
  r = inl (newLog (Z.of_nat (length (encode_all es))) (mkDisk (encode_all es) [])).
Proof using.
  intros [_ [tl ->] _] E. unfold Open in E.
  destruct (io_MkdirAll io); [simplify_eq; eauto|]. destruct (io_OpenFile io); [simplify_eq; eauto|].
  destruct (io_Stat io); [simplify_eq; eauto|]. unfold disk_bytes in E. simpl in E. rewrite app_nil_r in E.
  destruct (negb _) eqn:Hsz in E.
  - destruct (io_Truncate io); [simplify_eq; eauto|]. destruct (io_Sync io); [simplify_eq; eauto|].
    destruct (io_syncDir io); injection E as <- <-; [eauto|right]. do 3 f_equal.
    unfold truncate. rewrite Nat2Z.id, take_app_length, length_app.
    replace (_ - _)%nat with 0%nat by lia. apply app_nil_r.
  - bool_prop. assert (tl = []) as -> by (rewrite length_app in *; destruct tl; simpl in *; [done|lia]).
    rewrite app_nil_r in E. destruct (io_syncDir io); injection E as <- <-; eauto.
Qed.

Lemma noIO_Open img es ending :
  replays_to img es ending ->
  (Open noIO (mkDisk img []) (Z.of_nat (length (encode_all es)))).2
  = inl (newLog (Z.of_nat (length (encode_all es))) (mkDisk (encode_all es) [])).
Proof using.
  intros Hr. destruct (Open noIO _ _) as [d' r] eqn:E.
  destruct (Open_verified _ _ _ _ _ _ Hr E) as [[err ->]| ->]; [|done].
  unfold Open in E. simpl in E. destruct (negb _) in E; done.
Qed.

(** [Load] on a file whose records make a history. *)
Lemma Load_history name path clock io img es ending now c T :
  replays_to img es ending -> meta_first es -> Forall entry_ok es -> (forall o, in_int64 (clock o)) ->
  core_run decodeConfig es core0 = inl c -> core_wf T c ->
  exists d' r, Load name path (OpenOk (plainFile img)) clock io (mkDisk img []) now = Some (d', r) /\
    ((exists err, r = inr err /\ (Open io (mkDisk img []) (Z.of_nat (length (encode_all es)))).2 = inr err)
       \/ exists q, r = inl q /\ QInv es T q /\ (forall T', represents T' (qabs q) c) /\
            q_failed q = None /\ q_closed q = false /\ lg_hist (q_log q) = [] /\ q_detached q = None).
Proof using.
  intros Hr Hm Hok Hclk Hrun Hwf. destruct (load_history clock es c Hm Hclk Hrun) as (ix & Hdel & HL).
  unfold Load. rewrite (rt_replay _ _ _ Hr). unfold replay_outcome. rewrite Hdel.
  assert (exists res, ending_result path (Z.of_nat (length es)) ending = (res, None) /\
    ValidBytes res = Z.of_nat (length (encode_all es))) as (res & -> & Hv).
  { destruct (rt_ending _ _ _ Hr) as [[-> _]|[n ->]]; by eexists. }
  cbn [negb]. rewrite Hv. destruct (Open io _ _) as [d' r] eqn:E.
  destruct (Open_verified _ _ _ _ _ _ Hr E) as [[err ->]| ->].
  { eexists _, (inr err). split; [done|]. left. by exists err. }
  eexists _, _. split; [done|]. right. eexists. split; [done|].
  split_and!; [|apply (ld_rep _ _ HL)|done..].
  assert (records_of es (startQueue path ix
    (newLog (Z.of_nat (length (encode_all es))) (mkDisk (encode_all es) [])) now) = es) as Hrec
    by apply app_nil_r.
  split; rewrite ?Hrec; simpl; try done.
  - apply HL.
  - apply newLog_inv. by exists (encode_all es).
  - split; [|done]. unfold disk_bytes. simpl. apply app_nil_r.
  - exists c. split; [done|]. apply HL.
  - intros es1 c1 Hp1 Hp2 _ Hr1. assert (es1 = es) as -> by by apply (anti_symm prefix). by replace c1 with c by congruence.
  - by eapply loaded_spec_ok.
Qed.

(** ** A queue's life *)

(** What the log does on its own: the flusher, [Sync] and [Close]. *)
Inductive log_background : Log -> Log -> Prop :=
  | bg_Sync l : log_background l (Sync_turn l).1
  | bg_select final l l' : flusher_select final l = Some l' -> log_background l l'
  | bg_take l l' : lg_nextSeq l + 1 < 2 ^ 64 -> flushOnce_take l = Some l' -> log_background l l'
  | bg_finish w elapsed l l' : flushOnce_finish w elapsed l = Some l' -> log_background l l'
  | bg_Close_mark l : log_background l (Close_mark l).1
  | bg_Close_done l : lg_closed l = true -> log_background l (Close_done l).

Lemma log_background_step l l' : log_background l l' -> log_step l l'.
Proof using.
  destruct 1; [apply step_Sync|by eapply step_select|by apply step_take|by eapply step_finish
    |apply step_Close_mark|by apply step_Close_done].
Qed.

Lemma log_background_hist l l' :
  log_background l l' -> lg_hist l' = lg_hist l /\ lg_base l' = lg_base l.
Proof using.
  destruct 1; unfold Sync_turn, flusher_select, flushOnce_take, flushOnce_finish, Close_mark, kick in *;
    repeat case_match; simplify_eq/=; done.
Qed.

(** What the queue's clients, its timer and its log do, one critical section each. *)
Inductive QueueOp :=
  | OpEnqueue (now : Time) (rand8 payload : list byte) (priority : Z) (delay : Duration) (dedupID : string)
  | OpDequeue (now : Time) (max : Z) (visibility : Duration)
  | OpAck (id : string)
  | OpNack (now : Time) (id : string)
  | OpTick (now : Time)
  | OpCompact (now : Time) (syncErr : option Err) (liveOrder dedupOrder : list string) (io : CompactIO)
  | OpWait (batch : Z) (err : option Err)
  | OpSignal
  | OpSetCompactThreshold (n : Z)
  | OpClose
  | OpLog (l' : Log).

Inductive queue_step : QueueOp -> Queue -> Queue -> Prop :=
  | qs_Enqueue now rand8 payload priority delay dedupID q q' ph :
      enqueue_ok now rand8 payload priority delay dedupID q ->
      Enqueue now rand8 payload priority delay dedupID q = Some (q', ph) ->
      queue_step (OpEnqueue now rand8 payload priority delay dedupID) q q'
  | qs_Dequeue now max visibility q q' r :
      Dequeue now max visibility q = Some (q', r) -> queue_step (OpDequeue now max visibility) q q'
  | qs_Ack id q q' ph : Ack id q = Some (q', ph) -> queue_step (OpAck id) q q'
  | qs_Nack now id q q' ph : in_int64 now -> Nack now id q = Some (q', ph) -> queue_step (OpNack now id) q q'
  | qs_tick now q q' tk : in_int64 now -> tick now q = Some (q', tk) -> queue_step (OpTick now) q q'
  | qs_Compact now syncErr liveOrder dedupOrder io q q' r :
      map_orders liveOrder dedupOrder q ->
      (checkLocked q = None -> (Sync_turn (q_log q)).2 = Some syncErr) ->
      Compact syncErr now liveOrder dedupOrder io q = Some (q', r) ->
      queue_step (OpCompact now syncErr liveOrder dedupOrder io) q q'
  | qs_waitDurable b err q : Wait b (q_log q) = Some err -> queue_step (OpWait b err) q (waitDurable err q).1
  | qs_signal q : queue_step OpSignal q (signal q)
  | qs_SetCompactThreshold n q : queue_step (OpSetCompactThreshold n) q (SetCompactThreshold n q)
  | qs_Close q : queue_step OpClose q (Close q)
  | qs_log l' q : log_background (q_log q) l' -> queue_step (OpLog l') q (with_log l' q).

(** Any interleaving of them. *)
Inductive queue_run : list QueueOp -> Queue -> Queue -> Prop :=
  | run_nil q : queue_run [] q q
  | run_cons op ops q q1 q' : queue_step op q q1 -> queue_run ops q1 q' -> queue_run (op :: ops) q q'.

Lemma queue_run_app ops1 ops2 q q1 q' :
  queue_run ops1 q q1 -> queue_run ops2 q1 q' -> queue_run (ops1 ++ ops2) q q'.
Proof using. induction 1; [done|]. intros ?. cbn [app]. eauto using queue_run. Qed.

Lemma QInv_background base T q l' :
  QInv base T q -> log_background (q_log q) l' -> QInv base T (with_log l' q).
Proof using.
  intros [Hix Hlog Hbase Hmeta Hcore Hwf Hsp Hdet] Hb. destruct (log_background_hist _ _ Hb) as [Eh Eb].
  split; unfold records_of in *; simpl; rewrite ?Eh, ?Eb; try done.
  eapply log_step_inv; [|done]. by apply log_background_step.
Qed.

(** A queue whose [Create] has returned: [META] is durable. *)
Definition created (q : Queue) : Prop :=
  exists path cfg statErr view io d d' ix l l' batch now,
    config_typed cfg /\ c_NextSeq cfg <= 1 /\ c_MaxAttempts cfg < 2 ^ 32 /\
    Create path cfg statErr view io d = Some (d', inl (ix, l, batch)) /\
    rtc log_background l l' /\ Wait batch l' = Some None /\
    q = startQueue path ix l' now.

(** What the machine can restart with after a crash in [q]. *)
Definition crash q (img : list byte) : Prop :=
  match q_detached q with
  | Some imgs => img ∈ imgs
  | None => log_crash (q_log q) img
  end.

(** Everything that can become of a queue: created, run, stopped anywhere and
    loaded again from what its disk kept, over and over. *)
Inductive queue_reachable : Queue -> Prop :=
  | qr_create q : created q -> queue_reachable q
  | qr_step op q q' : queue_reachable q -> queue_step op q q' -> queue_reachable q'
  | qr_restart q img name path clock io now d' q' :
      queue_reachable q -> crash q img -> (forall o, in_int64 (clock o)) ->
      Load name path (OpenOk (plainFile img)) clock io (mkDisk img []) now = Some (d', inl q') ->
      queue_reachable q'.

(** The latest the clock may have read, for every reading that registered, purged
    or dropped a dedup entry. *)
Definition read_by (T : Time) (op : QueueOp) : Prop :=
  match op with OpEnqueue now _ _ _ _ _ | OpTick now | OpCompact now _ _ _ _ => now <= T | _ => True end.

(** Reachable with every such reading so far at most [T]. *)
Inductive reachable_by (T : Time) : Queue -> Prop :=
  | rb_create q : created q -> reachable_by T q
  | rb_step op q q' : reachable_by T q -> queue_step op q q' -> read_by T op -> reachable_by T q'
  | rb_restart q img name path clock io now d' q' :
      reachable_by T q -> crash q img -> (forall o, in_int64 (clock o)) ->
      Load name path (OpenOk (plainFile img)) clock io (mkDisk img []) now = Some (d', inl q') ->
      reachable_by T q'.

Lemma reachable_by_reachable T q : reachable_by T q -> queue_reachable q.
Proof using. induction 1; eauto using qr_create, qr_step, qr_restart. Qed.

Lemma read_by_later T T' op : T <= T' -> read_by T op -> read_by T' op.
Proof using. intros HT. destruct op; simpl; lia || done. Qed.

Lemma reachable_by_later T T' q : T <= T' -> reachable_by T q -> reachable_by T' q.
Proof using. intros HT. induction 1; eauto using rb_create, rb_step, rb_restart, read_by_later. Qed.

(** Every reachable queue has such a bound. *)
Lemma reachable_has_bound q : queue_reachable q -> exists T, reachable_by T q.
Proof using.
  induction 1 as [q Hc|op q q' _ [T IH] Hs|q img name path clock io now d' q' _ [T IH] Hcr Hclk HL].
  - exists 0. by apply rb_create.
  - assert (exists T', T <= T' /\ read_by T' op) as (T' & HT & Hop).
    { destruct op as [now| | | |now|now| | | | |]; try (exists T; split; [lia|done]); exists (Z.max T now); simpl; lia. }
    exists T'. eapply rb_step; [by eapply reachable_by_later|done..].
  - exists T. by eapply rb_restart.
Qed.

Lemma queue_reachable_run ops q q' : queue_reachable q -> queue_run ops q q' -> queue_reachable q'.
Proof using. intros Hq. induction 1; eauto using qr_step. Qed.

(** ** Every reachable queue satisfies its invariant *)

Context `{!ConfigCodecLaws}.

Lemma queue_step_QInv base T op q q' :
  queue_step op q q' -> QInv base T q ->
  exists base' T', T <= T' /\ QInv base' T' q' /\ (q_detached q' <> None -> base' = base) /\
    (read_by T op -> T' = T).
Proof using All.
  intros Hstep HQ. destruct Hstep as [now rand8 payload priority delay dedupID q q' ph Hok E|now max vis q q' r E|
    id q q' ph E|now id q q' ph Hnow E|now q q' tk Hnow E|now syncErr ids1 ids2 io q q' r Ho HS E|
    b err q Hw|q|n q|q|l' q Hb]; [| | | | | |exists base, T; (split_and!; [lia| |done|done])..].
  - destruct (Enqueue_correct base T _ _ _ _ _ _ q HQ Hok) as (? & ? & E' & HQ' & _).
    exists base, (Z.max T now). split_and!; [lia|congruence|done|simpl; lia].
  - destruct (Dequeue_correct base T now max vis q HQ) as (? & ? & ? & E' & HQ' & _).
    exists base, T. split_and!; [lia|congruence|done|done].
  - destruct (Ack_correct base T id q HQ) as (? & ? & E' & HQ' & _). exists base, T. split_and!; [lia|congruence|done|done].
  - destruct (Nack_correct base T now id q HQ Hnow) as (? & ? & E' & HQ' & _).
    exists base, T. split_and!; [lia|congruence|done|done].
  - destruct (tick_correct base T now q HQ Hnow) as (? & ? & E' & HQ' & _).
    exists base, (Z.max T now). split_and!; [lia|congruence|done|simpl; lia].
  - destruct (QInv_keyed _ _ _ HQ) as [HK _].
    destruct (Compact_cases now syncErr ids1 ids2 io q (qi_index _ _ _ HQ) HK Ho) as (q1 & r1 & E' & Hcp).
    assert (q1 = q' /\ r1 = r) as [-> ->] by by simplify_eq.
    destruct (Compact_QInv _ _ _ _ _ _ _ _ HQ HS Hcp) as (base' & HQ' & _ & Hb & _).
    exists base', (Z.max T now). split_and!; [lia|done| |simpl; lia]. intros Hd. apply Hb. intros Hr.
    destruct Hcp as [? Hc|? Hc|? ? Hc|? ? Hc|? ? ? ? Hc|? ? Hc]; try done.
    destruct (checkLocked_None _ Hc) as [Hf _]. simpl in Hd. by rewrite (QInv_attached _ _ _ HQ Hf) in Hd.
  - by apply waitDurable_QInv.
  - by apply QInv_signal.
  - by apply (QInv_same base T q).
  - by apply (QInv_same base T q).
  - by apply QInv_background.
Qed.

Lemma rtc_background_keeps l l' :
  rtc log_background l l' -> LogInv l -> LogInv l' /\ lg_hist l' = lg_hist l /\ lg_base l' = lg_base l.
Proof using.
  induction 1 as [|l1 l2 l3 Hs _ IH]; intros HI; [done|].
  destruct (log_background_hist _ _ Hs) as [E1 E2].
  destruct IH as (? & ? & ?); [eapply log_step_inv; [by apply log_background_step|done]|].
  split_and!; congruence.
Qed.

(** What [Create] leaves before its [Wait]. *)
Lemma Create_correct path cfg statErr view io d d' ix l batch :
  Create path cfg statErr view io d = Some (d', inl (ix, l, batch)) ->
  exists cfg' meta l0, Validate cfg = (cfg', None) /\ encodeConfig cfg' = inl meta /\
    ix = set_cfg cfg' newIndex /\ l0 = newLog 0 (mkDisk [] []) /\
    Append TypeMeta meta l0 = (l, inl batch).
Proof using.
  unfold Create. destruct (Validate cfg) as [cfg' [e|]] eqn:Hv; [done|]. intros E.
  apply bind_Some in E as ([err|] & _ & E); [done|].
  destruct (Open io d 0) as [d1 [l0|err]] eqn:Ho; [|done].
  destruct (encodeConfig cfg') as [meta|err] eqn:Hm; [|done].
  destruct (Append TypeMeta meta l0) as [l1 [b|err]] eqn:HA; [|done]. simplify_eq/=.
  exists cfg', meta, l0. split_and!; try done.
  unfold Open in Ho. repeat case_match; simplify_eq/=; try done.
  destruct d' as [s c]. unfold disk_bytes in *. simpl in *. bool_prop.
  assert (s = [] /\ c = []) as [-> ->]; [|done].
  rewrite length_app in *. destruct s, c; simpl in *; (done || lia).
Qed.

(** A created queue: [META] is its first record and durable. *)
Lemma created_QInv T q : created q -> QInv [] T q.
Proof using All.
  intros (path & cfg & statErr & view & io & d & d' & ix & l & l' & batch & now & Hty & Hseq & Hmax & HC & Hbg & HW & ->).
  destruct (Create_correct _ _ _ _ _ _ _ _ _ _ HC) as (cfg' & meta & l0 & Hv & Henc & -> & -> & HA).
  pose proof (Validate_sound _ _ Hv) as Hok. pose proof (Validate_typed _ _ Hv Hty) as [Hty' Hns].
  destruct (decode_encodeConfig cfg' meta Hok Hty' Henc) as [Hdec Hlen].
  assert (LogInv (newLog 0 (mkDisk [] []))) as HI0 by (apply newLog_inv; by exists []).
  assert (entry_ok (TypeMeta, meta)) as Hmok by by split.
  pose proof (Append_inv _ _ _ _ _ Hmok HA HI0) as HI1.
  unfold Append in HA. simpl in HA. injection HA as <- <-.
  destruct (rtc_background_keeps _ _ Hbg HI1) as (HI' & Eh & Eb).
  assert (records_of [] (startQueue path (set_cfg cfg' newIndex) l' now) = [(TypeMeta, meta)]) as Hrec
    by (unfold records_of; simpl; by rewrite Eh).
  assert (core_apply decodeConfig (TypeMeta, meta) core0 = inl (mkCore cfg' ∅ ∅ 1)) as Hap.
  { unfold core_apply. rewrite decide_True by done. rewrite Hdec, (Validate_ok cfg' Hok).
    do 2 f_equal. simpl. rewrite Hns. lia. }
  assert (core_run decodeConfig [(TypeMeta, meta)] core0 = inl (mkCore cfg' ∅ ∅ 1)) as Hrun
    by (cbn [core_run]; by rewrite Hap).
  assert (forall id, sp_msgs (abs (set_cfg cfg' newIndex)) !! id = None) as Hnone.
  { intros id. unfold abs, msgs. simpl. by rewrite lookup_omap, !lookup_empty. }
  split; rewrite ?Hrec.
  - pose proof newIndex_Inv as HI. destruct (set_cfg_Inv cfg' 1 newIndex HI eq_refl) as [Hx _]. exact Hx.
  - done.
  - simpl. by rewrite Eb.
  - by exists meta, [].
  - eexists. split; [exact Hrun|]. split; try done. intros id. simpl in *. rewrite Hnone, lookup_empty. constructor.
  - intros es c _ Hp Hne Hrun'. destruct es as [|e es]; [done|].
    pose proof (prefix_cons_inv_1 _ _ _ _ Hp) as ->. apply prefix_cons_inv_2, prefix_nil_inv in Hp as ->.
    pose proof (eq_trans (eq_sym Hrun) Hrun') as E. injection E as <-. apply core_wf_empty; try done.
    by apply (Validate_MaxAttempts cfg).
  - split; [intros id m Hm; simpl in Hm; by rewrite Hnone in Hm|]. intros d0 e He. simpl in He. by rewrite lookup_empty in He.
  - done.
Qed.

(** A restarted queue: it begins with what the crash left of the old one. *)
Lemma restart_QInv base T q img name path clock io now d' q' :
  QInv base T q -> crash q img -> (forall o, in_int64 (clock o)) ->
  Load name path (OpenOk (plainFile img)) clock io (mkDisk img []) now = Some (d', inl q') ->
  exists es, meta_first es /\ QInv es T q' /\ (q_detached q = None -> es `prefix_of` records_of base q).
Proof using.
  intros HQ Hcr Hclk HL.
  assert (forall es ending c, replays_to img es ending -> meta_first es -> Forall entry_ok es ->
    core_run decodeConfig es core0 = inl c -> core_wf T c -> QInv es T q') as Hload.
  { intros es ending c Hr Hm Hok Hrun Hwf.
    destruct (Load_history name path clock io img es ending now c T Hr Hm Hok Hclk Hrun Hwf) as (d1 & r & HL' & Hres).
    rewrite HL' in HL. injection HL as -> ->. by destruct Hres as [(e & ? & _)|(q1 & [= <-] & HQ' & _)]. }
  unfold crash in Hcr. destruct (q_detached q) as [imgs|] eqn:Hd.
  - destruct (qi_detached _ _ _ HQ imgs Hd) as [_ Hi]. rewrite Forall_forall in Hi.
    destruct (Hi img Hcr) as (es & c0 & -> & _ & [Hok Hm (c & Hrun & _ & Hwf)]). exists es. split_and!; [done| |done].
    eapply Hload; [by apply encode_all_replays_to|done..].
  - destruct HQ as [Hix Hlog [Hb Hbok] Hmeta (c & Hrun & Hrep) Hwf _ _].
    destruct (log_crash_replays (q_log q) base img Hlog Hb Hbok Hcr) as (es & ending & _ & _ & _ & Hbp & Hes & Hok & Hr).
    exists es. destruct (meta_first_prefix es _ Hes Hmeta) as [->|Hm].
    { exfalso. unfold Load in HL. rewrite (rt_replay _ _ _ Hr) in HL. unfold replay_outcome in HL.
      cbn [records_at deliver] in HL. destruct (ending_result path 0 ending) as [res [e|]]; [done|].
      cbn [negb] in HL. by case_match. }
    destruct (core_run_prefix decodeConfig es _ core0 c Hes Hrun) as [c1 Hrun1]. split_and!; [done| |done].
    eapply Hload; [done..|]. eapply Hwf; [done..| |done]. by destruct Hm as (? & ? & -> & _).
Qed.

Lemma queue_reachable_QInv q : queue_reachable q -> exists base T, QInv base T q.
Proof using All.
  induction 1 as [q Hc|op q q' _ (base & T & HQ) Hs|q img name path clock io now d' q' _ (base & T & HQ) Hcr Hclk Hl].
  - exists [], 0. by apply created_QInv.
  - destruct (queue_step_QInv base T op q q' Hs HQ) as (base' & T' & _ & HQ' & _). eauto.
  - destruct (restart_QInv base T _ _ _ _ _ _ _ _ _ HQ Hcr Hclk Hl) as (es & _ & HQ' & _). eauto.
Qed.

Lemma reachable_by_QInv T q : reachable_by T q -> exists base, QInv base T q.
Proof using All.
  induction 1 as [q Hc|op q q' _ (base & HQ) Hs Hop|q img name path clock io now d' q' _ (base & HQ) Hcr Hclk Hl].
  - exists []. by apply created_QInv.
  - destruct (queue_step_QInv base T op q q' Hs HQ) as (base' & T' & _ & HQ' & _ & HT). rewrite (HT Hop) in HQ'. by exists base'.
  - destruct (restart_QInv base T _ _ _ _ _ _ _ _ _ HQ Hcr Hclk Hl) as (es & _ & HQ' & _). by exists es.
Qed.
End Recovery.
