(* ===== verification/Json.v ===== *)
(** * JSON ([encoding/json]) and the encoding of [META]

    The parts of the standard library's JSON codec the source computes with: the
    value grammar, string escaping and unescaping, and [Marshal]/[Unmarshal] of
    [Config], which is how a queue's configuration is written in its log
    ([encodeConfig], [decodeConfig] in [internal/queue/codec.go]). *)

From Stdlib Require Import ZArith Lia.
From S2P Require Import Prelude GoInt Errors Message Codec Index Load.

(** ** Characters *)

Definition ch (s : string) : byte := default x00 (head (bytes_of_string s)).
Definition isCh (b : byte) (s : string) : bool := byteZ b =? byteZ (ch s).
Definition quote : byte := x22.
Definition backslash : byte := x5c.

Definition isDigit (b : byte) : bool := (48 <=? byteZ b) && (byteZ b <=? 57).
Definition isSpace (b : byte) : bool :=
  (byteZ b =? 32) || (byteZ b =? 9) || (byteZ b =? 10) || (byteZ b =? 13).

Fixpoint skipSpace (b : list byte) : list byte :=
  match b with
  | x :: b' => if isSpace x then skipSpace b' else b
  | [] => []
  end.

(** ** UTF-8 *)

Definition cont (b : byte) : bool := (128 <=? byteZ b) && (byteZ b <=? 191).
Definition between (lo hi : Z) (b : byte) : bool := (lo <=? byteZ b) && (byteZ b <=? hi).

(** The rune a byte string starts with and its width, [None] for an invalid
    encoding ([utf8.DecodeRune] returning [RuneError] with width 1). *)
Definition decodeRune (b : list byte) : option (Z * nat) :=
  match b with
  | x :: b1 =>
    let z := byteZ x in
    if z <? 128 then Some (z, 1%nat)
    else
      match b1 with
      | y :: b2 =>
        if between 194 223 x && cont y then
          Some ((z - 192) * 64 + (byteZ y - 128), 2%nat)
        else
          match b2 with
          | w :: b3 =>
            let second := if z =? 224 then between 160 191 y
                          else if z =? 237 then between 128 159 y else cont y in
            if between 224 239 x && second && cont w then
              Some ((z - 224) * 4096 + (byteZ y - 128) * 64 + (byteZ w - 128), 3%nat)
            else
              match b3 with
              | v :: _ =>
                let second := if z =? 240 then between 144 191 y
                              else if z =? 244 then between 128 143 y else cont y in
                if between 240 244 x && second && cont w && cont v then
                  Some ((z - 240) * 262144 + (byteZ y - 128) * 4096 + (byteZ w - 128) * 64 + (byteZ v - 128), 4%nat)
                else None
              | [] => None
              end
          | [] => None
          end
      | [] => None
      end
  | [] => None
  end.

(** [utf8.AppendRune]; surrogates and values out of range become U+FFFD. *)
Definition encodeRune (r : Z) : list byte :=
  let r := if ((55296 <=? r) && (r <=? 57343)) || (1114111 <? r) || (r <? 0) then 65533 else r in
  if r <? 128 then [Zbyte r]
  else if r <? 2048 then [Zbyte (192 + r / 64); Zbyte (128 + r mod 64)]
  else if r <? 65536 then [Zbyte (224 + r / 4096); Zbyte (128 + (r / 64) mod 64); Zbyte (128 + r mod 64)]
  else [Zbyte (240 + r / 262144); Zbyte (128 + (r / 4096) mod 64); Zbyte (128 + (r / 64) mod 64); Zbyte (128 + r mod 64)].

(** ** Writing *)

(** [htmlSafeSet]: written as it is. *)
Definition htmlSafe (b : byte) : bool :=
  let z := byteZ b in
  (32 <=? z) && (z <? 128) && negb (z =? 34) && negb (z =? 92) && negb (z =? 60) && negb (z =? 62) && negb (z =? 38).

(** How one ASCII byte is written inside a string. *)
Definition escapeByte (b : byte) : list byte :=
  let z := byteZ b in
  if htmlSafe b then [b]
  else if (z =? 92) || (z =? 34) then [backslash; b]
  else if z =? 8 then [backslash; ch "b"]
  else if z =? 12 then [backslash; ch "f"]
  else if z =? 10 then [backslash; ch "n"]
  else if z =? 13 then [backslash; ch "r"]
  else if z =? 9 then [backslash; ch "t"]
  else bytes_of_string "\u00" ++ [hexDigit (z / 16); hexDigit (z mod 16)].

(** The body of [appendString]; [skip] counts the bytes of a rune still to pass,
    [copy] says whether they are written as they are. *)
Fixpoint appendString_body (copy : bool) (skip : nat) (s : list byte) : list byte :=
  match s with
  | [] => []
  | x :: s' =>
    match skip with
    | S k => (if copy then [x] else []) ++ appendString_body copy k s'
    | O =>
      if byteZ x <? 128 then escapeByte x ++ appendString_body true 0 s'
      else
        match decodeRune s with
        | None => bytes_of_string "\ufffd" ++ appendString_body true 0 s'
        | Some (r, w) =>
          if (r =? 8232) || (r =? 8233) then
            bytes_of_string "\u202" ++ [hexDigit (r mod 16)] ++ appendString_body false (w - 1) s'
          else x :: appendString_body true (w - 1) s'
        end
    end
  end.

Definition appendString (s : list byte) : list byte :=
  quote :: appendString_body true 0 s ++ [quote].

(** [strconv.AppendInt(_, z, 10)]; 20 digits are enough for 64 bits. *)
Fixpoint digits (fuel : nat) (n : Z) : list byte :=
  match fuel with
  | O => []
  | S fuel =>
    (if n <? 10 then [] else digits fuel (n / 10)) ++ [Zbyte (48 + n mod 10)]
  end.

Definition appendInt (z : Z) : list byte :=
  if z <? 0 then ch "-" :: digits 20 (- z) else digits 20 z.

Definition appendBool (b : bool) : list byte := bytes_of_string (if b then "true" else "false").

(** [json.Marshal(c)]: the fields in order, [next_seq] left out when zero. *)
Definition field (first : bool) (name : string) (value : list byte) : list byte :=
  (if first then [] else [ch ","]) ++ appendString (bytes_of_string name) ++ [ch ":"] ++ value.

Definition marshalConfig (c : Config) : list byte :=
  [ch "{"] ++
  field true "name" (appendString (bytes_of_string (c_Name c))) ++
  field false "ordering" (appendString (bytes_of_string (c_Ordering c))) ++
  field false "priority_enabled" (appendBool (c_PriorityEnabled c)) ++
  field false "max_attempts" (appendInt (c_MaxAttempts c)) ++
  field false "default_visibility_timeout_ms" (appendInt (c_DefaultVisibilityTimeoutMS c)) ++
  field false "aging_interval_ms" (appendInt (c_AgingIntervalMS c)) ++
  field false "aging_max_boost" (appendInt (c_AgingMaxBoost c)) ++
  field false "dedup_window_ms" (appendInt (c_DedupWindowMS c)) ++
  (if c_NextSeq c =? 0 then [] else field false "next_seq" (appendInt (c_NextSeq c))) ++
  [ch "}"].

(** ** Reading *)

Inductive json :=
  | JNull
  | JBool (b : bool)
  | JNum (literal : list byte)
  | JStr (s : list byte)
  | JArr (vs : list json)
  | JObj (members : list (list byte * json)).

Definition hexVal (b : byte) : option Z :=
  let z := byteZ b in
  if (48 <=? z) && (z <=? 57) then Some (z - 48)
  else if (97 <=? z) && (z <=? 102) then Some (z - 87)
  else if (65 <=? z) && (z <=? 70) then Some (z - 55)
  else None.

Definition hex4 (a b c d : byte) : option Z :=
  w ← hexVal a; x ← hexVal b; y ← hexVal c; z ← hexVal d;
  Some (w * 4096 + x * 256 + y * 16 + z).

Definition isHigh (r : Z) : bool := (55296 <=? r) && (r <=? 56319).
Definition isLow (r : Z) : bool := (56320 <=? r) && (r <=? 57343).

(** The rest of a string after its opening quote: its bytes, unescaped, and
    what follows the closing quote.  [skip] counts the bytes of a valid rune
    still to copy; [high] is a high surrogate waiting for its partner. *)
Fixpoint parseString (high : option Z) (skip : nat) (b : list byte) : option (list byte * list byte) :=
  let lone := match high with Some _ => encodeRune 65533 | None => [] end in
  let emit (out : list byte) (r : option (list byte * list byte)) :=
    '(s, rest) ← r; Some (lone ++ out ++ s, rest) in
  match b with
  | [] => None
  | x :: b' =>
    match skip with
    | S k => '(s, rest) ← parseString None k b'; Some (x :: s, rest)
    | O =>
      if byteZ x =? 34 then Some (lone, b')
      else if byteZ x =? 92 then
        match b' with
        | [] => None
        | e :: b2 =>
          if isCh e "u" then
            match b2 with
            | h1 :: h2 :: h3 :: h4 :: b3 =>
              r ← hex4 h1 h2 h3 h4;
              match high with
              | Some hi =>
                if isLow r then
                  '(s, rest) ← parseString None 0 b3;
                  Some (encodeRune (65536 + (hi - 55296) * 1024 + (r - 56320)) ++ s, rest)
                else if isHigh r then
                  '(s, rest) ← parseString (Some r) 0 b3; Some (lone ++ s, rest)
                else emit (encodeRune r) (parseString None 0 b3)
              | None =>
                if isHigh r then parseString (Some r) 0 b3
                else emit (encodeRune r) (parseString None 0 b3)
              end
            | _ => None
            end
          else if (byteZ e =? 34) || (byteZ e =? 92) || isCh e "/" then emit [e] (parseString None 0 b2)
          else if isCh e "b" then emit [Zbyte 8] (parseString None 0 b2)
          else if isCh e "f" then emit [Zbyte 12] (parseString None 0 b2)
          else if isCh e "n" then emit [Zbyte 10] (parseString None 0 b2)
          else if isCh e "r" then emit [Zbyte 13] (parseString None 0 b2)
          else if isCh e "t" then emit [Zbyte 9] (parseString None 0 b2)
          else None
        end
      else if byteZ x <? 32 then None
      else if byteZ x <? 128 then emit [x] (parseString None 0 b')
      else
        match decodeRune b with
        | Some (_, w) => emit [x] (parseString None (w - 1) b')
        | None => emit (encodeRune 65533) (parseString None 0 b')
        end
    end
  end.

(** Digits from the front. *)
Fixpoint spanDigits (b : list byte) : list byte * list byte :=
  match b with
  | x :: b' => if isDigit x then let '(d, r) := spanDigits b' in (x :: d, r) else ([], b)
  | [] => ([], [])
  end.

Definition splitSign (b : list byte) : list byte * list byte :=
  match b with
  | x :: b' => if isCh x "-" then ([x], b') else ([], b)
  | [] => ([], b)
  end.

(** A number literal. *)
Definition parseNumber (b : list byte) : option (list byte * list byte) :=
  let '(sign, b) := splitSign b in
  let '(int, b) := spanDigits b in
  '(int, b) ← (match int with
               | [] => None
               | d :: ds => if (byteZ d =? 48) && negb (bool_decide (ds = [])) then None else Some (int, b)
               end);
  '(frac, b) ← (match b with
                | x :: b' =>
                  if isCh x "." then
                    let '(d, r) := spanDigits b' in if bool_decide (d = []) then None else Some (x :: d, r)
                  else Some ([], b)
                | [] => Some ([], b)
                end);
  '(expo, b) ← (match b with
                | x :: b' =>
                  if isCh x "e" || isCh x "E" then
                    let '(s, b') := match b' with
                                    | y :: b'' => if isCh y "+" || isCh y "-" then ([y], b'') else ([], b')
                                    | [] => ([], b')
                                    end in
                    let '(d, r) := spanDigits b' in if bool_decide (d = []) then None else Some (x :: s ++ d, r)
                  else Some ([], b)
                | [] => Some ([], b)
                end);
  Some (sign ++ int ++ frac ++ expo, b).

(** [b] without the prefix [p]. *)
Fixpoint expect (p b : list byte) : option (list byte) :=
  match p, b with
  | [], b => Some b
  | x :: p, y :: b => if byteZ x =? byteZ y then expect p b else None
  | _ :: _, [] => None
  end.

(** Values nest at most this deep. *)
Definition maxNestingDepth : nat := 10000.

(** A value; [depth] is what is left of the nesting limit. *)
Fixpoint parseValue (fuel depth : nat) (b : list byte) : option (json * list byte) :=
  match fuel with
  | O => None
  | S fuel =>
    match skipSpace b with
    | [] => None
    | x :: b' =>
      if byteZ x =? 34 then '(s, r) ← parseString None 0 b'; Some (JStr s, r)
      else if isCh x "{" then
        match depth with
        | O => None
        | S depth =>
          match skipSpace b' with
          | y :: r => if isCh y "}" then Some (JObj [], r)
                      else '(ms, r) ← parseMembers fuel depth b'; Some (JObj ms, r)
          | [] => None
          end
        end
      else if isCh x "[" then
        match depth with
        | O => None
        | S depth =>
          match skipSpace b' with
          | y :: r => if isCh y "]" then Some (JArr [], r)
                      else '(vs, r) ← parseElements fuel depth b'; Some (JArr vs, r)
          | [] => None
          end
        end
      else if isCh x "t" then r ← expect (bytes_of_string "rue") b'; Some (JBool true, r)
      else if isCh x "f" then r ← expect (bytes_of_string "alse") b'; Some (JBool false, r)
      else if isCh x "n" then r ← expect (bytes_of_string "ull") b'; Some (JNull, r)
      else '(n, r) ← parseNumber (x :: b'); Some (JNum n, r)
    end
  end
with parseMembers (fuel depth : nat) (b : list byte) : option (list (list byte * json) * list byte) :=
  match fuel with
  | O => None
  | S fuel =>
    match skipSpace b with
    | q :: b1 =>
      if byteZ q =? 34 then
        '(k, b2) ← parseString None 0 b1;
        match skipSpace b2 with
        | c :: b3 =>
          if isCh c ":" then
            '(v, b4) ← parseValue fuel depth b3;
            match skipSpace b4 with
            | e :: b5 =>
              if isCh e "," then '(ms, r) ← parseMembers fuel depth b5; Some ((k, v) :: ms, r)
              else if isCh e "}" then Some ([(k, v)], b5)
              else None
            | [] => None
            end
          else None
        | [] => None
        end
      else None
    | [] => None
    end
  end
with parseElements (fuel depth : nat) (b : list byte) : option (list json * list byte) :=
  match fuel with
  | O => None
  | S fuel =>
    '(v, b1) ← parseValue fuel depth b;
    match skipSpace b1 with
    | e :: b2 =>
      if isCh e "," then '(vs, r) ← parseElements fuel depth b2; Some (v :: vs, r)
      else if isCh e "]" then Some ([v], b2)
      else None
    | [] => None
    end
  end.

(** A whole document: every byte read, or a syntax error.  Each call consumes a
    byte or is followed by one that does. *)
Definition parseJSON (b : list byte) : option json :=
  '(v, r) ← parseValue (2 * length b + 2) maxNestingDepth b;
  if bool_decide (skipSpace r = []) then Some v else None.

(** [json.Valid] *)
Definition Valid (b : list byte) : bool := match parseJSON b with Some _ => true | None => false end.

(** ** Unmarshal into a [Config] *)

(** [foldName], as far as it can equal the fold of an ASCII name: letters to
    upper case, and the two runes outside ASCII that fold to letters. *)
Fixpoint foldName (b : list byte) : list byte :=
  match b with
  | xc5 :: ((xbf :: b'') as b') => ch "S" :: foldName b''
  | xe2 :: ((x84 :: ((xaa :: b'') as b3)) as b') => ch "K" :: foldName b''
  | x :: b' => (if between 97 122 x then Zbyte (byteZ x - 32) else x) :: foldName b'
  | [] => []
  end.

(** The value of a string of digits. *)
Fixpoint digitsVal (acc : Z) (b : list byte) : option Z :=
  match b with
  | [] => Some acc
  | x :: b => if isDigit x then digitsVal (acc * 10 + (byteZ x - 48)) b else None
  end.

Definition parseDigits (b : list byte) : option Z :=
  match b with [] => None | _ => digitsVal 0 b end.

(** [strconv.ParseInt(s, 10, 64)] and [strconv.ParseUint(s, 10, 64)] on a JSON
    literal. *)
Definition ParseInt (b : list byte) : option Z :=
  z ← (match b with
       | x :: b' => if isCh x "-" then z ← parseDigits b'; Some (- z) else parseDigits b
       | [] => None
       end);
  if (- 2 ^ 63 <=? z) && (z <? 2 ^ 63) then Some z else None.
Definition ParseUint (b : list byte) : option Z :=
  z ← parseDigits b; if z <? 2 ^ 64 then Some z else None.

Definition set_Name (n : string) (c : Config) : Config :=
  mkConfig n (c_Ordering c) (c_PriorityEnabled c) (c_MaxAttempts c) (c_DefaultVisibilityTimeoutMS c)
    (c_AgingIntervalMS c) (c_AgingMaxBoost c) (c_DedupWindowMS c) (c_NextSeq c).
Definition set_PriorityEnabled (b : bool) (c : Config) : Config :=
  mkConfig (c_Name c) (c_Ordering c) b (c_MaxAttempts c) (c_DefaultVisibilityTimeoutMS c)
    (c_AgingIntervalMS c) (c_AgingMaxBoost c) (c_DedupWindowMS c) (c_NextSeq c).
Definition set_AgingIntervalMS (n : Z) (c : Config) : Config :=
  mkConfig (c_Name c) (c_Ordering c) (c_PriorityEnabled c) (c_MaxAttempts c) (c_DefaultVisibilityTimeoutMS c)
    n (c_AgingMaxBoost c) (c_DedupWindowMS c) (c_NextSeq c).

(** A value stored in a field of a given type: the new struct, and a type error
    if the value is of another kind; [null] stores nothing. *)
Definition typeError : option Err := Some (EJson "cannot unmarshal value into field").

Definition storeString (v : json) (set : string -> Config -> Config) (c : Config) : Config * option Err :=
  match v with JStr s => (set (string_of_bytes s) c, None) | JNull => (c, None) | _ => (c, typeError) end.
Definition storeBool (v : json) (set : bool -> Config -> Config) (c : Config) : Config * option Err :=
  match v with JBool b => (set b c, None) | JNull => (c, None) | _ => (c, typeError) end.
Definition storeNum (parse : list byte -> option Z) (v : json) (set : Z -> Config -> Config) (c : Config)
    : Config * option Err :=
  match v with
  | JNum l => match parse l with Some z => (set z c, None) | None => (c, typeError) end
  | JNull => (c, None)
  | _ => (c, typeError)
  end.

(** The fields of [Config], by folded JSON name. *)
Definition configFields : list (string * (json -> Config -> Config * option Err)) := [
  ("name", fun v => storeString v set_Name);
  ("ordering", fun v => storeString v set_Ordering);
  ("priority_enabled", fun v => storeBool v set_PriorityEnabled);
  ("max_attempts", fun v => storeNum ParseInt v set_MaxAttempts);
  ("default_visibility_timeout_ms", fun v => storeNum ParseInt v set_DefaultVisibilityTimeoutMS);
  ("aging_interval_ms", fun v => storeNum ParseInt v set_AgingIntervalMS);
  ("aging_max_boost", fun v => storeNum ParseInt v set_AgingMaxBoost);
  ("dedup_window_ms", fun v => storeNum ParseInt v set_DedupWindowMS);
  ("next_seq", fun v => storeNum ParseUint v set_NextSeq)].

(** One member of the object; unknown names are ignored. *)
Definition storeMember (k : list byte) (v : json) (c : Config) : Config * option Err :=
  match find (fun f => bool_decide (foldName (bytes_of_string (fst f)) = foldName k)) configFields with
  | Some (_, store) => store v c
  | None => (c, None)
  end.

(** Every member is stored; the first type error is returned at the end. *)
Fixpoint storeMembers (ms : list (list byte * json)) (c : Config) : Config * option Err :=
  match ms with
  | [] => (c, None)
  | (k, v) :: ms =>
    let '(c, err) := storeMember k v c in
    let '(c, err') := storeMembers ms c in
    (c, match err with Some e => Some e | None => err' end)
  end.

(** [json.Unmarshal(b, &c)] into the zero [Config]. *)
Definition unmarshalConfig (b : list byte) : Config * option Err :=
  match parseJSON b with
  | None => (zeroConfig, Some (EJson "syntax error"))
  | Some (JObj ms) => storeMembers ms zeroConfig
  | Some JNull => (zeroConfig, None)
  | Some _ => (zeroConfig, Some (EJson "cannot unmarshal value into Go value of type queue.Config"))
  end.

#[export] Instance jsonCodec : ConfigCodec := {
  encodeConfig c := inl (marshalConfig c);
  decodeConfig b := match unmarshalConfig b with (_, Some err) => inr err | (c, None) => inl c end;
}.
