(* ===== verification/JsonProps.v ===== *)
(** * The JSON of a configuration reads back

    What [Marshal] writes for a validated configuration, [Unmarshal] reads:
    the laws [Load.ConfigCodecLaws] of the codec of [META]. *)

From Stdlib Require Import ZArith Lia.
From S2P Require Import Prelude GoInt Errors WalRecord Message Codec Index Load Json.

(** ** Strings *)

Definition plain (s : list byte) : Prop := Forall (fun b => htmlSafe b = true) s.

Lemma htmlSafe_spec b :
  htmlSafe b = true -> 32 <= byteZ b < 128 /\ byteZ b <> 34 /\ byteZ b <> 92.
Proof. unfold htmlSafe. cbv zeta. intros H. bool_prop. lia. Qed.

Lemma appendString_plain s : plain s -> appendString s = quote :: s ++ [quote].
Proof.
  intros Hs. unfold appendString. do 2 f_equal. induction Hs as [|b s Hb Hs IH]; [done|].
  cbn [appendString_body]. pose proof (htmlSafe_spec b Hb).
  rewrite (proj2 (Z.ltb_lt _ _)) by lia. unfold escapeByte. cbv zeta. rewrite Hb. simpl. by rewrite IH.
Qed.

Lemma parseString_plain s rest :
  plain s -> parseString None 0 (s ++ quote :: rest) = Some (s, rest).
Proof.
  induction 1 as [|b s Hb Hs IH]; [done|]. cbn [app parseString].
  pose proof (htmlSafe_spec b Hb).
  rewrite (proj2 (Z.eqb_neq _ 34)), (proj2 (Z.eqb_neq _ 92)), (proj2 (Z.ltb_ge _ 32)),
    (proj2 (Z.ltb_lt _ 128)) by lia.
  rewrite IH. done.
Qed.

(** ** Values written inside an object *)

(** [v] is read as [val] whenever a comma or a closing brace follows. *)
Definition reads (v : list byte) (val : json) : Prop :=
  forall fuel depth c rest, c = ch "," \/ c = ch "}" ->
    parseValue (S fuel) depth (v ++ c :: rest) = Some (val, c :: rest).

Lemma reads_string s : plain s -> reads (appendString s) (JStr s).
Proof.
  intros Hs fuel depth c rest Hc. rewrite appendString_plain by done.
  cbn [parseValue]. change ((quote :: s ++ [quote]) ++ c :: rest) with (quote :: (s ++ [quote]) ++ c :: rest).
  rewrite <- app_assoc. cbn [skipSpace app]. change (isSpace quote) with false. cbv iota.
  change (byteZ quote =? 34) with true. cbv iota. by rewrite parseString_plain.
Qed.

Lemma reads_bool b : reads (appendBool b) (JBool b).
Proof. intros fuel depth c rest Hc. by destruct b. Qed.

(** ** Numbers *)

Lemma isDigit_spec n : 0 <= n < 10 -> isDigit (Zbyte (48 + n)) = true /\ byteZ (Zbyte (48 + n)) = 48 + n.
Proof.
  intros. assert (byteZ (Zbyte (48 + n)) = 48 + n) as E by (rewrite byteZ_Zbyte, Z.mod_small; lia).
  split; [|done]. unfold isDigit. rewrite E. apply andb_true_intro. split; apply Z.leb_le; lia.
Qed.

Lemma digitsVal_app acc a b :
  digitsVal acc (a ++ b) = (v ← digitsVal acc a; digitsVal v b).
Proof. revert acc. induction a as [|x a IH]; intros acc; simpl; [done|]. destruct (isDigit x); [apply IH|done]. Qed.

(** The digits of a number: all digits, no leading zero, and its value. *)
Lemma digits_spec fuel n :
  0 <= n < 10 ^ Z.of_nat fuel -> (0 < fuel)%nat ->
  Forall (fun b => isDigit b = true) (digits fuel n) /\ digitsVal 0 (digits fuel n) = Some n /\
  exists d ds, digits fuel n = d :: ds /\ (ds <> [] -> byteZ d <> 48).
Proof.
  revert n. induction fuel as [|fuel IH]; intros n Hn Hf; [lia|]. cbn [digits].
  pose proof (Z.mod_pos_bound n 10 ltac:(lia)) as Hm. pose proof (Z.div_mod n 10 ltac:(lia)) as Hdm.
  destruct (isDigit_spec (n mod 10) Hm) as [Hd Hv].
  destruct (Z.ltb_spec n 10) as [Hlt|Hge].
  - rewrite app_nil_l. split_and!; [by apply Forall_singleton| |by eexists _, []].
    cbn [digitsVal]. rewrite Hd, Hv. f_equal. rewrite Z.mod_small in * by lia. lia.
  - rewrite Nat2Z.inj_succ, Z.pow_succ_r in Hn by lia.
    assert (fuel <> 0%nat) as Hf0 by (intros ->; simpl in Hn; lia).
    destruct (IH (n / 10)) as (Hall & Hval & d & ds & E & Hlead);
      [split; [apply Z.div_pos; lia|apply Z.div_lt_upper_bound; lia]|lia|].
    split_and!.
    + apply Forall_app. split; [done|]. by apply Forall_singleton.
    + rewrite digitsVal_app, Hval. cbn [mbind option_bind digitsVal]. rewrite Hd, Hv. f_equal. lia.
    + rewrite E. exists d, (ds ++ [Zbyte (48 + n mod 10)]). split; [done|]. intros _.
      destruct (decide (ds = [])) as [->|]; [|by apply Hlead].
      rewrite E in Hval. cbn [digitsVal] in Hval. destruct (isDigit d); [|done]. injection Hval as Hval.
      pose proof (Z.div_le_lower_bound n 10 1 ltac:(lia) ltac:(lia)). lia.
Qed.

Lemma spanDigits_stop ds c rest :
  Forall (fun b => isDigit b = true) ds -> isDigit c = false ->
  spanDigits (ds ++ c :: rest) = (ds, c :: rest).
Proof.
  induction 1 as [|d ds Hd Hds IH]; intros Hc; simpl; [by rewrite Hc|]. by rewrite Hd, IH.
Qed.

(** A literal: an optional sign and the digits of a number. *)
Lemma parseNumber_digits (neg : bool) n c rest :
  0 <= n < 10 ^ 20 -> c = ch "," \/ c = ch "}" ->
  let lit := (if neg then [ch "-"] else []) ++ digits 20 n in
  parseNumber (lit ++ c :: rest) = Some (lit, c :: rest).
Proof.
  intros Hn Hc. cbv zeta. destruct (digits_spec 20 n) as (Hall & _ & d & ds & E & Hlead); [lia|lia|].
  assert (isDigit c = false) as Hcd by (by destruct Hc; subst).
  unfold parseNumber.
  assert (splitSign (((if neg then [ch "-"] else []) ++ digits 20 n) ++ c :: rest)
    = (if neg then [ch "-"] else [], digits 20 n ++ c :: rest)) as Hsign.
  { rewrite E. destruct neg; [done|]. simpl. assert (isCh d "-" = false) as ->; [|done].
    rewrite E in Hall. apply Forall_cons in Hall as [Hd _]. unfold isDigit in Hd. bool_prop.
    unfold isCh. change (byteZ (ch "-")) with 45. apply Z.eqb_neq. lia. }
  rewrite Hsign, spanDigits_stop by done. rewrite E.
  assert ((byteZ d =? 48) && negb (bool_decide (ds = [])) = false) as ->.
  { destruct (decide (ds = [])) as [->|Hne]; [by rewrite andb_false_r|].
    by rewrite (proj2 (Z.eqb_neq _ _)) by by apply Hlead. }
  cbn [mbind option_bind].
  assert (isCh c "." = false /\ isCh c "e" = false /\ isCh c "E" = false) as (C1 & C2 & C3)
    by (by destruct Hc; subst).
  rewrite C1. cbn [mbind option_bind]. rewrite C2, C3. cbn [orb mbind option_bind]. by rewrite !app_nil_r.
Qed.

Lemma appendInt_lit z :
  in_int64 z \/ in_uint 64 z -> exists (neg : bool) n, 0 <= n < 10 ^ 20 /\
    appendInt z = (if neg then [ch "-"] else []) ++ digits 20 n /\ z = (if neg then - n else n) /\
    (neg = true -> z < 0).
Proof.
  intros Hz. unfold appendInt. unfold in_int64, in_uint in Hz. destruct (Z.ltb_spec z 0).
  - exists true, (- z). split_and!; (done || lia).
  - exists false, z. split_and!; (done || lia).
Qed.

(** A value that starts like a number is parsed as one. *)
Lemma reads_int z : in_int64 z \/ in_uint 64 z -> reads (appendInt z) (JNum (appendInt z)).
Proof.
  intros Hz fuel depth c rest Hc. destruct (appendInt_lit z Hz) as (neg & n & Hn & -> & _ & _).
  pose proof (parseNumber_digits neg n c rest Hn Hc) as Hp. cbv zeta in Hp.
  set (lit := _ ++ digits 20 n) in *.
  destruct (digits_spec 20 n) as (Hall & _ & d & ds & E & _); [lia|lia|].
  assert (exists x l, lit = x :: l /\ (x = ch "-" \/ isDigit x = true)) as (x & l & El & Hx).
  { subst lit. rewrite E in *. apply Forall_cons in Hall as [Hd _]. destruct neg; eexists _, _; split; try done; auto. }
  rewrite El in *. cbn [app] in *. cbn [parseValue].
  assert (byteZ x = 45 \/ 48 <= byteZ x <= 57) as Hbx.
  { destruct Hx as [->|Hd]; [by left|]. unfold isDigit in Hd. bool_prop. lia. }
  cbn [skipSpace]. assert (isSpace x = false) as ->.
  { unfold isSpace. rewrite !(proj2 (Z.eqb_neq (byteZ x) _)) by lia. done. }
  unfold isCh. change (byteZ (ch "{")) with 123. change (byteZ (ch "[")) with 91.
  change (byteZ (ch "t")) with 116. change (byteZ (ch "f")) with 102. change (byteZ (ch "n")) with 110.
  rewrite !(proj2 (Z.eqb_neq (byteZ x) _)) by lia. by rewrite Hp.
Qed.

Lemma ParseInt_appendInt z : in_int64 z -> ParseInt (appendInt z) = Some z.
Proof.
  intros Hz. destruct (appendInt_lit z (or_introl Hz)) as (neg & n & Hn & -> & E & Hneg).
  destruct (digits_spec 20 n) as (Hall & Hval & d & ds & Ed & _); [lia|lia|].
  assert (parseDigits (digits 20 n) = Some n) as Hpd by (unfold parseDigits; by rewrite Ed in *).
  unfold in_int64 in Hz. unfold ParseInt. destruct neg; cbn [app].
  - change (isCh (ch "-") "-") with true. cbv iota. rewrite Hpd. cbn [mbind option_bind].
    by rewrite <- E, (proj2 (Z.leb_le _ _)), (proj2 (Z.ltb_lt _ _)) by lia.
  - assert (isCh d "-" = false) as Hd'.
    { rewrite Ed in Hall. apply Forall_cons in Hall as [Hd _]. unfold isDigit in Hd. bool_prop.
      unfold isCh. change (byteZ (ch "-")) with 45. apply Z.eqb_neq. lia. }
    rewrite Ed at 1. rewrite Hd', Hpd. cbn [mbind option_bind].
    by rewrite <- E, (proj2 (Z.leb_le _ _)), (proj2 (Z.ltb_lt _ _)) by lia.
Qed.

Lemma ParseUint_appendInt z : in_uint 64 z -> ParseUint (appendInt z) = Some z.
Proof.
  intros Hz. unfold in_uint in Hz. unfold appendInt, ParseUint. rewrite (proj2 (Z.ltb_ge _ _)) by lia.
  destruct (digits_spec 20 z) as (_ & Hval & d & ds & Ed & _); [lia|lia|].
  assert (parseDigits (digits 20 z) = Some z) as -> by (unfold parseDigits; by rewrite Ed in *).
  cbn [mbind option_bind]. by rewrite (proj2 (Z.ltb_lt _ _)) by lia.
Qed.

(** ** Objects *)

(** A member as [field] writes it. *)
Definition member (m : string * list byte) : list byte :=
  appendString (bytes_of_string m.1) ++ [ch ":"] ++ m.2.

Lemma field_eq first name value : field first name value = (if first then [] else [ch ","]) ++ member (name, value).
Proof. done. Qed.

(** The members after the first, and the closing brace. *)
Fixpoint membersTail (ms : list (string * list byte)) (rest : list byte) : list byte :=
  match ms with
  | [] => ch "}" :: rest
  | m :: ms => ch "," :: member m ++ membersTail ms rest
  end.

Definition member_ok (m : string * list byte) (kv : list byte * json) : Prop :=
  plain (bytes_of_string m.1) /\ kv.1 = bytes_of_string m.1 /\ reads m.2 kv.2.

Lemma parseMembers_one fuel depth m kv c rest :
  member_ok m kv -> c = ch "," \/ c = ch "}" ->
  parseMembers (S (S fuel)) depth (member m ++ c :: rest) =
  if isCh c "," then '(ms, r) ← parseMembers (S fuel) depth rest; Some (kv :: ms, r) else Some ([kv], rest).
Proof.
  intros (Hpl & Hk & Hr) Hc. destruct kv as [k v]. simpl in Hk, Hr. subst k.
  assert (member m ++ c :: rest = quote :: bytes_of_string m.1 ++ quote :: ch ":" :: m.2 ++ c :: rest) as ->.
  { unfold member. rewrite appendString_plain by done. rewrite <- !app_assoc. cbn [app].
    by rewrite <- !app_assoc. }
  remember (S fuel) as f eqn:Hf. cbn [parseMembers skipSpace]. change (isSpace quote) with false. cbv iota.
  change (byteZ quote =? 34) with true. cbv iota. rewrite parseString_plain by done.
  cbn [mbind option_bind skipSpace]. change (isSpace (ch ":")) with false. cbv iota.
  change (isCh (ch ":") ":") with true. cbv iota. subst f. rewrite Hr by done.
  cbn [mbind option_bind]. assert (skipSpace (c :: rest) = c :: rest) as -> by (by destruct Hc; subst).
  by destruct Hc; subst.
Qed.

Lemma parseMembers_tail fuel depth m ms kv kvs rest :
  member_ok m kv -> Forall2 member_ok ms kvs -> (S (length ms) < fuel)%nat ->
  parseMembers fuel depth (member m ++ membersTail ms rest) = Some (kv :: kvs, rest).
Proof.
  intros Hm Hms. revert fuel m kv Hm. induction Hms as [|m' kv' ms kvs Hm' Hms IH];
    intros fuel m kv Hm Hf; (destruct fuel as [|[|fuel]]; [simpl in Hf; lia|simpl in Hf; lia|]); cbn [membersTail].
  - rewrite (parseMembers_one fuel depth m kv) by auto. done.
  - rewrite (parseMembers_one fuel depth m kv) by auto. change (isCh (ch ",") ",") with true. cbv iota.
    rewrite (IH (S fuel) m' kv' Hm') by (simpl in Hf; lia). done.
Qed.

Lemma length_membersTail ms rest : (S (length ms) <= length (membersTail ms rest))%nat.
Proof. induction ms as [|m ms IH]; simpl; [lia|]. rewrite length_app. lia. Qed.

(** An object of at least one member, and a document that is one. *)
Lemma parseValue_object depth m ms kv kvs rest :
  member_ok m kv -> Forall2 member_ok ms kvs ->
  let b := ch "{" :: member m ++ membersTail ms rest in
  parseValue (2 * length b + 2) (S depth) b = Some (JObj (kv :: kvs), rest).
Proof.
  intros Hm Hms. cbv zeta. set (b := member m ++ membersTail ms rest).
  assert (length ms < length b)%nat as Hlen.
  { subst b. rewrite length_app. pose proof (length_membersTail ms rest). lia. }
  replace (2 * length (ch "{" :: b) + 2)%nat with (S (2 * length b + 3))%nat by (cbn [length]; lia).
  assert (exists tl, b = quote :: tl) as [tl Hb].
  { subst b. unfold member. rewrite appendString_plain by apply Hm. by eexists. }
  cbn [parseValue skipSpace]. change (isSpace (ch "{")) with false. cbv iota.
  change (byteZ (ch "{") =? 34) with false. change (isCh (ch "{") "{") with true. cbv iota.
  rewrite Hb at 1. cbn [skipSpace]. change (isSpace quote) with false. cbv iota.
  change (isCh quote "}") with false. cbv iota. subst b.
  by rewrite (parseMembers_tail _ depth m ms kv kvs rest) by (done || lia).
Qed.

Lemma maxNestingDepth_S : exists d, maxNestingDepth = S (S d).
Proof. exists (pred (pred maxNestingDepth)). vm_compute. reflexivity. Qed.

Lemma parseJSON_object m ms kv kvs rest :
  member_ok m kv -> Forall2 member_ok ms kvs -> skipSpace rest = [] ->
  parseJSON (ch "{" :: member m ++ membersTail ms rest) = Some (JObj (kv :: kvs)).
Proof.
  intros Hm Hms Hr. unfold parseJSON. destruct maxNestingDepth_S as [d ->].
  rewrite (parseValue_object (S d) m ms kv kvs rest Hm Hms). cbn [mbind option_bind]. by rewrite bool_decide_eq_true_2.
Qed.

(** ** Configurations *)

(** The members [marshalConfig] writes. *)
Definition configMembers (c : Config) : list (string * list byte) := [
  ("ordering", appendString (bytes_of_string (c_Ordering c)));
  ("priority_enabled", appendBool (c_PriorityEnabled c));
  ("max_attempts", appendInt (c_MaxAttempts c));
  ("default_visibility_timeout_ms", appendInt (c_DefaultVisibilityTimeoutMS c));
  ("aging_interval_ms", appendInt (c_AgingIntervalMS c));
  ("aging_max_boost", appendInt (c_AgingMaxBoost c));
  ("dedup_window_ms", appendInt (c_DedupWindowMS c))] ++
  (if c_NextSeq c =? 0 then [] else [("next_seq", appendInt (c_NextSeq c))]).

Definition configValues (c : Config) : list (list byte * json) := [
  (bytes_of_string "ordering", JStr (bytes_of_string (c_Ordering c)));
  (bytes_of_string "priority_enabled", JBool (c_PriorityEnabled c));
  (bytes_of_string "max_attempts", JNum (appendInt (c_MaxAttempts c)));
  (bytes_of_string "default_visibility_timeout_ms", JNum (appendInt (c_DefaultVisibilityTimeoutMS c)));
  (bytes_of_string "aging_interval_ms", JNum (appendInt (c_AgingIntervalMS c)));
  (bytes_of_string "aging_max_boost", JNum (appendInt (c_AgingMaxBoost c)));
  (bytes_of_string "dedup_window_ms", JNum (appendInt (c_DedupWindowMS c)))] ++
  (if c_NextSeq c =? 0 then [] else [(bytes_of_string "next_seq", JNum (appendInt (c_NextSeq c)))]).

Lemma marshalConfig_members c :
  marshalConfig c = ch "{" :: member ("name", appendString (bytes_of_string (c_Name c))) ++
    membersTail (configMembers c) [].
Proof.
  unfold marshalConfig, configMembers. rewrite !field_eq.
  destruct (c_NextSeq c =? 0); cbn [membersTail app]; by rewrite <- ?app_assoc.
Qed.

Lemma nameByte_safe b : nameByte b = true -> htmlSafe b = true.
Proof. by destruct b. Qed.

Lemma name_plain name : nameRE name = true -> plain (bytes_of_string name).
Proof.
  intros (b & rest & -> & Hb & _ & Hr)%nameRE_spec. constructor.
  - apply nameByte_safe. unfold nameByte. by rewrite Hb.
  - eapply Forall_impl; [exact Hr|]. intros x. apply nameByte_safe.
Qed.

Lemma configMembers_ok c :
  config_ok c -> config_typed c ->
  member_ok ("name", appendString (bytes_of_string (c_Name c))) (bytes_of_string "name", JStr (bytes_of_string (c_Name c))) /\
  Forall2 member_ok (configMembers c) (configValues c).
Proof.
  intros Hok Hty. assert (forall s : string, forallb htmlSafe (bytes_of_string s) = true -> plain (bytes_of_string s)) as Hkey
    by (intros s Hs; apply List.Forall_forall; by apply forallb_forall).
  assert (forall (s : string) v val, forallb htmlSafe (bytes_of_string s) = true -> reads v val ->
    member_ok (s, v) (bytes_of_string s, val)) as Hmem by (intros; split_and!; simpl; auto).
  split; [apply Hmem; [done|]; apply reads_string, name_plain, Hok|].
  assert (plain (bytes_of_string (c_Ordering c))) as Hord by (apply Hkey; by destruct (ok_ordering _ Hok) as [-> | ->]).
  destruct Hty as [T1 T2 T3 T4 T5 T6].
  unfold configMembers, configValues. apply Forall2_app.
  - repeat (apply Forall2_cons; split); try apply Forall2_nil; auto; apply Hmem; try done;
      auto using reads_string, reads_bool, reads_int.
  - destruct (c_NextSeq c =? 0); [constructor|]. apply Forall2_cons. split; [|constructor].
    apply Hmem; [done|]. auto using reads_int.
Qed.

(** The members of a configuration, by name. *)
Lemma storeMember_field k store v c :
  find (fun f => bool_decide (foldName (bytes_of_string (fst f)) = foldName (bytes_of_string k))) configFields =
    Some (k, store) ->
  storeMember (bytes_of_string k) v c = store v c.
Proof. intros H. unfold storeMember. by rewrite H. Qed.

Lemma storeString_ok s set c : storeString (JStr (bytes_of_string s)) set c = (set s c, None).
Proof. simpl. by rewrite string_of_bytes_of_string. Qed.

Lemma storeInt_ok z set c : in_int64 z -> storeNum ParseInt (JNum (appendInt z)) set c = (set z c, None).
Proof. intros H. unfold storeNum. by rewrite ParseInt_appendInt. Qed.

Lemma storeUint_ok z set c : in_uint 64 z -> storeNum ParseUint (JNum (appendInt z)) set c = (set z c, None).
Proof. intros H. unfold storeNum. by rewrite ParseUint_appendInt. Qed.

Lemma storeMembers_cons k v ms c c' :
  storeMember k v c = (c', None) -> storeMembers ((k, v) :: ms) c = storeMembers ms c'.
Proof. intros H. cbn [storeMembers]. rewrite H. by destruct (storeMembers ms c'). Qed.

Ltac store_field ok :=
  erewrite storeMembers_cons; [|erewrite storeMember_field by reflexivity; cbv beta; by apply ok].

(** Storing the values one after the other rebuilds the configuration. *)
Lemma storeMembers_config c :
  config_typed c ->
  storeMembers ((bytes_of_string "name", JStr (bytes_of_string (c_Name c))) :: configValues c) zeroConfig = (c, None).
Proof.
  intros [T1 T2 T3 T4 T5 T6]. unfold configValues. cbn [app].
  assert (forall set c0 b, storeBool (JBool b) set c0 = (set b c0, None)) as storeBool_ok by done.
  store_field storeString_ok. store_field storeString_ok. store_field storeBool_ok.
  store_field storeInt_ok. store_field storeInt_ok. store_field storeInt_ok. store_field storeInt_ok.
  store_field storeInt_ok.
  destruct (Z.eqb_spec (c_NextSeq c) 0) as [Hn|Hn].
  - destruct c; simpl in *; by subst.
  - store_field storeUint_ok. by destruct c.
Qed.

(** [META] of a configuration, read back: every field. *)
Lemma unmarshal_marshalConfig c :
  config_ok c -> config_typed c -> unmarshalConfig (marshalConfig c) = (c, None).
Proof.
  intros Hok Hty. unfold unmarshalConfig. destruct (configMembers_ok c Hok Hty) as [Hname Hrest].
  rewrite marshalConfig_members, (parseJSON_object _ _ _ _ [] Hname Hrest eq_refl). by apply storeMembers_config.
Qed.

(** ** Its size *)

Lemma length_digits fuel n : (length (digits fuel n) <= fuel)%nat.
Proof.
  revert n. induction fuel as [|fuel IH]; intros n; [done|]. cbn [digits]. rewrite length_app.
  destruct (n <? 10); [simpl; lia|]. specialize (IH (n / 10)). simpl. lia.
Qed.

Lemma length_appendInt z : (length (appendInt z) <= 21)%nat.
Proof.
  unfold appendInt. destruct (z <? 0); cbn [length]; [pose proof (length_digits 20 (- z))|pose proof (length_digits 20 z)]; lia.
Qed.

Lemma length_appendString s : plain s -> length (appendString s) = (length s + 2)%nat.
Proof. intros H. rewrite appendString_plain by done. cbn [length]. rewrite length_app. simpl. lia. Qed.

Lemma length_field first k v :
  forallb htmlSafe (bytes_of_string k) = true ->
  (length (field first k v) <= length (bytes_of_string k) + length v + 4)%nat.
Proof.
  intros H. unfold field. rewrite !length_app, length_appendString
    by (apply List.Forall_forall; by apply forallb_forall).
  destruct first; simpl; lia.
Qed.

Lemma length_marshalConfig c :
  config_ok c -> Z.of_nat (length (marshalConfig c)) <= 1024.
Proof.
  intros Hok. assert (length (appendString (bytes_of_string (c_Name c))) <= 66)%nat as Hname.
  { rewrite length_appendString by apply name_plain, Hok.
    destruct (nameRE_spec _ (ok_name _ Hok)) as (b & rest & -> & _ & Hl & _). simpl. lia. }
  assert (length (appendString (bytes_of_string (c_Ordering c))) <= 6)%nat as Hord
    by (by destruct (ok_ordering _ Hok) as [-> | ->]; apply Nat.leb_le).
  assert (length (appendBool (c_PriorityEnabled c)) <= 5)%nat as Hpri
    by (by destruct (c_PriorityEnabled c); apply Nat.leb_le).
  assert (forall first k v n m, forallb htmlSafe (bytes_of_string k) = true -> (length v <= n)%nat ->
    (length (bytes_of_string k) + n + 4 <= m)%nat -> (length (field first k v) <= m)%nat) as Hfield.
  { intros first k v n m Hk Hv Hm. pose proof (length_field first k v Hk). lia. }
  assert (forall first k z m, forallb htmlSafe (bytes_of_string k) = true ->
    (length (bytes_of_string k) + 21 + 4 <= m)%nat -> (length (field first k (appendInt z)) <= m)%nat) as Hint.
  { intros first k z m Hk Hm. eapply Hfield; [done|apply length_appendInt|done]. }
  unfold marshalConfig. rewrite !length_app.
  pose proof (Hfield true "name" _ 66%nat 100%nat eq_refl Hname ltac:(by apply Nat.leb_le)).
  pose proof (Hfield false "ordering" _ 6%nat 100%nat eq_refl Hord ltac:(by apply Nat.leb_le)).
  pose proof (Hfield false "priority_enabled" _ 5%nat 100%nat eq_refl Hpri ltac:(by apply Nat.leb_le)).
  pose proof (Hint false "max_attempts" (c_MaxAttempts c) 100%nat eq_refl ltac:(by apply Nat.leb_le)).
  pose proof (Hint false "default_visibility_timeout_ms" (c_DefaultVisibilityTimeoutMS c) 100%nat eq_refl ltac:(by apply Nat.leb_le)).
  pose proof (Hint false "aging_interval_ms" (c_AgingIntervalMS c) 100%nat eq_refl ltac:(by apply Nat.leb_le)).
  pose proof (Hint false "aging_max_boost" (c_AgingMaxBoost c) 100%nat eq_refl ltac:(by apply Nat.leb_le)).
  pose proof (Hint false "dedup_window_ms" (c_DedupWindowMS c) 100%nat eq_refl ltac:(by apply Nat.leb_le)).
  pose proof (Hint false "next_seq" (c_NextSeq c) 100%nat eq_refl ltac:(by apply Nat.leb_le)).
  destruct (c_NextSeq c =? 0); cbn [length]; lia.
Qed.

#[export] Instance jsonCodec_laws : ConfigCodecLaws.
Proof.
  split.
  - intros c _ _. by eexists.
  - intros c b Hok Hty [= <-]. split.
    + simpl. by rewrite unmarshal_marshalConfig.
    + pose proof (length_marshalConfig c Hok). change MaxRecordSize with (64 * 2 ^ 20). lia.
Qed.

(** C36: [META] round trip: the JSON [encodeConfig] writes for any configuration [Validate] has accepted (its fields any values of their Go types) is a valid JSON document of at most 1024 bytes that [decodeConfig] reads back to the same configuration, field by field, and that passes [Validate] again unchanged. *)
Theorem META_roundtrip (c0 c : Config) (b : list byte) :
  config_typed c0 -> Validate c0 = (c, None) -> encodeConfig c = inl b ->
  decodeConfig b = inl c /\ Validate c = (c, None) /\ Valid b = true /\ Z.of_nat (length b) <= 1024.
Proof.
  intros Hty Hv [= <-]. pose proof (Validate_sound _ _ Hv) as Hok.
  pose proof (Validate_typed _ _ Hv Hty) as [Hty' _]. split_and!.
  - simpl. by rewrite unmarshal_marshalConfig.
  - by apply Validate_ok.
  - destruct (configMembers_ok c Hok Hty') as [Hname Hrest]. unfold Valid.
    by rewrite marshalConfig_members, (parseJSON_object _ _ _ _ [] Hname Hrest eq_refl).
  - by apply length_marshalConfig.
Qed.

Lemma META_roundtrip_witness :
  let c := (Validate (mkConfig "jobs" "" true 0 0 1000 0 0 7)).1 in
  c_AgingMaxBoost c = 10 /\ decodeConfig (marshalConfig c) = inl c /\ Valid (marshalConfig c) = true.
Proof.
  intros c. split; [reflexivity|].
  destruct (META_roundtrip (mkConfig "jobs" "" true 0 0 1000 0 0 7) c (marshalConfig c)) as (H1 & _ & H2 & _).
  - split; vm_compute; (split; congruence) || congruence.
  - reflexivity.
  - reflexivity.
  - split; [exact H1|exact H2].
Defined.
