(* ===== verification/Sample.v ===== *)
(** * A sample run

    A queue created with the JSON codec, two messages enqueued, the first written
    to disk and leased: the concrete states the theorems about reachable queues
    are instantiated with. *)

From Stdlib Require Import ZArith Lia.
From S2P Require Import Prelude GoInt Errors WalRecord Replay Message Heaps Codec Index QueueSpec Log LogInv LogProps.
From S2P Require Import Queue Load QueueInv QueueOps QueueTick Compact CompactProps Recovery Json JsonProps.

(** ** The states *)

Definition ex_cfg : Config := mkConfig "jobs" "" true 2 0 0 0 0 0.
Definition ex_t0 : Time := 1700000000 * Second.
Definition ex_path : string := "data/jobs/wal.log".

Definition ex_create : option (Disk * ((Index * Log * Z) + Err)) :=
  Create ex_path ex_cfg (Some (EIO "no such file")) (OpenOk (plainFile [])) noIO (mkDisk [] []).
Definition ex_created_ix : Index :=
  match ex_create with Some (_, inl (ix, _, _)) => ix | _ => newIndex end.
Definition ex_created_log : Log :=
  match ex_create with Some (_, inl (_, l, _)) => l | _ => newLog 0 (mkDisk [] []) end.

(** The flusher's turn: woken, takes the batch, writes it. *)
Definition ex_flush (l : Log) : Log :=
  let l := default l (flusher_select false l) in
  let l := default l (flushOnce_take l) in
  default l (flushOnce_finish WSynced 100 l).

Definition ex_q0 : Queue := startQueue ex_path ex_created_ix (ex_flush ex_created_log) ex_t0.

Definition ex_id (n : Z) : list byte := repeat (Zbyte 0) 7 ++ [Zbyte n].
Definition ex_q1 : Queue :=
  match Enqueue (ex_t0 + 1) (ex_id 1) (bytes_of_string "a") 0 0 "d1" ex_q0 with Some (q, _) => q | None => ex_q0 end.
Definition ex_q2 : Queue := with_log (ex_flush (q_log ex_q1)) ex_q1.
Definition ex_q3 : Queue :=
  match Enqueue (ex_t0 + 2) (ex_id 2) (bytes_of_string "b") 5 0 "" ex_q2 with Some (q, _) => q | None => ex_q2 end.
Definition ex_q4 : Queue :=
  match Dequeue (ex_t0 + 3) 1 0 ex_q3 with Some (q, _) => q | None => ex_q3 end.

(** ** They are reachable *)

Lemma ex_flush_background l :
  lg_nextSeq l + 1 < 2 ^ 64 ->
  rtc log_background l (ex_flush l).
Proof.
  intros Hlt. unfold ex_flush.
  assert (rtc log_background l (default l (flusher_select false l)) /\
    lg_nextSeq (default l (flusher_select false l)) = lg_nextSeq l) as [H1 Hn].
  { destruct (flusher_select false l) as [l'|] eqn:E; simpl; [|done].
    split; [by eapply rtc_once, bg_select|]. unfold flusher_select in E. repeat case_match; by simplify_eq/=. }
  set (l1 := default l (flusher_select false l)) in *.
  assert (rtc log_background l (default l1 (flushOnce_take l1))) as H2.
  { etransitivity; [exact H1|]. destruct (flushOnce_take l1) as [l2|] eqn:E; simpl; [|done].
    apply rtc_once, bg_take; [lia|done]. }
  set (l2 := default l1 (flushOnce_take l1)) in *.
  etransitivity; [exact H2|]. destruct (flushOnce_finish WSynced 100 l2) as [l3|] eqn:E; simpl; [|done].
  by eapply rtc_once, bg_finish.
Qed.

Lemma ex_q0_created : created ex_q0.
Proof.
  exists ex_path, ex_cfg, (Some (EIO "no such file")), (OpenOk (plainFile [])), noIO, (mkDisk [] []).
  exists (mkDisk [] []), ex_created_ix, ex_created_log, (ex_flush ex_created_log), 1, ex_t0.
  split_and!; [split; vm_compute; (split; congruence) || congruence|vm_compute; congruence|vm_compute; reflexivity|vm_compute; reflexivity| |
    vm_compute; reflexivity|reflexivity].
  apply ex_flush_background. vm_compute. reflexivity.
Qed.

Lemma ex_q0_reachable : queue_reachable ex_q0.
Proof. apply qr_create, ex_q0_created. Qed.

Lemma queue_run_background q l :
  rtc log_background (q_log q) l ->
  exists ops, queue_run ops q (with_log l q) /\ Forall (fun op => exists l', op = OpLog l') ops.
Proof.
  intros Hl. remember (q_log q) as l0 eqn:E. revert q E.
  induction Hl as [l|l0 l1 l Hs _ IH]; intros q ->.
  - exists []. split; [destruct q; constructor|constructor].
  - destruct (IH (with_log l1 q) eq_refl) as (ops & Hr & Ho). exists (OpLog l1 :: ops).
    split; [|constructor; eauto]. eapply run_cons; [by apply qs_log|exact Hr].
Qed.

Lemma queue_reachable_background q l :
  queue_reachable q -> rtc log_background (q_log q) l -> queue_reachable (with_log l q).
Proof. intros Hq (ops & Hr & _)%queue_run_background. by eapply queue_reachable_run. Qed.

Lemma reachable_by_background T q l : reachable_by T q -> rtc log_background (q_log q) l -> reachable_by T (with_log l q).
Proof.
  intros Hq (ops & Hr & Ho)%queue_run_background. revert Hq Ho.
  induction Hr as [q1|op ops q1 q2 q3 Hs _ IH]; [done|]; intros Hq [[l' ->] Ho]%Forall_cons.
  apply IH; [|done]. by eapply rb_step.
Qed.

(** [enqueue_ok] at a concrete input. *)
Lemma unused_compute (dedup : gmap string dedupEntry) id :
  forallb (fun p => negb (bool_decide (e_MessageID p.2 = id))) (map_to_list dedup) = true ->
  forall d e, dedup !! d = Some e -> e_MessageID e <> id.
Proof.
  intros Hf d e Hd%elem_of_map_to_list. apply list_elem_of_In in Hd.
  pose proof (proj1 (forallb_forall _ _) Hf _ Hd) as Hn. by apply negb_true_iff, bool_decide_eq_false in Hn.
Qed.

Ltac enqueue_ok_compute :=
  split; try (vm_compute; reflexivity); try (apply unused_compute; vm_compute; reflexivity);
  vm_compute; intuition congruence.

Lemma ex_enqueue1_ok : enqueue_ok (ex_t0 + 1) (ex_id 1) (bytes_of_string "a") 0 0 "d1" ex_q0.
Proof. enqueue_ok_compute. Qed.
Lemma ex_enqueue2_ok : enqueue_ok (ex_t0 + 2) (ex_id 2) (bytes_of_string "b") 5 0 "" ex_q2.
Proof. enqueue_ok_compute. Qed.

Lemma ex_q1_step : queue_step (OpEnqueue (ex_t0 + 1) (ex_id 1) (bytes_of_string "a") 0 0 "d1") ex_q0 ex_q1.
Proof.
  unfold ex_q1.
  destruct (Enqueue _ _ _ _ _ _ _) as [[q ph]|] eqn:E; [|vm_compute in E; discriminate].
  eapply qs_Enqueue; [apply ex_enqueue1_ok|exact E].
Qed.

Lemma ex_q1_reachable : queue_reachable ex_q1.
Proof. eapply qr_step; [apply ex_q0_reachable|apply ex_q1_step]. Qed.

Lemma ex_q2_reachable_by : reachable_by (ex_t0 + 1) ex_q2.
Proof.
  apply reachable_by_background; [|apply ex_flush_background; vm_compute; reflexivity].
  eapply rb_step; [apply rb_create, ex_q0_created|apply ex_q1_step|vm_compute; discriminate].
Qed.

Lemma ex_q2_reachable : queue_reachable ex_q2.
Proof. eapply reachable_by_reachable, ex_q2_reachable_by. Qed.

Lemma ex_q3_step : queue_step (OpEnqueue (ex_t0 + 2) (ex_id 2) (bytes_of_string "b") 5 0 "") ex_q2 ex_q3.
Proof.
  unfold ex_q3.
  destruct (Enqueue _ _ _ _ _ _ _) as [[q ph]|] eqn:E; [|vm_compute in E; discriminate].
  eapply qs_Enqueue; [apply ex_enqueue2_ok|exact E].
Qed.

Lemma ex_q3_reachable : queue_reachable ex_q3.
Proof. eapply qr_step; [apply ex_q2_reachable|apply ex_q3_step]. Qed.

Lemma ex_q4_step : queue_step (OpDequeue (ex_t0 + 3) 1 0) ex_q3 ex_q4.
Proof.
  unfold ex_q4.
  destruct (Dequeue _ _ _ _) as [[q r]|] eqn:E; [|vm_compute in E; discriminate].
  eapply qs_Dequeue. exact E.
Qed.

Lemma ex_q4_reachable_by : reachable_by (ex_t0 + 2) ex_q4.
Proof.
  eapply rb_step; [|apply ex_q4_step|exact I]. eapply rb_step; [|apply ex_q3_step|vm_compute; discriminate].
  eapply reachable_by_later; [|apply ex_q2_reachable_by]. vm_compute. discriminate.
Qed.

Lemma ex_q4_reachable : queue_reachable ex_q4.
Proof. eapply reachable_by_reachable, ex_q4_reachable_by. Qed.

(** The leased message acknowledged, and the acknowledgement written. *)
Definition ex_q5 : Queue :=
  match Ack (newID (ex_id 2)) ex_q4 with Some (q, _) => q | None => ex_q4 end.
Definition ex_q6 : Queue := with_log (ex_flush (q_log ex_q5)) ex_q5.
