(* ===== verification/Timer.v ===== *)
(** * The timer goroutine ([Queue.run], [internal/queue/queue.go])

    The loop of [run] between two of its critical sections, and its interleaving
    with the calls of the queue's clients: which of them still owe the goroutine a
    wake-up, and when the timer it waits on fires. *)

From Stdlib Require Import ZArith Lia.
From S2P Require Import Prelude GoInt Errors Message Heaps Codec Index QueueSpec Log Queue Load QueueInv.
From S2P Require Import Compact CompactProps Json Recovery.

(** Where the goroutine is; [set] is when the timer was last set, [fires] for when. *)
Inductive TimerAt :=
  | TmTick                                 (* about to call [tick] *)
  | TmDurable (tk : Ticked)                (* [tick] has unlocked; [waitDurable] is next *)
  | TmCompact (tk : Ticked)
  | TmReset (next : Time)                  (* [tick] has returned [next] *)
  | TmSelect (set fires : Time)
  | TmReturned.

(** What a step is given: the case of the [select], and the arguments of [Compact]. *)
Inductive Selected := Woken_ | Fired | Done_.
Record TimerIn := mkTimerIn {
  ti_selected : Selected;
  ti_syncErr : option Err;
  ti_liveOrder : list string;
  ti_dedupOrder : list string;
  ti_io : CompactIO;
}.

(** One step at [now]; [None] if it cannot be taken. *)
Definition run_step (i : TimerIn) (now : Time) (w : TimerAt) (q : Queue) : option (Queue * TimerAt) :=
  match w with
  | TmTick => '(q, tk) ← tick now q; Some (q, TmDurable tk)
  | TmDurable tk =>
    if tk_maxBatch tk >? 0 then err ← Wait (tk_maxBatch tk) (q_log q); Some ((waitDurable err q).1, TmCompact tk)
    else Some (q, TmCompact tk)
  | TmCompact tk =>
    if tk_shouldCompact tk then
      '(q, _) ← Compact (ti_syncErr i) now (ti_liveOrder i) (ti_dedupOrder i) (ti_io i) q; Some (q, TmReset (tk_next tk))
    else Some (q, TmReset (tk_next tk))
  | TmReset next => Some (q, TmSelect now (Add now (timerDelay now next)))
  | TmSelect set fires =>
    match ti_selected i with
    | Woken_ => if q_wake q then Some (with_wake false q, TmTick) else None
    | Fired => if Before now fires then None else Some (q, TmTick)
    | Done_ => if q_closed q then Some (q, TmReturned) else None
    end
  | TmReturned => None
  end.

(** A queue, its goroutine, the calls of [Enqueue] and [Nack] between their first
    critical section and their [signal], and the clock. *)
Record Life := mkLife { lf_q : Queue; lf_at : TimerAt; lf_owed : nat; lf_now : Time }.

(** The steps of clients and of the log that owe nothing. *)
Definition owes_nothing (op : QueueOp) : Prop :=
  match op with
  | OpAck _ | OpCompact _ _ _ _ _ | OpWait _ _ | OpSetCompactThreshold _ | OpClose | OpLog _ => True
  | _ => False
  end.

(** What is owed after a first critical section. *)
Definition owed {R} (ph : Phase R) (n : nat) : nat := match ph with AwaitDurable _ _ => S n | Return _ => n end.

(** The goroutine is about to compact the log. *)
Definition compacts (w : TimerAt) : bool := match w with TmCompact tk => tk_shouldCompact tk | _ => false end.

Inductive life_step : Life -> Life -> Prop :=
  | ls_clock q w n now now' : now <= now' -> in_int64 now' -> life_step (mkLife q w n now) (mkLife q w n now')
  | ls_Enqueue rand8 payload priority delay dedupID q q' ph w n now :
      enqueue_ok now rand8 payload priority delay dedupID q ->
      Enqueue now rand8 payload priority delay dedupID q = Some (q', ph) ->
      life_step (mkLife q w n now) (mkLife q' w (owed ph n) now)
  | ls_Nack id q q' ph w n now :
      Nack now id q = Some (q', ph) -> life_step (mkLife q w n now) (mkLife q' w (owed ph n) now)
  | ls_signal q w n now : life_step (mkLife q w (S n) now) (mkLife (signal q) w n now)
  | ls_failed b err q w n now :
      Wait b (q_log q) = Some (Some err) ->
      life_step (mkLife q w (S n) now) (mkLife (waitDurable (Some err) q).1 w n now)
  | ls_Dequeue max visibility q q' r w n now :
      in_int64 visibility -> Dequeue now max visibility q = Some (q', r) ->
      life_step (mkLife q w n now) (mkLife q' w n now)
  | ls_other op q q' w n now :
      owes_nothing op -> queue_step op q q' -> life_step (mkLife q w n now) (mkLife q' w n now)
  | ls_run i q q' w w' n now :
      (compacts w = true -> map_orders (ti_liveOrder i) (ti_dedupOrder i) q /\
        (checkLocked q = None -> (Sync_turn (q_log q)).2 = Some (ti_syncErr i))) ->
      run_step i now w q = Some (q', w') -> life_step (mkLife q w n now) (mkLife q' w' n now).

(** When [run] starts, from [Create] or [Load]: nothing is leased yet. *)
Definition starts (q : Queue) (now : Time) (y : Life) : Prop :=
  queue_reachable q /\ (forall id m, sp_msgs (abs (q_ix q)) !! id = Some m -> m_state m <> stateInFlight) /\ in_int64 now /\
  y = mkLife q TmTick 0 now.
