(* ===== verification/QueueTrace.v ===== *)
(** * What a queue's steps leave in its log

    Every step appends: the history grows at its end, by records the step stands
    for, and what is on disk stays there.  With [represents] this carries facts
    about histories over to the states of a running or a restarted queue. *)

From Stdlib Require Import ZArith Lia.
From S2P Require Import Prelude GoInt Errors WalRecord Replay GoHeap Message Heaps Codec Index QueueSpec.
From S2P Require Import IndexInv IndexRefine Durable Log LogInv LogProps Queue Load QueueInv QueueOps QueueTick Recovery.
From S2P Require Import Compact Snapshot SnapshotProps CompactProps.

(** ** The log grows *)

(** [q'] has [ext] appended to the history of [q], and nothing new on disk. *)
Record grows (q q' : Queue) (ext : list (Z * Entry)) : Prop := {
  gr_hist : lg_hist (q_log q') = lg_hist (q_log q) ++ ext;
  gr_base : lg_base (q_log q') = lg_base (q_log q);
  gr_disk : lg_disk (q_log q') = lg_disk (q_log q);
}.

Lemma grows_same q q' : q_log q' = q_log q -> grows q q' [].
Proof. intros E. split; rewrite E; by rewrite ?app_nil_r. Qed.

Lemma grows_trans q1 q2 q3 e1 e2 : grows q1 q2 e1 -> grows q2 q3 e2 -> grows q1 q3 (e1 ++ e2).
Proof.
  intros [H1 H2 H3] [H4 H5 H6]. split; [by rewrite H4, H1, app_assoc|congruence|congruence].
Qed.

Lemma grows_with q q1 q2 ext : grows q q1 ext -> q_log q2 = q_log q1 -> grows q q2 ext.
Proof. intros [H1 H2 H3] E. split; by rewrite E. Qed.

Lemma logAppend_grows t p q q' b :
  logAppend t p q = (q', inl b) -> grows q q' [(b, (t, p))] /\ q_ix q' = q_ix q.
Proof.
  unfold logAppend, Append. destruct (lg_fatal (q_log q)); [done|]. destruct (lg_closed (q_log q)); [done|].
  by intros [= <- <-].
Qed.

Lemma logAppend_fails t p q q' e : logAppend t p q = (q', inr e) -> grows q q' [] /\ q_ix q' = q_ix q.
Proof.
  unfold logAppend, Append. destruct (lg_fatal (q_log q)); [|destruct (lg_closed (q_log q))]; intros [= <- <-];
    (split; [by apply grows_same|done]).
Qed.

Lemma logged_grows t p b q q' : logged t p b q q' -> grows q q' [(b, (t, p))].
Proof.
  intros (-> & HA & _). unfold Append in HA. destruct (lg_fatal _); [done|]. destruct (lg_closed _); [done|].
  injection HA as HA. split; by rewrite <- HA.
Qed.

(** Only lease expiries are logged by a tick. *)
Lemma expire_loop_grows fuel now mb q q' mb' :
  expire_loop fuel now mb q = Some (q', mb') ->
  exists ext, grows q q' ext /\ Forall (fun e => e.2.1 = TypeLeaseExpire) ext.
Proof.
  revert mb q. induction fuel as [|fuel IH]; intros mb q E; [done|]. cbn [expire_loop] in E.
  destruct (ix_inflight (q_ix q)) as [|l rest]; [exists []; simplify_eq; split; [by apply grows_same|done]|].
  apply bind_Some in E as (m & _ & E).
  destruct (After (m_deadline m) now); [exists []; simplify_eq; split; [by apply grows_same|done]|].
  destruct (logAppend _ _ q) as [q1 [b|err]] eqn:HA.
  - apply logAppend_grows in HA as [HA _]. apply bind_Some in E as ([ix [dead err]] & _ & E).
    assert (forall q2, q_log q2 = q_log q1 -> grows q q2 [(b, (TypeLeaseExpire, bytes_of_string (m_ID m)))]) as Hq2
      by (intros q2 E2; by apply (grows_with q q1)).
    destruct err as [err|].
    + injection E as <- _. eexists. split; [by apply Hq2|by apply Forall_singleton].
    + apply IH in E as (ext & Hg & Hext). eexists. split; [eapply grows_trans; [|exact Hg]|].
      * apply Hq2. by case_match.
      * by apply Forall_cons.
  - apply logAppend_fails in HA as [HA _]. injection E as <- _. exists [].
    split; [|done]. by apply (grows_with q q1).
Qed.

Lemma tick_grows now q q' tk :
  tick now q = Some (q', tk) -> exists ext, grows q q' ext /\ Forall (fun e => e.2.1 = TypeLeaseExpire) ext.
Proof.
  unfold tick. destruct (_ || _).
  { intros [= <- <-]. exists []. split; [by apply grows_same|done]. }
  intros (ix & _ & E)%bind_Some. apply bind_Some in E as ([q2 mb] & E2 & E).
  apply bind_Some in E as (q3 & E3 & E). apply bind_Some in E as (next & _ & [= <- _]).
  apply expire_loop_grows in E2 as (ext & Hg & Hext). exists ext. split; [|done].
  apply (grows_with q q2); [by destruct Hg as [? ? ?]|]. transitivity (q_log q3); [unfold purgeDedup; by case_match|].
  unfold agePriorities in E3. destruct (_ || _); [by simplify_eq|].
  apply bind_Some in E3 as (ix3 & _ & [= <-]). done.
Qed.

(** ** Every step *)

Section Trace.
Context `{ConfigCodec}.

(** Records of acknowledgements and of messages come from [Ack] and [Enqueue]. *)
Definition entry_of (op : QueueOp) (e : Entry) : Prop :=
  (e.1 = TypeAck -> op = OpAck (string_of_bytes e.2)) /\
  (e.1 = TypeEnqueue -> exists now rand8 payload priority delay dedupID m,
     op = OpEnqueue now rand8 payload priority delay dedupID /\ decodeMessage e.2 = inl m /\ m_ID m = newID rand8).

(** A step that appends [ext] and leaves what is on disk there. *)
Record step_log (op : QueueOp) (q q' : Queue) (ext : list (Z * Entry)) : Prop := {
  sl_hist : lg_hist (q_log q') = lg_hist (q_log q) ++ ext;
  sl_base : lg_base (q_log q') = lg_base (q_log q);
  sl_disk : d_synced (lg_disk (q_log q)) `prefix_of` d_synced (lg_disk (q_log q'));
  sl_entries : Forall (entry_of op) ext.*2;
}.

Lemma grows_step_log op q q' ext : grows q q' ext -> Forall (entry_of op) ext.*2 -> step_log op q q' ext.
Proof using. intros [Hh Hb Hd] Ha. split; [done..|by rewrite Hd|done]. Qed.

Lemma entry_of_other op t p : t <> TypeAck -> t <> TypeEnqueue -> entry_of op (t, p).
Proof using. by split. Qed.

Lemma same_step_log op q q' : q_log q' = q_log q -> step_log op q q' [].
Proof using. intros E. apply grows_step_log; [by apply grows_same|constructor]. Qed.

Lemma log_background_disk l l' :
  log_background l l' -> d_synced (lg_disk l) `prefix_of` d_synced (lg_disk l').
Proof using.
  destruct 1 as [l|final l l' E|l l' _ E|w el l l' E|l|l _].
  - unfold Sync_turn, kick. by repeat case_match.
  - unfold flusher_select in E. by repeat case_match; simplify_eq/=.
  - unfold flushOnce_take in E. by repeat case_match; simplify_eq/=.
  - unfold flushOnce_finish in E. destruct (lg_flusher l); try done.
    destruct (writeSync _ w (lg_disk l)) as [d [e|]] eqn:W; injection E as <-; simpl;
      destruct w; simplify_eq/=; try done. unfold disk_bytes. rewrite <- !app_assoc. by eexists.
  - unfold Close_mark. by case_match.
  - done.
Qed.

(** A step appends to the log, or is a compaction. *)
Lemma queue_step_log base T op q q' :
  QInv base T q -> queue_step op q q' ->
  (exists ext, step_log op q q' ext) \/
  exists now syncErr ids1 ids2 io r, op = OpCompact now syncErr ids1 ids2 io /\
    (checkLocked q = None -> (Sync_turn (q_log q)).2 = Some syncErr) /\ compacted now syncErr io q q' r.
Proof using.
  intros HQ Hs. destruct Hs as [now rand8 payload priority delay dedupID q q' ph Hok E|now max vis q q' r E|
    id q q' ph E|now id q q' ph Hnow E|now q q' tk Hnow E|now syncErr ids1 ids2 io q q' r Ho HS E|
    b err q Hw|q|n q|q|l' q Hb]; [left..|right|left|left|left|left|left].
  - destruct (Enqueue_correct base T _ _ _ _ _ _ q HQ Hok) as (q1 & ph1 & E' & _ & Hout).
    assert (q1 = q' /\ ph1 = ph) as [-> ->] by by simplify_eq.
    destruct Hout as [| | |q' batch _ _ Hl _]; [exists []; by apply same_step_log..|].
    eexists. apply grows_step_log; [by apply logged_grows|]. apply Forall_singleton. split; [done|]. intros _.
    pose proof (decode_newMessage _ _ _ _ _ _ _ Hok) as Hdec. eexists _, _, _, _, _, _, _.
    split_and!; [done|exact Hdec|done].
  - destruct (Dequeue_correct base T now max vis q HQ) as (q1 & ? & ? & E' & _ & El & _).
    exists []. apply same_step_log. by simplify_eq.
  - destruct (Ack_correct base T id q HQ) as (q1 & ph1 & E' & _ & Hout).
    assert (q1 = q' /\ ph1 = ph) as [-> ->] by by simplify_eq.
    destruct Hout as [| | | |st q' batch _ _ _ Hl _]; [exists []; by apply same_step_log..|].
    eexists. apply grows_step_log; [by apply logged_grows|]. apply Forall_singleton. split; [|done]. intros _.
    simpl. by rewrite string_of_bytes_of_string.
  - destruct (Nack_correct base T now id q HQ Hnow) as (q1 & ph1 & E' & _ & Hout).
    assert (q1 = q' /\ ph1 = ph) as [-> ->] by by simplify_eq.
    destruct Hout as [| | | |m q' batch _ _ _ Hl _]; [exists []; by apply same_step_log..|].
    eexists. apply grows_step_log; [by apply logged_grows|]. by apply Forall_singleton, entry_of_other.
  - destruct (tick_grows now q q' tk E) as (ext & Hg & Hext). exists ext. apply grows_step_log; [done|].
    apply Forall_fmap. eapply Forall_impl; [exact Hext|]. intros [b [t p]] Hx. simpl in Hx. subst t. by apply entry_of_other.
  - destruct (QInv_keyed _ _ _ HQ) as [HK _].
    destruct (Compact_cases now syncErr ids1 ids2 io q (qi_index _ _ _ HQ) HK Ho) as (q1 & r1 & E' & Hcp).
    assert (q1 = q' /\ r1 = r) as [-> ->] by by simplify_eq. eauto 10.
  - exists []. apply same_step_log. unfold waitDurable. by repeat case_match.
  - exists []. by apply same_step_log.
  - exists []. by apply same_step_log.
  - exists []. by apply same_step_log.
  - destruct (log_background_hist _ _ Hb) as [Eh Eb]. exists []. split; simpl.
    + by rewrite app_nil_r.
    + done.
    + by apply log_background_disk.
    + constructor.
Qed.

(** ** A message through a history *)

(** What no record changes of a message. *)
Definition same_content (k k' : CoreMsg) : Prop :=
  k_DedupID k' = k_DedupID k /\ k_Seq k' = k_Seq k /\ k_Priority k' = k_Priority k /\
  k_Payload k' = k_Payload k /\ k_CreatedAt k' = k_CreatedAt k.

(** A message stays until it is acknowledged. *)
Lemma core_apply_keeps id e c c' k :
  core_apply decodeConfig e c = inl c' -> k_msgs c !! id = Some k -> e <> (TypeAck, bytes_of_string id) ->
  exists k', k_msgs c' !! id = Some k' /\ same_content k k'.
Proof using.
  intros E Hk He. unfold core_apply in E. destruct e as [t p].
  assert (same_content k k) as Hrefl by by split_and!.
  repeat case_decide; try done.
  - destruct (decodeConfig p); [|done]. destruct (Validate _) as [? [?|]]; simplify_eq/=. eauto.
  - destruct (decodeMessage p) as [m|]; [|done]. unfold core_enqueue in E.
    destruct (k_msgs c !! m_ID m) eqn:Hm; simplify_eq/=. exists k. split; [|done].
    rewrite lookup_insert_ne; [done|congruence].
  - case_match; simplify_eq/=. exists k. split; [|done]. rewrite lookup_delete_ne; [done|].
    intros <-. apply He. by rewrite bytes_of_string_of_bytes.
  - case_match eqn:Hx; simplify_eq/=. destruct (decide (id = string_of_bytes p)) as [->|].
    + rewrite lookup_insert_eq. eexists. split; [done|]. rewrite Hk in Hx. injection Hx as ->. by split_and!.
    + rewrite lookup_insert_ne by done. eauto.
  - destruct (decodeDedup p); simplify_eq/=. eauto.
Qed.

(** A message that is gone stays gone, but for a new one with its id. *)
Definition enqueues (id : string) (e : Entry) : Prop :=
  e.1 = TypeEnqueue /\ exists m, decodeMessage e.2 = inl m /\ m_ID m = id.

Lemma core_apply_absent id e c c' :
  core_apply decodeConfig e c = inl c' -> k_msgs c !! id = None -> ~ enqueues id e -> k_msgs c' !! id = None.
Proof using.
  intros E Hk He. unfold core_apply in E. destruct e as [t p]. repeat case_decide; try done.
  - destruct (decodeConfig p); [|done]. destruct (Validate _) as [? [?|]]; by simplify_eq/=.
  - destruct (decodeMessage p) as [m|] eqn:Hm; [|done]. unfold core_enqueue in E.
    destruct (k_msgs c !! m_ID m); simplify_eq/=. rewrite lookup_insert_ne; [done|].
    intros Hid. apply He. split; [done|]. eauto.
  - case_match; simplify_eq/=. by rewrite lookup_delete_None; right.
  - case_match eqn:Hx; simplify_eq/=. rewrite lookup_insert_ne; [done|congruence].
  - by destruct (decodeDedup p); simplify_eq/=.
Qed.

(** The messages of a queue are those of its history. *)
Lemma history_message base T q c id :
  QInv base T q -> core_run decodeConfig (records_of base q) core0 = inl c ->
  sp_msgs (qabs q) !! id = None <-> k_msgs c !! id = None.
Proof using.
  intros HQ Hrun. destruct (qi_core _ _ _ HQ) as (c' & Hrun' & Hrep).
  rewrite Hrun in Hrun'. injection Hrun' as <-. by eapply rp_lookup_None.
Qed.

(** ** What is on disk *)

Context `{!ConfigCodecLaws}.

Lemma LogInv_base l : LogInv l -> lg_base l `prefix_of` d_synced (lg_disk l).
Proof using. intros [(g & b & w & f & HP) _ _ _ _ _ _ _ _ _]. rewrite (lp_synced _ _ _ _ _ HP). by eexists. Qed.

Lemma meta_first_bytes es : meta_first es -> encode_all es <> [].
Proof using.
  intros (p & es' & -> & _) E. apply (f_equal length) in E.
  rewrite encode_all_cons, length_app, length_encode_entry in E. simpl in E. unfold EncodedLen, HeaderSize in E. lia.
Qed.

(** [META] is on disk from the moment [Create] returns. *)
Lemma created_on_disk q : created q -> d_synced (lg_disk (q_log q)) <> [].
Proof using All.
  intros (path & cfg & statErr & view & io & d & d' & ix & l & l' & batch & now & Hty & Hseq & _ & HC & Hbg & HW & ->).
  destruct (Create_correct _ _ _ _ _ _ _ _ _ _ HC) as (cfg' & meta & l0 & Hv & Henc & -> & -> & HA).
  pose proof (Validate_sound _ _ Hv) as Hok. pose proof (Validate_typed _ _ Hv Hty) as [Hty' _].
  destruct (decode_encodeConfig cfg' meta Hok Hty' Henc) as [_ Hlen].
  assert (LogInv (newLog 0 (mkDisk [] []))) as HI0 by (apply newLog_inv; by exists []).
  pose proof (Append_inv TypeMeta meta _ _ _ (conj eq_refl Hlen) HA HI0) as HI1.
  unfold Append in HA. simpl in HA. injection HA as <- <-.
  destruct (rtc_background_keeps _ _ Hbg HI1) as (HI' & Eh & Eb). simpl.
  pose proof (li_parts _ HI') as (good & bad & wr & bf & HP).
  pose proof (Wait_nil_good _ _ _ _ _ _ HI' HP HW) as Hlate. pose proof (lp_hist _ _ _ _ _ HP) as Hh.
  rewrite Eh in Hh. simpl in Hh. destruct good as [|g good].
  - exfalso. rewrite app_nil_l in Hh. rewrite <- Hh in Hlate. apply Forall_cons in Hlate as [Hlt _]. simpl in Hlt. lia.
  - rewrite (lp_synced _ _ _ _ _ HP). intros [_ E]%app_nil. apply (f_equal length) in E.
    unfold bytes_of in E. cbn [fmap list_fmap] in E.
    rewrite encode_all_cons, length_app, length_encode_entry in E. simpl in E. unfold EncodedLen, HeaderSize in E. lia.
Qed.

Lemma reachable_on_disk q : queue_reachable q -> d_synced (lg_disk (q_log q)) <> [].
Proof using All.
  induction 1 as [q Hc|op q q' Hr IH Hs|q img name path clock io now d' q' Hr _ Hcr Hclk Hl].
  - by apply created_on_disk.
  - destruct (queue_reachable_QInv q Hr) as (base & T & HQ).
    destruct (queue_step_log base T op q q' HQ Hs) as [(ext & [_ _ [tl ->] _])|(now & se & _ & _ & io & r & _ & _ & Hcp)];
      [by intros [? _]%app_nil|].
    destruct Hcp as [? _|? _|? ? _|? ? _ _ Hsn|? l ? ? _ _ Hsn HR|es l _ _ Hsn HR]; try done; simpl.
    + unfold Reopen in HR. by repeat case_match; simplify_eq/=.
    + destruct (Reopen_cases _ _ _ _ _ _ _ HR) as [[? _]|(_ & _ & _ & -> & _)]; [done|]. simpl.
      destruct Hsn as (meta & _ & ->). apply meta_first_bytes, spec_snapshot_meta_first.
  - destruct (queue_reachable_QInv q Hr) as (base & T & HQ).
    destruct (restart_QInv base T _ _ _ _ _ _ _ _ _ HQ Hcr Hclk Hl) as (es & Hm & HQ' & _).
    destruct (LogInv_base _ (qi_log _ _ _ HQ')) as [tl ->]. rewrite (proj1 (qi_base _ _ _ HQ')).
    intros [E _]%app_nil. by apply (meta_first_bytes es).
Qed.

(** ** After a crash *)

(** What the records [es] a restart finds have to do with the history of [q]. *)
Definition survivors (base : list Entry) (T : Time) (q : Queue) (es : list Entry) (c : Core) : Prop :=
  match q_detached q with
  | None =>
      base `prefix_of` es /\ es `prefix_of` records_of base q /\
      (forall b i e, Wait b (q_log q) = Some None -> lg_hist (q_log q) !! i = Some e -> e.1 <= b ->
        (length base + i < length es)%nat) /\
      (lg_buf (q_log q) = [] -> writing (lg_flusher (q_log q)) = None -> lg_fatal (q_log q) = None ->
        es = records_of base q)
  | Some _ => exists c0, core_run decodeConfig (records_of base q) core0 = inl c0 /\ refines_core T c c0
  end.

(** Every crash of a reachable queue leaves a file that loads, whatever the
    clock, to a queue that represents the core of the records in it. *)
Lemma crash_loads base T q img name path clock now :
  queue_reachable q -> QInv base T q -> crash q img -> (forall o, in_int64 (clock o)) ->
  exists es c q' d',
    Load name path (OpenOk (plainFile img)) clock noIO (mkDisk img []) now = Some (d', inl q') /\
    core_run decodeConfig es core0 = inl c /\ (forall T', represents T' (qabs q') c) /\
    QInv es T q' /\ survivors base T q es c /\ q_failed q' = None /\ q_closed q' = false.
Proof using All.
  intros Hr HQ Hcr Hclk.
  assert (forall es ending c, replays_to img es ending -> meta_first es -> Forall entry_ok es ->
    core_run decodeConfig es core0 = inl c -> core_wf T c ->
    exists q' d', Load name path (OpenOk (plainFile img)) clock noIO (mkDisk img []) now = Some (d', inl q') /\
      (forall T', represents T' (qabs q') c) /\ QInv es T q' /\ q_failed q' = None /\ q_closed q' = false) as Hload.
  { intros es ending c Hrp Hm Hok Hc Hwf.
    destruct (Load_history name path clock noIO img es ending now c T Hrp Hm Hok Hclk Hc Hwf)
      as (d' & r & HL & [(err & -> & HO)|(q' & -> & HQ' & Hrep & Hf & Hcl & _)]).
    - by rewrite (noIO_Open _ _ _ Hrp) in HO.
    - by exists q', d'. }
  unfold crash in Hcr. unfold survivors. destruct (q_detached q) as [imgs|] eqn:Hd.
  - destruct (qi_detached _ _ _ HQ imgs Hd) as [_ Hi]. rewrite Forall_forall in Hi.
    destruct (Hi img Hcr) as (es & c0 & -> & Hrun0 & [Hok Hm (c & Hrun & Href & Hwf)]).
    destruct (Hload es _ c (encode_all_replays_to es Hok) Hm Hok Hrun Hwf) as (q' & d' & ? & ? & ? & ? & ?).
    exists es, c, q', d'. split_and!; try done. by exists c0.
  - destruct (qi_base _ _ _ HQ) as [Hb Hbok].
    destruct (log_crash_replays (q_log q) base img (qi_log _ _ _ HQ) Hb Hbok Hcr)
      as (es & ending & Hdur & Hne & Hall & Hbp & Hes & Hok & Hrp).
    pose proof (Hne (reachable_on_disk q Hr)) as Hes0.
    destruct (meta_first_prefix es _ Hes (qi_meta _ _ _ HQ)) as [->|Hm]; [done|].
    destruct (qi_core _ _ _ HQ) as (c0 & Hrun & _).
    destruct (core_run_prefix decodeConfig es _ core0 c0 Hes Hrun) as [c Hc].
    pose proof (qi_wf _ _ _ HQ es c Hbp Hes Hes0 Hc) as Hwf.
    destruct (Hload es _ c Hrp Hm Hok Hc Hwf) as (q' & d' & ? & ? & ? & ? & ?).
    exists es, c, q', d'. by split_and!.
Qed.

(** ** Facts that last *)

(** Two messages of cores that differ in [VisibleAt] at most. *)
Definition same_stored (k k' : CoreMsg) : Prop :=
  same_content k k' /\ k_Attempts k' = k_Attempts k /\ k_dead k' = k_dead k.

(** A fact about the messages of a core that the records in [G] keep. *)
Class Lasting (Q : Core -> Prop) (G : Entry -> Prop) : Prop := {
  lasting_apply e c c' : core_apply decodeConfig e c = inl c' -> Q c -> G e -> Q c';
  lasting_msgs c c' : (forall id, option_Forall2 same_stored (k_msgs c !! id) (k_msgs c' !! id)) -> Q c -> Q c';
}.

Context (Q : Core -> Prop) (G : Entry -> Prop) `{!Lasting Q G}.

Lemma lasting_run es c c' : core_run decodeConfig es c = inl c' -> Q c -> Forall G es -> Q c'.
Proof using All.
  intros E HQ HG. revert c E HQ. induction HG as [|e es He _ IH]; intros c E HQ; cbn [core_run] in E; [by simplify_eq|].
  destruct (core_apply decodeConfig e c) as [c1|] eqn:E1; [|done]. eapply IH; [exact E|]. by eapply lasting_apply.
Qed.

(** The records of the batches up to [b] make [Q] true, and the rest keep it. *)
Definition settled (b : Z) (base : list Entry) (q : Queue) : Prop :=
  exists i c, (i <= length (lg_hist (q_log q)))%nat /\
    core_run decodeConfig (base ++ (take i (lg_hist (q_log q))).*2) core0 = inl c /\ Q c /\
    Forall (fun e => e.1 <= b) (take i (lg_hist (q_log q))) /\ Forall G (drop i (lg_hist (q_log q))).*2.

Lemma settled_core b base q c :
  settled b base q -> core_run decodeConfig (records_of base q) core0 = inl c -> Q c.
Proof using All.
  intros (i & c1 & _ & Hrun1 & HQ & _ & HG) Hrun. unfold records_of in Hrun.
  rewrite <- (take_drop i (lg_hist (q_log q))), fmap_app, app_assoc, core_run_app, Hrun1 in Hrun. by eapply lasting_run.
Qed.

Lemma settled_grows b base q q' ext :
  settled b base q -> lg_hist (q_log q') = lg_hist (q_log q) ++ ext -> Forall G ext.*2 -> settled b base q'.
Proof using All.
  intros (i & c & Hi & Hrun & HQ & Hb & HG) E Hext. exists i, c. rewrite E, length_app, take_app_le, drop_app_le by done.
  rewrite fmap_app. split_and!; try done; [lia|]. by apply Forall_app.
Qed.

(** The messages of a snapshot are those of the history it replaces. *)
Lemma snapshot_same_stored T now s c0 c :
  represents T s c0 -> snapshot_core now s c ->
  forall id, option_Forall2 same_stored (k_msgs c0 !! id) (k_msgs c !! id).
Proof using.
  intros R Hc id. rewrite (sc_msgs _ _ _ Hc), lookup_fmap. pose proof (rp_msgs _ _ _ R id) as Hm.
  destruct Hm as [m k (?&?&?&?&?&?&?&_)|]; constructor. by split_and!.
Qed.

Lemma settled_compacted b base T now se io q q' r :
  QInv base T q -> settled b base q -> (checkLocked q = None -> (Sync_turn (q_log q)).2 = Some se) ->
  compacted now se io q q' r -> exists base' T', QInv base' T' q' /\ settled b base' q'.
Proof using All.
  intros HQ Hst HS Hcp. destruct (Compact_QInv base T now se io q q' r HQ HS Hcp) as (base' & HQ' & _ & Hb & Hbs).
  exists base', (Z.max T now). split; [done|].
  destruct Hcp as [err Hc|err Hc ->|err tmp Hc -> _|es err Hc -> Hsn|es l err e Hc -> Hsn HR|es l Hc -> Hsn HR];
    try (rewrite Hb by done; exact Hst).
  - rewrite Hb by done. apply (settled_grows b base q _ []); [done| |constructor]. simpl.
    destruct (Reopen_cases _ _ _ _ _ _ _ HR) as [(_ & -> & _)|[? _]]; [|done]. by rewrite app_nil_r.
  - destruct (Reopen_cases _ _ _ _ _ _ _ HR) as [[? _]|(_ & Eh & Eb & _)]; [done|].
    destruct (QInv_snapshot _ _ _ _ _ HQ (Hbs eq_refl)) as (c0 & c & Hrun0 & _ & Hrun & _ & _ & Hsc).
    destruct (qi_core _ _ _ HQ) as (c1 & Hrun1 & Hrep). assert (c1 = c0) as -> by congruence.
    exists 0%nat, c. simpl. rewrite Eh. split_and!; [lia| | |constructor|constructor]; [by rewrite app_nil_r|].
    eapply lasting_msgs; [by eapply snapshot_same_stored|]. by eapply settled_core.
Qed.

Lemma settled_step op b base T q q' :
  QInv base T q -> settled b base q -> queue_step op q q' -> (forall e, entry_of op e -> G e) ->
  exists base' T', QInv base' T' q' /\ settled b base' q'.
Proof using All.
  intros HQ Hst Hs HG.
  destruct (queue_step_log base T op q q' HQ Hs) as [(ext & [Hh Hb _ He])|(now & se & _ & _ & io & r & _ & HS & Hcp)];
    [|by eapply settled_compacted].
  destruct (queue_step_QInv base T op q q' Hs HQ) as (base' & T' & _ & HQ' & _). exists base', T'. split; [done|].
  assert (base' = base) as ->; [|eapply settled_grows; [done|exact Hh|by eapply Forall_impl]].
  apply (encode_all_inj base' base); [apply HQ'|apply HQ|].
  by rewrite <- (proj1 (qi_base _ _ _ HQ')), <- (proj1 (qi_base _ _ _ HQ)).
Qed.

Lemma settled_run ops b base T q q' :
  QInv base T q -> settled b base q -> queue_run ops q q' -> Forall (fun op => forall e, entry_of op e -> G e) ops ->
  exists base' T', QInv base' T' q' /\ settled b base' q'.
Proof using All.
  intros HQ Hst Hr. revert base T HQ Hst. induction Hr as [q|op ops q q1 q' Hs _ IH]; intros base T HQ Hst HG; [eauto|].
  apply Forall_cons in HG as [HG1 HG]. destruct (settled_step op b base T q q1 HQ Hst Hs HG1) as (base1 & T1 & HQ1 & Hst1).
  by eapply IH.
Qed.

(** Once [Wait] has returned nil for the batch, [Q] survives every crash. *)
Lemma settled_crash b base T q img name path clock now :
  queue_reachable q -> QInv base T q -> settled b base q -> Wait b (q_log q) = Some None ->
  crash q img -> (forall o, in_int64 (clock o)) ->
  exists q' d' c T', Load name path (OpenOk (plainFile img)) clock noIO (mkDisk img []) now = Some (d', inl q') /\
    represents T' (qabs q') c /\ Q c.
Proof using All.
  intros Hr HQ Hst HW Hcr Hclk.
  destruct (crash_loads base T q img name path clock now Hr HQ Hcr Hclk)
    as (es & c & q' & d' & HL & Hrun & Hrep & _ & Hsv & _). exists q', d'.
  unfold survivors in Hsv. destruct (q_detached q) as [imgs|].
  { destruct Hsv as (c0 & Hrun0 & Href). exists c0, T. split_and!; [done| |by eapply settled_core].
    apply Href; [lia|apply Hrep]. }
  exists c, T. split_and!; [done|apply Hrep|]. destruct Hsv as (Hbp & Hes & Hdur & _).
  destruct Hst as (i & c1 & Hi & Hrun1 & HQ1 & Hbi & HG).
  assert (records_of base q = (base ++ (take i (lg_hist (q_log q))).*2) ++ (drop i (lg_hist (q_log q))).*2) as Esp
    by (unfold records_of; by rewrite <- app_assoc, <- fmap_app, take_drop).
  rewrite Esp in Hes. assert (base ++ (take i (lg_hist (q_log q))).*2 `prefix_of` es) as [rest ->].
  { assert (length base + i <= length es)%nat as Hlen.
    { destruct i as [|i]; [apply prefix_length in Hbp; lia|].
      destruct (lg_hist (q_log q) !! i) as [e|] eqn:He; [|apply lookup_ge_None in He; lia].
      enough (length base + i < length es)%nat by lia. apply (Hdur b i e HW He).
      rewrite Forall_lookup in Hbi. apply (Hbi i). by rewrite lookup_take_lt by lia. }
    destruct (prefix_weak_total _ _ _ (prefix_app_r _ _ _ (reflexivity _)) Hes) as [Hp|Hp]; [done|].
    rewrite (prefix_length_eq _ _ Hp); [done|]. rewrite length_app, length_fmap, length_take. lia. }
  rewrite core_run_app, Hrun1 in Hrun. eapply lasting_run; [exact Hrun|done|].
  apply prefix_app_inv in Hes. by eapply Forall_prefix_of.
Qed.
End Trace.

(** ** A message that stays, and one that is gone *)

Section Facts.
Context `{ConfigCodec}.

Definition present (id : string) (k : CoreMsg) (c : Core) : Prop :=
  exists k', k_msgs c !! id = Some k' /\ same_content k k'.
Definition gone (id : string) (c : Core) : Prop := k_msgs c !! id = None.

Lemma same_content_trans k1 k2 k3 : same_content k1 k2 -> same_content k2 k3 -> same_content k1 k3.
Proof using. unfold same_content. intros. destruct_and!. split_and!; congruence. Qed.

#[export] Instance present_lasting id k : Lasting (present id k) (fun e => e <> (TypeAck, bytes_of_string id)).
Proof using.
  split.
  - intros e c c' E (k1 & Hk1 & S1) He. destruct (core_apply_keeps id e c c' k1 E Hk1 He) as (k2 & Hk2 & S2).
    exists k2. split; [done|]. by eapply same_content_trans.
  - intros c c' Hs (k1 & Hk1 & S1). specialize (Hs id). rewrite Hk1 in Hs. inversion Hs as [? k2 [S2 _] E|]; subst.
    exists k2. split; [done|]. by eapply same_content_trans.
Qed.

#[export] Instance gone_lasting id : Lasting (gone id) (fun e => ~ enqueues id e).
Proof using.
  split.
  - intros e c c' E Hk He. by eapply core_apply_absent.
  - intros c c' Hs Hk. unfold gone in *. specialize (Hs id). rewrite Hk in Hs. by inversion Hs.
Qed.

(** An operation other than [Ack] of [id] writes no acknowledgement of it. *)
Lemma entry_of_no_ack op id e : op <> OpAck id -> entry_of op e -> e <> (TypeAck, bytes_of_string id).
Proof using.
  intros Hop [Ha _] ->. apply Hop. specialize (Ha eq_refl). cbn [snd] in Ha.
  by rewrite string_of_bytes_of_string in Ha.
Qed.

(** One other than an [Enqueue] that draws [id] writes no message with it. *)
Definition draws (id : string) (op : QueueOp) : Prop :=
  exists now rand8 payload priority delay dedupID,
    op = OpEnqueue now rand8 payload priority delay dedupID /\ newID rand8 = id.

Lemma entry_of_no_enqueue op id e : ~ draws id op -> entry_of op e -> ~ enqueues id e.
Proof using.
  intros Hop [_ He] [Ht (m & Hm & <-)]. apply Hop.
  destruct (He Ht) as (now & r & pl & pr & dl & dd & m' & -> & Hm' & Hid). rewrite Hm in Hm'. injection Hm' as <-.
  rewrite Hid. by eexists _, _, _, _, _, _.
Qed.
End Facts.
