(* ===== verification/QueueProps.v ===== *)
(** * Properties of a queue

    Theorems about every reachable queue: created, driven by any interleaving of
    its operations, its timer, its log's flusher and its clients, crashed at any
    point and loaded again, any number of times. *)

From Stdlib Require Import ZArith Lia Sorting.Sorted.
From S2P Require Import Prelude GoInt Errors WalRecord Replay GoHeap Message Heaps Codec Index QueueSpec.
From S2P Require Import IndexInv IndexRefine IndexProps Durable Log LogInv LogProps Queue Load QueueInv QueueOps QueueTick Recovery.
From S2P Require Import Writer Compact Snapshot SnapshotProps CompactProps Json JsonProps QueueTrace Sample.

Implicit Types (q : Queue) (now : Time).

(** ** Definitions the statements use *)

(** The contents of a queue, to a client: its messages by id. *)
Notation contents q := (sp_msgs (qabs q)).

(** Two queues with the same durable state: they differ in leases, priorities in
    force and dedup entries that have expired by [T] at most. *)
Definition same_durable_msg (m m' : Message) : Prop :=
  m_DedupID m' = m_DedupID m /\ m_Seq m' = m_Seq m /\ m_Priority m' = m_Priority m /\
  m_Payload m' = m_Payload m /\ m_CreatedAt m' = m_CreatedAt m /\ m_Attempts m' = m_Attempts m /\
  (m_state m' = stateDead <-> m_state m = stateDead).

Record same_durable T q q' : Prop := {
  sd_cfg : same_cfg (ix_cfg (q_ix q')) (ix_cfg (q_ix q));
  sd_nextSeq : ix_nextSeq (q_ix q') = ix_nextSeq (q_ix q);
  sd_msgs id : option_Forall2 same_durable_msg (contents q !! id) (contents q' !! id);
  sd_dedup k t : T <= t -> alive t (ix_dedup (q_ix q') !! k) = alive t (ix_dedup (q_ix q) !! k);
}.

Lemma represents_same_durable T q q' c :
  represents T (qabs q) c -> represents T (qabs q') c -> same_durable T q q'.
Proof.
  intros [C1 M1 D1 N1] [C2 M2 D2 N2]. split.
  - exact (transitivity C2 (symmetry C1)).
  - exact (eq_trans N2 (eq_sym N1)).
  - intros id. specialize (M1 id). specialize (M2 id).
    destruct (contents q !! id) as [m|], (contents q' !! id) as [m'|], (k_msgs c !! id) as [k|];
      inversion M1 as [? ? R1|]; inversion M2 as [? ? R2|]; subst; constructor.
    destruct R1 as (?&?&?&?&?&?&Hd&_), R2 as (?&?&?&?&?&?&Hd'&_). split_and!; try congruence.
    rewrite <- (bool_decide_eq_true (m_state m' = stateDead)), <- (bool_decide_eq_true (m_state m = stateDead)).
    by rewrite Hd, Hd'.
  - intros k t Ht. exact (eq_trans (D2 k t Ht) (eq_sym (D1 k t Ht))).
Qed.

(** They suppress the same duplicates from [T] on. *)
Lemma same_duplicates T q q' t dedupID : same_durable T q q' -> T <= t -> duplicateOf t dedupID q' = duplicateOf t dedupID q.
Proof. intros [_ _ _ Hd] Ht. unfold duplicateOf. case_bool_decide; [done|]. exact (Hd dedupID t Ht). Qed.

(** What a step hands to consumers. *)
Definition outputs (op : QueueOp) (q : Queue) : list Message :=
  match op with
  | OpDequeue now max visibility =>
    match Dequeue now max visibility q with Some (_, (out, _)) => out | None => [] end
  | _ => []
  end.

(** A run, and everything it hands out. *)
Inductive delivers : list QueueOp -> Queue -> list Message -> Queue -> Prop :=
  | dl_nil q : delivers [] q [] q
  | dl_cons op ops q q1 q' out :
      queue_step op q q1 -> delivers ops q1 out q' -> delivers (op :: ops) q (outputs op q ++ out) q'.

(** An operation that does not end the lease on [id], which runs out at
    [deadline]. *)
Definition leaves_lease (id : string) (deadline : Time) (op : QueueOp) : Prop :=
  match op with
  | OpAck id' | OpNack _ id' => id' <> id
  | OpTick now => now < deadline
  | _ => True
  end.

(** ** Lemmas *)

Lemma qabs_filed base T q : QInv base T q -> filed (qabs q).
Proof. intros HQ. apply abs_filed, (qi_index _ _ _ HQ). Qed.

Lemma qabs_same q q' : q_ix q' = q_ix q -> qabs q' = qabs q.
Proof. unfold qabs. by intros ->. Qed.

Lemma promoted_keeps cfg now m : m_state m <> stateDelayed -> promoted cfg now m = m.
Proof. intros H. unfold promoted. by rewrite decide_False. Qed.

Lemma compact_qabs base T now syncErr ids1 ids2 io q q' r :
  QInv base T q -> map_orders ids1 ids2 q -> (checkLocked q = None -> (Sync_turn (q_log q)).2 = Some syncErr) ->
  Compact syncErr now ids1 ids2 io q = Some (q', r) -> qabs q' = qabs q.
Proof.
  intros HQ Ho HS E. destruct (QInv_keyed _ _ _ HQ) as [HK _].
  destruct (Compact_cases now syncErr ids1 ids2 io q (qi_index _ _ _ HQ) HK Ho) as (q1 & r1 & E' & Hcp).
  assert (q1 = q' /\ r1 = r) as [-> ->] by by simplify_eq.
  by destruct (Compact_QInv base T now syncErr io q q' r HQ HS Hcp) as (_ & _ & Ha & _).
Qed.

(** One step keeps a lease it does not touch, and hands out other messages. *)
Lemma step_keeps_lease base T op id m q q' :
  QInv base T q -> contents q !! id = Some m -> m_state m = stateInFlight ->
  queue_step op q q' -> leaves_lease id (m_deadline m) op ->
  contents q' !! id = Some m /\ id ∉ m_ID <$> outputs op q.
Proof.
  intros HQ Hm Hst Hs Hl. assert (id ∉ m_ID <$> ([] : list Message)) as Hnil by apply not_elem_of_nil.
  destruct Hs as [now rand8 payload priority delay dedupID q q' ph Hok E|now max vis q q' r E|
    id' q q' ph E|now id' q q' ph Hnow E|now q q' tk Hnow E|now se ids1 ids2 io q q' r Ho HS E|
    b err q _|q|n q|q|l' q _]; simpl in Hl; try done.
  - split; [|done]. destruct (Enqueue_correct base T _ _ _ _ _ _ q HQ Hok) as (q1 & ph1 & E' & _ & Hout).
    assert (q1 = q' /\ ph1 = ph) as [-> ->] by by simplify_eq.
    destruct Hout as [| | |q' batch _ _ _ Hs]; [done..|]. unfold spec_enqueue in Hs.
    destruct (sp_msgs (qabs q) !! _) eqn:Hnone in Hs; [done|].
    apply (f_equal (fun x => sp_msgs x.1 !! id)) in Hs. cbn [fst] in Hs. rewrite <- Hs. cbn [sp_set sp_with sp_msgs].
    rewrite lookup_insert_ne; [done|]. intros E2. rewrite E2 in Hnone. congruence.
  - destruct (Dequeue_correct base T now max vis q HQ) as (q1 & out & err & E' & _ & _ & _ & Hls).
    cbn [outputs]. rewrite E' in E |- *. assert (q1 = q') as -> by congruence.
    destruct (checkLocked q); [destruct Hls as [-> ->]; done|].
    apply leases_handed_out in Hls; [|by apply filed_promote, (qabs_filed base T)].
    assert (sp_msgs (spec_promote now (qabs q)) !! id = Some m) as Hp.
    { cbn [spec_promote sp_with sp_msgs]. rewrite lookup_fmap, Hm. simpl. rewrite promoted_keeps; congruence. }
    assert (id ∉ m_ID <$> (erase <$> out)) as Hnin.
    { intros (x & -> & Hx)%list_elem_of_fmap. destruct (ho_from _ _ _ _ _ Hls x Hx) as (m0 & Hm0 & Hr & _).
      rewrite Hp in Hm0. injection Hm0 as <-. congruence. }
    rewrite (ho_rest _ _ _ _ _ Hls id Hnin). split; [done|].
    rewrite <- list_fmap_compose in Hnin. exact Hnin.
  - split; [|done]. destruct (Ack_correct base T id' q HQ) as (q1 & ph1 & E' & _ & Hout).
    assert (q1 = q' /\ ph1 = ph) as [-> ->] by by simplify_eq.
    destruct Hout as [| | | |st q' batch _ _ _ _ ->]; [done..|]. simpl. by rewrite lookup_delete_ne.
  - split; [|done]. destruct (Nack_correct base T now id' q HQ Hnow) as (q1 & ph1 & E' & _ & Hout).
    assert (q1 = q' /\ ph1 = ph) as [-> ->] by by simplify_eq.
    destruct Hout as [| | | |m' q' batch _ _ _ _ ->]; [done..|]. simpl. by rewrite lookup_insert_ne.
  - split; [|done]. destruct (tick_correct base T now q HQ Hnow) as (q1 & tk1 & E' & _ & Ht).
    assert (q1 = q' /\ tk1 = tk) as [-> ->] by by simplify_eq.
    destruct (checkLocked q); [by destruct Ht as [-> _]|]. destruct Ht as (_ & Hk & _).
    apply Hk; [done..|]. unfold After. apply Z.ltb_lt. lia.
  - split; [|done]. by rewrite (compact_qabs base T _ _ _ _ _ _ _ _ HQ Ho HS E).
  - split; [|done]. rewrite (qabs_same q); [done|]. unfold waitDurable. by repeat case_match.
Qed.

Lemma run_keeps_lease base T ops id m q out q' :
  QInv base T q -> contents q !! id = Some m -> m_state m = stateInFlight ->
  delivers ops q out q' -> Forall (leaves_lease id (m_deadline m)) ops ->
  contents q' !! id = Some m /\ id ∉ m_ID <$> out.
Proof.
  intros HQ Hm Hst Hr. revert base T HQ Hm.
  induction Hr as [q|op ops q q1 q' out Hs _ IH]; intros base T HQ Hm Hl; [split; [done|apply not_elem_of_nil]|].
  apply Forall_cons in Hl as [Hl1 Hl]. destruct (step_keeps_lease base T op id m q q1 HQ Hm Hst Hs Hl1) as [Hm1 Hn].
  destruct (queue_step_QInv base T op q q1 Hs HQ) as (base1 & T1 & _ & HQ1 & _).
  destruct (IH base1 T1 HQ1 Hm1 Hl) as [Hm' Hn']. split; [done|]. rewrite fmap_app. set_solver.
Qed.

(** ** Crashes and restarts *)

(** C1: Crash recovery. Stop the machine at any point of any run: the file it leaves loads without an error, whatever the clock reads during the replay, into an open, unfailed and again reachable queue. Unless a failed compaction has taken the log's file away, the reloaded state is exactly that of a prefix of the records written since the log began, which contains every record of every batch [Wait] had reported durable, and everything when nothing was buffered or in flight. *)
Theorem crash_recovers q img name path clock now :
  queue_reachable q -> crash q img -> (forall o, in_int64 (clock o)) ->
  exists base es c q' d', lg_base (q_log q) = encode_all base /\
    Load name path (OpenOk (plainFile img)) clock noIO (mkDisk img []) now = Some (d', inl q') /\
    checkLocked q' = None /\ queue_reachable q' /\
    core_run decodeConfig es core0 = inl c /\ (forall T, represents T (qabs q') c) /\
    (q_detached q = None ->
      base `prefix_of` es /\ es `prefix_of` base ++ (lg_hist (q_log q)).*2 /\
      (forall b i e, Wait b (q_log q) = Some None -> lg_hist (q_log q) !! i = Some e -> e.1 <= b ->
        (length base + i < length es)%nat) /\
      (lg_buf (q_log q) = [] -> writing (lg_flusher (q_log q)) = None -> lg_fatal (q_log q) = None ->
        es = base ++ (lg_hist (q_log q)).*2)).
Proof.
  intros Hr Hcr Hclk. destruct (queue_reachable_QInv q Hr) as (base & T & HQ).
  destruct (crash_loads base T q img name path clock now Hr HQ Hcr Hclk)
    as (es & c & q' & d' & HL & Hrun & Hrep & _ & Hsv & Hf & Hcl).
  exists base, es, c, q', d'. split_and!; try done.
  - apply (qi_base _ _ _ HQ).
  - unfold checkLocked. by rewrite Hcl.
  - by eapply qr_restart.
  - intros Hd. unfold survivors in Hsv. by rewrite Hd in Hsv.
Qed.

(** What a restart from any file the machine can have kept gives. *)
Lemma crash_same_durable base T q img name path clock now :
  queue_reachable q -> QInv base T q -> crash q img -> (forall o, in_int64 (clock o)) ->
  q_detached q <> None \/
    (lg_buf (q_log q) = [] /\ writing (lg_flusher (q_log q)) = None /\ lg_fatal (q_log q) = None) ->
  exists q' d',
    Load name path (OpenOk (plainFile img)) clock noIO (mkDisk img []) now = Some (d', inl q') /\
    same_durable T q q'.
Proof.
  intros Hr HQ Hcr Hclk Hor.
  destruct (crash_loads base T q img name path clock now Hr HQ Hcr Hclk)
    as (es & c & q' & d' & HL & Hrun & Hrep & _ & Hsv & _).
  destruct (qi_core _ _ _ HQ) as (c0 & Hrun0 & Hrep0). exists q', d'. split; [exact HL|].
  apply (represents_same_durable T q q' c0 Hrep0).
  unfold survivors in Hsv. destruct (q_detached q).
  - destruct Hsv as (c1 & Hrun1 & Href). assert (c1 = c0) as -> by congruence. apply Href; [lia|apply Hrep].
  - destruct Hor as [?|(Hb & Hw & Hf)]; [done|]. destruct Hsv as (_ & _ & _ & Hall).
    rewrite (Hall Hb Hw Hf), Hrun0 in Hrun. injection Hrun as <-. apply Hrep.
Qed.

(** C12: Live and replayed state cannot diverge. Restart a queue with nothing buffered, in flight or failed, or one whose compaction failed half way through the swap of its log, from any file the machine can have kept, while the clock reads times within [int64]: the reloaded queue has the same configuration, the same next sequence number and the same messages, each with the same payload, priority, sequence number, dedup id, creation time and attempts, dead-lettered exactly if it was before. And at every time from [T] on, where [T] is any time no earlier than what [Enqueue], [tick] and [Compact] have read off the clock so far, it has the same open dedup entries, with the same original ids and the same expiry, so it suppresses the same duplicates. *)
Theorem reload_agrees T q img name path clock now :
  reachable_by T q -> crash q img -> (forall o, in_int64 (clock o)) ->
  q_detached q <> None \/
    (lg_buf (q_log q) = [] /\ writing (lg_flusher (q_log q)) = None /\ lg_fatal (q_log q) = None) ->
  exists q' d',
    Load name path (OpenOk (plainFile img)) clock noIO (mkDisk img []) now = Some (d', inl q') /\
    same_durable T q q' /\
    forall t dedupID, T <= t -> duplicateOf t dedupID q' = duplicateOf t dedupID q.
Proof.
  intros HT Hcr Hclk Hor. destruct (reachable_by_QInv T q HT) as (base & HQ).
  destruct (crash_same_durable base T q img name path clock now (reachable_by_reachable _ _ HT) HQ Hcr Hclk Hor) as (q' & d' & HL & Hs).
  exists q', d'. split_and!; [done..|]. intros t d. by apply (same_duplicates T).
Qed.

(** What a queue that represents [c] shows of a message that came through a
    history with its content unchanged. *)
Lemma represents_content T T' q q' c c' id m k k' :
  represents T (qabs q) c -> contents q !! id = Some m -> k_msgs c !! id = Some k ->
  represents T' (qabs q') c' -> k_msgs c' !! id = Some k' -> same_content k k' ->
  exists m', contents q' !! id = Some m' /\ m_Payload m' = m_Payload m /\ m_Priority m' = m_Priority m /\
    m_Seq m' = m_Seq m /\ m_DedupID m' = m_DedupID m /\ m_CreatedAt m' = m_CreatedAt m.
Proof.
  intros R Hm Hk R' Hk' (S1 & S2 & S3 & S4 & S5).
  destruct (rp_lookup _ _ _ _ _ R Hm) as (k0 & Hk0 & (?&?&?&?&?&_)). rewrite Hk in Hk0. injection Hk0 as <-.
  pose proof (rp_msgs _ _ _ R' id) as Rm. rewrite Hk' in Rm.
  destruct (contents q' !! id) as [m'|]; inversion Rm as [? ? (?&?&?&?&?&_)|]; subst.
  exists m'. split_and!; congruence.
Qed.

(** With the log unfailed, no record is in a later batch than the next. *)
Lemma LogInv_batches l : LogInv l -> lg_fatal l = None -> Forall (fun e => e.1 <= lg_nextSeq l) (lg_hist l).
Proof.
  intros HL Hf. destruct (li_parts _ HL) as (good & bad & wr & bf & HP). rewrite (lp_hist _ _ _ _ _ HP).
  assert (bad = []) as -> by (destruct bad; [done|]; exfalso; by apply (lp_bad_fatal _ _ _ _ _ HP)).
  pose proof (lp_wr _ _ _ _ _ HP) as Hw. destruct (lp_bf _ _ _ _ _ HP) as (_ & _ & Hb).
  assert (lg_flushed l <= lg_nextSeq l) as Hle by (destruct (writing (lg_flusher l)) as [[[? ?] ?]|]; destruct_and!; lia).
  rewrite !Forall_app. split_and!; [eapply Forall_impl; [apply (lp_good _ _ _ _ _ HP)|simpl; lia]|constructor| |].
  - destruct (writing (lg_flusher l)) as [[[? ?] ?]|]; [|by destruct Hw as [-> _]].
    destruct Hw as (_ & _ & Hwr & -> & Hn & _). eapply Forall_impl; [exact Hwr|]. simpl. intros x ->. lia.
  - eapply Forall_impl; [exact Hb|]. simpl. intros x ->. lia.
Qed.

(** A fact that holds right after a record was appended is settled once the
    record's batch is. *)
Lemma logged_settled (Q : Core -> Prop) (G : Entry -> Prop) base T t payload b q q1 c :
  logged t payload b q q1 -> QInv base T q1 ->
  core_run decodeConfig (records_of base q1) core0 = inl c -> Q c -> settled Q G b base q1.
Proof.
  intros (-> & HA & Hh) HQ1 Hrun HQc. exists (length (lg_hist (q_log q1))), c.
  rewrite firstn_all, drop_all. split_and!; [lia|done|done| |constructor].
  assert (lg_nextSeq (q_log q1) = lg_nextSeq (q_log q) /\ lg_fatal (q_log q1) = None) as [En Ef].
  { unfold Append in HA. destruct (lg_fatal (q_log q)) eqn:Hf; [done|]. destruct (lg_closed (q_log q)); [done|].
    by injection HA as <-. }
  rewrite <- En. apply LogInv_batches; [apply HQ1|done].
Qed.

(** A message whose batch has been waited for is in every file the machine can have kept. *)
Lemma enqueue_survives now rand8 payload priority delay dedupID ops q q1 q2 b r img name path clock now' :
  queue_reachable q -> enqueue_ok now rand8 payload priority delay dedupID q ->
  Enqueue now rand8 payload priority delay dedupID q = Some (q1, AwaitDurable b (r, None)) ->
  queue_run ops q1 q2 -> OpAck (er_ID r) ∉ ops -> Wait b (q_log q2) = Some None ->
  crash q2 img -> (forall o, in_int64 (clock o)) ->
  exists q' d' m, Load name path (OpenOk (plainFile img)) clock noIO (mkDisk img []) now' = Some (d', inl q') /\
    contents q' !! er_ID r = Some m /\ m_Payload m = payload /\ m_Priority m = priority /\
    m_Seq m = er_Seq r /\ m_DedupID m = dedupID /\ m_CreatedAt m = now.
Proof.
  intros Hr Hok E Hrun Hack HW Hcr Hclk. destruct (queue_reachable_QInv q Hr) as (base & T & HQ).
  assert (queue_reachable q2) as Hr2 by (eapply queue_reachable_run; [eapply qr_step; [done|by eapply qs_Enqueue]|done]).
  destruct (Enqueue_correct base T _ _ _ _ _ _ q HQ Hok) as (q0 & ph & E' & HQ1 & Hout).
  rewrite E in E'. injection E' as <- <-. inversion Hout as [| | |? ? _ _ Hlog Hs Eq Eb]. subst. clear Hout.
  set (m := newMessage (newID rand8) dedupID (ix_nextSeq (q_ix q)) priority now delay payload) in *.
  destruct (qi_core _ _ _ HQ1) as (c1 & Hrun1 & Hrep1).
  assert (exists m1, contents q1 !! newID rand8 = Some m1 /\ m_Payload m1 = payload /\ m_Priority m1 = priority /\
    m_Seq m1 = ix_nextSeq (q_ix q) /\ m_DedupID m1 = dedupID /\ m_CreatedAt m1 = now) as (m1 & Hm1 & F1 & F2 & F3 & F4 & F5).
  { exists (routed (sp_cfg (qabs q)) now m). unfold spec_enqueue in Hs. destruct (sp_msgs (qabs q) !! _); [done|].
    apply (f_equal (fun x => sp_msgs x.1)) in Hs. cbn [fst] in Hs.
    split; [rewrite <- Hs; cbn [sp_set sp_with sp_msgs]; apply (lookup_insert_eq (sp_msgs (qabs q)))|]. unfold routed. by destruct (After _ _). }
  destruct (rp_lookup _ _ _ _ _ Hrep1 Hm1) as (k & Hk & Hkm).
  assert (settled (present (newID rand8) k) (fun e => e <> (TypeAck, bytes_of_string (newID rand8))) b base q1) as Hst.
  { eapply (logged_settled _ _ base (Z.max T now)); [exact Hlog|exact HQ1|exact Hrun1|].
    exists k. split; [done|]. by split_and!. }
  destruct (settled_run _ _ ops b base _ q1 q2 HQ1 Hst Hrun) as (base2 & T2 & HQ2 & Hst2).
  { apply Forall_forall. intros op Hop e. apply entry_of_no_ack. by intros ->. }
  destruct (settled_crash _ _ b base2 T2 q2 img name path clock now' Hr2 HQ2 Hst2 HW Hcr Hclk)
    as (q' & d' & c & T' & HL & Hrep' & k' & Hk' & Hsame).
  destruct (represents_content _ _ q1 q' c1 c _ m1 k k' Hrep1 Hm1 Hk Hrep' Hk' Hsame) as (m' & Hm' & G1 & G2 & G3 & G4 & G5).
  exists q', d', m'. split_and!; [done|done|simpl; congruence..].
Qed.

(** C2: No acknowledged message is lost. If [Enqueue] handed out a batch and an id, and after any further run of the queue, compactions included, its [Wait] for that batch returns nil, then whenever the machine stops, the reloaded queue holds the message under that id with its payload, priority, sequence number and dedup id, unless [Ack] was called for it since. *)
Theorem acknowledged_enqueue_survives now rand8 payload priority delay dedupID ops q q1 q2 b r img name path clock now' :
  queue_reachable q -> enqueue_ok now rand8 payload priority delay dedupID q ->
  Enqueue now rand8 payload priority delay dedupID q = Some (q1, AwaitDurable b (r, None)) ->
  queue_run ops q1 q2 -> OpAck (er_ID r) ∉ ops -> Wait b (q_log q2) = Some None ->
  crash q2 img -> (forall o, in_int64 (clock o)) ->
  exists q' d' m, Load name path (OpenOk (plainFile img)) clock noIO (mkDisk img []) now' = Some (d', inl q') /\
    contents q' !! er_ID r = Some m /\ m_Payload m = payload /\ m_Priority m = priority /\
    m_Seq m = er_Seq r /\ m_DedupID m = dedupID /\ m_CreatedAt m = now.
Proof. apply enqueue_survives. Qed.

(** An acknowledgement whose batch has been waited for is final in every such file. *)
Lemma ack_final id ops q q1 q2 b img name path clock now' :
  queue_reachable q -> Ack id q = Some (q1, AwaitDurable b None) ->
  queue_run ops q1 q2 -> Forall (fun op => ~ draws id op) ops -> Wait b (q_log q2) = Some None ->
  crash q2 img -> (forall o, in_int64 (clock o)) ->
  exists q' d', Load name path (OpenOk (plainFile img)) clock noIO (mkDisk img []) now' = Some (d', inl q') /\
    contents q' !! id = None.
Proof.
  intros Hr E Hrun Hnew HW Hcr Hclk. destruct (queue_reachable_QInv q Hr) as (base & T & HQ).
  assert (queue_reachable q2) as Hr2 by (eapply queue_reachable_run; [eapply qr_step; [done|by eapply qs_Ack]|done]).
  destruct (Ack_correct base T id q HQ) as (q0 & ph & E' & HQ1 & Hout).
  rewrite E in E'. injection E' as <- <-. inversion Hout as [| | | |st ? ? _ Hst0 _ Hlog Ha Eq Eb]. subst. clear Hout.
  destruct (qi_core _ _ _ HQ1) as (c1 & Hrun1 & Hrep1).
  assert (gone id c1) as Hk1.
  { apply (rp_lookup_None _ _ _ _ Hrep1). change (contents q1 !! id = None). rewrite Ha. apply lookup_delete_eq. }
  assert (settled (gone id) (fun e => ~ enqueues id e) b base q1) as Hst.
  { by eapply (logged_settled _ _ base T). }
  destruct (settled_run _ _ ops b base _ q1 q2 HQ1 Hst Hrun) as (base2 & T2 & HQ2 & Hst2).
  { eapply Forall_impl; [exact Hnew|]. intros op Hop e. by apply entry_of_no_enqueue. }
  destruct (settled_crash _ _ b base2 T2 q2 img name path clock now' Hr2 HQ2 Hst2 HW Hcr Hclk)
    as (q' & d' & c & T' & HL & Hrep' & Hg). exists q', d'. split; [done|]. by apply (rp_lookup_None _ _ _ _ Hrep').
Qed.

(** C3: An acknowledged message never comes back. If [Ack] handed out a batch, and after any further run, compactions included, its [Wait] for that batch returns nil, then whenever the machine stops, the reloaded queue does not hold the message, unless an [Enqueue] drew the same id since. *)
Theorem acknowledged_ack_is_final id ops q q1 q2 b img name path clock now' :
  queue_reachable q -> Ack id q = Some (q1, AwaitDurable b None) ->
  queue_run ops q1 q2 -> Forall (fun op => ~ draws id op) ops -> Wait b (q_log q2) = Some None ->
  crash q2 img -> (forall o, in_int64 (clock o)) ->
  exists q' d', Load name path (OpenOk (plainFile img)) clock noIO (mkDisk img []) now' = Some (d', inl q') /\
    contents q' !! id = None.
Proof. apply ack_final. Qed.

(** ** Every reachable state *)

(** C9: The structural invariant the test suite asserts ([checkInvariants]) holds in every reachable state, across crashes and restarts: every message of a structure has the state of that structure, the three heaps and the DLQ together hold exactly the messages of the id map, every message in a heap knows its position, and no child sorts before its parent. *)
Theorem reachable_checkInvariants q : queue_reachable q -> checkInvariants (q_ix q) = true.
Proof. intros (base & T & HQ)%queue_reachable_QInv. apply Inv_checkInvariants, (qi_index _ _ _ HQ). Qed.

(** In every reachable state, messages are filed under their own ids, sequence numbers are below the next one and no two messages share one, and a message is in the DLQ exactly when its failed attempts have used up [MaxAttempts]. *)
Theorem reachable_messages q id m :
  queue_reachable q -> contents q !! id = Some m ->
  m_ID m = id /\ m_Seq m < ix_nextSeq (q_ix q) /\
  (forall id' m', contents q !! id' = Some m' -> m_Seq m' = m_Seq m -> id' = id) /\
  (m_state m = stateDead <-> c_MaxAttempts (ix_cfg (q_ix q)) <= m_Attempts m).
Proof.
  intros (base & T & HQ)%queue_reachable_QInv Hm. destruct (QInv_core_wf _ _ _ HQ) as (c & _ & R & W).
  destruct (rp_lookup _ _ _ _ _ R Hm) as (k & Hk & (_ & Es & _ & _ & _ & Ea & Ed & _)). split_and!.
  - by apply (qabs_filed base T q HQ).
  - rewrite Es. change (ix_nextSeq (q_ix q)) with (sp_nextSeq (abs (q_ix q))). rewrite (rp_nextSeq _ _ _ R). by eapply (cw_seq _ _ W).
  - intros id' m' Hm' E. destruct (rp_lookup _ _ _ _ _ R Hm') as (k' & Hk' & (_ & Es' & _)).
    eapply (cw_inj _ _ W); [done..|congruence].
  - rewrite Ea. change (ix_cfg (q_ix q)) with (sp_cfg (abs (q_ix q))).
    destruct (same_cfg_fields _ _ (rp_cfg _ _ _ R)) as (_&_&_&->&_).
    rewrite <- (cw_dead _ _ W _ _ Hk), <- Ed. by rewrite bool_decide_eq_true.
Qed.

Lemma step_keeps_messages op q q' id :
  queue_reachable q -> queue_step op q q' -> contents q !! id <> None -> op <> OpAck id ->
  contents q' !! id <> None.
Proof.
  intros (base & T & HQ)%queue_reachable_QInv Hs Hm Hop Hnone. apply Hm.
  destruct (qi_core _ _ _ HQ) as (c & Hrun & R). apply (rp_lookup_None _ _ _ _ R).
  destruct (k_msgs c !! id) as [k|] eqn:Hk; [exfalso|done].
  set (b := fold_right Z.max 0 ((lg_hist (q_log q)).*1)).
  assert (settled (present id k) (fun e => e <> (TypeAck, bytes_of_string id)) b base q) as Hst.
  { exists (length (lg_hist (q_log q))), c. rewrite firstn_all, drop_all. split_and!; [lia|done| | |constructor].
    - exists k. split; [done|]. by split_and!.
    - unfold b. clear. induction (lg_hist (q_log q)) as [|e h IH]; [constructor|]. cbn [fmap list_fmap fold_right].
      constructor; [simpl; lia|]. eapply Forall_impl; [exact IH|]. intros x Hx. simpl in *. lia. }
  destruct (settled_step _ _ op b base T q q' HQ Hst Hs) as (base' & T' & HQ' & Hst').
  { intros e. by apply entry_of_no_ack. }
  destruct (qi_core _ _ _ HQ') as (c' & Hrun' & R').
  destruct (settled_core _ _ _ _ _ _ Hst' Hrun') as (k' & Hk' & _).
  apply (rp_lookup_None _ _ _ _ R') in Hnone. congruence.
Qed.

(** A step of a reachable queue, or an [Enqueue] with any arguments at all. *)
Definition any_step (op : QueueOp) q q' : Prop :=
  queue_step op q q' \/ exists now rand8 payload priority delay dedupID ph,
    op = OpEnqueue now rand8 payload priority delay dedupID /\
    Enqueue now rand8 payload priority delay dedupID q = Some (q', ph).

(** C31: Only an acknowledgement removes a message: whatever step a reachable queue takes (an [Enqueue] with any arguments, also one whose id is taken or whose delay leaves the range of [int64]; any other operation; the timer, the flusher, a compaction that succeeds or fails anywhere, a close), every message it held is still there afterwards, unless the step was [Ack] of that message. Clocks read within [int64], and a compaction iterates over the maps it has. *)
Theorem only_Ack_removes op q q' id :
  queue_reachable q -> any_step op q q' -> contents q !! id <> None -> op <> OpAck id ->
  contents q' !! id <> None.
Proof.
  intros Hr [Hs|(now & r8 & payload & pr & delay & d & ph & -> & E)] Hm Hop; [by eapply step_keeps_messages|].
  destruct (queue_reachable_QInv q Hr) as (base & T & HQ).
  destruct (Enqueue_any now r8 payload pr delay d q (qi_index _ _ _ HQ)) as (q1 & ph1 & E1 & _ & Hout).
  rewrite E in E1. injection E1 as <- <-.
  destruct Hout as [Hen|[_ _ _ _ [-> _] _]]; [|done]. destruct Hen as [| | |q2 batch _ _ _ Hs]; [done..|].
  unfold spec_enqueue in Hs. destruct (sp_msgs (qabs q) !! _) in Hs; [done|].
  apply (f_equal (fun x => sp_msgs x.1)) in Hs. cbn [fst] in Hs. rewrite <- Hs. cbn [sp_set sp_with sp_msgs spec_register].
  destruct (decide (newID r8 = id)) as [<-|Hne]; [by rewrite lookup_insert_eq|by rewrite lookup_insert_ne].
Qed.

(** ** Operations *)

(** C29: [Enqueue] in every reachable state, with any arguments, on every branch: it does not panic; a closed or failed queue refuses with its error; a live dedup entry answers with the original id and changes nothing but a counter; a refused append makes the queue failed; otherwise one ENQUEUE record holding the encoded message is appended. Then, if the id drawn is new, the batch of the record is returned, and the message, with the next sequence number, is delayed or ready according to its delay; if the id is taken the error says so and the queue is neither changed nor failed, although the record stays in the log. *)
Theorem Enqueue_total now rand8 payload priority delay dedupID q :
  queue_reachable q -> let m := newMessage (newID rand8) dedupID (ix_nextSeq (q_ix q)) priority now delay payload in
  exists q' ph, Enqueue now rand8 payload priority delay dedupID q = Some (q', ph) /\
    (enqueued now m q q' ph \/ used_id now m q q' ph) /\
    (forall b r, ph = AwaitDurable b (r, None) -> exists m', contents q' !! newID rand8 = Some m' /\
      m_Payload m' = payload /\ m_Seq m' = ix_nextSeq (q_ix q) /\ m_VisibleAt m' = Add now delay /\
      m_state m' = (if After (Add now delay) now then stateDelayed else stateReady)).
Proof.
  intros (base & T & HQ)%queue_reachable_QInv m.
  destruct (Enqueue_any now rand8 payload priority delay dedupID q (qi_index _ _ _ HQ)) as (q' & ph & E & _ & Hout).
  exists q', ph. split_and!; [done..|]. intros b r ->.
  destruct Hout as [Hen|[_ _ _ _ _ ?]]; [|done]. inversion Hen as [| | |q1 b1 _ _ _ Hs]; subst.
  exists (routed (sp_cfg (qabs q)) now m). unfold spec_enqueue in Hs. destruct (sp_msgs (qabs q) !! _); [done|].
  apply (f_equal (fun x => sp_msgs x.1)) in Hs. cbn [fst] in Hs.
  split; [rewrite <- Hs; apply (lookup_insert_eq (sp_msgs (qabs q)))|].
  unfold routed. change (m_VisibleAt m) with (Add now delay). by destruct (After (Add now delay) now).
Qed.

(** C11: [Dequeue] in every reachable open queue hands out the best messages first: exactly [min max ready] messages (at least one asked for), all ready or due at [now], in the order of [less] with none left behind that sorts before one handed out, each leased until now plus the visibility timeout, no message twice; every other message is as it was but for the promotion of due ones, and nothing is logged. *)
Theorem Dequeue_best_first now max visibility q :
  queue_reachable q -> checkLocked q = None ->
  exists q' out, Dequeue now max visibility q = Some (q', (out, None)) /\ q_log q' = q_log q /\
    handed_out (Add now (if visibility <=? 0 then visibilityTimeout (ix_cfg (q_ix q)) else visibility))
      (Z.to_nat (if max <=? 0 then 1 else max)) (spec_promote now (qabs q)) (erase <$> out) (qabs q').
Proof.
  intros (base & T & HQ)%queue_reachable_QInv Hc.
  destruct (Dequeue_correct base T now max visibility q HQ) as (q' & out & err & E & _ & El & Herr & Hl).
  rewrite Hc in Herr, Hl. subst err. exists q', out. split_and!; [done..|].
  apply leases_handed_out; [|exact Hl]. by apply filed_promote, (qabs_filed base T).
Qed.

(** C10: A lease is exclusive: from a reachable state in which a message is in flight, through any run in which it is neither acked nor nacked and no tick comes at or after its deadline, whatever else is enqueued, dequeued, acked, nacked, aged, expired, compacted, written or closed meanwhile, no [Dequeue] hands the message out again, and it stays in flight exactly as it was. *)
Theorem lease_exclusive id m ops q out q' :
  queue_reachable q -> contents q !! id = Some m -> m_state m = stateInFlight ->
  delivers ops q out q' -> Forall (leaves_lease id (m_deadline m)) ops ->
  id ∉ m_ID <$> out /\ contents q' !! id = Some m.
Proof.
  intros (base & T & HQ)%queue_reachable_QInv Hm Hst Hr Hl.
  destruct (run_keeps_lease base T ops id m q out q' HQ Hm Hst Hr Hl). done.
Qed.

(** [Ack] in every reachable state, on every branch: it does not panic; a closed or failed queue refuses; an unknown id is [ErrNotFound] and a ready or delayed message [ErrNotInFlight], both without effect; an in-flight or dead-lettered message is removed, after one ACK record with its id is appended, in the batch returned, and nothing else changes. *)
Theorem Ack_total id q :
  queue_reachable q -> exists q' ph, Ack id q = Some (q', ph) /\ acked id q q' ph.
Proof.
  intros (base & T & HQ)%queue_reachable_QInv.
  destruct (Ack_correct base T id q HQ) as (q' & ph & E & _ & Hout). by exists q', ph.
Qed.

(** [Nack] in every reachable state, on every branch: it does not panic; a closed or failed queue refuses; an unknown id is [ErrNotFound], any message not in flight [ErrNotInFlight], without effect; an in-flight message gets one more attempt, after one NACK record is appended, and goes to the DLQ if that was its last, or else is ready again at once. *)
Theorem Nack_total now id q :
  queue_reachable q -> in_int64 now ->
  exists q' ph, Nack now id q = Some (q', ph) /\ nacked now id q q' ph /\
    (forall m, contents q !! id = Some m -> m_state m = stateInFlight -> forall b, ph = AwaitDurable b None ->
      exists m', contents q' !! id = Some m' /\ m_Attempts m' = int64 (m_Attempts m + 1) /\
        m_state m' = (if m_Attempts m' >=? c_MaxAttempts (ix_cfg (q_ix q)) then stateDead else stateReady)).
Proof.
  intros (base & T & HQ)%queue_reachable_QInv Hnow.
  destruct (Nack_correct base T now id q HQ Hnow) as (q' & ph & E & _ & Hout). exists q', ph. split_and!; [done..|].
  intros m Hm Hst b ->. inversion Hout as [| | | |m0 ? ? _ Hm0 _ _ Ha]. subst. rewrite Hm in Hm0. injection Hm0 as <-.
  exists (attempted (sp_cfg (qabs q)) now m).1. rewrite Ha. split; [apply lookup_insert_eq|].
  change (ix_cfg (q_ix q)) with (sp_cfg (qabs q)). unfold attempted, routed.
  change (m_Attempts (set_Attempts (int64 (m_Attempts m + 1)) m)) with (int64 (m_Attempts m + 1)).
  destruct (int64 (m_Attempts m + 1) >=? _) eqn:Hd; cbn -[int64 Z.geb qabs]; [by rewrite Hd|].
  unfold After. rewrite Z.ltb_irrefl. cbn -[int64 Z.geb qabs]. by rewrite Hd.
Qed.

(** C30: The two ways to settle a message, in every reachable state and on every branch. Neither panics; a closed or failed queue refuses; an unknown id is [ErrNotFound], and a message in the wrong state [ErrNotInFlight], without effect. [Ack] removes an in-flight or dead-lettered message, after one ACK record with its id is appended in the batch returned, and nothing else changes. [Nack] gives an in-flight message one more attempt, after one NACK record is appended, and it goes to the DLQ if that was its last, or else is ready again at once. *)
Theorem settle_total now id q :
  queue_reachable q -> in_int64 now ->
  (exists q' ph, Ack id q = Some (q', ph) /\ acked id q q' ph) /\
  exists q' ph, Nack now id q = Some (q', ph) /\ nacked now id q q' ph /\
    (forall m, contents q !! id = Some m -> m_state m = stateInFlight -> forall b, ph = AwaitDurable b None ->
      exists m', contents q' !! id = Some m' /\ m_Attempts m' = int64 (m_Attempts m + 1) /\
        m_state m' = (if m_Attempts m' >=? c_MaxAttempts (ix_cfg (q_ix q)) then stateDead else stateReady)).
Proof. intros Hr Hnow. split; [by apply Ack_total|by apply Nack_total]. Qed.

(** C28: The timer. On a reachable queue that is open and has not failed, at a time within [int64], [tick] never panics and its expiry loop ends; unless the queue fails on the way, nothing that was due is left: no delayed message past its time, no lease past its deadline; the messages are those of the specification (promote, expire, and age exactly when the aging interval is set and has passed since the last aging, which is then now if there was anything to age); the dedup entries that have expired are purged exactly when the purge interval has passed; leases still running are kept even if it fails; and, provided no lease left ends at the zero time, which the code takes for "none", the time it sets the timer for is no later than the next visibility time, lease deadline, aging or dedup purge, so the timer never oversleeps. *)
Theorem tick_total now q :
  queue_reachable q -> in_int64 now -> checkLocked q = None ->
  exists q' tk, tick now q = Some (q', tk) /\
    (q_failed q' = None -> nothing_due now (qabs q') /\
      let s := spec_expire now (spec_promote now (qabs q)) in
      contents q' = sp_msgs (spec_aged now (q_lastAge q) s) /\ q_lastAge q' = aged_at now (q_lastAge q) s /\
      sp_dedup (qabs q') = spec_purged now (q_lastPurge q) (sp_dedup (qabs q))) /\
    keeps_leases now q q' /\
    ((forall id m, contents q' !! id = Some m -> m_state m = stateInFlight -> m_deadline m <> zeroTime) ->
      wakes_for (tk_next tk) q') /\
    (tk_shouldCompact tk = true -> q_failed q' = None).
Proof.
  intros (base & T & HQ)%queue_reachable_QInv Hnow Hc.
  destruct (tick_correct base T now q HQ Hnow) as (q' & tk & E & HQ' & Ht). rewrite Hc in Ht. exists q', tk.
  destruct Ht as (H1 & H2 & H3 & H4). split_and!; [done..| |done]. intros Hz. apply H3. intros id m Hm. split; [|by eapply Hz].
  intros _ Ev. pose proof (so_visible _ (qi_spec _ _ _ HQ') id m Hm) as Hv. rewrite Ev in Hv. unfold in_int64, zeroTime in Hv. lia.
Qed.

(** A crash that keeps only what is on disk. *)
Lemma ex_crash_here q : q_detached q = None -> crash q (d_synced (lg_disk (q_log q))).
Proof. unfold crash. intros ->. exists 0%nat. by rewrite take_0, app_nil_r. Qed.

(** ** A duplicate is acknowledged before the original is durable *)

(** C39: A reachable queue can answer an [Enqueue] with success and the id of the original as a duplicate, without waiting for anything, while the original is still in the log's buffer: a crash at that moment leaves a file that loads without error to a queue that has neither the message nor the dedup entry, so the message reported as stored is lost. *)
Theorem duplicate_before_durable :
  exists now rand8 payload dedupID q q' r img d' q'',
    queue_reachable q /\ enqueue_ok now rand8 payload 0 0 dedupID q /\
    Enqueue now rand8 payload 0 0 dedupID q = Some (q', Return (r, None)) /\
    er_Duplicate r = true /\ contents q' !! er_ID r <> None /\ crash q' img /\
    Load "jobs" ex_path (OpenOk (plainFile img)) (fun _ => now) noIO (mkDisk img []) now = Some (d', inl q'') /\
    contents q'' !! er_ID r = None /\ ix_dedup (q_ix q'') !! dedupID = None.
Proof.
  exists (ex_t0 + 2), (ex_id 2), (bytes_of_string "a"), "d1", ex_q1.
  eexists _, _, (d_synced (lg_disk (q_log ex_q1))), _, _.
  refine (conj ex_q1_reachable (conj _ (conj _ (conj _ (conj _ (conj _ (conj _ (conj _ _)))))))).
  - enqueue_ok_compute.
  - vm_compute. reflexivity.
  - reflexivity.
  - vm_compute. discriminate.
  - unfold crash. cbn [q_detached]. exists 0%nat. vm_compute. reflexivity.
  - vm_compute. reflexivity.
  - vm_compute. reflexivity.
  - vm_compute. reflexivity.
Qed.

(** ** Witnesses *)

Definition ex_img (q : Queue) : list byte := d_synced (lg_disk (q_log q)).
Lemma ex_crash q : q_detached q = None -> crash q (ex_img q).
Proof. apply ex_crash_here. Qed.
Lemma ex_clock (o : Z) : in_int64 77.
Proof. vm_compute. by split. Qed.

(** The message [ex_q4] has leased: the second, which has the higher priority. *)
Definition ex_leased_id : string := newID (ex_id 2).
Definition ex_leased : Message := default (wit_msg 0 "") (contents ex_q4 !! ex_leased_id).
Definition ex_first_id : string := newID (ex_id 1).

Lemma crash_recovers_witness :
  exists es q' d', Load "jobs" ex_path (OpenOk (plainFile (ex_img ex_q4))) (fun _ => 77) noIO
      (mkDisk (ex_img ex_q4) []) 77 = Some (d', inl q') /\
    es `prefix_of` (lg_hist (q_log ex_q4)).*2 /\ (1 < length es)%nat /\ queue_reachable q'.
Proof.
  destruct (crash_recovers ex_q4 (ex_img ex_q4) "jobs" ex_path (fun _ => 77) 77 ex_q4_reachable (ex_crash ex_q4 ltac:(vm_compute; reflexivity)) ex_clock)
    as (base & es & c & q' & d' & Hb & HL & _ & Hr & _ & _ & Hsv).
  destruct (Hsv ltac:(vm_compute; reflexivity)) as (_ & Hes & Hdur & _).
  assert (base = []) as ->.
  { assert (lg_base (q_log ex_q4) = []) as E by (vm_compute; reflexivity). rewrite E in Hb.
    destruct base as [|e base]; [done|]. apply (f_equal length) in Hb.
    rewrite encode_all_cons, length_app, length_encode_entry in Hb. simpl in Hb. unfold EncodedLen, HeaderSize in Hb. lia. }
  exists es, q', d'. split; [exact HL|]. split; [exact Hes|]. split; [|exact Hr].
  destruct (lg_hist (q_log ex_q4) !! 1%nat) as [e|] eqn:He; [|vm_compute in He; discriminate].
  apply (Hdur 2 1%nat e); [vm_compute; reflexivity|exact He|].
  vm_compute in He. injection He as <-. vm_compute. discriminate.
Defined.

(** The dedup entry of the first message, a while later, after a restart. *)
Lemma reload_agrees_witness :
  exists q' d', Load "jobs" ex_path (OpenOk (plainFile (ex_img ex_q2))) (fun _ => 77) noIO
      (mkDisk (ex_img ex_q2) []) 77 = Some (d', inl q') /\ same_durable (ex_t0 + 1) ex_q2 q' /\
    e_MessageID <$> duplicateOf (ex_t0 + 100) "d1" q' = Some ex_first_id.
Proof.
  destruct (reload_agrees (ex_t0 + 1) ex_q2 (ex_img ex_q2) "jobs" ex_path (fun _ => 77) 77 ex_q2_reachable_by)
    as (q' & d' & HL & Hs & Hd); [|exact ex_clock|right; vm_compute; auto|].
  - apply ex_crash. vm_compute. reflexivity.
  - exists q', d'. split; [exact HL|]. split; [exact Hs|]. rewrite (Hd (ex_t0 + 100) "d1" ltac:(vm_compute; discriminate)).
    vm_compute. reflexivity.
Defined.

Lemma acknowledged_enqueue_survives_witness :
  exists q' d' m, Load "jobs" ex_path (OpenOk (plainFile (ex_img ex_q2))) (fun _ => 77) noIO
      (mkDisk (ex_img ex_q2) []) 77 = Some (d', inl q') /\
    contents q' !! ex_first_id = Some m /\ m_Payload m = bytes_of_string "a" /\ m_DedupID m = "d1".
Proof.
  destruct (queue_run_background ex_q1 (ex_flush (q_log ex_q1))) as (ops & Hrun & Hops);
    [apply ex_flush_background; vm_compute; reflexivity|].
  destruct (acknowledged_enqueue_survives (ex_t0 + 1) (ex_id 1) (bytes_of_string "a") 0 0 "d1" ops ex_q0 ex_q1 ex_q2 2
    (mkEnqueueResult ex_first_id 1 (ex_t0 + 1) false) (ex_img ex_q2) "jobs" ex_path (fun _ => 77) 77)
    as (q' & d' & m & HL & Hm & Hp & _ & _ & Hd & _).
  - apply ex_q0_reachable.
  - apply ex_enqueue1_ok.
  - vm_compute. reflexivity.
  - exact Hrun.
  - intros Hin. rewrite Forall_forall in Hops. destruct (Hops _ Hin) as [? ?]. discriminate.
  - vm_compute. reflexivity.
  - apply ex_crash. vm_compute. reflexivity.
  - exact ex_clock.
  - exists q', d', m. split; [exact HL|]. split; [exact Hm|]. split; [exact Hp|exact Hd].
Defined.

Lemma acknowledged_ack_is_final_witness :
  exists q' d', Load "jobs" ex_path (OpenOk (plainFile (ex_img ex_q6))) (fun _ => 77) noIO
      (mkDisk (ex_img ex_q6) []) 77 = Some (d', inl q') /\ contents q' !! ex_leased_id = None.
Proof.
  destruct (queue_run_background ex_q5 (ex_flush (q_log ex_q5))) as (ops & Hrun & Hops);
    [apply ex_flush_background; vm_compute; reflexivity|].
  apply (acknowledged_ack_is_final ex_leased_id ops ex_q4 ex_q5 ex_q6 3).
  - apply ex_q4_reachable.
  - vm_compute. reflexivity.
  - exact Hrun.
  - rewrite Forall_forall in Hops |- *. intros op Hin (? & ? & ? & ? & ? & ? & -> & _). destruct (Hops _ Hin) as [? ?]. discriminate.
  - vm_compute. reflexivity.
  - apply ex_crash. vm_compute. reflexivity.
  - exact ex_clock.
Defined.

Lemma reachable_checkInvariants_witness :
  length (ix_ready (q_ix ex_q4)) = 1%nat /\ checkInvariants (q_ix ex_q4) = true.
Proof. split; [vm_compute; reflexivity|]. exact (reachable_checkInvariants ex_q4 ex_q4_reachable). Defined.

Lemma ex_leased_present : contents ex_q4 !! ex_leased_id = Some ex_leased.
Proof. vm_compute. reflexivity. Qed.

Lemma only_Ack_removes_witness :
  contents ex_q5 !! ex_leased_id = None /\ contents ex_q5 !! ex_first_id <> None.
Proof.
  split; [vm_compute; reflexivity|].
  apply (only_Ack_removes (OpAck ex_leased_id) ex_q4 ex_q5 ex_first_id).
  - apply ex_q4_reachable.
  - left. apply (qs_Ack ex_leased_id ex_q4 ex_q5 (AwaitDurable 3 None)). vm_compute. reflexivity.
  - vm_compute. discriminate.
  - vm_compute. discriminate.
Defined.

(** An id that is taken, and a delay beyond the range of the clock. *)
Lemma Enqueue_total_witness :
  exists q' ph, Enqueue (ex_t0 + 2) (ex_id 1) (bytes_of_string "b") 5 (2 ^ 63) "" ex_q2 = Some (q', ph) /\
    ph = Return (noResult, Some (EDuplicateMessageId (newID (ex_id 1)))) /\
    let m := newMessage (newID (ex_id 1)) "" (ix_nextSeq (q_ix ex_q2)) 5 (ex_t0 + 2) (2 ^ 63) (bytes_of_string "b") in
    (enqueued (ex_t0 + 2) m ex_q2 q' ph \/ used_id (ex_t0 + 2) m ex_q2 q' ph).
Proof.
  destruct (Enqueue_total (ex_t0 + 2) (ex_id 1) (bytes_of_string "b") 5 (2 ^ 63) "" ex_q2 ex_q2_reachable) as (q' & ph & E & Hout & _).
  exists q', ph. split; [exact E|]. split; [|exact Hout].
  assert (snd <$> Enqueue (ex_t0 + 2) (ex_id 1) (bytes_of_string "b") 5 (2 ^ 63) "" ex_q2
    = Some (Return (noResult, Some (EDuplicateMessageId (newID (ex_id 1)))))) as Hph by (vm_compute; reflexivity).
  rewrite E in Hph. injection Hph as ->. reflexivity.
Defined.

Lemma Dequeue_best_first_witness :
  exists q' out, Dequeue (ex_t0 + 3) 1 0 ex_q3 = Some (q', (out, None)) /\ length out = 1%nat /\
    (m_ID <$> out = [ex_leased_id]).
Proof.
  destruct (Dequeue_best_first (ex_t0 + 3) 1 0 ex_q3 ex_q3_reachable) as (q' & out & E & _ & Hh); [vm_compute; reflexivity|].
  exists q', out. split; [exact E|]. pose proof (ho_count _ _ _ _ _ Hh) as Hc. rewrite length_fmap in Hc.
  split; [rewrite Hc; vm_compute; reflexivity|]. vm_compute in E. injection E as _ <-. vm_compute. reflexivity.
Defined.

Lemma lease_exclusive_witness :
  exists q' out, Dequeue (ex_t0 + 4) 5 0 ex_q4 = Some (q', (out, None)) /\
    m_ID <$> out = [ex_first_id] /\ ex_leased_id ∉ m_ID <$> out ++ [] /\ contents q' !! ex_leased_id = Some ex_leased.
Proof.
  destruct (Dequeue (ex_t0 + 4) 5 0 ex_q4) as [[q' [out [e|]]]|] eqn:E; [vm_compute in E; discriminate| |vm_compute in E; discriminate].
  exists q', out. split; [reflexivity|]. split; [vm_compute in E; injection E as _ <-; vm_compute; reflexivity|].
  assert (outputs (OpDequeue (ex_t0 + 4) 5 0) ex_q4 = out) as <- by (cbn [outputs]; rewrite E; reflexivity).
  apply (lease_exclusive ex_leased_id ex_leased [OpDequeue (ex_t0 + 4) 5 0] ex_q4 _ q' ex_q4_reachable ex_leased_present).
  - vm_compute. reflexivity.
  - eapply dl_cons; [eapply qs_Dequeue; exact E|apply dl_nil].
  - apply Forall_singleton. exact I.
Defined.

Lemma settle_total_witness :
  (exists q' ph, Ack ex_leased_id ex_q4 = Some (q', ph) /\ acked ex_leased_id ex_q4 q' ph) /\
  exists q' ph, Nack (ex_t0 + 9) ex_leased_id ex_q4 = Some (q', ph) /\ nacked (ex_t0 + 9) ex_leased_id ex_q4 q' ph.
Proof.
  destruct (settle_total (ex_t0 + 9) ex_leased_id ex_q4 ex_q4_reachable ltac:(vm_compute; split; congruence)) as (HA & q' & ph & E & Hn & _).
  split; [exact HA|]. exists q', ph. split; [exact E|exact Hn].
Defined.

Lemma tick_total_witness :
  exists q' tk, tick (ex_t0 + 10) ex_q4 = Some (q', tk) /\ keeps_leases (ex_t0 + 10) ex_q4 q' /\
    nothing_due (ex_t0 + 10) (qabs q').
Proof.
  destruct (tick_total (ex_t0 + 10) ex_q4 ex_q4_reachable ltac:(vm_compute; split; congruence)) as (q' & tk & E & Hd & Hk & _); [vm_compute; reflexivity|].
  exists q', tk. split; [exact E|]. split; [exact Hk|].
  apply Hd. vm_compute in E. injection E as <- _. vm_compute. reflexivity.
Defined.
