(* ===== verification/TimerProps.v ===== *)
(** * The timer never loses a wake-up

    Whatever the queue's clients, its log and the clock do while the goroutine runs:
    when it waits, whatever is to happen next is what its timer is set for, or a
    token is in the channel, or a call that will send one has not returned. *)

From Stdlib Require Import ZArith Lia.
From stdpp Require Import relations.
From S2P Require Import Prelude GoInt Errors WalRecord Replay GoHeap Message Heaps Codec Index QueueSpec.
From S2P Require Import IndexInv IndexRefine Durable Log LogInv LogProps Queue Load QueueInv QueueOps QueueTick Recovery.
From S2P Require Import Writer Compact Snapshot CompactProps Json JsonProps Timer QueueTrace Sample QueueProps.

Implicit Types (q : Queue) (w : TimerAt) (y : Life) (now : Time).

(** ** What is to happen *)

(** The times of the events the timer is for. *)
Inductive pending q : Time -> Prop :=
  | pd_delayed id m : contents q !! id = Some m -> m_state m = stateDelayed -> pending q (m_VisibleAt m)
  | pd_leased id m : contents q !! id = Some m -> m_state m = stateInFlight -> pending q (m_deadline m)
  | pd_aging id m :
      contents q !! id = Some m -> m_state m = stateReady -> 0 < agingInterval (sp_cfg (qabs q)) ->
      pending q (Add (q_lastAge q) (agingInterval (sp_cfg (qabs q))))
  | pd_purge : sp_dedup (qabs q) <> ∅ -> pending q (Add (q_lastPurge q) dedupPurgeInterval).

Lemma wakes_for_pending next q : wakes_for next q -> forall u, pending q u -> no_later next u.
Proof. intros [H1 H2 H3 H4] u [id m Hm Hs|id m Hm Hs|id m Hm Hs Hiv|Hd]; eauto. Qed.

(** No lease ends at the zero time; deliveries and clocks are within [int64]. *)
Definition deadlines_ok q : Prop :=
  q_failed q = None -> forall id m, contents q !! id = Some m -> m_state m = stateInFlight -> m_deadline m <> zeroTime.

Lemma no_zero base T q : QInv base T q -> q_failed q = None -> deadlines_ok q -> no_zero_times q.
Proof.
  intros HQ Hf Hd id m Hm. split; [|exact (Hd Hf id m Hm)]. intros _ E.
  pose proof (so_visible _ (qi_spec _ _ _ HQ) id m Hm) as Hv. rewrite E in Hv. unfold in_int64, zeroTime in Hv. lia.
Qed.

(** When the goroutine will look again, at the latest: it is on its way to the
    timer with the time of the next event, or the timer is set, for then or for one
    millisecond after it was set. *)
Definition covers w q : Prop :=
  match w with
  | TmTick => True
  | TmDurable tk | TmCompact tk => forall u, pending q u -> no_later (tk_next tk) u
  | TmReset next => forall u, pending q u -> no_later next u
  | TmSelect set fires => forall u, pending q u -> u = zeroTime \/ fires <= Z.max u (set + Millisecond)
  | TmReturned => False
  end.

Record life_ok y : Prop := {
  lo_inv : exists base T, QInv base T (lf_q y);
  lo_deadlines : deadlines_ok (lf_q y);
  lo_now : in_int64 (lf_now y);
  lo_covered : checkLocked (lf_q y) = None -> lf_at y <> TmReturned /\
    (q_wake (lf_q y) = true \/ (0 < lf_owed y)%nat \/ covers (lf_at y) (lf_q y));
}.

(** A change after which there is nothing new to wake up for. *)
Record quiet q q' : Prop := {
  qt_open : checkLocked q' = None -> checkLocked q = None;
  qt_wake : q_wake q = true -> q_wake q' = true;
  qt_pending : checkLocked q' = None -> forall u, pending q' u -> pending q u;
}.

Lemma covers_quiet w q q' : quiet q q' -> checkLocked q' = None -> covers w q -> covers w q'.
Proof. intros [_ _ Hp] Hc H. destruct w; cbn [covers] in *; auto. Qed.

Lemma covered_quiet w n q q' :
  quiet q q' -> (checkLocked q = None -> w <> TmReturned /\ (q_wake q = true \/ (0 < n)%nat \/ covers w q)) ->
  checkLocked q' = None -> w <> TmReturned /\ (q_wake q' = true \/ (0 < n)%nat \/ covers w q').
Proof.
  intros Hq H Hc. destruct (H (qt_open _ _ Hq Hc)) as [Hr Hw]. split; [done|].
  destruct Hw as [Hw|[Hn|Hw]]; [left; by apply Hq|by right; left|right; right]. by eapply covers_quiet.
Qed.

(** The same events, by the same clocks. *)
Lemma quiet_same q q' :
  (checkLocked q' = None -> checkLocked q = None) -> (q_wake q = true -> q_wake q' = true) ->
  q_lastAge q' = q_lastAge q -> q_lastPurge q' = q_lastPurge q ->
  sp_cfg (qabs q') = sp_cfg (qabs q) -> sp_dedup (qabs q') = sp_dedup (qabs q) -> contents q' ⊆ contents q -> quiet q q'.
Proof.
  intros H1 H2 Ea Ep Ec Ed Hs. split; [done|done|]. intros _ u [id m Hm Hst|id m Hm Hst|id m Hm Hst Hiv|Hd].
  - eapply pd_delayed; [by eapply lookup_weaken|done].
  - eapply pd_leased; [by eapply lookup_weaken|done].
  - rewrite Ea, Ec in *. eapply pd_aging; [by eapply lookup_weaken|done..].
  - rewrite Ep. apply pd_purge. by rewrite <- Ed.
Qed.

Lemma deadlines_sub q q' :
  deadlines_ok q -> (q_failed q' = None -> q_failed q = None) -> contents q' ⊆ contents q -> deadlines_ok q'.
Proof. intros Hd Hf Hs Hf' id m Hm. apply (Hd (Hf Hf') id). by eapply lookup_weaken. Qed.

(** ** The clients' calls *)

Lemma lookup_unchanged (f : Message -> Message) (ms : gmap string Message) id m :
  (f <$> ms) !! id = Some m -> exists m0, ms !! id = Some m0 /\ m = f m0.
Proof. rewrite lookup_fmap, fmap_Some. eauto. Qed.

Lemma routed_not_leased cfg now m : m_state (routed cfg now m) <> stateInFlight.
Proof. unfold routed. by case_match. Qed.

(** An enqueued message is not leased. *)
Lemma Enqueue_deadlines now rand8 payload priority delay dedupID q q' ph base T :
  QInv base T q -> enqueue_ok now rand8 payload priority delay dedupID q ->
  Enqueue now rand8 payload priority delay dedupID q = Some (q', ph) -> deadlines_ok q ->
  deadlines_ok q' /\ match ph with Return _ => quiet q q' | AwaitDurable _ _ => checkLocked q = None end.
Proof.
  intros HQ Hok E Hd. destruct (Enqueue_correct base T now rand8 payload priority delay dedupID q HQ Hok) as (q1 & ph1 & E1 & _ & Hen).
  rewrite E in E1. injection E1 as <- <-. destruct Hen as [err Hc|e Hc _|err Hc _ _|q' batch Hc _ Hl Hs].
  - split; [done|]. by apply quiet_same.
  - split; [done|]. by apply quiet_same.
  - split; [by apply (deadlines_sub q)|]. by apply quiet_same.
  - split; [|done]. intros Hf id m. unfold spec_enqueue in Hs. destruct (contents q !! _); [done|].
    apply (f_equal fst) in Hs. cbn [fst] in Hs. rewrite <- Hs. cbn [sp_set sp_with sp_msgs spec_register].
    intros [[_ <-]|[_ Hm]]%lookup_insert_Some; [|apply (Hd (proj1 (checkLocked_None _ Hc)) id m Hm)].
    intros Hst. exfalso. revert Hst. rewrite decide_False by done. apply routed_not_leased.
Qed.

Lemma Nack_deadlines now id q q' ph base T :
  QInv base T q -> in_int64 now -> Nack now id q = Some (q', ph) -> deadlines_ok q ->
  deadlines_ok q' /\ match ph with Return _ => quiet q q' | AwaitDurable _ _ => checkLocked q = None end.
Proof.
  intros HQ Hnow E Hd. destruct (Nack_correct base T now id q HQ Hnow) as (q1 & ph1 & E1 & _ & Hn).
  rewrite E in E1. injection E1 as <- <-. destruct Hn as [err Hc|Hc _|st Hc _ _|err Hc _ _|m q' batch Hc Hm Hst Hl Hs].
  - split; [done|]. by apply quiet_same.
  - split; [done|]. by apply quiet_same.
  - split; [done|]. by apply quiet_same.
  - split; [by apply (deadlines_sub q)|]. by apply quiet_same.
  - split; [|done]. intros Hf id' m'. rewrite Hs. cbn [sp_set sp_with sp_msgs].
    intros [[_ <-]|[_ Hm']]%lookup_insert_Some; [|apply (Hd (proj1 (checkLocked_None _ Hc)) id' m' Hm')].
    intros Hst'. exfalso. by eapply attempted_not_leased.
Qed.

(** What the timer reads beside the index. *)
Definition clocks q : Time * Time * bool * bool := (q_lastAge q, q_lastPurge q, q_wake q, q_closed q).

Lemma logAppend_clocks t p q q1 r : logAppend t p q = (q1, r) -> clocks q1 = clocks q.
Proof. unfold logAppend. destruct (Append t p (q_log q)). by intros [= <- _]. Qed.

Lemma Ack_clocks id q q' ph : Ack id q = Some (q', ph) -> clocks q' = clocks q.
Proof.
  unfold Ack. destruct (checkLocked q); [by intros [= <- _]|]. destruct (ix_byID (q_ix q) !! id); [|by intros [= <- _]].
  intros (m & _ & E)%bind_Some. destruct (negb _ && negb _); [by injection E as <- _|].
  destruct (logAppend _ _ q) as [q1 [b|err]] eqn:HA; apply logAppend_clocks in HA; [|injection E as <- _; exact HA].
  apply bind_Some in E as ([ix [err|]] & _ & E); injection E as <- _; exact HA.
Qed.

(** [Ack] only takes messages away. *)
Lemma Ack_quiet id q q' ph base T :
  QInv base T q -> Ack id q = Some (q', ph) -> quiet q q' /\ contents q' ⊆ contents q /\ (q_failed q' = None -> q_failed q = None).
Proof.
  intros HQ E. pose proof (Ack_clocks _ _ _ _ E) as Hcl. unfold clocks in Hcl. injection Hcl as Ea Ep Ew Ecl.
  destruct (Ack_correct base T id q HQ) as (q1 & ph1 & E1 & _ & Ha). rewrite E in E1. injection E1 as <- <-.
  assert (sp_cfg (qabs q') = sp_cfg (qabs q) /\ sp_dedup (qabs q') = sp_dedup (qabs q) /\ contents q' ⊆ contents q /\
    (q_failed q' = None -> q_failed q = None)) as (Ec & Ed & Hs & Hf).
  { destruct Ha as [err Hc|Hc _|st Hc _ _|st err Hc _ _|st q' batch Hc _ _ _ ->]; [done..|].
    split_and!; [done|done|apply delete_subseteq|]. intros _. by destruct (checkLocked_None _ Hc). }
  split_and!; [|done|done]. apply quiet_same; try congruence; [|done]. unfold checkLocked. rewrite Ecl. destruct (q_closed q); auto.
Qed.

(** No lease ends at the zero time. *)
Definition leases_end (s : Spec) : Prop :=
  forall id m, sp_msgs s !! id = Some m -> m_state m = stateInFlight -> m_deadline m <> zeroTime.

Lemma leases_leases_end deadline n s out s' :
  leases deadline n s out s' -> deadline <> zeroTime -> leases_end s -> leases_end s'.
Proof.
  intros H Hz. induction H as [| |n s m out s' _ _ IH]; [done..|]. intros Hs. apply IH.
  intros id m'. cbn [sp_set sp_with sp_msgs]. intros [[_ <-]|[_ Hm]]%lookup_insert_Some; [done|by eapply Hs].
Qed.

Lemma promote_leases_end now s : leases_end s -> leases_end (spec_promote now s).
Proof.
  intros Hs id m (m0 & Hm0 & ->)%lookup_unchanged. unfold promoted. case_decide; [by intros ?%routed_not_leased|by eapply Hs].
Qed.

(** Nothing was leased: nothing was ready, or came due. *)
Lemma leases_none deadline n s s' :
  leases deadline (S n) s [] s' -> s' = s /\ forall id m, sp_msgs s !! id = Some m -> m_state m <> stateReady.
Proof. intros H. by inversion H. Qed.

Lemma promote_none now s :
  (forall id m, sp_msgs (spec_promote now s) !! id = Some m -> m_state m <> stateReady) -> spec_promote now s = s.
Proof.
  intros Hn. destruct s as [cfg ms dd sq]. unfold spec_promote, sp_with. cbn [sp_cfg sp_msgs sp_dedup sp_nextSeq] in *. f_equal.
  apply map_eq. intros id. specialize (Hn id). cbn [spec_promote sp_with sp_msgs sp_cfg] in Hn. rewrite lookup_fmap in *.
  destruct (ms !! id) as [m|]; [|done]. cbn [fmap option_fmap option_map] in *. f_equal. specialize (Hn _ eq_refl).
  unfold promoted, routed in *. destruct (decide (m_state m = stateDelayed)) as [E|]; [|done].
  destruct (After (m_VisibleAt m) now); [|by destruct Hn]. destruct m. cbn in E. by subst.
Qed.

Lemma visibilityTimeout_int64 cfg : in_int64 (visibilityTimeout cfg).
Proof. apply int64_range. Qed.

(** [Dequeue] sends a token if it leases anything, and changes nothing otherwise. *)
Lemma Dequeue_quiet now max visibility q q' out err base T :
  QInv base T q -> in_int64 now -> in_int64 visibility -> Dequeue now max visibility q = Some (q', (out, err)) ->
  deadlines_ok q -> (q_wake q' = true /\ checkLocked q = None \/ quiet q q') /\ deadlines_ok q'.
Proof.
  intros HQ Hnow Hvis E Hd. destruct (Dequeue_correct base T now max visibility q HQ) as (q1 & out1 & err1 & E1 & _ & _ & _ & Hl).
  rewrite E in E1. injection E1 as <- <- <-. unfold Dequeue in E. destruct (checkLocked q) as [err0|] eqn:Hc.
  { destruct Hl as [_ ->]. split; [right; by apply quiet_same|done]. }
  destruct (checkLocked_None _ Hc) as [Hf _]. apply bind_Some in E as (ix1 & _ & E). apply bind_Some in E as ([out2 ix2] & _ & E).
  injection E as E <- <-. split.
  - destruct out2 as [|m out2]; [right|left; by rewrite <- E]. cbn in E.
    destruct (Z.to_nat (if max <=? 0 then 1 else max)) as [|n] eqn:En; [destruct (Z.leb_spec max 0); lia|].
    destruct (leases_none _ _ _ _ Hl) as [Hs Hn]. rewrite (promote_none _ _ Hn) in Hs.
    apply quiet_same; rewrite ?Hs; subst q'; done.
  - intros _. apply (leases_leases_end _ _ _ _ _ Hl); [|apply promote_leases_end; exact (Hd Hf)].
    pose proof (visibilityTimeout_int64 (sp_cfg (qabs q))) as Hv. unfold in_int64, Add, zeroTime in *. case_match; lia.
Qed.

(** ** The log and the goroutine *)

Lemma waitDurable_quiet err q : quiet q (waitDurable err q).1 /\ contents (waitDurable err q).1 = contents q /\
  (q_failed (waitDurable err q).1 = None -> q_failed q = None) /\ (forall e, err = Some e -> checkLocked (waitDurable err q).1 <> None).
Proof.
  destruct err as [e|]; cbn [waitDurable fst]; [|split_and!; [by apply quiet_same|done..]].
  assert (forall q', q_failed q' <> None -> checkLocked q' <> None) as Hcl
    by (intros q'; unfold checkLocked; by destruct (q_closed q')).
  destruct (decide (q_failed q = None)) as [Hf|Hf].
  - assert (checkLocked (with_failed (Some e) q) <> None) as Hx by by apply Hcl. by split_and!.
  - split_and!; [by apply quiet_same|done..|intros _ _; by apply Hcl].
Qed.

Lemma compacted_quiet now syncErr io q q' r :
  compacted now syncErr io q q' r -> quiet q q' /\ contents q' = contents q /\ (q_failed q' = None -> q_failed q = None).
Proof.
  assert (forall q' : Queue, clocks q' = clocks q -> qabs q' = qabs q -> (q_failed q' = None -> q_failed q = None) ->
    quiet q q' /\ contents q' = contents q /\ (q_failed q' = None -> q_failed q = None)) as H.
  { intros q2 Hcl Ha Hf. injection Hcl as Ea Ep Ew Ecl. split_and!; [|by rewrite Ha|done].
    apply quiet_same; try congruence; [|by rewrite Ha]. unfold checkLocked. rewrite Ecl. destruct (q_closed q); auto. }
  intros Hc. destruct Hc; by apply H.
Qed.

(** The steps that owe nothing bring nothing new. *)
Lemma other_quiet op q q' base T :
  QInv base T q -> owes_nothing op -> queue_step op q q' ->
  quiet q q' /\ contents q' ⊆ contents q /\ (q_failed q' = None -> q_failed q = None).
Proof.
  intros HQ Ho Hs. destruct Hs as [| |id q q' ph E| | |now syncErr ids1 ids2 io q q' r Hm HS E|b err q Hw|q|n q|q|l' q Hb]; try done.
  - by eapply Ack_quiet.
  - destruct (QInv_keyed _ _ _ HQ) as [HK _].
    destruct (Compact_cases now syncErr ids1 ids2 io q (qi_index _ _ _ HQ) HK Hm) as (q1 & r1 & E' & Hcp).
    rewrite E in E'. injection E' as <- <-. destruct (compacted_quiet _ _ _ _ _ _ Hcp) as (? & -> & ?). by split_and!.
  - destruct (waitDurable_quiet err q) as (? & -> & ? & _). by split_and!.
  - split_and!; [by apply quiet_same|done..].
  - split_and!; [by apply quiet_same|done..].
Qed.

Lemma expire_leases_end now s : leases_end s -> leases_end (spec_expire now s).
Proof.
  intros Hs id m (m0 & Hm0 & ->)%lookup_unchanged. unfold expired. case_decide; [by intros ?%attempted_not_leased|by eapply Hs].
Qed.

Lemma age_leases_end now s : leases_end s -> leases_end (spec_age now s).
Proof.
  intros Hs id m (m0 & Hm0 & ->)%lookup_unchanged. unfold aged. case_decide as E; [cbn; congruence|by eapply Hs].
Qed.

(** After a tick, the time it returns is good for whatever is to happen. *)
Lemma tick_covers now q q' tk base T :
  QInv base T q -> in_int64 now -> tick now q = Some (q', tk) -> deadlines_ok q ->
  (exists base' T', QInv base' T' q') /\ deadlines_ok q' /\
  (checkLocked q' = None -> forall u, pending q' u -> no_later (tk_next tk) u).
Proof.
  intros HQ Hnow E Hd. destruct (tick_correct base T now q HQ Hnow) as (q1 & tk1 & E1 & HQ1 & Ht). rewrite E in E1. injection E1 as <- <-.
  split; [by eexists _, _|]. destruct (checkLocked q) as [err|] eqn:Hc.
  { destruct Ht as [-> ->]. split; [done|congruence]. }
  destruct Ht as (Hcont & _ & Hw & _). destruct (checkLocked_None _ Hc) as [Hf _].
  assert (deadlines_ok q') as Hd'.
  { intros Hf'. destruct (Hcont Hf') as (_ & Hm & _). cbv zeta in Hm. specialize (Hd Hf). change (leases_end (qabs q)) in Hd.
    assert (leases_end (spec_expire now (spec_promote now (qabs q)))) as Hs by (by apply expire_leases_end, promote_leases_end).
    assert (leases_end (spec_aged now (q_lastAge q) (spec_expire now (spec_promote now (qabs q))))) as Hs'
      by (unfold spec_aged; case_match; [by apply age_leases_end|done]).
    intros id m Hm'. rewrite Hm in Hm'. by eapply Hs'. }
  split; [done|]. intros Hc'. apply wakes_for_pending, Hw. eapply no_zero; [exact HQ1| |done]. by destruct (checkLocked_None _ Hc').
Qed.

(** The timer is set for the next event, or a millisecond from now. *)
Lemma timer_covers now next u :
  no_later next u -> u = zeroTime \/ Add now (timerDelay now next) <= Z.max u (now + Millisecond).
Proof.
  intros [->|[Hz Hle]]; [by left|right]. unfold timerDelay, IsZero. rewrite (proj2 (Z.eqb_neq _ _) Hz). cbn [negb]. cbv zeta.
  unfold Add, Sub. destruct (Z.ltb_spec (Z.max (- 2 ^ 63) (Z.min (2 ^ 63 - 1) (next - now))) Millisecond); [lia|].
  unfold Millisecond in *. lia.
Qed.

(** ** Every step *)

Lemma life_quiet q q' w w' n now :
  life_ok (mkLife q w n now) -> (exists base T, QInv base T q') -> quiet q q' -> contents q' ⊆ contents q ->
  (q_failed q' = None -> q_failed q = None) -> w' <> TmReturned \/ w' = w -> (covers w q -> covers w' q) -> life_ok (mkLife q' w' n now).
Proof.
  intros [_ Hd Hnow Hc] HQ Hq Hs Hf Hr Hw. cbn [lf_q lf_at lf_owed lf_now] in *.
  split; cbn [lf_q lf_at lf_owed lf_now]; [done|by eapply deadlines_sub|done|].
  eapply covered_quiet; [exact Hq|]. intros Hc0. destruct (Hc Hc0) as [Hr0 H]. split; [by destruct Hr as [?| ->]|].
  destruct H as [?|[?|?]]; auto.
Qed.

Lemma run_step_ok i now w q q' w' n :
  life_ok (mkLife q w n now) ->
  (compacts w = true -> map_orders (ti_liveOrder i) (ti_dedupOrder i) q /\
    (checkLocked q = None -> (Sync_turn (q_log q)).2 = Some (ti_syncErr i))) ->
  run_step i now w q = Some (q', w') -> life_ok (mkLife q' w' n now).
Proof.
  intros HL Hcp E. destruct (HL) as [(base & T & HQ) Hd Hnow Hc]. cbn [lf_q lf_at lf_owed lf_now] in *.
  assert (forall w', w' <> TmReturned -> (covers w q -> covers w' q) -> life_ok (mkLife q w' n now)) as Hsame.
  { intros w1 Hr1 Hw1. apply (or_introl (B := w1 = w)) in Hr1. eapply life_quiet; [exact HL|by eexists _, _|by apply quiet_same|done..]. }
  destruct w as [|tk|tk|next|set fires|]; cbn [run_step] in E; [| | | | |done].
  - apply bind_Some in E as ([q1 tk] & Et & [= <- <-]). destruct (tick_covers _ _ _ _ _ _ HQ Hnow Et Hd) as (HQ1 & Hd1 & Hw).
    split; cbn [lf_q lf_at lf_owed lf_now]; [done..|]. intros Hc1. split; [done|]. right; right. exact (Hw Hc1).
  - destruct (_ >? 0); [|injection E as <- <-; by apply Hsame]. apply bind_Some in E as (err & _ & [= <- <-]).
    destruct (waitDurable_quiet err q) as (Hq & Hs & Hf & _).
    eapply life_quiet; [exact HL|eexists _, _; by apply waitDurable_QInv|exact Hq|by rewrite Hs|exact Hf|by left|done].
  - cbn [compacts] in Hcp. destruct (tk_shouldCompact tk); [|injection E as <- <-; by apply Hsame].
    apply bind_Some in E as ([q1 r] & EC & [= <- <-]). destruct (Hcp eq_refl) as [Hm HS]. destruct (QInv_keyed _ _ _ HQ) as [HK _].
    destruct (Compact_cases now (ti_syncErr i) _ _ (ti_io i) q (qi_index _ _ _ HQ) HK Hm) as (q2 & r2 & E2 & Hcd).
    rewrite EC in E2. injection E2 as <- <-. destruct (compacted_quiet _ _ _ _ _ _ Hcd) as (Hq & Hs & Hf).
    destruct (Compact_QInv _ _ _ _ _ _ _ _ HQ HS Hcd) as (base' & HQ' & _).
    eapply life_quiet; [exact HL|by eexists _, _|exact Hq|by rewrite Hs|exact Hf|by left|done].
  - injection E as <- <-. apply Hsame; [done|]. cbn [covers]. intros H u Hu. by apply timer_covers, H.
  - destruct (ti_selected i).
    + destruct (q_wake q); [|done]. injection E as <- <-. split; cbn [lf_q lf_at lf_owed lf_now]; [|done|done|by split; [|right; right]].
      exists base, T. by apply (QInv_same base T q).
    + destruct (Before now fires); [done|]. injection E as <- <-. by apply Hsame.
    + destruct (q_closed q) eqn:Hcl; [|done]. injection E as <- <-. split; cbn [lf_q lf_at lf_owed lf_now]; [by eexists _, _|done..|].
      unfold checkLocked. by rewrite Hcl.
Qed.

Lemma life_step_ok y y' : life_step y y' -> life_ok y -> life_ok y'.
Proof.
  intros Hs HL. destruct (HL) as [(base & T & HQ) Hd Hnow Hc].
  destruct Hs as [q w n now now' Hle Hin|r8 payload pr delay dedup q q' ph w n now Hok E|id q q' ph w n now E|q w n now|b err q w n now HW
    |max vis q q' r w n now Hvis E|op q q' w n now Ho Hs|i q q' w w' n now Hcp E]; cbn [lf_q lf_at lf_owed lf_now] in *.
  - split; cbn [lf_q lf_at lf_owed lf_now]; [by eexists _, _|done..].
  - destruct (queue_step_QInv base T _ q q' (qs_Enqueue _ _ _ _ _ _ _ _ _ Hok E) HQ) as (base' & T' & _ & HQ' & _).
    destruct (Enqueue_deadlines _ _ _ _ _ _ _ _ _ _ _ HQ Hok E Hd) as [Hd' Hq].
    split; cbn [lf_q lf_at lf_owed lf_now]; [by eexists _, _|done..|]. destruct ph.
    + by apply (covered_quiet w n q q' Hq).
    + intros _. split; [by apply Hc|]. right; left. cbn. lia.
  - destruct (queue_step_QInv base T _ q q' (qs_Nack _ _ _ _ _ Hnow E) HQ) as (base' & T' & _ & HQ' & _).
    destruct (Nack_deadlines _ _ _ _ _ _ _ HQ Hnow E Hd) as [Hd' Hq].
    split; cbn [lf_q lf_at lf_owed lf_now]; [by eexists _, _|done..|]. destruct ph.
    + by apply (covered_quiet w n q q' Hq).
    + intros _. split; [by apply Hc|]. right; left. cbn. lia.
  - split; cbn [lf_q lf_at lf_owed lf_now]; [|done|done|]; [exists base, T; by apply QInv_signal|].
    intros Hc'. split; [by apply Hc|by left].
  - destruct (waitDurable_quiet (Some err) q) as (_ & Hs & Hf & Hcl).
    split; cbn [lf_q lf_at lf_owed lf_now]; [eexists _, _; by apply waitDurable_QInv| |done|].
    + by apply (deadlines_sub q); [..|rewrite Hs].
    + intros Hc'. by destruct (Hcl err eq_refl Hc').
  - destruct r as [out err]. destruct (queue_step_QInv base T _ q q' (qs_Dequeue _ _ _ _ _ _ E) HQ) as (base' & T' & _ & HQ' & _).
    destruct (Dequeue_quiet _ _ _ _ _ _ _ _ _ HQ Hnow Hvis E Hd) as [Hq Hd'].
    split; cbn [lf_q lf_at lf_owed lf_now]; [by eexists _, _|done..|]. destruct Hq as [[Hw Hc0]|Hq]; [|by apply (covered_quiet w n q q' Hq)].
    intros _. split; [by apply Hc|by left].
  - destruct (queue_step_QInv base T _ q q' Hs HQ) as (base' & T' & _ & HQ' & _). destruct (other_quiet _ _ _ _ _ HQ Ho Hs) as (Hq & Hsub & Hf).
    eapply life_quiet; [exact HL|by eexists _, _|done..|by right|done].
  - by eapply run_step_ok.
Qed.

Lemma starts_ok q now y : starts q now y -> life_ok y.
Proof.
  intros (Hr & Hidle & Hnow & ->). destruct (queue_reachable_QInv q Hr) as (base & T & HQ).
  split; cbn [lf_q lf_at lf_owed lf_now]; [by eexists _, _| |done|by split; [|right; right]]. intros _ id m Hm Hst. by destruct (Hidle id m Hm).
Qed.

(** C27: The timer never loses a wake-up. Start the goroutine of [run] on a queue as [Create] or [Load] leaves it and let anything happen: calls of [Enqueue], [Dequeue], [Ack], [Nack], [Compact] and [Close] from any number of clients, the steps of the log, waits that fail, the clock, and the goroutine's own steps, in any order. Whenever it waits in its [select] on an open queue with no token in the channel and no call of [Enqueue] or [Nack] between its first critical section and its [signal], then for every event that is to happen (a delayed message that becomes visible, a lease that ends, an aging, a dedup purge) the timer fires no later than that event, or one millisecond after it was set. So once that millisecond is over it can go on as soon as any of them is due, and the tick it then does leaves nothing due, or fails the queue. A token in the channel also lets it go on; and it only ends when the queue is closed. *)
Theorem timer_never_sleeps_through q0 t0 y0 y :
  starts q0 t0 y0 -> rtc life_step y0 y -> checkLocked (lf_q y) = None ->
  lf_at y <> TmReturned /\ no_zero_times (lf_q y) /\
  (forall set fires i, lf_at y = TmSelect set fires ->
    (q_wake (lf_q y) = true -> ti_selected i = Woken_ -> run_step i (lf_now y) (lf_at y) (lf_q y) = Some (with_wake false (lf_q y), TmTick)) /\
    (q_wake (lf_q y) = false -> lf_owed y = 0%nat -> forall u, pending (lf_q y) u -> u <> zeroTime ->
      fires <= Z.max u (set + Millisecond) /\
      (u <= lf_now y -> set + Millisecond <= lf_now y -> ti_selected i = Fired ->
        run_step i (lf_now y) (lf_at y) (lf_q y) = Some (lf_q y, TmTick)))) /\
  exists q' tk, tick (lf_now y) (lf_q y) = Some (q', tk) /\ (q_failed q' = None -> nothing_due (lf_now y) (qabs q')).
Proof.
  intros Hst Hrun Hc. assert (life_ok y) as HL.
  { apply starts_ok in Hst. clear -Hst Hrun. induction Hrun as [|y1 y2 y3 Hs _ IH]; [done|]. apply IH. by eapply life_step_ok. }
  destruct HL as [(base & T & HQ) Hd Hnow Hcov]. destruct (Hcov Hc) as [Hret Hw]. destruct (checkLocked_None _ Hc) as [Hf _].
  split_and!; [done|by eapply no_zero| |].
  - intros set fires i Hat. rewrite Hat in *. cbn [run_step]. split; [by intros -> ->|].
    intros Hwk Ho u Hu Hz. destruct Hw as [?|[?|Hw]]; [congruence|lia|]. destruct (Hw u Hu) as [?|Hle]; [done|]. split; [done|].
    intros Hdue Hset ->. unfold Before. by rewrite (proj2 (Z.ltb_ge _ _)) by lia.
  - destruct (tick_correct base T (lf_now y) (lf_q y) HQ Hnow) as (q' & tk & E & _ & Ht). rewrite Hc in Ht.
    exists q', tk. split; [done|]. intros Hf'. by apply Ht.
Qed.

(** ** Witness *)

Definition ex_timer_in (s : Selected) : TimerIn := mkTimerIn s None [] [] noCompactIO.
Definition ex_turn now (l : Queue * TimerAt) : Queue * TimerAt := default l (run_step (ex_timer_in Woken_) now l.2 l.1).

(** A turn of the goroutine that compacts nothing. *)
Lemma ex_turn_step now l n :
  compacts l.2 = false -> bool_decide (is_Some (run_step (ex_timer_in Woken_) now l.2 l.1)) = true ->
  life_step (mkLife l.1 l.2 n now) (mkLife (ex_turn now l).1 (ex_turn now l).2 n now).
Proof.
  intros Hc Hs%bool_decide_eq_true. unfold ex_turn. destruct Hs as [[q w] E]. rewrite E. eapply ls_run; [by rewrite Hc|exact E].
Qed.

(** From a tick to the [select]. *)
Definition ex_loop now (l : Queue * TimerAt) : Queue * TimerAt := ex_turn now (ex_turn now (ex_turn now (ex_turn now l))).

Lemma ex_loop_steps now l n :
  forallb (fun l => negb (compacts l.2) && bool_decide (is_Some (run_step (ex_timer_in Woken_) now l.2 l.1)))
    [l; ex_turn now l; ex_turn now (ex_turn now l); ex_turn now (ex_turn now (ex_turn now l))] = true ->
  rtc life_step (mkLife l.1 l.2 n now) (mkLife (ex_loop now l).1 (ex_loop now l).2 n now).
Proof.
  cbn [forallb]. intros H. repeat (apply andb_true_iff in H as [?%andb_true_iff H]).
  repeat match goal with H : _ /\ _ |- _ => destruct H as [?%negb_true_iff ?] end.
  repeat (eapply rtc_l; [by apply ex_turn_step|]). apply rtc_refl.
Qed.

(** A call arrives while the goroutine waits, and wakes it. *)
Lemma arrival_steps q1 q ph set fires now now' rand8 payload priority delay dedupID :
  now <= now' -> in_int64 now' -> enqueue_ok now' rand8 payload priority delay dedupID q1 ->
  Enqueue now' rand8 payload priority delay dedupID q1 = Some (q, ph) -> owed ph 0 = 1%nat ->
  rtc life_step (mkLife q1 (TmSelect set fires) 0 now) (mkLife (with_wake false (signal q)) TmTick 0 now').
Proof.
  intros Hle Hin Hok E Ho. eapply rtc_l; [by apply (ls_clock _ _ _ _ now')|].
  eapply rtc_l; [by eapply ls_Enqueue|]. rewrite Ho. eapply rtc_l; [apply ls_signal|].
  apply rtc_once, (ls_run (ex_timer_in Woken_)); [done|reflexivity].
Qed.

(** A message with a dedup id arrives at an idle queue. *)
Definition woken now (q : Queue) : Queue * TimerAt :=
  (match Enqueue now (ex_id 1) (bytes_of_string "a") 0 0 "d1" q with Some (q', _) => with_wake false (signal q') | None => q end, TmTick).

Lemma woken_steps q w now now' :
  match w with TmSelect _ _ => true | _ => false end = true -> now <= now' -> in_int64 now' ->
  enqueue_ok now' (ex_id 1) (bytes_of_string "a") 0 0 "d1" q ->
  (x ← Enqueue now' (ex_id 1) (bytes_of_string "a") 0 0 "d1" q; Some (owed x.2 0)) = Some 1%nat ->
  rtc life_step (mkLife q w 0 now) (mkLife (woken now' q).1 (woken now' q).2 0 now').
Proof.
  destruct w as [| | | |set fires|]; try done. intros _ Hle Hin Hok H. unfold woken.
  destruct (Enqueue now' (ex_id 1) (bytes_of_string "a") 0 0 "d1" q) as [[q' ph]|] eqn:E; [|discriminate H].
  cbn in H. injection H as H. cbn [fst snd]. by eapply arrival_steps.
Qed.

Definition ex_idle : Queue * TimerAt := ex_loop ex_t0 (ex_q0, TmTick).
Definition ex_woken : Queue * TimerAt := woken (ex_t0 + 1) ex_idle.1.
Definition ex_waiting : Queue * TimerAt := ex_loop (ex_t0 + 1) ex_woken.

Lemma ex_idle_enqueue_ok : enqueue_ok (ex_t0 + 1) (ex_id 1) (bytes_of_string "a") 0 0 "d1" ex_idle.1.
Proof. enqueue_ok_compute. Qed.

Lemma ex_idle_at : match ex_idle.2 with TmSelect _ _ => true | _ => false end = true.
Proof. vm_compute. reflexivity. Qed.

Lemma ex_idle_wakes :
  (x ← Enqueue (ex_t0 + 1) (ex_id 1) (bytes_of_string "a") 0 0 "d1" ex_idle.1; Some (owed x.2 0)) = Some 1%nat.
Proof. vm_compute. reflexivity. Qed.

Lemma ex_t0_later : ex_t0 <= ex_t0 + 1 /\ in_int64 (ex_t0 + 1).
Proof. vm_compute. repeat split; congruence. Qed.

Lemma ex_arrived_steps : rtc life_step (mkLife ex_idle.1 ex_idle.2 0 ex_t0) (mkLife ex_woken.1 ex_woken.2 0 (ex_t0 + 1)).
Proof.
  exact (woken_steps ex_idle.1 ex_idle.2 ex_t0 (ex_t0 + 1) ex_idle_at (proj1 ex_t0_later) (proj2 ex_t0_later) ex_idle_enqueue_ok ex_idle_wakes).
Qed.

Definition ex_life_start : Life := mkLife ex_q0 TmTick 0 ex_t0.
Definition ex_life_end : Life := mkLife ex_waiting.1 ex_waiting.2 0 (ex_t0 + 1).

Lemma ex_life : rtc life_step ex_life_start ex_life_end.
Proof.
  assert (rtc life_step (mkLife ex_q0 TmTick 0 ex_t0) (mkLife ex_idle.1 ex_idle.2 0 ex_t0)) as H1
    by (unfold ex_idle; apply (ex_loop_steps ex_t0 (ex_q0, TmTick) 0); vm_compute; reflexivity).
  assert (rtc life_step (mkLife ex_woken.1 ex_woken.2 0 (ex_t0 + 1)) (mkLife ex_waiting.1 ex_waiting.2 0 (ex_t0 + 1))) as H2
    by (unfold ex_waiting; apply (ex_loop_steps (ex_t0 + 1) ex_woken 0); vm_compute; reflexivity).
  etransitivity; [exact H1|]. etransitivity; [exact ex_arrived_steps|exact H2].
Qed.

Lemma ex_nothing_leased : map_to_list (sp_msgs (abs (q_ix ex_q0))) = [].
Proof. vm_compute. reflexivity. Qed.

Lemma ex_starts : starts ex_q0 ex_t0 ex_life_start.
Proof.
  split; [exact ex_q0_reachable|]. split; [|split; [vm_compute; split; congruence|reflexivity]].
  pose proof ex_nothing_leased as E. apply map_to_list_empty_iff in E. rewrite E. intros id m Hm. by rewrite lookup_empty in Hm.
Qed.

Lemma ex_life_open : checkLocked (lf_q ex_life_end) = None.
Proof. vm_compute. reflexivity. Qed.

Lemma ex_life_waits : exists fires, lf_at ex_life_end = TmSelect (ex_t0 + 1) fires.
Proof. vm_compute. eexists. reflexivity. Qed.

Lemma ex_life_no_token : q_wake (lf_q ex_life_end) = false.
Proof. vm_compute. reflexivity. Qed.

Lemma ex_life_purged : q_lastPurge (lf_q ex_life_end) = ex_t0.
Proof. vm_compute. reflexivity. Qed.

Lemma ex_life_dedup : Nat.eqb (length (map_to_list (sp_dedup (qabs (lf_q ex_life_end))))) 0 = false.
Proof. vm_compute. reflexivity. Qed.

Lemma ex_life_pending : pending (lf_q ex_life_end) (ex_t0 + dedupPurgeInterval).
Proof.
  pose proof ex_life_dedup as H. pose proof ex_life_purged as P. revert H P. generalize (lf_q ex_life_end) as q. generalize ex_t0 as t.
  intros t q H <-. apply pd_purge. intros E. rewrite E in H. discriminate H.
Qed.

(** The timer is set for the purge of its dedup id. *)
Lemma timer_never_sleeps_through_witness :
  exists fires, lf_at ex_life_end = TmSelect (ex_t0 + 1) fires /\ fires <= ex_t0 + dedupPurgeInterval.
Proof.
  destruct (timer_never_sleeps_through ex_q0 ex_t0 ex_life_start ex_life_end ex_starts ex_life ex_life_open) as (_ & _ & Hsel & _).
  destruct ex_life_waits as [fires E]. exists fires. split; [exact E|].
  destruct (Hsel (ex_t0 + 1) fires (ex_timer_in Fired) E) as [_ H].
  destruct (H ex_life_no_token eq_refl _ ex_life_pending ltac:(vm_compute; discriminate)) as [Hle _].
  unfold dedupPurgeInterval, Second, Millisecond in *. lia.
Defined.
