(* ===== verification/QueueCompact.v ===== *)
(** * Properties of compaction

    [Compact] over every reachable queue and every outcome of its system calls:
    the state a client sees does not change, a restart from any file it can leave
    behind loses nothing, and what it writes does not depend on the order Go
    iterates maps in. *)

From Stdlib Require Import ZArith Lia.
From S2P Require Import Prelude GoInt Errors WalRecord Replay GoHeap Message Heaps Codec Index QueueSpec.
From S2P Require Import IndexInv IndexRefine Durable Log LogInv LogProps Queue Load QueueInv QueueOps QueueTick Recovery.
From S2P Require Import Writer Compact Snapshot SnapshotProps CompactProps Json JsonProps QueueTrace Sample QueueProps.

Implicit Types (q : Queue) (now : Time).

(** What [Compact] is given beside the queue: keys of the maps in some order, and
    the result of a [Sync] that has returned. *)
Record compact_args (ids1 ids2 : list string) (syncErr : option Err) q : Prop := {
  ca_orders : map_orders ids1 ids2 q;
  ca_sync : checkLocked q = None -> (Sync_turn (q_log q)).2 = Some syncErr;
}.

Lemma same_durable_abs T q q1 q2 : qabs q1 = qabs q -> same_durable T q1 q2 -> same_durable T q q2.
Proof.
  intros E [H1 H2 H3 H4].
  split; [change (ix_cfg (q_ix q)) with (sp_cfg (qabs q))|change (ix_nextSeq (q_ix q)) with (sp_nextSeq (qabs q))| |
    intros k t Ht; change (ix_dedup (q_ix q)) with (sp_dedup (qabs q))]; rewrite <- E; [done|done|done|by apply H4].
Qed.

(** After a [Sync] that returned nil and a compaction, nothing is outstanding. *)
Lemma compacted_idle base T now io q q' r :
  QInv base T q -> checkLocked q = None -> (Sync_turn (q_log q)).2 = Some None ->
  compacted now None io q q' r -> q_detached q' <> None \/
    (lg_buf (q_log q') = [] /\ writing (lg_flusher (q_log q')) = None /\ lg_fatal (q_log q') = None).
Proof.
  intros HQ Hc HS Hcp. pose proof (qi_log _ _ _ HQ) as HL. destruct (li_parts _ HL) as (good & bad & wr & bf & HP).
  destruct (li_seq _ HL). destruct (Sync_turn_idle _ _ _ _ _ HP) as (Hnf & -> & -> & -> & Hw); [done..|].
  assert (lg_buf (q_log q) = []) as Hb by (by destruct (lp_bf _ _ _ _ _ HP) as [-> _]).
  destruct Hcp as [err Hc'|err _ E|err tmp _ _ _|es err _ _ _|es l err e _ _ _ HR|es l _ _ _ HR]; try done; auto.
  right. simpl. unfold Reopen in HR. repeat case_match; simplify_eq/=. done.
Qed.

(** The outcome, as the caller can see it. *)
Definition compact_outcome now (io : CompactIO) (q q' : Queue) (r : Compacted) : Prop :=
  (cp_tmp r = true -> co_Remove io <> None) /\
  match cp_err r with
  | Some _ => q' = q \/ q_failed q' <> None
  | None =>
      (exists es, snapshot_of now q es /\ lg_disk (q_log q') = mkDisk (encode_all es) [] /\
        lg_size (q_log q') = Z.of_nat (length (encode_all es))) /\
      q_failed q' = None /\ lg_hist (q_log q') = [] /\ q_compactFloor q' = 2 * lg_size (q_log q') /\
      n_Compactions (q_counters q') = uint64 (n_Compactions (q_counters q) + 1)
  end.

Lemma compacted_outcome now syncErr io q q' r : compacted now syncErr io q q' r -> compact_outcome now io q q' r.
Proof.
  intros [err Hc|err Hc _|err tmp Hc _ Ht|es err Hc _ _|es l err e Hc _ _ HR|es l Hc _ Hsn HR];
    split; simpl; auto.
  destruct (checkLocked_None _ Hc) as [Hf _]. unfold Reopen in HR. repeat case_match; simplify_eq/=.
  split_and!; [by exists es|done..].
Qed.

(** C14: Compaction is crash-safe and invisible. From every reachable queue whose log has let the [Sync] return, whatever that returned, whatever the clock reads, whichever order the maps are iterated in and whatever system call fails: [Compact] does not panic, and the messages, the dedup entries, the configuration and the next sequence number are as they were; an error leaves the queue as it was or makes it refuse all further work, and success leaves in the log's file, synced, exactly the records of the snapshot: the configuration with the next sequence number, every message in the order of the sequence numbers, and every open dedup entry whose message is gone; no temporary file stays unless removing it failed. Once its [Sync] has returned nil, every file the machine can have kept at the log's path, the old log or the new one, loads, while the clock reads times within [int64], to the durable state the queue had; from the compaction on, and from whatever [Enqueue], [tick] and [Compact] had read off the clock before, it suppresses the same duplicates. *)
Theorem Compact_safe T syncErr now ids1 ids2 io q :
  reachable_by T q -> compact_args ids1 ids2 syncErr q ->
  exists q' r, Compact syncErr now ids1 ids2 io q = Some (q', r) /\
    reachable_by (Z.max T now) q' /\ qabs q' = qabs q /\ compact_outcome now io q q' r /\
    (checkLocked q = None -> syncErr = None -> forall img name path clock t,
      crash q' img -> (forall o, in_int64 (clock o)) ->
      exists q'' d', Load name path (OpenOk (plainFile img)) clock noIO (mkDisk img []) t = Some (d', inl q'') /\
        same_durable (Z.max T now) q q'' /\
        forall u dedupID, Z.max T now <= u -> duplicateOf u dedupID q'' = duplicateOf u dedupID q).
Proof.
  intros HT [Ho HS]. destruct (reachable_by_QInv T q HT) as (base & HQ). destruct (QInv_keyed _ _ _ HQ) as [HK _].
  destruct (Compact_cases now syncErr ids1 ids2 io q (qi_index _ _ _ HQ) HK Ho) as (q' & r & E & Hcp).
  destruct (Compact_QInv base T now syncErr io q q' r HQ HS Hcp) as (base' & HQ' & Ha & _).
  assert (reachable_by (Z.max T now) q') as Hr'.
  { eapply rb_step; [eapply reachable_by_later; [|exact HT]; lia|by eapply qs_Compact|simpl; lia]. }
  exists q', r. split_and!; [done|done|done|by eapply compacted_outcome|].
  intros Hc -> img name path clock t Hcr Hclk.
  destruct (crash_same_durable base' _ q' img name path clock t (reachable_by_reachable _ _ Hr') HQ' Hcr Hclk) as (q'' & d' & HL & Hsd);
    [by eapply compacted_idle; [| |apply HS|]|].
  apply (same_durable_abs _ q) in Hsd; [|done]. exists q'', d'. split_and!; [done..|].
  intros u d. by apply (same_duplicates (Z.max T now)).
Qed.

(** The ENQUEUE records of the live messages, in whatever order they are met. *)
Lemma live_records_eq base T q ids live :
  QInv base T q -> ids ≡ₚ (map_to_list (ix_byID (q_ix q))).*1 -> liveMessages ids (q_ix q) = Some live ->
  enqueueEntry <$> live = enqueueEntry <$> spec_live (qabs q) /\ length live = length (spec_live (qabs q)).
Proof.
  intros HQ Hids E. destruct (QInv_keyed _ _ _ HQ) as [HK _].
  destruct (liveMessages_spec (q_ix q) ids (qi_index _ _ _ HQ) HK Hids) as (live' & E' & El).
  assert (live' = live) as -> by congruence. unfold qabs. rewrite <- El, length_fmap. split; [|done].
  rewrite <- list_fmap_compose. by apply list_fmap_ext.
Qed.

(** C15: Compaction is deterministic: the same state produces the same snapshot, byte for byte, and the same outcome, whatever order Go iterates the two maps in. *)
Theorem Compact_deterministic syncErr now ids1 ids2 ids1' ids2' io q :
  queue_reachable q -> map_orders ids1 ids2 q -> map_orders ids1' ids2' q ->
  Compact syncErr now ids1 ids2 io q = Compact syncErr now ids1' ids2' io q.
Proof.
  intros (base & T & HQ)%queue_reachable_QInv [H1 H2] [H1' H2']. destruct (QInv_keyed _ _ _ HQ) as [HK _].
  pose proof (qi_index _ _ _ HQ) as HI. unfold Compact. destruct (checkLocked q); [done|]. destruct syncErr; [done|].
  destruct (NewWriter _ _) as [w|]; [|done]. destruct (encodeConfig _) as [meta|]; [|done].
  destruct (writeAll _ 0 _ w) as [w1 [err|]]; [done|].
  destruct (liveMessages_spec (q_ix q) ids1 HI HK H1) as (live & E & _).
  destruct (liveMessages_spec (q_ix q) ids1' HI HK H1') as (live' & E' & _).
  destruct (live_records_eq _ _ _ _ _ HQ H1 E) as [Ee En]. destruct (live_records_eq _ _ _ _ _ HQ H1' E') as [Ee' En'].
  rewrite E, E'. simpl. rewrite Ee, Ee', En, En'.
  by rewrite (orphans_spec now _ ids2 HI HK H2), (orphans_spec now _ ids2' HI HK H2').
Qed.

(** ** Witnesses *)

(** The keys of the sample queue's maps, as they come. *)
Definition ex_ids1 (q : Queue) : list string := (map_to_list (ix_byID (q_ix q))).*1.
Definition ex_ids2 (q : Queue) : list string := (map_to_list (ix_dedup (q_ix q))).*1.

Lemma ex_orders q : map_orders (ex_ids1 q) (ex_ids2 q) q.
Proof. split; apply Permutation_refl. Qed.

Definition ex_q7 : Queue :=
  match Compact None (ex_t0 + 5) (ex_ids1 ex_q6) (ex_ids2 ex_q6) noCompactIO ex_q6 with Some (q, _) => q | None => ex_q6 end.

Lemma ex_q6_reachable_by : reachable_by (ex_t0 + 2) ex_q6.
Proof.
  apply reachable_by_background; [|apply ex_flush_background; vm_compute; reflexivity].
  apply (rb_step _ (OpAck (newID (ex_id 2))) ex_q4); [apply ex_q4_reachable_by| |exact I].
  apply (qs_Ack _ ex_q4 ex_q5 (AwaitDurable 3 None)). vm_compute. reflexivity.
Qed.

Lemma ex_q6_args : compact_args (ex_ids1 ex_q6) (ex_ids2 ex_q6) None ex_q6.
Proof. split; [apply ex_orders|]. intros _. vm_compute. reflexivity. Qed.

(** The compacted log is shorter, and a restart from it finds the message, and
    the dedup entry of the one that is still there. *)
Lemma Compact_safe_witness :
  (length (d_synced (lg_disk (q_log ex_q7))) < length (d_synced (lg_disk (q_log ex_q6))))%nat /\
  exists q'' d', Load "jobs" ex_path (OpenOk (plainFile (ex_img ex_q7))) (fun _ => 77) noIO
      (mkDisk (ex_img ex_q7) []) 77 = Some (d', inl q'') /\ same_durable (ex_t0 + 5) ex_q6 q'' /\
    e_MessageID <$> duplicateOf (ex_t0 + 100) "d1" q'' = Some ex_first_id.
Proof.
  split; [vm_compute; lia|].
  destruct (Compact_safe (ex_t0 + 2) None (ex_t0 + 5) (ex_ids1 ex_q6) (ex_ids2 ex_q6) noCompactIO ex_q6 ex_q6_reachable_by ex_q6_args)
    as (q' & r & E & _ & _ & _ & Hl).
  assert (q' = ex_q7) as -> by (unfold ex_q7; rewrite E; reflexivity).
  destruct (Hl ltac:(vm_compute; reflexivity) eq_refl (ex_img ex_q7) "jobs" ex_path (fun _ => 77) 77
    ltac:(apply ex_crash; vm_compute; reflexivity) ex_clock) as (q'' & d' & HL & Hs & Hd).
  exists q'', d'. split; [exact HL|]. split; [exact Hs|]. rewrite (Hd (ex_t0 + 100) "d1" ltac:(vm_compute; discriminate)).
  vm_compute. reflexivity.
Defined.

Lemma Compact_deterministic_witness :
  ex_ids1 ex_q4 <> reverse (ex_ids1 ex_q4) /\
  Compact None 0 (ex_ids1 ex_q4) (ex_ids2 ex_q4) noCompactIO ex_q4
  = Compact None 0 (reverse (ex_ids1 ex_q4)) (ex_ids2 ex_q4) noCompactIO ex_q4.
Proof.
  split; [vm_compute; discriminate|].
  apply (Compact_deterministic None 0 _ _ _ _ noCompactIO ex_q4 ex_q4_reachable); [apply ex_orders|].
  split; [unfold ex_ids1; apply reverse_Permutation|unfold ex_ids2; apply Permutation_refl].
Defined.
