(* ===== verification/Inspect.v ===== *)
(** * Inspection ([internal/queue/queue.go], [Stats] to [viewsOf])

    The read-only operations: they take the mutex, copy what they need and leave
    the queue as it was, so each is a function from the state to what it returns.
    A [nil] dereference is [None].  [clone] has no counterpart, because messages
    are values here. *)

From Stdlib Require Import ZArith Lia Floats.SpecFloat.
From stdpp Require Import sorting.
From S2P Require Import Prelude GoInt Errors Message Heaps Codec Index Log Queue Load Json.

(** ** What the standard library provides *)

(** [float64(n)] and division: binary64, rounded to nearest even. *)
Definition float64 (n : Z) : spec_float := binary_normalize 53 1024 n 0 false.
Definition float64_div (x y : spec_float) : spec_float := SFdiv 53 1024 x y.

(** [d.Milliseconds()] and [d.Microseconds()]. *)
Definition Milliseconds (d : Duration) : Z := Z.quot d (10 ^ 6).
Definition Microseconds (d : Duration) : Z := Z.quot d (10 ^ 3).

(** [sort.SliceStable(l, less)]: merging takes from the left when neither sorts
    first, so equal elements keep their order. *)
Definition notAfter {A} (less : A -> A -> bool) (x y : A) : Prop := less y x = false.
#[export] Instance notAfter_dec {A} (less : A -> A -> bool) x y : Decision (notAfter less x y) :=
  decide (less y x = false).
Definition SliceStable {A} (less : A -> A -> bool) (l : list A) : list A :=
  merge_sort (notAfter less) l.

(** ** Statistics *)

(** [type LogStats struct] *)
Record LogStats := mkLogStats {
  l_SizeBytes : Z;
  l_Records : Z;
  l_Fsyncs : Z;
  l_RecordsPerFsync : spec_float;
  l_LastBatch : Z;
  l_MaxBatch : Z;
  l_LastSyncUS : Z;
  l_AvgSyncUS : Z;
  l_PendingBytes : Z;
}.

(** [type Stats struct]; [s_Error] is the error whose text the field holds. *)
Record Stats := mkStats {
  s_Name : string;
  s_Ordering : Ordering;
  s_PriorityEnabled : bool;
  s_MaxAttempts : Z;
  s_AgingIntervalMS : Z;
  s_Ready : Z;
  s_Delayed : Z;
  s_InFlight : Z;
  s_DeadLettered : Z;
  s_Total : Z;
  s_OldestAgeMS : Z;
  s_NextSeq : Z;
  s_Counters : Counters;
  s_Log : LogStats;
  s_Healthy : bool;
  s_Error : option Err;
  s_Now : Time;
}.

(** The loop over [q.byID], in the order [ids] the map was iterated in. *)
Fixpoint oldest_loop (ids : list string) (ix : Index) (oldest : Time) : option Time :=
  match ids with
  | [] => Some oldest
  | id :: ids =>
    l ← ix_byID ix !! id;
    m ← ix_store ix !! l;
    if bool_decide (m_state m = stateDead) then oldest_loop ids ix oldest
    else if IsZero oldest || Before (m_CreatedAt m) oldest then oldest_loop ids ix (m_CreatedAt m)
    else oldest_loop ids ix oldest
  end.

Definition logStats (l : Log) : LogStats :=
  let '(ls, size, pending) := Log.Stats l in
  mkLogStats size (st_Records ls) (st_Batches ls)
    (if st_Batches ls >? 0 then float64_div (float64 (st_Records ls)) (float64 (st_Batches ls))
     else S754_zero false)
    (st_LastBatch ls) (st_MaxBatch ls) (Microseconds (st_LastSync ls))
    (if st_Batches ls >? 0 then Microseconds (quotDuration (st_TotalSync ls) (int64 (st_Batches ls))) else 0)
    pending.

(** [func (q *Queue) Stats() Stats] *)
Definition Queue_Stats (now : Time) (ids : list string) (q : Queue) : option Stats :=
  let ix := q_ix q in
  let cfg := ix_cfg ix in
  oldest ← oldest_loop ids ix zeroTime;
  Some (mkStats (c_Name cfg) (c_Ordering cfg) (c_PriorityEnabled cfg) (c_MaxAttempts cfg) (c_AgingIntervalMS cfg)
    (Z.of_nat (length (ix_ready ix))) (Z.of_nat (length (ix_delayed ix))) (Z.of_nat (length (ix_inflight ix)))
    (Z.of_nat (length (ix_dlq ix))) (Z.of_nat (size (ix_byID ix)))
    (if IsZero oldest then 0 else Milliseconds (Sub now oldest))
    (ix_nextSeq ix) (q_counters q) (logStats (q_log q))
    (bool_decide (q_failed q = None) && negb (q_closed q)) (q_failed q) now).

(** ** Views *)

(** [PayloadJSON]; [json.Marshal] of a string never fails. *)
Definition PayloadJSON (b : list byte) : list byte :=
  if (0 <? length b)%nat && Valid b then b else appendString b.

(** [type View struct] *)
Record View := mkView {
  v_ID : string;
  v_DedupID : string;
  v_Seq : Z;
  v_Priority : Z;
  v_EffPrio : Z;
  v_Attempts : Z;
  v_State : string;
  v_VisibleAt : Time;
  v_CreatedAt : Time;
  v_Deadline : Time;
  v_Payload : list byte;
}.

(** [func (m *Message) view() View] *)
Definition view (m : Message) : View :=
  mkView (m_ID m) (m_DedupID m) (m_Seq m) (m_Priority m) (m_effPriority m) (m_Attempts m)
    (state_String (m_state m)) (m_VisibleAt m) (m_CreatedAt m)
    (if bool_decide (m_state m = stateInFlight) then m_deadline m else zeroTime)
    (PayloadJSON (m_Payload m)).

Definition viewsOf (ms : list Message) (limit : Z) : list View :=
  view <$> (if Z.of_nat (length ms) >? limit then take (Z.to_nat limit) ms else ms).

(** The messages a slice of pointers points to. *)
Definition deref (ix : Index) (ls : list loc) : option (list Message) :=
  mapM (fun l => ix_store ix !! l) ls.

Definition bySeq (a b : Message) : bool := m_Seq a <? m_Seq b.
Definition byVisibleAt (a b : Message) : bool := Before (m_VisibleAt a) (m_VisibleAt b).
Definition byDeadline (a b : Message) : bool := Before (m_deadline a) (m_deadline b).

(** The map [Peek] returns, by its four keys. *)
Record Peeked := mkPeeked {
  pk_ready : list View;
  pk_delayed : list View;
  pk_in_flight : list View;
  pk_dlq : list View;
}.

(** [func (q *Queue) Peek(limit int) map[string][]View] *)
Definition Peek (limit : Z) (q : Queue) : option Peeked :=
  let limit := if limit <=? 0 then 25 else limit in
  let ix := q_ix q in
  ready ← deref ix (ix_ready ix);
  delayed ← deref ix (ix_delayed ix);
  inflight ← deref ix (ix_inflight ix);
  dead ← deref ix (ix_dlq ix);
  Some (mkPeeked (viewsOf (SliceStable (less (ix_cfg ix)) ready) limit)
          (viewsOf (SliceStable byVisibleAt delayed) limit)
          (viewsOf (SliceStable byDeadline inflight) limit)
          (viewsOf (SliceStable bySeq dead) limit)).

(** [func (q *Queue) DLQ(limit int) []View] *)
Definition DLQ (limit : Z) (q : Queue) : option (list View) :=
  let limit := if limit <=? 0 then 100 else limit in
  dead ← deref (q_ix q) (ix_dlq (q_ix q));
  Some (viewsOf (SliceStable bySeq dead) limit).

(** ** What is written is JSON *)

(** What [appendString] writes for an ASCII byte reads back as the byte. *)
Lemma escapeByte_reads x r :
  byteZ x < 128 ->
  parseString None 0 (escapeByte x ++ r) = '(s, rest) ← parseString None 0 r; Some (x :: s, rest).
Proof. intros Hx. destruct x; (exfalso; vm_compute in Hx; congruence) || reflexivity. Qed.

(** [decodeRune] reads no further than the rune. *)
Lemma decodeRune_prefix b r w :
  decodeRune b = Some (r, w) ->
  (0 < w <= length b)%nat /\ forall tl, decodeRune (take w b ++ tl) = Some (r, w).
Proof.
  unfold decodeRune. destruct b as [|x b]; [done|]. cbv zeta. intros H.
  destruct (byteZ x <? 128) eqn:E1; [injection H as <- <-; split; [simpl; lia|intros tl; simpl; by rewrite E1]|].
  destruct b as [|y b]; [done|].
  destruct (between 194 223 x && cont y) eqn:E2.
  { injection H as <- <-; split; [simpl; lia|intros tl; simpl; by rewrite E1, E2]. }
  destruct b as [|z b]; [done|]. set (s1 := if byteZ x =? 224 then _ else _) in *.
  destruct (between 224 239 x && s1 && cont z) eqn:E3.
  { injection H as <- <-; split; [simpl; lia|intros tl; simpl; fold s1; by rewrite E1, E2, E3]. }
  destruct b as [|v b]; [done|]. set (s2 := if byteZ x =? 240 then _ else _) in *.
  destruct (between 240 244 x && s2 && cont z && cont v) eqn:E4; [|done].
  injection H as <- <-. split; [simpl; lia|]. intros tl. cbn [take app]. fold s1 s2. by rewrite E1, E2, E3, E4.
Qed.

(** The bytes of a rune are copied. *)
Lemma appendString_copy k s :
  (k <= length s)%nat -> appendString_body true k s = take k s ++ appendString_body true 0 (drop k s).
Proof.
  revert s. induction k as [|k IH]; intros s Hk; [done|]. destruct s as [|x s]; [simpl in Hk; lia|].
  cbn [appendString_body take drop app]. simpl in Hk. by rewrite IH by lia.
Qed.

(** What a string becomes on its way through JSON: each byte that is no part of a
    valid encoding is replaced by U+FFFD.  [skip] counts the bytes of a rune. *)
Fixpoint toValid (skip : nat) (s : list byte) : list byte :=
  match s with
  | [] => []
  | x :: s' =>
    match skip with
    | S k => x :: toValid k s'
    | O =>
      if byteZ x <? 128 then x :: toValid 0 s'
      else match decodeRune s with
           | None => encodeRune 65533 ++ toValid 0 s'
           | Some (_, w) => x :: toValid (w - 1) s'
           end
    end
  end.

Lemma toValid_copy k s : (k <= length s)%nat -> toValid k s = take k s ++ toValid 0 (drop k s).
Proof.
  revert s. induction k as [|k IH]; intros s Hk; [done|]. destruct s as [|x s]; [simpl in Hk; lia|].
  cbn [toValid take drop app]. simpl in Hk. by rewrite IH by lia.
Qed.

(** The two line separators that are escaped have one encoding each. *)
Lemma decodeRune_separator b r w :
  decodeRune b = Some (r, w) -> r = 8232 \/ r = 8233 -> w = 3%nat /\ take w b = encodeRune r.
Proof.
  unfold decodeRune. destruct b as [|x b]; [done|]. cbv zeta. intros H Hr.
  destruct (Z.ltb_spec (byteZ x) 128); [injection H as <- <-; lia|].
  destruct b as [|y b]; [done|].
  destruct (between 194 223 x && cont y) eqn:E2.
  { injection H as <- <-. unfold between, cont in E2. bool_prop. lia. }
  destruct b as [|z b]; [done|]. set (s1 := if byteZ x =? 224 then _ else _) in *.
  destruct (between 224 239 x && s1 && cont z) eqn:E3.
  { injection H as Er <-. bool_prop. subst s1.
    assert (cont y = true) as Hy.
    { unfold between in *. unfold cont. destruct (byteZ x =? 224); [bool_prop; apply andb_true_intro; split; apply Z.leb_le; lia|].
      destruct (byteZ x =? 237); [bool_prop; apply andb_true_intro; split; apply Z.leb_le; lia|done]. }
    unfold between, cont in *. bool_prop. assert (byteZ x = 226 /\ byteZ y = 128 /\ byteZ z = r - 8064) as (Hx & Hy & Hz) by lia.
    split; [done|]. cbn [take]. rewrite <- (Zbyte_byteZ x), <- (Zbyte_byteZ y), <- (Zbyte_byteZ z), Hx, Hy, Hz.
    destruct Hr as [-> | ->]; reflexivity. }
  destruct b as [|v b]; [done|]. set (s2 := if byteZ x =? 240 then _ else _) in *.
  destruct (between 240 244 x && s2 && cont z && cont v) eqn:E4; [|done].
  injection H as Er <-. exfalso. unfold between, cont in *. bool_prop. destruct (Z.eqb_spec (byteZ x) 240); subst s2.
  - unfold between in *. bool_prop. lia.
  - destruct (byteZ x =? 244); unfold between, cont in *; bool_prop; lia.
Qed.

(** A byte of a rune that is skipped or copied, then the rest. *)
Lemma appendString_reads s copy skip rest :
  (skip <= length s)%nat ->
  parseString None (if copy : bool then skip else 0%nat) (appendString_body copy skip s ++ quote :: rest)
    = Some (if copy then toValid skip s else toValid 0 (drop skip s), rest).
Proof.
  revert copy skip. induction s as [|x s IH]; intros copy skip Hk.
  { assert (skip = 0%nat) as -> by (simpl in Hk; lia). by destruct copy. }
  destruct skip as [|k].
  - replace (if copy then 0%nat else 0%nat) with 0%nat by by destruct copy.
    replace (if copy then toValid 0 (x :: s) else toValid 0 (drop 0 (x :: s))) with (toValid 0 (x :: s)) by by destruct copy.
    cbn [appendString_body toValid]. destruct (Z.ltb_spec (byteZ x) 128) as [Hx|Hx].
    { pose proof (IH true 0%nat ltac:(lia)) as E. by rewrite <- app_assoc, escapeByte_reads, E by done. }
    destruct (decodeRune (x :: s)) as [[r w]|] eqn:Hd.
    + destruct (decodeRune_prefix _ _ _ Hd) as [Hw Hpre]. destruct w as [|w]; [lia|]. simpl in Hw.
      replace (S w - 1)%nat with w by lia. destruct ((r =? 8232) || (r =? 8233)) eqn:Hr.
      * pose proof (IH false w ltac:(lia)) as E. cbv iota in E.
        assert (r = 8232 \/ r = 8233) as Hsep
          by (apply orb_true_iff in Hr as [?%Z.eqb_eq|?%Z.eqb_eq]; lia).
        destruct (decodeRune_separator _ _ _ Hd Hsep) as [_ Ht]. cbn [take] in Ht. rewrite toValid_copy by lia.
        rewrite app_comm_cons, Ht. clear -E Hsep.
        destruct Hsep as [-> | ->]; rewrite <- !app_assoc; cbn -[appendString_body encodeRune toValid]; by rewrite E.
      * pose proof (IH true w ltac:(lia)) as E. cbv iota in E.
        cbn [app parseString]. rewrite (proj2 (Z.eqb_neq _ 34)), (proj2 (Z.eqb_neq _ 92)), (proj2 (Z.ltb_ge _ 32)),
          (proj2 (Z.ltb_ge _ 128)) by lia.
        specialize (Hpre (appendString_body true 0 (drop w s) ++ quote :: rest)). cbn [take app] in Hpre.
        rewrite appendString_copy, <- app_assoc in E |- * by lia. rewrite Hpre.
        replace (S w - 1)%nat with w by lia. by rewrite E.
    + pose proof (IH true 0%nat ltac:(lia)) as E. cbv iota in E.
      rewrite <- app_assoc. cbn -[appendString_body encodeRune toValid]. by rewrite E.
  - simpl in Hk. pose proof (IH copy k ltac:(lia)) as E. cbn [appendString_body]. destruct copy; cbn [app].
    + cbn [parseString toValid]. by rewrite E.
    + by rewrite E.
Qed.

Lemma Valid_appendString s : Valid (appendString s) = true.
Proof.
  pose proof (appendString_reads s true 0 [] ltac:(lia)) as E. cbv iota in E.
  unfold Valid, parseJSON, appendString. set (b := appendString_body true 0 s ++ [quote]) in *.
  replace (2 * length (quote :: b) + 2)%nat with (S (2 * length b + 3))%nat by (simpl; lia).
  cbn [parseValue skipSpace]. change (isSpace quote) with false. cbv iota.
  change (byteZ quote =? 34) with true. cbv iota. rewrite E. reflexivity.
Qed.
