(* ===== verification/Request.v ===== *)
(** * Request bodies ([decode], [decodeOptional] and the request types of
    [internal/api/server.go])

    What [json.NewDecoder(io.LimitReader(r.Body, ...)).Decode(&req)] with
    [DisallowUnknownFields] does: the first JSON value of the body is stored
    member by member; a raw field keeps the bytes of its value. *)

From Stdlib Require Import ZArith Lia.
From S2P Require Import Prelude GoInt Errors Message Index Load Json.

Definition MaxPayloadBytes : Z := Z.shiftl 256 10.

(** ** The decoder *)

(** How a member is stored: its value, and its bytes. *)
Definition Setter (S : Type) : Type := json -> list byte -> S -> S * option Err.

Definition setString {S} (set : string -> S -> S) : Setter S := fun v _ s =>
  match v with JStr b => (set (string_of_bytes b) s, None) | JNull => (s, None) | _ => (s, typeError) end.
Definition setBool {S} (set : bool -> S -> S) : Setter S := fun v _ s =>
  match v with JBool b => (set b s, None) | JNull => (s, None) | _ => (s, typeError) end.
(** [int] and [int64]. *)
Definition setInt {S} (set : Z -> S -> S) : Setter S := fun v _ s =>
  match v with
  | JNum l => match ParseInt l with Some z => (set z s, None) | None => (s, typeError) end
  | JNull => (s, None)
  | _ => (s, typeError)
  end.
(** [json.RawMessage]: any value, [null] included. *)
Definition setRaw {S} (set : list byte -> S -> S) : Setter S := fun _ raw s => (set raw s, None).

Section Decode.
Context {S : Type} (unknown : option Err) (fields : list (string * Setter S)).

Definition storeField (k : list byte) (v : json) (raw : list byte) (s : S) : S * option Err :=
  match find (fun f => bool_decide (foldName (bytes_of_string (fst f)) = foldName k)) fields with
  | Some (_, store) => store v raw s
  | None => (s, unknown)
  end.

(** Every member is stored; the first error is returned at the end. *)
Fixpoint storeFields (ms : list (list byte * json * list byte)) (s : S) : S * option Err :=
  match ms with
  | [] => (s, None)
  | (k, v, raw) :: ms =>
    let '(s, err) := storeField k v raw s in
    let '(s, err') := storeFields ms s in
    (s, match err with Some e => Some e | None => err' end)
  end.

(** The members of an object after its opening brace, each value with its bytes. *)
Fixpoint rawMembers (fuel : nat) (b : list byte) : option (list (list byte * json * list byte)) :=
  match fuel with
  | O => None
  | Datatypes.S fuel =>
    match skipSpace b with
    | q :: b1 =>
      if byteZ q =? 34 then
        '(k, b2) ← parseString None 0 b1;
        match skipSpace b2 with
        | c :: b3 =>
          if isCh c ":" then
            let b3 := skipSpace b3 in
            '(v, b4) ← parseValue (2 * length b3 + 2) (pred maxNestingDepth) b3;
            let raw := take (length b3 - length b4) b3 in
            match skipSpace b4 with
            | e :: b5 =>
              if isCh e "," then ms ← rawMembers fuel b5; Some ((k, v, raw) :: ms)
              else if isCh e "}" then Some [(k, v, raw)]
              else None
            | [] => None
            end
          else None
        | [] => None
        end
      else None
    | [] => None
    end
  end.

(** Why [Decode] failed. *)
Inductive DecodeErr := DecodeEOF | DecodeFailed (err : Err).

(** [dec.Decode(&s)] on a reader that yields [b] and then [readErr], or the end of
    the input; [unknown] is the error for a member no field has the name of. *)
Definition DecodeFrom (b : list byte) (readErr : option Err) (s : S) : S * option DecodeErr :=
  let fail := DecodeFailed (default (EJson "syntax error or unexpected EOF") readErr) in
  let stored (r : S * option Err) := (r.1, DecodeFailed <$> r.2) in
  match skipSpace b with
  | [] => (s, Some (match readErr with Some err => DecodeFailed err | None => DecodeEOF end))
  | x :: b' =>
    if isCh x "{" then
      match skipSpace b' with
      | [] => (s, Some fail)
      | y :: _ =>
        if isCh y "}" then (s, None)
        else
          match rawMembers (length b') b' with
          | Some ms => stored (storeFields ms s)
          | None => (s, Some fail)
          end
      end
    else
      match parseValue (2 * length (x :: b') + 2) maxNestingDepth (x :: b') with
      | None => (s, Some fail)
      | Some (JNull, _) => (s, None)
      | Some _ => (s, DecodeFailed <$> typeError)
      end
  end.
End Decode.

(** The server's decoder: unknown fields are refused, and [io.LimitReader] ends the
    body at its limit, whatever reading on would give. *)
Definition bodyLimit : nat := Z.to_nat (MaxPayloadBytes + 4096).
Definition Decode {S} (fields : list (string * Setter S)) (body : list byte) (readErr : option Err) (s : S)
    : S * option DecodeErr :=
  DecodeFrom (Some (EJson "unknown field")) fields (take bodyLimit body)
    (if (bodyLimit <=? length body)%nat then None else readErr) s.

(** ** The request types *)

Record createQueueRequest := mkCreateQueueRequest {
  cq_Name : string;
  cq_Ordering : string;
  cq_PriorityEnabled : bool;
  cq_MaxAttempts : Z;
  cq_DefaultVisibilityTimeoutMS : Z;
  cq_AgingIntervalMS : Z;
  cq_AgingMaxBoost : Z;
  cq_DedupWindowMS : Z;
}.

Definition zeroCreateQueue : createQueueRequest := mkCreateQueueRequest "" "" false 0 0 0 0 0.

(** The fields of the source, in its order and with its JSON names. *)
Definition createQueueFields : list (string * Setter createQueueRequest) := [
  ("name", setString (fun x r => mkCreateQueueRequest x (cq_Ordering r) (cq_PriorityEnabled r) (cq_MaxAttempts r)
     (cq_DefaultVisibilityTimeoutMS r) (cq_AgingIntervalMS r) (cq_AgingMaxBoost r) (cq_DedupWindowMS r)));
  ("ordering", setString (fun x r => mkCreateQueueRequest (cq_Name r) x (cq_PriorityEnabled r) (cq_MaxAttempts r)
     (cq_DefaultVisibilityTimeoutMS r) (cq_AgingIntervalMS r) (cq_AgingMaxBoost r) (cq_DedupWindowMS r)));
  ("priority_enabled", setBool (fun x r => mkCreateQueueRequest (cq_Name r) (cq_Ordering r) x (cq_MaxAttempts r)
     (cq_DefaultVisibilityTimeoutMS r) (cq_AgingIntervalMS r) (cq_AgingMaxBoost r) (cq_DedupWindowMS r)));
  ("max_attempts", setInt (fun x r => mkCreateQueueRequest (cq_Name r) (cq_Ordering r) (cq_PriorityEnabled r) x
     (cq_DefaultVisibilityTimeoutMS r) (cq_AgingIntervalMS r) (cq_AgingMaxBoost r) (cq_DedupWindowMS r)));
  ("default_visibility_timeout_ms", setInt (fun x r => mkCreateQueueRequest (cq_Name r) (cq_Ordering r)
     (cq_PriorityEnabled r) (cq_MaxAttempts r) x (cq_AgingIntervalMS r) (cq_AgingMaxBoost r) (cq_DedupWindowMS r)));
  ("aging_interval_ms", setInt (fun x r => mkCreateQueueRequest (cq_Name r) (cq_Ordering r) (cq_PriorityEnabled r)
     (cq_MaxAttempts r) (cq_DefaultVisibilityTimeoutMS r) x (cq_AgingMaxBoost r) (cq_DedupWindowMS r)));
  ("aging_max_boost", setInt (fun x r => mkCreateQueueRequest (cq_Name r) (cq_Ordering r) (cq_PriorityEnabled r)
     (cq_MaxAttempts r) (cq_DefaultVisibilityTimeoutMS r) (cq_AgingIntervalMS r) x (cq_DedupWindowMS r)));
  ("dedup_window_ms", setInt (fun x r => mkCreateQueueRequest (cq_Name r) (cq_Ordering r) (cq_PriorityEnabled r)
     (cq_MaxAttempts r) (cq_DefaultVisibilityTimeoutMS r) (cq_AgingIntervalMS r) (cq_AgingMaxBoost r) x))].

Record enqueueRequest := mkEnqueueRequest {
  eq_Payload : list byte;
  eq_Priority : Z;
  eq_DelayMS : Z;
  eq_DedupID : string;
}.

Definition zeroEnqueue : enqueueRequest := mkEnqueueRequest [] 0 0 "".

Definition enqueueFields : list (string * Setter enqueueRequest) := [
  ("payload", setRaw (fun x r => mkEnqueueRequest x (eq_Priority r) (eq_DelayMS r) (eq_DedupID r)));
  ("priority", setInt (fun x r => mkEnqueueRequest (eq_Payload r) x (eq_DelayMS r) (eq_DedupID r)));
  ("delay_ms", setInt (fun x r => mkEnqueueRequest (eq_Payload r) (eq_Priority r) x (eq_DedupID r)));
  ("dedup_id", setString (fun x r => mkEnqueueRequest (eq_Payload r) (eq_Priority r) (eq_DelayMS r) x))].

Record dequeueRequest := mkDequeueRequest {
  dq_MaxMessages : Z;
  dq_VisibilityTimeoutMS : Z;
}.

Definition zeroDequeue : dequeueRequest := mkDequeueRequest 0 0.

Definition dequeueFields : list (string * Setter dequeueRequest) := [
  ("max_messages", setInt (fun x r => mkDequeueRequest x (dq_VisibilityTimeoutMS r)));
  ("visibility_timeout_ms", setInt (fun x r => mkDequeueRequest (dq_MaxMessages r) x))].
