(* ===== verification/Manager.v ===== *)
(** * The queue manager ([internal/queue/manager.go])

    The queues of a data directory, by the name of their directories.  What the
    directory holds, what system calls and blocking calls return, the clock and
    the order a map is iterated in are arguments; [m.mu] makes each operation one
    step of the manager. *)

From Stdlib Require Import ZArith Lia.
From stdpp Require Import sorting.
From S2P Require Import Prelude GoInt Errors WalRecord Replay Message Heaps Codec Index Log Queue Load Json Inspect.

(** [type Manager struct] *)
Record Manager := mkManager {
  mg_root : string;
  mg_queues : gmap string Queue;
}.

Definition with_queues (qs : gmap string Queue) (m : Manager) : Manager := mkManager (mg_root m) qs.

(** An entry of the data directory, with what [Load] finds under it. *)
Record DirEntry := mkDirEntry {
  de_Name : string;
  de_IsDir : bool;
  de_Stat : option Err;          (* [os.Stat] of the log *)
  de_path : string;              (* [filepath.Join(root, name, logFileName)] *)
  de_view : Opened;
  de_disk : Disk;
  de_clock : Z -> Time;
  de_io : OpenIO;
  de_now : Time;
}.

(** ** Close *)

(** The first error, in the order [ids] the map was iterated in; [closeErr] is
    what each [q.Close()] returned. *)
Fixpoint firstErr (ids : list string) (closeErr : string -> option Err) : option Err :=
  match ids with
  | [] => None
  | id :: ids => match closeErr id with Some err => Some err | None => firstErr ids closeErr end
  end.

Definition Manager_Close (ids : list string) (closeErr : string -> option Err) (m : Manager) : Manager * option Err :=
  (with_queues ∅ m, firstErr ids closeErr).

(** ** OpenManager *)

Section Manager.
Context `{ConfigCodec}.

(** The loop over the directory's entries: the manager so far, and the error it
    stopped at. *)
Fixpoint openManager_loop (entries : list DirEntry) (m : Manager) : option (Manager * option Err) :=
  match entries with
  | [] => Some (m, None)
  | e :: entries =>
    if negb (de_IsDir e) then openManager_loop entries m
    else if negb (bool_decide (de_Stat e = None)) then openManager_loop entries m
    else
      '(_, r) ← Load (de_Name e) (de_path e) (de_view e) (de_clock e) (de_io e) (de_disk e) (de_now e);
      match r with
      | inr err =>
        if Is isErrIncompleteQueue err then openManager_loop entries m
        else Some (m, Some (ELoadingQueue (de_Name e) err))
      | inl q => openManager_loop entries (with_queues (<[de_Name e := q]> (mg_queues m)) m)
      end
  end.

(** [OpenManager(root)], over the results of [MkdirAll] and [ReadDir]; [ids] and
    [closeErr] are for the [Close] of a manager that is given up.  The manager as
    it is left: the caller gets it only if there is no error. *)
Definition OpenManager (root : string) (mkdirErr : option Err) (readDir : list DirEntry + Err)
    (ids : list string) (closeErr : string -> option Err) : option (Manager * option Err) :=
  let m := mkManager root ∅ in
  match mkdirErr with
  | Some err => Some (m, Some err)
  | None =>
    match readDir with
    | inr err => Some (m, Some err)
    | inl entries =>
      '(m, err) ← openManager_loop entries m;
      match err with
      | Some err => Some ((Manager_Close ids closeErr m).1, Some err)
      | None => Some (m, None)
      end
    end
  end.

(** ** Create *)

(** [m.Create(cfg)]: [path], [statErr], [view], [io] and [d] as in [Create];
    [await] is the log when its [Wait] returned, and what that returned. *)
Definition Manager_Create (path : string) (cfg : Config) (statErr : option Err) (view : Opened) (io : OpenIO)
    (d : Disk) (await : Log -> Z -> Log * option Err) (now : Time) (m : Manager) : option (Manager * (Queue + Err)) :=
  match Validate cfg with
  | (_, Some err) => Some (m, inr err)
  | (cfg, None) =>
    match mg_queues m !! c_Name cfg with
    | Some _ => Some (m, inr (ErrQueueExists (c_Name cfg)))
    | None =>
      '(_, r) ← Create path cfg statErr view io d;
      match r with
      | inr err => Some (m, inr err)
      | inl (ix, l, batch) =>
        let '(l, err) := await l batch in
        match Create_finish path ix l now err with
        | inr err => Some (m, inr err)
        | inl q => Some (with_queues (<[c_Name cfg := q]> (mg_queues m)) m, inl q)
        end
      end
    end
  end.
End Manager.

(** ** Get, List and Names *)

Definition Manager_Get (name : string) (m : Manager) : option Queue := mg_queues m !! name.

(** [sort.Slice] by name; Go's sort is not stable. *)
Definition name_le (s1 s2 : Stats) : Prop := String.le (s_Name s1) (s_Name s2).
#[export] Instance name_le_dec s1 s2 : Decision (name_le s1 s2) := decide (String.le (s_Name s1) (s_Name s2)).

(** Each [q.Stats()] has its own clock reading and its own map order. *)
Definition Manager_List (ids : list string) (now : string -> Time) (order : string -> list string) (m : Manager)
    : option (list Stats) :=
  out ← mapM (fun id => q ← mg_queues m !! id; Queue_Stats (now id) (order id) q) ids;
  Some (merge_sort name_le out).

Definition Manager_Names (ids : list string) (m : Manager) : list string := merge_sort String.le ids.
