(* ===== verification/Server.v ===== *)
(** * The HTTP interface ([internal/api/server.go])

    A request is handled in one step up to the wait for the disk, if there is one,
    and [serve_finish] is the rest; a response is its status and the value that is
    written as JSON.  [net/http] hands a handler the path's segments, the query
    and the body.  Clock readings, random bytes, map orders and the results of
    system and blocking calls are in [Env]. *)

From Stdlib Require Import ZArith Lia.
From S2P Require Import Prelude GoInt Errors WalRecord Replay Message Heaps Codec Index Log Queue Load Compact Json Inspect Request Manager.

(** ** Requests and responses *)

Record Req := mkReq {
  rq_Method : string;
  rq_Path : list string;             (* unescaped segments *)
  rq_Query : string -> string;       (* [r.URL.Query().Get] *)
  rq_Body : list byte;
  rq_ReadErr : option Err;           (* what reading the body fails with, after [rq_Body] *)
}.

(** [type leased struct] *)
Record leasedView := mkLeased {
  lv_ID : string;
  lv_Seq : Z;
  lv_Priority : Z;
  lv_Attempts : Z;
  lv_CreatedAt : Time;
  lv_Deadline : Time;
  lv_Payload : list byte;
}.

Inductive Value :=
  | VError (err : Err)
  | VStats (s : Stats)
  | VQueues (l : list Stats)
  | VEnqueued (r : EnqueueResult)
  | VMessages (l : list leasedView)
  | VViews (l : list View)
  | VPeek (p : Peeked)
  | VAcked (id : string)
  | VNacked (id : string)
  | VCompacted (before after : Z)
  | VHealthy (ok : bool) (queues : list string).

Record Response := mkResponse { rs_Status : Z; rs_Value : Value }.

Definition StatusOK : Z := 200.
Definition StatusCreated : Z := 201.
Definition StatusBadRequest : Z := 400.
Definition StatusNotFound : Z := 404.
Definition StatusMethodNotAllowed : Z := 405.
Definition StatusConflict : Z := 409.
Definition StatusRequestEntityTooLarge : Z := 413.
Definition StatusServiceUnavailable : Z := 503.

Definition writeError (status : Z) (err : Err) : Response := mkResponse status (VError err).

(** [writeQueueError] *)
Definition writeQueueError (err : Err) : Response :=
  if Is isErrNotFound err then writeError StatusNotFound err
  else if Is isErrNotInFlight err then writeError StatusConflict err
  else if Is isErrClosed err then writeError StatusServiceUnavailable err
  else writeError StatusServiceUnavailable err.

(** [decode] and [decodeOptional]: the request, or the response that refuses it. *)
Definition invalidBody (err : DecodeErr) : Response :=
  writeError StatusBadRequest (EWrapped "invalid JSON body" (match err with DecodeEOF => EJson "EOF" | DecodeFailed e => e end)).

Definition decode {S} (fields : list (string * Setter S)) (zero : S) (r : Req) : S + Response :=
  match Decode fields (rq_Body r) (rq_ReadErr r) zero with
  | (s, None) => inl s
  | (_, Some err) => inr (invalidBody err)
  end.

Definition decodeOptional {S} (fields : list (string * Setter S)) (zero : S) (r : Req) : S + Response :=
  match Decode fields (rq_Body r) (rq_ReadErr r) zero with
  | (s, None) | (s, Some DecodeEOF) => inl s
  | (_, Some err) => inr (invalidBody err)
  end.

(** [strconv.Atoi] *)
Definition Atoi (s : string) : option Z :=
  match bytes_of_string s with
  | (x :: b') as b => if isCh x "+" then (match b' with y :: _ => if isCh y "-" then None else ParseInt b' | [] => None end)
                    else ParseInt b
  | [] => None
  end.

Definition intParam (r : Req) (key : string) (def : Z) : Z :=
  let v := rq_Query r key in
  if bool_decide (v = "") then def
  else match Atoi v with Some n => if n >? 0 then n else def | None => def end.

(** ** The environment of one request *)

Record Env := mkEnv {
  ev_now : Time;                        (* [time.Now()] of the operation *)
  ev_statsNow : string -> Time;         (* and of each [Stats] *)
  ev_rand8 : list byte;
  ev_queues : list string;              (* the order [m.queues] is iterated in *)
  ev_byID : string -> list string;      (* and each queue's [byID] and [dedup] *)
  ev_dedup : list string;
  ev_path : string;                     (* for [Create] *)
  ev_statErr : option Err;
  ev_view : Opened;
  ev_openIO : OpenIO;
  ev_disk : Disk;
  ev_await : Log -> Z -> Log * option Err;
  ev_syncErr : option Err;              (* for [Compact] *)
  ev_compactIO : CompactIO;
}.

(** What the handler does after the wait for the disk. *)
Inductive Pending := PEnqueue (r : EnqueueResult) | PAck (id : string) | PNack (id : string).

Inductive Handled :=
  | Reply (resp : Response)
  | Await (name : string) (batch : Z) (p : Pending).

Definition enqueueResponse (r : EnqueueResult) (err : option Err) : Response :=
  match err with
  | Some err => writeQueueError err
  | None => mkResponse (if er_Duplicate r then StatusOK else StatusCreated) (VEnqueued r)
  end.
Definition ackResponse (id : string) (err : option Err) : Response :=
  match err with Some err => writeQueueError err | None => mkResponse StatusOK (VAcked id) end.
Definition nackResponse (id : string) (err : option Err) : Response :=
  match err with Some err => writeQueueError err | None => mkResponse StatusOK (VNacked id) end.

(** The second half of a handler, given what [Wait] returned. *)
Definition serve_finish (p : Pending) (err : option Err) (q : Queue) : Queue * Response :=
  match p with
  | PEnqueue r => let '(q, (r, err)) := Enqueue_finish r err q in (q, enqueueResponse r err)
  | PAck id => let '(q, err) := waitDurable err q in (q, ackResponse id err)
  | PNack id => let '(q, err) := Nack_finish err q in (q, nackResponse id err)
  end.

(** ** Handlers *)

Section Server.
Context `{ConfigCodec}.
Implicit Types (ev : Env) (r : Req) (m : Manager) (q : Queue) (name : string).

Definition set_queue name q m : Manager := with_queues (<[name := q]> (mg_queues m)) m.

(** [queueFor], then the rest of the handler. *)
Definition withQueue name m (k : Queue -> option (Queue * Handled)) : option (Manager * Handled) :=
  match Manager_Get name m with
  | None => Some (m, Reply (writeError StatusNotFound (EMsg ("no such queue " ++ name))))
  | Some q => '(q, h) ← k q; Some (set_queue name q m, h)
  end.

Definition createQueue ev r m : option (Manager * Handled) :=
  match decode createQueueFields zeroCreateQueue r with
  | inr resp => Some (m, Reply resp)
  | inl req =>
    let cfg := mkConfig (cq_Name req) (cq_Ordering req) (cq_PriorityEnabled req) (cq_MaxAttempts req)
                 (cq_DefaultVisibilityTimeoutMS req) (cq_AgingIntervalMS req) (cq_AgingMaxBoost req)
                 (cq_DedupWindowMS req) 0 in
    '(m, q) ← Manager_Create (ev_path ev) cfg (ev_statErr ev) (ev_view ev) (ev_openIO ev) (ev_disk ev)
                (ev_await ev) (ev_now ev) m;
    match q with
    | inr err =>
      Some (m, Reply (writeError (if Is isErrQueueExists err then StatusConflict else StatusBadRequest) err))
    | inl q =>
      s ← Queue_Stats (ev_statsNow ev (cq_Name req)) (ev_byID ev (cq_Name req)) q;
      Some (m, Reply (mkResponse StatusCreated (VStats s)))
    end
  end.

Definition listQueues ev m : option (Manager * Handled) :=
  l ← Manager_List (ev_queues ev) (ev_statsNow ev) (ev_byID ev) m;
  Some (m, Reply (mkResponse StatusOK (VQueues l))).

(** [enqueue] after [queueFor]. *)
Definition enqueue ev r name q : option (Queue * Handled) :=
  match decode enqueueFields zeroEnqueue r with
  | inr resp => Some (q, Reply resp)
  | inl req =>
    let n := Z.of_nat (length (eq_Payload req)) in
    if n =? 0 then Some (q, Reply (writeError StatusBadRequest (EMsg "payload is required")))
    else if n >? MaxPayloadBytes then
      Some (q, Reply (writeError StatusRequestEntityTooLarge (EMsg "payload is too large")))
    else if eq_DelayMS req <? 0 then
      Some (q, Reply (writeError StatusBadRequest (EMsg "delay_ms must be >= 0")))
    else if Z.of_nat (strlen (eq_DedupID req)) >? 256 then
      Some (q, Reply (writeError StatusBadRequest (EMsg "dedup_id must be at most 256 bytes")))
    else
      '(q, ph) ← Enqueue (ev_now ev) (ev_rand8 ev) (eq_Payload req) (eq_Priority req)
                   (mulDuration (eq_DelayMS req) Millisecond) (eq_DedupID req) q;
      match ph with
      | Return (res, err) => Some (q, Reply (enqueueResponse res err))
      | AwaitDurable batch (res, _) => Some (q, Await name batch (PEnqueue res))
      end
  end.

Definition leasedOf (msg : Message) : leasedView :=
  mkLeased (m_ID msg) (m_Seq msg) (m_Priority msg) (m_Attempts msg) (m_CreatedAt msg) (Deadline msg)
    (PayloadJSON (m_Payload msg)).

Definition dequeue ev r q : option (Queue * Handled) :=
  match decodeOptional dequeueFields zeroDequeue r with
  | inr resp => Some (q, Reply resp)
  | inl req =>
    let max := if dq_MaxMessages req <=? 0 then 1 else dq_MaxMessages req in
    let max := if max >? 1000 then 1000 else max in
    if dq_VisibilityTimeoutMS req <? 0 then
      Some (q, Reply (writeError StatusBadRequest (EMsg "visibility_timeout_ms must be >= 0")))
    else
      '(q, (msgs, err)) ← Dequeue (ev_now ev) max (mulDuration (dq_VisibilityTimeoutMS req) Millisecond) q;
      match err with
      | Some err => Some (q, Reply (writeQueueError err))
      | None => Some (q, Reply (mkResponse StatusOK (VMessages (leasedOf <$> msgs))))
      end
  end.

Definition ack name id q : option (Queue * Handled) :=
  '(q, ph) ← Ack id q;
  match ph with
  | Return err => Some (q, Reply (ackResponse id err))
  | AwaitDurable batch _ => Some (q, Await name batch (PAck id))
  end.

Definition nack ev name id q : option (Queue * Handled) :=
  '(q, ph) ← Nack (ev_now ev) id q;
  match ph with
  | Return err => Some (q, Reply (nackResponse id err))
  | AwaitDurable batch _ => Some (q, Await name batch (PNack id))
  end.

Definition stats ev name q : option (Queue * Handled) :=
  s ← Queue_Stats (ev_statsNow ev name) (ev_byID ev name) q;
  Some (q, Reply (mkResponse StatusOK (VStats s))).

Definition dlq r q : option (Queue * Handled) :=
  l ← DLQ (intParam r "limit" 100) q;
  Some (q, Reply (mkResponse StatusOK (VViews l))).

Definition peek r q : option (Queue * Handled) :=
  p ← Peek (intParam r "limit" 25) q;
  Some (q, Reply (mkResponse StatusOK (VPeek p))).

Definition compact ev name q : option (Queue * Handled) :=
  before ← Queue_Stats (ev_statsNow ev name) (ev_byID ev name) q;
  '(q, c) ← Compact (ev_syncErr ev) (ev_now ev) (ev_byID ev name) (ev_dedup ev) (ev_compactIO ev) q;
  match cp_err c with
  | Some err => Some (q, Reply (writeQueueError err))
  | None =>
    after ← Queue_Stats (ev_statsNow ev name) (ev_byID ev name) q;
    Some (q, Reply (mkResponse StatusOK (VCompacted (l_SizeBytes (s_Log before)) (l_SizeBytes (s_Log after)))))
  end.

Definition healthz ev m : option (Manager * Handled) :=
  l ← Manager_List (ev_queues ev) (ev_statsNow ev) (ev_byID ev) m;
  if forallb s_Healthy l then
    Some (m, Reply (mkResponse StatusOK (VHealthy true (Manager_Names (ev_queues ev) m))))
  else Some (m, Reply (mkResponse StatusServiceUnavailable (VHealthy false []))).

(** ** Routes *)

Inductive Route :=
  | RCreateQueue | RListQueues
  | REnqueue (name : string) | RDequeue (name : string)
  | RAck (name id : string) | RNack (name id : string)
  | RStats (name : string) | RDlq (name : string) | RPeek (name : string)
  | RCompact (name : string) | RHealthz.

(** The patterns; a [GET] pattern matches [HEAD] too. *)
Definition Routes (method : string) (path : list string) : option Route :=
  let post := bool_decide (method = "POST") in
  let get := bool_decide (method = "GET") || bool_decide (method = "HEAD") in
  match path with
  | [a] =>
    if bool_decide (a = "queues") then
      if post then Some RCreateQueue else if get then Some RListQueues else None
    else if bool_decide (a = "healthz") && get then Some RHealthz
    else None
  | [a; name; b] =>
    if negb (bool_decide (a = "queues")) then None
    else if bool_decide (b = "messages") && post then Some (REnqueue name)
    else if bool_decide (b = "dequeue") && post then Some (RDequeue name)
    else if bool_decide (b = "stats") && get then Some (RStats name)
    else if bool_decide (b = "dlq") && get then Some (RDlq name)
    else if bool_decide (b = "peek") && get then Some (RPeek name)
    else if bool_decide (b = "compact") && post then Some (RCompact name)
    else None
  | [a; name; b; id; c] =>
    if negb (bool_decide (a = "queues") && bool_decide (b = "messages") && post) then None
    else if bool_decide (c = "ack") then Some (RAck name id)
    else if bool_decide (c = "nack") then Some (RNack name id)
    else None
  | _ => None
  end.

(** What [ServeMux] answers to a request no pattern matches. *)
Definition noRoute r : Response :=
  match Routes "GET" (rq_Path r), Routes "POST" (rq_Path r) with
  | None, None => writeError StatusNotFound (EMsg "404 page not found")
  | _, _ => writeError StatusMethodNotAllowed (EMsg "Method Not Allowed")
  end.

Definition serve ev r m : option (Manager * Handled) :=
  match Routes (rq_Method r) (rq_Path r) with
  | None => Some (m, Reply (noRoute r))
  | Some RCreateQueue => createQueue ev r m
  | Some RListQueues => listQueues ev m
  | Some (REnqueue name) => withQueue name m (enqueue ev r name)
  | Some (RDequeue name) => withQueue name m (dequeue ev r)
  | Some (RAck name id) => withQueue name m (ack name id)
  | Some (RNack name id) => withQueue name m (nack ev name id)
  | Some (RStats name) => withQueue name m (stats ev name)
  | Some (RDlq name) => withQueue name m (dlq r)
  | Some (RPeek name) => withQueue name m (peek r)
  | Some (RCompact name) => withQueue name m (compact ev name)
  | Some RHealthz => healthz ev m
  end.
End Server.
