(* ===== verification/Main.v ===== *)
(** * The server command ([cmd/artie-queue/main.go])

    [runServe], [runVerify] and [runRepair] as functions to their exit codes,
    over what the file system holds and what each system call returns.  Flag
    parsing is left out: the flags' values are arguments. *)

From Stdlib Require Import ZArith Lia.
From S2P Require Import Prelude GoInt Errors WalRecord Replay Message Index Log Queue Load Json Inspect Manager.

(** ** Serve *)

(** What ends the [select]: [ListenAndServe] failed, or a signal came. *)
Inductive ServeEnd := ServerError (err : Err) | Signalled.

Definition runServe `{ConfigCodec} (dir : string) (mkdirErr : option Err) (readDir : list DirEntry + Err)
    (ev : ServeEnd) (ids : list string) (closeErr : string -> option Err) : option Z :=
  '(m, err) ← OpenManager dir mkdirErr readDir ids closeErr;
  match err with
  | Some err => Some (match asCorruption err with Some _ => 2 | None => 1 end)
  | None =>
    let '(m, err) := Manager_Close ids closeErr m in
    match ev with
    | ServerError _ => Some 1
    | Signalled => Some (match err with Some _ => 1 | None => 0 end)
    end
  end.

(** ** Verify *)

(** What is printed about one log. *)
Inductive VerifyLine :=
  | VFail (path : string) (err : Err)
  | VOk (path : string) (records validBytes : Z) (counts : list (RecType * Z)) (torn : option TornTail).

(** The callback: [counts[rec.Type]++]. *)
Definition verify_fn (rec : Record_) (counts : RecType -> Z) : (RecType -> Z) * option Err :=
  (fun t => if decide (t = r_Type rec) then counts t + 1 else counts t, None).

(** The counts printed: those that are not zero, in this order. *)
Definition verify_counts (counts : RecType -> Z) : list (RecType * Z) :=
  filter (fun c => 0 < c.2)
    ((fun t => (t, counts t)) <$> [TypeMeta; TypeEnqueue; TypeAck; TypeNack; TypeLeaseExpire; TypeDedup]).

(** The loop: the lines, and [found] and [bad]. *)
Fixpoint verify_loop (entries : list DirEntry) (found bad : Z) : option (list VerifyLine * Z * Z) :=
  match entries with
  | [] => Some ([], found, bad)
  | e :: entries =>
    if negb (de_IsDir e) then verify_loop entries found bad
    else if negb (bool_decide (de_Stat e = None)) then verify_loop entries found bad
    else
      let found := found + 1 in
      '(res, err, counts) ← Replay (de_path e) verify_fn (de_view e) (fun _ => 0);
      match err with
      | Some err =>
        '(lines, found, bad) ← verify_loop entries found (bad + 1);
        Some (VFail (de_path e) err :: lines, found, bad)
      | None =>
        '(lines, found, bad) ← verify_loop entries found bad;
        Some (VOk (de_path e) (Records res) (ValidBytes res) (verify_counts counts) (Torn res) :: lines, found, bad)
      end
  end.

(** What is printed, how many logs were found, and the exit code. *)
Definition runVerify (readDir : list DirEntry + Err) : option (list VerifyLine * Z * Z) :=
  match readDir with
  | inr _ => Some ([], 0, 1)
  | inl entries =>
    '(lines, found, bad) ← verify_loop entries 0 0;
    Some (lines, found, if bad >? 0 then 2 else 0)
  end.

(** ** Repair *)

(** The files, by path. *)
Notation Files := (gmap string (list byte)) (only parsing).

Definition EExist : Err := EIO "file exists".
Definition ENotExist : Err := EIO "no such file or directory".

(** What each system call returned; [io.Copy] may stop after some bytes. *)
Record RepairIO := mkRepairIO {
  ri_Stat : option Err;
  ri_Open : option Err;
  ri_Create : option Err;
  ri_Copy : option (nat * Err);
  ri_CopySync : option Err;
  ri_CopyClose : option Err;
  ri_OpenFile : option Err;
  ri_Truncate : option Err;
  ri_Sync : option Err;
}.

Definition noRepairIO : RepairIO := mkRepairIO None None None None None None None None None.

(** [copyFile(src, dst)]; [O_EXCL] refuses a file that is there. *)
Definition copyFile (src dst : string) (io : RepairIO) (fs : Files) : Files * option Err :=
  match ri_Open io with
  | Some err => (fs, Some err)
  | None =>
    match fs !! src with
    | None => (fs, Some ENotExist)
    | Some data =>
      match ri_Create io with
      | Some err => (fs, Some err)
      | None =>
        match fs !! dst with
        | Some _ => (fs, Some EExist)
        | None =>
          match ri_Copy io with
          | Some (n, err) => (<[dst := take n data]> fs, Some err)
          | None =>
            let fs := <[dst := data]> fs in
            match ri_CopySync io with
            | Some err => (fs, Some err)
            | None => (fs, ri_CopyClose io)
            end
          end
        end
      end
    end
  end.

(** [fmt.Sprintf("%s.bak.%d", path, time.Now().UnixNano())] *)
Definition backupName (path : string) (now : Time) : string :=
  (path +:+ ".bak." +:+ string_of_bytes (appendInt (UnixNano now)))%string.

(** [runRepair] with its flags [name] and [at_]; [path] is
    [filepath.Join(dir, name, "wal.log")]. *)
Definition runRepair (path name : string) (at_ : Z) (now : Time) (io : RepairIO) (fs : Files) : Files * Z :=
  if bool_decide (name = "") || (at_ <? 0) then (fs, 1)
  else
    match ri_Stat io, fs !! path with
    | Some _, _ | None, None => (fs, 1)
    | None, Some data =>
      if at_ >? Z.of_nat (length data) then (fs, 1)
      else
        match copyFile path (backupName path now) io fs with
        | (fs, Some _) => (fs, 1)
        | (fs, None) =>
          match ri_OpenFile io with
          | Some _ => (fs, 1)
          | None =>
            match ri_Truncate io with
            | Some _ => (fs, 1)
            | None =>
              let fs := <[path := truncate (Z.to_nat at_) data]> fs in
              match ri_Sync io with
              | Some _ => (fs, 1)
              | None => (fs, 0)
              end
            end
          end
        end
    end.
