(* ===== verification/InspectProps.v ===== *)
(** * Properties of inspection

    What [Stats], [Peek] and [DLQ] report of a reachable queue: the counts add up,
    the age does not depend on the order a map is iterated in, the ready list is
    in the order [Dequeue] hands messages out, and every payload is valid JSON. *)

From Stdlib Require Import ZArith Lia Sorting.Sorted.
From stdpp Require Import sorting.
From S2P Require Import Prelude GoInt Errors WalRecord Replay GoHeap Message Heaps Codec Index QueueSpec.
From S2P Require Import IndexInv IndexRefine IndexProps Durable Log LogInv LogProps Queue Load QueueInv QueueOps QueueTick Recovery.
From S2P Require Import Writer Compact Snapshot SnapshotProps CompactProps Json JsonProps QueueTrace Sample QueueProps QueueCompact Inspect.

Implicit Types (q : Queue) (now : Time).

(** ** Sorting *)

Section SliceStable.
Context (lt : Message -> Message -> bool) (Hsw : strict_weak lt).

#[local] Instance notAfter_total : Total (notAfter lt).
Proof using Hsw.
  intros x y. unfold notAfter. destruct (lt y x) eqn:E; [right|by left]. by apply (sw_asym _ Hsw).
Qed.

#[local] Instance notAfter_trans : Transitive (notAfter lt).
Proof using Hsw. intros x y z H1 H2. exact (sw_negtrans _ Hsw _ _ _ H2 H1). Qed.

Lemma SliceStable_sorted l : StronglySorted (notAfter lt) (SliceStable lt l).
Proof using Hsw. apply StronglySorted_merge_sort; apply _. Qed.
End SliceStable.

Lemma SliceStable_Permutation {A} (lt : A -> A -> bool) l : SliceStable lt l ≡ₚ l.
Proof. apply merge_sort_Permutation. Qed.

(** Sorting by one integer field. *)
Lemma key_strict_weak (key : Message -> Z) : strict_weak (fun a b => key a <? key b).
Proof. split; intros *; rewrite ?Z.ltb_lt, ?Z.ltb_ge; lia. Qed.

Lemma less_strict_weak cfg : strict_weak (less cfg).
Proof. split; [apply less_asym|apply less_negtrans]. Qed.

(** ** The messages of a structure *)

(** The messages in state [t], in some order. *)
Definition state_msgs (t : state) (s : Spec) : list Message := (map_to_list (in_state t s)).*2.

Lemma elem_of_state_msgs t s m :
  filed s -> m ∈ state_msgs t s <-> sp_msgs s !! m_ID m = Some m /\ m_state m = t.
Proof.
  intros Hf. unfold state_msgs. rewrite list_elem_of_fmap. split.
  - intros ([id m'] & -> & [Hm Ht]%elem_of_map_to_list%in_state_lookup). simpl. by rewrite (Hf id m').
  - intros [Hm Ht]. exists (m_ID m, m). split; [done|]. by apply elem_of_map_to_list, in_state_lookup.
Qed.

Lemma NoDup_state_ids t s : filed s -> NoDup (m_ID <$> state_msgs t s).
Proof.
  intros Hf. unfold state_msgs.
  assert (m_ID <$> (map_to_list (in_state t s)).*2 = (map_to_list (in_state t s)).*1) as ->; [|apply NoDup_fst_map_to_list].
  rewrite <- list_fmap_compose. apply list_fmap_ext. intros i [id m] Hi%list_elem_of_lookup_2.
  apply elem_of_map_to_list, in_state_lookup in Hi as [Hm _]. by apply Hf.
Qed.

Lemma deref_owned ix t its :
  Inv ix -> NoDup its -> (forall l, l ∈ its <-> owned l t ix) ->
  exists ms, deref ix its = Some ms /\ erase <$> ms ≡ₚ state_msgs t (abs ix).
Proof.
  intros HI Hnd Hits. assert (is_Some (deref ix its)) as [ms Hms].
  { apply mapM_is_Some_2, Forall_forall. intros l (m & Hm & _)%Hits. eauto. }
  exists ms. split; [done|]. apply mapM_Some in Hms.
  pose proof (abs_filed _ HI) as Hf.
  assert (forall m, m ∈ erase <$> ms <-> m ∈ state_msgs t (abs ix)) as Helem.
  { intros m. rewrite (elem_of_state_msgs _ _ _ Hf), list_elem_of_fmap. split.
    - intros (m0 & -> & [i Hi]%list_elem_of_lookup_1).
      destruct (Forall2_lookup_r _ _ _ _ _ Hms Hi) as (l & Hl & Hm). simpl in Hm.
      apply list_elem_of_lookup_2, Hits in Hl as (m1 & Hm1 & Ht & Hid).
      assert (m1 = m0) as -> by congruence. split; [|done]. apply msgs_lookup. by exists l, m0.
    - intros [(l & m0 & Hl & Hm0 & E)%msgs_lookup Ht]. exists m0. split; [done|].
      assert (l ∈ its) as [i Hi]%list_elem_of_lookup_1 by (apply Hits; exists m0; by subst).
      destruct (Forall2_lookup_l _ _ _ _ _ Hms Hi) as (m1 & Hm1 & Hl1). simpl in Hl1.
      assert (m1 = m0) as -> by congruence. by eapply list_elem_of_lookup_2. }
  apply NoDup_Permutation; [|eapply NoDup_fmap_1, NoDup_state_ids, Hf|done].
  apply (NoDup_fmap_1 m_ID). rewrite <- list_fmap_compose. clear Helem.
  assert (Forall (fun l => owned l t ix) its) as Hown by (apply Forall_forall; intros l; apply Hits).
  clear Hits. induction Hms as [|l m its ms Hm Hms IH]; [constructor|]. apply NoDup_cons in Hnd as [Hl Hnd].
  apply Forall_cons in Hown as [(m1 & Hm1 & _ & Hid) Hown]. assert (m1 = m) as -> by congruence.
  cbn [fmap list_fmap]. apply NoDup_cons. split; [|by apply IH].
  intros (m' & Eid & [i Hi]%list_elem_of_lookup_1)%list_elem_of_fmap.
  destruct (Forall2_lookup_r _ _ _ _ _ Hms Hi) as (l' & Hl' & Hm'). simpl in Hm', Eid.
  apply list_elem_of_lookup_2 in Hl'. pose proof (proj1 (Forall_forall _ _) Hown _ Hl') as (m2 & Hm2 & _ & Hid2).
  assert (m2 = m') as -> by congruence. rewrite <- Eid in Hid2. congruence.
Qed.

Lemma deref_slot s ix :
  Inv ix -> exists ms, deref ix (slot_items s ix) = Some ms /\ erase <$> ms ≡ₚ state_msgs (slot_state s) (abs ix).
Proof.
  intros HI. apply deref_owned; [done|apply (inv_heap _ _ HI s)|]. intros l. rewrite (inv_slot _ _ HI). naive_solver.
Qed.

Lemma deref_dlq ix :
  Inv ix -> exists ms, deref ix (ix_dlq ix) = Some ms /\ erase <$> ms ≡ₚ state_msgs stateDead (abs ix).
Proof.
  intros HI. apply deref_owned; [done|apply HI|]. intros l. rewrite (inv_dlq _ _ HI). naive_solver.
Qed.

(** A sorted view list: the views of a state's messages, sorted, up to the limit. *)
Definition lists (lt : Message -> Message -> bool) (t : state) (limit : Z) (s : Spec) (vs : list View) : Prop :=
  exists ms, ms ≡ₚ state_msgs t s /\ StronglySorted (notAfter lt) ms /\ vs = view <$> take (Z.to_nat limit) ms.

Lemma viewsOf_take ms limit : 0 <= limit -> viewsOf ms limit = view <$> take (Z.to_nat limit) ms.
Proof.
  intros Hl. unfold viewsOf. rewrite Z.gtb_ltb. destruct (Z.ltb_spec limit (Z.of_nat (length ms))); [done|].
  by rewrite take_ge by lia.
Qed.

Lemma lists_sorted lt t limit s ms :
  strict_weak lt -> (forall a b, lt (erase a) (erase b) = lt a b) -> 0 <= limit ->
  erase <$> ms ≡ₚ state_msgs t s -> lists lt t limit s (viewsOf (SliceStable lt ms) limit).
Proof.
  intros Hsw He Hl Hp. exists (erase <$> SliceStable lt ms). split_and!.
  - by rewrite SliceStable_Permutation.
  - apply (StronglySorted_fmap erase (notAfter lt)); [|by apply SliceStable_sorted].
    intros a b. unfold notAfter. by rewrite He.
  - rewrite viewsOf_take by done. rewrite <- fmap_take, <- list_fmap_compose. by apply list_fmap_ext.
Qed.

(** What [Peek] returns. *)
Record shows (limit : Z) (q : Queue) (pk : Peeked) : Prop := {
  sh_ready : lists (less (ix_cfg (q_ix q))) stateReady limit (qabs q) (pk_ready pk);
  sh_delayed : lists byVisibleAt stateDelayed limit (qabs q) (pk_delayed pk);
  sh_inflight : lists byDeadline stateInFlight limit (qabs q) (pk_in_flight pk);
  sh_dlq : lists bySeq stateDead limit (qabs q) (pk_dlq pk);
}.

Lemma Peek_shows limit q :
  Inv (q_ix q) -> 0 < limit -> exists pk, Peek limit q = Some pk /\ shows limit q pk.
Proof.
  intros HI Hl. unfold Peek. rewrite (proj2 (Z.leb_gt _ _)) by done.
  destruct (deref_slot Ready _ HI) as (r & Er & Pr), (deref_slot Delayed _ HI) as (d & Ed & Pd),
    (deref_slot InFlight _ HI) as (f & Ef & Pf), (deref_dlq _ HI) as (x & Ex & Px).
  cbn [slot_items] in Er, Ed, Ef. rewrite Er, Ed, Ef, Ex. cbn [mbind option_bind]. eexists. split; [done|].
  split; cbn [pk_ready pk_delayed pk_in_flight pk_dlq]; (apply lists_sorted; [|done|lia|done]);
    apply less_strict_weak || apply (key_strict_weak m_VisibleAt) || apply (key_strict_weak m_deadline)
    || apply (key_strict_weak m_Seq).
Qed.

(** ** The order of the ready list *)

(** No sequence number is held twice. *)
Definition distinct_seqs (s : Spec) : Prop :=
  forall id id' m m', sp_msgs s !! id = Some m -> sp_msgs s !! id' = Some m' -> m_Seq m = m_Seq m' -> id = id'.

(** The messages handed out, before they were leased. *)
Lemma handed_out_originals deadline n s out s' :
  filed s -> handed_out deadline n s out s' ->
  exists out0, Forall2 (fun m m0 => m = leased deadline m0) out out0 /\
    Forall (fun m0 => sp_msgs s !! m_ID m0 = Some m0 /\ m_state m0 = stateReady) out0 /\
    m_ID <$> out0 = m_ID <$> out /\ StronglySorted (notAfter (less (sp_cfg s))) out0.
Proof.
  intros Hf [_ Hfrom _ _ _ Hso _].
  assert (exists out0, Forall2 (fun m m0 => m = leased deadline m0) out out0 /\
    Forall (fun m0 => sp_msgs s !! m_ID m0 = Some m0 /\ m_state m0 = stateReady) out0) as (out0 & H2 & Hall).
  { clear Hso. induction out as [|m out IH]; [by exists []|].
    destruct (IH ltac:(intros; apply Hfrom; by right)) as (out0 & ? & ?).
    destruct (Hfrom m ltac:(by left)) as (m0 & Hm0 & Hst & E). exists (m0 :: out0).
    split; constructor; try done. split; [|done]. by rewrite (Hf _ _ Hm0). }
  exists out0. split_and!; [done..| |]; clear -H2 Hso.
  - induction H2 as [|m m0 out out0 -> _ IH]; [done|]. cbn [fmap list_fmap].
    apply StronglySorted_cons in Hso as [_ Hso]. by rewrite IH.
  - induction H2 as [|m m0 out out0 -> H2 IH]; [constructor|].
    apply StronglySorted_cons in Hso as [Hm Hso]. apply StronglySorted_cons. split; [|by apply IH].
    clear -Hm H2. induction H2 as [|x x0 out out0 -> H2 IH]; [constructor|].
    apply Forall_cons in Hm as [Hx Hm]. constructor; [exact Hx|by apply IH].
Qed.

(** What is handed out is the front of the sorted ready list. *)
Lemma handed_out_front deadline n s out s' ms :
  filed s -> distinct_seqs s -> handed_out deadline n s out s' ->
  ms ≡ₚ state_msgs stateReady s -> StronglySorted (notAfter (less (sp_cfg s))) ms ->
  Forall2 (fun m m0 => m = leased deadline m0) out (take n ms).
Proof.
  intros Hf Hinj Hh Hp Hs.
  destruct (handed_out_originals _ _ _ _ _ Hf Hh) as (out0 & H2 & Hall & Eids & Hso0).
  destruct Hh as [Hcount _ _ Hrest Hnd _ Hfirst]. rewrite Forall_forall in Hall.
  set (R := notAfter (less (sp_cfg s))) in *. set (rest := filter (fun m => m_ID m ∉ m_ID <$> out) ms).
  assert (forall m, m ∈ ms <-> sp_msgs s !! m_ID m = Some m /\ m_state m = stateReady) as Hms
    by (intros m; rewrite Hp; by apply elem_of_state_msgs).
  assert (out0 ++ rest ≡ₚ ms) as Hperm.
  { assert (NoDup ms) as Hndm by (rewrite Hp; eapply NoDup_fmap_1, NoDup_state_ids, Hf).
    apply NoDup_Permutation; [apply NoDup_app; split_and!|done|].
    - eapply (NoDup_fmap_1 m_ID). by rewrite Eids.
    - intros m Hm [Hn _]%list_elem_of_filter. apply Hn. rewrite <- Eids. by apply list_elem_of_fmap_2.
    - by apply NoDup_filter.
    - intros m. rewrite elem_of_app. unfold rest. rewrite list_elem_of_filter. split.
      + intros [Hm|[_ Hm]]; [by apply Hms, Hall|done].
      + intros Hm. destruct (decide (m_ID m ∈ m_ID <$> out)) as [Hin|]; [left|by right].
        rewrite <- Eids in Hin. apply list_elem_of_fmap in Hin as (m0 & Ei & Hm0).
        destruct (Hall _ Hm0) as [E0 _]. apply Hms in Hm as [Em _]. rewrite Ei in Em.
        assert (m = m0) as -> by congruence. done. }
  assert (out0 ++ rest = ms) as E.
  { apply (StronglySorted_unique_strong R); [|apply StronglySorted_app_2|done|done].
    - intros x y Hx Hy Hxy Hyx. rewrite Hperm in Hx. apply Hms in Hx as [Hx _], Hy as [Hy _].
      destruct (decide (m_Seq x = m_Seq y)) as [Eq|Ne].
      + pose proof (Hinj _ _ _ _ Hx Hy Eq) as Ei. rewrite Ei in Hx. congruence.
      + destruct (less_total (sp_cfg s) x y Ne) as [Hl|Hl]; unfold R, notAfter in *; congruence.
    - intros x1 x2 Hx1 [Hn [Hx2 Hst]%Hms]%list_elem_of_filter.
      apply list_elem_of_lookup_1 in Hx1 as [i Hi]. destruct (Forall2_lookup_r _ _ _ _ _ H2 Hi) as (m & Hm & ->).
      apply list_elem_of_lookup_2 in Hm. rewrite <- (Hrest _ Hn) in Hx2. exact (Hfirst _ _ _ Hm Hx2 Hst).
    - done.
    - by apply StronglySorted_filter. }
  assert (length ms = size (in_state stateReady s)) as Hlen.
  { rewrite Hp. unfold state_msgs. by rewrite length_fmap, length_map_to_list. }
  assert (take n ms = out0) as ->; [|done].
  assert (length out0 = min n (length ms)) as Hl by (by rewrite Hlen, <- (Forall2_length _ _ _ H2)).
  destruct (decide (n <= length ms)%nat).
  - assert (length out0 = n) as Hn by lia. by rewrite <- E, <- Hn, take_app_length.
  - rewrite take_ge by lia. rewrite <- E, length_app in Hl. rewrite <- E.
    destruct rest; [by rewrite app_nil_r|]. rewrite <- E, length_app in n0. simpl in *. lia.
Qed.

(** ** The age of the oldest message *)

Lemma oldest_loop_correct ix ids o :
  Inv ix -> (forall id, id ∈ ids -> is_Some (ix_byID ix !! id)) ->
  (forall id m, sp_msgs (abs ix) !! id = Some m -> m_CreatedAt m <> zeroTime) ->
  exists o', oldest_loop ids ix o = Some o' /\
    (o' = o \/ exists id m, sp_msgs (abs ix) !! id = Some m /\ m_state m <> stateDead /\ o' = m_CreatedAt m) /\
    (o <> zeroTime -> o' <> zeroTime /\ o' <= o) /\
    (forall id m, id ∈ ids -> sp_msgs (abs ix) !! id = Some m -> m_state m <> stateDead ->
      o' <> zeroTime /\ o' <= m_CreatedAt m).
Proof.
  intros HI Hids Hnz. revert o. induction ids as [|id ids IH]; intros o; cbn [oldest_loop].
  { exists o. split_and!; [done|by left|done|]. by intros id m ?%not_elem_of_nil. }
  destruct (Hids id ltac:(by left)) as [l Hl]. destruct (inv_registered id l ix HI Hl) as (m & Hm & _ & _ & Ha).
  rewrite Hl. cbn [mbind option_bind]. rewrite Hm. cbn [mbind option_bind].
  specialize (IH ltac:(intros; apply Hids; by right)). pose proof (Hnz id _ Ha) as Hmz. cbn in Hmz.
  assert (forall o1, (m_state m <> stateDead -> o1 <> zeroTime /\ o1 <= m_CreatedAt m) ->
    (o1 = o \/ (m_state m <> stateDead /\ o1 = m_CreatedAt m)) -> (o <> zeroTime -> o1 <> zeroTime /\ o1 <= o) ->
    exists o', oldest_loop ids ix o1 = Some o' /\
      (o' = o \/ exists id0 m0, sp_msgs (abs ix) !! id0 = Some m0 /\ m_state m0 <> stateDead /\ o' = m_CreatedAt m0) /\
      (o <> zeroTime -> o' <> zeroTime /\ o' <= o) /\
      (forall id0 m0, id0 ∈ id :: ids -> sp_msgs (abs ix) !! id0 = Some m0 -> m_state m0 <> stateDead ->
        o' <> zeroTime /\ o' <= m_CreatedAt m0)) as Hstep.
  { intros o1 Hm1 Ho1 Hle. destruct (IH o1) as (o' & E & Hsrc & Hnz' & Hmin). exists o'. split_and!; [done| | |].
    - destruct Hsrc as [->|?]; [|by right]. destruct Ho1 as [->|[Hst ->]]; [by left|right]. exists id, (erase m). by split_and!.
    - intros Hz. destruct (Hle Hz) as [H1 H2], (Hnz' H1) as [H3 H4]; [split; [done|lia]].
    - intros id0 m0 [->|Hin]%elem_of_cons Hm0 Hst; [|by eapply Hmin].
      assert (m0 = erase m) as -> by congruence. destruct (Hm1 Hst) as [H1 H2]. destruct (Hnz' H1) as [H3 H4].
      cbn. split; [done|lia]. }
  unfold IsZero, Before. case_bool_decide as Hd; [|destruct (Z.eqb_spec o zeroTime) as [Hz|Hz]; cbn [orb];
    [|destruct (Z.ltb_spec (m_CreatedAt m) o)]]; apply Hstep; try done; try (by left); try (by right); intros; split; (done || lia).
Qed.

(** What [Stats] reports of the messages. *)
Record counts (now : Time) (q : Queue) (s : Stats) : Prop := {
  cn_ready : s_Ready s = Z.of_nat (size (in_state stateReady (qabs q)));
  cn_delayed : s_Delayed s = Z.of_nat (size (in_state stateDelayed (qabs q)));
  cn_inflight : s_InFlight s = Z.of_nat (size (in_state stateInFlight (qabs q)));
  cn_dead : s_DeadLettered s = Z.of_nat (size (in_state stateDead (qabs q)));
  cn_total : s_Total s = Z.of_nat (size (contents q));
  cn_sum : s_Ready s + s_Delayed s + s_InFlight s + s_DeadLettered s = s_Total s;
  cn_age : (s_OldestAgeMS s = 0 /\ forall id m, contents q !! id = Some m -> m_state m = stateDead) \/
    exists id m, contents q !! id = Some m /\ m_state m <> stateDead /\
      s_OldestAgeMS s = Milliseconds (Sub now (m_CreatedAt m)) /\
      forall id' m', contents q !! id' = Some m' -> m_state m' <> stateDead -> m_CreatedAt m <= m_CreatedAt m';
  cn_healthy : s_Healthy s = true <-> checkLocked q = None;
}.

Lemma byID_size ix : Inv ix -> size (ix_byID ix) = size (sp_msgs (abs ix)).
Proof.
  intros HI. rewrite <- !(size_dom (D:=gset string)). f_equal. apply set_eq. intros id. rewrite !elem_of_dom. split.
  - intros [l Hl]. destruct (inv_registered id l ix HI Hl) as (m & _ & _ & _ & Ha). eauto.
  - intros [m (l & _ & Hl & _)%msgs_lookup]. eauto.
Qed.

(** ** The theorems *)

(** [Stats] counts the messages. *)
Lemma Stats_counts now ids q :
  queue_reachable q -> ids ≡ₚ (map_to_list (ix_byID (q_ix q))).*1 ->
  exists s, Queue_Stats now ids q = Some s /\ counts now q s.
Proof.
  intros (base & T & HQ)%queue_reachable_QInv Hids. pose proof (qi_index _ _ _ HQ) as HI.
  destruct (QInv_core_wf _ _ _ HQ) as (c & _ & R & W).
  assert (forall id, id ∈ ids <-> is_Some (ix_byID (q_ix q) !! id)) as Hin.
  { intros id. rewrite Hids, list_elem_of_fmap. split.
    - intros ([id' l] & -> & Hl%elem_of_map_to_list). by exists l.
    - intros [l Hl]. exists (id, l). split; [done|]. by apply elem_of_map_to_list. }
  destruct (oldest_loop_correct (q_ix q) ids zeroTime HI) as (o & Eo & Hsrc & _ & Hmin).
  { intros id. apply Hin. }
  { intros id m Hm. destruct (rp_lookup _ _ _ _ _ R Hm) as (k & Hk & (_&_&_&_&->&_)).
    pose proof (st_created _ _ _ (cw_stored _ _ W _ _ Hk)) as Hr. unfold in_int64, zeroTime in *. lia. }
  unfold Queue_Stats. rewrite Eo. cbn [mbind option_bind]. eexists. split; [done|].
  assert (forall id m, contents q !! id = Some m -> id ∈ ids) as Hall.
  { intros id m (l & m0 & Hl & _)%msgs_lookup. apply Hin. eauto. }
  split; cbn [s_Ready s_Delayed s_InFlight s_DeadLettered s_Total s_OldestAgeMS s_Healthy].
  - f_equal. by apply (slot_count Ready).
  - f_equal. by apply (slot_count Delayed).
  - f_equal. by apply (slot_count InFlight).
  - f_equal. by apply dlq_count.
  - f_equal. by apply byID_size.
  - pose proof (slot_count Ready _ HI) as E1. pose proof (slot_count Delayed _ HI) as E2.
    pose proof (slot_count InFlight _ HI) as E3. pose proof (dlq_count _ HI) as E4.
    cbn [slot_items slot_state] in *. rewrite E1, E2, E3, E4, (byID_size _ HI), (size_by_state (sp_msgs (abs (q_ix q)))).
    unfold in_state. lia.
  - destruct Hsrc as [->|(id & m & Hm & Hst & ->)].
    + left. split; [done|]. intros id m Hm. destruct (decide (m_state m = stateDead)) as [|Hst]; [done|].
      by destruct (Hmin id m (Hall _ _ Hm) Hm Hst).
    + right. exists id, m. destruct (Hmin id m (Hall _ _ Hm) Hm Hst) as [Hz _].
      split_and!; [done..| |].
      * unfold IsZero. by rewrite (proj2 (Z.eqb_neq _ _) Hz).
      * intros id' m' Hm' Hst'. by apply (Hmin id' m' (Hall _ _ Hm') Hm' Hst').
  - unfold checkLocked. destruct (q_closed q); [by rewrite andb_false_r|]. rewrite andb_true_r. apply bool_decide_eq_true.
Qed.

(** C26: [Stats] of every reachable queue, whatever order Go iterates the id map in: the ready, delayed, in-flight and dead-letter counts are the numbers of messages in those states, they add up to the total, which is the number of messages held; the age is that of the oldest message that is not dead-lettered, and zero if there is none; and the queue is reported healthy exactly when it accepts operations. *)
Theorem Stats_correct now ids q :
  queue_reachable q -> ids ≡ₚ (map_to_list (ix_byID (q_ix q))).*1 ->
  exists s, Queue_Stats now ids q = Some s /\ counts now q s.
Proof. apply Stats_counts. Qed.

(** C25: [Peek] of every reachable queue lists, for each of the four states, the messages in it up to the limit, sorted by the queue's order, visibility time, lease deadline and sequence number; and when no delayed message is due, the ready list is exactly what a [Dequeue] of as many messages would hand out at that moment, in the same order with the same payloads. *)
Theorem Peek_is_delivery_order now limit visibility q :
  queue_reachable q -> 0 < limit ->
  exists pk, Peek limit q = Some pk /\ shows limit q pk /\
    (checkLocked q = None ->
     (forall id m, contents q !! id = Some m -> m_state m = stateDelayed -> now < m_VisibleAt m) ->
     exists q' out, Dequeue now limit visibility q = Some (q', (out, None)) /\
       (fun v => (v_ID v, v_Seq v, v_Payload v)) <$> pk_ready pk =
       (fun m => (m_ID m, m_Seq m, PayloadJSON (m_Payload m))) <$> out).
Proof.
  intros (base & T & HQ)%queue_reachable_QInv Hl. pose proof (qi_index _ _ _ HQ) as HI.
  destruct (Peek_shows limit q HI Hl) as (pk & E & Hsh). exists pk. split_and!; [done..|]. intros Hc Hdue.
  destruct (Dequeue_correct base T now limit visibility q HQ) as (q' & out & err & ED & _ & _ & Herr & Hls).
  rewrite Hc in Herr, Hls. subst err. exists q', out. split; [done|].
  rewrite (proj2 (Z.leb_gt limit 0)) in Hls by done.
  assert (spec_promote now (qabs q) = qabs q) as Ep.
  { unfold spec_promote, sp_with. destruct (qabs q) as [cfg ms d n] eqn:Eq. simpl in *. f_equal.
    apply map_eq. intros id. rewrite lookup_fmap. destruct (ms !! id) as [m|] eqn:Hm; [|done]. simpl. f_equal.
    unfold promoted. case_decide as Hst; [|done]. unfold routed, After.
    rewrite (proj2 (Z.ltb_lt _ _)) by by eapply Hdue. destruct m. simpl in *. by subst. }
  rewrite Ep in Hls. pose proof (qabs_filed base T q HQ) as Hf.
  apply leases_handed_out in Hls; [|done].
  destruct (sh_ready _ _ _ Hsh) as (ms & Hp & Hs & ->).
  pose proof (handed_out_front _ _ _ _ _ ms Hf (ky_seq _ (proj1 (QInv_keyed _ _ _ HQ))) Hls Hp Hs) as H2.
  clear -H2. remember (take (Z.to_nat limit) ms) as l0 eqn:El. clear El. revert l0 H2.
  induction out as [|m out IH]; intros l0 H2; inversion H2 as [|? m0 ? l1 Em H2']; subst; [done|].
  cbn [fmap list_fmap]. f_equal; [|by apply IH]. destruct m, m0. injection Em. intros. subst. done.
Qed.

(** C37: Whatever bytes a payload holds, [PayloadJSON] turns them into a well-formed JSON value (so a log written by anything else cannot make the server emit malformed JSON), and a payload that is valid JSON is passed through unchanged. *)
Theorem PayloadJSON_well_formed b :
  Valid (PayloadJSON b) = true /\ (b <> [] -> Valid b = true -> PayloadJSON b = b).
Proof.
  unfold PayloadJSON. split.
  - destruct ((0 <? length b)%nat && Valid b) eqn:E; [by bool_prop|]. apply Valid_appendString.
  - intros Hb ->. destruct b; done.
Qed.

(** ** Witnesses *)

Lemma Stats_correct_witness :
  exists s, Queue_Stats (ex_t0 + 5000000) (ex_ids1 ex_q4) ex_q4 = Some s /\ counts (ex_t0 + 5000000) ex_q4 s /\
    s_Ready s = 1 /\ s_InFlight s = 1 /\ s_OldestAgeMS s = 4.
Proof.
  destruct (Stats_correct (ex_t0 + 5000000) (ex_ids1 ex_q4) ex_q4 ex_q4_reachable ltac:(apply Permutation_refl)) as (s & E & Hc).
  exists s. split; [exact E|]. split; [exact Hc|]. vm_compute in E. injection E as <-. vm_compute. auto.
Defined.

Lemma Peek_is_delivery_order_witness :
  exists pk q' out, Peek 2 ex_q3 = Some pk /\ Dequeue (ex_t0 + 3) 2 0 ex_q3 = Some (q', (out, None)) /\
    length out = 2%nat /\
    (fun v => (v_ID v, v_Seq v, v_Payload v)) <$> pk_ready pk =
    (fun m => (m_ID m, m_Seq m, PayloadJSON (m_Payload m))) <$> out.
Proof.
  destruct (Peek_is_delivery_order (ex_t0 + 3) 2 0 ex_q3 ex_q3_reachable ltac:(lia)) as (pk & E & _ & Hd).
  destruct Hd as (q' & out & ED & Eq).
  - vm_compute. reflexivity.
  - intros id m Hm Hst. exfalso.
    assert (in_state stateDelayed (qabs ex_q3) !! id = Some m) as Hin by (apply in_state_lookup; split; [exact Hm|exact Hst]).
    assert (in_state stateDelayed (qabs ex_q3) = ∅) as E0 by (vm_compute; reflexivity).
    rewrite E0 in Hin. exact (lookup_empty_Some (M:=gmap string) _ _ Hin).
  - exists pk, q', out. split; [exact E|]. split; [exact ED|]. split; [|exact Eq].
    vm_compute in ED. injection ED as _ <-. vm_compute. reflexivity.
Defined.
Lemma PayloadJSON_well_formed_witness :
  PayloadJSON (bytes_of_string "[1]") = bytes_of_string "[1]".
Proof. apply (proj2 (PayloadJSON_well_formed (bytes_of_string "[1]"))); [vm_compute; discriminate|vm_compute; reflexivity]. Defined.
