(* ===== verification/Sound.v ===== *)
(** * No operation panics, whatever it is given

    The part of a queue's invariant that is about the index alone ([sound]) needs
    nothing of the arguments: no bound on delays, priorities, ids, limits or the
    clock.  Every operation of a sound queue goes through and leaves it sound, also
    where its record could not be read back. *)

From Stdlib Require Import ZArith Lia.
From S2P Require Import Prelude GoInt Errors WalRecord Replay GoHeap Message Heaps Codec Index QueueSpec.
From S2P Require Import IndexInv IndexRefine IndexProps Log Queue Load QueueInv QueueOps Writer Compact Snapshot CompactProps.
From S2P Require Import Json JsonProps Recovery QueueProps Inspect InspectProps.

Implicit Types (q : Queue) (now : Time).

(** The index is well-formed. *)
Definition sound q : Prop := Inv (q_ix q).

Lemma reachable_sound q : queue_reachable q -> sound q.
Proof. intros (base & T & HQ)%queue_reachable_QInv. apply HQ. Qed.

(** Such a queue passes the test suite's assertion. *)
Lemma sound_checkInvariants q : sound q -> checkInvariants (q_ix q) = true.
Proof. apply Inv_checkInvariants. Qed.

Lemma sound_count f q : sound q -> sound (count f q).
Proof. done. Qed.

Lemma Enqueue_sound now rand8 payload priority delay dedupID q :
  sound q -> exists q' ph, Enqueue now rand8 payload priority delay dedupID q = Some (q', ph) /\ sound q'.
Proof. intros HI. destruct (Enqueue_any now rand8 payload priority delay dedupID q HI) as (q' & ph & E & HI' & _). by exists q', ph. Qed.

Lemma Dequeue_sound now max visibility q :
  sound q -> exists q' r, Dequeue now max visibility q = Some (q', r) /\ sound q'.
Proof.
  intros HI. unfold Dequeue. destruct (checkLocked q) as [err|]; [by eexists _, _|].
  destruct (promoteDue_implements now (q_ix q) HI) as (ix1 & -> & HI1 & _). cbn [mbind option_bind].
  match goal with |- context [lease_loop ?n ?d ix1] =>
    destruct (lease_loop_implements n d ix1 HI1) as (out & ix2 & -> & HI2 & _) end. cbn [mbind option_bind].
  eexists _, _. split; [done|]. by case_match.
Qed.

Lemma Ack_sound id q : sound q -> exists q' ph, Ack id q = Some (q', ph) /\ sound q'.
Proof.
  intros HI. unfold Ack. destruct (checkLocked q) as [err|]; [by eexists _, _|].
  destruct (ix_byID (q_ix q) !! id) as [l|] eqn:Hl; [|by eexists _, _].
  destruct (inv_registered id l _ HI Hl) as (m & -> & _). cbn [mbind option_bind].
  destruct (negb _ && negb _); [by eexists _, _|].
  destruct (logAppend_cases TypeAck (bytes_of_string id) q) as [[err ->]|(lg & -> & _)]; [by eexists _, _|].
  destruct (applyAck_implements id (q_ix q) HI) as (ix' & E & HI' & _). cbn [q_ix with_log]. rewrite E. cbn [mbind option_bind].
  destruct (spec_ack _ _).2; by eexists _, _.
Qed.

Lemma Nack_sound now id q : sound q -> exists q' ph, Nack now id q = Some (q', ph) /\ sound q'.
Proof.
  intros HI. unfold Nack. destruct (checkLocked q) as [err|]; [by eexists _, _|].
  destruct (ix_byID (q_ix q) !! id) as [l|] eqn:Hl; [|by eexists _, _].
  destruct (inv_registered id l _ HI Hl) as (m & -> & _). cbn [mbind option_bind].
  destruct (negb _); [by eexists _, _|].
  destruct (logAppend_cases TypeNack (bytes_of_string id) q) as [[err ->]|(lg & -> & _)]; [by eexists _, _|].
  destruct (applyAttempt_implements id now (q_ix q) HI) as (ix' & E & HI' & _). cbn [q_ix with_log]. rewrite E. cbn [mbind option_bind].
  destruct (spec_attempt _ _ _).2 as [dead [err|]]; cbn [mbind option_bind]; eexists _, _; (split; [done|]); [done|by destruct dead].
Qed.

(** [Compact] leaves the index alone. *)
Lemma liveMessages_total ids ix :
  Inv ix -> ids ≡ₚ (map_to_list (ix_byID ix)).*1 -> is_Some (liveMessages ids ix).
Proof.
  intros HI Hids. unfold liveMessages.
  assert (is_Some (mapM (fun id => l ← ix_byID ix !! id; ix_store ix !! l) ids)) as [live ->]; [|by eexists].
  apply mapM_is_Some_2, Forall_forall. intros id Hid. rewrite Hids in Hid.
  apply list_elem_of_fmap in Hid as ([id' l] & -> & Hl%elem_of_map_to_list). cbn [fst].
  destruct (inv_registered id' l ix HI Hl) as (m & Hm & _). exists m. by rewrite Hl.
Qed.

Lemma finishCompact_ix io w q : q_ix (finishCompact io w q).1 = q_ix q.
Proof. unfold finishCompact. repeat case_match; simplify_eq/=; done. Qed.

Lemma Compact_sound syncErr now ids1 ids2 io q :
  sound q -> ids1 ≡ₚ (map_to_list (ix_byID (q_ix q))).*1 ->
  exists q' r, Compact syncErr now ids1 ids2 io q = Some (q', r) /\ q_ix q' = q_ix q.
Proof.
  intros HI Hids. unfold Compact. destruct (liveMessages_total ids1 (q_ix q) HI Hids) as [live ->].
  destruct (checkLocked q); [by eexists _, _|]. destruct syncErr; [by eexists _, _|].
  destruct (NewWriter _ _) as [w|]; [|by eexists _, _]. destruct (encodeConfig _) as [meta|]; [|by eexists _, _].
  destruct (writeAll _ 0 _ w) as [w1 [err|]]; [by eexists _, _|]. cbn [mbind option_bind].
  destruct (writeAll _ 1 _ w1) as [w2 [err|]]; [by eexists _, _|].
  destruct (writeAll _ _ _ w2) as [w3 [err|]]; [by eexists _, _|].
  exists (finishCompact io w3 q).1, (finishCompact io w3 q).2. split; [by destruct (finishCompact io w3 q)|apply finishCompact_ix].
Qed.

(** The reads. *)
Lemma oldest_loop_total ids ix o :
  Inv ix -> (forall id, id ∈ ids -> is_Some (ix_byID ix !! id)) -> is_Some (oldest_loop ids ix o).
Proof.
  intros HI. revert o. induction ids as [|id ids IH]; intros o Hids; cbn [oldest_loop]; [done|].
  destruct (Hids id ltac:(by left)) as [l Hl]. destruct (inv_registered id l ix HI Hl) as (m & Hm & _).
  rewrite Hl. cbn [mbind option_bind]. rewrite Hm. cbn [mbind option_bind]. cbv zeta.
  repeat case_match; apply IH; intros; apply Hids; by right.
Qed.

Lemma Stats_sound now ids q :
  sound q -> ids ≡ₚ (map_to_list (ix_byID (q_ix q))).*1 -> is_Some (Queue_Stats now ids q).
Proof.
  intros HI Hids. unfold Queue_Stats.
  destruct (oldest_loop_total ids (q_ix q) zeroTime HI) as [o ->]; [|by eexists].
  intros id. rewrite Hids, list_elem_of_fmap. intros ([id' l] & -> & Hl%elem_of_map_to_list). by exists l.
Qed.

(** The second halves. *)
Lemma waitDurable_sound err q : sound q -> sound (waitDurable err q).1.
Proof. unfold waitDurable. by repeat case_match. Qed.

(** A queue that has just been created. *)
Lemma created_sound path cfg statErr view io d d' ix l b l' now :
  Create path cfg statErr view io d = Some (d', inl (ix, l, b)) ->
  sound (startQueue path ix l' now) /\ ix_byID ix = ∅.
Proof.
  intros HC. destruct (Create_correct _ _ _ _ _ _ _ _ _ _ HC) as (cfg' & meta & l0 & _ & _ & -> & _).
  split; [|done]. pose proof newIndex_Inv as HI. by destruct (set_cfg_Inv cfg' 1 newIndex HI eq_refl) as [Hx _].
Qed.
