(* ===== verification/ManagerProps.v ===== *)
(** * Properties of the manager

    A server's start is the restart of every queue it had: [OpenManager] over the
    directory a crash leaves, and over one in which a log is damaged. *)

From Stdlib Require Import ZArith Lia Sorting.Sorted.
From stdpp Require Import sorting.
From S2P Require Import Prelude GoInt Errors WalRecord Replay ReplayProps GoHeap Message Heaps Codec Index QueueSpec.
From S2P Require Import IndexInv IndexRefine Durable Log LogInv LogProps Queue Load QueueInv QueueOps QueueTick Recovery.
From S2P Require Import Writer Compact Snapshot CompactProps Json JsonProps QueueTrace Sample QueueProps Inspect Manager.

Implicit Types (q : Queue) (m : Manager) (e : DirEntry).

(** ** What a restart owes a queue *)

(** [q'] is what a restart makes of [q]: open, reachable, in the state of a prefix
    of the records of [q] that has everything reported durable, and in the whole
    durable state of [q] if [q] was idle. *)
Record recovered (q q' : Queue) : Prop := {
  rc_reachable : queue_reachable q';
  rc_open : checkLocked q' = None;
  rc_records : q_detached q = None ->
    exists base es c, lg_base (q_log q) = encode_all base /\
      core_run decodeConfig es core0 = inl c /\ (forall T, represents T (qabs q') c) /\
      base `prefix_of` es /\ es `prefix_of` base ++ (lg_hist (q_log q)).*2 /\
      (forall b i x, Wait b (q_log q) = Some None -> lg_hist (q_log q) !! i = Some x -> x.1 <= b ->
        (length base + i < length es)%nat);
  rc_idle : q_detached q <> None \/
      (lg_buf (q_log q) = [] /\ writing (lg_flusher (q_log q)) = None /\ lg_fatal (q_log q) = None) ->
    forall T, reachable_by T q -> same_durable T q q';
}.

Lemma crash_recovered q img name path clock now :
  queue_reachable q -> crash q img -> (forall o, in_int64 (clock o)) ->
  exists q' d', Load name path (OpenOk (plainFile img)) clock noIO (mkDisk img []) now = Some (d', inl q') /\
    recovered q q'.
Proof.
  intros Hr Hcr Hclk. destruct (queue_reachable_QInv q Hr) as (base & T & HQ).
  destruct (crash_loads base T q img name path clock now Hr HQ Hcr Hclk)
    as (es & c & q' & d' & HL & Hrun & Hrep & _ & Hsv & Hf & Hcl).
  exists q', d'. split; [done|]. split.
  - by eapply qr_restart.
  - unfold checkLocked. by rewrite Hcl.
  - intros Hd. unfold survivors in Hsv. rewrite Hd in Hsv. destruct Hsv as (H1 & H2 & H3 & _).
    exists base, es, c. split_and!; try done. apply (qi_base _ _ _ HQ).
  - intros Hi T' HT. destruct (reachable_by_QInv T' q HT) as (base' & HQ').
    destruct (crash_same_durable base' T' q img name path clock now Hr HQ' Hcr Hclk Hi) as (q1 & d1 & HL1 & Hs).
    assert (q1 = q') as -> by congruence. done.
Qed.

(** ** The directory after a crash *)

(** The entry of a queue's directory, its log what a crash left. *)
Record restarts e q : Prop := {
  rs_dir : de_IsDir e = true;
  rs_stat : de_Stat e = None;
  rs_io : de_io e = noIO;
  rs_clock : forall o, in_int64 (de_clock e o);
  rs_file : exists img, de_view e = OpenOk (plainFile img) /\ de_disk e = mkDisk img [] /\ crash q img;
}.

(** Anything else: a file, a directory without a log, or one whose log ends
    inside its first record, which a creation that never finished leaves. *)
Inductive passed_over e : Prop :=
  | po_file : de_IsDir e = false -> passed_over e
  | po_noLog err : de_Stat e = Some err -> passed_over e
  | po_unfinished t p n :
      entry_ok (t, p) -> (n < length (Encode [] t p))%nat ->
      de_view e = OpenOk (plainFile (take n (Encode [] t p))) -> passed_over e.

(** A file that ends inside its first record replays to nothing. *)
Lemma unfinished_replays t p n :
  entry_ok (t, p) -> (n < length (Encode [] t p))%nat -> exists ending, replays_to (take n (Encode [] t p)) [] ending.
Proof.
  intros Hok Hn. assert (encode_all [(t, p)] = Encode [] t p) as E by (by rewrite encode_all_cons, app_nil_r).
  pose proof (cut_replays_to [(t, p)] n (proj2 (Forall_singleton _ _) Hok)) as Hr. rewrite E in Hr.
  specialize (Hr ltac:(lia)).
  assert (fitting n [(t, p)] = []) as Ef; [|rewrite Ef in Hr; by eexists].
  pose proof (rt_prefix _ _ _ Hr) as [tl Htl]. apply (f_equal length) in Htl. rewrite length_app, length_take in Htl.
  destruct (fitting_prefix n [(t, p)]) as [[|x tl'] Hp]; [|by destruct (fitting n [(t, p)]) as [|? [|]]].
  exfalso. rewrite app_nil_r in Hp. rewrite <- Hp, E in Htl. lia.
Qed.

Lemma unfinished_Load name path clock io d now t p n :
  entry_ok (t, p) -> (n < length (Encode [] t p))%nat ->
  Load name path (OpenOk (plainFile (take n (Encode [] t p)))) clock io d now = Some (d, inr (ErrIncompleteQueue path)).
Proof.
  intros Hok Hn. destruct (unfinished_replays t p n Hok Hn) as [ending Hr].
  unfold Load. rewrite (rt_replay _ _ _ Hr). unfold replay_outcome.
  cbn [records_at deliver]. destruct (rt_ending _ _ _ Hr) as [[-> _]|[k ->]]; done.
Qed.

(** ** Opening the directory *)

Definition good m : Prop := map_Forall (fun _ q => queue_reachable q) (mg_queues m).

(** The directory of a manager after a crash of the machine, with whatever else is
    in it, in the order [ReadDir] lists it. *)
Record directory m (entries : list DirEntry) : Prop := {
  dr_nodup : NoDup (de_Name <$> entries);
  dr_queue e q : e ∈ entries -> mg_queues m !! de_Name e = Some q -> restarts e q;
  dr_other e : e ∈ entries -> mg_queues m !! de_Name e = None -> passed_over e;
  dr_all name q : mg_queues m !! name = Some q -> name ∈ de_Name <$> entries;
}.

(** One entry: what [openManager_loop] does with it. *)
Lemma openManager_passed e entries m :
  passed_over e -> openManager_loop (e :: entries) m = openManager_loop entries m.
Proof.
  intros H. cbn [openManager_loop]. destruct (de_IsDir e) eqn:Ed; [|done].
  case_bool_decide as Es; [|done]. cbn [negb]. destruct H as [?|err ?|t p n Hok Hn Hv]; [congruence..|].
  rewrite Hv, unfinished_Load by done. done.
Qed.

Lemma openManager_restart e q entries m :
  queue_reachable q -> restarts e q ->
  exists q', recovered q q' /\
    openManager_loop (e :: entries) m = openManager_loop entries (with_queues (<[de_Name e := q']> (mg_queues m)) m).
Proof.
  intros Hr [Hd Hs Hio Hclk (img & Hv & Hdk & Hcr)].
  destruct (crash_recovered q img (de_Name e) (de_path e) (de_clock e) (de_now e) Hr Hcr Hclk) as (q' & d' & HL & Hrec).
  exists q'. split; [done|]. cbn [openManager_loop]. rewrite Hd, (bool_decide_eq_true_2 _ Hs), Hv, Hdk, Hio, HL. done.
Qed.

Lemma openManager_loop_recovers m entries m0 :
  good m -> NoDup (de_Name <$> entries) ->
  (forall e q, e ∈ entries -> mg_queues m !! de_Name e = Some q -> restarts e q) ->
  (forall e, e ∈ entries -> mg_queues m !! de_Name e = None -> passed_over e) ->
  exists m', openManager_loop entries m0 = Some (m', None) /\ mg_root m' = mg_root m0 /\
    (forall name, name ∉ de_Name <$> entries -> mg_queues m' !! name = mg_queues m0 !! name) /\
    (forall name, name ∈ de_Name <$> entries -> mg_queues m0 !! name = None ->
      option_Forall2 recovered (mg_queues m !! name) (mg_queues m' !! name)).
Proof.
  intros Hg. revert m0. induction entries as [|e entries IH]; intros m0 Hnd Hq Ho.
  { exists m0. split_and!; [done..|]. by intros name ?%not_elem_of_nil. }
  apply NoDup_cons in Hnd as [Hne Hnd].
  assert (forall m1, exists m', openManager_loop entries m1 = Some (m', None) /\ mg_root m' = mg_root m1 /\
    (forall name, name ∉ de_Name <$> entries -> mg_queues m' !! name = mg_queues m1 !! name) /\
    (forall name, name ∈ de_Name <$> entries -> mg_queues m1 !! name = None ->
      option_Forall2 recovered (mg_queues m !! name) (mg_queues m' !! name))) as IH'.
  { intros m1. apply IH; [done|intros ? ? ?; apply Hq; by right|intros ? ?; apply Ho; by right]. }
  destruct (mg_queues m !! de_Name e) as [q|] eqn:Hm.
  - destruct (openManager_restart e q entries m0) as (q' & Hrec & ->); [by eapply Hg|by apply Hq; [left|]|].
    destruct (IH' (with_queues (<[de_Name e := q']> (mg_queues m0)) m0)) as (m' & E & Hroot & Hout & Hin).
    exists m'. split_and!; [done|done|..]; intros name.
    + rewrite fmap_cons. intros [H1 H2]%not_elem_of_cons. rewrite Hout by done. simpl. by rewrite lookup_insert_ne.
    + rewrite fmap_cons. intros [->|Hi]%elem_of_cons Hn.
      * rewrite Hout, Hm by done. simpl. rewrite lookup_insert_eq. by constructor.
      * apply Hin; [done|]. simpl. rewrite lookup_insert_ne; [done|]. by intros <-.
  - rewrite openManager_passed by (apply Ho; [left|done]).
    destruct (IH' m0) as (m' & E & Hroot & Hout & Hin). exists m'. split_and!; [done|done|..]; intros name.
    + rewrite fmap_cons. intros [H1 H2]%not_elem_of_cons. by apply Hout.
    + rewrite fmap_cons. intros [->|Hi]%elem_of_cons Hn; [|by apply Hin].
      rewrite Hout, Hm, Hn by done. constructor.
Qed.

(** The start of a server after a crash. *)
Lemma OpenManager_restarts m entries root ids closeErr :
  good m -> directory m entries ->
  exists m', OpenManager root None (inl entries) ids closeErr = Some (m', None) /\
    forall name, option_Forall2 recovered (mg_queues m !! name) (mg_queues m' !! name).
Proof.
  intros Hg [Hnd Hq Ho Hall].
  destruct (openManager_loop_recovers m entries (mkManager root ∅) Hg Hnd Hq Ho) as (m' & E & _ & Hout & Hin).
  exists m'. unfold OpenManager. rewrite E. split; [done|]. intros name.
  destruct (decide (name ∈ de_Name <$> entries)) as [Hi|Hi]; [apply Hin; [done|apply lookup_empty]|].
  rewrite Hout by done. simpl. rewrite lookup_empty.
  destruct (mg_queues m !! name) as [q|] eqn:E1; [|constructor]. by destruct Hi; eapply Hall.
Qed.
