(* ===== verification/Damage.v ===== *)
(** * A damaged log

    What one changed byte in a log does to every part of the system that reads
    it, and what the operator's repair leaves: the lemmas behind the theorems of
    [MainProps]. *)

From Stdlib Require Import ZArith Lia.
From S2P Require Import Prelude GoInt Errors WalRecord Replay ReplayProps GoHeap Message Heaps Codec Index QueueSpec.
From S2P Require Import IndexInv IndexRefine Durable Log LogInv LogProps Queue Load QueueInv QueueOps QueueTick Recovery.
From S2P Require Import Writer Compact Snapshot CompactProps Json JsonProps QueueTrace Sample QueueProps Inspect Manager ManagerProps Main.

Implicit Types (q : Queue) (es : list Entry).

(** ** Where the damage is *)

(** The byte at [i] is in the record [(t, p)] at offset [off]. *)
Record hit (es : list Entry) (i : nat) (pre : list Entry) (t : RecType) (p : list byte) (post : list Entry) : Prop := {
  hit_split : es = pre ++ (t, p) :: post;
  hit_range : (length (encode_all pre) <= i < length (encode_all pre) + EncodedLen p)%nat;
}.

Lemma hit_total es i :
  (i < length (encode_all es))%nat -> exists pre t p post, hit es i pre t p post.
Proof.
  revert i. induction es as [|[t p] es IH]; intros i Hi; [simpl in Hi; lia|].
  rewrite encode_all_cons, length_app, length_encode_entry in Hi. cbn [snd] in Hi.
  destruct (decide (i < EncodedLen p)%nat) as [Hlt|Hge].
  - exists [], t, p, es. split; [done|]. simpl. lia.
  - destruct (IH (i - EncodedLen p)%nat ltac:(lia)) as (pre & t' & p' & post & [-> Hr]).
    exists ((t, p) :: pre), t', p', post. split; [done|].
    rewrite encode_all_cons, length_app, length_encode_entry. cbn [snd]. lia.
Qed.

(** The offset of the record a byte is in. *)
Fixpoint record_offset (es : list Entry) (i : nat) : nat :=
  match es with
  | [] => 0
  | x :: es => if (i <? EncodedLen x.2)%nat then 0 else EncodedLen x.2 + record_offset es (i - EncodedLen x.2)
  end.

Lemma hit_offset es i pre t p post : hit es i pre t p post -> length (encode_all pre) = record_offset es i.
Proof.
  intros [-> Hr]. revert i Hr. induction pre as [|x pre IH]; intros i Hr; cbn [app record_offset].
  - cbn [snd]. simpl in Hr. by rewrite (proj2 (Nat.ltb_lt _ _)) by lia.
  - rewrite encode_all_cons, length_app, length_encode_entry in *.
    rewrite (proj2 (Nat.ltb_ge _ _)) by lia. f_equal. apply IH. lia.
Qed.

(** It is one record. *)
Lemma hit_fun es i pre t p post pre' t' p' post' : hit es i pre t p post -> hit es i pre' t' p' post' -> pre = pre'.
Proof.
  intros H1 H2. pose proof (hit_offset _ _ _ _ _ _ H1) as L. rewrite <- (hit_offset _ _ _ _ _ _ H2) in L.
  destruct H1 as [E1 _], H2 as [E2 _]. rewrite E1 in E2. clear E1. revert pre' E2 L.
  induction pre as [|x pre IH]; intros [|x' pre'] E L; [done|..].
  - rewrite encode_all_cons, length_app, length_encode_entry in L. unfold EncodedLen, HeaderSize in L. simpl in L. lia.
  - rewrite encode_all_cons, length_app, length_encode_entry in L. unfold EncodedLen, HeaderSize in L. simpl in L. lia.
  - injection E as -> E. f_equal. apply IH; [done|]. rewrite !encode_all_cons, !length_app in L. lia.
Qed.

(** The damaged file, and the damaged record in it. *)
Lemma hit_bytes es i pre t p post b tl :
  hit es i pre t p post -> encode_all es !! i = Some b ->
  let k := (i - length (encode_all pre))%nat in
  Encode [] t p !! k = Some b /\
  forall b', <[i := b']> (encode_all es ++ tl)
    = encode_all pre ++ <[k := b']> (Encode [] t p) ++ (encode_all post ++ tl).
Proof.
  intros [-> Hr] Hb. cbv zeta. pose proof (length_encode_entry (t, p)) as Hl. cbn [snd] in Hl.
  rewrite encode_all_app, encode_all_cons in Hb |- *. unfold encode_entry in *. cbn [fst snd] in *. split.
  - rewrite lookup_app_r, lookup_app_l in Hb by lia. done.
  - intros b'. rewrite <- !app_assoc. rewrite insert_app_r_alt, insert_app_l by lia. done.
Qed.

(** ** The histories crashes leave *)

Lemma crash_history q img :
  queue_reachable q -> crash q img ->
  exists es ending c, replays_to img es ending /\ meta_first es /\ Forall entry_ok es /\
    core_run decodeConfig es core0 = inl c.
Proof.
  intros Hr Hcr. destruct (queue_reachable_QInv q Hr) as (base & T & HQ).
  unfold crash in Hcr. destruct (q_detached q) as [imgs|] eqn:Hd.
  - destruct (qi_detached _ _ _ HQ imgs Hd) as [_ Hi]. rewrite Forall_forall in Hi.
    destruct (Hi img Hcr) as (es & c0 & -> & _ & [Hok Hm (c & Hrun & _ & _)]).
    eexists es, _, c. split_and!; [by apply encode_all_replays_to|done..].
  - destruct (qi_base _ _ _ HQ) as [Hb Hbok].
    destruct (log_crash_replays (q_log q) base img (qi_log _ _ _ HQ) Hb Hbok Hcr)
      as (es & ending & _ & Hne & _ & _ & Hes & Hok & Hrp).
    destruct (meta_first_prefix es _ Hes (qi_meta _ _ _ HQ)) as [->|Hm]; [by destruct (Hne (reachable_on_disk q Hr))|].
    destruct (qi_core _ _ _ HQ) as (c0 & Hrun & _).
    destruct (core_run_prefix decodeConfig es _ core0 c0 Hes Hrun) as [c Hc]. by exists es, ending, c.
Qed.

(** The records before the damage load. *)
Lemma history_prefix es pre c :
  meta_first es -> core_run decodeConfig es core0 = inl c -> pre `prefix_of` es ->
  (pre = [] \/ meta_first pre) /\ exists c', core_run decodeConfig pre core0 = inl c'.
Proof. intros Hm Hrun Hp. split; [by eapply meta_first_prefix|by eapply core_run_prefix]. Qed.

Lemma deliver_history clock pre c :
  pre = [] \/ meta_first pre -> (forall o, in_int64 (clock o)) -> core_run decodeConfig pre core0 = inl c ->
  exists st n, deliver (load_fn clock) (records_at 0 pre) 0 (Some (false, newIndex)) = (st, n, None).
Proof.
  intros [->|Hm] Hclk Hrun; [by eexists _, _|]. destruct (load_history clock pre c Hm Hclk Hrun) as (ix & E & _).
  by eexists _, _.
Qed.

(** ** The readers of a log with one byte changed *)

Section Damaged.
Context (img : list byte) (es pre post : list Entry) (t : RecType) (p : list byte) (ending : Ending).
Context (i : nat) (b b' : byte) (c : Core).
Context (Hreplays : replays_to img es ending) (Hmeta : meta_first es) (Hok : Forall entry_ok es).
Context (Hrun : core_run decodeConfig es core0 = inl c).
Context (Hhit : hit es i pre t p post) (Hb : encode_all es !! i = Some b) (Hne : b <> b').

(** What any reader is told, and the server among them. *)
Lemma damaged_Replay :
  exists reason, forall path,
    let err := CorruptionError path (Z.of_nat (length (encode_all pre))) reason in
    (forall St (fn : Record_ -> St -> St * option Err) st st' n,
      deliver fn (records_at 0 pre) 0 st = (st', n, None) ->
      Replay path fn (OpenOk (plainFile (<[i := b']> img))) st = Some (mkResult 0 n None, Some err, st')) /\
    forall name clock io d now, (forall o, in_int64 (clock o)) ->
      Load name path (OpenOk (plainFile (<[i := b']> img))) clock io d now = Some (d, inr err).
Proof using All.
  destruct (rt_prefix _ _ _ Hreplays) as [tl Himg].
  destruct (hit_bytes _ _ _ _ _ _ _ tl Hhit Hb) as [Hk Hins]. rewrite Himg, Hins.
  pose proof (hit_split _ _ _ _ _ _ Hhit) as E. pose proof Hok as Hok'.
  rewrite E in Hok'. apply Forall_app in Hok' as [Hpre [Htp _]%Forall_cons].
  destruct (Replay_damaged pre t p (encode_all post ++ tl) _ b b' Hpre Htp Hk Hne) as [reason HR].
  exists reason. intros path. cbv zeta. split; [intros; by apply HR|]. intros name clock io d now Hclk.
  destruct (history_prefix es pre c Hmeta Hrun) as [Hp (c' & Hc')]; [rewrite E; by eexists|].
  destruct (deliver_history clock pre c' Hp Hclk Hc') as (st & n & Hd).
  unfold Load. by rewrite (HR _ _ _ _ _ _ Hd).
Qed.
End Damaged.

(** ** After the repair *)

(** A log cut at the damage loads without an error: the queue of the records
    before it, or an unfinished queue if there are none. *)
Lemma repaired_Load name path clock now pre c :
  pre = [] \/ meta_first pre -> Forall entry_ok pre -> (forall o, in_int64 (clock o)) ->
  core_run decodeConfig pre core0 = inl c ->
  exists d' r, Load name path (OpenOk (plainFile (encode_all pre))) clock noIO (mkDisk (encode_all pre) []) now = Some (d', r) /\
    match pre with
    | [] => r = inr (ErrIncompleteQueue path)
    | _ => exists q', r = inl q' /\ checkLocked q' = None /\ forall T, represents T (qabs q') c
    end.
Proof.
  intros Hm Hok Hclk Hrun. pose proof (encode_all_replays_to pre Hok) as Hr.
  destruct Hm as [->|Hm].
  - eexists _, _. split; [|done]. unfold Load. by rewrite (rt_replay _ _ _ Hr).
  - destruct (load_history clock pre c Hm Hclk Hrun) as (ix & Hdel & HL).
    pose proof (noIO_Open _ _ _ Hr) as HO. destruct (Open noIO _ _) as [d' r] eqn:E. simpl in HO. subst r.
    unfold Load. rewrite (rt_replay _ _ _ Hr). unfold replay_outcome. rewrite Hdel.
    unfold ending_result. cbn [negb ValidBytes]. rewrite E. eexists _, _. split; [done|].
    destruct Hm as (? & ? & -> & _). eexists. split_and!; [done..|]. apply (ld_rep _ _ HL).
Qed.
