(* ===== verification/MainProps.v ===== *)
(** * Properties of the server command

    A server that is stopped and started again; one whose log was damaged
    meanwhile; and the operator's repair. *)

From Stdlib Require Import ZArith Lia.
From S2P Require Import Prelude GoInt Errors WalRecord Replay ReplayProps GoHeap Message Heaps Codec Index QueueSpec.
From S2P Require Import IndexInv IndexRefine Durable Log LogInv LogProps Queue Load QueueInv QueueOps QueueTick Recovery.
From S2P Require Import Writer Compact Snapshot CompactProps Json JsonProps QueueTrace Sample QueueProps Inspect Manager ManagerProps Main Damage.

Implicit Types (q : Queue) (m : Manager) (e : DirEntry).

(** ** Lemmas *)

Definition with_view (v : Opened) e : DirEntry :=
  mkDirEntry (de_Name e) (de_IsDir e) (de_Stat e) (de_path e) v (de_disk e) (de_clock e) (de_io e) (de_now e).

(** The entries before the damaged one open as ever. *)
Lemma openManager_before m pre rest m0 :
  good m ->
  (forall e q, e ∈ pre -> mg_queues m !! de_Name e = Some q -> restarts e q) ->
  (forall e, e ∈ pre -> mg_queues m !! de_Name e = None -> passed_over e) ->
  exists m1, openManager_loop (pre ++ rest) m0 = openManager_loop rest m1 /\ mg_root m1 = mg_root m0.
Proof.
  intros Hg. revert m0. induction pre as [|e pre IH]; intros m0 Hq Ho; [by exists m0|]. cbn [app].
  assert (forall m1, exists m2, openManager_loop (pre ++ rest) m1 = openManager_loop rest m2 /\ mg_root m2 = mg_root m1) as IH'
    by (intros m1; apply IH; [intros ? ? ?; apply Hq; by right|intros ? ?; apply Ho; by right]).
  destruct (mg_queues m !! de_Name e) as [q|] eqn:Hm.
  - destruct (openManager_restart e q (pre ++ rest) m0) as (q' & _ & ->); [by eapply Hg|by apply Hq; [left|]|].
    destruct (IH' (with_queues (<[de_Name e := q']> (mg_queues m0)) m0)) as (m2 & ? & ?). by exists m2.
  - rewrite openManager_passed by (apply Ho; [left|done]). apply IH'.
Qed.

(** [verify] reads every log, and a bad one is in its report. *)
Lemma verify_loop_total entries found bad :
  exists lines found' bad', verify_loop entries found bad = Some (lines, found', bad') /\ bad <= bad'.
Proof.
  revert found bad. induction entries as [|e entries IH]; intros found bad; cbn [verify_loop]; [by eexists _, _, _|].
  destruct (negb (de_IsDir e)); [apply IH|]. destruct (negb _); [apply IH|].
  destruct (Replay_total (de_path e) verify_fn (de_view e) (fun _ => 0)) as [[[res err] counts] ->].
  cbn [mbind option_bind]. destruct err as [err|].
  - destruct (IH (found + 1) (bad + 1)) as (lines & f & b & -> & ?). eexists _, _, _. split; [done|lia].
  - destruct (IH (found + 1) bad) as (lines & f & b & -> & ?). by eexists _, _, _.
Qed.

Lemma verify_loop_bad pre e post found bad res err counts :
  de_IsDir e = true -> de_Stat e = None ->
  Replay (de_path e) verify_fn (de_view e) (fun _ => 0) = Some (res, Some err, counts) ->
  exists lines found' bad', verify_loop (pre ++ e :: post) found bad = Some (lines, found', bad') /\ bad < bad' /\
    VFail (de_path e) err ∈ lines.
Proof.
  intros Hd Hs HR. revert found bad. induction pre as [|x pre IH]; intros found bad; cbn [app verify_loop].
  - rewrite Hd, (bool_decide_eq_true_2 _ Hs), HR. cbn [negb mbind option_bind].
    destruct (verify_loop_total post (found + 1) (bad + 1)) as (lines & f & b & -> & ?).
    eexists _, _, _. split_and!; [done|lia|by left].
  - destruct (negb (de_IsDir x)); [apply IH|]. destruct (negb _); [apply IH|].
    destruct (Replay_total (de_path x) verify_fn (de_view x) (fun _ => 0)) as [[[r o] k] ->].
    cbn [mbind option_bind]. destruct o as [o|].
    + destruct (IH (found + 1) (bad + 1)) as (lines & f & b & -> & ? & ?).
      eexists _, _, _. split_and!; [done|lia|by right].
    + destruct (IH (found + 1) bad) as (lines & f & b & -> & ? & ?).
      eexists _, _, _. split_and!; [done|lia|by right].
Qed.

Lemma verify_deliver es off st n : exists st' n', deliver verify_fn (records_at off es) n st = (st', n', None).
Proof.
  revert off st n. induction es as [|[t p] es IH]; intros off st n; cbn [records_at deliver]; [by eexists _, _|]. apply IH.
Qed.

(** A path and its backup differ. *)
Lemma backupName_ne path now : backupName path now <> path.
Proof.
  intros E%(f_equal String.length). unfold backupName in E.
  assert (forall a b, String.length (a +:+ b) = (String.length a + String.length b)%nat) as Hl
    by (induction a as [|c a IH]; intros b; [done|]; cbn [String.length]; change (String c a +:+ b)%string with (String c (a +:+ b)); cbn [String.length]; by rewrite IH).
  rewrite !Hl in E. simpl in E. lia.
Qed.

(** ** The theorems *)

(** C5: Starting after a crash. Stop the machine at any point of a server whose queues are any reachable queues; the next start, over a data directory that holds the queues' directories with whatever logs the crash can leave, in any order, among plain files, directories without a log and creations that never finished, succeeds, with exactly the queues there were: each open, reachable, holding everything it had reported durable, and its whole state if it was idle; nothing else in the directory stops the server or becomes a queue. *)
Theorem OpenManager_recovers m entries root ids closeErr :
  good m -> directory m entries ->
  exists m', OpenManager root None (inl entries) ids closeErr = Some (m', None) /\ good m' /\
    (forall name, option_Forall2 recovered (mg_queues m !! name) (mg_queues m' !! name)) /\
    runServe root None (inl entries) Signalled ids (fun _ => None) = Some 0.
Proof.
  intros Hg Hd. assert (forall ids ce, exists m', OpenManager root None (inl entries) ids ce = Some (m', None) /\
    forall name, option_Forall2 recovered (mg_queues m !! name) (mg_queues m' !! name)) as Ho
    by (intros; by apply OpenManager_restarts).
  destruct (Ho ids closeErr) as (m' & E & Hr). exists m'. split_and!; [done| |done|].
  - intros name q' Hq'. specialize (Hr name). rewrite Hq' in Hr. inversion Hr as [q q1 Hrec|]. apply Hrec.
  - destruct (Ho ids (fun _ => None)) as (m1 & E1 & _). unfold runServe. rewrite E1. cbn [mbind option_bind].
    assert (firstErr ids (fun _ => None) = None) as Hf by (clear; by induction ids).
    unfold Manager_Close. by rewrite Hf.
Qed.

(** What a server and [verify] make of a directory with one byte of one log changed. *)
Lemma damaged_refused m pre e post q img es ending i b b' root ev ids closeErr :
  good m -> directory m (pre ++ e :: post) -> mg_queues m !! de_Name e = Some q ->
  de_view e = OpenOk (plainFile img) -> replays_to img es ending -> encode_all es !! i = Some b -> b <> b' ->
  let entries := pre ++ with_view (OpenOk (plainFile (<[i := b']> img))) e :: post in
  exists es1 t p es2 reason, hit es i es1 t p es2 /\
    let err := CorruptionError (de_path e) (Z.of_nat (length (encode_all es1))) reason in
    OpenManager root None (inl entries) ids closeErr = Some (mkManager root ∅, Some (ELoadingQueue (de_Name e) err)) /\
    runServe root None (inl entries) ev ids closeErr = Some 2 /\
    exists lines found, runVerify (inl entries) = Some (lines, found, 2) /\ VFail (de_path e) err ∈ lines.
Proof.
  intros Hg [_ Hq Ho _] Hm Hv Hrp Hb Hne entries.
  assert (queue_reachable q) as Hr by by eapply Hg.
  assert (restarts e q) as [Hd Hs Hio Hclk (img1 & Hv1 & _ & Hcr)] by (apply Hq; [set_solver|done]).
  rewrite Hv in Hv1. assert (img1 = img) as -> by (unfold plainFile in Hv1; congruence).
  destruct (crash_history q img Hr Hcr) as (es' & ending' & c & Hrp' & Hmeta & Hok & Hrun).
  rewrite (replays_to_fun _ _ _ _ _ Hrp' Hrp) in *.
  destruct (hit_total es i (lookup_lt_Some _ _ _ Hb)) as (es1 & t & p & es2 & Hhit).
  destruct (damaged_Replay img es es1 es2 t p ending i b b' c Hrp Hmeta Hok Hrun Hhit Hb Hne) as [reason HD].
  destruct (HD (de_path e)) as [HR HL]. specialize (HL (de_Name e) (de_clock e) (de_io e) (de_disk e) (de_now e) Hclk).
  destruct (verify_deliver es1 0 (fun _ => 0) 0) as (st' & n' & Hdl). apply HR in Hdl.
  exists es1, t, p, es2, reason. split; [done|]. cbv zeta.
  assert (OpenManager root None (inl entries) ids closeErr = Some (mkManager root ∅, Some (ELoadingQueue (de_Name e)
    (CorruptionError (de_path e) (Z.of_nat (length (encode_all es1))) reason)))) as HO.
  { destruct (openManager_before m pre (with_view (OpenOk (plainFile (<[i:=b']> img))) e :: post) (mkManager root ∅) Hg)
      as (m1 & E & Hroot); [intros ? ? ?; apply Hq; set_solver|intros ? ?; apply Ho; set_solver|].
    unfold OpenManager, entries. rewrite E. cbn [openManager_loop with_view de_IsDir de_Stat de_Name de_path de_view de_clock de_io de_disk de_now].
    rewrite Hd, (bool_decide_eq_true_2 _ Hs), HL. cbn. unfold with_queues. by rewrite Hroot. }
  split_and!; [done|unfold runServe; by rewrite HO|].
  destruct (verify_loop_bad pre (with_view (OpenOk (plainFile (<[i:=b']> img))) e) post 0 0 _ _ _ Hd Hs Hdl)
    as (lines & found & bad & E & Hbad & Hin).
  exists lines, found. split; [|done]. unfold runVerify, entries. rewrite E. cbn [mbind option_bind].
  rewrite Z.gtb_ltb, (proj2 (Z.ltb_lt _ _)) by done. done.
Qed.

(** C6: Damage is never served. Change any one byte in the complete records of any queue's log, in a directory a server would otherwise start from: the server refuses to start, with no queue open, and exits with status 2, its error naming the damaged log and the offset of the record that holds the byte; and [verify] exits with status 2, printing the same error for that log. *)
Theorem corruption_stops_the_server m pre e post q img es ending i b b' root ev ids closeErr :
  good m -> directory m (pre ++ e :: post) -> mg_queues m !! de_Name e = Some q ->
  de_view e = OpenOk (plainFile img) -> replays_to img es ending -> encode_all es !! i = Some b -> b <> b' ->
  let entries := pre ++ with_view (OpenOk (plainFile (<[i := b']> img))) e :: post in
  exists es1 t p es2 reason, hit es i es1 t p es2 /\
    let err := CorruptionError (de_path e) (Z.of_nat (length (encode_all es1))) reason in
    OpenManager root None (inl entries) ids closeErr = Some (mkManager root ∅, Some (ELoadingQueue (de_Name e) err)) /\
    runServe root None (inl entries) ev ids closeErr = Some 2 /\
    exists lines found, runVerify (inl entries) = Some (lines, found, 2) /\ VFail (de_path e) err ∈ lines.
Proof. apply damaged_refused. Qed.

(** How [copyFile] ends: it changes nothing but a [dst] that was not there, and
    if it returns nil, [dst] holds all of [src]. *)
Lemma copyFile_cases src dst io fs fs' err data :
  fs !! src = Some data -> copyFile src dst io fs = (fs', err) ->
  (fs' = fs /\ err <> None) \/
  (fs !! dst = None /\ exists part, fs' = <[dst := part]> fs /\ (err = None -> part = data)).
Proof.
  intros Hs. unfold copyFile. rewrite Hs. destruct (ri_Open io); [intros [= <- <-]; by left|].
  destruct (ri_Create io); [intros [= <- <-]; by left|]. destruct (fs !! dst) eqn:Hd; [intros [= <- <-]; by left|].
  destruct (ri_Copy io) as [[n e]|]; [intros [= <- <-]; right; split; [done|]; by eexists|].
  destruct (ri_CopySync io); intros [= <- <-]; right; (split; [done|]); by eexists.
Qed.

(** Every way [runRepair] can end. *)
Lemma repair_cases path name at_ now io fs fs' code :
  runRepair path name at_ now io fs = (fs', code) ->
  (forall f, f <> path -> f <> backupName path now \/ fs !! f <> None -> fs' !! f = fs !! f) /\
  (code = 0 \/ code = 1) /\
  ((fs' !! path = fs !! path /\ code = 1) \/
   exists data, fs !! path = Some data /\ 0 <= at_ <= Z.of_nat (length data) /\
     fs' !! path = Some (take (Z.to_nat at_) data) /\ fs' !! backupName path now = Some data).
Proof.
  pose proof (backupName_ne path now) as Hne. set (dst := backupName path now) in *. unfold runRepair.
  assert (forall fs1 c, (fs1, c) = (fs', code) -> fs1 !! path = fs !! path -> c = 1 ->
    (forall f, f <> path -> f <> dst \/ fs !! f <> None -> fs1 !! f = fs !! f) ->
    (forall f, f <> path -> f <> dst \/ fs !! f <> None -> fs' !! f = fs !! f) /\ (code = 0 \/ code = 1) /\
    ((fs' !! path = fs !! path /\ code = 1) \/
     exists data, fs !! path = Some data /\ 0 <= at_ <= Z.of_nat (length data) /\
       fs' !! path = Some (take (Z.to_nat at_) data) /\ fs' !! dst = Some data)) as Hstop.
  { intros fs1 c [= <- <-] Hp -> Hf. split_and!; [done|by right|by left]. }
  destruct (bool_decide (name = "") || (at_ <? 0)) eqn:Hflags; [intros E; by eapply Hstop|].
  destruct (ri_Stat io); [intros E; by eapply Hstop|]. destruct (fs !! path) as [data|] eqn:Hpath; [|intros E; by eapply Hstop].
  destruct (at_ >? Z.of_nat (length data)) eqn:Hat; [intros E; by eapply Hstop|]. fold dst. bool_prop.
  destruct (copyFile path dst io fs) as [fs1 err] eqn:Hcopy.
  destruct (copyFile_cases _ _ _ _ _ _ _ Hpath Hcopy) as [[-> Herr]|(Hdst & part & -> & Hpart)].
  { destruct err; [|done]. intros E. by eapply Hstop. }
  assert (forall f, f <> path -> f <> dst \/ fs !! f <> None -> <[dst := part]> fs !! f = fs !! f) as Hrest.
  { intros f _ Hf. apply lookup_insert_ne. intros <-. by destruct Hf as [|Hf]; [|rewrite Hdst in Hf]. }
  assert (<[dst := part]> fs !! path = fs !! path) as Hkeep by by apply lookup_insert_ne.
  destruct err; [intros E; eapply Hstop; [exact E|by rewrite Hkeep|done|done]|]. rewrite (Hpart eq_refl) in *.
  destruct (ri_OpenFile io); [intros E; eapply Hstop; [exact E|by rewrite Hkeep|done|done]|].
  destruct (ri_Truncate io); [intros E; eapply Hstop; [exact E|by rewrite Hkeep|done|done]|].
  intros E. assert (fs' = <[path := truncate (Z.to_nat at_) data]> (<[dst := data]> fs) /\ (code = 0 \/ code = 1)) as [-> Hc]
    by (destruct (ri_Sync io); injection E as <- <-; auto).
  split_and!; [|done|].
  - intros f Hf1 Hf2. rewrite lookup_insert_ne by done. by apply Hrest.
  - right. exists data. split_and!; [done|lia|lia| |].
    + rewrite lookup_insert_eq. f_equal. unfold truncate.
      replace (Z.to_nat at_ - length data)%nat with 0%nat by lia. apply app_nil_r.
    + by rewrite lookup_insert_ne, lookup_insert_eq by done.
Qed.

(** Repair discards nothing that is not saved first. However it ends (an error from any system call, even half way through the copy): no file but the log and the new backup is touched and a file already under the backup's name is never overwritten; the log is either unchanged, or cut at the offset asked for with all of the original in the backup; and it exits with status 0 only in the second case. *)
Theorem repair_keeps_a_copy path name at_ now io fs fs' code :
  runRepair path name at_ now io fs = (fs', code) ->
  (forall f, f <> path -> f <> backupName path now \/ fs !! f <> None -> fs' !! f = fs !! f) /\
  (code = 0 \/ code = 1) /\
  ((fs' !! path = fs !! path /\ code = 1) \/
   exists data, fs !! path = Some data /\ 0 <= at_ <= Z.of_nat (length data) /\
     fs' !! path = Some (take (Z.to_nat at_) data) /\ fs' !! backupName path now = Some data).
Proof. apply repair_cases. Qed.

(** What [repair] at the offset of the damage leaves, and what the next start makes of it. *)
Lemma repaired_log q img es ending i b b' path name now clock fs res off reason counts :
  queue_reachable q -> crash q img -> replays_to img es ending -> encode_all es !! i = Some b -> b <> b' ->
  fs !! path = Some (<[i := b']> img) -> fs !! backupName path now = None -> name <> "" ->
  (forall o, in_int64 (clock o)) ->
  Replay path verify_fn (OpenOk (plainFile (<[i := b']> img))) (fun _ => 0)
    = Some (res, Some (CorruptionError path off reason), counts) ->
  exists es1 t p es2 c fs', hit es i es1 t p es2 /\ runRepair path name off now noRepairIO fs = (fs', 0) /\
    fs' !! path = Some (encode_all es1) /\ core_run decodeConfig es1 core0 = inl c /\
    exists d' r, Load name path (OpenOk (plainFile (encode_all es1))) clock noIO (mkDisk (encode_all es1) []) now = Some (d', r) /\
      match es1 with
      | [] => r = inr (ErrIncompleteQueue path)
      | _ => exists q', r = inl q' /\ checkLocked q' = None /\ forall T, represents T (qabs q') c
      end.
Proof.
  intros Hr Hcr Hrp Hb Hne Hfs Hbak Hname Hclk HR.
  destruct (crash_history q img Hr Hcr) as (es' & ending' & c0 & Hrp' & Hmeta & Hok & Hrun).
  rewrite (replays_to_fun _ _ _ _ _ Hrp' Hrp) in *.
  destruct (hit_total es i (lookup_lt_Some _ _ _ Hb)) as (es1 & t & p & es2 & Hhit).
  destruct (damaged_Replay img es es1 es2 t p ending i b b' c0 Hrp Hmeta Hok Hrun Hhit Hb Hne) as [reason' HD].
  destruct (HD path) as [HR' _]. destruct (verify_deliver es1 0 (fun _ => 0) 0) as (st' & n' & Hdl). apply HR' in Hdl.
  assert (off = Z.of_nat (length (encode_all es1))) as -> by congruence.
  destruct (history_prefix es es1 c0 Hmeta Hrun) as [Hp (c & Hc)]; [rewrite (hit_split _ _ _ _ _ _ Hhit); by eexists|].
  assert (Forall entry_ok es1) as Hok1.
  { pose proof Hok as Hok'. rewrite (hit_split _ _ _ _ _ _ Hhit) in Hok'. by apply Forall_app in Hok' as [? _]. }
  destruct (rt_prefix _ _ _ Hrp) as [tl Himg]. destruct (hit_bytes _ _ _ _ _ _ _ tl Hhit Hb) as [_ Hins].
  specialize (Hins b'). rewrite <- Himg in Hins. rewrite Hins in Hfs.
  exists es1, t, p, es2, c. eexists. split_and!; [done| | |done|by apply repaired_Load].
  - unfold runRepair. rewrite (bool_decide_eq_false_2 _ Hname), (proj2 (Z.ltb_ge _ _)) by lia. cbn [orb ri_Stat noRepairIO].
    rewrite Hfs. rewrite Z.gtb_ltb, (proj2 (Z.ltb_ge _ _)) by (rewrite length_app; lia).
    unfold copyFile. cbn [ri_Open ri_Create ri_Copy ri_CopySync ri_CopyClose ri_OpenFile ri_Truncate ri_Sync noRepairIO].
    rewrite Hfs, Hbak. reflexivity.
  - rewrite lookup_insert_eq. f_equal. unfold truncate. rewrite Nat2Z.id, take_app_length.
    replace (_ - _)%nat with 0%nat by (rewrite length_app; lia). apply app_nil_r.
Qed.

(** C18: The way back. When [verify] reports a queue's log corrupt after one byte of its complete records changed, [repair] at the offset in that report succeeds, leaves in the log exactly the records before the damaged one, and the next start loads them without an error: an open queue in exactly the state those records stand for, or, when the damaged record was the first, an unfinished creation that is passed over. *)
Theorem repair_restores q img es ending i b b' path name now clock fs res off reason counts :
  queue_reachable q -> crash q img -> replays_to img es ending -> encode_all es !! i = Some b -> b <> b' ->
  fs !! path = Some (<[i := b']> img) -> fs !! backupName path now = None -> name <> "" ->
  (forall o, in_int64 (clock o)) ->
  Replay path verify_fn (OpenOk (plainFile (<[i := b']> img))) (fun _ => 0)
    = Some (res, Some (CorruptionError path off reason), counts) ->
  exists es1 t p es2 c fs', hit es i es1 t p es2 /\ runRepair path name off now noRepairIO fs = (fs', 0) /\
    fs' !! path = Some (encode_all es1) /\ core_run decodeConfig es1 core0 = inl c /\
    exists d' r, Load name path (OpenOk (plainFile (encode_all es1))) clock noIO (mkDisk (encode_all es1) []) now = Some (d', r) /\
      match es1 with
      | [] => r = inr (ErrIncompleteQueue path)
      | _ => exists q', r = inl q' /\ checkLocked q' = None /\ forall T, represents T (qabs q') c
      end.
Proof. apply repaired_log. Qed.

(** ** Witnesses *)

(** A server with one queue, and its directory with other things in it. *)
Definition ex_mgr (q : Queue) : Manager := mkManager "data" {["jobs" := q]}.
Definition ex_entry (name : string) (isDir : bool) (stat : option Err) (img : list byte) : DirEntry :=
  mkDirEntry name isDir stat ("data/" +:+ name +:+ "/wal.log")%string (OpenOk (plainFile img)) (mkDisk img [])
    (fun _ => 77) noIO 77.
Definition ex_half : list byte := take 7 (Encode [] TypeMeta (marshalConfig ex_cfg)).
Definition ex_before : list DirEntry := [ex_entry "README" false None []; ex_entry "empty" true (Some (EIO "no such file")) []].
Definition ex_jobs (img : list byte) : DirEntry := ex_entry "jobs" true None img.
Definition ex_after : list DirEntry := [ex_entry "new" true None ex_half].

Lemma ex_mgr_good q : queue_reachable q -> good (ex_mgr q).
Proof. intros Hq. by apply map_Forall_singleton. Qed.

Lemma ex_directory q img : crash q img -> directory (ex_mgr q) (ex_before ++ ex_jobs img :: ex_after).
Proof.
  intros Hcr. assert (forall e, e ∈ ex_before ++ ex_jobs img :: ex_after ->
    e = ex_jobs img \/ (de_Name e <> "jobs" /\ passed_over e)) as He.
  { intros e He. repeat (apply elem_of_cons in He as [->|He]); [right|right|by left|right|by apply not_elem_of_nil in He].
    - split; [done|by apply po_file].
    - split; [done|by eapply po_noLog].
    - split; [done|]. apply (po_unfinished _ TypeMeta (marshalConfig ex_cfg) 7); [|vm_compute; lia|reflexivity].
      split; [reflexivity|vm_compute; discriminate]. }
  assert (de_Name <$> ex_before ++ ex_jobs img :: ex_after = ["README"; "empty"; "jobs"; "new"]) as En by done.
  split; unfold ex_mgr; cbn [mg_queues].
  - rewrite En. apply (bool_decide_unpack _). vm_compute. reflexivity.
  - intros e q1 Hin Hq. apply lookup_singleton_Some in Hq as [E ->]. destruct (He e Hin) as [->|[Hn _]]; [|congruence].
    split; try done. exists img. by split_and!.
  - intros e Hin Hq. apply lookup_singleton_None in Hq. by destruct (He e Hin) as [->|[_ Hp]].
  - intros name q1 Hq. apply lookup_singleton_Some in Hq as [<- _]. rewrite En. set_solver.
Qed.

Lemma ex_crash_q4 : crash ex_q4 (ex_img ex_q4).
Proof. apply ex_crash. vm_compute. reflexivity. Qed.

Lemma recovered_one q o : option_Forall2 recovered (Some q) o -> exists q', o = Some q' /\ recovered q q'.
Proof. intros H. inversion H as [? q'|]; subst. by exists q'. Qed.

Lemma OpenManager_recovers_witness :
  exists m' q', OpenManager "data" None (inl (ex_before ++ ex_jobs (ex_img ex_q4) :: ex_after)) [] (fun _ => None) = Some (m', None) /\
    mg_queues m' !! "jobs" = Some q' /\ recovered ex_q4 q' /\
    runServe "data" None (inl (ex_before ++ ex_jobs (ex_img ex_q4) :: ex_after)) Signalled [] (fun _ => None) = Some 0.
Proof.
  destruct (OpenManager_recovers (ex_mgr ex_q4) _ "data" [] (fun _ => None) (ex_mgr_good ex_q4 ex_q4_reachable)
    (ex_directory ex_q4 (ex_img ex_q4) ex_crash_q4)) as (m' & E & _ & Hr & Hs).
  specialize (Hr "jobs"). unfold ex_mgr, mg_queues at 1 in Hr. rewrite lookup_singleton_eq in Hr.
  destruct (recovered_one _ _ Hr) as (q' & Eq & Hrec). exists m', q'.
  split; [exact E|]. split; [exact Eq|]. split; [exact Hrec|exact Hs].
Defined.

(** The sample log, and the byte in the middle of it flipped. *)
Definition ex_records (q : Queue) : list Entry := (lg_hist (q_log q)).*2.
Definition ex_bit (b : byte) : byte := Zbyte (255 - byteZ b).

Lemma entries_ok_compute (es : list Entry) :
  forallb (fun x : Entry => valid x.1 && (Z.of_nat (length x.2) <=? MaxRecordSize)) es = true -> Forall entry_ok es.
Proof.
  rewrite Forall_forall. intros Hf x Hx%list_elem_of_In. pose proof (proj1 (forallb_forall _ _) Hf _ Hx) as H.
  cbv beta in H. bool_prop. by split.
Qed.

Lemma ex_q2_replays : replays_to (ex_img ex_q2) (ex_records ex_q2) (EndClean (Z.of_nat (length (ex_img ex_q2)))).
Proof.
  assert (ex_img ex_q2 = encode_all (ex_records ex_q2)) as -> by (vm_compute; reflexivity).
  apply encode_all_replays_to, entries_ok_compute. vm_compute. reflexivity.
Qed.

Lemma ex_crash_q2 : crash ex_q2 (ex_img ex_q2).
Proof. apply ex_crash. vm_compute. reflexivity. Qed.

Definition ex_damaged : list byte :=
  <[250%nat := ex_bit (default x00 (ex_img ex_q2 !! 250%nat))]> (ex_img ex_q2).

Lemma ex_byte : encode_all (ex_records ex_q2) !! 250%nat = Some (default x00 (ex_img ex_q2 !! 250%nat)).
Proof. vm_compute. reflexivity. Qed.

Lemma ex_bit_ne : default x00 (ex_img ex_q2 !! 250%nat) <> ex_bit (default x00 (ex_img ex_q2 !! 250%nat)).
Proof. vm_compute. discriminate. Qed.

Lemma corruption_stops_the_server_witness :
  exists reason lines found,
    let e := with_view (OpenOk (plainFile ex_damaged)) (ex_jobs (ex_img ex_q2)) in
    let err := CorruptionError ex_path 192 reason in
    OpenManager "data" None (inl (ex_before ++ e :: ex_after)) [] (fun _ => None)
      = Some (mkManager "data" ∅, Some (ELoadingQueue "jobs" err)) /\
    runVerify (inl (ex_before ++ e :: ex_after)) = Some (lines, found, 2) /\ VFail ex_path err ∈ lines.
Proof.
  destruct (corruption_stops_the_server (ex_mgr ex_q2) ex_before (ex_jobs (ex_img ex_q2)) ex_after ex_q2 (ex_img ex_q2)
    (ex_records ex_q2) _ 250%nat _ _ "data" Signalled [] (fun _ => None) (ex_mgr_good ex_q2 ex_q2_reachable)
    (ex_directory ex_q2 (ex_img ex_q2) ex_crash_q2) (lookup_singleton_eq _ _) eq_refl ex_q2_replays ex_byte ex_bit_ne)
    as (es1 & t & p & es2 & reason & Hhit & HO & _ & lines & found & HV & Hin).
  assert (length (encode_all es1) = 192%nat) as Hoff by (rewrite (hit_offset _ _ _ _ _ _ Hhit); vm_compute; reflexivity).
  exists reason, lines, found. rewrite Hoff in *. split; [exact HO|]. split; [exact HV|exact Hin].
Defined.

Lemma ex_backup_ne : ex_path <> backupName ex_path 88.
Proof. intros E. by apply (backupName_ne ex_path 88). Qed.

(** The final [fsync] fails. *)
Definition ex_repair : gmap string (list byte) * Z :=
  runRepair ex_path "jobs" 3 88 (mkRepairIO None None None None None None None None (Some (EIO "disk on fire")))
    {[ex_path := bytes_of_string "abcdef"]}.

Lemma repair_restores_witness :
  exists reason fs' d' q', let fs := {[ex_path := ex_damaged]} in
    runRepair ex_path "jobs" 192 88 noRepairIO fs = (fs', 0) /\
    (exists res counts, Replay ex_path verify_fn (OpenOk (plainFile ex_damaged)) (fun _ => 0)
      = Some (res, Some (CorruptionError ex_path 192 reason), counts)) /\
    fs' !! ex_path = Some (take 192 ex_damaged) /\
    Load "jobs" ex_path (OpenOk (plainFile (take 192 ex_damaged))) (fun _ => 77) noIO (mkDisk (take 192 ex_damaged) []) 88
      = Some (d', inl q') /\ checkLocked q' = None.
Proof.
  destruct (Replay ex_path verify_fn (OpenOk (plainFile ex_damaged)) (fun _ => 0)) as [[[res err] counts]|] eqn:HR;
    [|vm_compute in HR; discriminate].
  assert (exists reason, err = Some (CorruptionError ex_path 192 reason)) as [reason ->]
    by (vm_compute in HR; injection HR as _ <- _; eexists; reflexivity).
  destruct (repair_restores ex_q2 (ex_img ex_q2) (ex_records ex_q2) _ 250%nat _ _ ex_path "jobs" 88 (fun _ => 77)
    {[ex_path := ex_damaged]} res 192 reason counts ex_q2_reachable ex_crash_q2 ex_q2_replays ex_byte ex_bit_ne
    (lookup_singleton_eq _ _) (lookup_singleton_ne _ _ _ ex_backup_ne) ltac:(discriminate) ex_clock HR)
    as (es1 & t & p & es2 & c & fs' & Hhit & Hrep & Hfs & _ & d' & r & HL & Hq).
  assert (encode_all es1 = take 192 ex_damaged) as Eimg.
  { assert ((runRepair ex_path "jobs" 192 88 noRepairIO {[ex_path := ex_damaged]}).1 !! ex_path = Some (take 192 ex_damaged)) as E
      by (vm_compute; reflexivity).
    rewrite Hrep in E. cbn [fst] in E. rewrite Hfs in E. exact (inj Some _ _ E). }
  rewrite Eimg in *. destruct es1 as [|x es1]; [exfalso; apply (f_equal length) in Eimg; vm_compute in Eimg; discriminate|].
  destruct Hq as (q' & -> & Hc & _). exists reason, fs', d', q'. split; [exact Hrep|]. split; [exists res, counts; reflexivity|].
  split; [exact Hfs|]. split; [exact HL|exact Hc].
Defined.
