(* ===== verification/ServerProps.v ===== *)
(** * Properties of the HTTP interface

    Every request, whatever its bytes, is answered without a panic and keeps every
    index well-formed; within the bounds of what the log can store it keeps every
    queue reachable (so that every theorem about reachable queues holds of a
    server); and a 201 is only sent for a message that is on disk. *)

From Stdlib Require Import ZArith Lia.
From stdpp Require Import sorting.
From S2P Require Import Prelude GoInt Errors WalRecord Replay ReplayProps GoHeap Message Heaps Codec Index QueueSpec.
From S2P Require Import IndexInv IndexRefine IndexProps Durable Log LogInv LogProps Queue Load QueueInv QueueOps QueueTick Recovery.
From S2P Require Import Writer Compact Snapshot CompactProps Json JsonProps QueueTrace Sample QueueProps QueueCompact Inspect.
From S2P Require Import Request Manager Server InspectProps Sound ManagerProps Main Damage MainProps.

Implicit Types (q : Queue) (m : Manager) (r : Req) (ev : Env).

(** ** Decoded requests *)

(** What every setter of a request keeps holds of what is decoded. *)
Section DecodeInv.
Context {S : Type} (unknown : option Err) (fields : list (string * Setter S)) (P : S -> Prop).
Context (Hfields : Forall (fun f : string * Setter S => forall v raw s, P s -> P (f.2 v raw s).1) fields).

Lemma storeFields_inv ms s : P s -> P (storeFields unknown fields ms s).1.
Proof using Hfields.
  revert s. induction ms as [|[[k v] raw] ms IH]; intros s Hs; [done|]. cbn [storeFields].
  destruct (storeField unknown fields k v raw s) as [s1 err] eqn:E.
  assert (P s1) as Hs1.
  { unfold storeField in E. destruct (find _ fields) as [[n set]|] eqn:Hf; [|by injection E as <- _].
    apply find_some in Hf as [Hin _]. rewrite List.Forall_forall in Hfields.
    specialize (Hfields _ Hin v raw s Hs). cbn [snd] in Hfields. by rewrite E in Hfields. }
  specialize (IH s1 Hs1). by destruct (storeFields unknown fields ms s1).
Qed.

Lemma DecodeFrom_inv b readErr s s' err : P s -> DecodeFrom unknown fields b readErr s = (s', err) -> P s'.
Proof using Hfields.
  intros Hs E. apply (f_equal fst) in E. cbn [fst] in E. subst s'. unfold DecodeFrom.
  destruct (skipSpace b) as [|x b']; [done|]. destruct (isCh x "{").
  - destruct (skipSpace b') as [|y ?]; [done|]. destruct (isCh y "}"); [done|].
    destruct (rawMembers _ b') as [ms|]; [|done]. cbn [fst]. by apply storeFields_inv.
  - destruct (parseValue _ _ _) as [[v rest]|]; [|done]. by destruct v.
Qed.
End DecodeInv.

Lemma ParseInt_range l z : ParseInt l = Some z -> in_int64 z.
Proof.
  unfold ParseInt. intros (x & _ & H)%bind_Some. destruct ((- 2 ^ 63 <=? x) && (x <? 2 ^ 63)) eqn:E; [|done].
  bool_prop. injection H as <-. done.
Qed.

Lemma setInt_inv {S} (set : Z -> S -> S) (P : S -> Prop) v raw s :
  (forall z, in_int64 z -> P s -> P (set z s)) -> P s -> P (setInt set v raw s).1.
Proof.
  intros Hset Hs. unfold setInt. destruct v as [| |l| | |]; try done.
  destruct (ParseInt l) as [z|] eqn:E; [|done]. apply Hset; [by eapply ParseInt_range|done].
Qed.

Lemma setString_inv {S} (set : string -> S -> S) (P : S -> Prop) v raw s :
  (forall z, P s -> P (set z s)) -> P s -> P (setString set v raw s).1.
Proof. intros Hset Hs. destruct v; try done. by apply Hset. Qed.

Lemma setBool_inv {S} (set : bool -> S -> S) (P : S -> Prop) v raw s :
  (forall z, P s -> P (set z s)) -> P s -> P (setBool set v raw s).1.
Proof. intros Hset Hs. destruct v; try done. by apply Hset. Qed.

Definition enqueue_typed (req : enqueueRequest) : Prop := in_int64 (eq_Priority req) /\ in_int64 (eq_DelayMS req).

(** A request that is decoded has what its setters keep. *)
Lemma decode_inv {S} (fields : list (string * Setter S)) (P : S -> Prop) zero r req :
  Forall (fun f : string * Setter S => forall v raw s, P s -> P (f.2 v raw s).1) fields -> P zero ->
  decode fields zero r = inl req -> P req.
Proof.
  intros Hf Hz. unfold decode. destruct (Decode fields (rq_Body r) (rq_ReadErr r) zero) as [s [e|]] eqn:E; [discriminate|].
  intros H. assert (s = req) as <- by congruence. exact (DecodeFrom_inv _ fields P Hf _ _ _ _ _ Hz E).
Qed.

Lemma decode_enqueue_typed r req : decode enqueueFields zeroEnqueue r = inl req -> enqueue_typed req.
Proof.
  apply decode_inv; [|split; (vm_compute; split; congruence)].
  unfold enqueueFields. repeat (apply Forall_cons; split); try apply Forall_nil_2; cbn [snd]; intros v raw s' [H1 H2].
  all: first [apply setInt_inv|apply setString_inv|idtac]; try (intros; split; cbn in *; assumption).
Qed.

Definition create_cfg (req : createQueueRequest) : Config :=
  mkConfig (cq_Name req) (cq_Ordering req) (cq_PriorityEnabled req) (cq_MaxAttempts req)
    (cq_DefaultVisibilityTimeoutMS req) (cq_AgingIntervalMS req) (cq_AgingMaxBoost req) (cq_DedupWindowMS req) 0.

Lemma decode_create_typed r req : decode createQueueFields zeroCreateQueue r = inl req -> config_typed (create_cfg req).
Proof.
  apply (decode_inv createQueueFields (fun req => config_typed (create_cfg req))); [|split; (vm_compute; split; congruence)].
  unfold createQueueFields. repeat (apply Forall_cons; split); try apply Forall_nil_2; cbn [snd].
  all: intros v raw s' [H1 H2 H3 H4 H5 H6].
  all: first [apply setInt_inv|apply setString_inv|apply setBool_inv]; try (intros; split; cbn in *; assumption).
Qed.

Lemma Validate_keeps c c' :
  Validate c = (c', None) ->
  c_Name c' = c_Name c /\ (c_MaxAttempts c' = c_MaxAttempts c \/ c_MaxAttempts c' = DefaultMaxAttempts).
Proof.
  unfold Validate. destruct (negb (nameRE (c_Name c))); [done|]. intros H.
  match type of H with (match ?s with _ => _ end) = _ => destruct s as [c1|] eqn:Hs; [|done] end.
  assert (c_Name c1 = c_Name c /\ c_MaxAttempts c1 = c_MaxAttempts c) as [<- <-].
  { repeat case_bool_decide; simplify_eq/=; done. }
  clear Hs. revert H.
  repeat match goal with
  | |- context [if ?b then _ else _] => destruct b; cbn -[Z.mul Z.pow quotDuration DefaultMaxAttempts]
  end; intros [= <-]; auto.
Qed.

(** ** What the server answers *)

Definition statuses : list Z :=
  [StatusOK; StatusCreated; StatusBadRequest; StatusNotFound; StatusMethodNotAllowed; StatusConflict;
   StatusRequestEntityTooLarge; StatusServiceUnavailable].

(** Two invariants of a queue behind the interface: that it is sound, for which a
    request needs to satisfy nothing, and ([strict]) that it is reachable, for which
    it needs what a step of a queue does. *)
Definition kept (strict : bool) q : Prop := if strict then queue_reachable q else sound q.
Definition needs (strict : bool) (P : Prop) : Prop := if strict then P else True.

Lemma kept_sound strict q : kept strict q -> sound q.
Proof. destruct strict; [apply reachable_sound|done]. Qed.

Definition kept_all (strict : bool) m : Prop := map_Forall (fun _ q => kept strict q) (mg_queues m).

Section Kept.
Context (strict : bool).

Lemma kept_Enqueue now rand8 payload priority delay dedupID q :
  kept strict q -> needs strict (enqueue_ok now rand8 payload priority delay dedupID q) ->
  exists q' ph, Enqueue now rand8 payload priority delay dedupID q = Some (q', ph) /\ kept strict q'.
Proof using.
  intros Hq Hn. destruct (Enqueue_sound now rand8 payload priority delay dedupID q (kept_sound _ _ Hq)) as (q' & ph & E & Hs).
  exists q', ph. split; [done|]. destruct strict; [|done]. eapply qr_step; [exact Hq|by eapply qs_Enqueue].
Qed.

Lemma kept_Dequeue now max visibility q :
  kept strict q -> exists q' res, Dequeue now max visibility q = Some (q', res) /\ kept strict q'.
Proof using.
  intros Hq. destruct (Dequeue_sound now max visibility q (kept_sound _ _ Hq)) as (q' & r & E & Hs).
  exists q', r. split; [done|]. destruct strict; [|done]. eapply qr_step; [exact Hq|by eapply qs_Dequeue].
Qed.

Lemma kept_Ack id q : kept strict q -> exists q' ph, Ack id q = Some (q', ph) /\ kept strict q'.
Proof using.
  intros Hq. destruct (Ack_sound id q (kept_sound _ _ Hq)) as (q' & r & E & Hs).
  exists q', r. split; [done|]. destruct strict; [|done]. eapply qr_step; [exact Hq|by eapply qs_Ack].
Qed.

Lemma kept_Nack now id q :
  kept strict q -> needs strict (in_int64 now) -> exists q' ph, Nack now id q = Some (q', ph) /\ kept strict q'.
Proof using.
  intros Hq Hn. destruct (Nack_sound now id q (kept_sound _ _ Hq)) as (q' & r & E & Hs).
  exists q', r. split; [done|]. destruct strict; [|done]. eapply qr_step; [exact Hq|by eapply qs_Nack].
Qed.

Lemma kept_Compact syncErr now ids1 ids2 io q :
  kept strict q -> ids1 ≡ₚ (map_to_list (ix_byID (q_ix q))).*1 -> needs strict (compact_args ids1 ids2 syncErr q) ->
  exists q' res, Compact syncErr now ids1 ids2 io q = Some (q', res) /\ kept strict q' /\ q_ix q' = q_ix q.
Proof using.
  intros Hq Hids Hn. destruct (Compact_sound syncErr now ids1 ids2 io q (kept_sound _ _ Hq) Hids) as (q' & r & E & Eix).
  exists q', r. split_and!; [done| |done]. destruct strict.
  - destruct Hn as [Ho HS]. eapply qr_step; [exact Hq|by eapply qs_Compact].
  - unfold kept, sound in *. by rewrite Eix.
Qed.

Lemma kept_waitDurable b err q : kept strict q -> Wait b (q_log q) = Some err -> kept strict (waitDurable err q).1.
Proof using. intros Hq HW. destruct strict; [eapply qr_step; [exact Hq|by eapply qs_waitDurable]|by apply waitDurable_sound]. Qed.

Lemma kept_signal q : kept strict q -> kept strict (signal q).
Proof using. destruct strict; [|done]. intros Hq. eapply qr_step; [exact Hq|apply qs_signal]. Qed.
End Kept.

(** A handler's outcome: an answer with one of the documented statuses, or a wait
    after which it gives one, whatever the queue has become. *)
Definition answered (strict : bool) (m : Manager) (h : Handled) : Prop :=
  match h with
  | Reply resp => rs_Status resp ∈ statuses
  | Await name b p =>
    is_Some (mg_queues m !! name) /\
    forall q err, kept strict q -> Wait b (q_log q) = Some err ->
      kept strict (serve_finish p err q).1 /\ rs_Status (serve_finish p err q).2 ∈ statuses
  end.

(** What a request leaves of the manager [m]. *)
Record served (strict : bool) (m m' : Manager) (h : Handled) : Prop := {
  sv_good : kept_all strict m';
  sv_answer : answered strict m' h;
  sv_kept : dom (mg_queues m) ⊆ dom (mg_queues m');
}.

Lemma writeQueueError_status err : rs_Status (writeQueueError err) ∈ statuses.
Proof. unfold writeQueueError. repeat case_match; cbn [writeError rs_Status]; apply (bool_decide_unpack _); vm_compute; exact I. Qed.

Ltac status := first [apply writeQueueError_status | apply (bool_decide_unpack _); vm_compute; exact I].

Lemma enqueueResponse_status (res : EnqueueResult) err : rs_Status (enqueueResponse res err) ∈ statuses.
Proof. destruct err; cbn [enqueueResponse]; [status|]. destruct (er_Duplicate res); status. Qed.
Lemma ackResponse_status id err : rs_Status (ackResponse id err) ∈ statuses.
Proof. destruct err; cbn [ackResponse]; status. Qed.
Lemma nackResponse_status id err : rs_Status (nackResponse id err) ∈ statuses.
Proof. destruct err; cbn [nackResponse]; status. Qed.

(** The part of a handler after its wait. *)
Lemma serve_finish_served strict p b err q :
  kept strict q -> Wait b (q_log q) = Some err ->
  kept strict (serve_finish p err q).1 /\ rs_Status (serve_finish p err q).2 ∈ statuses.
Proof.
  intros Hr HW. pose proof (kept_waitDurable strict b err q Hr HW) as Hw.
  destruct p as [r|id|id]; cbn [serve_finish]; unfold Enqueue_finish, Nack_finish;
    destruct (waitDurable err q) as [q1 [e|]]; cbn [fst snd] in *.
  all: split; try apply enqueueResponse_status; try apply ackResponse_status; try apply nackResponse_status; try done.
  all: by apply kept_signal.
Qed.

Lemma served_reply strict m resp : kept_all strict m -> rs_Status resp ∈ statuses -> served strict m m (Reply resp).
Proof. intros Hm Hs. by split. Qed.

(** The outcome of a handler on the queue it found. *)
Definition handled (strict : bool) (name : string) (o : option (Queue * Handled)) : Prop :=
  exists q' h, o = Some (q', h) /\ kept strict q' /\
    match h with Reply resp => rs_Status resp ∈ statuses | Await n _ _ => n = name end.

(** [queueFor]: the rest of the handler runs on a queue that is kept. *)
Lemma withQueue_served strict name m k :
  kept_all strict m -> (forall q, mg_queues m !! name = Some q -> kept strict q -> handled strict name (k q)) ->
  exists m' h, withQueue name m k = Some (m', h) /\ served strict m m' h.
Proof.
  intros Hm Hk. unfold withQueue, Manager_Get. destruct (mg_queues m !! name) as [q|] eqn:Hq.
  2: { eexists _, _. split; [done|]. apply served_reply; [done|status]. }
  destruct (Hk q eq_refl (Hm _ _ Hq)) as (q' & h & -> & Hr & Hh). cbn [mbind option_bind].
  eexists _, h. split; [done|]. split.
  - apply map_Forall_insert_2; [done|exact Hm].
  - destruct h as [resp|n b p]; [done|]. subst n. split; [exists q'; apply lookup_insert_eq|].
    intros q0 err. apply serve_finish_served.
  - cbn [set_queue with_queues mg_queues]. rewrite dom_insert. set_solver.
Qed.

(** ** Handlers *)

(** What an accepted enqueue relies on the clock and the random source for, the
    request being what it is. *)
Record draws_fresh (ev : Env) (req : enqueueRequest) (q : Queue) : Prop := {
  dw_rand : length (ev_rand8 ev) = 8%nat;
  dw_fresh : ix_byID (q_ix q) !! newID (ev_rand8 ev) = None;
  dw_unused d e : ix_dedup (q_ix q) !! d = Some e -> e_MessageID e <> newID (ev_rand8 ev);
  dw_visible : in_int64 (ev_now ev + mulDuration (eq_DelayMS req) Millisecond);
  dw_window : in_int64 (Add (ev_now ev) (dedupWindow (ix_cfg (q_ix q))));
  dw_seq : 0 <= ix_nextSeq (q_ix q) /\ ix_nextSeq (q_ix q) + 1 < 2 ^ 64;
}.

(** The handler's checks establish the rest of [enqueue_ok]. *)
Lemma checked_enqueue_ok ev req q :
  in_int64 (ev_now ev) -> enqueue_typed req -> draws_fresh ev req q ->
  Z.of_nat (length (eq_Payload req)) <= MaxPayloadBytes -> Z.of_nat (strlen (eq_DedupID req)) <= 256 ->
  enqueue_ok (ev_now ev) (ev_rand8 ev) (eq_Payload req) (eq_Priority req)
    (mulDuration (eq_DelayMS req) Millisecond) (eq_DedupID req) q.
Proof.
  intros Hnow [Hp _] [] Hl Hd. change MaxPayloadBytes with (2 ^ 18) in Hl.
  split; try done; [lia|]. unfold short16. lia.
Qed.

Lemma handled_reply strict name q resp : kept strict q -> rs_Status resp ∈ statuses -> handled strict name (Some (q, Reply resp)).
Proof. intros Hq Hs. eexists _, _. by split_and!. Qed.

Lemma invalidBody_status err : rs_Status (invalidBody err) ∈ statuses.
Proof. status. Qed.

Lemma decode_status {S} (fields : list (string * Setter S)) zero r resp :
  decode fields zero r = inr resp -> rs_Status resp ∈ statuses.
Proof.
  unfold decode. destruct (Decode fields _ _ zero) as [s [e|]]; [|discriminate].
  intros H. assert (resp = invalidBody e) as -> by congruence. apply invalidBody_status.
Qed.

Lemma decodeOptional_status {S} (fields : list (string * Setter S)) zero r resp :
  decodeOptional fields zero r = inr resp -> rs_Status resp ∈ statuses.
Proof.
  unfold decodeOptional. destruct (Decode fields _ _ zero) as [s [[|e]|]]; try discriminate.
  intros H. assert (resp = invalidBody (DecodeFailed e)) as -> by congruence. apply invalidBody_status.
Qed.

Lemma enqueue_handled strict ev r name q :
  kept strict q -> needs strict (in_int64 (ev_now ev)) ->
  (forall req, decode enqueueFields zeroEnqueue r = inl req -> needs strict (draws_fresh ev req q)) ->
  handled strict name (enqueue ev r name q).
Proof.
  intros Hq Hnow Hdraw. unfold enqueue. destruct (decode enqueueFields zeroEnqueue r) as [req|resp] eqn:Ed.
  2: { apply handled_reply; [done|by eapply decode_status]. }
  cbv zeta. destruct (_ =? 0); [apply handled_reply; [done|status]|].
  destruct (Z.gtb_spec (Z.of_nat (length (eq_Payload req))) MaxPayloadBytes); [apply handled_reply; [done|status]|].
  destruct (eq_DelayMS req <? 0); [apply handled_reply; [done|status]|].
  destruct (Z.gtb_spec (Z.of_nat (strlen (eq_DedupID req))) 256); [apply handled_reply; [done|status]|].
  match goal with |- context [Enqueue ?now ?r8 ?pl ?pr ?de ?dd q] =>
    destruct (kept_Enqueue strict now r8 pl pr de dd q Hq) as (q' & ph & -> & Hq') end.
  { specialize (Hdraw _ eq_refl). destruct strict; [|done].
    apply checked_enqueue_ok; [done|by eapply decode_enqueue_typed|done|lia..]. }
  cbn [mbind option_bind].
  destruct ph as [[res err]|b [res err]]; [apply handled_reply; [done|apply enqueueResponse_status]|].
  by eexists _, _.
Qed.

Lemma dequeue_handled strict ev r name q : kept strict q -> handled strict name (dequeue ev r q).
Proof.
  intros Hq. unfold dequeue. destruct (decodeOptional dequeueFields zeroDequeue r) as [req|resp] eqn:Ed.
  2: { apply handled_reply; [done|by eapply decodeOptional_status]. }
  cbv zeta. destruct (_ <? 0); [apply handled_reply; [done|status]|].
  match goal with |- context [Dequeue ?now ?max ?vis q] =>
    destruct (kept_Dequeue strict now max vis q Hq) as (q' & [out err] & -> & Hq') end.
  cbn [mbind option_bind]. destruct err; apply handled_reply; try done; status.
Qed.

Lemma ack_handled strict name id q : kept strict q -> handled strict name (ack name id q).
Proof.
  intros Hq. unfold ack. destruct (kept_Ack strict id q Hq) as (q' & ph & -> & Hq'). cbn [mbind option_bind].
  destruct ph; [apply handled_reply; [done|apply ackResponse_status]|by eexists _, _].
Qed.

Lemma nack_handled strict ev name id q :
  kept strict q -> needs strict (in_int64 (ev_now ev)) -> handled strict name (nack ev name id q).
Proof.
  intros Hq Hnow. unfold nack. destruct (kept_Nack strict (ev_now ev) id q Hq Hnow) as (q' & ph & -> & Hq'). cbn [mbind option_bind].
  destruct ph; [apply handled_reply; [done|apply nackResponse_status]|by eexists _, _].
Qed.

Lemma compact_handled strict ev name q :
  kept strict q -> ev_byID ev name ≡ₚ (map_to_list (ix_byID (q_ix q))).*1 ->
  needs strict (compact_args (ev_byID ev name) (ev_dedup ev) (ev_syncErr ev) q) -> handled strict name (compact ev name q).
Proof.
  intros Hq Ho Hn. unfold compact. destruct (Stats_sound (ev_statsNow ev name) _ q (kept_sound _ _ Hq) Ho) as [s ->]. cbn [mbind option_bind].
  destruct (kept_Compact strict (ev_syncErr ev) (ev_now ev) _ _ (ev_compactIO ev) q Hq Ho Hn) as (q' & c & -> & Hq' & Eix).
  cbn [mbind option_bind]. destruct (cp_err c); [apply handled_reply; [done|status]|].
  rewrite <- Eix in Ho. destruct (Stats_sound (ev_statsNow ev name) _ q' (kept_sound _ _ Hq') Ho) as [s' ->]. cbn [mbind option_bind].
  apply handled_reply; [done|status].
Qed.

(** ** Reads *)

(** A read answers and leaves the manager as it was. *)
Definition reads (m : Manager) (o : option (Manager * Handled)) : Prop :=
  exists resp, o = Some (m, Reply resp) /\ rs_Status resp ∈ statuses.

Lemma withQueue_reads name m k :
  (forall q, mg_queues m !! name = Some q -> exists resp, k q = Some (q, Reply resp) /\ rs_Status resp ∈ statuses) ->
  reads m (withQueue name m k).
Proof.
  intros Hk. unfold withQueue, Manager_Get. destruct (mg_queues m !! name) as [q|] eqn:Hq.
  2: { eexists. split; [done|status]. }
  destruct (Hk q eq_refl) as (resp & -> & Hs). cbn [mbind option_bind]. exists resp. split; [|done].
  unfold set_queue, with_queues. rewrite insert_id by done. by destruct m.
Qed.

(** What iterating over the server's maps gives: their keys, in some order. *)
Record map_orders_of (ev : Env) r m : Prop := {
  mo_queues : ev_queues ev ≡ₚ (map_to_list (mg_queues m)).*1;
  mo_byID name q : mg_queues m !! name = Some q -> ev_byID ev name ≡ₚ (map_to_list (ix_byID (q_ix q))).*1;
  mo_new req : decode createQueueFields zeroCreateQueue r = inl req -> mg_queues m !! cq_Name req = None ->
    ev_byID ev (cq_Name req) = [];
}.

Lemma Manager_List_answers ev r m :
  kept_all false m -> map_orders_of ev r m -> is_Some (Manager_List (ev_queues ev) (ev_statsNow ev) (ev_byID ev) m).
Proof.
  intros Hm [Hq Hid _]. unfold Manager_List.
  match goal with |- context [mapM ?f ?l] => assert (is_Some (mapM f l)) as [out ->]; [|by eexists] end.
  apply mapM_is_Some_2, Forall_forall. intros name Hn. rewrite Hq in Hn.
  apply list_elem_of_fmap in Hn as ([n q] & -> & Hl%elem_of_map_to_list). cbn [fst]. unfold compose. rewrite Hl. cbn [mbind option_bind].
  by apply Stats_sound; [eapply Hm|apply Hid].
Qed.

Lemma listQueues_reads ev r m : kept_all false m -> map_orders_of ev r m -> reads m (listQueues ev m).
Proof.
  intros Hm Ho. unfold listQueues. destruct (Manager_List_answers ev r m Hm Ho) as [l ->].
  eexists. split; [done|status].
Qed.

Lemma healthz_reads ev r m : kept_all false m -> map_orders_of ev r m -> reads m (healthz ev m).
Proof.
  intros Hm Ho. unfold healthz. destruct (Manager_List_answers ev r m Hm Ho) as [l ->]. cbn [mbind option_bind].
  destruct (forallb s_Healthy l); (eexists; split; [done|status]).
Qed.

Lemma intParam_pos r key def : 0 < def -> 0 < intParam r key def.
Proof.
  intros Hd. unfold intParam. cbv zeta. case_bool_decide; [done|]. destruct (Atoi _) as [n|]; [|done].
  destruct (Z.gtb_spec n 0); lia.
Qed.

Lemma DLQ_answers limit q : Inv (q_ix q) -> is_Some (DLQ limit q).
Proof. intros HI. unfold DLQ. destruct (deref_dlq _ HI) as (ms & -> & _). cbn [mbind option_bind]. by eexists. Qed.

Lemma stats_reads ev r name m : kept_all false m -> map_orders_of ev r m -> reads m (withQueue name m (stats ev name)).
Proof.
  intros Hm Ho. apply withQueue_reads. intros q Hl. unfold stats.
  destruct (Stats_sound (ev_statsNow ev name) _ q (Hm _ _ Hl) (mo_byID _ _ _ Ho _ _ Hl)) as [s ->].
  eexists. split; [done|status].
Qed.

Lemma dlq_reads r name m : kept_all false m -> reads m (withQueue name m (dlq r)).
Proof.
  intros Hm. apply withQueue_reads. intros q Hl. unfold dlq.
  destruct (DLQ_answers (intParam r "limit" 100) q (Hm _ _ Hl)) as [l ->]. eexists. split; [done|status].
Qed.

Lemma peek_reads r name m : kept_all false m -> reads m (withQueue name m (peek r)).
Proof.
  intros Hm. apply withQueue_reads. intros q Hl. unfold peek.
  destruct (Peek_shows (intParam r "limit" 25) q (Hm _ _ Hl) ltac:(by apply intParam_pos)) as (p & -> & _).
  eexists. split; [done|status].
Qed.

(** ** Creation *)

(** What a creation relies on for the new queue to be reachable: a [Wait] that has
    returned, and an attempt limit that fits the stored width. *)
Record creates (ev : Env) r : Prop := {
  ct_await req cfg d ix l b :
    decode createQueueFields zeroCreateQueue r = inl req -> Validate (create_cfg req) = (cfg, None) ->
    Create (ev_path ev) cfg (ev_statErr ev) (ev_view ev) (ev_openIO ev) (ev_disk ev) = Some (d, inl (ix, l, b)) ->
    rtc log_background l (ev_await ev l b).1 /\ Wait b (ev_await ev l b).1 = Some (ev_await ev l b).2;
  ct_attempts req : decode createQueueFields zeroCreateQueue r = inl req -> cq_MaxAttempts req < 2 ^ 32;
}.

Lemma Create_total path cfg statErr view io d : is_Some (Create path cfg statErr view io d).
Proof.
  unfold Create. destruct (Validate cfg) as [cfg' [e|]]; [done|].
  destruct statErr as [e|]; cbn [mbind option_bind].
  - destruct (Open io d 0) as [d1 [l0|err]]; [|done]. destruct (encodeConfig cfg') as [meta|err]; [|done].
    by destruct (Append TypeMeta meta l0) as [l1 [b|err]].
  - destruct (Replay_total path (fun _ (st : unit) => (st, None)) view tt) as [[[res [e|]] st] ->]; cbn [mbind option_bind]; [done|].
    destruct (Records res >? 0); [done|].
    destruct (Open io d 0) as [d1 [l0|err]]; [|done]. destruct (encodeConfig cfg') as [meta|err]; [|done].
    by destruct (Append TypeMeta meta l0) as [l1 [b|err]].
Qed.

Lemma created_startQueue req cfg path statErr view io d d' ix l l' b now :
  config_typed (create_cfg req) -> cq_MaxAttempts req < 2 ^ 32 -> Validate (create_cfg req) = (cfg, None) ->
  Create path cfg statErr view io d = Some (d', inl (ix, l, b)) -> rtc log_background l l' -> Wait b l' = Some None ->
  queue_reachable (startQueue path ix l' now) /\ ix_byID ix = ∅.
Proof.
  intros Hty Hat Hv HC Hbg HW. destruct (Validate_typed _ _ Hv Hty) as [Hty' Hn].
  destruct (Validate_keeps _ _ Hv) as [_ Ha].
  split; [|by destruct (Create_correct _ _ _ _ _ _ _ _ _ _ HC) as (c1 & meta & l0 & _ & _ & -> & _)].
  apply qr_create. exists path, cfg, statErr, view, io, d, d', ix, l, l', b, now. split_and!; try done.
  - by rewrite Hn.
  - destruct Ha as [->| ->]; done.
Qed.

Lemma createQueue_served strict ev r m :
  kept_all strict m -> map_orders_of ev r m -> needs strict (creates ev r) ->
  exists m' h, createQueue ev r m = Some (m', h) /\ served strict m m' h.
Proof.
  intros Hm Ho Hn. unfold createQueue. destruct (decode createQueueFields zeroCreateQueue r) as [req|resp] eqn:Ed.
  2: { eexists _, _. split; [done|]. apply served_reply; [done|by eapply decode_status]. }
  fold (create_cfg req).
  assert (forall err, exists m' h, Some (m, Reply (writeError (if Is isErrQueueExists err then StatusConflict else StatusBadRequest) err))
    = Some (m', h) /\ served strict m m' h) as Hno.
  { intros err. eexists _, _. split; [done|]. apply served_reply; [done|]. destruct (Is _ err); status. }
  cbv zeta. fold (create_cfg req). unfold Manager_Create. destruct (Validate (create_cfg req)) as [cfg [err|]] eqn:Hv; [apply Hno|].
  destruct (mg_queues m !! c_Name cfg) as [q|] eqn:Hq; [apply Hno|].
  assert (c_Name cfg = cq_Name req) as Hname by exact (proj1 (Validate_keeps _ _ Hv)).
  rewrite Hname in Hq |- *. pose proof (mo_new _ _ _ Ho _ Ed Hq) as Hid.
  destruct (Create_total (ev_path ev) cfg (ev_statErr ev) (ev_view ev) (ev_openIO ev) (ev_disk ev)) as [[d o] HC].
  rewrite HC. cbn [mbind option_bind]. destruct o as [[[ix l] b]|err]; [|apply Hno].
  destruct (ev_await ev l b) as [l' oerr] eqn:Haw. destruct oerr as [err|]; cbn [Create_finish]; [apply Hno|].
  destruct (created_sound _ _ _ _ _ _ _ _ _ _ l' (ev_now ev) HC) as [Hs He].
  assert (kept strict (startQueue (ev_path ev) ix l' (ev_now ev))) as Hr.
  { destruct strict; [|exact Hs]. destruct Hn as [Hwait Hat]. destruct (Hwait _ _ _ _ _ _ Ed Hv HC) as [Hbg HW].
    rewrite Haw in Hbg, HW.
    exact (proj1 (created_startQueue req cfg _ _ _ _ _ _ _ _ _ _ (ev_now ev) (decode_create_typed _ _ Ed) (Hat _ Ed) Hv HC Hbg HW)). }
  destruct (Stats_sound (ev_statsNow ev (cq_Name req)) (ev_byID ev (cq_Name req)) _ Hs) as [st Est].
  { change (q_ix (startQueue _ ix l' _)) with ix. by rewrite Hid, He, map_to_list_empty. }
  cbn [mbind option_bind]. rewrite Est. cbn [mbind option_bind].
  eexists _, _. split; [done|]. split.
  - apply map_Forall_insert_2; [done|exact Hm].
  - change (StatusCreated ∈ statuses); status.
  - cbn [with_queues mg_queues]. rewrite dom_insert. set_solver.
Qed.

(** ** Every request *)

(** What keeps the queues reachable: the clock is in range, what is enqueued can
    be stored and its id is new, a [Sync] and a [Wait] have returned, and the
    attempt limit of a new queue can be stored. *)
Record env_ok (ev : Env) r m : Prop := {
  en_now : in_int64 (ev_now ev);
  en_enqueue name q req :
    Routes (rq_Method r) (rq_Path r) = Some (REnqueue name) -> mg_queues m !! name = Some q ->
    decode enqueueFields zeroEnqueue r = inl req -> draws_fresh ev req q;
  en_compact name q :
    Routes (rq_Method r) (rq_Path r) = Some (RCompact name) -> mg_queues m !! name = Some q ->
    compact_args (ev_byID ev name) (ev_dedup ev) (ev_syncErr ev) q;
  en_create : Routes (rq_Method r) (rq_Path r) = Some RCreateQueue -> creates ev r;
}.

Lemma reads_served strict m o : kept_all strict m -> reads m o -> exists m' h, o = Some (m', h) /\ served strict m m' h.
Proof. intros Hm (resp & -> & Hs). eexists _, _. split; [done|]. by apply served_reply. Qed.

Lemma kept_all_sound strict m : kept_all strict m -> kept_all false m.
Proof. intros Hm name q Hq. by eapply kept_sound, Hm. Qed.

(** Without [POST] there are only reads. *)
Lemma Routes_GET method path :
  method <> "POST" ->
  match Routes method path with
  | Some (RCreateQueue | REnqueue _ | RDequeue _ | RAck _ _ | RNack _ _ | RCompact _) => False
  | _ => True
  end.
Proof.
  intros Hm. unfold Routes. rewrite (bool_decide_eq_false_2 (method = "POST")) by done.
  destruct path as [|a [|name [|b [|id [|c [|? ?]]]]]]; rewrite ?andb_false_r; cbn [negb]; try done;
    repeat case_match; simplify_eq; try done; bool_prop; naive_solver.
Qed.

Lemma serve_reads ev r m :
  kept_all false m -> map_orders_of ev r m -> rq_Method r <> "POST" -> reads m (serve ev r m).
Proof.
  intros Hm Ho Hp. pose proof (Routes_GET _ (rq_Path r) Hp) as Hg. unfold serve.
  destruct (Routes (rq_Method r) (rq_Path r)) as [[]|]; try done.
  - by eapply listQueues_reads.
  - by eapply stats_reads.
  - by apply dlq_reads.
  - by apply peek_reads.
  - by eapply healthz_reads.
  - eexists. split; [done|]. unfold noRoute. repeat case_match; status.
Qed.

Lemma serve_served strict ev r m :
  kept_all strict m -> map_orders_of ev r m -> needs strict (env_ok ev r m) ->
  exists m' h, serve ev r m = Some (m', h) /\ served strict m m' h.
Proof.
  intros Hm Ho Hn. pose proof (kept_all_sound _ _ Hm) as Hs.
  assert (needs strict (in_int64 (ev_now ev))) as Hnow by (destruct strict; [apply Hn|done]).
  unfold serve. destruct (Routes (rq_Method r) (rq_Path r)) as [rt|] eqn:Ert.
  2: { eexists _, _. split; [done|]. apply served_reply; [done|]. unfold noRoute. repeat case_match; status. }
  destruct rt as [| |name|name|name id|name id|name|name|name|name|].
  - apply createQueue_served; [done..|]. destruct strict; [by apply Hn|done].
  - by eapply reads_served, listQueues_reads.
  - apply withQueue_served; [done|]. intros q Hl Hq. apply enqueue_handled; [done..|].
    intros req Hd. destruct strict; [by eapply Hn|done].
  - apply withQueue_served; [done|]. intros q _ Hq. by apply dequeue_handled.
  - apply withQueue_served; [done|]. intros q _ Hq. by apply ack_handled.
  - apply withQueue_served; [done|]. intros q _ Hq. by apply nack_handled.
  - by eapply reads_served, stats_reads.
  - by apply reads_served, dlq_reads.
  - by apply reads_served, peek_reads.
  - apply withQueue_served; [done|]. intros q Hl Hq. apply compact_handled; [done|by apply Ho|].
    destruct strict; [by apply Hn|done].
  - by eapply reads_served, healthz_reads.
Qed.

(** C13: The HTTP interface neither panics nor corrupts. Over every manager whose queues have well-formed indexes, every request, whatever its method, path, query and body, and whatever the clock, the random source and the system calls return and whichever order the maps are iterated in, is handled: [serve] does not panic, every index stays well-formed, no queue disappears, and the answer has one of the documented statuses, at once or after the handler's wait for the disk, whatever became of the queue in the meantime and whatever the wait returned; a request that is not a [POST] changes nothing at all. If moreover the queues are reachable, then so they stay, and every theorem about reachable queues holds behind the interface, as long as the request can be stored, which the server does not check itself: the clock, and the clock plus [delay_ms] and plus the dedup window, are within [int64], the [max_attempts] of a new queue is below 2^32, sequence numbers are below 2^64, the id that is drawn is new, and a compaction's [Sync] returns what the log lets it return. *)
Theorem serve_safe ev r m :
  kept_all false m -> map_orders_of ev r m ->
  exists m' h, serve ev r m = Some (m', h) /\ served false m m' h /\ (rq_Method r <> "POST" -> m' = m) /\
    (good m -> env_ok ev r m -> good m' /\ served true m m' h).
Proof.
  intros Hm Ho. destruct (serve_served false ev r m Hm Ho I) as (m' & h & E & Hs). exists m', h. split_and!; [done..| |].
  - intros Hp. destruct (serve_reads ev r m Hm Ho Hp) as (resp & E' & _). congruence.
  - intros Hg Hok. destruct (serve_served true ev r m Hg Ho Hok) as (m1 & h1 & E1 & Hs1). rewrite E in E1. injection E1 as <- <-.
    split; [apply Hs1|done].
Qed.

(** ** A 201 *)

(** [resp] is the answer to a request that was handled as [h], the queue being [q]
    when the handler ended. *)
Definition answers (h : Handled) q (resp : Response) : Prop :=
  match h with
  | Reply resp' => resp = resp'
  | Await _ b p => exists err, Wait b (q_log q) = Some err /\ resp = (serve_finish p err q).2
  end.

Lemma answers_other q resp res :
  rs_Status resp <> StatusCreated -> ~ answers (Reply resp) q (mkResponse StatusCreated (VEnqueued res)).
Proof. intros Hs Ha. cbn [answers] in Ha. by subst resp. Qed.

Lemma enqueueResponse_201 (res0 res : EnqueueResult) err :
  mkResponse StatusCreated (VEnqueued res) = enqueueResponse res0 err ->
  err = None /\ res0 = res /\ er_Duplicate res0 = false.
Proof.
  intros Hr. destruct err as [err|]; cbn [enqueueResponse] in Hr.
  - apply (f_equal rs_Status) in Hr. unfold writeQueueError in Hr. by repeat case_match.
  - pose proof (f_equal rs_Status Hr) as Hs. apply (f_equal rs_Value) in Hr. cbn [rs_Value rs_Status] in *.
    split_and!; [done|congruence|]. by destruct (er_Duplicate res0).
Qed.

(** A 201 to an enqueue comes after its wait has returned nil. *)
Lemma enqueue_201 ev r name q q1 h q2 res :
  enqueue ev r name q = Some (q1, h) -> answers h q2 (mkResponse StatusCreated (VEnqueued res)) ->
  exists req b, decode enqueueFields zeroEnqueue r = inl req /\
    Z.of_nat (length (eq_Payload req)) <= MaxPayloadBytes /\ Z.of_nat (strlen (eq_DedupID req)) <= 256 /\
    (forall base T, QInv base T q -> enqueue_ok (ev_now ev) (ev_rand8 ev) (eq_Payload req) (eq_Priority req)
       (mulDuration (eq_DelayMS req) Millisecond) (eq_DedupID req) q ->
     Enqueue (ev_now ev) (ev_rand8 ev) (eq_Payload req) (eq_Priority req)
      (mulDuration (eq_DelayMS req) Millisecond) (eq_DedupID req) q = Some (q1, AwaitDurable b (res, None)) /\
     Wait b (q_log q2) = Some None).
Proof.
  unfold enqueue. destruct (decode enqueueFields zeroEnqueue r) as [req|resp] eqn:Ed.
  2: { intros [= <- <-] Ha. unfold decode in Ed. destruct (Decode _ _ _ _) as [s [e|]]; [|discriminate].
       assert (resp = invalidBody e) as -> by congruence. by apply answers_other in Ha. }
  cbv zeta. destruct (_ =? 0); [intros [= <- <-] Ha; by apply answers_other in Ha|].
  destruct (Z.gtb_spec (Z.of_nat (length (eq_Payload req))) MaxPayloadBytes); [intros [= <- <-] Ha; by apply answers_other in Ha|].
  destruct (eq_DelayMS req <? 0); [intros [= <- <-] Ha; by apply answers_other in Ha|].
  destruct (Z.gtb_spec (Z.of_nat (strlen (eq_DedupID req))) 256); [intros [= <- <-] Ha; by apply answers_other in Ha|].
  intros ([q0 ph] & E & Hh)%bind_Some Ha. destruct ph as [[res0 err]|b [res0 err0]]; injection Hh as -> <-; cbn [answers] in Ha.
  - exists req, 0. split_and!; [done|lia|lia|]. intros base T HQ Hok. exfalso.
    destruct (Enqueue_correct base T _ _ _ _ _ _ q HQ Hok) as (q' & ph & E' & _ & Hout). rewrite E in E'. injection E' as <- <-.
    apply enqueueResponse_201 in Ha as (-> & _ & Hdup). by inversion Hout; subst.
  - destruct Ha as (err & HW & Hresp). cbn [serve_finish] in Hresp. exists req, b. split_and!; [done|lia|lia|].
    intros base T HQ Hok. destruct (Enqueue_correct base T _ _ _ _ _ _ q HQ Hok) as (q' & ph & E' & _ & Hout).
    rewrite E in E'. injection E' as <- <-. assert (err0 = None) as -> by by inversion Hout.
    unfold Enqueue_finish, waitDurable in Hresp. destruct err as [err|]; cbn [snd] in Hresp; apply enqueueResponse_201 in Hresp as (? & -> & _); done.
Qed.

(** C4: A 201 is a promise kept. When a [POST /queues/{name}/messages] is answered 201 with an id, after whatever else happened to the queue between the handler's first half and its answer, compactions included, then whenever the machine stops, the reloaded queue holds under that id the payload of the request, byte for byte, with its priority and dedup id, unless it was acknowledged. The request is one the log can store, which the server does not check itself: clock plus [delay_ms] and plus the dedup window are within [int64], and the id that is drawn is new. *)
Theorem http_201_is_durable ev r m name q m1 q1 h ops q2 res img lname path clock t :
  good m -> env_ok ev r m -> Routes (rq_Method r) (rq_Path r) = Some (REnqueue name) ->
  mg_queues m !! name = Some q -> serve ev r m = Some (m1, h) -> mg_queues m1 !! name = Some q1 ->
  queue_run ops q1 q2 -> OpAck (er_ID res) ∉ ops ->
  answers h q2 (mkResponse StatusCreated (VEnqueued res)) ->
  crash q2 img -> (forall o, in_int64 (clock o)) ->
  exists req q' d' msg, decode enqueueFields zeroEnqueue r = inl req /\
    Load lname path (OpenOk (plainFile img)) clock noIO (mkDisk img []) t = Some (d', inl q') /\
    contents q' !! er_ID res = Some msg /\ m_Payload msg = eq_Payload req /\ m_Priority msg = eq_Priority req /\
    m_DedupID msg = eq_DedupID req /\ m_Seq msg = er_Seq res.
Proof.
  intros Hm [Hnow Henq _ _] Hrt Hq E Hq1 Hrun Hack Ha Hcr Hclk. unfold serve in E. rewrite Hrt in E.
  unfold withQueue, Manager_Get in E. rewrite Hq in E. apply bind_Some in E as ([q0 h0] & E & [= <- <-]).
  unfold set_queue, with_queues in Hq1. cbn [mg_queues] in Hq1. rewrite lookup_insert_eq in Hq1. injection Hq1 as ->.
  destruct (enqueue_201 _ _ _ _ _ _ _ _ E Ha) as (req & b & Ed & Hl & Hd & HE).
  destruct (queue_reachable_QInv q (Hm _ _ Hq)) as (base & T & HQ).
  pose proof (checked_enqueue_ok ev req q Hnow (decode_enqueue_typed _ _ Ed) (Henq _ _ _ Hrt Hq Ed) Hl Hd) as Hok.
  destruct (HE base T HQ Hok) as [E' HW].
  destruct (enqueue_survives _ _ _ _ _ _ ops q q1 q2 b res img lname path clock t (Hm _ _ Hq) Hok E' Hrun Hack HW Hcr Hclk)
    as (q' & d' & msg & HL & Hc & Hp & Hpr & Hs & Hdd & _).
  exists req, q', d', msg. by split_and!.
Qed.

(** ** Witnesses *)

(** JSON text, with apostrophes for its quotes. *)
Definition ex_json (s : string) : list byte := (fun b => if byteZ b =? 39 then quote else b) <$> bytes_of_string s.
Definition ex_post (path : list string) (body : string) : Req := mkReq "POST" path (fun _ => "") (ex_json body) None.
Definition ex_msgs : list string := ["queues"; "jobs"; "messages"].
Definition ex_postEnqueue : Req := ex_post ex_msgs "{'payload': {'n': 1}, 'priority': 3, 'dedup_id': 'd1'}".
Definition ex_postCreate : Req := ex_post ["queues"] "{'name': 'jobs', 'max_attempts': 2}".

Definition ex_env (queues ids : list string) : Env :=
  mkEnv (ex_t0 + 1) (fun _ => ex_t0) (ex_id 1) queues (fun _ => ids) [] ex_path (Some (EIO "no such file"))
    (OpenOk (plainFile [])) noIO (mkDisk [] [])
    (fun l _ => (ex_flush l, None)) None noCompactIO.

(** Its result, without the queues. *)
Definition ex_answer (o : option (Manager * Handled)) : option Handled := snd <$> o.

Definition ex_after_post : Queue := default ex_q0
  (o ← serve (ex_env ["jobs"] []) ex_postEnqueue (ex_mgr ex_q0); mg_queues o.1 !! "jobs").
Definition ex_after_post' : Queue := with_log (ex_flush (q_log ex_after_post)) ex_after_post.

Lemma ex_mgr_lookup q name q1 : mg_queues (ex_mgr q) !! name = Some q1 -> name = "jobs" /\ q1 = q.
Proof. unfold ex_mgr. cbn [mg_queues]. by intros [<- <-]%lookup_singleton_Some. Qed.

Lemma ex_orders_of r q : ex_ids1 q = [] -> map_orders_of (ex_env ["jobs"] []) r (ex_mgr q).
Proof.
  intros Hq. split; cbn [ex_mgr mg_queues ex_env ev_queues ev_byID].
  - rewrite map_to_list_singleton. done.
  - intros name q1 [_ ->]%ex_mgr_lookup. change ([] ≡ₚ ex_ids1 q). by rewrite Hq.
  - done.
Qed.

Lemma ex_post_env q :
  (forall req, decode enqueueFields zeroEnqueue ex_postEnqueue = inl req -> draws_fresh (ex_env ["jobs"] []) req q) ->
  env_ok (ex_env ["jobs"] []) ex_postEnqueue (ex_mgr q).
Proof.
  intros Hd. split; [split; vm_compute; congruence| | |].
  - intros name q1 req _ [_ ->]%ex_mgr_lookup Hr. by apply Hd.
  - intros name q1 Hr. vm_compute in Hr. discriminate.
  - intros Hr. vm_compute in Hr. discriminate.
Qed.

Lemma ex_draws req :
  decode enqueueFields zeroEnqueue ex_postEnqueue = inl req -> draws_fresh (ex_env ["jobs"] []) req ex_q0.
Proof.
  intros Hr. vm_compute in Hr. assert (eq_DelayMS req = 0) as Hd by (by apply (f_equal (fun x => match x with inl y => eq_DelayMS y | _ => 0 end)) in Hr).
  split; rewrite ?Hd.
  all: try (vm_compute; reflexivity); try (apply unused_compute; vm_compute; reflexivity).
  all: vm_compute; intuition congruence.
Qed.

Lemma ex_q0_ids : ex_ids1 ex_q0 = [].
Proof. vm_compute. reflexivity. Qed.

Lemma ex_q0_env : env_ok (ex_env ["jobs"] []) ex_postEnqueue (ex_mgr ex_q0).
Proof. apply ex_post_env. exact ex_draws. Qed.

(** The wait of a creation returns once the flusher has had its turn. *)
Definition ex_waits (o : option (Disk * (Index * Log * Z + Err))) : bool :=
  match o with
  | Some (_, inl (_, l, b)) =>
    (lg_nextSeq l + 1 <? 2 ^ 64) && match Wait b (ex_flush l) with Some None => true | _ => false end
  | _ => false
  end.

Lemma ex_create_env : env_ok (ex_env [] []) ex_postCreate (mkManager "data" ∅).
Proof.
  split; [split; vm_compute; congruence| | |].
  - intros name q req Hr. vm_compute in Hr. discriminate.
  - intros name q Hr. vm_compute in Hr. discriminate.
  - intros _. split; [|intros req Hr; vm_compute in Hr; by injection Hr as <-].
    intros req cfg d ix l b Hr Hv HC. vm_compute in Hr. injection Hr as <-. vm_compute in Hv. injection Hv as <-.
    apply (f_equal ex_waits) in HC. cbn [ex_waits] in HC.
    match type of HC with ?x = ?y => assert (y = true) as Hw by (rewrite <- HC; vm_compute; reflexivity) end.
    apply andb_true_iff in Hw as [H1 H2].
    split; [apply ex_flush_background; by apply Z.ltb_lt|]. cbn [ex_env ev_await fst snd]. by destruct (Wait b _) as [[|]|].
Qed.

Lemma ex_create_orders : map_orders_of (ex_env [] []) ex_postCreate (mkManager "data" ∅).
Proof. split; [reflexivity|intros name q Hl; cbn [mg_queues] in Hl; by apply lookup_empty_Some in Hl|done]. Qed.

(** A delay no time can hold. *)
Definition ex_postFar : Req := ex_post ex_msgs "{'payload': 1, 'delay_ms': 9223372036854775807}".

(** A message is posted, a queue is created, and the far delay is answered too. *)
Lemma serve_safe_witness :
  (exists m', serve (ex_env ["jobs"] []) ex_postEnqueue (ex_mgr ex_q0)
     = Some (m', Await "jobs" 2 (PEnqueue (mkEnqueueResult (newID (ex_id 1)) 1 (ex_t0 + 1) false))) /\ good m') /\
  (exists m' resp, serve (ex_env [] []) ex_postCreate (mkManager "data" ∅) = Some (m', Reply resp) /\
     rs_Status resp = StatusCreated /\ good m') /\
  (exists m' h, serve (ex_env ["jobs"] []) ex_postFar (ex_mgr ex_q0) = Some (m', h) /\ served false (ex_mgr ex_q0) m' h).
Proof.
  pose proof (kept_all_sound true _ (ex_mgr_good _ ex_q0_reachable)) as Hsound. split; [|split].
  - destruct (serve_safe (ex_env ["jobs"] []) ex_postEnqueue (ex_mgr ex_q0) Hsound (ex_orders_of _ _ ex_q0_ids))
      as (m' & h & E & _ & _ & Hg). destruct (Hg (ex_mgr_good _ ex_q0_reachable) ex_q0_env) as [Hg' _].
    exists m'. split; [|exact Hg']. rewrite E. f_equal. f_equal.
    assert (ex_answer (Some (m', h)) = Some (Await "jobs" 2 (PEnqueue (mkEnqueueResult (newID (ex_id 1)) 1 (ex_t0 + 1) false)))) as Ea
      by (rewrite <- E; vm_compute; reflexivity).
    exact (inj Some _ _ Ea).
  - destruct (serve_safe (ex_env [] []) ex_postCreate (mkManager "data" ∅) (map_Forall_empty _) ex_create_orders)
      as (m' & h & E & _ & _ & Hg). destruct (Hg (map_Forall_empty _) ex_create_env) as [Hg' _].
    assert ((h ← ex_answer (Some (m', h)); match h with Reply resp => Some (rs_Status resp) | _ => None end) = Some StatusCreated) as Ea
      by (rewrite <- E; vm_compute; reflexivity).
    destruct h as [resp|]; [|discriminate Ea]. exists m', resp. split; [exact E|]. split; [exact (inj Some _ _ Ea)|exact Hg'].
  - destruct (serve_safe (ex_env ["jobs"] []) ex_postFar (ex_mgr ex_q0) Hsound (ex_orders_of _ _ ex_q0_ids))
      as (m' & h & E & Hs & _). exists m', h. split; [exact E|exact Hs].
Defined.

Lemma ex_posted : exists m1 q1, serve (ex_env ["jobs"] []) ex_postEnqueue (ex_mgr ex_q0)
    = Some (m1, Await "jobs" 2 (PEnqueue (mkEnqueueResult (newID (ex_id 1)) 1 (ex_t0 + 1) false))) /\
  mg_queues m1 !! "jobs" = Some q1 /\ q1 = ex_after_post.
Proof.
  unfold ex_after_post. destruct (serve _ _ _) as [[m1 h]|] eqn:E; [|exfalso; vm_compute in E; discriminate].
  assert (ex_answer (Some (m1, h)) = Some (Await "jobs" 2 (PEnqueue (mkEnqueueResult (newID (ex_id 1)) 1 (ex_t0 + 1) false)))) as Ea
    by (rewrite <- E; vm_compute; reflexivity).
  assert (is_Some (mg_queues m1 !! "jobs")) as [q1 Hq].
  { assert (bool_decide (is_Some (o ← Some (m1, h); mg_queues o.1 !! "jobs")) = true) as Hb
      by (rewrite <- E; vm_compute; reflexivity).
    exact (bool_decide_eq_true_1 _ Hb). }
  exists m1, q1. cbn [mbind option_bind fst]. rewrite Hq. split; [|split]; [|reflexivity|reflexivity]. apply f_equal, f_equal. exact (inj Some _ _ Ea).
Qed.

(** The message is posted, its batch is written, and the machine stops. *)
Lemma http_201_is_durable_witness :
  exists req q' d' msg, decode enqueueFields zeroEnqueue ex_postEnqueue = inl req /\
    Load "jobs" ex_path (OpenOk (plainFile (ex_img ex_after_post'))) (fun _ => 77) noIO (mkDisk (ex_img ex_after_post') []) 77
      = Some (d', inl q') /\
    contents q' !! newID (ex_id 1) = Some msg /\ m_Payload msg = ex_json "{'n': 1}" /\ m_Priority msg = 3.
Proof.
  destruct ex_posted as (m1 & q1 & E & Hq1 & ->).
  destruct (queue_run_background ex_after_post (ex_flush (q_log ex_after_post))) as (ops & Hrun & Hops);
    [apply ex_flush_background; vm_compute; reflexivity|].
  destruct (http_201_is_durable (ex_env ["jobs"] []) ex_postEnqueue (ex_mgr ex_q0) "jobs" ex_q0 m1 ex_after_post (Await "jobs" 2 (PEnqueue (mkEnqueueResult (newID (ex_id 1)) 1 (ex_t0 + 1) false))) ops
    ex_after_post' (mkEnqueueResult (newID (ex_id 1)) 1 (ex_t0 + 1) false) (ex_img ex_after_post') "jobs" ex_path (fun _ => 77) 77
    (ex_mgr_good _ ex_q0_reachable) ex_q0_env) as (req & q' & d' & msg & Hd & HL & Hc & Hp & Hpr & _).
  - vm_compute. reflexivity.
  - apply lookup_singleton_eq.
  - exact E.
  - exact Hq1.
  - exact Hrun.
  - intros Hin. rewrite Forall_forall in Hops. destruct (Hops _ Hin) as [? ?]. discriminate.
  - exists None. split; vm_compute; reflexivity.
  - apply ex_crash. vm_compute. reflexivity.
  - exact ex_clock.
  - exists req, q', d', msg. split; [exact Hd|]. split; [exact HL|]. split; [exact Hc|].
    assert (eq_Payload req = ex_json "{'n': 1}" /\ eq_Priority req = 3) as [<- <-]; [|split; [exact Hp|exact Hpr]].
    assert (inl req = inl (B:=Response) (mkEnqueueRequest (ex_json "{'n': 1}") 3 0 "d1")) as Hreq
      by (rewrite <- Hd; vm_compute; reflexivity).
    assert (req = mkEnqueueRequest (ex_json "{'n': 1}") 3 0 "d1") as -> by congruence. split; reflexivity.
Defined.
