(* ===== verification/Report.v ===== *)
(** * What [verify] prints

    The text of the errors of [wal.Replay] ([internal/wal/replay.go]) and of the
    report of [runVerify] ([cmd/artie-queue/main.go]), byte for byte: the demo's
    supervisor reads an offset out of it. *)

From Stdlib Require Import ZArith Lia.
From S2P Require Import Prelude GoInt Errors WalRecord Replay Message Index Load Json Manager Main.

(** ** Formatting *)

(** [%s] of a constant, [%d], and [%#08x] of a [uint32] (the eight digits do not
    count the [0x]). *)
Notation lit := bytes_of_string (only parsing).
Definition nl : list byte := [x0a].
Definition hex32 (z : Z) : list byte := lit "0x" ++ hexEncode (reverse (le_bytes 4 z)).

(** ** Errors *)

(** The [Reason] of a [CorruptionError]. *)
Definition reasonText (r : CorruptionReason) : list byte :=
  match r with
  | HeaderChecksumMismatch want got =>
    lit "record header checksum mismatch (header says " ++ hex32 want ++ lit ", computed " ++ hex32 got ++
    lit "); the length or type field is damaged, so the framing of everything after this point is unknown"
  | LengthExceedsMaximum length =>
    lit "record length " ++ appendInt length ++ lit " exceeds maximum " ++ appendInt MaxRecordSize
  | ChecksumMismatch want got length =>
    lit "checksum mismatch (header says " ++ hex32 want ++ lit ", computed " ++ hex32 got ++ lit " over " ++
    appendInt length ++ lit " payload bytes)"
  | UnknownRecordType t => lit "unknown record type " ++ appendInt (byteZ t)
  end.

(** [func (e *CorruptionError) Error() string] *)
Definition CorruptionError_Error (path : string) (off : Z) (r : CorruptionReason) : list byte :=
  lit "wal: corrupt record in " ++ lit path ++ lit " at byte offset " ++ appendInt off ++ lit ": " ++ reasonText r ++
  lit " (refusing to start; inspect with `artie-queue verify -dir <dir>`, or discard everything from this offset onward with `artie-queue repair -dir <dir> -queue <name> -truncate-at "
  ++ appendInt off ++ lit "`)".

(** [err.Error()] of what [Replay] returns when its callback returns nil; [None]
    for the errors of other operations. *)
Fixpoint ReplayError_Error (e : Err) : option (list byte) :=
  match e with
  | EIO what => Some (lit what)
  | CorruptionError path off r => Some (CorruptionError_Error path off r)
  | EReadingHeader off path e =>
    t ← ReplayError_Error e; Some (lit "wal: reading header at " ++ appendInt off ++ lit " in " ++ lit path ++ lit ": " ++ t)
  | EReadingPayload off path e =>
    t ← ReplayError_Error e; Some (lit "wal: reading payload at " ++ appendInt off ++ lit " in " ++ lit path ++ lit ": " ++ t)
  | _ => None
  end.

(** ** The report *)

Definition countText (c : RecType * Z) : list byte := lit ", " ++ lit (Type_String c.1) ++ lit "=" ++ appendInt c.2.

Definition tornText (t : TornTail) : list byte :=
  lit "      WARNING: torn tail record at offset " ++ appendInt (t_Offset t) ++ lit " (" ++ appendInt (t_Bytes t) ++
  lit " bytes); startup will truncate it" ++ nl.

Definition lineText (l : VerifyLine) : option (list byte) :=
  match l with
  | VFail path err => t ← ReplayError_Error err; Some (lit "FAIL  " ++ lit path ++ nl ++ lit "      " ++ t ++ nl)
  | VOk path records validBytes counts torn =>
    Some (lit "OK    " ++ lit path ++ nl ++ lit "      " ++ appendInt records ++ lit " records, " ++ appendInt validBytes ++
          lit " valid bytes" ++ concat (countText <$> counts) ++ nl ++ default [] (tornText <$> torn))
  end.

Definition isFail (l : VerifyLine) : bool := match l with VFail _ _ => true | VOk _ _ _ _ _ => false end.

(** Standard output and standard error of [runVerify], into one buffer, and its
    exit code. *)
Definition verifyReport (dir : string) (readDir : list DirEntry + Err) : option (list byte * Z) :=
  '(lines, found, code) ← runVerify readDir;
  match readDir with
  | inr err => t ← ReplayError_Error err; Some (lit "verify: " ++ t ++ nl, code)
  | inl _ =>
    ts ← mapM lineText lines;
    let bad := Z.of_nat (length (filter isFail lines)) in
    Some (concat ts ++
          (if found =? 0 then lit "no queue logs found under " ++ lit dir ++ nl else []) ++
          (if bad >? 0 then nl ++ appendInt bad ++ lit " log(s) failed verification" ++ nl else []), code)
  end.

(** ** What [repair] prints when it succeeds *)

Definition repairText (dir path backup : string) (size at_ : Z) : list byte :=
  lit "truncated " ++ lit path ++ lit " from " ++ appendInt size ++ lit " to " ++ appendInt at_ ++ lit " bytes (" ++
  appendInt (size - at_) ++ lit " bytes discarded)" ++ nl ++
  lit "original saved as " ++ lit backup ++ nl ++
  lit "run `artie-queue verify -dir " ++ lit dir ++ lit "` to confirm" ++ nl.
