(* ===== verification/Lab.v ===== *)
(** * The demo's supervisor ([internal/demo/supervisor.go])

    The crash lab: the supervisor kills the queue server, damages a log on
    purpose, runs [verify] and [repair], and starts the server again.  Processes
    and the clock are arguments; a message to the user is a constructor with the
    values it shows. *)

From Stdlib Require Import ZArith Lia.
From S2P Require Import Prelude GoInt Errors WalRecord Replay Message Index Log Load Json Manager Main Report.

(** ** The log pane *)

(** [type ringWriter struct] *)
Record ringWriter := mkRing {
  rw_buf : list (list byte);
  rw_max : Z;
  rw_part : list byte;
}.

Definition newRingWriter (max : Z) : ringWriter := mkRing [] max [].

Definition appendLocked (line : list byte) (w : ringWriter) : ringWriter :=
  if bool_decide (line = []) then w
  else
    let buf := rw_buf w ++ [line] in
    mkRing (if Z.of_nat (length buf) >? rw_max w then drop (Z.to_nat (Z.of_nat (length buf) - rw_max w)) buf else buf)
      (rw_max w) (rw_part w).

Definition set_part (part : list byte) (w : ringWriter) : ringWriter := mkRing (rw_buf w) (rw_max w) part.

(** [ReadString('\n')]: the line with its end, and the rest; or all of it, and [io.EOF]. *)
Fixpoint ReadString (b : list byte) : list byte * option (list byte) :=
  match b with
  | [] => ([], None)
  | x :: b' =>
    if bool_decide (x = x0a) then ([x], Some b')
    else let '(line, rest) := ReadString b' in (x :: line, rest)
  end.

(** [strings.TrimRight(line, "\r\n")] *)
Fixpoint TrimRight (b : list byte) : list byte :=
  match b with
  | [] => []
  | x :: b' =>
    match TrimRight b' with
    | [] => if bool_decide (x = x0d) || bool_decide (x = x0a) then [] else [x]
    | t => x :: t
    end
  end.

(** The loop of [Write] over [w.part]. *)
Fixpoint write_loop (fuel : nat) (w : ringWriter) : option ringWriter :=
  match fuel with
  | O => None
  | S fuel =>
    match ReadString (rw_part w) with
    | (line, None) => Some (set_part line w)
    | (line, Some rest) => write_loop fuel (appendLocked (TrimRight line) (set_part rest w))
    end
  end.

Definition ring_Write (p : list byte) (w : ringWriter) : option ringWriter :=
  write_loop (S (length (rw_part w ++ p))) (set_part (rw_part w ++ p) w).

Definition ring_add (line : list byte) (w : ringWriter) : ringWriter := appendLocked line w.

Definition ring_lines (w : ringWriter) : list (list byte) := rw_buf w.

(** ** The supervised process *)

(** [type Supervisor struct], but for the handle of the process ([cmd], whether
    there has been one). *)
Record Supervisor := mkSupervisor {
  sp_bin : string;
  sp_dir : string;
  sp_addr : string;
  sp_cmd : bool;
  sp_running : bool;
  sp_lastExit : string;
  sp_logs : ringWriter;
}.

Definition NewSupervisor (bin dir addr : string) : Supervisor :=
  mkSupervisor bin dir addr false false "" (newRingWriter 300).

Definition set_process (cmd running : bool) (lastExit : string) (s : Supervisor) : Supervisor :=
  mkSupervisor (sp_bin s) (sp_dir s) (sp_addr s) cmd running lastExit (sp_logs s).
Definition set_logs (w : ringWriter) (s : Supervisor) : Supervisor :=
  mkSupervisor (sp_bin s) (sp_dir s) (sp_addr s) (sp_cmd s) (sp_running s) (sp_lastExit s) w.
Definition logLine (line : list byte) (s : Supervisor) : Supervisor := set_logs (ring_add line (sp_logs s)) s.

(** The goroutine that waits for the process: [err.Error()], if any. *)
Definition processExited (err : option string) (s : Supervisor) : Supervisor :=
  set_process (sp_cmd s) false (match err with Some e => e | None => "exited cleanly" end) s.

Definition lastLogLines (n : nat) (s : Supervisor) : list (list byte) :=
  let lines := ring_lines (sp_logs s) in
  if (n <? length lines)%nat then drop (length lines - n) lines else lines.

(** What one turn of the wait in [Start] sees: the process has exited; it has not,
    and does not answer; it answers, and 50 ms later it has exited or not. *)
Inductive Poll := PExited (err : option string) | PSilent | PHealthy (exited : option (option string)).

Inductive StartResult :=
  | Started
  | AlreadyRunning
  | StartFailed (err : Err)
  | Refused (logs : list (list byte))
  | PortTaken (logs : list (list byte))
  | NotHealthy.

(** [Kill]: whether the process is seen to exit within the two seconds. *)
Definition Kill (dies : bool) (s : Supervisor) : Supervisor :=
  if negb (sp_cmd s) then s
  else
    let s := logLine (bytes_of_string "--- SIGKILL ---") s in
    if dies && sp_running s then processExited (Some "signal: killed") s else s.

(** The turns until the deadline. *)
Fixpoint start_loop (polls : list Poll) (dies : bool) (s : Supervisor) : Supervisor * StartResult :=
  match polls with
  | [] => (Kill dies s, NotHealthy)
  | PExited err :: _ => let s := processExited err s in (s, Refused (lastLogLines 6 s))
  | PSilent :: polls => start_loop polls dies s
  | PHealthy None :: _ => (s, Started)
  | PHealthy (Some err) :: _ => let s := processExited err s in (s, PortTaken (lastLogLines 6 s))
  end.

(** [Start]: [banner] is the line it logs, [output] what the process has written
    to its log by then. *)
Definition Supervisor_Start (banner : list byte) (execErr : option Err) (output : list byte) (polls : list Poll)
    (dies : bool) (s : Supervisor) : option (Supervisor * StartResult) :=
  if sp_running s then Some (s, AlreadyRunning)
  else
    let s := logLine banner s in
    match execErr with
    | Some err => Some (s, StartFailed err)
    | None =>
      w ← ring_Write output (sp_logs s);
      Some (start_loop polls dies (set_logs w (set_process true true "" s)))
    end.

(** ** The corruption lab *)

(** [filepath.Join(s.dir, queue, "wal.log")] for a clean directory and name. *)
Definition logPath (queue : string) (s : Supervisor) : string := (sp_dir s +:+ "/" +:+ queue +:+ "/wal.log")%string.

Inductive LabError := StopFirst | LabIO (err : Err) | LogTooShort (n : Z).
Inductive Flipped := mkFlipped (off : Z) (path : string) (old new : byte).
Inductive Appended := mkAppended (off : Z) (path : string).

(** [FlipByteMidLog]; [readErr] and [writeErr] are what the file operations return
    beside the absence of the file.  A failed [WriteFile] may leave any [part]. *)
Definition FlipByteMidLog (queue : string) (readErr : option Err) (writeErr : option (list byte * Err))
    (fs : Files) (s : Supervisor) : Files * (Flipped + LabError) :=
  if sp_running s then (fs, inr StopFirst)
  else
    let path := logPath queue s in
    match readErr, fs !! path with
    | Some err, _ => (fs, inr (LabIO err))
    | None, None => (fs, inr (LabIO ENotExist))
    | None, Some data =>
      if (length data <? 64)%nat then (fs, inr (LogTooShort (Z.of_nat (length data))))
      else
        let off := (length data / 2)%nat in
        let old := default x00 (data !! off) in
        let new := Zbyte (Z.lxor (byteZ old) 255) in
        match writeErr with
        | Some (part, err) => (<[path := part]> fs, inr (LabIO err))
        | None => (<[path := <[off := new]> data]> fs, inl (mkFlipped (Z.of_nat off) path old new))
        end
    end.

(** The fragment of a record that [TruncateTailMidRecord] appends. *)
Definition tornFragment : list byte := take (HeaderSize + 3) (Encode [] TypeEnqueue (repeat x78 64)).

(** [TruncateTailMidRecord]; a failed write may have written [n] bytes. *)
Definition TruncateTailMidRecord (queue : string) (openErr statErr : option Err) (writeErr : option (nat * Err))
    (fs : Files) (s : Supervisor) : Files * (Appended + LabError) :=
  if sp_running s then (fs, inr StopFirst)
  else
    let path := logPath queue s in
    match openErr, fs !! path with
    | Some err, _ => (fs, inr (LabIO err))
    | None, None => (fs, inr (LabIO ENotExist))
    | None, Some data =>
      match statErr with
      | Some err => (fs, inr (LabIO err))
      | None =>
        match writeErr with
        | Some (n, err) => (<[path := data ++ take n tornFragment]> fs, inr (LabIO err))
        | None => (<[path := data ++ tornFragment]> fs, inl (mkAppended (Z.of_nat (length data)) path))
        end
      end
    end.

(** ** Verify and repair *)

(** [strings.Index] *)
Fixpoint Index_ (sub b : list byte) : option nat :=
  if bool_decide (take (length sub) b = sub) then Some 0%nat
  else match b with [] => None | _ :: b' => S <$> Index_ sub b' end.

Definition marker : list byte := bytes_of_string "at byte offset ".

(** [parseOffset] *)
Definition parseOffset (report : list byte) : option Z :=
  i ← Index_ marker report;
  let rest := drop (i + length marker) report in
  ParseInt (fst (spanDigits rest)).

(** [Verify]: the output and the exit code; a command that cannot be run counts as
    code 0 with no output. *)
Definition Supervisor_Verify (execErr : option Err) (readDir : list DirEntry + Err) (s : Supervisor) : option (list byte * Z) :=
  match execErr with
  | Some _ => Some ([], 0)
  | None => verifyReport (sp_dir s) readDir
  end.

Inductive RepairResult :=
  | RepairStopFirst
  | NothingToRepair
  | NoOffset (report : list byte)
  | RepairFailed (err : option Err)      (* not run, or a status that is not 0 *)
  | Repaired (offset : Z).

(** [strings.ReplaceAll(_, "\n", " | ")] *)
Definition joinLines (b : list byte) : list byte :=
  concat ((fun x => if bool_decide (x = x0a) then bytes_of_string " | " else [x]) <$> b).

(** The line logged after a repair.  Of the white space that [strings.TrimSpace]
    cuts, the output of [repair] has only its last newline. *)
Definition repairLine (out : list byte) : list byte :=
  bytes_of_string "--- repair: " ++ joinLines (TrimRight out) ++ bytes_of_string " ---".

(** [Repair(queue)]: [readDir] is the directory [verify] sees, [fs], [now] and [io]
    what [repair] works on; the two commands may fail to run. *)
Definition Supervisor_Repair (queue : string) (verifyErr repairErr : option Err) (readDir : list DirEntry + Err)
    (now : Time) (io : RepairIO) (fs : Files) (s : Supervisor) : option (Files * Supervisor * RepairResult) :=
  if sp_running s then Some (fs, s, RepairStopFirst)
  else
    '(report, code) ← Supervisor_Verify verifyErr readDir s;
    if code =? 0 then Some (fs, s, NothingToRepair)
    else
      match parseOffset report with
      | None => Some (fs, s, NoOffset report)
      | Some offset =>
        match repairErr with
        | Some err => Some (fs, s, RepairFailed (Some err))
        | None =>
          let path := logPath queue s in
          let size := Z.of_nat (length (default [] (fs !! path))) in
          let '(fs, code) := runRepair path queue offset now io fs in
          if code =? 0 then
            let out := repairText (sp_dir s) path (backupName path now) size offset in
            Some (fs, logLine (repairLine out) s, Repaired offset)
          else Some (fs, s, RepairFailed None)
        end
      end.
