(* ===== verification/LabProps.v ===== *)
(** * Properties of the crash lab

    The offset the supervisor reads out of [verify]'s report is the offset of the
    first damaged log; flipping a byte stops the server and the repair at that
    offset brings it back; a torn tail costs nothing; and a repair asked for
    another queue cuts that one. *)

From Stdlib Require Import ZArith Lia.
From S2P Require Import Prelude GoInt Errors WalRecord Replay ReplayProps GoHeap Message Heaps Codec Index QueueSpec.
From S2P Require Import IndexInv IndexRefine Durable Log LogInv LogProps Queue Load QueueInv QueueOps QueueTick Recovery.
From S2P Require Import Writer Compact Snapshot CompactProps Json JsonProps QueueTrace Sample QueueProps Inspect Manager ManagerProps Main.
From S2P Require Import Damage MainProps Report Lab.

Implicit Types (q : Queue) (m : Manager) (e : DirEntry) (s : Supervisor).

(** ** Searching text *)

(** [m] and [p] differ where both have a byte. *)
Fixpoint differs (m p : list byte) : bool :=
  match m, p with
  | a :: m, b :: p => if bool_decide (a = b) then differs m p else true
  | _, _ => false
  end.

(** No occurrence of the marker starts inside [p], whatever follows it. *)
Fixpoint clean (p : list byte) : bool :=
  match p with [] => true | _ :: p' => differs marker p && clean p' end.

Lemma differs_take (k p t : list byte) : differs k p = true -> take (length k) (p ++ t) <> k.
Proof.
  revert p. induction k as [|a k IH]; intros [|b p]; try done. cbn [differs length app take].
  case_bool_decide as E; [subst b; intros H [=]; by apply (IH p)|congruence].
Qed.

Lemma Index_clean p t : clean p = true -> Index_ marker (p ++ t) = (fun n => length p + n)%nat <$> Index_ marker t.
Proof.
  induction p as [|x p IH]; intros Hc; [cbn [app]; by destruct (Index_ marker t)|]. cbn [clean] in Hc. apply andb_true_iff in Hc as [Hd Hc].
  change ((x :: p) ++ t) with (x :: (p ++ t)). cbn [Index_].
  rewrite bool_decide_eq_false_2 by exact (differs_take marker (x :: p) t Hd).
  rewrite (IH Hc). by destruct (Index_ marker t).
Qed.

Lemma Index_marker t : Index_ marker (marker ++ t) = Some 0%nat.
Proof.
  assert (take (length marker) (marker ++ t) = marker) as E by apply take_app_length.
  destruct (marker ++ t); cbn [Index_]; by rewrite bool_decide_eq_true_2.
Qed.

Lemma differs_app (k p t : list byte) : differs k p = true -> differs k (p ++ t) = true.
Proof.
  revert p. induction k as [|a k IH]; intros [|b p]; try done. cbn [differs app]. case_bool_decide; [apply IH|done].
Qed.

Lemma clean_app p t : clean p = true -> clean t = true -> clean (p ++ t) = true.
Proof.
  intros Hp Ht. induction p as [|x p IH]; [done|]. cbn [clean] in Hp. apply andb_true_iff in Hp as [Hd Hp].
  change ((x :: p) ++ t) with (x :: (p ++ t)). cbn [clean]. rewrite (IH Hp), andb_true_r.
  exact (differs_app marker (x :: p) t Hd).
Qed.

Lemma clean_digits ds : Forall (fun b => isDigit b = true) ds -> clean ds = true.
Proof.
  induction 1 as [|d ds Hd _ IH]; [done|]. cbn [clean]. rewrite IH, andb_true_r.
  destruct d; try reflexivity; vm_compute in Hd; discriminate.
Qed.

Lemma clean_appendInt z : clean (appendInt z) = true.
Proof.
  assert (forall fuel n, clean (digits fuel n) = true) as Hd.
  { induction fuel as [|fuel IH]; intros n; [done|]. cbn [digits]. apply clean_app; [by destruct (n <? 10)|].
    apply clean_digits, Forall_singleton. destruct (isDigit_spec (n mod 10)) as [H _]; [by apply Z.mod_pos_bound|exact H]. }
  unfold appendInt. destruct (z <? 0); [|apply Hd]. by apply (clean_app [ch "-"]).
Qed.

Lemma clean_concat l : Forall (fun p => clean p = true) l -> clean (concat l) = true.
Proof. induction 1 as [|p l Hp _ IH]; [done|]. by apply clean_app. Qed.

(** The digits of a number are read back. *)
Lemma spanDigits_number z c t :
  0 <= z < 2 ^ 63 -> isDigit c = false -> ParseInt (fst (spanDigits (appendInt z ++ c :: t))) = Some z.
Proof.
  intros Hz Hc. unfold appendInt. rewrite (proj2 (Z.ltb_ge _ _)) by lia.
  destruct (digits_spec 20 z ltac:(lia) ltac:(lia)) as (Hall & Hval & d & ds & E & _).
  rewrite spanDigits_stop by done. cbn [fst]. unfold ParseInt, parseDigits. rewrite E in *.
  assert (isCh d "-" = false) as ->.
  { apply Forall_cons in Hall as [Hd _]. unfold isDigit in Hd. bool_prop. unfold isCh. change (byteZ (ch "-")) with 45.
    apply Z.eqb_neq. lia. }
  rewrite Hval. cbn [mbind option_bind]. by rewrite (proj2 (Z.leb_le _ _)), (proj2 (Z.ltb_lt _ _)) by lia.
Qed.

(** ** The report *)

(** A line for a log that reads, its path without the marker. *)
Definition reads_clean (l : VerifyLine) : Prop :=
  match l with VFail _ _ => False | VOk path _ _ _ _ => clean (bytes_of_string path) = true end.

Ltac clean :=
  repeat match goal with
  | |- clean (_ ++ _) = true => apply clean_app
  | |- clean (appendInt _) = true => apply clean_appendInt
  | |- clean nl = true => reflexivity
  | |- clean (bytes_of_string ?x) = true => first [assumption | is_var x; fail 1 | vm_compute; reflexivity]
  | |- _ => assumption
  end.

Lemma clean_line l : reads_clean l -> exists t, lineText l = Some t /\ clean t = true.
Proof.
  destruct l as [|path records validBytes counts torn]; [done|]. cbn [reads_clean]. intros Hp.
  eexists. split; [reflexivity|]. clean.
  - apply clean_concat, Forall_fmap, Forall_true. intros [t n]. unfold compose, countText. clean.
    unfold Type_String. by repeat case_decide.
  - destruct torn as [t|]; cbn [fmap option_fmap option_map default]; [unfold id, tornText; clean|reflexivity].
Qed.

Lemma clean_lines ls :
  Forall reads_clean ls -> exists ts, mapM lineText ls = Some ts /\ clean (concat ts) = true.
Proof.
  induction 1 as [|l ls Hl _ (ts & IH & Hc)]; [by exists []|]. destruct (clean_line l Hl) as (t & E & Ht).
  exists (t :: ts). cbn [mapM]. rewrite E, IH. split; [done|]. by apply clean_app.
Qed.

Lemma mapM_Some_app {A B} (f : A -> option B) l1 l2 t1 :
  mapM f l1 = Some t1 -> mapM f (l1 ++ l2) = t2 ← mapM f l2; Some (t1 ++ t2).
Proof.
  revert t1. induction l1 as [|x l1 IH]; intros t1; [by intros [= <-]; cbn [app]; destruct (mapM f l2)|].
  cbn [app mapM]. destruct (f x); [|done]. cbn [mbind option_bind]. destruct (mapM f l1) as [t|]; [|done].
  cbn [mbind option_bind]. intros [= <-]. rewrite (IH t eq_refl). by destruct (mapM f l2).
Qed.

(** The first offset in a report is the one of the first log that does not read. *)
Lemma parseOffset_first ls path p off r more ts tail :
  Forall reads_clean ls -> clean (bytes_of_string path) = true -> clean (bytes_of_string p) = true -> 0 <= off < 2 ^ 63 ->
  mapM lineText (ls ++ VFail path (CorruptionError p off r) :: more) = Some ts ->
  parseOffset (concat ts ++ tail) = Some off.
Proof.
  intros Hls Hpath Hp Ho HM. destruct (clean_lines ls Hls) as (t1 & E1 & C1).
  assert (exists t2, ts = t1 ++ (bytes_of_string "FAIL  " ++ bytes_of_string path ++ nl ++ bytes_of_string "      " ++
      CorruptionError_Error p off r ++ nl) :: t2) as [t2 ->].
  { rewrite (mapM_Some_app _ _ _ _ E1) in HM. cbn [mapM] in HM. cbn [lineText ReplayError_Error mbind option_bind] in HM.
    destruct (mapM lineText more) as [t2|]; [|done]. exists t2. by injection HM as <-. }
  rewrite concat_app. cbn [concat]. unfold CorruptionError_Error. rewrite <- !app_assoc.
  set (pre := concat t1 ++ bytes_of_string "FAIL  " ++ bytes_of_string path ++ nl ++ bytes_of_string "      " ++
    bytes_of_string "wal: corrupt record in " ++ bytes_of_string p ++ bytes_of_string " ").
  change (bytes_of_string " at byte offset ") with (bytes_of_string " " ++ marker).
  rewrite <- !app_assoc. set (rest := appendInt off ++ bytes_of_string ": " ++ _).
  assert (clean pre = true) as Hpre by (unfold pre; clean).
  match goal with |- parseOffset ?x = _ => replace x with (pre ++ marker ++ rest) by (unfold pre; by rewrite <- !app_assoc) end.
  unfold parseOffset. rewrite (Index_clean _ _ Hpre), Index_marker. cbn [fmap option_fmap option_map mbind option_bind].
  rewrite Nat.add_0_r, app_assoc, <- length_app, drop_app_length. unfold rest.
  change (bytes_of_string ": " ++ ?x) with (ch ":" :: (bytes_of_string " " ++ x)). by apply spanDigits_number.
Qed.

(** ** The directory's report *)

(** An entry of a directory a server starts from. *)
Definition sound e : Prop := (exists q, queue_reachable q /\ restarts e q) \/ passed_over e.

Lemma replays_to_verify path img es ending :
  replays_to img es ending ->
  exists res counts, Replay path verify_fn (OpenOk (plainFile img)) (fun _ => 0) = Some (res, None, counts).
Proof.
  intros Hr. rewrite (rt_replay _ _ _ Hr). unfold replay_outcome.
  destruct (verify_deliver es 0 (fun _ => 0) 0) as (st & n & ->).
  destruct (rt_ending _ _ _ Hr) as [[-> _]|[k ->]]; by eexists _, _.
Qed.

Lemma sound_verify e :
  sound e -> de_IsDir e = true -> de_Stat e = None ->
  exists res counts, Replay (de_path e) verify_fn (de_view e) (fun _ => 0) = Some (res, None, counts).
Proof.
  intros [(q & Hr & [_ _ _ _ (img & -> & _ & Hcr)])|[Hd|err Hs|t p n Hok Hn ->]] Hdir Hst; [| |congruence|].
  - destruct (crash_history q img Hr Hcr) as (es & ending & _ & Hrp & _). by eapply replays_to_verify.
  - congruence.
  - assert (encode_all [(t, p)] = Encode [] t p) as E by (by rewrite encode_all_cons, app_nil_r).
    rewrite <- E. eapply replays_to_verify, cut_replays_to; [by apply Forall_singleton|]. rewrite E. lia.
Qed.

(** Their lines. *)
Lemma verify_loop_sound pre rest found bad :
  Forall sound pre -> Forall (fun e => clean (bytes_of_string (de_path e)) = true) pre ->
  exists oks found', Forall reads_clean oks /\
    verify_loop (pre ++ rest) found bad = '(lines, f, b) ← verify_loop rest found' bad; Some (oks ++ lines, f, b).
Proof.
  intros Hs Hc. revert found. induction pre as [|e pre IH]; intros found.
  { exists [], found. split; [done|]. cbn [app]. by destruct (verify_loop rest found bad) as [[[? ?] ?]|]. }
  apply Forall_cons in Hs as [He Hs], Hc as [Hp Hc]. specialize (IH Hs Hc). cbn [app verify_loop].
  destruct (de_IsDir e) eqn:Hd; [|apply IH]. case_bool_decide as Hst; [|apply IH]. cbn [negb].
  destruct (sound_verify e He Hd Hst) as (res & counts & ->). cbn [mbind option_bind].
  destruct (IH (found + 1)) as (oks & f' & Hok & ->).
  eexists (VOk _ _ _ _ _ :: oks), f'. split; [by constructor|].
  destruct (verify_loop rest f' bad) as [[[? ?] ?]|]; reflexivity.
Qed.

(** What [verify] reports of a directory whose one damaged log is the one of [e],
    and the offset the supervisor reads out of it. *)
Lemma verifyReport_damaged dir pre e post res p off r counts :
  Forall sound pre -> Forall sound post ->
  Forall (fun e => clean (bytes_of_string (de_path e)) = true) (pre ++ e :: post) -> clean (bytes_of_string p) = true ->
  de_IsDir e = true -> de_Stat e = None -> 0 <= off < 2 ^ 63 ->
  Replay (de_path e) verify_fn (de_view e) (fun _ => 0) = Some (res, Some (CorruptionError p off r), counts) ->
  exists report, verifyReport dir (inl (pre ++ e :: post)) = Some (report, 2) /\ parseOffset report = Some off.
Proof.
  intros Hpre Hpost Hc Hp Hd Hs Ho HR. apply Forall_app in Hc as [Hc1 [Hce Hc2]%Forall_cons].
  destruct (verify_loop_sound pre (e :: post) 0 0 Hpre Hc1) as (oks & f & Hoks & E1).
  destruct (verify_loop_sound post [] (f + 1) (0 + 1) Hpost Hc2) as (oks2 & f2 & Hoks2 & E2).
  rewrite app_nil_r in E2. cbn [verify_loop mbind option_bind] in E2.
  unfold verifyReport, runVerify. rewrite E1. cbn [verify_loop].
  rewrite Hd, (bool_decide_eq_true_2 _ Hs), HR. cbn [negb mbind option_bind]. rewrite E2. cbn [mbind option_bind].
  rewrite app_nil_r. change (0 + 1 >? 0) with true. cbv iota.
  destruct (clean_lines oks Hoks) as (t1 & T1 & _), (clean_lines oks2 Hoks2) as (t2 & T2 & _).
  assert (exists ts, mapM lineText (oks ++ VFail (de_path e) (CorruptionError p off r) :: oks2) = Some ts) as [ts HM].
  { rewrite (mapM_Some_app _ _ _ _ T1). cbn [mapM lineText ReplayError_Error mbind option_bind]. rewrite T2. by eexists. }
  rewrite HM. cbn [mbind option_bind]. eexists. split; [reflexivity|]. exact (parseOffset_first _ _ _ _ _ _ _ _ Hoks Hce Hp Ho HM).
Qed.

(** ** A torn tail *)

Lemma fitting_snoc_short es x n :
  (length (encode_all es) <= n < length (encode_all (es ++ [x])))%nat -> fitting n (es ++ [x]) = es.
Proof.
  revert n. induction es as [|e es IH]; intros n; cbn [app fitting]; rewrite !encode_all_cons, !length_app; intros Hn.
  - change (length (encode_all [])) with 0%nat in Hn. by rewrite (proj2 (Nat.leb_gt _ _)) by lia.
  - rewrite (proj2 (Nat.leb_le _ _)) by lia. by rewrite IH by lia.
Qed.

(** A clean log with the fragment behind it. *)
Lemma torn_fragment_replays es :
  Forall entry_ok es ->
  replays_to (encode_all es ++ tornFragment) es (EndTorn (Z.of_nat (length (encode_all es))) 16).
Proof.
  intros Hok. set (x := (TypeEnqueue, repeat x78 64) : Entry). set (n := (length (encode_all es) + 16)%nat).
  assert (length (encode_entry x) = 77%nat) as Hx by by rewrite length_encode_entry.
  assert (n < length (encode_all (es ++ [x])))%nat as Hn by (rewrite encode_all_snoc, length_app, Hx; lia).
  assert (Forall entry_ok (es ++ [x])) as Hok'.
  { apply Forall_app. split; [done|]. apply Forall_singleton. split; [done|]. vm_compute. congruence. }
  pose proof (cut_replays_to (es ++ [x]) n Hok' ltac:(lia)) as Hr. unfold cut_ending in Hr.
  rewrite (fitting_snoc_short es x n) in Hr by lia. rewrite (proj2 (Nat.eqb_neq _ _)) in Hr by lia.
  replace (Z.of_nat n - Z.of_nat (length (encode_all es))) with 16 in Hr by lia.
  rewrite encode_all_snoc, take_app_ge in Hr by lia. replace (n - length (encode_all es))%nat with 16%nat in Hr by lia. exact Hr.
Qed.

(** A log and the same log with a torn tail load to the same queue. *)
Lemma torn_Load name path clock now img img' es v n :
  replays_to img es (EndClean v) -> replays_to img' es (EndTorn v n) ->
  snd <$> Load name path (OpenOk (plainFile img')) clock noIO (mkDisk img' []) now
  = snd <$> Load name path (OpenOk (plainFile img)) clock noIO (mkDisk img []) now.
Proof.
  intros Hr Hr'. unfold Load. rewrite (rt_replay _ _ _ Hr), (rt_replay _ _ _ Hr'). unfold replay_outcome.
  destruct (deliver (load_fn clock) (records_at 0 es) 0 (Some (false, newIndex))) as [[st k] [err|]]; [done|].
  cbn [ending_result]. destruct st as [[sawMeta ix]|]; [|done]. cbn [Records ValidBytes].
  destruct (negb sawMeta); [by destruct (k =? 0)|].
  assert (v = Z.of_nat (length (encode_all es))) as -> by (destruct (rt_ending _ _ _ Hr) as [[[= ->] _]|[? [=]]]; done).
  pose proof (noIO_Open _ _ _ Hr) as H1. pose proof (noIO_Open _ _ _ Hr') as H2.
  destruct (Open noIO (mkDisk img []) _) as [d1 r1], (Open noIO (mkDisk img' []) _) as [d2 r2]. cbn [snd] in *. by subst.
Qed.

(** The torn-tail lab costs nothing. On a stopped server, for any queue whose log ends cleanly (any file a crash of a reachable queue can leave that does), the fragment of a record the lab appends is accepted by [verify] as a torn tail of 16 bytes at the old end of the file, and the next start loads exactly the queue it would have loaded without it: open, with everything that was reported durable. *)
Theorem torn_lab_is_harmless q img es v queue s fs clock now :
  queue_reachable q -> crash q img -> replays_to img es (EndClean v) -> (forall o, in_int64 (clock o)) ->
  sp_running s = false -> fs !! logPath queue s = Some img ->
  exists fs' img', TruncateTailMidRecord queue None None None fs s
      = (fs', inl (mkAppended (Z.of_nat (length img)) (logPath queue s))) /\
    fs' !! logPath queue s = Some img' /\
    (exists res counts, Replay (logPath queue s) verify_fn (OpenOk (plainFile img')) (fun _ => 0) = Some (res, None, counts) /\
      Torn res = Some (mkTorn (Z.of_nat (length img)) 16)) /\
    exists q' d1 d2,
      Load queue (logPath queue s) (OpenOk (plainFile img)) clock noIO (mkDisk img []) now = Some (d1, inl q') /\
      Load queue (logPath queue s) (OpenOk (plainFile img')) clock noIO (mkDisk img' []) now = Some (d2, inl q') /\
      recovered q q'.
Proof.
  intros Hr Hcr Hrp Hclk Hrun Hfs. destruct (crash_history q img Hr Hcr) as (es' & ending & c & Hrp' & _ & Hok & _).
  rewrite (replays_to_fun _ _ _ _ _ Hrp' Hrp) in Hok.
  assert (v = Z.of_nat (length (encode_all es)) /\ img = encode_all es) as [-> Himg]
    by (destruct (rt_ending _ _ _ Hrp) as [[[= ->] ?]|[? [=]]]; done).
  pose proof (torn_fragment_replays es Hok) as Ht. rewrite <- Himg in *.
  unfold TruncateTailMidRecord. rewrite Hrun, Hfs. eexists _, (img ++ tornFragment). split; [done|].
  split; [apply lookup_insert_eq|]. split.
  - rewrite (rt_replay _ _ _ Ht). unfold replay_outcome. destruct (verify_deliver es 0 (fun _ => 0) 0) as (st & n & ->).
    by eexists _, _.
  - destruct (crash_recovered q img queue (logPath queue s) clock now Hr Hcr Hclk) as (q' & d1 & HL & Hrec).
    pose proof (torn_Load queue (logPath queue s) clock now _ _ es _ _ Hrp Ht) as E. rewrite HL in E.
    destruct (Load _ _ (OpenOk (plainFile (img ++ tornFragment))) _ _ _ _) as [[d2 r]|]; [|done].
    injection E as ->. by exists q', d1, d2.
Qed.

(** ** A flipped byte *)

Lemma flip_ne b : b <> Zbyte (Z.lxor (byteZ b) 255).
Proof. destruct b; vm_compute; discriminate. Qed.

(** The directory the lab works on: a server's, in which the log of [e] ends
    cleanly with the records [es], and no path contains the marker. *)
Record lab_directory (m : Manager) (pre : list DirEntry) (e : DirEntry) (post : list DirEntry) (q : Queue)
    (img : list byte) (es : list Entry) (fs : Files) (s : Supervisor) : Prop := {
  lb_good : good m;
  lb_directory : directory m (pre ++ e :: post);
  lb_queue : mg_queues m !! de_Name e = Some q;
  lb_view : de_view e = OpenOk (plainFile img);
  lb_clean : exists v, replays_to img es (EndClean v);
  lb_path : logPath (de_Name e) s = de_path e;
  lb_file : fs !! de_path e = Some img;
  lb_stopped : sp_running s = false;
  lb_name : de_Name e <> "";
  lb_marker : Forall (fun e => clean (bytes_of_string (de_path e)) = true) (pre ++ e :: post);
  lb_size : 64 <= Z.of_nat (length img) < 2 ^ 63;
}.

(** The log after the flip. *)
Definition flipped (img : list byte) : list byte :=
  let off := (length img / 2)%nat in <[off := Zbyte (Z.lxor (byteZ (default x00 (img !! off))) 255)]> img.

Section FlipLab.
Context (m : Manager) (pre : list DirEntry) (e : DirEntry) (post : list DirEntry) (q : Queue).
Context (img : list byte) (es : list Entry) (fs : Files) (s : Supervisor).
Context (HL : lab_directory m pre e post q img es fs s).

Let off := (length img / 2)%nat.
Let b := default x00 (img !! off).
Let e' := with_view (OpenOk (plainFile (flipped img))) e.
Let entries := pre ++ e' :: post.

Lemma lab_image : img = encode_all es /\ encode_all es !! off = Some b.
Proof using HL.
  destruct (lb_clean _ _ _ _ _ _ _ _ _ HL) as [v Hrp].
  assert (img = encode_all es) as E by (destruct (rt_ending _ _ _ Hrp) as [[_ ?]|[? [=]]]; done).
  split; [done|]. rewrite <- E. pose proof (lb_size _ _ _ _ _ _ _ _ _ HL).
  assert (off < length img)%nat as Hlt by (apply Nat.div_lt; lia).
  apply lookup_lt_is_Some in Hlt as [x Hx]. unfold b. by rewrite Hx.
Qed.

Lemma lab_flip :
  FlipByteMidLog (de_Name e) None None fs s
  = (<[de_path e := flipped img]> fs, inl (mkFlipped (Z.of_nat off) (de_path e) b (Zbyte (Z.lxor (byteZ b) 255)))).
Proof using HL.
  unfold FlipByteMidLog. rewrite (lb_stopped _ _ _ _ _ _ _ _ _ HL), (lb_path _ _ _ _ _ _ _ _ _ HL), (lb_file _ _ _ _ _ _ _ _ _ HL).
  pose proof (lb_size _ _ _ _ _ _ _ _ _ HL). by rewrite (proj2 (Nat.ltb_ge _ _)) by lia.
Qed.

Lemma lab_sound : Forall sound pre /\ Forall sound post /\ restarts e q /\ queue_reachable q.
Proof using HL.
  destruct (lb_directory _ _ _ _ _ _ _ _ _ HL) as [_ Hq Ho _]. pose proof (lb_good _ _ _ _ _ _ _ _ _ HL) as Hg.
  assert (forall x, x ∈ pre ++ e :: post -> sound x) as Hs.
  { intros x Hx. destruct (mg_queues m !! de_Name x) as [q1|] eqn:E; [left; exists q1; split; [by eapply Hg|by apply Hq]|right; by apply Ho]. }
  split_and!.
  - apply Forall_forall. intros x Hx. apply Hs. set_solver.
  - apply Forall_forall. intros x Hx. apply Hs. set_solver.
  - apply Hq; [set_solver|apply HL].
  - eapply Hg, HL.
Qed.

(** What [verify] says, and the offset read out of it. *)
Lemma lab_verify :
  exists es1 t p es2 report reason res counts, hit es off es1 t p es2 /\
    0 <= Z.of_nat (length (encode_all es1)) < Z.of_nat (length img) /\
    Replay (de_path e) verify_fn (OpenOk (plainFile (flipped img))) (fun _ => 0)
      = Some (res, Some (CorruptionError (de_path e) (Z.of_nat (length (encode_all es1))) reason), counts) /\
    verifyReport (sp_dir s) (inl entries) = Some (report, 2) /\
    parseOffset report = Some (Z.of_nat (length (encode_all es1))).
Proof using HL.
  destruct lab_sound as (Hpre & Hpost & [Hd Hs _ _ (img1 & Hv & _ & Hcr)] & Hr). rewrite (lb_view _ _ _ _ _ _ _ _ _ HL) in Hv.
  assert (img1 = img) as -> by (unfold plainFile in Hv; congruence).
  destruct (lb_clean _ _ _ _ _ _ _ _ _ HL) as [v Hrp]. destruct lab_image as [Himg Hb].
  destruct (crash_history q img Hr Hcr) as (es' & ending & c & Hrp' & Hmeta & Hok & Hrun).
  rewrite (replays_to_fun _ _ _ _ _ Hrp' Hrp) in *.
  destruct (hit_total es off (lookup_lt_Some _ _ _ Hb)) as (es1 & t & p & es2 & Hhit).
  destruct (damaged_Replay img es es1 es2 t p _ off b _ c Hrp Hmeta Hok Hrun Hhit Hb (flip_ne b)) as [reason HD].
  destruct (HD (de_path e)) as [HR _]. destruct (verify_deliver es1 0 (fun _ => 0) 0) as (st & n & Hdl). apply HR in Hdl.
  assert (length (encode_all es1) < length img)%nat as Hlt.
  { rewrite Himg, (hit_split _ _ _ _ _ _ Hhit), encode_all_app, length_app. pose proof (hit_range _ _ _ _ _ _ Hhit).
    rewrite encode_all_cons, length_app, length_encode_entry. cbn [snd]. lia. }
  pose proof (lb_size _ _ _ _ _ _ _ _ _ HL) as Hsz. pose proof (lb_marker _ _ _ _ _ _ _ _ _ HL) as Hc.
  assert (clean (bytes_of_string (de_path e)) = true) as Hce by (apply Forall_app in Hc as [_ [? _]%Forall_cons]; done).
  assert (Forall (fun e => clean (bytes_of_string (de_path e)) = true) (pre ++ e' :: post)) as Hc'
    by (apply Forall_app in Hc as [? [? ?]%Forall_cons]; apply Forall_app; split; [done|]; by apply Forall_cons).
  destruct (verifyReport_damaged (sp_dir s) pre e' post _ (de_path e) (Z.of_nat (length (encode_all es1))) reason _
    Hpre Hpost Hc' Hce Hd Hs ltac:(lia) Hdl) as (report & HV & HP).
  exists es1, t, p, es2, report, reason. eexists _, _. split_and!; [done|lia|lia|exact Hdl|done|done].
Qed.
End FlipLab.

(** C19: The corruption lab, end to end. On a stopped server over the directory of any reachable queues (whose paths do not hold the text "at byte offset "), with a queue whose log ended cleanly, 64 bytes or longer: flipping the byte in the middle of its log makes the next start refuse with exit status 2, naming the log and the offset of the record that holds the byte; the repair, which reads that offset out of the text [verify] prints for the whole directory, finds the same offset, saves the damaged log and cuts it exactly there; and the records before the damaged one then load to an open queue in exactly the state they stand for (or, if there are none, to an unfinished creation that a start passes over). *)
Theorem corruption_lab m pre e post q img es fs s ev root ids closeErr now :
  lab_directory m pre e post q img es fs s -> fs !! backupName (de_path e) now = None ->
  exists fs1 fl es1 t p es2 reason c fs2 line,
    FlipByteMidLog (de_Name e) None None fs s = (fs1, inl fl) /\ fs1 = <[de_path e := flipped img]> fs /\
    let entries := pre ++ with_view (OpenOk (plainFile (flipped img))) e :: post in
    let off := Z.of_nat (length (encode_all es1)) in
    hit es (length img / 2) es1 t p es2 /\
    OpenManager root None (inl entries) ids closeErr
      = Some (mkManager root ∅, Some (ELoadingQueue (de_Name e) (CorruptionError (de_path e) off reason))) /\
    runServe root None (inl entries) ev ids closeErr = Some 2 /\
    Supervisor_Repair (de_Name e) None None (inl entries) now noRepairIO fs1 s = Some (fs2, logLine line s, Repaired off) /\
    fs2 !! de_path e = Some (encode_all es1) /\ fs2 !! backupName (de_path e) now = Some (flipped img) /\
    core_run decodeConfig es1 core0 = inl c /\
    exists d' r, Load (de_Name e) (de_path e) (OpenOk (plainFile (encode_all es1))) (de_clock e) noIO
        (mkDisk (encode_all es1) []) now = Some (d', r) /\
      match es1 with
      | [] => r = inr (ErrIncompleteQueue (de_path e))
      | _ => exists q', r = inl q' /\ checkLocked q' = None /\ forall T, represents T (qabs q') c
      end.
Proof.
  intros HL Hbak. destruct (lab_verify _ _ _ _ _ _ _ _ _ HL) as (es1 & t & p & es2 & report & reason & res & counts & Hhit & Hlt & HR & HV & HP).
  destruct (lab_image _ _ _ _ _ _ _ _ _ HL) as [Himg Hb]. destruct (lab_sound _ _ _ _ _ _ _ _ _ HL) as (_ & _ & Hre & Hr).
  destruct (lb_clean _ _ _ _ _ _ _ _ _ HL) as [v Hrp].
  destruct (damaged_refused m pre e post q img es _ _ _ _ root ev ids closeErr (lb_good _ _ _ _ _ _ _ _ _ HL)
    (lb_directory _ _ _ _ _ _ _ _ _ HL) (lb_queue _ _ _ _ _ _ _ _ _ HL) (lb_view _ _ _ _ _ _ _ _ _ HL) Hrp Hb (flip_ne _))
    as (es1' & t' & p' & es2' & reason' & Hhit' & HO & HS & _).
  assert (length (encode_all es1') = length (encode_all es1)) as El
    by (rewrite (hit_offset _ _ _ _ _ _ Hhit), (hit_offset _ _ _ _ _ _ Hhit'); done).
  destruct Hre as [_ _ _ Hclk (img1 & Hv & _ & Hcr)]. rewrite (lb_view _ _ _ _ _ _ _ _ _ HL) in Hv.
  assert (img1 = img) as -> by (unfold plainFile in Hv; congruence).
  destruct (repaired_log q img es _ _ _ _ (de_path e) (de_Name e) now (de_clock e) (<[de_path e := flipped img]> fs) res (Z.of_nat (length (encode_all es1))) reason counts
    Hr Hcr Hrp Hb (flip_ne _)) as (es3 & t3 & p3 & es4 & c & fs2 & Hhit3 & Hrep & Hfs2 & Hc & Hload).
  { apply lookup_insert_eq. }
  { rewrite lookup_insert_ne; [done|]. intros E. by apply (backupName_ne (de_path e) now). }
  { apply HL. }
  { exact Hclk. }
  { exact HR. }
  rewrite <- (hit_fun _ _ _ _ _ _ _ _ _ _ Hhit Hhit3) in *. rewrite El in HO.
  pose proof (repair_cases _ _ _ _ _ _ _ _ Hrep) as (_ & _ & [[_ [=]]|(data & Hd1 & _ & _ & Hd2)]).
  rewrite lookup_insert_eq in Hd1. apply (inj Some) in Hd1. subst data.
  exists (<[de_path e := flipped img]> fs). eexists. exists es1, t, p, es2, reason', c, fs2. eexists. cbv zeta.
  split; [by apply (lab_flip _ _ _ _ _ _ _ _ _ HL)|]. split_and!; try done.
  unfold Supervisor_Repair, Supervisor_Verify. rewrite (lb_stopped _ _ _ _ _ _ _ _ _ HL), HV. cbn [mbind option_bind].
  rewrite HP. change (2 =? 0) with false. cbv iota zeta. rewrite (lb_path _ _ _ _ _ _ _ _ _ HL), Hrep. reflexivity.
Qed.

(** ** Repairing another queue *)

Lemma runRepair_ok path name at_ now fs data :
  name <> "" -> 0 <= at_ <= Z.of_nat (length data) -> fs !! path = Some data -> fs !! backupName path now = None ->
  runRepair path name at_ now noRepairIO fs = (<[path := take (Z.to_nat at_) data]> (<[backupName path now := data]> fs), 0).
Proof.
  intros Hn Ha Hp Hb. unfold runRepair. rewrite (bool_decide_eq_false_2 _ Hn), (proj2 (Z.ltb_ge _ _)) by lia.
  cbn [orb ri_Stat noRepairIO]. rewrite Hp, Z.gtb_ltb, (proj2 (Z.ltb_ge _ _)) by lia.
  unfold copyFile. cbn [ri_Open ri_Create ri_Copy ri_CopySync ri_CopyClose ri_OpenFile ri_Truncate ri_Sync noRepairIO].
  rewrite Hp, Hb. unfold truncate. replace (Z.to_nat at_ - length data)%nat with 0%nat by lia.
  cbn [repeat]. by rewrite app_nil_r.
Qed.

(** C24: The supervisor repairs whichever queue it is asked to with the first offset in the report. After the lab has damaged one queue's log, [Repair] of any other queue whose log is at least as long as that offset reports success and cuts that other log at the offset, dropping every byte behind it, however sound it was, and leaves the damaged log as it is. *)
Theorem repair_cuts_another_queue m pre e post q img es fs s other data now :
  lab_directory m pre e post q img es fs s -> other <> "" -> logPath other s <> de_path e ->
  let fs1 := <[de_path e := flipped img]> fs in
  fs1 !! logPath other s = Some data -> fs1 !! backupName (logPath other s) now = None ->
  let entries := pre ++ with_view (OpenOk (plainFile (flipped img))) e :: post in
  exists es1 t p es2 report, hit es (length img / 2) es1 t p es2 /\ verifyReport (sp_dir s) (inl entries) = Some (report, 2) /\
    let off := length (encode_all es1) in
    ((off <= length data)%nat -> exists fs2 line,
      Supervisor_Repair other None None (inl entries) now noRepairIO fs1 s = Some (fs2, logLine line s, Repaired (Z.of_nat off)) /\
      fs2 !! logPath other s = Some (take off data) /\ fs2 !! de_path e = Some (flipped img)).
Proof.
  intros HL Ho Hne fs1 Hf Hb entries.
  destruct (lab_verify _ _ _ _ _ _ _ _ _ HL) as (es1 & t & p & es2 & report & reason & res & counts & Hhit & _ & _ & HV & HP).
  exists es1, t, p, es2, report. split_and!; [done|done|]. cbv zeta. intros Hlen.
  unfold Supervisor_Repair, Supervisor_Verify, entries. rewrite (lb_stopped _ _ _ _ _ _ _ _ _ HL), HV. cbn [mbind option_bind].
  rewrite HP. change (2 =? 0) with false. cbv iota zeta. rewrite (runRepair_ok _ _ _ _ _ data) by (done || lia).
  eexists _, _. split; [reflexivity|]. rewrite Nat2Z.id. split; [apply lookup_insert_eq|].
  rewrite lookup_insert_ne by done. rewrite lookup_insert_ne; [by apply lookup_insert_eq|].
  intros E. rewrite E in Hb. unfold fs1 in Hb. by rewrite lookup_insert_eq in Hb.
Qed.

(** ** Witnesses *)

Definition ex_sup : Supervisor := mkSupervisor "artie-queue" "data" "127.0.0.1:8080" true false "signal: killed" (newRingWriter 300).

Lemma ex_lab q es fs v :
  queue_reachable q -> crash q (ex_img q) -> replays_to (ex_img q) es (EndClean v) ->
  bool_decide (64 <= Z.of_nat (length (ex_img q)) < 2 ^ 63) = true -> fs !! ex_path = Some (ex_img q) ->
  lab_directory (ex_mgr q) ex_before (ex_jobs (ex_img q)) ex_after q (ex_img q) es fs ex_sup.
Proof.
  intros Hr Hcr Hrp Hsz Hfs. split; [by apply ex_mgr_good|by apply ex_directory|apply lookup_singleton_eq|done|by exists v|done|done|done|done| |].
  - cbn [app ex_before ex_after]. repeat (apply Forall_cons; split; [vm_compute; reflexivity|]). apply Forall_nil_2.
  - by apply bool_decide_eq_true in Hsz.
Qed.

(** A queue with one large message, written to disk. *)
Definition ex_big0 : Queue :=
  match Enqueue (ex_t0 + 1) (ex_id 1) (repeat x2a 300) 0 0 "" ex_q0 with Some (q, _) => q | None => ex_q0 end.
Definition ex_big : Queue := with_log (ex_flush (q_log ex_big0)) ex_big0.

Lemma ex_big_ok : enqueue_ok (ex_t0 + 1) (ex_id 1) (repeat x2a 300) 0 0 "" ex_q0.
Proof. enqueue_ok_compute. Qed.

Lemma ex_big_reachable : queue_reachable ex_big.
Proof.
  apply queue_reachable_background; [|apply ex_flush_background; vm_compute; reflexivity].
  eapply qr_step; [apply ex_q0_reachable|]. unfold ex_big0.
  destruct (Enqueue _ _ _ _ _ _ _) as [[q ph]|] eqn:E; [|vm_compute in E; discriminate].
  eapply qs_Enqueue; [apply ex_big_ok|exact E].
Qed.

Lemma ex_crash_big : crash ex_big (ex_img ex_big).
Proof. apply ex_crash. vm_compute. reflexivity. Qed.

Lemma ex_big_replays : replays_to (ex_img ex_big) (ex_records ex_big) (EndClean (Z.of_nat (length (ex_img ex_big)))).
Proof.
  assert (ex_img ex_big = encode_all (ex_records ex_big)) as -> by (vm_compute; reflexivity).
  apply encode_all_replays_to, entries_ok_compute. vm_compute. reflexivity.
Qed.

Definition ex_mail : list byte := repeat x2a 300.
Definition ex_mail_path : string := "data/mail/wal.log".
Definition ex_lab_files : gmap string (list byte) := {[ex_path := ex_img ex_big; ex_mail_path := ex_mail]}.
Definition ex_lab_entries (q : Queue) : list DirEntry :=
  ex_before ++ with_view (OpenOk (plainFile (flipped (ex_img q)))) (ex_jobs (ex_img q)) :: ex_after.

Lemma ex_lab_big :
  lab_directory (ex_mgr ex_big) ex_before (ex_jobs (ex_img ex_big)) ex_after ex_big (ex_img ex_big) (ex_records ex_big)
    ex_lab_files ex_sup.
Proof.
  eapply ex_lab; [apply ex_big_reachable|apply ex_crash_big|apply ex_big_replays|vm_compute; reflexivity|apply lookup_insert_eq].
Qed.

(** No backup of either log yet. *)
Lemma ex_no_backup fs path now (x : gmap string (list byte)) :
  fs = x -> bool_decide (x !! backupName path now = None) = true -> fs !! backupName path now = None.
Proof. intros -> H. by apply bool_decide_eq_true in H. Qed.

Lemma ex_jobs_backup : ex_lab_files !! backupName (de_path (ex_jobs (ex_img ex_big))) 88 = None.
Proof. refine (ex_no_backup _ _ _ ex_lab_files eq_refl _). vm_compute. reflexivity. Qed.

Lemma ex_jobs_file : ex_lab_files !! logPath "jobs" ex_sup = Some (ex_img ex_big).
Proof. change (logPath "jobs" ex_sup) with ex_path. apply lookup_insert_eq. Qed.

Definition ex_lab_files' : gmap string (list byte) :=
  <[de_path (ex_jobs (ex_img ex_big)) := flipped (ex_img ex_big)]> ex_lab_files.

Lemma ex_mail_file : ex_lab_files' !! logPath "mail" ex_sup = Some ex_mail.
Proof.
  unfold ex_lab_files', ex_lab_files. change (de_path (ex_jobs _)) with ex_path. change (logPath "mail" ex_sup) with ex_mail_path.
  rewrite lookup_insert_ne by discriminate. rewrite lookup_insert_ne by discriminate. apply lookup_singleton_eq.
Qed.

Lemma ex_mail_backup : ex_lab_files' !! backupName (logPath "mail" ex_sup) 88 = None.
Proof. refine (ex_no_backup _ _ _ ex_lab_files' eq_refl _). vm_compute. reflexivity. Qed.

Lemma ex_big_hit es1 t p es2 :
  hit (ex_records ex_big) (length (ex_img ex_big) / 2) es1 t p es2 -> length (encode_all es1) = 192%nat.
Proof. intros H. rewrite (hit_offset _ _ _ _ _ _ H). vm_compute. reflexivity. Qed.

(** The byte in the middle is in the message's record, behind the 192 bytes of [META]. *)
Lemma corruption_lab_witness :
  exists fs1 fl reason fs2 line d' q', FlipByteMidLog "jobs" None None ex_lab_files ex_sup = (fs1, inl fl) /\
    OpenManager "data" None (inl (ex_lab_entries ex_big)) [] (fun _ => None)
      = Some (mkManager "data" ∅, Some (ELoadingQueue "jobs" (CorruptionError ex_path 192 reason))) /\
    Supervisor_Repair "jobs" None None (inl (ex_lab_entries ex_big)) 88 noRepairIO fs1 ex_sup = Some (fs2, logLine line ex_sup, Repaired 192) /\
    exists es1, fs2 !! ex_path = Some (encode_all es1) /\
      Load "jobs" ex_path (OpenOk (plainFile (encode_all es1))) (fun _ => 77) noIO (mkDisk (encode_all es1) []) 88 = Some (d', inl q') /\
      checkLocked q' = None.
Proof.
  destruct (corruption_lab (ex_mgr ex_big) ex_before (ex_jobs (ex_img ex_big)) ex_after ex_big (ex_img ex_big) (ex_records ex_big)
    ex_lab_files ex_sup Signalled "data" [] (fun _ => None) 88 ex_lab_big ex_jobs_backup)
    as (fs1 & fl & es1 & t & p & es2 & reason & c & fs2 & line & HF & _ & Hhit & HO & _ & HR & Hfs & _ & _ & d' & r & HLd & Hq).
  pose proof (ex_big_hit _ _ _ _ Hhit) as Hoff. rewrite Hoff in HO, HR.
  destruct es1 as [|x es1]; [discriminate Hoff|]. destruct Hq as (q' & -> & Hc & _).
  exists fs1, fl, reason, fs2, line, d', q'. split; [exact HF|]. split; [exact HO|]. split; [exact HR|].
  exists (x :: es1). split; [exact Hfs|]. split; [exact HLd|exact Hc].
Defined.

(** The mail queue's log was not damaged; 108 of its 300 bytes are cut. *)
Lemma repair_cuts_another_queue_witness :
  exists fs2 line, Supervisor_Repair "mail" None None (inl (ex_lab_entries ex_big)) 88 noRepairIO
      ex_lab_files' ex_sup = Some (fs2, logLine line ex_sup, Repaired 192) /\
    fs2 !! ex_mail_path = Some (repeat x2a 192) /\ fs2 !! ex_path = Some (flipped (ex_img ex_big)).
Proof.
  destruct (repair_cuts_another_queue (ex_mgr ex_big) ex_before (ex_jobs (ex_img ex_big)) ex_after ex_big (ex_img ex_big)
    (ex_records ex_big) ex_lab_files ex_sup "mail" ex_mail 88 ex_lab_big ltac:(discriminate) ltac:(discriminate) ex_mail_file ex_mail_backup)
    as (es1 & t & p & es2 & report & Hhit & _ & Hcut).
  rewrite (ex_big_hit _ _ _ _ Hhit) in Hcut. destruct Hcut as (fs2 & line & HR & H1 & H2); [vm_compute; lia|].
  exists fs2, line. split; [exact HR|]. split; [exact H1|exact H2].
Defined.
