(* ===== verification/Client.v ===== *)
(** * The HTTP client of the demo ([internal/demo/client.go])

    A method of [Client] is two definitions: the request it sends, a [Call], and
    what it makes of the [Answer].  [toReq] is the way of a call through [net/url]
    and [ServeMux] to the server's handlers ([Server.serve]). *)

From Stdlib Require Import ZArith Lia.
From S2P Require Import Prelude GoInt Errors Message Codec Index Load Json Log Queue Inspect Request Manager Server.

(** ** Calls and answers *)

Record Call := mkCall {
  cl_Method : string;
  cl_Target : list byte;     (* what follows [c.BaseURL] *)
  cl_Body : list byte;
}.

(** What [c.HTTP.Do] and reading the body give. *)
Inductive Answer :=
  | NoAnswer (err : Err)
  | Answered (status : Z) (raw : list byte) (readErr : option Err).

(** The ASCII white space [bytes.TrimSpace] cuts; the server writes no other. *)
Definition isTrimmed (b : byte) : bool := (byteZ b =? 32) || ((9 <=? byteZ b) && (byteZ b <=? 13)).
Fixpoint TrimLeft (b : list byte) : list byte :=
  match b with x :: b' => if isTrimmed x then TrimLeft b' else b | [] => [] end.
Definition TrimSpace (b : list byte) : list byte := reverse (TrimLeft (reverse (TrimLeft b))).

(** [do] after the answer; [out] is the [Unmarshal] of the result, if there is one. *)
Definition responseLimit : nat := Z.to_nat (Z.shiftl 8 20).
Definition do_ {A} (out : option (list byte -> A * option Err)) (zero : A) (a : Answer) : A * option Err :=
  match a with
  | NoAnswer err => (zero, Some err)
  | Answered status raw readErr =>
    match (if (responseLimit <=? length raw)%nat then None else readErr) with
    | Some err => (zero, Some err)
    | None =>
      let raw := take responseLimit raw in
      if status >=? 400 then (zero, Some (apiError status (TrimSpace raw)))
      else match out with Some unmarshal => unmarshal raw | None => (zero, None) end
    end
  end.

(** ** Writing JSON *)

(** A struct or a map: members with their names in order, and [Encode]'s newline. *)
Definition marshalObject (ms : list (string * list byte)) : list byte :=
  match ms with
  | [] => [ch "{"; ch "}"]
  | m :: ms => [ch "{"] ++ field true m.1 m.2 ++ concat ((fun m => field false m.1 m.2) <$> ms) ++ [ch "}"]
  end.
Definition encodeBody (ms : list (string * list byte)) : list byte := marshalObject ms ++ [x0a].

Definition marshalString (s : string) : list byte := appendString (bytes_of_string s).

(** [omitempty] *)
Definition omitZero (name : string) (z : Z) : list (string * list byte) := if z =? 0 then [] else [(name, appendInt z)].
Definition omitEmpty (name : string) (s : string) : list (string * list byte) :=
  if bool_decide (s = "") then [] else [(name, marshalString s)].

(** ** Reading JSON *)

Section Unmarshal.
Context {S : Type} (fields : list (string * Setter S)).

(** [json.Unmarshal(raw, &s)]; unknown fields are ignored. *)
Definition Unmarshal (raw : list byte) (s : S) : S * option Err :=
  if Valid raw then
    match DecodeFrom None fields raw None s with
    | (s, Some DecodeEOF) => (s, Some (EJson "unexpected end of JSON input"))
    | (s, Some (DecodeFailed err)) => (s, Some err)
    | (s, None) => (s, None)
    end
  else (s, Some (EJson "syntax error")).

(** The elements of an array after its opening bracket, as they stand. *)
Fixpoint rawElements (fuel : nat) (b : list byte) : option (list (list byte)) :=
  match fuel with
  | O => None
  | Datatypes.S fuel =>
    let b := skipSpace b in
    '(_, b1) ← parseValue (2 * length b + 2) maxNestingDepth b;
    let raw := take (length b - length b1) b in
    match skipSpace b1 with
    | e :: b2 =>
      if isCh e "," then rs ← rawElements fuel b2; Some (raw :: rs)
      else if isCh e "]" then Some [raw]
      else None
    | [] => None
    end
  end.

(** Every element is read; the first error is returned at the end. *)
Fixpoint unmarshalAll (rs : list (list byte)) (zero : S) : list S * option Err :=
  match rs with
  | [] => ([], None)
  | raw :: rs =>
    let '(s, err) := Unmarshal raw zero in
    let '(l, err') := unmarshalAll rs zero in
    (s :: l, match err with Some e => Some e | None => err' end)
  end.

(** A field of type [[]S]. *)
Definition setList {T} (zero : S) (set : list S -> T -> T) : Setter T := fun v raw t =>
  match v, raw with
  | JArr [], _ => (set [] t, None)
  | JArr _, _ :: b =>
    match rawElements (length b) b with
    | Some rs => let '(l, err) := unmarshalAll rs zero in (set l t, err)
    | None => (t, typeError)
    end
  | JNull, _ => (set [] t, None)
  | _, _ => (t, typeError)
  end.
End Unmarshal.

(** [uint64] *)
Definition setUint {S} (set : Z -> S -> S) : Setter S := fun v _ s =>
  match v with
  | JNum l => match ParseUint l with Some z => (set z s, None) | None => (s, typeError) end
  | JNull => (s, None)
  | _ => (s, typeError)
  end.

(** [json.Unmarshal] into a [json.RawMessage]: the value without the space around it. *)
Definition unmarshalRaw (raw : list byte) : list byte * option Err :=
  if Valid raw then
    let b := skipSpace raw in
    match parseValue (2 * length b + 2) maxNestingDepth b with
    | Some (_, rest) => (take (length b - length rest) b, None)
    | None => ([], Some (EJson "syntax error"))
    end
  else ([], Some (EJson "syntax error")).

(** ** Queues *)

(** [type QueueConfig struct] *)
Record QueueConfig := mkQueueConfig {
  qc_Name : string;
  qc_Ordering : string;
  qc_PriorityEnabled : bool;
  qc_MaxAttempts : Z;
  qc_DefaultVisibilityTimeoutMS : Z;
  qc_AgingIntervalMS : Z;
  qc_AgingMaxBoost : Z;
  qc_DedupWindowMS : Z;
}.

Definition queueConfigMembers (c : QueueConfig) : list (string * list byte) :=
  [("name", marshalString (qc_Name c)); ("ordering", marshalString (qc_Ordering c));
   ("priority_enabled", appendBool (qc_PriorityEnabled c))] ++
  omitZero "max_attempts" (qc_MaxAttempts c) ++
  omitZero "default_visibility_timeout_ms" (qc_DefaultVisibilityTimeoutMS c) ++
  omitZero "aging_interval_ms" (qc_AgingIntervalMS c) ++
  omitZero "aging_max_boost" (qc_AgingMaxBoost c) ++
  omitZero "dedup_window_ms" (qc_DedupWindowMS c).

Definition post (target : string) (body : list byte) : Call := mkCall "POST" (bytes_of_string target) body.
Definition get (target : string) : Call := mkCall "GET" (bytes_of_string target) [].

Definition CreateQueue (cfg : QueueConfig) : Call := post "/queues" (encodeBody (queueConfigMembers cfg)).
Definition StatusOf (err : Err) : option Z := match err with apiError status _ => Some status | _ => None end.
Definition CreateQueue_result (a : Answer) : option Err :=
  let err := (do_ None tt a).2 in
  match err with
  | Some e => if bool_decide (StatusOf e = Some StatusConflict) then None else err
  | None => None
  end.

Definition ListQueues : Call := get "/queues".
Definition Stats_ (queue : string) : Call := get ("/queues/" ++ queue ++ "/stats").
Definition Peek_ (queue : string) (limit : Z) : Call :=
  mkCall "GET" (bytes_of_string ("/queues/" ++ queue ++ "/peek?limit=") ++ appendInt limit) [].
Definition raw_result (a : Answer) : list byte * option Err := do_ (Some unmarshalRaw) [] a.

(** The result struct of [Compact]. *)
Definition compactFields : list (string * Setter (Z * Z)) := [
  ("before_bytes", setInt (fun z s => (z, s.2)));
  ("after_bytes", setInt (fun z s => (s.1, z)))].
Definition Compact_ (queue : string) : Call := post ("/queues/" ++ queue ++ "/compact") [].
Definition Compact_result (a : Answer) : Z * Z * option Err :=
  do_ (Some (fun raw => Unmarshal compactFields raw (0, 0))) (0, 0) a.

Definition Healthy : Call := get "/healthz".
Definition Healthy_result (a : Answer) : bool :=
  match a with NoAnswer _ => false | Answered status _ _ => status =? StatusOK end.

(** ** Messages *)

(** [type EnqueueRequest struct]; every payload the demo sends is a map with a task
    and a number. *)
Record EnqueueRequest := mkEnqueueRequest {
  nr_Task : string;
  nr_N : Z;
  nr_Priority : Z;
  nr_DelayMS : Z;
  nr_DedupID : string;
}.

(** The keys of a map are sorted. *)
Definition payloadOf (req : EnqueueRequest) : list byte :=
  marshalObject [("n", appendInt (nr_N req)); ("task", marshalString (nr_Task req))].

Definition enqueueMembers (req : EnqueueRequest) : list (string * list byte) :=
  [("payload", payloadOf req); ("priority", appendInt (nr_Priority req))] ++
  omitZero "delay_ms" (nr_DelayMS req) ++ omitEmpty "dedup_id" (nr_DedupID req).

(** [type EnqueueResult struct] *)
Record Submitted := mkSubmitted { sb_ID : string; sb_Seq : Z; sb_Duplicate : bool }.
Definition submittedFields : list (string * Setter Submitted) := [
  ("id", setString (fun x s => mkSubmitted x (sb_Seq s) (sb_Duplicate s)));
  ("seq", setUint (fun x s => mkSubmitted (sb_ID s) x (sb_Duplicate s)));
  ("duplicate", setBool (fun x s => mkSubmitted (sb_ID s) (sb_Seq s) x))].

Definition Client_Enqueue (queue : string) (req : EnqueueRequest) : Call :=
  post ("/queues/" ++ queue ++ "/messages") (encodeBody (enqueueMembers req)).
Definition Enqueue_result (a : Answer) : Submitted * option Err :=
  do_ (Some (fun raw => Unmarshal submittedFields raw (mkSubmitted "" 0 false))) (mkSubmitted "" 0 false) a.

(** [type Leased struct], but for its two times, which nothing reads. *)
Record Leased := mkLeased {
  ls_ID : string;
  ls_Seq : Z;
  ls_Priority : Z;
  ls_Attempts : Z;
  ls_Payload : list byte;
}.
Definition leasedFields : list (string * Setter Leased) := [
  ("id", setString (fun x s => mkLeased x (ls_Seq s) (ls_Priority s) (ls_Attempts s) (ls_Payload s)));
  ("seq", setUint (fun x s => mkLeased (ls_ID s) x (ls_Priority s) (ls_Attempts s) (ls_Payload s)));
  ("priority", setInt (fun x s => mkLeased (ls_ID s) (ls_Seq s) x (ls_Attempts s) (ls_Payload s)));
  ("attempts", setInt (fun x s => mkLeased (ls_ID s) (ls_Seq s) (ls_Priority s) x (ls_Payload s)));
  ("payload", setRaw (fun x s => mkLeased (ls_ID s) (ls_Seq s) (ls_Priority s) (ls_Attempts s) x))].

Definition Client_Dequeue (queue : string) (max visibilityMS : Z) : Call :=
  post ("/queues/" ++ queue ++ "/dequeue")
    (encodeBody [("max_messages", appendInt max); ("visibility_timeout_ms", appendInt visibilityMS)]).
Definition messagesFields : list (string * Setter (list Leased)) :=
  [("messages", setList leasedFields (mkLeased "" 0 0 0 []) (fun l _ => l))].
Definition Dequeue_result (a : Answer) : list Leased * option Err :=
  do_ (Some (fun raw => Unmarshal messagesFields raw [])) [] a.

Definition Client_Ack (queue id : string) : Call := post ("/queues/" ++ queue ++ "/messages/" ++ id ++ "/ack") [].
Definition Client_Nack (queue id : string) : Call := post ("/queues/" ++ queue ++ "/messages/" ++ id ++ "/nack") [].
Definition done_result (a : Answer) : option Err := (do_ None tt a).2.

(** ** On the server's side *)

(** The bytes of a path that stand for themselves. *)
Definition pathByte (b : byte) : bool := nameByte b || existsb (isCh b) ["~"; "!"; "$"; "&"; "'"; "("; ")"; "*"; "+"; ","; ";"; "="; ":"; "@"].

Fixpoint splitOn (c : byte) (b : list byte) : list (list byte) :=
  match b with
  | [] => [[]]
  | x :: b' =>
    if bool_decide (x = c) then [] :: splitOn c b'
    else match splitOn c b' with s :: l => (x :: s) :: l | [] => [[x]] end
  end.

Definition segmentOk (s : list byte) : bool :=
  negb (bool_decide (s = [])) && forallb pathByte s &&
  negb (bool_decide (s = [ch "."])) && negb (bool_decide (s = [ch "."; ch "."])).

(** [Query().Get], for keys and values without escapes. *)
Definition queryGet (query : list byte) (key : string) : string :=
  match find (fun kv => bool_decide (head kv = Some (bytes_of_string key))) (splitOn (ch "=") <$> splitOn (ch "&") query) with
  | Some [_; v] => string_of_bytes v
  | _ => ""
  end.

(** The request a call becomes.  [None] stands for the targets that [net/url]
    refuses or unescapes and that [ServeMux] redirects. *)
Definition toReq (c : Call) : option Req :=
  let '(path, query) :=
    match splitOn (ch "?") (cl_Target c) with
    | [path] => (path, [])
    | [path; query] => (path, query)
    | _ => ([], [])
    end in
  match splitOn (ch "/") path with
  | [] :: segs =>
    if forallb segmentOk segs && forallb (fun b => nameByte b || isCh b "=" || isCh b "&") query then
      Some (mkReq (cl_Method c) (string_of_bytes <$> segs) (queryGet query) (cl_Body c) None)
    else None
  | _ => None
  end.

(** What the client gets back for a response: its status, and the JSON text that
    [text] writes for its value. *)
Definition answerOf (text : Value -> list byte) (resp : Response) : Answer := Answered (rs_Status resp) (text (rs_Value resp)) None.

(** The text of an [EnqueueResult]; [at_] is that of its [visible_at]. *)
Definition enqueueResultText (at_ : list byte) (r : EnqueueResult) : list byte :=
  encodeBody [("id", marshalString (er_ID r)); ("seq", appendInt (er_Seq r)); ("visible_at", appendString at_);
    ("duplicate", appendBool (er_Duplicate r))].
