(* ===== verification/Runner.v ===== *)
(** * The demo's job runner ([internal/demo/runner.go])

    A pool of workers that take messages from the queue and acknowledge, refuse or
    abandon them.  Each critical section of [r.mu] is one definition; what the HTTP
    client returns, random numbers and the clock are arguments.  Messages to the
    event log are left out. *)

From Stdlib Require Import ZArith Lia Floats.SpecFloat.
From S2P Require Import Prelude GoInt Errors Message Json Inspect Client.

(** ** Floats *)

Definition float64_lt (x y : spec_float) : bool := SFltb x y.
Definition float64_add (x y : spec_float) : spec_float := SFadd 53 1024 x y.
Definition float64_0 : spec_float := S754_zero false.
Definition float64_1 : spec_float := float64 1.

(** ** Data *)

(** [type QueueDef struct] *)
Record QueueDef := mkQueueDef {
  qd_Name : string;
  qd_Label : string;
  qd_Ordering : string;
  qd_Priority : bool;
  qd_AgingMS : Z;
  qd_Comparator : string;
}.

Definition QueueDefs : list QueueDef := [
  mkQueueDef "fifo" "FIFO" "fifo" false 0 "seq ASC";
  mkQueueDef "lifo" "LIFO" "lifo" false 0 "seq DESC";
  mkQueueDef "priority-fifo" "Priority → FIFO" "fifo" true 0 "priority DESC, seq ASC";
  mkQueueDef "priority-lifo" "Priority → LIFO" "lifo" true 0 "priority DESC, seq DESC";
  mkQueueDef "priority-fifo-aging" "Priority → FIFO + aging" "fifo" true 800 "(priority + age/800ms) DESC, seq ASC"].

(** [type WorkerView struct] *)
Record WorkerView := mkWorkerView {
  wv_ID : Z;
  wv_State : string;
  wv_Task : string;
  wv_MessageID : string;
  wv_Priority : Z;
  wv_Attempts : Z;
  wv_StartedMS : Z;
  wv_TotalMS : Z;
}.

Definition idleView (id : Z) (state : string) : WorkerView := mkWorkerView id state "" "" 0 0 0 0.

(** [type Completion struct] *)
Record Completion := mkCompletion {
  cm_Task : string;
  cm_Priority : Z;
  cm_Attempts : Z;
  cm_Worker : Z;
  cm_Outcome : string;
  cm_Seq : Z;
  cm_AtMS : Z;
}.

(** [type Runner struct]; a [stop] channel is there from the worker's start until
    it is closed. *)
Record Runner := mkRunner {
  rn_target : string;
  rn_desired : Z;
  rn_failureRate : spec_float;
  rn_abandonRate : spec_float;
  rn_workMinMS : Z;
  rn_workMaxMS : Z;
  rn_visibilityMS : Z;
  rn_workers : gmap Z WorkerView;
  rn_nextWorkerID : Z;
  rn_stops : gmap Z unit;
  rn_done : Z;
  rn_failed : Z;
  rn_abandoned : Z;
  rn_submitted : Z;
  rn_recent : list Completion;
}.

Definition NewRunner : Runner :=
  mkRunner "priority-fifo" 0 (float64_div (float64 15) (float64 100)) (float64_div (float64 5) (float64 100))
    250 900 4000 ∅ 0 ∅ 0 0 0 0 [].

Definition set_pool (desired : Z) (workers : gmap Z WorkerView) (next : Z) (stops : gmap Z unit) (r : Runner) : Runner :=
  mkRunner (rn_target r) desired (rn_failureRate r) (rn_abandonRate r) (rn_workMinMS r) (rn_workMaxMS r) (rn_visibilityMS r)
    workers next stops (rn_done r) (rn_failed r) (rn_abandoned r) (rn_submitted r) (rn_recent r).
Definition set_knobs (target : string) (failure abandon : spec_float) (visibility : Z) (r : Runner) : Runner :=
  mkRunner target (rn_desired r) failure abandon (rn_workMinMS r) (rn_workMaxMS r) visibility
    (rn_workers r) (rn_nextWorkerID r) (rn_stops r) (rn_done r) (rn_failed r) (rn_abandoned r) (rn_submitted r) (rn_recent r).
Definition set_tally (done failed abandoned submitted : Z) (recent : list Completion) (r : Runner) : Runner :=
  mkRunner (rn_target r) (rn_desired r) (rn_failureRate r) (rn_abandonRate r) (rn_workMinMS r) (rn_workMaxMS r)
    (rn_visibilityMS r) (rn_workers r) (rn_nextWorkerID r) (rn_stops r) done failed abandoned submitted recent.

(** ** The pool *)

(** [for len(r.stops) < n] *)
Fixpoint grow_loop (fuel : nat) (n : Z) (r : Runner) : option Runner :=
  match fuel with
  | O => None
  | S fuel =>
    if Z.of_nat (size (rn_stops r)) <? n then
      let id := rn_nextWorkerID r in
      grow_loop fuel n (set_pool (rn_desired r) (<[id := idleView id "idle"]> (rn_workers r)) (id + 1)
                          (<[id := tt]> (rn_stops r)) r)
    else Some r
  end.

(** The largest id, starting from -1. *)
Definition victim (ids : list Z) : Z := fold_left (fun v id => if id >? v then id else v) ids (-1).

(** [for len(r.stops) > n]; the ids as the map gives them. *)
Fixpoint shrink_loop (fuel : nat) (n : Z) (r : Runner) : option Runner :=
  match fuel with
  | O => None
  | S fuel =>
    if Z.of_nat (size (rn_stops r)) >? n then
      let v := victim (map_to_list (rn_stops r)).*1 in
      shrink_loop fuel n (set_pool (rn_desired r) (delete v (rn_workers r)) (rn_nextWorkerID r) (delete v (rn_stops r)) r)
    else Some r
  end.

Definition SetWorkers (n : Z) (r : Runner) : option Runner :=
  let n := if n <? 0 then 0 else n in
  let n := if n >? 32 then 32 else n in
  let r := set_pool n (rn_workers r) (rn_nextWorkerID r) (rn_stops r) r in
  r ← grow_loop (S (Z.to_nat n)) n r;
  shrink_loop (S (size (rn_stops r))) n r.

(** ** The knobs *)

Definition clamp01 (f : spec_float) : spec_float :=
  if float64_lt f float64_0 then float64_0
  else if float64_lt float64_1 f then float64_1
  else f.

(** [Update]; [None] is a nil pointer. *)
Definition Update (target : option string) (workers : option Z) (failure abandon : option spec_float)
    (visibility : option Z) (r : Runner) : option Runner :=
  let r := set_knobs
    (match target with Some t => if bool_decide (t = "") then rn_target r else t | None => rn_target r end)
    (match failure with Some f => clamp01 f | None => rn_failureRate r end)
    (match abandon with Some a => clamp01 a | None => rn_abandonRate r end)
    (match visibility with Some v => if v >? 0 then v else rn_visibilityMS r | None => rn_visibilityMS r end) r in
  match workers with Some n => SetWorkers n r | None => Some r end.

(** [type Config struct] *)
Record RunnerConfig := mkRunnerConfig {
  rc_Target : string;
  rc_Workers : Z;
  rc_FailureRate : spec_float;
  rc_AbandonRate : spec_float;
  rc_WorkMinMS : Z;
  rc_WorkMaxMS : Z;
  rc_VisibilityMS : Z;
}.

Definition Runner_Config (r : Runner) : RunnerConfig :=
  mkRunnerConfig (rn_target r) (rn_desired r) (rn_failureRate r) (rn_abandonRate r) (rn_workMinMS r) (rn_workMaxMS r)
    (rn_visibilityMS r).

Definition Target (r : Runner) : string := rn_target r.

(** ** Submitting *)

(** [taskNames] *)
Definition taskNames : list string := [
  "resize-image"; "send-email"; "reindex-doc"; "charge-card";
  "transcode-video"; "sync-webhook"; "render-thumbnail"; "export-report"].

(** What the calls of [client.Enqueue] return. *)
Definition Enqueuer : Type := string -> EnqueueRequest -> nat -> Submitted + Err.

(** The [i]-th request; [rnd i] is what [rand.IntN] gives for the priority and for
    the name. *)
Definition submitRequest (priority delayMS : Z) (dedupID : string) (rnd : nat -> Z * nat) (i : nat) : EnqueueRequest :=
  let p := if priority <? 0 then (rnd i).1 else priority in
  mkEnqueueRequest (default "" (taskNames !! (rnd i).2)) (Z.of_nat i + 1) p delayMS dedupID.

(** The loop of [Submit]: [enqueue _ _ i] is what the [i]-th request returned. *)
Fixpoint submit_loop (n i : nat) (queue : string) (req : nat -> EnqueueRequest) (enqueue : Enqueuer)
    (out : list Submitted) : list Submitted * option Err :=
  match n with
  | O => (out, None)
  | S n =>
    match enqueue queue (req i) i with
    | inr err => (out, Some err)
    | inl res => submit_loop n (S i) queue req enqueue (out ++ [res])
    end
  end.

Definition Submit (queue : string) (n priority delayMS : Z) (dedupID : string) (rnd : nat -> Z * nat)
    (enqueue : Enqueuer) (r : Runner) : Runner * (list Submitted * option Err) :=
  let n := if n <=? 0 then 1 else n in
  let n := if n >? 500 then 500 else n in
  match submit_loop (Z.to_nat n) 0 queue (submitRequest priority delayMS dedupID rnd) enqueue [] with
  | (out, Some err) => (r, (out, Some err))
  | (out, None) =>
    (set_tally (rn_done r) (rn_failed r) (rn_abandoned r) (rn_submitted r + Z.of_nat (length out)) (rn_recent r) r, (out, None))
  end.

(** What the goroutines of [Burst] leave in [ok] and [first], one answer after the
    other in the order they take [mu]. *)
Definition burst_step (st : Z * option Err) (res : Submitted + Err) : Z * option Err :=
  let '(ok, first) := st in
  match res, first with
  | inr err, None => (ok, Some err)
  | inr _, Some _ => (ok, first)
  | inl _, _ => (ok + 1, first)
  end.

Definition burstRequest (rnd : nat -> Z * nat) (i : nat) : EnqueueRequest :=
  mkEnqueueRequest "burst" (Z.of_nat i) (rnd i).1 0 "".

(** [Burst] but for the time it took: [order n] is the order in which the
    goroutines, however many, finish its [n] requests. *)
Definition Burst (queue : string) (n : Z) (rnd : nat -> Z * nat) (order : nat -> list nat) (enqueue : Enqueuer)
    (r : Runner) : Runner * (Z * option Err) :=
  let n := if n <=? 0 then 200 else n in
  let n := if n >? 5000 then 5000 else n in
  let '(ok, first) :=
    fold_left burst_step ((fun i => enqueue queue (burstRequest rnd i) i) <$> order (Z.to_nat n)) (0, None) in
  (set_tally (rn_done r) (rn_failed r) (rn_abandoned r) (rn_submitted r + ok) (rn_recent r) r, (ok, first)).

(** ** A worker *)

Definition setWorker (id : Z) (v : WorkerView) (r : Runner) : Runner :=
  match rn_stops r !! id with
  | Some _ => set_pool (rn_desired r) (<[id := v]> (rn_workers r)) (rn_nextWorkerID r) (rn_stops r) r
  | None => r
  end.

Definition record_ (c : Completion) (r : Runner) : Runner :=
  let recent := rn_recent r ++ [c] in
  set_tally (rn_done r) (rn_failed r) (rn_abandoned r) (rn_submitted r)
    (if (40 <? length recent)%nat then drop (length recent - 40) recent else recent) r.

(** The three calls of [bump]. *)
Inductive Outcome := Done | Failed | Abandoned.
Definition bump (o : Outcome) (r : Runner) : Runner :=
  match o with
  | Done => set_tally (rn_done r + 1) (rn_failed r) (rn_abandoned r) (rn_submitted r) (rn_recent r) r
  | Failed => set_tally (rn_done r) (rn_failed r + 1) (rn_abandoned r) (rn_submitted r) (rn_recent r) r
  | Abandoned => set_tally (rn_done r) (rn_failed r) (rn_abandoned r + 1) (rn_submitted r) (rn_recent r) r
  end.

(** [json.Unmarshal] into a struct with one string field, [task]. *)
Fixpoint taskMembers (ms : list (list byte * json)) (task : list byte) : list byte * option Err :=
  match ms with
  | [] => (task, None)
  | (k, v) :: ms =>
    let '(task, err) :=
      if bool_decide (foldName (bytes_of_string "task") = foldName k) then
        match v with JStr s => (s, None) | JNull => (task, None) | _ => (task, typeError) end
      else (task, None) in
    let '(task, err') := taskMembers ms task in
    (task, match err with Some e => Some e | None => err' end)
  end.

Definition taskOf (payload : list byte) : string :=
  match parseJSON payload with
  | Some (JObj ms) =>
    match taskMembers ms [] with
    | (x :: task, None) => string_of_bytes (x :: task)
    | _ => "job"
    end
  | _ => "job"
  end.

(** What a worker reads under the lock at the top of its loop. *)
Record Knobs := mkKnobs {
  kn_target : string;
  kn_vis : Z;
  kn_minMS : Z;
  kn_maxMS : Z;
  kn_failure : spec_float;
  kn_abandon : spec_float;
}.

Definition knobs (r : Runner) : Knobs :=
  mkKnobs (rn_target r) (rn_visibilityMS r) (rn_workMinMS r) (rn_workMaxMS r) (rn_failureRate r) (rn_abandonRate r).

(** Where a worker is in [workerLoop], between its steps. *)
Inductive WorkerAt :=
  | AtTop
  | AtDequeue (k : Knobs)                                        (* asked for one message *)
  | AtPause (d : Duration)
  | AtWork (k : Knobs) (m : Leased) (task : string) (d : Duration)
  | AtRoll (k : Knobs) (m : Leased) (task : string)
  | AtAnswer (k : Knobs) (m : Leased) (task : string) (o : Outcome)  (* [Nack] or [Ack] sent, or neither *)
  | AtRecord (m : Leased) (task : string) (o : Outcome)
  | AtBump (o : Outcome)
  | AtIdle
  | AtStopped.

(** What a step is given: whether [stop] is closed, what a call returned, a random
    number, the clock. *)
Record WorkerIn := mkWorkerIn {
  wi_stop : bool;
  wi_msgs : list Leased + Err;
  wi_reply : option Err;
  wi_intN : Z;                (* [rand.IntN(max(1, maxMS-minMS))] *)
  wi_float : spec_float;      (* [rand.Float64()] *)
  wi_now : Z;                 (* [time.Now().UnixMilli()] *)
}.

Definition outcome (k : Knobs) (roll : spec_float) : Outcome :=
  if float64_lt roll (kn_abandon k) then Abandoned
  else if float64_lt roll (float64_add (kn_abandon k) (kn_failure k)) then Failed
  else Done.

Definition outcomeText (o : Outcome) : string :=
  match o with Done => "done" | Failed => "failed" | Abandoned => "abandoned" end.

(** The requests a worker has sent when it is at a place. *)
Inductive WorkerReq := ReqDequeue (queue : string) (max visibilityMS : Z) | ReqNack (queue id : string) | ReqAck (queue id : string).
Definition request (w : WorkerAt) : option WorkerReq :=
  match w with
  | AtDequeue k => Some (ReqDequeue (kn_target k) 1 (kn_vis k))
  | AtAnswer k m _ Failed => Some (ReqNack (kn_target k) (ls_ID m))
  | AtAnswer k m _ Done => Some (ReqAck (kn_target k) (ls_ID m))
  | _ => None
  end.

(** One step of worker [id]: at most one critical section. *)
Definition worker_step (id : Z) (i : WorkerIn) (w : WorkerAt) (r : Runner) : Runner * WorkerAt :=
  match w with
  | AtTop => if wi_stop i then (r, AtStopped) else (r, AtDequeue (knobs r))
  | AtDequeue k =>
    match wi_msgs i with
    | inr _ => (setWorker id (idleView id "no server") r, AtPause (400 * Millisecond))
    | inl [] => (setWorker id (idleView id "idle") r, AtPause (60 * Millisecond))
    | inl (m :: _) =>
      let task := taskOf (ls_Payload m) in
      let dur := mulDuration (kn_minMS k + wi_intN i) Millisecond in
      (setWorker id (mkWorkerView id "working" task (ls_ID m) (ls_Priority m) (ls_Attempts m) (wi_now i) (Milliseconds dur)) r,
       AtWork k m task dur)
    end
  | AtPause _ => (r, if wi_stop i then AtStopped else AtTop)
  | AtWork k m task _ => (r, if wi_stop i then AtStopped else AtRoll k m task)
  | AtRoll k m task => (r, AtAnswer k m task (outcome k (wi_float i)))
  | AtAnswer k m task o =>
    (r, match o, wi_reply i with
        | Abandoned, _ | _, None => AtRecord m task o
        | _, Some _ => AtIdle
        end)
  | AtRecord m task o =>
    (record_ (mkCompletion task (ls_Priority m) (ls_Attempts m) id (outcomeText o) (ls_Seq m) (wi_now i)) r, AtBump o)
  | AtBump o => (bump o r, AtIdle)
  | AtIdle => (setWorker id (idleView id "idle") r, AtTop)
  | AtStopped => (r, AtStopped)
  end.

(** ** The snapshot *)

(** The inner loop of the sort in [State], from position [j] down. *)
Fixpoint sink (j : nat) (l : list WorkerView) : list WorkerView :=
  match j with
  | O => l
  | S j' =>
    match l !! j, l !! j' with
    | Some a, Some b => if wv_ID a <? wv_ID b then sink j' (<[j := b]> (<[j' := a]> l)) else l
    | _, _ => l
    end
  end.

(** The outer loop, for the positions [i], [i + 1], .... *)
Fixpoint sort_loop (n i : nat) (l : list WorkerView) : list WorkerView :=
  match n with
  | O => l
  | S n => sort_loop n (S i) (sink i l)
  end.

Definition sortWorkers (l : list WorkerView) : list WorkerView := sort_loop (length l - 1) 1 l.

(** [type RunnerState struct] *)
Record RunnerState := mkRunnerState {
  rs_Config : RunnerConfig;
  rs_Workers : list WorkerView;
  rs_Recent : list Completion;
  rs_Submitted : Z;
  rs_Done : Z;
  rs_Failed : Z;
  rs_Abandoned : Z;
}.

(** [State]: [ids] is the order [r.stops] is iterated in. *)
Definition State (ids : list Z) (r : Runner) : RunnerState :=
  mkRunnerState (Runner_Config r) (sortWorkers (omap (fun id => rn_workers r !! id) ids)) (rn_recent r)
    (rn_submitted r) (rn_done r) (rn_failed r) (rn_abandoned r).
