(* ===== verification/RunnerProps.v ===== *)
(** * Properties of the job runner

    The worker pool under any interleaving of its workers with the dashboard's
    controls: the views are those of the workers that run, ids are never used
    twice, the knobs stay in range, and the snapshot is sorted. *)

From Stdlib Require Import ZArith Lia Floats.SpecFloat Sorting.Sorted.
From stdpp Require Import gmap fin_map_dom relations.
From S2P Require Import Prelude GoInt Errors Message Json Inspect Client Runner.

Implicit Types (r : Runner).

(** ** The pool *)

(** What holds of the maps of workers at any time. *)
Record maps_ok r : Prop := {
  mp_dom : dom (rn_workers r) = dom (rn_stops r);
  mp_ids id : id ∈ dom (rn_stops r) -> 0 <= id < rn_nextWorkerID r;
  mp_view id v : rn_workers r !! id = Some v -> wv_ID v = id;
  mp_next : 0 <= rn_nextWorkerID r;
}.

(** [r'] is [r] with another pool. *)
Definition repooled r r' : Prop := exists w nx st, r' = set_pool (rn_desired r) w nx st r.

Lemma repooled_refl r : repooled r r.
Proof. exists (rn_workers r), (rn_nextWorkerID r), (rn_stops r). by destruct r. Qed.

Lemma repooled_trans r r1 r2 : repooled r r1 -> repooled r1 r2 -> repooled r r2.
Proof. intros (w & nx & st & ->) (w2 & nx2 & st2 & ->). by exists w2, nx2, st2. Qed.

Lemma maps_fresh r : maps_ok r -> rn_stops r !! rn_nextWorkerID r = None.
Proof.
  intros H. apply not_elem_of_dom. intros Hin. pose proof (mp_ids _ H _ Hin). lia.
Qed.

Lemma grow_one r :
  maps_ok r ->
  maps_ok (set_pool (rn_desired r) (<[rn_nextWorkerID r := idleView (rn_nextWorkerID r) "idle"]> (rn_workers r))
    (rn_nextWorkerID r + 1) (<[rn_nextWorkerID r := tt]> (rn_stops r)) r).
Proof.
  intros [Hd Hi Hv Hn]. split; simpl.
  - rewrite !dom_insert_L. by rewrite Hd.
  - intros id. rewrite dom_insert_L. intros [->%elem_of_singleton|Hin]%elem_of_union; [lia|]. specialize (Hi id Hin). lia.
  - intros id v [[<- <-]|[_ Hl]]%lookup_insert_Some; [done|by apply Hv].
  - lia.
Qed.

(** The new workers take the next ids, in order. *)
Lemma grow_loop_ok fuel n r :
  maps_ok r -> (0 < fuel)%nat -> (Z.to_nat n < fuel + size (rn_stops r))%nat ->
  exists r', grow_loop fuel n r = Some r' /\ maps_ok r' /\ repooled r r' /\
    Z.of_nat (size (rn_stops r')) = Z.max n (Z.of_nat (size (rn_stops r))) /\
    rn_nextWorkerID r' = rn_nextWorkerID r + (Z.of_nat (size (rn_stops r')) - Z.of_nat (size (rn_stops r))) /\
    (forall id, rn_stops r' !! id = Some tt <->
      rn_stops r !! id = Some tt \/ rn_nextWorkerID r <= id < rn_nextWorkerID r') /\
    rn_workers r ⊆ rn_workers r'.
Proof.
  revert r. induction fuel as [|fuel IH]; intros r Hm H0 Hf; cbn [grow_loop]; [lia|].
  - destruct (Z.ltb_spec (Z.of_nat (size (rn_stops r))) n) as [Hlt|Hge].
    + set (r1 := set_pool _ _ _ _ _). pose proof (grow_one r Hm) as Hm1. fold r1 in Hm1. pose proof (maps_fresh r Hm) as Hfr.
      assert (size (rn_stops r1) = S (size (rn_stops r))) as Hs by (simpl; by rewrite map_size_insert_None).
      destruct (IH r1 Hm1) as (r' & E & Hm' & Hrp & Hsz & Hnx & Hst & Hw); [lia|lia|].
      assert (rn_nextWorkerID r1 = rn_nextWorkerID r + 1) as Hn1 by done. rewrite Hn1 in *.
      exists r'. split_and!; [done|done| |lia|lia|..].
      * eapply repooled_trans; [|exact Hrp]. by eexists _, _, _.
      * intros id. rewrite Hst. simpl. rewrite lookup_insert_Some. split; [|].
        -- intros [[[<- _]|[_ ?]]|?]; [right|by left|right]; lia.
        -- intros [Hl|Hl]; [left; right; split; [congruence|done]|].
           destruct (decide (rn_nextWorkerID r = id)) as [->|]; [by left; left|right; lia].
      * etransitivity; [|exact Hw]. apply insert_subseteq. apply not_elem_of_dom. rewrite (mp_dom _ Hm). by apply not_elem_of_dom.
    + exists r. split_and!; try done; [apply repooled_refl|lia|lia|]. intros id. split; [by left|]. intros [?|?]; [done|lia].
Qed.

(** The victim is the largest id. *)
Lemma victim_max ids :
  (forall id, id ∈ ids -> 0 <= id) -> ids <> [] -> victim ids ∈ ids /\ forall id, id ∈ ids -> id <= victim ids.
Proof.
  intros Hpos Hne. unfold victim.
  assert (forall l v0, (fold_left (fun v id => if id >? v then id else v) l v0 = v0 \/ fold_left (fun v id => if id >? v then id else v) l v0 ∈ l) /\
    v0 <= fold_left (fun v id => if id >? v then id else v) l v0 /\
    forall id, id ∈ l -> id <= fold_left (fun v id => if id >? v then id else v) l v0) as H.
  { induction l as [|x l IH]; intros v0; cbn [fold_left]; [split_and!; [by left|lia|by intros ? ?%not_elem_of_nil]|].
    destruct (IH (if x >? v0 then x else v0)) as (H1 & H2 & H3). destruct (Z.gtb_spec x v0).
    - split_and!; [right; destruct H1 as [->|]; [by left|by right]|lia|]. intros id [->|Hi]%elem_of_cons; [done|by apply H3].
    - split_and!; [destruct H1; [by left|by right; right]|done|]. intros id [->|Hi]%elem_of_cons; [lia|by apply H3]. }
  destruct (H ids (-1)) as (H1 & H2 & H3). split; [|done]. destruct H1 as [E|]; [|done].
  destruct ids as [|x ids]; [done|]. pose proof (Hpos x ltac:(by left)). pose proof (H3 x ltac:(by left)). lia.
Qed.

Lemma elem_of_keys (m : gmap Z unit) id : id ∈ (map_to_list m).*1 <-> id ∈ dom m.
Proof.
  rewrite list_elem_of_fmap, elem_of_dom. split.
  - intros ([k v] & -> & Hl%elem_of_map_to_list). by exists v.
  - intros [v Hl]. exists (id, v). split; [done|]. by apply elem_of_map_to_list.
Qed.

Lemma shrink_loop_ok fuel n r :
  maps_ok r -> 0 <= n -> (0 < fuel)%nat -> (size (rn_stops r) < fuel + Z.to_nat n)%nat ->
  exists r', shrink_loop fuel n r = Some r' /\ maps_ok r' /\ repooled r r' /\
    Z.of_nat (size (rn_stops r')) = Z.min n (Z.of_nat (size (rn_stops r))) /\ rn_nextWorkerID r' = rn_nextWorkerID r /\
    rn_stops r' ⊆ rn_stops r /\
    (forall id id', id ∈ dom (rn_stops r') -> id' ∈ dom (rn_stops r) -> id' ∉ dom (rn_stops r') -> id < id').
Proof.
  intros Hm Hn. revert r Hm. induction fuel as [|fuel IH]; intros r Hm H0 Hf; cbn [shrink_loop]; [lia|].
  destruct (Z.gtb_spec (Z.of_nat (size (rn_stops r))) n) as [Hgt|Hle].
  2: { exists r. split_and!; try done; [apply repooled_refl|lia]. }
  set (v := victim _). assert (v ∈ (map_to_list (rn_stops r)).*1 /\ forall id, id ∈ (map_to_list (rn_stops r)).*1 -> id <= v) as [Hv Hmax].
  { apply victim_max.
    - intros id Hid%elem_of_keys. by apply Hm.
    - intros E. apply (f_equal length) in E. rewrite length_fmap, length_map_to_list in E. simpl in E. lia. }
  apply elem_of_keys in Hv. pose proof Hv as Hv2. apply elem_of_dom in Hv2 as [[] Hv2].
  set (r1 := set_pool _ _ _ _ _).
  assert (S (size (rn_stops r1)) = size (rn_stops r)) as Hs.
  { simpl. rewrite map_size_delete_Some by by eexists. assert (size (rn_stops r) <> 0%nat) by lia. lia. }
  destruct (IH r1) as (r' & E & Hm' & Hrp & Hsz & Hnx & Hst & Hord); [|lia|lia|].
  { destruct Hm as [Hd Hi Hview Hx]. split; simpl; [by rewrite !dom_delete_L, Hd| | |done].
    - intros id. rewrite dom_delete_L. intros [Hin _]%elem_of_difference. by apply Hi.
    - intros id w [_ Hl]%lookup_delete_Some. by apply Hview. }
  exists r'. split_and!; [done|done| |lia|done| |].
  - eapply repooled_trans; [|exact Hrp]. by eexists _, _, _.
  - etransitivity; [exact Hst|]. simpl. apply delete_subseteq.
  - intros id id' Hin Hin' Hout. destruct (decide (id' = v)) as [->|Hne].
    + assert (id ∈ dom (rn_stops r1)) as Hin1 by (by eapply subseteq_dom).
      simpl in Hin1. rewrite dom_delete_L in Hin1. apply elem_of_difference in Hin1 as [Hin1 Hnv%not_elem_of_singleton].
      pose proof (Hmax id (proj2 (elem_of_keys _ _) Hin1)). lia.
    + apply Hord; [done| |done]. simpl. rewrite dom_delete_L. set_solver.
Qed.

Definition clampWorkers (n : Z) : Z := Z.max 0 (Z.min 32 n).

(** [SetWorkers]: as many workers as asked for, within bounds; growing keeps every
    worker and gives the new ones new ids, shrinking drops the highest ids. *)
Lemma SetWorkers_correct n r :
  maps_ok r ->
  exists r', SetWorkers n r = Some r' /\ maps_ok r' /\
    (exists w nx st, r' = set_pool (clampWorkers n) w nx st r) /\
    Z.of_nat (size (rn_stops r')) = clampWorkers n /\ rn_nextWorkerID r <= rn_nextWorkerID r' /\
    (rn_stops r ⊆ rn_stops r' /\ rn_workers r ⊆ rn_workers r' \/ rn_stops r' ⊆ rn_stops r) /\
    (forall id, id ∈ dom (rn_stops r') -> id ∉ dom (rn_stops r) -> rn_nextWorkerID r <= id) /\
    (forall id id', id ∈ dom (rn_stops r') -> id' ∈ dom (rn_stops r) -> id' ∉ dom (rn_stops r') -> id < id').
Proof.
  intros Hm. unfold SetWorkers.
  cbv zeta. assert ((if (if n <? 0 then 0 else n) >? 32 then 32 else if n <? 0 then 0 else n) = clampWorkers n) as ->.
  { unfold clampWorkers. destruct (Z.ltb_spec n 0); [simpl; lia|]. destruct (Z.gtb_spec n 32); lia. }
  set (k := clampWorkers n). assert (0 <= k <= 32) as Hk by (unfold k, clampWorkers; lia). cbv zeta.
  set (r0 := set_pool k (rn_workers r) (rn_nextWorkerID r) (rn_stops r) r). assert (maps_ok r0) as Hm0 by (by destruct Hm).
  change (rn_stops r) with (rn_stops r0). change (rn_workers r) with (rn_workers r0).
  change (rn_nextWorkerID r) with (rn_nextWorkerID r0).
  assert (forall r1, repooled r0 r1 -> exists w nx st, r1 = set_pool k w nx st r) as Hpool
    by (intros r1 (w & nx & st & ->); by exists w, nx, st).
  destruct (Z.le_gt_cases (Z.of_nat (size (rn_stops r0))) k) as [Hle|Hgt].
  - destruct (grow_loop_ok (S (Z.to_nat k)) k r0 Hm0) as (r1 & -> & Hm1 & Hrp & Hs & Hn1 & Hst & Hw); [lia|lia|].
    cbn [mbind option_bind shrink_loop]. rewrite Z.gtb_ltb, (proj2 (Z.ltb_ge _ _)) by lia.
    assert (rn_stops r0 ⊆ rn_stops r1) as Hsub by (apply map_subseteq_spec; intros id [] Hl; apply Hst; by left).
    exists r1. split_and!; [done|done|by apply Hpool|lia|lia|by left| |].
    + intros id [[] Hl]%elem_of_dom Hno%not_elem_of_dom. apply Hst in Hl as [Hl|Hl]; [congruence|lia].
    + intros id id' _ Hin Hout. destruct Hout. by eapply subseteq_dom.
  - cbn [grow_loop]. rewrite (proj2 (Z.ltb_ge _ _)) by lia. cbn [mbind option_bind].
    destruct (shrink_loop_ok (S (size (rn_stops r0))) k r0 Hm0) as (r1 & -> & Hm1 & Hrp & Hs & Hn1 & Hst & Hord); [lia|lia|lia|].
    exists r1. split_and!; [done|done|by apply Hpool|lia|lia|by right| |exact Hord].
    intros id Hin Hno. destruct Hno. by eapply subseteq_dom.
Qed.

(** ** The runner's invariant *)

(** A rate between 0 and 1. *)
Definition unit_rate (f : spec_float) : Prop := float64_lt f float64_0 = false /\ float64_lt float64_1 f = false.

Lemma clamp01_unit f : unit_rate (clamp01 f).
Proof.
  unfold clamp01. destruct (float64_lt f float64_0) eqn:E0; [by split|]. by destruct (float64_lt float64_1 f) eqn:E1.
Qed.

Record runner_ok r : Prop := {
  ro_maps : maps_ok r;
  ro_size : Z.of_nat (size (rn_stops r)) = rn_desired r;
  ro_desired : 0 <= rn_desired r <= 32;
  ro_failure : unit_rate (rn_failureRate r);
  ro_abandon : unit_rate (rn_abandonRate r);
  ro_visibility : 0 < rn_visibilityMS r;
  ro_recent : (length (rn_recent r) <= 40)%nat;
}.

Lemma NewRunner_ok : runner_ok NewRunner.
Proof.
  assert (unit_rate (rn_failureRate NewRunner) /\ unit_rate (rn_abandonRate NewRunner)) as [? ?] by (split; split; vm_compute; reflexivity).
  split; try done; try (simpl; lia).
Qed.

Lemma SetWorkers_ok n r r' : runner_ok r -> SetWorkers n r = Some r' -> runner_ok r'.
Proof.
  intros [Hm _ _ H1 H2 H3 H4] E.
  destruct (SetWorkers_correct n r Hm) as (r1 & E1 & Hm1 & (w & nx & st & Hr) & Hs & _). assert (r1 = r') as -> by congruence.
  subst r'. split; simpl in *; try done. unfold clampWorkers. lia.
Qed.

(** The controls, before they change the number of workers. *)
Lemma Update_knobs_ok t f a v r r' : runner_ok r -> Update t None f a v r = Some r' -> runner_ok r'.
Proof.
  intros [Hm H0 H1 H2 H3 H4 H5] [= <-]. split; simpl; try done.
  - by destruct Hm.
  - destruct f; [apply clamp01_unit|done].
  - destruct a; [apply clamp01_unit|done].
  - destruct v as [v|]; [|done]. destruct (Z.gtb_spec v 0); [lia|done].
Qed.

Lemma setWorker_ok id v r : runner_ok r -> wv_ID v = id -> runner_ok (setWorker id v r).
Proof.
  intros [Hm H0 H1 H2 H3 H4 H5] Hv. unfold setWorker. destruct (rn_stops r !! id) eqn:Hs; [|done].
  destruct Hm as [Hd Hi Hw Hn]. split; simpl; try done. split; simpl; try done.
  - rewrite dom_insert_L, Hd. apply elem_of_dom_2 in Hs. set_solver.
  - intros id' v' [[<- <-]|[_ Hl]]%lookup_insert_Some; [done|by apply Hw].
Qed.

Lemma set_tally_ok d f a s recent r : runner_ok r -> (length recent <= 40)%nat -> runner_ok (set_tally d f a s recent r).
Proof. intros [Hm H0 H1 H2 H3 H4 H5] Hl. split; simpl; try done. by destruct Hm. Qed.

(** Submitting only counts. *)
Lemma Submit_tally queue n p d dedup rnd enqueue r :
  exists dn f a s, (Submit queue n p d dedup rnd enqueue r).1 = set_tally dn f a s (rn_recent r) r.
Proof.
  unfold Submit. cbv zeta. destruct (submit_loop _ 0 queue _ enqueue []) as [out [err|]]; [|by eexists _, _, _, _].
  exists (rn_done r), (rn_failed r), (rn_abandoned r), (rn_submitted r). by destruct r.
Qed.

Lemma Burst_tally queue n rnd order enqueue r :
  exists dn f a s, (Burst queue n rnd order enqueue r).1 = set_tally dn f a s (rn_recent r) r.
Proof. unfold Burst. cbv zeta. destruct (fold_left burst_step _ _) as [ok first]. by eexists _, _, _, _. Qed.

(** The controls always return. *)
Lemma Update_total t n f a v r : runner_ok r -> exists r', Update t n f a v r = Some r' /\ runner_ok r'.
Proof.
  intros Hr. destruct (Update t None f a v r) as [r1|] eqn:E; [|discriminate E].
  pose proof (Update_knobs_ok _ _ _ _ _ _ Hr E) as H1. destruct n as [n|]; [|by exists r1].
  destruct (SetWorkers_correct n r1 (ro_maps _ H1)) as (r' & E' & _). exists r'. injection E as <-. split; [exact E'|].
  by eapply SetWorkers_ok.
Qed.

Lemma record_ok c r : runner_ok r -> runner_ok (record_ c r).
Proof.
  intros H. apply set_tally_ok; [done|]. destruct (Nat.ltb_spec 40 (length (rn_recent r ++ [c]))); [|lia].
  rewrite length_drop. lia.
Qed.

Lemma bump_ok o r : runner_ok r -> runner_ok (bump o r).
Proof. intros H. destruct o; apply set_tally_ok; try done; apply H. Qed.

Lemma worker_step_ok id i w r r' w' : runner_ok r -> worker_step id i w r = (r', w') -> runner_ok r'.
Proof.
  intros H E. destruct w as [|k|d|k m t d|k m t|k m t o|m t o|o| |]; cbn [worker_step] in E.
  - by destruct (wi_stop i); simplify_eq.
  - destruct (wi_msgs i) as [[|m ms]|err]; simplify_eq; by apply setWorker_ok.
  - by simplify_eq.
  - by simplify_eq.
  - by simplify_eq.
  - by simplify_eq.
  - simplify_eq. by apply record_ok.
  - simplify_eq. by apply bump_ok.
  - simplify_eq. by apply setWorker_ok.
  - by simplify_eq.
Qed.

(** ** The workers and the controls, interleaved *)

(** The runner, and where every worker ever started is. *)
Record System := mkSystem { sy_r : Runner; sy_at : gmap Z WorkerAt }.

(** The goroutines [SetWorkers] starts. *)
Definition launched r r' : gmap Z WorkerAt :=
  (fun _ => AtTop) <$> filter (fun '(id, _) => rn_nextWorkerID r <= id) (rn_stops r').

Inductive system_step : System -> System -> Prop :=
  | ys_SetWorkers n r r' at_ :
      SetWorkers n r = Some r' -> system_step (mkSystem r at_) (mkSystem r' (launched r r' ∪ at_))
  | ys_Update t f a v r r' at_ :
      Update t None f a v r = Some r' -> system_step (mkSystem r at_) (mkSystem r' at_)
  | ys_Submit queue n p d dedup rnd enqueue r at_ :
      system_step (mkSystem r at_) (mkSystem (Submit queue n p d dedup rnd enqueue r).1 at_)
  | ys_Burst queue n rnd order enqueue r at_ :
      system_step (mkSystem r at_) (mkSystem (Burst queue n rnd order enqueue r).1 at_)
  | ys_worker id i w r r' w' at_ :
      at_ !! id = Some w ->
      (wi_stop i = true -> rn_stops r !! id = None) ->
      (w = AtTop -> rn_stops r !! id = None -> wi_stop i = true) ->
      worker_step id i w r = (r', w') -> system_step (mkSystem r at_) (mkSystem r' (<[id := w']> at_)).

(** Every worker with an open [stop] channel runs, and none has an id to come. *)
Record system_ok (y : System) : Prop := {
  yo_runner : runner_ok (sy_r y);
  yo_alive id : id ∈ dom (rn_stops (sy_r y)) -> exists w, sy_at y !! id = Some w /\ w <> AtStopped;
  yo_past id : id ∈ dom (sy_at y) -> id < rn_nextWorkerID (sy_r y);
}.

Lemma worker_step_stops id i w r r' w' :
  worker_step id i w r = (r', w') -> rn_stops r' = rn_stops r /\ rn_nextWorkerID r' = rn_nextWorkerID r.
Proof.
  assert (forall v, rn_stops (setWorker id v r) = rn_stops r /\ rn_nextWorkerID (setWorker id v r) = rn_nextWorkerID r) as Hset
    by (intros v; unfold setWorker; by case_match).
  intros E. destruct w as [|k|d|k m t d|k m t|k m t o|m t o|o| |]; cbn [worker_step] in E; repeat case_match; simplify_eq; try done.
  by destruct o.
Qed.

(** A worker only stops if its channel is closed. *)
Lemma worker_step_alive id i w r r' : worker_step id i w r = (r', AtStopped) -> wi_stop i = true \/ w = AtStopped.
Proof. destruct w; cbn [worker_step]; repeat case_match; intros; simplify_eq; auto; congruence. Qed.

Lemma system_step_ok y y' : system_step y y' -> system_ok y -> system_ok y'.
Proof.
  intros Hs [Hr Ha Hp]. destruct Hs as [n r r' at_ E|t f a v r r' at_ E|queue n pr d dedup rnd enq r at_|queue n rnd order enq r at_|id i w r r' w' at_ Hw Hst Htop E]; simpl in *.
  - pose proof (SetWorkers_ok n r r' Hr E) as Hr'.
    destruct (SetWorkers_correct n r (ro_maps _ Hr)) as (r1 & E1 & _ & _ & _ & Hn & _ & Hnew & _). assert (r1 = r') as -> by congruence.
    split; simpl; [done| |].
    + intros id Hin. destruct (decide (rn_nextWorkerID r <= id)) as [Hge|Hlt].
      * exists AtTop. split; [|done]. apply lookup_union_Some_l. unfold launched. apply elem_of_dom in Hin as [[] Hin].
        rewrite lookup_fmap, (map_lookup_filter_Some_2 _ (rn_stops r') id tt) by done. done.
      * assert (id ∈ dom (rn_stops r)) as Hold by (destruct (decide (id ∈ dom (rn_stops r))) as [|Hno]; [done|]; specialize (Hnew id Hin Hno); lia).
        destruct (Ha id Hold) as (w & Hw & Hne). exists w. split; [|done]. rewrite lookup_union_r; [done|].
        unfold launched. rewrite lookup_fmap. apply fmap_None, map_lookup_filter_None. right. intros x _. lia.
    + intros id. rewrite dom_union_L. intros [Hin|Hin]%elem_of_union; [|specialize (Hp id Hin); lia].
      unfold launched in Hin. rewrite dom_fmap_L in Hin. apply dom_filter_subseteq in Hin. by apply (mp_ids _ (ro_maps _ Hr')).
  - split; simpl; [by eapply Update_knobs_ok| |]; injection E as <-; done.
  - destruct (Submit_tally queue n pr d dedup rnd enq r) as (dn & f & a & s & ->).
    split; simpl; [by apply set_tally_ok, Hr|done|done].
  - destruct (Burst_tally queue n rnd order enq r) as (dn & f & a & s & ->).
    split; simpl; [by apply set_tally_ok, Hr|done|done].
  - destruct (worker_step_stops _ _ _ _ _ _ E) as [Es En]. split; simpl; [by eapply worker_step_ok|..]; rewrite ?Es, ?En.
    + intros id' Hin. destruct (decide (id = id')) as [<-|Hne]; [|rewrite lookup_insert_ne by done; by apply Ha].
      rewrite lookup_insert_eq. exists w'. split; [done|]. intros ->. destruct (Ha id Hin) as (w0 & Hw0 & Hne).
      apply elem_of_dom in Hin as [x Hin]. destruct (worker_step_alive _ _ _ _ _ E) as [Hstop| ->]; [|congruence].
      specialize (Hst Hstop). congruence.
    + intros id'. rewrite dom_insert_L. intros [->%elem_of_singleton|Hin]%elem_of_union; [|by apply Hp].
      apply Hp. by eapply elem_of_dom_2.
Qed.

(** ** Submitting *)

(** [Submit] stops at the first request that fails. *)
Lemma submit_loop_spec n i queue req enqueue out :
  exists k : nat, (k <= n)%nat /\ let rs := (fun j => enqueue queue (req j) j) <$> seq i n in
    match submit_loop n i queue req enqueue out with
    | (res, None) => k = n /\ exists new, res = out ++ new /\ rs = inl <$> new
    | (res, Some err) => (k < n)%nat /\ exists new, res = out ++ new /\ length new = k /\ take (S k) rs = (inl <$> new) ++ [inr err]
    end.
Proof.
  revert i out. induction n as [|n IH]; intros i out; cbn [submit_loop seq fmap list_fmap].
  { exists 0%nat. split; [lia|]. split; [done|]. exists []. by rewrite app_nil_r. }
  destruct (enqueue queue (req i) i) as [res|err] eqn:E.
  - destruct (IH (S i) (out ++ [res])) as (k & Hk & H). exists (S k). split; [lia|].
    destruct (submit_loop n (S i) queue req enqueue (out ++ [res])) as [o [err|]]; cbv zeta in *.
    + destruct H as (Hlt & new & -> & Hn & Ht). split; [lia|]. exists (res :: new).
      rewrite <- app_assoc. split_and!; [done|simpl; lia|]. rewrite firstn_cons, Ht. done.
    + destruct H as (-> & new & -> & Hrs). split; [done|]. exists (res :: new). rewrite <- app_assoc. split; [done|]. by rewrite Hrs.
  - exists 0%nat. split; [lia|]. cbv zeta. split; [lia|]. exists []. rewrite app_nil_r. split_and!; done.
Qed.

(** [Submit] sends between 1 and 500 requests, one after the other, until one fails. If none does, all are counted as submitted; if one does, the caller gets the answers before it, but none of the jobs already on the queue is counted. *)
Theorem Submit_counts queue n priority delayMS dedupID rnd enqueue r r' out err :
  let rs := (fun j => enqueue queue (submitRequest priority delayMS dedupID rnd j) j) <$> seq 0 (Z.to_nat (Z.max 1 (Z.min 500 n))) in
  Submit queue n priority delayMS dedupID rnd enqueue r = (r', (out, err)) ->
  match err with
  | None => rs = inl <$> out /\ rn_submitted r' = rn_submitted r + Z.max 1 (Z.min 500 n)
  | Some err => take (S (length out)) rs = (inl <$> out) ++ [inr err] /\ r' = r
  end.
Proof.
  cbv zeta. unfold Submit. cbv zeta.
  replace (if (if n <=? 0 then 1 else n) >? 500 then 500 else if n <=? 0 then 1 else n) with (Z.max 1 (Z.min 500 n))
    by (destruct (Z.leb_spec n 0); repeat case_match; lia).
  set (k := Z.max 1 (Z.min 500 n)).
  destruct (submit_loop_spec (Z.to_nat k) 0 queue (submitRequest priority delayMS dedupID rnd) enqueue []) as (j & _ & H).
  destruct submit_loop as [o [e|]]; intros [= <- <- <-]; cbv zeta in H.
  - destruct H as (_ & new & -> & <- & Ht). by split.
  - destruct H as (_ & new & -> & Hrs). split; [done|]. cbn [app].
    apply (f_equal length) in Hrs. rewrite !length_fmap, length_seq in Hrs. simpl. lia.
Qed.

(** ** A worker told to stop *)

(** How many steps a worker is from the end once its channel is closed. *)
Definition rank (w : WorkerAt) : nat :=
  match w with
  | AtStopped => 0
  | AtTop | AtPause _ | AtWork _ _ _ _ => 1
  | AtDequeue _ | AtIdle => 2
  | AtBump _ => 3
  | AtRecord _ _ _ => 4
  | AtAnswer _ _ _ _ => 5
  | AtRoll _ _ _ => 6
  end.

Lemma worker_step_rank id i w r :
  wi_stop i = true -> (rank (worker_step id i w r).2 <= pred (rank w))%nat.
Proof.
  intros Hi. destruct w as [|k|d|k m t d|k m t|k m t o|m t o|o| |]; cbn [worker_step]; rewrite ?Hi; simpl; try lia.
  - destruct (wi_msgs i) as [[|m ms]|err]; simpl; lia.
  - destruct o, (wi_reply i); simpl; lia.
Qed.

Fixpoint worker_run (id : Z) (ins : list WorkerIn) (w : WorkerAt) r : Runner * WorkerAt :=
  match ins with
  | [] => (r, w)
  | i :: ins => let '(r, w) := worker_step id i w r in worker_run id ins w r
  end.

Lemma worker_run_stops id ins w r :
  Forall (fun i => wi_stop i = true) ins -> (rank w <= length ins)%nat -> (worker_run id ins w r).2 = AtStopped.
Proof.
  intros Hins. revert w r. induction Hins as [|i ins Hi _ IH]; intros w r Hw; cbn [worker_run].
  - by destruct w; simpl in Hw; try lia.
  - pose proof (worker_step_rank id i w r Hi) as Hr. destruct (worker_step id i w r) as [r' w']. simpl in *. apply IH. lia.
Qed.

(** ** The snapshot's order *)

Definition view_le (a b : WorkerView) : Prop := wv_ID a <= wv_ID b.

Lemma StronglySorted_snoc_le (l : list WorkerView) b :
  StronglySorted view_le l -> Forall (fun a => view_le a b) l -> StronglySorted view_le (l ++ [b]).
Proof.
  induction 1 as [|a l Hl IH Ha]; intros Hb; [by repeat constructor|]. apply Forall_cons in Hb as [Hab Hb].
  cbn [app]. constructor; [by apply IH|]. apply Forall_app. split; [done|]. by apply Forall_singleton.
Qed.

Lemma StronglySorted_snoc_inv (l : list WorkerView) b :
  StronglySorted view_le (l ++ [b]) -> StronglySorted view_le l /\ Forall (fun a => view_le a b) l.
Proof.
  induction l as [|a l IH]; intros H; [split; constructor|]. cbn [app] in H. inversion H as [|? ? Hs Hf]. subst.
  destruct (IH Hs) as [H1 H2]. apply Forall_app in Hf as [Hf Hb]. rewrite Forall_singleton in Hb. split; by constructor.
Qed.

(** The inner loop inserts one element into the sorted part. *)
Lemma sink_sorted pre x rest :
  StronglySorted view_le pre ->
  exists l', sink (length pre) (pre ++ x :: rest) = l' ++ rest /\ l' ≡ₚ pre ++ [x] /\ StronglySorted view_le l'.
Proof.
  revert rest. induction pre as [|b pre IH] using rev_ind; intros rest Hs.
  { exists [x]. split_and!; [done|done|repeat constructor]. }
  apply StronglySorted_snoc_inv in Hs as [Hs Hb]. rewrite length_app, Nat.add_1_r. cbn [sink].
  rewrite <- app_assoc. cbn [app].
  rewrite (list_lookup_middle pre (x :: rest) b (length pre)) by done.
  rewrite (lookup_app_r pre (b :: x :: rest) (S (length pre))) by lia.
  replace (S (length pre) - length pre)%nat with 1%nat by lia. cbn [lookup list_lookup].
  destruct (Z.ltb_spec (wv_ID x) (wv_ID b)) as [Hlt|Hge].
  - assert (<[S (length pre):=b]> (<[length pre:=x]> (pre ++ b :: x :: rest)) = pre ++ x :: b :: rest) as ->.
    { rewrite !insert_app_r_alt by lia. rewrite Nat.sub_diag. replace (S (length pre) - length pre)%nat with 1%nat by lia. done. }
    destruct (IH (b :: rest) Hs) as (l' & -> & Hp & Hl). exists (l' ++ [b]). split_and!.
    + by rewrite <- app_assoc.
    + rewrite Hp. rewrite <- !app_assoc. apply Permutation_app_head. by rewrite Permutation_app_comm.
    + apply StronglySorted_snoc_le; [done|]. rewrite Hp. apply Forall_app. split; [done|]. apply Forall_singleton. unfold view_le. lia.
  - exists ((pre ++ [b]) ++ [x]). split_and!; [by rewrite <- !app_assoc|done|].
    apply StronglySorted_snoc_le; [by apply StronglySorted_snoc_le|]. apply Forall_app. split.
    + eapply Forall_impl; [exact Hb|]. unfold view_le. intros a Ha. lia.
    + apply Forall_singleton. unfold view_le. lia.
Qed.

Lemma sort_loop_sorted rest pre :
  StronglySorted view_le pre ->
  sort_loop (length rest) (length pre) (pre ++ rest) ≡ₚ pre ++ rest /\
  StronglySorted view_le (sort_loop (length rest) (length pre) (pre ++ rest)).
Proof.
  revert pre. induction rest as [|x rest IH]; intros pre Hs; cbn [length sort_loop]; [by rewrite app_nil_r|].
  destruct (sink_sorted pre x rest Hs) as (l' & -> & Hp & Hl).
  assert (S (length pre) = length l') as -> by (rewrite Hp, length_app; simpl; lia).
  destruct (IH l' Hl) as [H1 H2]. split; [|done]. rewrite H1, Hp. by rewrite <- app_assoc.
Qed.

Lemma sortWorkers_correct l : sortWorkers l ≡ₚ l /\ StronglySorted view_le (sortWorkers l).
Proof.
  unfold sortWorkers. destruct l as [|x l]; [split; [done|constructor]|].
  cbn [length]. rewrite Nat.sub_succ, Nat.sub_0_r. apply (sort_loop_sorted l [x]). repeat constructor.
Qed.

Lemma NoDup_sorted_lt (l : list WorkerView) :
  NoDup (wv_ID <$> l) -> StronglySorted view_le l -> StronglySorted Z.lt (wv_ID <$> l).
Proof.
  intros Hnd. induction 1 as [|a l Hl IH Ha]; cbn [fmap list_fmap]; [constructor|].
  apply NoDup_cons in Hnd as [Hna Hnd]. constructor; [by apply IH|]. apply Forall_fmap, Forall_forall. intros b Hb.
  pose proof (proj1 (Forall_forall _ _) Ha b Hb) as Hle. unfold view_le in Hle. unfold compose.
  assert (wv_ID a <> wv_ID b); [|lia]. intros E. apply Hna. rewrite E. by apply list_elem_of_fmap_2.
Qed.

Lemma listed_views r ids :
  maps_ok r -> Forall (fun id => id ∈ dom (rn_stops r)) ids ->
  wv_ID <$> omap (fun id => rn_workers r !! id) ids = ids /\
  Forall (fun v => rn_workers r !! wv_ID v = Some v) (omap (fun id => rn_workers r !! id) ids).
Proof.
  intros Hm. induction 1 as [|id ids Hin _ [IH1 IH2]]; [by split|]. cbn [omap list_omap].
  rewrite <- (mp_dom _ Hm) in Hin. apply elem_of_dom in Hin as [v Hv]. rewrite Hv. cbn [fmap list_fmap].
  pose proof (mp_view _ Hm _ _ Hv) as E. split; [by rewrite E, IH1|]. constructor; [by rewrite E|done].
Qed.

(** C34: The worker pool stays sound under any interleaving. Start from the new runner and let the dashboard's controls (numbers of workers and rates however far out of range) and the steps of the workers run in any order: there are exactly as many workers as asked for, between 0 and 32, each with a running goroutine, which only ends after its stop channel is closed; ids are never used twice; both rates are within 0 and 1 and the visibility timeout is positive; at most 40 completions are kept; and the snapshot lists every worker's own view once, by strictly ascending id, whatever order Go iterates the map in. From there [SetWorkers] always ends with the number asked for, cut to the bounds, and when it shrinks the pool it drops the highest ids. A worker whose channel is closed ends within six more steps, whatever its calls return. *)
Theorem runner_pool y ids ins id w :
  rtc system_step (mkSystem NewRunner ∅) y ->
  ids ≡ₚ (map_to_list (rn_stops (sy_r y))).*1 ->
  Forall (fun i => wi_stop i = true) ins -> length ins = 6%nat ->
  system_ok y /\
  StronglySorted Z.lt (wv_ID <$> rs_Workers (State ids (sy_r y))) /\
  wv_ID <$> rs_Workers (State ids (sy_r y)) ≡ₚ ids /\
  Z.of_nat (length (rs_Workers (State ids (sy_r y)))) = rn_desired (sy_r y) /\
  Forall (fun v => rn_workers (sy_r y) !! wv_ID v = Some v) (rs_Workers (State ids (sy_r y))) /\
  (forall n, exists r', SetWorkers n (sy_r y) = Some r' /\ rn_desired r' = clampWorkers n /\
    (rn_stops (sy_r y) ⊆ rn_stops r' \/ rn_stops r' ⊆ rn_stops (sy_r y)) /\
    (forall i i', i ∈ dom (rn_stops r') -> i' ∈ dom (rn_stops (sy_r y)) -> i' ∉ dom (rn_stops r') -> i < i')) /\
  (worker_run id ins w (sy_r y)).2 = AtStopped.
Proof.
  intros Hrun Hids Hins Hlen.
  assert (system_ok y) as Hy.
  { assert (system_ok (mkSystem NewRunner ∅)) as H0
      by (split; simpl; [apply NewRunner_ok|intros i; by rewrite dom_empty_L|intros i; by rewrite dom_empty_L]).
    revert H0. clear -Hrun. induction Hrun as [|y1 y2 y3 Hs _ IH]; [done|]. intros H0. apply IH. by eapply system_step_ok. }
  pose proof (yo_runner _ Hy) as Hr. pose proof (ro_maps _ Hr) as Hm.
  destruct (listed_views (sy_r y) ids Hm) as [E1 E2].
  { apply Forall_forall. intros i Hi. rewrite Hids in Hi. by apply elem_of_keys. }
  cbn [State rs_Workers]. set (l := omap _ ids) in *. destruct (sortWorkers_correct l) as [Hp Hs].
  assert (wv_ID <$> sortWorkers l ≡ₚ ids) as Hpi by (rewrite <- E1; by apply fmap_Permutation).
  split_and!; [done| |done| | | |].
  - apply NoDup_sorted_lt; [|done]. rewrite Hpi, Hids. apply NoDup_fst_map_to_list.
  - rewrite Hp. rewrite <- (ro_size _ Hr), <- length_map_to_list, <- (length_fmap fst), <- Hids, <- E1, length_fmap. done.
  - by rewrite Hp.
  - intros n. destruct (SetWorkers_correct n (sy_r y) Hm) as (r' & E & _ & (? & ? & ? & Er) & _ & _ & Hsub & _ & Hord).
    exists r'. split_and!; [done|by rewrite Er|naive_solver|exact Hord].
  - apply worker_run_stops; [done|]. rewrite Hlen. destruct w; simpl; lia.
Qed.

(** ** Witness *)

Definition ex_in (stop : bool) : WorkerIn :=
  mkWorkerIn stop (inl [mkLeased "m1" 1 3 0 [quote; ch "x"; quote]]) None 17 float64_0 1700000000000.

(** Three workers; the middle one takes a message; the pool shrinks to one. *)
Definition ex_pool1 : Runner := default NewRunner (SetWorkers 3 NewRunner).
Definition ex_pool2 : Runner := (worker_step 1 (ex_in false) (AtDequeue (knobs ex_pool1)) ex_pool1).1.
Definition ex_pool3 : Runner := default NewRunner (SetWorkers 2 ex_pool2).

Definition ex_at1 : gmap Z WorkerAt := launched NewRunner ex_pool1 ∪ ∅.
Definition ex_work : WorkerAt := (worker_step 1 (ex_in false) (AtDequeue (knobs ex_pool1)) ex_pool1).2.
Definition ex_at2 : gmap Z WorkerAt := <[1 := ex_work]> (<[1 := AtDequeue (knobs ex_pool1)]> ex_at1).

Lemma ex_system : rtc system_step (mkSystem NewRunner ∅) (mkSystem ex_pool3 (launched ex_pool2 ex_pool3 ∪ ex_at2)).
Proof.
  eapply rtc_l; [apply (ys_SetWorkers 3 NewRunner ex_pool1); vm_compute; reflexivity|].
  eapply rtc_l; [apply (ys_worker 1 (ex_in false) AtTop ex_pool1 ex_pool1 (AtDequeue (knobs ex_pool1)));
    [vm_compute; reflexivity|discriminate|intros _ H; vm_compute in H; discriminate|reflexivity]|].
  eapply rtc_l; [apply (ys_worker 1 (ex_in false) (AtDequeue (knobs ex_pool1)) ex_pool1 ex_pool2 ex_work);
    [vm_compute; reflexivity|discriminate|discriminate|apply surjective_pairing]|].
  eapply rtc_l; [|apply rtc_refl]. apply (ys_SetWorkers 2 ex_pool2 ex_pool3). vm_compute. reflexivity.
Qed.

Lemma runner_pool_witness :
  rn_desired ex_pool3 = 2 /\ wv_State <$> rs_Workers (State [1; 0] ex_pool3) = ["idle"; "working"] /\
  StronglySorted Z.lt (wv_ID <$> rs_Workers (State [1; 0] ex_pool3)) /\
  (worker_run 2 (repeat (ex_in true) 6) (AtRoll (knobs ex_pool1) (mkLeased "m1" 1 3 0 []) "job") ex_pool3).2 = AtStopped.
Proof.
  split; [vm_compute; reflexivity|]. split; [vm_compute; reflexivity|].
  assert ([1; 0] ≡ₚ (map_to_list (rn_stops ex_pool3)).*1) as Hids.
  { assert ((map_to_list (rn_stops ex_pool3)).*1 = [0; 1] \/ (map_to_list (rn_stops ex_pool3)).*1 = [1; 0]) as [-> | ->]
      by (first [left; vm_compute; reflexivity|right; vm_compute; reflexivity]).
    - apply perm_swap.
    - apply Permutation_refl. }
  destruct (runner_pool _ [1; 0] (repeat (ex_in true) 6) 2
    (AtRoll (knobs ex_pool1) (mkLeased "m1" 1 3 0 []) "job") ex_system Hids ltac:(repeat constructor) eq_refl)
    as (_ & Hs & _ & _ & _ & _ & Hw).
  split; [exact Hs|exact Hw].
Defined.
