(* ===== verification/ClientProps.v ===== *)
(** * Properties of the client

    What the client writes, the server reads: every call of the client reaches the
    handler it is meant for with the values it was made from, and the answer to an
    enqueue reads back. *)

From Stdlib Require Import ZArith Lia.
From S2P Require Import Prelude GoInt Errors Message Codec Index Log Queue Load Json JsonProps Inspect Request Manager Server Client.

(** ** Values inside an object *)

(** A value as the decoder meets it: not preceded by space, and read up to the
    comma or brace that follows. *)
Record reads_raw (v : list byte) (val : json) : Prop := {
  rr_start : exists x v', v = x :: v' /\ isSpace x = false;
  rr_value c rest : c = ch "," \/ c = ch "}" ->
    let b := v ++ c :: rest in
    parseValue (2 * length b + 2) (pred maxNestingDepth) b = Some (val, c :: rest);
}.

Lemma reads_reads_raw v val : (exists x v', v = x :: v' /\ isSpace x = false) -> reads v val -> reads_raw v val.
Proof.
  intros Hs Hr. split; [done|]. intros c rest Hc. cbv zeta.
  replace (2 * length (v ++ c :: rest) + 2)%nat with (S (2 * length (v ++ c :: rest) + 1)) by lia. by apply Hr.
Qed.

Lemma reads_raw_int z : in_int64 z \/ in_uint 64 z -> reads_raw (appendInt z) (JNum (appendInt z)).
Proof.
  intros Hz. apply reads_reads_raw; [|by apply reads_int].
  destruct (appendInt_lit z Hz) as (neg & n & Hn & -> & _ & _).
  destruct (digits_spec 20 n) as (Hall & _ & d & ds & E & _); [lia|lia|].
  destruct neg; [by eexists _, _|]. rewrite E in *. apply Forall_cons in Hall as [Hd _].
  eexists _, _. split; [reflexivity|]. unfold isDigit in Hd. bool_prop. unfold isSpace.
  by rewrite !(proj2 (Z.eqb_neq (byteZ d) _)) by lia.
Qed.

Lemma reads_raw_bool b : reads_raw (appendBool b) (JBool b).
Proof. apply reads_reads_raw; [|apply reads_bool]. destruct b; by eexists _, _. Qed.

(** A string is read back with its invalid bytes replaced. *)
Definition valid_bytes (b : list byte) : list byte := toValid 0 b.

Lemma parse_appendString s rest :
  appendString s ++ rest = quote :: (appendString_body true 0 s ++ quote :: rest) /\
  parseString None 0 (appendString_body true 0 s ++ quote :: rest) = Some (valid_bytes s, rest).
Proof.
  split; [unfold appendString; cbn [app]; by rewrite <- app_assoc|].
  pose proof (appendString_reads s true 0 rest ltac:(lia)) as E. done.
Qed.

Lemma reads_any_string s : reads (appendString s) (JStr (valid_bytes s)).
Proof.
  intros fuel depth c rest _.
  destruct (parse_appendString s (c :: rest)) as [-> E]. cbn [parseValue skipSpace].
  change (isSpace quote) with false. cbv iota. change (byteZ quote =? 34) with true. cbv iota. by rewrite E.
Qed.

Lemma reads_raw_string s : reads_raw (appendString s) (JStr (valid_bytes s)).
Proof. apply reads_reads_raw; [by eexists _, _|apply reads_any_string]. Qed.

(** ** Objects *)

(** A member: its name, the text of its value, and the value. *)
Definition Item : Type := string * list byte * json.
Definition wire (t : Item) : string * list byte := t.1.
Definition decoded (t : Item) : list byte * json * list byte := (bytes_of_string t.1.1, t.2, t.1.2).
Record item_ok (t : Item) : Prop := {
  it_key : forallb htmlSafe (bytes_of_string t.1.1) = true;
  it_value : reads_raw t.1.2 t.2;
}.

Lemma safe_plain s : forallb htmlSafe (bytes_of_string s) = true -> plain (bytes_of_string s).
Proof. intros Hs. apply List.Forall_forall. by apply forallb_forall. Qed.

Lemma skipSpace_start x b : isSpace x = false -> skipSpace (x :: b) = x :: b.
Proof. intros H. simpl. by rewrite H. Qed.

Lemma rawMembers_one fuel t c rest :
  item_ok t -> c = ch "," \/ c = ch "}" ->
  rawMembers (S fuel) (member (wire t) ++ c :: rest) =
  if isCh c "," then ms ← rawMembers fuel rest; Some (decoded t :: ms) else Some [decoded t].
Proof.
  intros [Hk [(x & v' & Ev & Hx) Hv]] Hc. destruct t as [[k v] val]. cbn [wire decoded fst snd] in *.
  pose proof (safe_plain _ Hk) as Hpl.
  assert (member (k, v) ++ c :: rest = quote :: bytes_of_string k ++ quote :: ch ":" :: v ++ c :: rest) as ->.
  { unfold member. cbn [fst snd]. rewrite appendString_plain by done. rewrite <- !app_assoc. cbn [app]. by rewrite <- !app_assoc. }
  cbn [rawMembers]. rewrite (skipSpace_start quote) by done. change (byteZ quote =? 34) with true. cbv iota.
  rewrite parseString_plain by done. cbn [mbind option_bind]. rewrite (skipSpace_start (ch ":")) by done.
  change (isCh (ch ":") ":") with true. cbv iota.
  assert (skipSpace (v ++ c :: rest) = v ++ c :: rest) as -> by (rewrite Ev; by apply skipSpace_start).
  specialize (Hv c rest Hc). cbv zeta in Hv. rewrite Hv. cbn [mbind option_bind].
  assert (skipSpace (c :: rest) = c :: rest) as -> by (by destruct Hc; subst).
  assert (take (length (v ++ c :: rest) - length (c :: rest)) (v ++ c :: rest) = v) as ->
    by (rewrite length_app, Nat.add_sub; apply take_app_length).
  unfold decoded. cbn [fst snd]. by destruct Hc; subst.
Qed.

Lemma rawMembers_items fuel t ts rest :
  Forall item_ok (t :: ts) -> (length ts < fuel)%nat ->
  rawMembers fuel (member (wire t) ++ membersTail (wire <$> ts) rest) = Some (decoded <$> t :: ts).
Proof.
  revert fuel t. induction ts as [|t' ts IH]; intros fuel t [Ht Hts]%Forall_cons Hf;
    (destruct fuel as [|fuel]; [simpl in Hf; lia|]); cbn [membersTail fmap list_fmap].
  - by rewrite rawMembers_one by auto.
  - rewrite rawMembers_one by auto. change (isCh (ch ",") ",") with true. cbv iota.
    by rewrite (IH fuel t' Hts) by (simpl in Hf; lia).
Qed.

Lemma marshalObject_members m ms rest :
  marshalObject (m :: ms) ++ rest = ch "{" :: member m ++ membersTail ms rest.
Proof.
  unfold marshalObject. rewrite field_eq. cbn [app]. f_equal. rewrite <- surjective_pairing, <- app_assoc. f_equal.
  induction ms as [|m' ms IH]; [done|]. cbn [fmap list_fmap concat membersTail]. rewrite field_eq, <- surjective_pairing.
  rewrite <- IH. cbn [app]. by rewrite <- !app_assoc.
Qed.

(** An object inside an object, and a whole document. *)
Lemma reads_raw_object m ms kv kvs :
  member_ok m kv -> Forall2 member_ok ms kvs -> reads_raw (marshalObject (m :: ms)) (JObj (kv :: kvs)).
Proof.
  intros Hm Hms. split; [by eexists _, _|]. intros c rest Hc. cbv zeta.
  rewrite (marshalObject_members m ms). destruct maxNestingDepth_S as [d ->]. by apply (parseValue_object d).
Qed.

Lemma Valid_encodeBody m ms kv kvs :
  member_ok m kv -> Forall2 member_ok ms kvs -> Valid (encodeBody (m :: ms)) = true.
Proof.
  intros Hm Hms. unfold Valid, encodeBody. rewrite (marshalObject_members m ms).
  by rewrite (parseJSON_object _ _ _ _ [x0a] Hm Hms eq_refl).
Qed.

(** The decoder on an object a struct or a map was written as. *)
Lemma DecodeFrom_object {S} unknown (fields : list (string * Setter S)) t ts s :
  Forall item_ok (t :: ts) ->
  DecodeFrom unknown fields (encodeBody (wire <$> t :: ts)) None s =
  (let r := storeFields unknown fields (decoded <$> t :: ts) s in (r.1, DecodeFailed <$> r.2)).
Proof.
  intros Hts. unfold encodeBody. cbn [fmap list_fmap]. rewrite (marshalObject_members (wire t)).
  set (b := member (wire t) ++ membersTail (wire <$> ts) [x0a]).
  assert (length ts < length b)%nat as Hlen.
  { subst b. rewrite length_app. pose proof (length_membersTail (wire <$> ts) [x0a]) as H. rewrite length_fmap in H. lia. }
  assert (exists tl, b = quote :: tl) as [tl Hb].
  { subst b. unfold member. pose proof (proj1 (proj1 (Forall_cons item_ok _ _) Hts)) as [Hk _]. rewrite appendString_plain by by apply safe_plain. by eexists. }
  unfold DecodeFrom. rewrite (skipSpace_start (ch "{")) by done. change (isCh (ch "{") "{") with true. cbv iota.
  rewrite Hb at 1. rewrite (skipSpace_start quote) by done. change (isCh quote "}") with false. cbv iota. subst b.
  by rewrite rawMembers_items.
Qed.

(** ** Storing *)

Lemma storeFields_item {S} unknown (fields : list (string * Setter S)) (t : Item) ms store s s' :
  find (fun f => bool_decide (foldName (bytes_of_string (fst f)) = foldName (bytes_of_string t.1.1))) fields = Some (t.1.1, store) ->
  store t.2 t.1.2 s = (s', None) ->
  storeFields unknown fields (decoded t :: ms) s = storeFields unknown fields ms s'.
Proof.
  intros Hf Hs. unfold decoded. cbn [storeFields]. unfold storeField. rewrite Hf, Hs. by destruct (storeFields unknown fields ms s').
Qed.

Lemma storeFields_unknown {S} (fields : list (string * Setter S)) (t : Item) ms s :
  find (fun f => bool_decide (foldName (bytes_of_string (fst f)) = foldName (bytes_of_string t.1.1))) fields = None ->
  storeFields None fields (decoded t :: ms) s = storeFields None fields ms s.
Proof. intros Hf. unfold decoded. cbn [storeFields]. unfold storeField. rewrite Hf. by destruct (storeFields None fields ms s). Qed.

Definition int_item (name : string) (z : Z) : Item := (name, appendInt z, JNum (appendInt z)).
Definition string_item (name s : string) : Item := (name, marshalString s, JStr (valid_bytes (bytes_of_string s))).
Definition bool_item (name : string) (b : bool) : Item := (name, appendBool b, JBool b).
Definition omit_int (name : string) (z : Z) : list Item := if z =? 0 then [] else [int_item name z].
Definition omit_string (name s : string) : list Item := if bool_decide (s = "") then [] else [string_item name s].

(** A string as the other side sees it. *)
Definition received (s : string) : string := string_of_bytes (valid_bytes (bytes_of_string s)).

Lemma setInt_ok {S} (set : Z -> S -> S) raw z s : in_int64 z -> setInt set (JNum (appendInt z)) raw s = (set z s, None).
Proof. intros H. unfold setInt. by rewrite ParseInt_appendInt. Qed.
Lemma setUint_ok {S} (set : Z -> S -> S) raw z s : in_uint 64 z -> setUint set (JNum (appendInt z)) raw s = (set z s, None).
Proof. intros H. unfold setUint. by rewrite ParseUint_appendInt. Qed.

Lemma storeFields_omit_int {S} unknown (fields : list (string * Setter S)) name z set ts s s' :
  find (fun f => bool_decide (foldName (bytes_of_string (fst f)) = foldName (bytes_of_string name))) fields = Some (name, setInt set) ->
  in_int64 z -> set 0 s = s -> set z s = s' ->
  storeFields unknown fields (decoded <$> omit_int name z ++ ts) s = storeFields unknown fields (decoded <$> ts) s'.
Proof.
  intros Hf Hz H0 <-. unfold omit_int. destruct (Z.eqb_spec z 0) as [->|Hne]; [by rewrite H0|].
  cbn [app fmap list_fmap]. apply (storeFields_item _ _ (int_item name z) _ _ _ _ Hf). by apply setInt_ok.
Qed.

Lemma storeFields_omit_string {S} unknown (fields : list (string * Setter S)) name x set ts s s' :
  find (fun f => bool_decide (foldName (bytes_of_string (fst f)) = foldName (bytes_of_string name))) fields = Some (name, setString set) ->
  set "" s = s -> set (received x) s = s' ->
  storeFields unknown fields (decoded <$> omit_string name x ++ ts) s = storeFields unknown fields (decoded <$> ts) s'.
Proof.
  intros Hf H0 <-. unfold omit_string. case_bool_decide as Hx; [subst; change (received "") with ""; by rewrite H0|].
  cbn [app fmap list_fmap]. apply (storeFields_item _ _ (string_item name x) _ _ _ _ Hf). done.
Qed.

Lemma item_ok_int name z : forallb htmlSafe (bytes_of_string name) = true -> in_int64 z -> item_ok (int_item name z).
Proof. intros Hk Hz. split; [done|]. apply reads_raw_int. by left. Qed.
Lemma item_ok_uint name z : forallb htmlSafe (bytes_of_string name) = true -> in_uint 64 z -> item_ok (int_item name z).
Proof. intros Hk Hz. split; [done|]. apply reads_raw_int. by right. Qed.
Lemma item_ok_string name s : forallb htmlSafe (bytes_of_string name) = true -> item_ok (string_item name s).
Proof. intros Hk. split; [done|]. apply reads_raw_string. Qed.
Lemma item_ok_bool name b : forallb htmlSafe (bytes_of_string name) = true -> item_ok (bool_item name b).
Proof. intros Hk. split; [done|]. apply reads_raw_bool. Qed.
Lemma items_ok_omit_int name z :
  forallb htmlSafe (bytes_of_string name) = true -> in_int64 z -> Forall item_ok (omit_int name z).
Proof. intros Hk Hz. unfold omit_int. destruct (z =? 0); [constructor|]. by apply Forall_singleton, item_ok_int. Qed.
Lemma items_ok_omit_string name s :
  forallb htmlSafe (bytes_of_string name) = true -> Forall item_ok (omit_string name s).
Proof. intros Hk. unfold omit_string. case_bool_decide; [constructor|]. by apply Forall_singleton, item_ok_string. Qed.

#[local] Hint Resolve item_ok_int item_ok_uint item_ok_string item_ok_bool items_ok_omit_int items_ok_omit_string : core.
Ltac items_ok := repeat first [apply Forall_app; split | apply Forall_cons; split | apply Forall_nil_2]; auto.

Lemma wire_omit_int name z : wire <$> omit_int name z = omitZero name z.
Proof. unfold omit_int, omitZero. by destruct (z =? 0). Qed.
Lemma wire_omit_string name s : wire <$> omit_string name s = omitEmpty name s.
Proof. unfold omit_string, omitEmpty. by case_bool_decide. Qed.

(** ** Targets *)

Lemma splitOn_ne c b : splitOn c b <> [].
Proof. destruct b as [|x b]; simpl; [done|]. case_bool_decide; [done|]. by destruct (splitOn c b). Qed.

Lemma splitOn_none c s : c ∉ s -> splitOn c s = [s].
Proof.
  induction s as [|x s IH]; intros Hc; [done|]. apply not_elem_of_cons in Hc as [Hx Hc]. simpl.
  rewrite bool_decide_eq_false_2 by congruence. by rewrite IH.
Qed.

Lemma splitOn_app c s t : c ∉ s -> splitOn c (s ++ c :: t) = s :: splitOn c t.
Proof.
  induction s as [|x s IH]; intros Hc; simpl; [by rewrite bool_decide_eq_true_2|].
  apply not_elem_of_cons in Hc as [Hx Hc]. rewrite bool_decide_eq_false_2 by congruence. by rewrite IH.
Qed.

(** A path of good segments. *)
Definition pathOf (segs : list (list byte)) : list byte := concat ((fun s => ch "/" :: s) <$> segs).

Lemma segmentOk_avoids s c : segmentOk s = true -> c = ch "/" \/ c = ch "?" -> c ∉ s.
Proof.
  unfold segmentOk. intros H Hc Hin. bool_prop.
  match goal with H : forallb pathByte s = true |- _ => rewrite forallb_forall in H; specialize (H c) end.
  apply list_elem_of_In in Hin. destruct Hc; subst; intuition discriminate.
Qed.

Lemma splitOn_pathOf segs :
  Forall (fun s => segmentOk s = true) segs -> segs <> [] -> splitOn (ch "/") (pathOf segs) = [] :: segs.
Proof.
  intros Hs Hne. induction Hs as [|s segs Hs Hss IH]; [done|]. unfold pathOf. cbn [fmap list_fmap concat app splitOn].
  rewrite bool_decide_eq_true_2 by done. f_equal. fold (pathOf segs).
  pose proof (segmentOk_avoids s (ch "/") Hs (or_introl eq_refl)) as Ha. destruct segs as [|s' segs].
  - cbn. rewrite app_nil_r. by apply splitOn_none.
  - specialize (IH ltac:(done)). unfold pathOf in *. cbn [fmap list_fmap concat app splitOn] in *.
    rewrite bool_decide_eq_true_2 in IH by done. rewrite splitOn_app by done. congruence.
Qed.

Lemma pathOf_no_query segs : Forall (fun s => segmentOk s = true) segs -> ch "?" ∉ pathOf segs.
Proof.
  induction 1 as [|s segs Hs Hss IH]; [apply not_elem_of_nil|]. unfold pathOf. cbn [fmap list_fmap concat].
  apply not_elem_of_app. split; [|done]. apply not_elem_of_cons. split; [done|]. apply segmentOk_avoids; auto.
Qed.

Lemma toReq_path method segs body :
  segs <> [] -> Forall (fun s => segmentOk s = true) segs ->
  exists query, toReq (mkCall method (pathOf segs) body) = Some (mkReq method (string_of_bytes <$> segs) query body None).
Proof.
  intros Hne Hs. exists (queryGet []). unfold toReq. cbn [cl_Target cl_Method cl_Body].
  rewrite splitOn_none by by apply pathOf_no_query. rewrite splitOn_pathOf by done.
  assert (forallb segmentOk segs = true) as -> by (rewrite forallb_forall; intros x Hx; rewrite List.Forall_forall in Hs; auto). done.
Qed.

Lemma toReq_query method segs query body :
  segs <> [] -> Forall (fun s => segmentOk s = true) segs ->
  ch "?" ∉ query -> forallb (fun b => nameByte b || isCh b "=" || isCh b "&") query = true ->
  toReq (mkCall method (pathOf segs ++ ch "?" :: query) body) = Some (mkReq method (string_of_bytes <$> segs) (queryGet query) body None).
Proof.
  intros Hne Hs Hq Hok. unfold toReq. cbn [cl_Target cl_Method cl_Body].
  rewrite splitOn_app by by apply pathOf_no_query. rewrite splitOn_none by done.
  rewrite splitOn_pathOf by done.
  assert (forallb segmentOk segs = true) as -> by (rewrite forallb_forall; intros x Hx; rewrite List.Forall_forall in Hs; auto).
  by rewrite Hok.
Qed.

(** Names and ids are segments. *)
Lemma name_segment name : nameRE name = true -> segmentOk (bytes_of_string name) = true.
Proof.
  intros (b & rest & -> & Hb & _ & Hr)%nameRE_spec. unfold segmentOk.
  assert (b <> ch ".") as Hd by (intros ->; discriminate Hb).
  rewrite (bool_decide_eq_false_2 (b :: rest = [])), (bool_decide_eq_false_2 (b :: rest = [ch "."])),
    (bool_decide_eq_false_2 (b :: rest = [ch "."; ch "."])) by congruence. cbn [negb andb forallb].
  assert (pathByte b = true) as -> by (unfold pathByte, nameByte; by rewrite Hb).
  assert (forallb pathByte rest = true) as ->.
  { rewrite forallb_forall. intros x Hx. rewrite List.Forall_forall in Hr. unfold pathByte. by rewrite (Hr x Hx). }
  done.
Qed.

Lemma toReq_names method (path : list string) target body :
  path <> [] -> Forall (fun s => segmentOk (bytes_of_string s) = true) path -> target = pathOf (bytes_of_string <$> path) ->
  exists query, toReq (mkCall method target body) = Some (mkReq method path query body None).
Proof.
  intros Hne Hs ->. destruct (toReq_path method (bytes_of_string <$> path) body) as [query E].
  - by destruct path.
  - by apply Forall_fmap.
  - exists query. rewrite E. do 2 f_equal. clear. induction path as [|s path IH]; [done|].
    cbn [fmap list_fmap]. by rewrite string_of_bytes_of_string, IH.
Qed.

(** ** What the server makes of a call *)

Definition understood (c : Call) (route : Route) (P : Req -> Prop) : Prop :=
  exists r, toReq c = Some r /\ Routes (rq_Method r) (rq_Path r) = Some route /\ P r.

(** A body the server reads to its end. *)
Definition fits (c : Call) : Prop := Z.of_nat (length (cl_Body c)) <= MaxPayloadBytes + 4096.

Lemma fits_take c : fits c -> take bodyLimit (cl_Body c) = cl_Body c.
Proof.
  unfold fits, bodyLimit. assert (0 <= MaxPayloadBytes + 4096) as H by (vm_compute; discriminate).
  revert H. generalize (MaxPayloadBytes + 4096) as z. intros z H Hl. apply take_ge. lia.
Qed.

(** The decoded fields of a body. *)
Lemma Decode_call {S} (fields : list (string * Setter S)) c t ts s s' :
  cl_Body c = encodeBody (wire <$> t :: ts) -> fits c -> Forall item_ok (t :: ts) ->
  storeFields (Some (EJson "unknown field")) fields (decoded <$> t :: ts) s = (s', None) ->
  Decode fields (cl_Body c) None s = (s', None).
Proof.
  intros Hb Hf Hts Hs. unfold Decode. rewrite (fits_take c Hf).
  replace (if (bodyLimit <=? length (cl_Body c))%nat then None else None) with (@None Err) by by case_match.
  rewrite Hb, DecodeFrom_object by done. cbv zeta. by rewrite Hs.
Qed.

(** What the client's configuration is to the server. *)
Record sendable_config (cfg : QueueConfig) : Prop := {
  sc_fits : fits (CreateQueue cfg);
  sc_attempts : in_int64 (qc_MaxAttempts cfg);
  sc_visibility : in_int64 (qc_DefaultVisibilityTimeoutMS cfg);
  sc_aging : in_int64 (qc_AgingIntervalMS cfg);
  sc_boost : in_int64 (qc_AgingMaxBoost cfg);
  sc_dedup : in_int64 (qc_DedupWindowMS cfg);
}.

Definition asked_config (cfg : QueueConfig) : createQueueRequest :=
  mkCreateQueueRequest (received (qc_Name cfg)) (received (qc_Ordering cfg)) (qc_PriorityEnabled cfg) (qc_MaxAttempts cfg)
    (qc_DefaultVisibilityTimeoutMS cfg) (qc_AgingIntervalMS cfg) (qc_AgingMaxBoost cfg) (qc_DedupWindowMS cfg).

Ltac store_item := erewrite storeFields_item; [|reflexivity|lazy beta iota delta -[valid_bytes received appendInt payloadOf marshalString appendString bytes_of_string string_of_bytes]; reflexivity].
Ltac store_int := erewrite storeFields_omit_int; [|reflexivity|done|reflexivity|lazy beta iota delta -[valid_bytes received appendInt payloadOf marshalString appendString bytes_of_string string_of_bytes]; reflexivity].
Ltac store_string := erewrite storeFields_omit_string; [|reflexivity|reflexivity|lazy beta iota delta -[valid_bytes received appendInt payloadOf marshalString appendString bytes_of_string string_of_bytes]; reflexivity].

Lemma understood_CreateQueue cfg :
  sendable_config cfg ->
  understood (CreateQueue cfg) RCreateQueue (fun r => decode createQueueFields zeroCreateQueue r = inl (asked_config cfg)).
Proof.
  intros [Hf H1 H2 H3 H4 H5]. destruct (toReq_names "POST" ["queues"] (cl_Target (CreateQueue cfg)) (cl_Body (CreateQueue cfg)))
    as [query E]; [done|by repeat constructor|reflexivity|].
  eexists. split; [exact E|]. split; [reflexivity|]. unfold decode. cbn [rq_Body rq_ReadErr].
  set (ts := [string_item "ordering" (qc_Ordering cfg); bool_item "priority_enabled" (qc_PriorityEnabled cfg)] ++
    omit_int "max_attempts" (qc_MaxAttempts cfg) ++
    omit_int "default_visibility_timeout_ms" (qc_DefaultVisibilityTimeoutMS cfg) ++
    omit_int "aging_interval_ms" (qc_AgingIntervalMS cfg) ++ omit_int "aging_max_boost" (qc_AgingMaxBoost cfg) ++
    omit_int "dedup_window_ms" (qc_DedupWindowMS cfg) ++ []).
  rewrite (Decode_call createQueueFields (CreateQueue cfg) (string_item "name" (qc_Name cfg)) ts zeroCreateQueue (asked_config cfg)); [done| |done| |].
  - subst ts. cbn [fmap list_fmap app]. rewrite !fmap_app, !wire_omit_int. cbn [fmap list_fmap]. rewrite app_nil_r. reflexivity.
  - subst ts. items_ok.
  - subst ts. cbn [fmap list_fmap app].
    do 3 store_item. do 5 store_int. reflexivity.
Qed.

(** What an enqueue asks for. *)
Record sendable (queue : string) (req : EnqueueRequest) : Prop := {
  sd_fits : fits (Client_Enqueue queue req);
  sd_n : in_int64 (nr_N req);
  sd_priority : in_int64 (nr_Priority req);
  sd_delay : in_int64 (nr_DelayMS req);
}.

Definition asked_enqueue (req : EnqueueRequest) : enqueueRequest :=
  Request.mkEnqueueRequest (payloadOf req) (nr_Priority req) (nr_DelayMS req) (received (nr_DedupID req)).

Definition payload_item (req : EnqueueRequest) : Item :=
  ("payload", payloadOf req,
   JObj [(bytes_of_string "n", JNum (appendInt (nr_N req))); (bytes_of_string "task", JStr (valid_bytes (bytes_of_string (nr_Task req))))]).

Lemma item_ok_payload req : in_int64 (nr_N req) -> item_ok (payload_item req).
Proof.
  intros Hn. split; [done|]. apply reads_raw_object.
  - split_and!; [by apply safe_plain|done|]. apply reads_int. by left.
  - apply Forall2_cons. split; [|done]. split_and!; [by apply safe_plain|done|]. apply reads_any_string.
Qed.

(** A request under a queue's name. *)
Section Queue.
Context (queue : string) (Hqueue : nameRE queue = true).

Lemma queue_path (path : list string) :
  Forall (fun s => segmentOk (bytes_of_string s) = true) path ->
  Forall (fun s => segmentOk (bytes_of_string s) = true) ("queues" :: queue :: path).
Proof using Hqueue. intros Hp. repeat (apply Forall_cons; split); [done|by apply name_segment|done]. Qed.

Lemma queue_target (path : string) segs :
  bytes_of_string path = pathOf segs -> bytes_of_string ("/queues/" ++ queue ++ path) = pathOf ([bytes_of_string "queues"; bytes_of_string queue] ++ segs).
Proof using Type.
  intros E. rewrite !bytes_of_string_app, E. unfold pathOf. cbn [app fmap list_fmap concat]. done.
Qed.

Lemma understood_Enqueue req :
  sendable queue req ->
  understood (Client_Enqueue queue req) (REnqueue queue) (fun r => decode enqueueFields zeroEnqueue r = inl (asked_enqueue req)).
Proof using Hqueue.
  intros [Hf H1 H2 H3]. destruct (toReq_names "POST" ["queues"; queue; "messages"] (cl_Target (Client_Enqueue queue req))
    (cl_Body (Client_Enqueue queue req))) as [query E]; [done|by apply queue_path; repeat constructor|by apply queue_target|].
  eexists. split; [exact E|]. split; [reflexivity|]. unfold decode. cbn [rq_Body rq_ReadErr].
  set (ts := [int_item "priority" (nr_Priority req)] ++ omit_int "delay_ms" (nr_DelayMS req) ++ omit_string "dedup_id" (nr_DedupID req) ++ []).
  rewrite (Decode_call enqueueFields (Client_Enqueue queue req) (payload_item req) ts zeroEnqueue (asked_enqueue req)); [done| |done| |].
  - subst ts. cbn [fmap list_fmap app]. rewrite !fmap_app, wire_omit_int, wire_omit_string. cbn [fmap list_fmap]. rewrite app_nil_r. reflexivity.
  - subst ts. apply Forall_cons. split; [by apply item_ok_payload|]. items_ok.
  - subst ts. cbn [fmap list_fmap app].
    erewrite storeFields_item; [|reflexivity|reflexivity]. erewrite storeFields_item; [|reflexivity|by apply setInt_ok].
    store_int. store_string. reflexivity.
Qed.

Lemma fits_Dequeue max vis : fits (Client_Dequeue queue max vis).
Proof using Type.
  unfold fits. assert (Z.of_nat (length (cl_Body (Client_Dequeue queue max vis))) <= 1000) as H.
  { unfold Client_Dequeue, post, encodeBody, marshalObject. cbn [cl_Body fmap list_fmap concat fst snd].
    pose proof (length_field true "max_messages" (appendInt max) eq_refl) as L1.
    pose proof (length_field false "visibility_timeout_ms" (appendInt vis) eq_refl) as L2.
    pose proof (length_appendInt max). pose proof (length_appendInt vis).
    change (length (bytes_of_string "max_messages")) with 12%nat in L1.
    change (length (bytes_of_string "visibility_timeout_ms")) with 21%nat in L2.
    rewrite !length_app. cbn [length]. lia. }
  assert (1000 <= MaxPayloadBytes + 4096) by (vm_compute; discriminate). lia.
Qed.

Lemma understood_Dequeue max vis :
  in_int64 max -> in_int64 vis ->
  understood (Client_Dequeue queue max vis) (RDequeue queue)
    (fun r => decodeOptional dequeueFields zeroDequeue r = inl (mkDequeueRequest max vis)).
Proof using Hqueue.
  intros H1 H2. destruct (toReq_names "POST" ["queues"; queue; "dequeue"] (cl_Target (Client_Dequeue queue max vis))
    (cl_Body (Client_Dequeue queue max vis))) as [query E]; [done|by apply queue_path; repeat constructor|by apply queue_target|].
  eexists. split; [exact E|]. split; [reflexivity|]. unfold decodeOptional. cbn [rq_Body rq_ReadErr].
  rewrite (Decode_call dequeueFields (Client_Dequeue queue max vis) (int_item "max_messages" max)
    [int_item "visibility_timeout_ms" vis] zeroDequeue (mkDequeueRequest max vis)); [done|done|apply fits_Dequeue|items_ok|].
  cbn [fmap list_fmap]. do 2 (erewrite storeFields_item; [|reflexivity|by apply setInt_ok]). reflexivity.
Qed.

Lemma understood_path method suffix (path : list string) body route :
  bytes_of_string suffix = pathOf (bytes_of_string <$> path) ->
  Forall (fun s => segmentOk (bytes_of_string s) = true) path -> Routes method ("queues" :: queue :: path) = Some route ->
  understood (mkCall method (bytes_of_string ("/queues/" ++ queue ++ suffix)) body) route (fun _ => True).
Proof using Hqueue.
  intros Hs Hp Hr. destruct (toReq_names method ("queues" :: queue :: path) (bytes_of_string ("/queues/" ++ queue ++ suffix)) body)
    as [query E]; [done|by apply queue_path|by rewrite (queue_target _ _ Hs)|].
  eexists. split; [exact E|]. by split.
Qed.

Lemma understood_message id (verb : string) route :
  segmentOk (bytes_of_string id) = true -> segmentOk (bytes_of_string verb) = true ->
  Routes "POST" ["queues"; queue; "messages"; id; verb] = Some route ->
  understood (post ("/queues/" ++ queue ++ "/messages/" ++ id ++ "/" ++ verb) []) route (fun _ => True).
Proof using Hqueue.
  intros Hi Hv Hr. unfold post. apply (understood_path "POST" _ ["messages"; id; verb]); [|by repeat constructor|done].
  rewrite !bytes_of_string_app. unfold pathOf. cbn [fmap list_fmap concat app]. by rewrite app_nil_r.
Qed.

Lemma digits_nameByte fuel n : 0 <= n -> Forall (fun b => isDigit b = true) (digits fuel n).
Proof using Type.
  revert n. induction fuel as [|fuel IH]; intros n Hn; [constructor|]. cbn [digits].
  pose proof (Z.mod_pos_bound n 10 ltac:(lia)) as Hm. apply Forall_app. split.
  - destruct (n <? 10); [constructor|]. apply IH. apply Z.div_pos; lia.
  - apply Forall_singleton. by apply isDigit_spec.
Qed.

Lemma understood_Peek limit :
  0 < limit < 2 ^ 63 ->
  understood (Peek_ queue limit) (RPeek queue) (fun r => intParam r "limit" 25 = limit).
Proof using Hqueue.
  intros Hl. pose proof (digits_nameByte 20 limit ltac:(lia)) as Hd. rewrite Forall_forall in Hd.
  assert (appendInt limit = digits 20 limit) as Ea by (unfold appendInt; by rewrite (proj2 (Z.ltb_ge _ _)) by lia).
  assert (forall b, b ∈ digits 20 limit -> nameByte b = true /\ b <> ch "?" /\ b <> ch "&" /\ b <> ch "=") as Hb.
  { intros b Hin. specialize (Hd b Hin). split_and!; [by destruct b|intros -> ..]; discriminate Hd. }
  set (query := bytes_of_string "limit=" ++ digits 20 limit).
  assert (cl_Target (Peek_ queue limit) = pathOf (bytes_of_string <$> ["queues"; queue; "peek"]) ++ ch "?" :: query) as Et.
  { unfold Peek_. cbn [cl_Target]. rewrite Ea. subst query.
    rewrite !bytes_of_string_app. change (bytes_of_string "/peek?limit=") with (bytes_of_string "/peek" ++ ch "?" :: bytes_of_string "limit=").
    unfold pathOf. cbn [fmap list_fmap concat app]. rewrite ?app_nil_r. repeat (rewrite <- app_assoc; cbn [app]). reflexivity. }
  pose proof (toReq_query "GET" (bytes_of_string <$> ["queues"; queue; "peek"]) query []) as E. rewrite <- Et in E.
  eexists. split; [apply E|].
  - done.
  - apply Forall_fmap. apply queue_path. by repeat constructor.
  - subst query. apply not_elem_of_app. split; [apply (bool_decide_unpack _); reflexivity|]. intros Hin. by apply Hb in Hin as (_ & ? & _).
  - subst query. rewrite forallb_app. change (forallb _ (bytes_of_string "limit=")) with true. cbn [andb].
    rewrite forallb_forall. intros b Hin%list_elem_of_In. apply Hb in Hin as [-> _]. done.
  - cbn [rq_Method rq_Path fmap list_fmap]. rewrite !string_of_bytes_of_string. split; [reflexivity|].
    unfold intParam. cbn [rq_Query].
    assert (queryGet query "limit" = string_of_bytes (digits 20 limit)) as ->.
    { unfold queryGet. subst query. rewrite (splitOn_none (ch "&")).
      - cbn [fmap list_fmap]. change (bytes_of_string "limit=" ++ digits 20 limit) with (bytes_of_string "limit" ++ ch "=" :: digits 20 limit).
        rewrite splitOn_app by (apply (bool_decide_unpack _); reflexivity).
        rewrite splitOn_none by (intros Hin; by apply Hb in Hin as (_ & _ & _ & ?)). reflexivity.
      - apply not_elem_of_app. split; [apply (bool_decide_unpack _); reflexivity|]. intros Hin. by apply Hb in Hin as (_ & _ & ? & _). }
    assert (in_int64 limit) as Hi by (unfold in_int64; lia). pose proof (ParseInt_appendInt limit Hi) as Hp. rewrite Ea in Hp.
    destruct (digits_spec 20 limit) as (Hall & _ & d & ds & Ed & _); [lia|lia|].
    rewrite bool_decide_eq_false_2.
    2: { intros Ex%(f_equal bytes_of_string). rewrite bytes_of_string_of_bytes, Ed in Ex. discriminate Ex. }
    unfold Atoi. rewrite bytes_of_string_of_bytes, Ed in *. apply Forall_cons in Hall as [Hd0 _].
    assert (isCh d "+" = false) as -> by (destruct d; (reflexivity || discriminate Hd0)).
    rewrite Hp. by rewrite (proj2 (Z.gtb_lt _ _)) by lia.
Qed.
End Queue.

(** ** The answer to an enqueue *)

Lemma Unmarshal_items {S} (fields : list (string * Setter S)) t ts kv kvs s s' :
  Forall item_ok (t :: ts) -> member_ok (wire t) kv -> Forall2 member_ok (wire <$> ts) kvs ->
  storeFields None fields (decoded <$> t :: ts) s = (s', None) ->
  Unmarshal fields (encodeBody (wire <$> t :: ts)) s = (s', None).
Proof.
  intros Hts Hm Hms Hs. unfold Unmarshal. cbn [fmap list_fmap]. rewrite (Valid_encodeBody _ _ _ _ Hm Hms).
  pose proof (DecodeFrom_object None fields t ts s Hts) as E. cbn [fmap list_fmap] in E, Hs. rewrite E. cbv zeta. by rewrite Hs.
Qed.

Lemma Enqueue_reads at_ (res : EnqueueResult) status :
  in_uint 64 (er_Seq res) -> status < 400 -> Z.of_nat (length (enqueueResultText at_ res)) < Z.shiftl 8 20 ->
  Enqueue_result (Answered status (enqueueResultText at_ res) None)
    = (mkSubmitted (received (er_ID res)) (er_Seq res) (er_Duplicate res), None).
Proof.
  intros Hseq Hst Hlen. unfold Enqueue_result, do_.
  replace (if (responseLimit <=? length (enqueueResultText at_ res))%nat then None else None) with (@None Err) by by case_match.
  rewrite take_ge.
  2: { revert Hlen. unfold responseLimit. assert (0 <= Z.shiftl 8 20) as H by (vm_compute; discriminate).
       revert H. generalize (Z.shiftl 8 20) as z. intros. lia. }
  assert (status >=? 400 = false) as -> by lia.
  set (ts := [int_item "seq" (er_Seq res); ("visible_at", appendString at_, JStr (valid_bytes at_)); bool_item "duplicate" (er_Duplicate res)]).
  change (enqueueResultText at_ res) with (encodeBody (wire <$> string_item "id" (er_ID res) :: ts)).
  assert (forall (k : string) v val, forallb htmlSafe (bytes_of_string k) = true -> reads v val ->
    member_ok (k, v) (bytes_of_string k, val)) as Hmem by (intros; split_and!; simpl; [by apply safe_plain|done|done]).
  assert (item_ok ("visible_at", appendString at_, JStr (valid_bytes at_))) as Hat by (split; [done|apply reads_raw_string]).
  apply (Unmarshal_items submittedFields _ ts (bytes_of_string "id", JStr (valid_bytes (bytes_of_string (er_ID res))))
    [(bytes_of_string "seq", JNum (appendInt (er_Seq res))); (bytes_of_string "visible_at", JStr (valid_bytes at_));
     (bytes_of_string "duplicate", JBool (er_Duplicate res))]).
  - subst ts. items_ok.
  - apply Hmem; [done|apply reads_any_string].
  - subst ts. cbn [fmap list_fmap]. repeat (apply Forall2_cons; split); try apply Forall2_nil; auto;
      apply Hmem; auto using reads_any_string, reads_bool, reads_int.
  - subst ts. cbn [fmap list_fmap]. store_item. erewrite storeFields_item; [|reflexivity|by apply setUint_ok].
    rewrite storeFields_unknown by reflexivity.
    store_item. reflexivity.
Qed.

(** C21: Client and server agree on the protocol. For a queue with a legal name, every request the client writes is routed to the handler it is meant for and decoded there into exactly the values it was made from, at the end of every integer's range and for strings of any bytes (those that are not valid UTF-8 arrive with their invalid bytes replaced by U+FFFD, nothing else changes): configurations with their zero fields left out, the payload byte for byte, priority, delay and dedup id, the limits of a dequeue, the limit of a peek; and the id, sequence number and duplicate flag in the server's answer to an enqueue read back. *)
Theorem client_requests_understood queue id cfg req max vis limit at_ (res : EnqueueResult) status :
  nameRE queue = true -> segmentOk (bytes_of_string id) = true ->
  sendable_config cfg -> sendable queue req -> in_int64 max -> in_int64 vis -> 0 < limit < 2 ^ 63 ->
  in_uint 64 (er_Seq res) -> status < 400 -> Z.of_nat (length (enqueueResultText at_ res)) < Z.shiftl 8 20 ->
  understood (CreateQueue cfg) RCreateQueue (fun r => decode createQueueFields zeroCreateQueue r = inl (asked_config cfg)) /\
  understood (Client_Enqueue queue req) (REnqueue queue) (fun r => decode enqueueFields zeroEnqueue r = inl (asked_enqueue req)) /\
  understood (Client_Dequeue queue max vis) (RDequeue queue)
    (fun r => decodeOptional dequeueFields zeroDequeue r = inl (mkDequeueRequest max vis)) /\
  understood (Client_Ack queue id) (RAck queue id) (fun _ => True) /\
  understood (Client_Nack queue id) (RNack queue id) (fun _ => True) /\
  understood (Peek_ queue limit) (RPeek queue) (fun r => intParam r "limit" 25 = limit) /\
  understood (Stats_ queue) (RStats queue) (fun _ => True) /\
  understood (Compact_ queue) (RCompact queue) (fun _ => True) /\
  understood ListQueues RListQueues (fun _ => True) /\
  understood Healthy RHealthz (fun _ => True) /\
  Enqueue_result (Answered status (enqueueResultText at_ res) None)
    = (mkSubmitted (received (er_ID res)) (er_Seq res) (er_Duplicate res), None).
Proof.
  intros Hq Hid Hcfg Hreq Hmax Hvis Hlim Hseq Hst Hlen. split_and!.
  - by apply understood_CreateQueue.
  - by apply understood_Enqueue.
  - by apply understood_Dequeue.
  - by apply (understood_message queue Hq id "ack").
  - by apply (understood_message queue Hq id "nack").
  - by apply understood_Peek.
  - apply (understood_path queue Hq "GET" "/stats" ["stats"]); [done|by repeat constructor|done].
  - apply (understood_path queue Hq "POST" "/compact" ["compact"]); [done|by repeat constructor|done].
  - eexists. split; [vm_compute; reflexivity|]. by split.
  - eexists. split; [vm_compute; reflexivity|]. by split.
  - by apply Enqueue_reads.
Qed.

(** A name arrives as it is. *)
Lemma plain_valid b : plain b -> valid_bytes b = b.
Proof.
  unfold valid_bytes. induction 1 as [|x b Hx Hb IH]; [done|]. cbn [toValid].
  destruct (htmlSafe_spec x Hx) as [Hr _]. rewrite (proj2 (Z.ltb_lt _ _)) by lia. by rewrite IH.
Qed.

Lemma received_name name : nameRE name = true -> received name = name.
Proof. intros H. unfold received. rewrite plain_valid by by apply name_plain. apply string_of_bytes_of_string. Qed.

(** ** Witness *)

Definition ex_cfg : QueueConfig := mkQueueConfig "priority-lifo" "lifo" true 4 4000 0 8 60000.
Definition ex_req : EnqueueRequest := mkEnqueueRequest "send-email" 7 (-3) (2 ^ 63 - 1) "a<b>é".

Lemma client_requests_understood_witness :
  understood (CreateQueue ex_cfg) RCreateQueue (fun r => decode createQueueFields zeroCreateQueue r
    = inl (mkCreateQueueRequest "priority-lifo" "lifo" true 4 4000 0 8 60000)) /\
  understood (Client_Enqueue "fifo" ex_req) (REnqueue "fifo") (fun r => decode enqueueFields zeroEnqueue r
    = inl (Request.mkEnqueueRequest (payloadOf ex_req) (-3) (2 ^ 63 - 1) "a<b>é")).
Proof.
  destruct (client_requests_understood "fifo" "0123456789abcdef" ex_cfg ex_req 10 (- 2 ^ 63) 60 (bytes_of_string "2024-05-01T00:00:00Z")
    (mkEnqueueResult "0123456789abcdef" (2 ^ 64 - 1) 0 true) 201) as (H1 & H2 & _);
    [reflexivity|reflexivity|split; vm_compute; repeat split; discriminate|split; vm_compute; repeat split; discriminate
    |vm_compute; repeat split; discriminate|vm_compute; repeat split; discriminate|lia|vm_compute; repeat split; discriminate|lia|vm_compute; reflexivity|].
  split; [exact H1|exact H2].
Defined.
