(* ===== verification/Dashboard.v ===== *)
(** * The demo's dashboard ([internal/demo/dashboard.go]) and its command
    ([cmd/jobrunner/main.go])

    Every control of the dashboard as a function of its state, the request and
    what the world returns: answers of the queue server, system calls, processes,
    random numbers and the clock.  A line of the event log and a value written as
    JSON are constructors with the values they show. *)

From Stdlib Require Import ZArith Lia Floats.SpecFloat.
From S2P Require Import Prelude GoInt Errors Message Json Inspect Request Manager Server Main Report Lab Client Runner.

(** ** Floats *)

(** The float64 nearest to [d * 10 ^ e]: [2 * q + sticky] has more bits than fit. *)
Definition decimalFloat (neg : bool) (d e : Z) : spec_float :=
  let signed z := if neg then - z else z in
  if d =? 0 then S754_zero neg
  else if 0 <=? e then binary_normalize 53 1024 (signed (d * 10 ^ e)) 0 neg
  else
    let p := 10 ^ (- e) in
    let s := Z.max 0 (Z.log2 p - Z.log2 d + 66) in
    let q := Z.shiftl d s / p in
    let sticky := if Z.shiftl d s mod p =? 0 then 0 else 1 in
    binary_normalize 53 1024 (signed (2 * q + sticky)) (- (s + 1)) neg.

(** [strconv.ParseFloat(s, 64)] on a JSON number; [None] is a range error. *)
Definition ParseFloat (b : list byte) : option spec_float :=
  let '(sign, b) := splitSign b in
  let '(int, b) := spanDigits b in
  let '(frac, b) := match b with x :: b' => if isCh x "." then spanDigits b' else ([], b) | [] => ([], b) end in
  let expo := match b with
              | [] => Some 0
              | _ :: y :: b'' => if isCh y "-" then Z.opp <$> parseDigits b''
                                 else if isCh y "+" then parseDigits b'' else parseDigits (y :: b'')
              | [_] => None
              end in
  d ← parseDigits (int ++ frac); e ← expo;
  match decimalFloat (bool_decide (sign <> [])) d (e - Z.of_nat (length frac)) with
  | S754_infinity _ => None
  | f => Some f
  end.

(** [Sprintf("%.1f", f)] for a float that is not negative: the exact value, rounded
    half to even. *)
Definition fixed1 (f : spec_float) : list byte :=
  let tenths := match f with
                | S754_finite _ m e =>
                  if 0 <=? e then 10 * Zpos m * 2 ^ e
                  else
                    let p := 2 ^ (- e) in
                    let q := 10 * Zpos m / p in
                    let r := 10 * Zpos m mod p in
                    if (2 * r >? p) || ((2 * r =? p) && Z.odd q) then q + 1 else q
                | _ => 0
                end in
  appendInt (tenths / 10) ++ [ch "."] ++ appendInt (tenths mod 10).

Definition humanBytes (n : Z) : list byte :=
  if n >=? Z.shiftl 1 20 then fixed1 (float64_div (float64 n) (float64 (Z.shiftl 1 20))) ++ bytes_of_string " MiB"
  else if n >=? Z.shiftl 1 10 then fixed1 (float64_div (float64 n) (float64 (Z.shiftl 1 10))) ++ bytes_of_string " KiB"
  else appendInt n ++ bytes_of_string " B".

(** [d.Seconds()] *)
Definition Seconds (d : Duration) : spec_float :=
  float64_add (float64 (Z.quot d (10 ^ 9))) (float64_div (float64 (Z.rem d (10 ^ 9))) (float64 (10 ^ 9))).

(** ** State *)

(** The lines of the event log. *)
Inductive Event :=
  | EvAttached (url : string) | EvSupervised (addr : string)
  | EvSubmitted (n : Z) (queue : string) | EvDuplicates (n : Z) (queue : string) (dupes : Z) (id : string)
  | EvDelayed (n : Z) (queue : string) (delayMS : Z)
  | EvSwitched (queue : string)
  | EvBurst (ok concurrency : Z) (elapsed : Duration)
  | EvCompacted (queue : string) (before after : list byte)
  | EvKilled | EvRefused (r : StartResult) | EvRestarted
  | EvLab (what : Flipped + Appended) | EvLabRefused | EvLabStarted
  | EvRepaired.

(** [add] on the [ringWriter] of [NewEvents]; no line is empty. *)
Definition eventsMax : nat := 60.
Definition addEvent (ev : Event) (l : list Event) : list Event :=
  let l := l ++ [ev] in if (eventsMax <? length l)%nat then drop (length l - eventsMax) l else l.

(** [type Dashboard struct], but for the client; [None] is the nil supervisor of a
    dashboard that is attached to a server. *)
Record Dashboard := mkDashboard {
  db_sup : option Supervisor;
  db_runner : Runner;
  db_events : list Event;
  db_managed : bool;
}.

Definition NewDashboard (sup : option Supervisor) (runner : Runner) (events : list Event) (managed : bool) : Dashboard :=
  mkDashboard sup runner events managed.

Definition with_sup (s : Supervisor) (d : Dashboard) : Dashboard :=
  mkDashboard (Some s) (db_runner d) (db_events d) (db_managed d).
Definition with_runner (r : Runner) (d : Dashboard) : Dashboard :=
  mkDashboard (db_sup d) r (db_events d) (db_managed d).
Definition note (ev : Event) (d : Dashboard) : Dashboard :=
  mkDashboard (db_sup d) (db_runner d) (addEvent ev (db_events d)) (db_managed d).

(** ** What is written *)

(** The values of a response's members. *)
Inductive Shown :=
  | ShErr (err : Err) | ShText (s : string) | ShBytes (b : list byte) | ShRaw (b : option (list byte))
  | ShInt (z : Z) | ShBool (b : bool) | ShFloat (f : spec_float) | ShLines (l : list (list byte))
  | ShStart (r : StartResult) | ShLabErr (err : LabError) | ShWhat (what : Flipped + Appended)
  | ShRepair (r : RepairResult) | ShEnsure (queue : string) (err : Err) | ShResults (l : list Submitted).

(** [type ServerState struct] and [type Snapshot struct]; [None] is a nil
    [RawMessage]. *)
Record ServerState := mkServerState { ss_Managed : bool; ss_Running : bool; ss_Logs : list (list byte) }.
Record Snapshot := mkSnapshot {
  sn_TimeMS : Z;
  sn_Defs : list QueueDef;
  sn_Target : string;
  sn_Queues : option (list byte);
  sn_Stats : option (list byte);
  sn_Peek : option (list byte);
  sn_Runner : RunnerState;
  sn_Server : ServerState;
  sn_Events : list Event;
  sn_Offline : bool;
}.

Inductive Page :=
  | PObject (ms : list (string * Shown))
  | PConfig (c : RunnerConfig)
  | PSnapshot (s : Snapshot).

(** A call of [writeJSON]; a handler may make two. *)
Inductive Written := writeJSON (status : Z) (p : Page).
Definition StatusBadGateway : Z := 502.
Definition badRequest (ms : list (string * Shown)) : Written := writeJSON StatusBadRequest (PObject ms).
Definition okObject (ms : list (string * Shown)) : Written := writeJSON StatusOK (PObject ms).
Definition errorMsg (what : string) : list (string * Shown) := [("error", ShErr (EMsg what))].

(** ** Requests *)

Record DashReq := mkDashReq {
  dq_Method : string;
  dq_Path : list string;
  dq_ContentLength : Z;      (* -1 if it is not known *)
  dq_Body : list byte;
  dq_ReadErr : option Err;
}.

(** [readJSON]: what is stored, and the response it has written, if it failed. *)
Definition readLimit : nat := Z.to_nat (Z.shiftl 1 20).
Definition readJSON {S} (fields : list (string * Setter S)) (r : DashReq) (zero : S) : S * option Written :=
  if dq_ContentLength r =? 0 then (zero, None)
  else
    let readErr := if (readLimit <? length (dq_Body r))%nat then Some (EMsg "http: request body too large") else dq_ReadErr r in
    match DecodeFrom None fields (take readLimit (dq_Body r)) readErr zero with
    | (s, None) => (s, None)
    | (s, Some DecodeEOF) => (s, Some (badRequest (errorMsg "EOF")))
    | (s, Some (DecodeFailed err)) => (s, Some (badRequest [("error", ShErr err)]))
    end.

(** A pointer field: [null] is nil. *)
Definition setPtr {A S} (get : json -> option A) (set : option A -> S -> S) : Setter S := fun v _ s =>
  match v with
  | JNull => (set None s, None)
  | _ => match get v with Some x => (set (Some x) s, None) | None => (s, typeError) end
  end.
Definition jsonString (v : json) : option string := match v with JStr b => Some (string_of_bytes b) | _ => None end.
Definition jsonInt (v : json) : option Z := match v with JNum l => ParseInt l | _ => None end.
Definition jsonFloat (v : json) : option spec_float := match v with JNum l => ParseFloat l | _ => None end.

(** The request of [submit]. *)
Record submitReq := mkSubmitReq { sq_Queue : string; sq_Count : Z; sq_Priority : Z; sq_DelayMS : Z; sq_DedupID : string }.
Definition submitFields : list (string * Setter submitReq) := [
  ("queue", setString (fun x s => mkSubmitReq x (sq_Count s) (sq_Priority s) (sq_DelayMS s) (sq_DedupID s)));
  ("count", setInt (fun x s => mkSubmitReq (sq_Queue s) x (sq_Priority s) (sq_DelayMS s) (sq_DedupID s)));
  ("priority", setInt (fun x s => mkSubmitReq (sq_Queue s) (sq_Count s) x (sq_DelayMS s) (sq_DedupID s)));
  ("delay_ms", setInt (fun x s => mkSubmitReq (sq_Queue s) (sq_Count s) (sq_Priority s) x (sq_DedupID s)));
  ("dedup_id", setString (fun x s => mkSubmitReq (sq_Queue s) (sq_Count s) (sq_Priority s) (sq_DelayMS s) x))].

(** The request of [config]. *)
Record configReq := mkConfigReq {
  gq_Target : option string;
  gq_Workers : option Z;
  gq_FailureRate : option spec_float;
  gq_AbandonRate : option spec_float;
  gq_VisibilityMS : option Z;
}.
Definition configReqFields : list (string * Setter configReq) := [
  ("target", setPtr jsonString (fun x s => mkConfigReq x (gq_Workers s) (gq_FailureRate s) (gq_AbandonRate s) (gq_VisibilityMS s)));
  ("workers", setPtr jsonInt (fun x s => mkConfigReq (gq_Target s) x (gq_FailureRate s) (gq_AbandonRate s) (gq_VisibilityMS s)));
  ("failure_rate", setPtr jsonFloat (fun x s => mkConfigReq (gq_Target s) (gq_Workers s) x (gq_AbandonRate s) (gq_VisibilityMS s)));
  ("abandon_rate", setPtr jsonFloat (fun x s => mkConfigReq (gq_Target s) (gq_Workers s) (gq_FailureRate s) x (gq_VisibilityMS s)));
  ("visibility_ms", setPtr jsonInt (fun x s => mkConfigReq (gq_Target s) (gq_Workers s) (gq_FailureRate s) (gq_AbandonRate s) x))].

(** The requests of [burst], [corrupt] and [repair]. *)
Definition burstFields : list (string * Setter (Z * Z)) := [
  ("count", setInt (fun x s => (x, s.2))); ("concurrency", setInt (fun x s => (s.1, x)))].
Definition corruptFields : list (string * Setter (string * string)) := [
  ("mode", setString (fun x s => (x, s.2))); ("queue", setString (fun x s => (s.1, x)))].
Definition repairFields : list (string * Setter string) := [("queue", setString (fun x _ => x))].

(** ** The queues of the demo *)

Definition configOf (def : QueueDef) : QueueConfig :=
  mkQueueConfig (qd_Name def) (qd_Ordering def) (qd_Priority def) 4 4000 (qd_AgingMS def) 8 60000.

(** [EnsureQueues] against a server in the world [W]. *)
Section Ensure.
Context {W : Type} (http : Call -> W -> option (W * Answer)).

Fixpoint ensure_loop (defs : list QueueDef) (w : W) : option (W * option (string * Err)) :=
  match defs with
  | [] => Some (w, None)
  | def :: defs =>
    '(w, a) ← http (CreateQueue (configOf def)) w;
    match CreateQueue_result a with
    | Some err => Some (w, Some (qd_Name def, err))
    | None => ensure_loop defs w
    end
  end.

Definition EnsureQueues (w : W) : option (W * option (string * Err)) := ensure_loop QueueDefs w.
End Ensure.

(** ** What a handler takes from outside *)

(** A start of the server: the arguments of [Supervisor_Start]. *)
Record StartIn := mkStartIn {
  si_banner : list byte;
  si_execErr : option Err;
  si_output : list byte;
  si_polls : list Poll;
  si_dies : bool;
}.

Record DashIn := mkDashIn {
  di_answer : Call -> Answer;            (* of the queue server *)
  di_enqueue : Enqueuer;
  di_rnd : nat -> Z * nat;
  di_order : nat -> list nat;            (* for [Burst] *)
  di_now : Z;                            (* [time.Now().UnixMilli()] *)
  di_elapsed : Duration;                 (* of a burst *)
  di_stops : list Z;                     (* the order [r.stops] is iterated in *)
  di_dies : bool;                        (* for [Kill] *)
  di_start : StartIn;
  di_readErr : option Err;               (* for the lab *)
  di_openErr : option Err;
  di_statErr : option Err;
  di_flipErr : option (list byte * Err);
  di_tailErr : option (nat * Err);
  di_verifyErr : option Err;
  di_repairErr : option Err;
  di_readDir : list DirEntry + Err;
  di_repairNow : Time;
  di_repairIO : RepairIO;
}.

Definition http_ (i : DashIn) (c : Call) (w : unit) : option (unit * Answer) := Some (w, di_answer i c).
Definition ensured (i : DashIn) : option (string * Err) :=
  match EnsureQueues (http_ i) tt with Some (_, err) => err | None => None end.

Definition start (i : DashIn) (s : Supervisor) : option (Supervisor * StartResult) :=
  let p := di_start i in Supervisor_Start (si_banner p) (si_execErr p) (si_output p) (si_polls p) (si_dies p) s.
(** [err == nil] *)
Definition startedOk (r : StartResult) : bool := match r with Started | AlreadyRunning => true | _ => false end.

(** ** Handlers *)

(** The state after a handler, the files after it, and what it has written; [None]
    is a nil dereference.  The queue server's own state is not there: an
    [EnsureQueues] whose result is dropped leaves nothing behind.  A handler holds no
    lock throughout: this is one that no other runs beside; the critical sections of
    several are [DashboardSafe.section]. *)
Definition Handler : Type := DashIn -> DashReq -> Files -> Dashboard -> option (Dashboard * Files * list Written).

Definition rawOf (a : Answer) : option (list byte) := match raw_result a with (raw, None) => Some raw | _ => None end.

Definition snapshot (i : DashIn) (d : Dashboard) : option Snapshot :=
  let target := Target (db_runner d) in
  running ← (if db_managed d then s ← db_sup d; Some (sp_running s) else Some true);
  logs ← (if db_managed d then s ← db_sup d; Some (ring_lines (sp_logs s)) else Some []);
  let server := mkServerState (db_managed d) running logs in
  let snap := mkSnapshot (di_now i) QueueDefs target None None None (State (di_stops i) (db_runner d)) server (db_events d) in
  if negb running then Some (snap true)
  else
    let stats := rawOf (di_answer i (Stats_ target)) in
    Some (mkSnapshot (di_now i) QueueDefs target (rawOf (di_answer i ListQueues)) stats
      (rawOf (di_answer i (Peek_ target 60))) (State (di_stops i) (db_runner d)) server (db_events d) (bool_decide (stats = None))).

Definition snapshotHandler : Handler := fun i _ fs d =>
  s ← snapshot i d; Some (d, fs, [writeJSON StatusOK (PSnapshot s)]).

Definition submit : Handler := fun i r fs d =>
  match readJSON submitFields r (mkSubmitReq "" 0 0 0 "") with
  | (_, Some w) => Some (d, fs, [w])
  | (req, None) =>
    let queue := if bool_decide (sq_Queue req = "") then Target (db_runner d) else sq_Queue req in
    let '(runner, (res, err)) :=
      Submit queue (sq_Count req) (sq_Priority req) (sq_DelayMS req) (sq_DedupID req) (di_rnd i) (di_enqueue i) (db_runner d) in
    let d := with_runner runner d in
    let n := Z.of_nat (length res) in
    match err with
    | Some err => Some (d, fs, [writeJSON StatusBadGateway (PObject [("error", ShErr err); ("submitted", ShInt n)])])
    | None =>
      let dupes := Z.of_nat (length (filter (fun x => sb_Duplicate x = true) res)) in
      ev ← (if dupes >? 0 then x ← head res; Some (EvDuplicates n queue dupes (sb_ID x))
            else if sq_DelayMS req >? 0 then Some (EvDelayed n queue (sq_DelayMS req))
            else Some (EvSubmitted n queue));
      Some (note ev d, fs, [okObject [("submitted", ShInt n); ("duplicates", ShInt dupes); ("results", ShResults res)]])
    end
  end.

Definition config : Handler := fun i r fs d =>
  match readJSON configReqFields r (mkConfigReq None None None None None) with
  | (_, Some w) => Some (d, fs, [w])
  | (req, None) =>
    let old := Target (db_runner d) in
    runner ← Update (gq_Target req) (gq_Workers req) (gq_FailureRate req) (gq_AbandonRate req) (gq_VisibilityMS req) (db_runner d);
    let d := if bool_decide (Target runner = old) then d else note (EvSwitched (Target runner)) d in
    Some (with_runner runner d, fs, [writeJSON StatusOK (PConfig (Runner_Config runner))])
  end.

Definition burst : Handler := fun i r fs d =>
  match readJSON burstFields r (0, 0) with
  | (_, Some w) => Some (d, fs, [w])
  | ((count, concurrency), None) =>
    let concurrency := if concurrency <=? 0 then 32 else concurrency in
    let concurrency := if concurrency >? 128 then 128 else concurrency in
    let '(runner, (n, err)) := Burst (Target (db_runner d)) count (di_rnd i) (di_order i) (di_enqueue i) (db_runner d) in
    let elapsed := di_elapsed i in
    Some (note (EvBurst n concurrency elapsed) (with_runner runner d), fs,
      [okObject ([("enqueued", ShInt n); ("elapsed_ms", ShInt (Milliseconds elapsed))] ++
        (if elapsed >? 0 then [("per_second", ShFloat (float64_div (float64 n) (Seconds elapsed)))] else []) ++
        match err with Some err => [("error", ShErr err)] | None => [] end)])
  end.

Definition compactHandler : Handler := fun i r fs d =>
  let target := Target (db_runner d) in
  match Compact_result (di_answer i (Compact_ target)) with
  | (_, _, Some err) => Some (d, fs, [writeJSON StatusBadGateway (PObject [("error", ShErr err)])])
  | (before, after, None) =>
    Some (note (EvCompacted target (humanBytes before) (humanBytes after)) d, fs,
      [okObject [("before_bytes", ShInt before); ("after_bytes", ShInt after)]])
  end.

Definition killServer : Handler := fun i r fs d =>
  if negb (db_managed d) then
    Some (d, fs, [badRequest (errorMsg "this dashboard is attached to a server it does not own; restart it with -queue-bin to enable the crash lab")])
  else
    let before := rawOf (di_answer i (Stats_ (Target (db_runner d)))) in
    s ← db_sup d;
    Some (note EvKilled (with_sup (Kill (di_dies i) s) d), fs, [okObject [("killed", ShBool true); ("stats_before", ShRaw before)]]).

Definition startServer : Handler := fun i r fs d =>
  if negb (db_managed d) then Some (d, fs, [badRequest (errorMsg "server is not managed by this dashboard")])
  else
    s ← db_sup d;
    '(s, res) ← start i s;
    let d := with_sup s d in
    if negb (startedOk res) then
      Some (note (EvRefused res) d, fs,
        [okObject [("started", ShBool false); ("error", ShStart res); ("logs", ShLines (ring_lines (sp_logs s)))]])
    else
      match ensured i with
      | Some (queue, err) => Some (d, fs, [okObject [("started", ShBool true); ("error", ShEnsure queue err)]])
      | None => Some (note EvRestarted d, fs, [okObject [("started", ShBool true); ("logs", ShLines (ring_lines (sp_logs s)))]])
      end.

(** [explain] *)
Inductive Explanation := TornTailTruncated | TornTailRefused | CorruptionAccepted | CorruptionRefused.
Definition explain (mode : string) (started : bool) : Explanation :=
  if bool_decide (mode = "tail") then if started then TornTailTruncated else TornTailRefused
  else if started then CorruptionAccepted else CorruptionRefused.

Definition explanationText (x : Explanation) : string :=
  match x with
  | TornTailTruncated => "The file ended in the middle of a record. That cannot be anything but an interrupted write, and no client was ever told it committed — so the server truncated it, logged a warning, and carried on."
  | TornTailRefused => "Unexpected: a torn tail should have been truncated, not refused."
  | CorruptionAccepted => "Unexpected: a checksum mismatch should have stopped startup."
  | CorruptionRefused => "A complete record failed its checksum. That is real corruption, not a crash artifact, so the server refuses to start and names the byte offset. Skipping the record would silently lose data nobody would ever notice."
  end.

(** The damage [corrupt] does. *)
Definition damage (i : DashIn) (mode queue : string) (fs : Files) (s : Supervisor) : Files * ((Flipped + Appended) + LabError) :=
  if bool_decide (mode = "tail") then
    match TruncateTailMidRecord queue (di_openErr i) (di_statErr i) (di_tailErr i) fs s with
    | (fs, inl a) => (fs, inl (inr a))
    | (fs, inr err) => (fs, inr err)
    end
  else
    match FlipByteMidLog queue (di_readErr i) (di_flipErr i) fs s with
    | (fs, inl f) => (fs, inl (inl f))
    | (fs, inr err) => (fs, inr err)
    end.

Definition stop (i : DashIn) (s : Supervisor) : Supervisor := if sp_running s then Kill (di_dies i) s else s.

Definition corrupt : Handler := fun i r fs d =>
  if negb (db_managed d) then Some (d, fs, [badRequest (errorMsg "corruption lab needs a managed server (-queue-bin)")])
  else
    match readJSON corruptFields r ("", "") with
    | (_, Some w) => Some (d, fs, [w])
    | ((mode, queue), None) =>
      let queue := if bool_decide (queue = "") then Target (db_runner d) else queue in
      s ← db_sup d;
      let s := stop i s in
      let mode := if bool_decide (mode = "tail") then mode else "midlog" in
      match damage i mode queue fs s with
      | (fs, inr err) => Some (with_sup s d, fs, [badRequest [("error", ShLabErr err)]])
      | (fs, inl what) =>
        let d := note (EvLab what) d in
        '(verify, code) ← Supervisor_Verify (di_verifyErr i) (di_readDir i) s;
        '(s, res) ← start i s;
        let ok := startedOk res in
        let d := note (if ok then EvLabStarted else EvLabRefused) (with_sup s d) in
        Some (d, fs, [okObject ([("mode", ShText mode); ("what", ShWhat what); ("verify", ShBytes verify);
          ("verify_code", ShInt code); ("started", ShBool ok); ("logs", ShLines (ring_lines (sp_logs s)));
          ("explanation", ShText (explanationText (explain mode ok)))] ++ (if ok then [] else [("error", ShStart res)]))])
      end
    end.

(** [repair]; what [readJSON] returns is not looked at. *)
Definition repair : Handler := fun i r fs d =>
  if negb (db_managed d) then Some (d, fs, [badRequest (errorMsg "repair needs a managed server (-queue-bin)")])
  else
    let '(queue, w) := readJSON repairFields r "" in
    let written := match w with Some w => [w] | None => [] end in
    let queue := if bool_decide (queue = "") then Target (db_runner d) else queue in
    s ← db_sup d;
    let s := stop i s in
    '(fs, s, res) ← Supervisor_Repair queue (di_verifyErr i) (di_repairErr i) (di_readDir i) (di_repairNow i) (di_repairIO i) fs s;
    match res with
    | Repaired _ =>
      let d := note EvRepaired d in
      '(s, started) ← start i s;
      Some (with_sup s d, fs, written ++ [okObject ([("output", ShRepair res); ("started", ShBool (startedOk started));
        ("logs", ShLines (ring_lines (sp_logs s)))] ++ (if startedOk started then [] else [("error", ShStart started)]))])
    | _ => Some (with_sup s d, fs, written ++ [okObject [("error", ShRepair res); ("output", ShRepair res)]])
    end.

(** ** Routes *)

(** The patterns but for [GET /], the files of the page, and [/api/stream], which
    writes a snapshot four times a second. *)
Definition DashRoutes (method : string) (path : list string) : option Handler :=
  let post := bool_decide (method = "POST") in
  let get := bool_decide (method = "GET") || bool_decide (method = "HEAD") in
  let table : list (bool * list string * Handler) := [
    (get, ["api"; "snapshot"], snapshotHandler);
    (post, ["api"; "submit"], submit);
    (post, ["api"; "config"], config);
    (post, ["api"; "burst"], burst);
    (post, ["api"; "compact"], compactHandler);
    (post, ["api"; "server"; "kill"], killServer);
    (post, ["api"; "server"; "start"], startServer);
    (post, ["api"; "lab"; "corrupt"], corrupt);
    (post, ["api"; "lab"; "repair"], repair)] in
  snd <$> find (fun e => fst (fst e) && bool_decide (snd (fst e) = path)) table.

Definition dispatch (i : DashIn) (r : DashReq) (fs : Files) (d : Dashboard) : option (Dashboard * Files * list Written) :=
  match DashRoutes (dq_Method r) (dq_Path r) with Some h => h i r fs d | None => Some (d, fs, []) end.

(** ** The command *)

(** The flags. *)
Record Flags := mkFlags {
  fl_queueBin : string;
  fl_queueAddr : string;
  fl_dataDir : string;
  fl_queueURL : string;
  fl_workers : Z;
}.

(** Why it exits before it serves. *)
Inductive Fatal := NoBinary | NotStarted (r : StartResult) | NoServer | NoQueues (queue : string) (err : Err).

(** [main] until the dashboard is served; [statErr] is what [os.Stat] of the binary
    returned. *)
Definition jobrunner (f : Flags) (statErr : option Err) (i : DashIn) : option (Dashboard + Fatal) :=
  let managed := bool_decide (fl_queueURL f = "") in
  server ← (if managed then
      match statErr with
      | Some _ => Some (inr NoBinary)
      | None =>
        '(s, res) ← start i (NewSupervisor (fl_queueBin f) (fl_dataDir f) (fl_queueAddr f));
        if startedOk res then Some (inl (Some s, [EvSupervised (fl_queueAddr f)])) else Some (inr (NotStarted res))
      end
    else if Healthy_result (di_answer i Healthy) then Some (inl (None, [EvAttached (fl_queueURL f)]))
    else Some (inr NoServer));
  match server with
  | inr fatal => Some (inr fatal)
  | inl (sup, events) =>
    let d := NewDashboard sup NewRunner events managed in
    match ensured i with
    | Some (queue, err) => Some (inr (NoQueues queue err))
    | None => runner ← SetWorkers (fl_workers f) (db_runner d); Some (inl (with_runner runner d))
    end
  end.

(** [main] after the signal: the workers are told to stop, then the server is killed. *)
Definition jobrunner_stop (dies : bool) (d : Dashboard) : option Dashboard :=
  runner ← SetWorkers 0 (db_runner d);
  let d := with_runner runner d in
  if db_managed d then s ← db_sup d; Some (with_sup (Kill dies s) d) else Some d.
