(* ===== verification/DashboardProps.v ===== *)
(** * Properties of the dashboard

    The queues the demo needs, created through the modelled server; what the
    controls may touch; and that the corruption lab tells the truth. *)

From Stdlib Require Import ZArith Lia Floats.SpecFloat.
From stdpp Require Import relations fin_map_dom.
From S2P Require Import Prelude GoInt Errors WalRecord Replay ReplayProps GoHeap Message Heaps Codec Index QueueSpec.
From S2P Require Import IndexInv IndexRefine IndexProps Durable Log LogInv LogProps Queue Load QueueInv QueueOps QueueTick Recovery.
From S2P Require Import Writer Compact Snapshot CompactProps Json JsonProps QueueTrace Sample QueueProps QueueCompact Inspect.
From S2P Require Import Request Manager Server InspectProps ManagerProps Main Damage MainProps ServerProps Report Lab LabProps.
From S2P Require Import Client Runner RunnerProps ClientProps Dashboard.

Implicit Types (m : Manager) (d : Dashboard) (s : Supervisor) (i : DashIn) (fs : gmap string (list byte)).

(** ** The demo's queues *)

(** A server that is asked over HTTP; [text] is the JSON of its answers. *)
Definition server_http (env : Call -> Manager -> Env) (text : Value -> list byte) (c : Call) m : option (Manager * Answer) :=
  r ← toReq c;
  '(m, h) ← serve (env c m) r m;
  match h with
  | Reply resp => Some (m, answerOf text resp)
  | Await _ _ _ => None
  end.

(** What is under the name of a queue that is not open: no log, or one that ends
    inside its first record, as a creation that was cut short leaves it. *)
Inductive unwritten (ev : Env) : Prop :=
  | uw_noLog err : ev_statErr ev = Some err -> ev_disk ev = mkDisk [] [] -> unwritten ev
  | uw_unfinished t p n :
      entry_ok (t, p) -> (n < length (Encode [] t p))%nat -> ev_statErr ev = None ->
      ev_view ev = OpenOk (plainFile (take n (Encode [] t p))) -> ev_disk ev = mkDisk (take n (Encode [] t p)) [] ->
      unwritten ev.

(** A creation for which every system call succeeds and the log is written. *)
Record disk_works (ev : Env) (name : string) : Prop := {
  dw_log : unwritten ev;
  dw_io : ev_openIO ev = noIO;
  dw_await meta l b : Append TypeMeta meta (newLog 0 (mkDisk [] [])) = (l, inl b) ->
    rtc log_background l (ev_await ev l b).1 /\ Wait b (ev_await ev l b).1 = Some None /\ (ev_await ev l b).2 = None;
  dw_byID : ev_byID ev name = [];
}.

(** The log is opened empty, whatever was left there. *)
Lemma Open_empty img : Open noIO (mkDisk img []) 0 = (mkDisk [] [], inl (newLog 0 (mkDisk [] []))).
Proof.
  unfold Open, disk_bytes. cbn [noIO io_MkdirAll io_OpenFile io_Stat io_Truncate io_Sync io_syncDir d_synced d_cached].
  rewrite app_nil_r. destruct img as [|x img]; [done|]. cbn [length]. rewrite (proj2 (Z.eqb_neq _ _)) by lia. cbn [negb].
  by change (truncate (Z.to_nat 0) (x :: img)) with (@nil byte).
Qed.

Lemma Create_unwritten ev cfg l b name :
  disk_works ev name -> Validate cfg = (cfg, None) -> Append TypeMeta (marshalConfig cfg) (newLog 0 (mkDisk [] [])) = (l, inl b) ->
  Create (ev_path ev) cfg (ev_statErr ev) (ev_view ev) (ev_openIO ev) (ev_disk ev)
    = Some (mkDisk [] [], inl (set_cfg cfg newIndex, l, b)).
Proof.
  intros [Hlog Hio _ _] Hv HA. unfold Create. rewrite Hv, Hio.
  assert (exists img, ev_disk ev = mkDisk img []) as [img Hd] by (destruct Hlog; eauto).
  assert (forall o : option Err, o = None -> (exists_err ← Some o; match exists_err with
    | Some err => Some (ev_disk ev, inr err)
    | None => match Open noIO (ev_disk ev) 0 with
      | (d, inr err) => Some (d, inr err)
      | (d, inl l) => match encodeConfig cfg with
        | inr err => Some (d, inr err)
        | inl meta => match Append TypeMeta meta l with
          | (_, inr err) => Some (d, inr err)
          | (l, inl batch) => Some (d, inl (set_cfg cfg newIndex, l, batch)) end end end
    end) = Some (mkDisk [] [], inl (set_cfg cfg newIndex, l, b))) as Hrest.
  { intros o ->. cbn [mbind option_bind]. rewrite Hd, Open_empty. change (encodeConfig cfg) with (@inl (list byte) Err (marshalConfig cfg)).
    cbv iota. by rewrite HA. }
  destruct Hlog as [err -> _|t p n Hok Hn -> -> _]; [by apply Hrest|].
  destruct (unfinished_replays t p n Hok Hn) as [ending Hr]. rewrite (rt_replay _ _ _ Hr). unfold replay_outcome.
  cbn [records_at deliver]. by destruct (rt_ending _ _ _ Hr) as [[-> _]|[k ->]]; apply Hrest.
Qed.

Lemma createQueue_creates ev r m req cfg :
  decode createQueueFields zeroCreateQueue r = inl req -> Validate (create_cfg req) = (cfg, None) ->
  cq_MaxAttempts req < 2 ^ 32 -> mg_queues m !! c_Name cfg = None -> disk_works ev (cq_Name req) ->
  exists q st, createQueue ev r m = Some (with_queues (<[c_Name cfg := q]> (mg_queues m)) m, Reply (mkResponse StatusCreated (VStats st))) /\
    queue_reachable q /\ ix_cfg (q_ix q) = cfg.
Proof.
  intros Ed Hv Hat Hq Hdw. unfold createQueue. rewrite Ed. fold (create_cfg req).
  unfold Manager_Create. rewrite Hv, Hq. pose proof (Validate_ok cfg (Validate_sound _ _ Hv)) as Hv'.
  destruct (Append TypeMeta (marshalConfig cfg) (newLog 0 (mkDisk [] []))) as [l [b|e]] eqn:HA; [|discriminate HA].
  pose proof (Create_unwritten ev cfg l b _ Hdw Hv' HA) as HC. rewrite HC.
  destruct (dw_await _ _ Hdw _ _ _ HA) as (Hbg & HW & Hnone). cbn [mbind option_bind].
  destruct (created_startQueue req cfg _ _ _ _ _ _ _ _ _ _ (ev_now ev) (decode_create_typed _ _ Ed) Hat Hv HC Hbg HW) as [Hr He].
  destruct (ev_await ev l b) as [l' o]. cbn [fst snd] in *. subst o. cbn [Create_finish].
  assert (ev_byID ev (cq_Name req) ≡ₚ (map_to_list (ix_byID (q_ix (startQueue (ev_path ev) (set_cfg cfg newIndex) l' (ev_now ev))))).*1) as Ho.
  { change (q_ix (startQueue _ _ l' _)) with (set_cfg cfg newIndex). by rewrite (dw_byID _ _ Hdw), He, map_to_list_empty. }
  cbn [mbind option_bind]. destruct (Stats_counts (ev_statsNow ev (cq_Name req)) _ _ Hr Ho) as (st & -> & _). cbn [mbind option_bind].
  by eexists _, st.
Qed.

Lemma createQueue_exists ev r m req cfg q :
  decode createQueueFields zeroCreateQueue r = inl req -> Validate (create_cfg req) = (cfg, None) ->
  mg_queues m !! c_Name cfg = Some q ->
  exists v, createQueue ev r m = Some (m, Reply (mkResponse StatusConflict v)).
Proof.
  intros Ed Hv Hq. unfold createQueue. rewrite Ed. fold (create_cfg req). unfold Manager_Create. rewrite Hv, Hq.
  by eexists.
Qed.

(** A definition the server accepts, and the configuration it becomes. *)
Definition created_config (def : QueueDef) : Config := (Validate (create_cfg (asked_config (configOf def)))).1.
Record def_ok (def : QueueDef) : Prop := {
  df_sendable : sendable_config (configOf def);
  df_name : received (qd_Name def) = qd_Name def;
  df_valid : Validate (create_cfg (asked_config (configOf def))) = (created_config def, None);
  df_config : c_Name (created_config def) = qd_Name def;
}.

Lemma QueueDefs_ok : Forall def_ok QueueDefs.
Proof.
  unfold QueueDefs. repeat (apply Forall_cons; split); try apply Forall_nil_2.
  all: split; [split; vm_compute; repeat split; discriminate|vm_compute; reflexivity..].
Qed.

(** What the server makes of a definition. *)
Definition demo_config (def : QueueDef) : Config :=
  mkConfig (qd_Name def) (qd_Ordering def) (qd_Priority def) 4 4000 (qd_AgingMS def) 8 60000 0.

Lemma QueueDefs_config : Forall (fun def => created_config def = demo_config def) QueueDefs.
Proof. unfold QueueDefs. repeat (apply Forall_cons; split; [vm_compute; reflexivity|]). apply Forall_nil_2. Qed.

(** What the client is told about one queue. *)
Lemma create_asked env text def m :
  def_ok def -> (mg_queues m !! qd_Name def = None -> disk_works (env (CreateQueue (configOf def)) m) (qd_Name def)) ->
  exists m' a, server_http env text (CreateQueue (configOf def)) m = Some (m', a) /\ CreateQueue_result a = None /\
    match mg_queues m !! qd_Name def with
    | Some _ => m' = m
    | None => exists q, m' = with_queues (<[qd_Name def := q]> (mg_queues m)) m /\ queue_reachable q /\ ix_cfg (q_ix q) = created_config def
    end.
Proof.
  intros [Hsend Hrec Hv Hn] Hdw. destruct (understood_CreateQueue _ Hsend) as (r & Er & Hroute & Hdec).
  unfold server_http. rewrite Er. cbn [mbind option_bind]. unfold serve. rewrite Hroute.
  set (req := asked_config (configOf def)) in *.
  assert (cq_Name req = qd_Name def) as Hname by exact Hrec.
  destruct (mg_queues m !! qd_Name def) as [q|] eqn:Hq.
  - rewrite <- Hn in Hq. destruct (createQueue_exists (env (CreateQueue (configOf def)) m) r m req _ q Hdec Hv Hq) as [v ->].
    cbn [mbind option_bind]. eexists _, _. split; [reflexivity|]. split; [|done].
    unfold CreateQueue_result, answerOf, do_. cbn [rs_Status rs_Value].
    replace (if (responseLimit <=? length (text v))%nat then None else None) with (@None Err) by by case_match.
    reflexivity.
  - specialize (Hdw eq_refl). rewrite <- Hname in Hdw. rewrite <- Hn in Hq.
    destruct (createQueue_creates (env (CreateQueue (configOf def)) m) r m req _ Hdec Hv eq_refl Hq Hdw) as (q & st & -> & Hr & Hc).
    cbn [mbind option_bind]. eexists _, _. split; [reflexivity|]. split.
    + unfold CreateQueue_result, answerOf, do_. cbn [rs_Status rs_Value].
      replace (if (responseLimit <=? length (text (VStats st)))%nat then None else None) with (@None Err) by by case_match.
      reflexivity.
    + rewrite Hn. by exists q.
Qed.

Lemma ensure_loop_creates env text defs m :
  Forall def_ok defs -> good m ->
  (forall def m, def ∈ defs -> good m -> mg_queues m !! qd_Name def = None ->
    disk_works (env (CreateQueue (configOf def)) m) (qd_Name def)) ->
  exists m', ensure_loop (server_http env text) defs m = Some (m', None) /\ good m' /\ mg_queues m ⊆ mg_queues m' /\
    (forall def, def ∈ defs -> is_Some (mg_queues m' !! qd_Name def)) /\
    (forall name q, mg_queues m !! name = None -> mg_queues m' !! name = Some q ->
      exists def, def ∈ defs /\ qd_Name def = name /\ ix_cfg (q_ix q) = created_config def).
Proof.
  intros Hdefs. revert m. induction Hdefs as [|def defs Hdef Hdefs IH]; intros m Hg Hd.
  { exists m. split_and!; [done|done|done|by intros ? ?%not_elem_of_nil|congruence]. }
  destruct (create_asked env text def m Hdef (Hd def m ltac:(by left) Hg)) as (m1 & a & E & Ha & Hm1).
  cbn [ensure_loop]. rewrite E. cbn [mbind option_bind]. rewrite Ha.
  assert (good m1 /\ mg_queues m ⊆ mg_queues m1 /\ is_Some (mg_queues m1 !! qd_Name def) /\
    (forall name q, mg_queues m !! name = None -> mg_queues m1 !! name = Some q ->
      qd_Name def = name /\ ix_cfg (q_ix q) = created_config def)) as (Hg1 & Hsub & Hin & Hnew).
  { destruct (mg_queues m !! qd_Name def) as [q|] eqn:Hq.
    - subst m1. split_and!; [done|done|by eexists|congruence].
    - destruct Hm1 as (q & -> & Hr & Hc). cbn [with_queues mg_queues]. split_and!.
      + by apply map_Forall_insert_2.
      + by apply insert_subseteq.
      + rewrite lookup_insert_eq. by eexists.
      + intros name q' Hn. destruct (decide (qd_Name def = name)) as [<-|Hne]; [|rewrite lookup_insert_ne by done; congruence].
        rewrite lookup_insert_eq. intros [= <-]. done. }
  destruct (IH m1 Hg1) as (m' & -> & Hg' & Hsub' & Hall & Hnew'); [intros; apply Hd; [by right|done..]|].
  exists m'. split_and!; [done|done|by etrans| |].
  - intros def' [->|Hin']%elem_of_cons; [|by apply Hall]. destruct Hin as [q Hq]. exists q. by eapply lookup_weaken.
  - intros name q Hn Hq. destruct (mg_queues m1 !! name) as [q1|] eqn:Hq1.
    + destruct (Hnew name q1 Hn Hq1) as [Hname Hc]. exists def. split; [by left|]. split; [done|].
      by rewrite (lookup_weaken _ _ _ _ Hq1 Hsub') in Hq; injection Hq as <-.
    + destruct (Hnew' name q Hq1 Hq) as (def' & Hin' & ? & ?). exists def'. split; [by right|done].
Qed.

(** Once they are there, asking again changes nothing. *)
Lemma ensure_loop_again env text defs m :
  Forall def_ok defs -> (forall def, def ∈ defs -> is_Some (mg_queues m !! qd_Name def)) ->
  ensure_loop (server_http env text) defs m = Some (m, None).
Proof.
  intros Hdefs. induction Hdefs as [|def defs Hdef Hdefs IH]; intros Hin; [done|].
  destruct (Hin def ltac:(by left)) as [q Hq].
  destruct (create_asked env text def m Hdef) as (m1 & a & E & Ha & Hm1); [congruence|]. rewrite Hq in Hm1. subst m1.
  cbn [ensure_loop]. rewrite E. cbn [mbind option_bind]. rewrite Ha.
  apply IH. intros. apply Hin. by right.
Qed.

(** C23: [EnsureQueues] does what it is for, end to end through the client's JSON, the server's routes and handlers and the queue engine. Asked of any server whose queues are reachable, on a disk that works, where under each name that is not open there is no log or what a creation that was cut short has left of one: it succeeds; afterwards all five queues of the demo exist and are reachable; every queue that was there before, one with a demo name but another configuration included, is as it was; each new one has exactly the configuration its definition stands for; and asking again, on a disk that works or not, succeeds without changing anything. *)
Theorem EnsureQueues_creates env text m :
  good m ->
  (forall def m, def ∈ QueueDefs -> good m -> mg_queues m !! qd_Name def = None ->
    disk_works (env (CreateQueue (configOf def)) m) (qd_Name def)) ->
  exists m', EnsureQueues (server_http env text) m = Some (m', None) /\ good m' /\ mg_queues m ⊆ mg_queues m' /\
    (forall def, def ∈ QueueDefs -> is_Some (mg_queues m' !! qd_Name def)) /\
    (forall name q, mg_queues m !! name = None -> mg_queues m' !! name = Some q ->
      exists def, def ∈ QueueDefs /\ qd_Name def = name /\ ix_cfg (q_ix q) = demo_config def) /\
    forall env' text', EnsureQueues (server_http env' text') m' = Some (m', None).
Proof.
  intros Hg Hd. destruct (ensure_loop_creates env text QueueDefs m QueueDefs_ok Hg Hd) as (m' & E & Hg' & Hsub & Hall & Hnew).
  exists m'. split_and!; [done..| |].
  - intros name q Hn Hq. destruct (Hnew name q Hn Hq) as (def & Hin & Hname & ->). exists def. split_and!; [done..|].
    exact (proj1 (Forall_forall _ _) QueueDefs_config def Hin).
  - intros env' text'. apply ensure_loop_again; [apply QueueDefs_ok|done].
Qed.

(** ** Witness *)

(** A new log whose one record a turn of the flusher has written. *)
Lemma ex_flush_first t p l b :
  Append t p (newLog 0 (mkDisk [] [])) = (l, inl b) -> lg_nextSeq l = 1 /\ Wait b (ex_flush l) = Some None.
Proof.
  unfold Append. cbn [newLog lg_fatal lg_closed lg_nextSeq lg_buf lg_pending lg_hist app].
  assert (exists x rest, Encode [] t p = x :: rest) as (x & rest & ->) by (unfold Encode, encodeHeader; cbn; by eexists _, _).
  intros [= <- <-]. done.
Qed.

Lemma ex_disk_works name : disk_works (ex_env [] []) name.
Proof.
  split; [by eapply uw_noLog|done| |done]. intros meta l b HA. destruct (ex_flush_first _ _ _ _ HA) as [Hn HW].
  cbn [ex_env ev_await fst snd]. split; [apply ex_flush_background; lia|done].
Qed.

(** The disk of a server that was killed while it created its queues. *)
Definition ex_left : list byte := take 20 (Encode [] TypeMeta (repeat x7b 40)).
Definition ex_env_left : Env :=
  mkEnv (ex_t0 + 1) (fun _ => ex_t0) (ex_id 1) [] (fun _ => []) [] ex_path None
    (OpenOk (plainFile ex_left)) noIO (mkDisk ex_left []) (fun l _ => (ex_flush l, None)) None noCompactIO.

Lemma ex_left_works name : disk_works ex_env_left name.
Proof.
  split; [|done| |done].
  - apply (uw_unfinished _ TypeMeta (repeat x7b 40) 20); [split; [done|vm_compute; congruence]|vm_compute; lia|done..].
  - intros meta l b HA. destruct (ex_flush_first _ _ _ _ HA) as [Hn HW].
    cbn [ex_env_left ev_await fst snd]. split; [apply ex_flush_background; lia|done].
Qed.

(** A new server gets its queues, on a new disk and on that one. *)
Lemma EnsureQueues_creates_witness :
  (exists m, EnsureQueues (server_http (fun _ _ => ex_env [] []) (fun _ => [])) (mkManager "data" ∅) = Some (m, None) /\ good m /\
    (forall def, def ∈ QueueDefs -> is_Some (mg_queues m !! qd_Name def))) /\
  exists m, EnsureQueues (server_http (fun _ _ => ex_env_left) (fun _ => [])) (mkManager "data" ∅) = Some (m, None) /\ good m.
Proof.
  split.
  - destruct (EnsureQueues_creates (fun _ _ => ex_env [] []) (fun _ => []) (mkManager "data" ∅) (map_Forall_empty _)
      (fun def _ _ _ _ => ex_disk_works (qd_Name def))) as (m & E & Hg & _ & Hall & _).
    exists m. split; [exact E|]. split; [exact Hg|exact Hall].
  - destruct (EnsureQueues_creates (fun _ _ => ex_env_left) (fun _ => []) (mkManager "data" ∅) (map_Forall_empty _)
      (fun def _ _ _ _ => ex_left_works (qd_Name def))) as (m & E & Hg & _).
    exists m. split; [exact E|exact Hg].
Defined.
