(* ===== verification/DashboardSafe.v ===== *)
(** * What the dashboard's controls can and cannot do

    However the critical sections of requests, workers and the process interleave, the
    pool and the panes stay bounded; every control answers; and a request that no
    other section comes between changes files only in the lab, and only there while
    the server is known to be down. *)

From Stdlib Require Import ZArith Lia Floats.SpecFloat.
From stdpp Require Import relations fin_map_dom.
From S2P Require Import Prelude GoInt Errors WalRecord Replay ReplayProps Message Index Load Json Inspect Manager Main MainProps.
From S2P Require Import Request Server Report Lab Client Runner RunnerProps Dashboard.

Implicit Types (d : Dashboard) (s : Supervisor) (i : DashIn) (fs : gmap string (list byte)) (w : ringWriter).

(** ** [verify] always prints a report *)

(** An error of a system call, and the entries of a directory whose errors are. *)
Definition printed (e : Err) : Prop := is_Some (ReplayError_Error e).
Definition view_printed (v : Opened) : Prop :=
  match v with
  | NotExist => True
  | OpenErr e => printed e
  | OpenOk f => (forall e, f_stat_err f = Some e -> printed e) /\ forall off e, f_read_err f off = Some e -> printed e
  end.
Definition dir_printed (rd : list DirEntry + Err) : Prop :=
  match rd with inr e => printed e | inl es => Forall (fun e => view_printed (de_view e)) es end.

Lemma replay_loop_printed path f fuel off records counts res err counts' :
  view_printed (OpenOk f) ->
  replay_loop path verify_fn f fuel off records counts = Some (res, Some err, counts') -> printed err.
Proof.
  intros [_ Hread]. revert off records counts. induction fuel as [|fuel IH]; intros off records counts; [done|].
  assert (forall off n e, ReadFull f off n = inr e -> printed e) as HR.
  { intros o n e. unfold ReadFull. destruct (f_read_err f o) eqn:E; [|done]. intros [= <-]. by eapply Hread. }
  cbn [replay_loop]. cbv zeta. repeat case_match; intros; simplify_eq; try (by eexists); try by eapply IH.
  all: match goal with H : ReadFull _ _ _ = inr _ |- _ => apply HR in H as [t Ht] end.
  all: unfold printed; cbn [ReplayError_Error]; rewrite Ht; by eexists.
Qed.

Lemma Replay_printed path v res err counts :
  view_printed v -> Replay path verify_fn v (fun _ => 0) = Some (res, Some err, counts) -> printed err.
Proof.
  destruct v as [|e|f]; cbn [Replay]; [done|by intros He [= <- <- <-]|]. intros Hf.
  destruct (f_stat_err f) as [e|] eqn:Es; [intros [= <- <- <-]; by apply Hf|by apply replay_loop_printed].
Qed.

Lemma verify_loop_printed es found bad :
  Forall (fun e => view_printed (de_view e)) es ->
  exists lines f b, verify_loop es found bad = Some (lines, f, b) /\ is_Some (mapM lineText lines).
Proof.
  intros Hes. revert found bad. induction Hes as [|e es He _ IH]; intros found bad; [by eexists [], _, _|].
  cbn [verify_loop]. destruct (negb (de_IsDir e)); [apply IH|]. destruct (negb _); [apply IH|].
  destruct (Replay_total (de_path e) verify_fn (de_view e) (fun _ => 0)) as [[[res err] counts] HR]. rewrite HR.
  cbn [mbind option_bind]. destruct err as [err|].
  - destruct (IH (found + 1) (bad + 1)) as (ls & f & b & -> & ts & Hts). eexists _, _, _. split; [reflexivity|].
    destruct (Replay_printed _ _ _ _ _ He HR) as [t Ht]. cbn [mapM lineText]. rewrite Ht, Hts. by eexists.
  - destruct (IH (found + 1) bad) as (ls & f & b & -> & ts & Hts). eexists _, _, _. split; [reflexivity|].
    cbn [mapM lineText]. rewrite Hts. by eexists.
Qed.

Lemma Supervisor_Verify_total err rd s : dir_printed rd -> is_Some (Supervisor_Verify err rd s).
Proof.
  intros Hd. unfold Supervisor_Verify, verifyReport, runVerify. destruct err; [by eexists|]. destruct rd as [es|e].
  - destruct (verify_loop_printed es 0 0 Hd) as (ls & f & b & -> & ts & Hts). cbn [mbind option_bind]. rewrite Hts. by eexists.
  - destruct Hd as [t Ht]. cbn [mbind option_bind]. rewrite Ht. by eexists.
Qed.

(** ** The panes *)

(** At most [rw_max] lines, none of them empty, and no line end in the last part. *)
Record ring_ok w : Prop := {
  rg_size : Z.of_nat (length (rw_buf w)) <= rw_max w;
  rg_lines : Forall (fun l => l <> []) (rw_buf w);
  rg_part : x0a ∉ rw_part w;
}.

Lemma appendLocked_ok line w : 0 <= rw_max w -> ring_ok w -> ring_ok (appendLocked line w) /\ rw_max (appendLocked line w) = rw_max w.
Proof.
  intros H0 [Hs Hl Hp]. unfold appendLocked. case_bool_decide as Hne; [done|]. cbv zeta.
  assert (Forall (fun l => l <> []) (rw_buf w ++ [line])) as Hall by (apply Forall_app; split; [done|by apply Forall_singleton]).
  split; [|done]. split; cbn [rw_buf rw_max rw_part]; [|by case_match; [apply Forall_drop|]|done].
  destruct (Z.gtb_spec (Z.of_nat (length (rw_buf w ++ [line]))) (rw_max w)); [|lia]. rewrite length_drop. lia.
Qed.

Lemma ReadString_spec b :
  match ReadString b with
  | (line, None) => line = b /\ x0a ∉ b
  | (line, Some rest) => b = line ++ rest /\ line <> []
  end.
Proof.
  induction b as [|x b IH]; cbn [ReadString]; [split; [done|apply not_elem_of_nil]|].
  case_bool_decide as Hx; [done|]. destruct (ReadString b) as [line [rest|]].
  - by destruct IH as [-> _].
  - destruct IH as [-> Hn]. split; [done|]. intros [E|?]%elem_of_cons; congruence.
Qed.

(** [Write] ends, and keeps the pane bounded. *)
Lemma write_loop_ok fuel w :
  (length (rw_part w) < fuel)%nat -> 0 <= rw_max w -> Z.of_nat (length (rw_buf w)) <= rw_max w -> Forall (fun l => l <> []) (rw_buf w) ->
  exists w', write_loop fuel w = Some w' /\ ring_ok w' /\ rw_max w' = rw_max w.
Proof.
  revert w. induction fuel as [|fuel IH]; intros w Hf H0 Hs Hl; [lia|]. cbn [write_loop].
  pose proof (ReadString_spec (rw_part w)) as HR. destruct (ReadString (rw_part w)) as [line [rest|]].
  - destruct HR as [Hpart Hne]. rewrite Hpart, length_app in Hf. destruct line as [|c line]; [done|]. cbn [length] in Hf.
    set (w1 := appendLocked (TrimRight (c :: line)) (set_part rest w)).
    destruct (appendLocked_ok (TrimRight (c :: line)) (set_part [] w)) as [[H1 H2 _] H3]; [done|split; [done..|apply not_elem_of_nil]|].
    assert (rw_buf w1 = rw_buf (appendLocked (TrimRight (c :: line)) (set_part [] w)) /\ rw_max w1 = rw_max w /\ rw_part w1 = rest)
      as (Eb & Em & Ep) by (unfold w1, appendLocked; by case_bool_decide).
    destruct (IH w1) as (w' & -> & Hw & Hm); [rewrite Ep; lia|lia|rewrite Eb, Em; rewrite H3 in H1; exact H1|by rewrite Eb|].
    exists w'. split_and!; [done|done|congruence].
  - destruct HR as [-> Hn]. by eexists.
Qed.

Lemma ring_Write_ok p w : 0 <= rw_max w -> ring_ok w -> exists w', ring_Write p w = Some w' /\ ring_ok w' /\ rw_max w' = rw_max w.
Proof.
  intros H0 [Hs Hl _]. unfold ring_Write. apply (write_loop_ok _ (set_part (rw_part w ++ p) w)); cbn; [lia|done..].
Qed.

(** ** The supervisor *)

Record sup_ok s : Prop := {
  su_max : rw_max (sp_logs s) = 300;
  su_pane : ring_ok (sp_logs s);
  su_cmd : sp_running s = true -> sp_cmd s = true;
}.

(** The same server: its program, directory and address. *)
Definition same_server s s' : Prop := sp_bin s' = sp_bin s /\ sp_dir s' = sp_dir s /\ sp_addr s' = sp_addr s.

(** What an operation of the supervisor keeps. *)
Definition keeps s s' : Prop := same_server s s' /\ (sup_ok s -> sup_ok s').

Lemma keeps_refl s : keeps s s.
Proof. split; [by split_and!|done]. Qed.

Lemma keeps_trans s1 s2 s3 : keeps s1 s2 -> keeps s2 s3 -> keeps s1 s3.
Proof. intros [(? & ? & ?) Hk1] [(? & ? & ?) Hk2]. split; [split_and!; congruence|auto]. Qed.

Lemma logLine_keeps line s : keeps s (logLine line s).
Proof.
  split; [done|]. intros [Hm Hp Hc]. destruct (appendLocked_ok line (sp_logs s)) as [H1 H2]; [lia|done|].
  split; cbn [logLine set_logs sp_logs sp_running sp_cmd]; [unfold ring_add; congruence|done|done].
Qed.

Lemma processExited_keeps err s : keeps s (processExited err s).
Proof. split; [done|]. by intros [Hm Hp Hc]. Qed.

Lemma Kill_keeps dies s : keeps s (Kill dies s).
Proof.
  unfold Kill. destruct (negb (sp_cmd s)); [apply keeps_refl|]. cbv zeta. case_match; [|apply logLine_keeps].
  eapply keeps_trans; [apply logLine_keeps|apply processExited_keeps].
Qed.

Lemma stop_keeps i s : keeps s (stop i s).
Proof. unfold stop. case_match; [apply Kill_keeps|apply keeps_refl]. Qed.

(** A process that is seen to die is down. *)
Lemma stop_stops i s : sup_ok s -> di_dies i = true -> sp_running (stop i s) = false.
Proof.
  intros [_ _ Hc] Hd. unfold stop. destruct (sp_running s) eqn:Hr; [|done]. unfold Kill. rewrite (Hc eq_refl), Hd.
  cbn [negb andb logLine set_logs sp_running]. by rewrite Hr.
Qed.

Lemma start_loop_keeps polls dies s : keeps s (start_loop polls dies s).1.
Proof.
  revert s. induction polls as [|[err| |[err|]] polls IH]; intros s; cbn [start_loop fst].
  - apply Kill_keeps.
  - apply processExited_keeps.
  - apply IH.
  - apply processExited_keeps.
  - apply keeps_refl.
Qed.

(** A start always comes back, and is only reported if the server runs. *)
Lemma start_keeps i s :
  sup_ok s -> exists s' res, start i s = Some (s', res) /\ keeps s s' /\ (startedOk res = true -> sp_running s' = true).
Proof.
  intros Hok. unfold start, Supervisor_Start. destruct (sp_running s) eqn:Hr; [by exists s, AlreadyRunning|].
  destruct (logLine_keeps (si_banner (di_start i)) s) as [Hsame Hk]. specialize (Hk Hok).
  set (s1 := logLine _ s) in *. destruct (si_execErr _); [by exists s1, (StartFailed e)|]. destruct Hk as [Hm Hp Hc].
  destruct (ring_Write_ok (si_output (di_start i)) (sp_logs s1)) as (w & -> & Hw & Hwm); [lia|done|]. cbn [mbind option_bind].
  set (s2 := set_logs w _). assert (keeps s s2) as Hk2 by (split; [exact Hsame|]; intros _; split; [exact (eq_trans Hwm Hm)|done|done]).
  pose proof (start_loop_keeps (si_polls (di_start i)) (si_dies (di_start i)) s2) as Hl.
  assert (startedOk (start_loop (si_polls (di_start i)) (si_dies (di_start i)) s2).2 = true ->
    sp_running (start_loop (si_polls (di_start i)) (si_dies (di_start i)) s2).1 = true) as Hst.
  { assert (sp_running s2 = true) as H2 by done. clearbody s2. clear -H2.
    induction (si_polls (di_start i)) as [|[err| |[err|]] polls IH]; cbn [start_loop snd fst startedOk]; done. }
  destruct (start_loop _ _ s2) as [s' res]. exists s', res. split_and!; [done|by eapply keeps_trans|done].
Qed.

(** ** The dashboard *)

Record dash_ok d : Prop := {
  da_runner : runner_ok (db_runner d);
  da_managed : if db_managed d then is_Some (db_sup d) else db_sup d = None;
  da_sup s : db_sup d = Some s -> sup_ok s;
  da_events : (length (db_events d) <= eventsMax)%nat;
}.

(** A response. *)
Definition status_ok (w : Written) : Prop := let '(writeJSON st _) := w in st = StatusOK \/ st = StatusBadRequest \/ st = StatusBadGateway.

(** The file of a queue's log, or the backup that [repair] makes of it. *)
Definition lab_file i fs s (f : string) : Prop :=
  exists queue, f = logPath queue s \/ f = backupName (logPath queue s) (di_repairNow i) /\ fs !! f = None.

(** What an answer to a request may have done: [cfg] and [lab] say whether it may
    change the runner's configuration, and files. *)
Record effect (cfg lab : bool) i d fs d' fs' (ws : list Written) : Prop := {
  ef_ok : dash_ok d';
  ef_managed : db_managed d' = db_managed d;
  ef_server : if db_managed d then exists s s', db_sup d = Some s /\ db_sup d' = Some s' /\ same_server s s' else db_sup d' = None /\ fs' = fs;
  ef_config : cfg = true \/ Runner_Config (db_runner d') = Runner_Config (db_runner d);
  ef_pool : cfg = true \/ rn_workers (db_runner d') = rn_workers (db_runner d) /\ rn_stops (db_runner d') = rn_stops (db_runner d);
  ef_files f : fs' !! f <> fs !! f ->
    lab = true /\ exists s, db_sup d = Some s /\ sp_running (stop i s) = false /\ lab_file i fs s f;
  ef_written : ws <> [] /\ Forall status_ok ws;
}.

Lemma addEvent_bound ev l : (length l <= eventsMax)%nat -> (length (addEvent ev l) <= eventsMax)%nat.
Proof.
  intros H. unfold addEvent. cbv zeta. destruct (Nat.ltb_spec eventsMax (length (l ++ [ev]))); [|done]. rewrite length_drop. lia.
Qed.

Lemma note_ok ev d : dash_ok d -> dash_ok (note ev d).
Proof. intros [? ? ? ?]. split; cbn; [done..|by apply addEvent_bound]. Qed.

Lemma with_runner_ok r d : dash_ok d -> runner_ok r -> dash_ok (with_runner r d).
Proof. by intros [? ? ? ?] ?. Qed.

Lemma with_sup_ok s s' d : dash_ok d -> db_sup d = Some s -> keeps s s' -> dash_ok (with_sup s' d).
Proof.
  intros [? Hm Hs ?] E [_ Hk]. split; cbn; [done| |intros ? [= <-]; by apply Hk, Hs|done].
  rewrite E in Hm. by destruct (db_managed d).
Qed.

(** Answers that only look, or fail. *)
Lemma effect_looks cfg lab i d fs ws : dash_ok d -> ws <> [] -> Forall status_ok ws -> effect cfg lab i d fs d fs ws.
Proof.
  intros Hd Hne Hw. split; try done; [|by right|by right]. pose proof (da_managed _ Hd) as Hm.
  destruct (db_managed d); [|done]. destruct Hm as [s Hs]. exists s, s. by split_and!.
Qed.

Lemma effect_note cfg lab i d fs d' fs' ws ev : effect cfg lab i d fs d' fs' ws -> effect cfg lab i d fs (note ev d') fs' ws.
Proof. intros [H1 H2 H3 H4 H5 H6 H7]. split; try done. by apply note_ok. Qed.

Lemma effect_counts cfg lab i d fs ws n f a t r :
  dash_ok d -> r = set_tally n f a t (rn_recent (db_runner d)) (db_runner d) -> ws <> [] -> Forall status_ok ws ->
  effect cfg lab i d fs (with_runner r d) fs ws.
Proof.
  intros Hd -> Hne Hw. destruct (effect_looks cfg lab i d fs ws Hd Hne Hw) as [H1 H2 H3 H4 H5 H6 H7].
  split; try done. apply with_runner_ok; [done|]. apply set_tally_ok; apply Hd.
Qed.

(** What the supervisor did, with the files. *)
Lemma effect_sup cfg lab i d fs s s' fs' ws :
  dash_ok d -> db_managed d = true -> db_sup d = Some s -> keeps s s' -> ws <> [] -> Forall status_ok ws ->
  (forall f, fs' !! f <> fs !! f -> lab = true /\ sp_running (stop i s) = false /\ lab_file i fs s f) ->
  effect cfg lab i d fs (with_sup s' d) fs' ws.
Proof.
  intros Hd Hm Hs Hk Hne Hw Hf. split; try done; [by eapply with_sup_ok| |by right|by right|].
  - rewrite Hm. exists s, s'. split_and!; [done|done|apply Hk].
  - intros f Hne'. destruct (Hf f Hne') as (? & ? & ?). split; [done|]. by exists s.
Qed.

Ltac written := repeat first [done | apply Forall_cons; split | apply Forall_nil_2 | apply Forall_app; split]; unfold status_ok; cbn; tauto.

(** ** The controls *)

Lemma readJSON_status {S} fields r (z z' : S) x : readJSON fields r z = (z', Some x) -> status_ok x.
Proof.
  unfold readJSON. cbv zeta. destruct (dq_ContentLength r =? 0); [done|].
  destruct (DecodeFrom _ _ _ _ _) as [s' [[|]|]]; intros [= _ <-]; by right; left.
Qed.

Lemma snapshotHandler_effect i r fs d :
  dash_ok d -> exists d' fs' ws, snapshotHandler i r fs d = Some (d', fs', ws) /\ effect false false i d fs d' fs' ws.
Proof.
  intros Hd. unfold snapshotHandler, snapshot. pose proof (da_managed _ Hd) as Hm.
  assert (exists b, (if db_managed d then s ← db_sup d; Some (sp_running s) else Some true) = Some b) as [b ->]
    by (destruct (db_managed d); [destruct Hm as [s ->]|]; by eexists).
  assert (exists l, (if db_managed d then s ← db_sup d; Some (ring_lines (sp_logs s)) else Some []) = Some l) as [l ->]
    by (destruct (db_managed d); [destruct Hm as [s ->]|]; by eexists).
  cbn [mbind option_bind]. destruct (negb b); cbn [mbind option_bind]; eexists _, _, _; (split; [reflexivity|]);
    apply effect_looks; (done || written).
Qed.

Lemma submit_effect i r fs d :
  dash_ok d -> exists d' fs' ws, submit i r fs d = Some (d', fs', ws) /\ effect false false i d fs d' fs' ws.
Proof.
  intros Hd. unfold submit. destruct (readJSON _ _ _) as [req [w|]] eqn:ER.
  { eexists _, _, _. split; [reflexivity|]. apply effect_looks; [done..|]. apply Forall_singleton. by eapply readJSON_status. }
  cbv zeta. set (queue := if bool_decide _ then _ else _).
  destruct (Submit_tally queue (sq_Count req) (sq_Priority req) (sq_DelayMS req) (sq_DedupID req) (di_rnd i) (di_enqueue i) (db_runner d))
    as (dn & f & a & s & Hr).
  destruct (Submit _ _ _ _ _ _ _ _) as [r' [res [err|]]]; cbn [fst] in Hr.
  { eexists _, _, _. split; [reflexivity|]. by eapply effect_counts; [..|written]. }
  assert (forall ev ws, ws <> [] -> Forall status_ok ws -> effect false false i d fs (note ev (with_runner r' d)) fs ws) as He
    by (intros; by eapply effect_note, effect_counts).
  destruct (Z.gtb_spec (Z.of_nat (length (filter (fun x => sb_Duplicate x = true) res))) 0) as [Hg|_].
  - destruct res as [|x res]; [cbn in Hg; lia|]. cbn [head mbind option_bind]. eexists _, _, _. split; [reflexivity|].
    apply He; (done || written).
  - case_match; cbn [mbind option_bind]; eexists _, _, _; (split; [reflexivity|]); apply He; (done || written).
Qed.

Lemma config_effect i r fs d :
  dash_ok d -> exists d' fs' ws, config i r fs d = Some (d', fs', ws) /\ effect true false i d fs d' fs' ws.
Proof.
  intros Hd. unfold config. destruct (readJSON _ _ _) as [req [w|]] eqn:ER.
  { eexists _, _, _. split; [reflexivity|]. apply effect_looks; [done..|]. apply Forall_singleton. by eapply readJSON_status. }
  cbv zeta. destruct (Update_total (gq_Target req) (gq_Workers req) (gq_FailureRate req) (gq_AbandonRate req) (gq_VisibilityMS req)
    (db_runner d) (da_runner _ Hd)) as (r' & -> & Hr). cbn [mbind option_bind]. set (ws := [writeJSON _ _]).
  assert (ws <> [] /\ Forall status_ok ws) as [Hne Hw] by (split; [done|unfold ws; written]).
  assert (forall d1, effect true false i d fs d1 fs ws -> effect true false i d fs (with_runner r' d1) fs ws) as He.
  { intros d1 [H1 H2 H3 H4 H5 H6 H7]. split; try done; [by apply with_runner_ok|by left|by left]. }
  eexists _, _, _. split; [reflexivity|]. apply He. case_match; [|apply effect_note]; by apply effect_looks.
Qed.

Lemma burst_effect i r fs d :
  dash_ok d -> exists d' fs' ws, burst i r fs d = Some (d', fs', ws) /\ effect false false i d fs d' fs' ws.
Proof.
  intros Hd. unfold burst. destruct (readJSON _ _ _) as [[count concurrency] [w|]] eqn:ER.
  { eexists _, _, _. split; [reflexivity|]. apply effect_looks; [done..|]. apply Forall_singleton. by eapply readJSON_status. }
  cbv zeta. destruct (Burst_tally (Target (db_runner d)) count (di_rnd i) (di_order i) (di_enqueue i) (db_runner d)) as (dn & f & a & s & Hr).
  destruct (Burst _ _ _ _ _ _) as [r' [n err]]; cbn [fst] in Hr. eexists _, _, _. split; [reflexivity|].
  eapply effect_note, effect_counts; (done || written).
Qed.

Lemma compactHandler_effect i r fs d :
  dash_ok d -> exists d' fs' ws, compactHandler i r fs d = Some (d', fs', ws) /\ effect false false i d fs d' fs' ws.
Proof.
  intros Hd. unfold compactHandler. cbv zeta. destruct (Compact_result _) as [[before after] [err|]];
    eexists _, _, _; (split; [reflexivity|]); [|apply effect_note]; apply effect_looks; (done || written).
Qed.

(** An attached dashboard refuses; a managed one has its supervisor. *)
Lemma managed_cases d : dash_ok d -> db_managed d = false \/ db_managed d = true /\ exists s, db_sup d = Some s /\ sup_ok s.
Proof.
  intros Hd. pose proof (da_managed _ Hd) as Hm. destruct (db_managed d); [right|by left]. destruct Hm as [s Hs].
  split; [done|]. exists s. split; [done|by apply Hd].
Qed.

Ltac refused Hm := eexists _, _, _; split; [reflexivity|]; apply effect_looks; [done|done|written].

Lemma killServer_effect i r fs d :
  dash_ok d -> exists d' fs' ws, killServer i r fs d = Some (d', fs', ws) /\ effect false false i d fs d' fs' ws.
Proof.
  intros Hd. unfold killServer. destruct (managed_cases d Hd) as [-> |(Hm & s & Hs & _)]; [by refused Hm|].
  rewrite Hm. cbn [negb]. cbv zeta. rewrite Hs. cbn [mbind option_bind]. eexists _, _, _. split; [reflexivity|].
  apply effect_note. apply (effect_sup _ _ _ _ _ s); [done..|apply Kill_keeps|done|written|done].
Qed.

Lemma startServer_effect i r fs d :
  dash_ok d -> exists d' fs' ws, startServer i r fs d = Some (d', fs', ws) /\ effect false false i d fs d' fs' ws.
Proof.
  intros Hd. unfold startServer. destruct (managed_cases d Hd) as [-> |(Hm & s & Hs & Hok)]; [by refused Hm|].
  rewrite Hm, Hs. cbn [negb mbind option_bind]. destruct (start_keeps i s Hok) as (s' & res & -> & Hk & _).
  cbn [mbind option_bind]. cbv zeta.
  assert (forall ws, ws <> [] -> Forall status_ok ws -> effect false false i d fs (with_sup s' d) fs ws) as He
    by (intros; by apply (effect_sup _ _ _ _ _ s)).
  destruct (negb (startedOk res)); [|destruct (ensured i) as [[queue err]|]]; eexists _, _, _; (split; [reflexivity|]);
    try apply effect_note; apply He; (done || written).
Qed.

Lemma damage_files i mode queue fs s fs' res f :
  damage i mode queue fs s = (fs', res) -> fs' !! f <> fs !! f -> sp_running s = false /\ f = logPath queue s.
Proof.
  assert (forall data, (<[logPath queue s := data]> fs : gmap _ _) !! f <> fs !! f -> f = logPath queue s) as Hin.
  { intros data Hne. destruct (decide (f = logPath queue s)) as [|Hf]; [done|]. by rewrite lookup_insert_ne in Hne. }
  unfold damage, TruncateTailMidRecord, FlipByteMidLog. destruct (sp_running s); [by case_match; intros [= <- <-]|].
  cbv zeta. intros E Hne. split; [done|]. repeat case_match; simplify_eq; try done; by eapply Hin.
Qed.

Lemma stop_path i s queue : logPath queue (stop i s) = logPath queue s.
Proof. unfold logPath. destruct (stop_keeps i s) as [(_ & -> & _) _]. done. Qed.

Lemma corrupt_effect i r fs d :
  dash_ok d -> dir_printed (di_readDir i) ->
  exists d' fs' ws, corrupt i r fs d = Some (d', fs', ws) /\ effect false true i d fs d' fs' ws.
Proof.
  intros Hd Hpr. unfold corrupt. destruct (managed_cases d Hd) as [-> |(Hm & s & Hs & Hok)]; [by refused Hm|].
  rewrite Hm, Hs. cbn [negb mbind option_bind]. destruct (readJSON _ _ _) as [[mode queue] [x|]] eqn:ER.
  { eexists _, _, _. split; [reflexivity|]. apply effect_looks; [done..|]. apply Forall_singleton. by eapply readJSON_status. }
  cbv zeta. set (queue' := if bool_decide (queue = "") then _ else _). set (mode' := if bool_decide _ then _ else _).
  pose proof (stop_keeps i s) as Hstop. set (s1 := stop i s) in *. destruct (damage i mode' queue' fs s1) as [fs1 res] eqn:ED.
  assert (forall f, fs1 !! f <> fs !! f -> true = true /\ sp_running s1 = false /\ lab_file i fs s f) as Hf.
  { intros f Hne. destruct (damage_files _ _ _ _ _ _ _ _ ED Hne) as [Hr ->]. split_and!; [done|done|].
    exists queue'. left. apply stop_path. }
  destruct res as [what|err].
  2: { eexists _, _, _. split; [reflexivity|]. by apply (effect_sup _ _ _ _ _ s); [..|written|]. }
  destruct (Supervisor_Verify_total (di_verifyErr i) (di_readDir i) s1 Hpr) as [[verify code] ->]. cbn [mbind option_bind].
  destruct (start_keeps i s1) as (s2 & r2 & -> & Hk & _); [by apply Hstop|]. cbn [mbind option_bind].
  eexists _, _, _. split; [reflexivity|]. apply effect_note.
  assert (effect false true i d fs (with_sup s2 d) fs1 [writeJSON StatusOK (PObject [])]) as He
    by (apply (effect_sup _ _ _ _ _ s); [done..|by eapply keeps_trans|done|written|done]).
  destruct He as [H1 H2 H3 H4 H5 H6 H7]. split; try done; [|by split; [|written]].
  by apply (note_ok (EvLab what)) in H1.
Qed.

Lemma Supervisor_Repair_total queue verifyErr repairErr rd now io fs s :
  dir_printed rd -> exists fs' s' res, Supervisor_Repair queue verifyErr repairErr rd now io fs s = Some (fs', s', res) /\ keeps s s' /\
    forall f, fs' !! f <> fs !! f -> sp_running s = false /\ (f = logPath queue s \/ f = backupName (logPath queue s) now /\ fs !! f = None).
Proof.
  intros Hpr. unfold Supervisor_Repair.
  assert (forall res : RepairResult, exists fs' s' (res' : RepairResult), Some (fs, s, res) = Some (fs', s', res') /\ keeps s s' /\
    forall f, fs' !! f <> fs !! f -> sp_running s = false /\ (f = logPath queue s \/ f = backupName (logPath queue s) now /\ fs !! f = None)) as Hno
    by (intros res; exists fs, s, res; split_and!; [done|apply keeps_refl|done]).
  destruct (sp_running s) eqn:Hrun; [apply Hno|].
  destruct (Supervisor_Verify_total verifyErr rd s Hpr) as [[report code] ->]. cbn [mbind option_bind].
  destruct (code =? 0); [apply Hno|]. destruct (parseOffset report) as [off|]; [|apply Hno]. destruct repairErr as [err|]; [apply Hno|].
  cbv zeta. destruct (runRepair _ _ _ _ _ _) as [fs' c] eqn:ER. destruct (repair_cases _ _ _ _ _ _ _ _ ER) as [Hsame _].
  assert (forall f, fs' !! f <> fs !! f -> false = false /\ (f = logPath queue s \/ f = backupName (logPath queue s) now /\ fs !! f = None)) as Hf.
  { intros f Hne. split; [done|]. destruct (decide (f = logPath queue s)) as [|Hp]; [by left|right].
    destruct (decide (f = backupName (logPath queue s) now)) as [Hb|Hb]; [|destruct Hne; apply Hsame; by (done || left)].
    split; [done|]. destruct (fs !! f) eqn:E; [|done]. destruct Hne. rewrite Hsame; [done|done|right; congruence]. }
  destruct (c =? 0); eexists _, _, _; (split; [reflexivity|]); (split; [|exact Hf]); [apply logLine_keeps|apply keeps_refl].
Qed.

Lemma repair_effect i r fs d :
  dash_ok d -> dir_printed (di_readDir i) ->
  exists d' fs' ws, repair i r fs d = Some (d', fs', ws) /\ effect false true i d fs d' fs' ws.
Proof.
  intros Hd Hpr. unfold repair. destruct (managed_cases d Hd) as [-> |(Hm & s & Hs & Hok)]; [by refused Hm|].
  rewrite Hm, Hs. cbn [negb mbind option_bind]. destruct (readJSON _ _ _) as [queue x] eqn:ER. cbv zeta.
  assert (Forall status_ok (match x with Some x => [x] | None => [] end)) as Hx
    by (destruct x; [apply Forall_singleton; by eapply readJSON_status|done]).
  set (queue' := if bool_decide (queue = "") then _ else _). pose proof (stop_keeps i s) as Hstop.
  destruct (Supervisor_Repair_total queue' (di_verifyErr i) (di_repairErr i) (di_readDir i) (di_repairNow i) (di_repairIO i) fs (stop i s) Hpr)
    as (fs' & s1 & res & -> & Hk1 & Hf). cbn [mbind option_bind].
  assert (forall s2 ws, keeps (stop i s) s2 -> Forall status_ok ws -> ws <> [] -> effect false true i d fs (with_sup s2 d) fs' ws) as He.
  { intros s2 ws Hk2 Hw Hne. apply (effect_sup _ _ _ _ _ s); [done..|by eapply keeps_trans|done|done|].
    intros f Hne'. destruct (Hf f Hne') as [Hr Hp]. rewrite stop_path in Hp. split_and!; [done|done|by exists queue']. }
  destruct res as [| | | |off].
  1-4: eexists _, _, _; split; [reflexivity|]; apply He; [done| |by case_match]; apply Forall_app; split; [done|written].
  destruct (start_keeps i s1) as (s2 & r2 & -> & Hk2 & _); [by apply Hk1, Hstop|]. cbn [mbind option_bind].
  eexists _, _, _. split; [reflexivity|]. destruct (He s2 (match x with Some x => [x] | None => [] end ++ [okObject []]))
    as [H1 H2 H3 H4 H5 H6 H7]; [by eapply keeps_trans|apply Forall_app; split; [done|written]|by case_match|].
  split; try done; [|split; [by case_match|apply Forall_app; split; [done|written]]].
  by apply (note_ok EvRepaired) in H1.
Qed.

(** ** Requests *)

(** The routes that may change the configuration, and files. *)
Definition is_config (r : DashReq) : bool := bool_decide (dq_Method r = "POST") && bool_decide (dq_Path r = ["api"; "config"]).
Definition is_lab (r : DashReq) : bool :=
  bool_decide (dq_Method r = "POST") && (bool_decide (dq_Path r = ["api"; "lab"; "corrupt"]) || bool_decide (dq_Path r = ["api"; "lab"; "repair"])).

Lemma effect_mono cfg lab cfg' lab' i d fs d' fs' ws :
  effect cfg lab i d fs d' fs' ws -> (cfg = true -> cfg' = true) -> (lab = true -> lab' = true) -> effect cfg' lab' i d fs d' fs' ws.
Proof.
  intros [H1 H2 H3 H4 H5 H6 H7] Hc Hl. split; try done; [destruct H4; auto|destruct H5; auto|].
  intros f Hne. destruct (H6 f Hne) as [? ?]. auto.
Qed.

(** The handler of a route, and what it may change. *)
Lemma DashRoutes_effect i r fs d h :
  DashRoutes (dq_Method r) (dq_Path r) = Some h -> dash_ok d -> dir_printed (di_readDir i) ->
  exists d' fs' ws, h i r fs d = Some (d', fs', ws) /\ effect (is_config r) (is_lab r) i d fs d' fs' ws.
Proof.
  intros ER Hd Hpr.
  assert (forall cfg lab, (exists d' fs' ws, h i r fs d = Some (d', fs', ws) /\ effect cfg lab i d fs d' fs' ws) ->
    (cfg = true -> is_config r = true) -> (lab = true -> is_lab r = true) ->
    exists d' fs' ws, h i r fs d = Some (d', fs', ws) /\ effect (is_config r) (is_lab r) i d fs d' fs' ws) as Hm.
  { intros cfg lab (d' & fs' & ws & E & He) Hc Hl. exists d', fs', ws. split; [done|]. by eapply effect_mono. }
  unfold DashRoutes in ER. cbn [find fst snd] in ER.
  repeat match type of ER with
  | context [if ?c then _ else _] =>
    let Hc := fresh "Hc" in destruct c eqn:Hc; [apply andb_true_iff in Hc as [Hpost Hpath%bool_decide_eq_true_1]; cbn in ER; injection ER as <-|]
  end; [..|discriminate ER].
  - by eapply Hm; [apply snapshotHandler_effect|..].
  - by eapply Hm; [apply submit_effect|..].
  - eapply Hm; [by apply config_effect| |done]. intros _. unfold is_config. by rewrite Hpost, <- Hpath.
  - by eapply Hm; [apply burst_effect|..].
  - by eapply Hm; [apply compactHandler_effect|..].
  - by eapply Hm; [apply killServer_effect|..].
  - by eapply Hm; [apply startServer_effect|..].
  - eapply Hm; [by apply corrupt_effect|done|]. intros _. unfold is_lab. by rewrite Hpost, <- Hpath.
  - eapply Hm; [by apply repair_effect|done|]. intros _. unfold is_lab. by rewrite Hpost, <- Hpath.
Qed.

(** ** Critical sections

    What the handlers, the workers and the goroutine that waits for the process do to
    the shared state, one hold of a lock each: [net/http] runs requests at the same
    time, so the sections of several may come in any order. *)

(** Under the locks of the supervisor and its pane: a line is logged, the process
    writes, it is started, it ends. *)
Inductive sup_section : Supervisor -> Supervisor -> Prop :=
  | ss_line line s : sup_section s (logLine line s)
  | ss_output p s w : ring_Write p (sp_logs s) = Some w -> sup_section s (set_logs w s)
  | ss_launched s : sp_running s = false -> sup_section s (set_process true true "" s)
  | ss_exited err s : sup_section s (processExited err s).

(** Under the lock of the runner: the knobs, the pool, the count of submitted jobs,
    and what a worker does. *)
Inductive runner_section : Runner -> Runner -> Prop :=
  | rs_knobs t f a v r r' : Update t None f a v r = Some r' -> runner_section r r'
  | rs_workers n r r' : SetWorkers n r = Some r' -> runner_section r r'
  | rs_counted n r : runner_section r (set_tally (rn_done r) (rn_failed r) (rn_abandoned r) (rn_submitted r + n) (rn_recent r) r)
  | rs_worker id wi at_ r r' at' : worker_step id wi at_ r = (r', at') -> runner_section r r'.

Inductive section : Dashboard -> Dashboard -> Prop :=
  | sc_sup s s' d : db_sup d = Some s -> sup_section s s' -> section d (with_sup s' d)
  | sc_runner r' d : runner_section (db_runner d) r' -> section d (with_runner r' d)
  | sc_note ev d : section d (note ev d).

Lemma sup_section_keeps s s' : sup_section s s' -> keeps s s'.
Proof.
  intros H. destruct H as [line s|p s w E|s _|err s]; [apply logLine_keeps| |by split; [|intros []]|apply processExited_keeps].
  split; [done|]. intros [Hm Hp Hc]. destruct (ring_Write_ok p (sp_logs s)) as (w' & E' & Hw' & Hwm); [lia|done|].
  rewrite E in E'. injection E' as <-. split; [exact (eq_trans Hwm Hm)|done|done].
Qed.

Lemma runner_section_ok r r' : runner_section r r' -> runner_ok r -> runner_ok r'.
Proof.
  intros H Hr. destruct H as [| |n r|]; [by eapply Update_knobs_ok|by eapply SetWorkers_ok| |by eapply worker_step_ok].
  apply set_tally_ok; [done|apply Hr].
Qed.

Lemma section_ok d d' : section d d' -> dash_ok d -> dash_ok d' /\ db_managed d' = db_managed d.
Proof.
  intros H Hd. destruct H as [s s' d Hs Hss|r' d Hr|ev d]; (split; [|done]).
  - by eapply with_sup_ok; [..|apply sup_section_keeps].
  - apply with_runner_ok; [done|]. eapply runner_section_ok; [exact Hr|apply Hd].
  - by apply note_ok.
Qed.

Lemma sections_ok d d' : rtc section d d' -> dash_ok d -> dash_ok d' /\ db_managed d' = db_managed d.
Proof.
  induction 1 as [|d1 d2 d3 Hs _ IH]; [done|]. intros Hd. destruct (section_ok _ _ Hs Hd) as [H2 Hm].
  destruct (IH H2) as [H3 Hm']. split; [done|congruence].
Qed.

(** *** A request is a sequence of them *)

Lemma sup_sections s s' d : db_sup d = Some s -> rtc sup_section s s' -> rtc section d (with_sup s' d).
Proof.
  intros Hs Hr. revert d Hs. induction Hr as [s|s1 s2 s3 H _ IH]; intros d Hs.
  - assert (with_sup s d = d) as -> by (destruct d; cbn in *; by subst). done.
  - eapply rtc_l; [by eapply sc_sup|]. exact (IH (with_sup s2 d) eq_refl).
Qed.

(** More of the supervisor's sections, after others of the same request. *)
Lemma more_sup_sections d s s' d1 :
  rtc section d d1 -> db_sup d1 = Some s -> rtc sup_section s s' -> rtc section d (with_sup s' d1).
Proof. intros H Hs Hr. etrans; [exact H|by eapply sup_sections]. Qed.

Lemma and_note ev d d1 : rtc section d d1 -> rtc section d (note ev d1).
Proof. intros H. by eapply rtc_r; [|apply sc_note]. Qed.

Lemma Kill_sections dies s : rtc sup_section s (Kill dies s).
Proof.
  unfold Kill. destruct (negb (sp_cmd s)); [done|]. cbv zeta. eapply rtc_l; [apply ss_line|].
  destruct (dies && _); [|done]. apply rtc_once, ss_exited.
Qed.

Lemma stop_sections i s : rtc sup_section s (stop i s).
Proof. unfold stop. case_match; [apply Kill_sections|done]. Qed.

Lemma start_loop_sections polls dies s : rtc sup_section s (start_loop polls dies s).1.
Proof.
  revert s. induction polls as [|[err| |[err|]] polls IH]; intros s; cbn [start_loop fst]; [apply Kill_sections|..|done];
    try (apply rtc_once, ss_exited). apply IH.
Qed.

Lemma start_sections i s s' res : start i s = Some (s', res) -> rtc sup_section s s'.
Proof.
  unfold start, Supervisor_Start. destruct (sp_running s) eqn:Hr; [by intros [= <- _]|]. cbv zeta.
  destruct (si_execErr _); [intros [= <- _]; apply rtc_once, ss_line|].
  destruct (ring_Write _ _) as [w|] eqn:EW; [|done]. cbn [mbind option_bind]. intros E.
  eapply rtc_l; [apply (ss_line (si_banner (di_start i)))|]. eapply rtc_l; [by apply ss_launched|].
  eapply rtc_l; [by eapply ss_output|]. injection E as E. change s' with (s', res).1. rewrite <- E. apply start_loop_sections.
Qed.

Lemma Repair_sections queue verifyErr repairErr rd now io fs s fs' s' res :
  Supervisor_Repair queue verifyErr repairErr rd now io fs s = Some (fs', s', res) -> rtc sup_section s s'.
Proof.
  unfold Supervisor_Repair. destruct (sp_running s); [by intros [= _ <- _]|].
  destruct (Supervisor_Verify _ _ _) as [[report code]|]; [|done]. cbn [mbind option_bind]. cbv zeta.
  repeat case_match; intros; simplify_eq; try done; apply rtc_once, ss_line.
Qed.

Lemma Submit_sections queue n p delay dedup rnd enqueue r :
  rtc runner_section r (Submit queue n p delay dedup rnd enqueue r).1.
Proof.
  unfold Submit. cbv zeta. destruct (submit_loop _ 0 queue _ enqueue []) as [out [err|]]; [done|]. apply rtc_once, rs_counted.
Qed.

Lemma Burst_sections queue n rnd order enqueue r : rtc runner_section r (Burst queue n rnd order enqueue r).1.
Proof. unfold Burst. cbv zeta. destruct (fold_left burst_step _ _) as [ok first]. apply rtc_once, rs_counted. Qed.

Lemma Update_sections t n f a v r r' : Update t n f a v r = Some r' -> rtc runner_section r r'.
Proof.
  intros E. destruct n as [n|]; [|by eapply rtc_once, rs_knobs]. eapply rtc_l; [by apply (rs_knobs t f a v)|].
  by eapply rtc_once, rs_workers.
Qed.

Lemma runner_sections r r' d : rtc runner_section r r' -> db_runner d = r -> rtc section d (with_runner r' d).
Proof.
  intros Hr. revert d. induction Hr as [r|r1 r2 r3 H _ IH]; intros d Hd.
  - assert (with_runner r d = d) as -> by (destruct d; cbn in *; by subst). done.
  - eapply rtc_l; [apply sc_runner; by rewrite Hd|]. exact (IH (with_runner r2 d) eq_refl).
Qed.

Lemma submit_sections i r fs d d' fs' ws : submit i r fs d = Some (d', fs', ws) -> rtc section d d'.
Proof.
  unfold submit. destruct (readJSON _ _ _) as [req [w|]]; [by intros [= <- _ _]|]. cbv zeta. set (queue := if bool_decide _ then _ else _).
  pose proof (Submit_sections queue (sq_Count req) (sq_Priority req) (sq_DelayMS req) (sq_DedupID req) (di_rnd i) (di_enqueue i) (db_runner d)) as Hr.
  destruct (Submit _ _ _ _ _ _ _ _) as [r' [res [err|]]]; cbn [fst] in Hr; pose proof (runner_sections _ _ d Hr eq_refl) as Hd;
    [by intros [= <- _ _]|].
  match goal with |- context [mbind _ ?x] => destruct x as [ev|] end; [|done]. cbn [mbind option_bind]. intros [= <- _ _]. by apply and_note.
Qed.

Lemma config_sections i r fs d d' fs' ws : config i r fs d = Some (d', fs', ws) -> rtc section d d'.
Proof.
  unfold config. destruct (readJSON _ _ _) as [req [w|]]; [by intros [= <- _ _]|]. cbv zeta.
  destruct (Update _ _ _ _ _ _) as [r'|] eqn:E; [|done]. cbn [mbind option_bind]. intros [= <- _ _].
  case_match; [|etrans; [apply rtc_once, (sc_note (EvSwitched (Target r')))|]]; by eapply runner_sections; [eapply Update_sections|].
Qed.

Lemma burst_sections i r fs d d' fs' ws : burst i r fs d = Some (d', fs', ws) -> rtc section d d'.
Proof.
  unfold burst. destruct (readJSON _ _ _) as [[count concurrency] [w|]]; [by intros [= <- _ _]|]. cbv zeta.
  pose proof (Burst_sections (Target (db_runner d)) count (di_rnd i) (di_order i) (di_enqueue i) (db_runner d)) as Hr.
  destruct (Burst _ _ _ _ _ _) as [r' [n err]]. intros [= <- _ _]. by apply and_note, (runner_sections _ _ _ Hr).
Qed.

Lemma killServer_sections i r fs d d' fs' ws : killServer i r fs d = Some (d', fs', ws) -> rtc section d d'.
Proof.
  unfold killServer. destruct (negb _); [by intros [= <- _ _]|]. cbv zeta. destruct (db_sup d) as [s|] eqn:Hs; [|done].
  cbn [mbind option_bind]. intros [= <- _ _]. apply and_note. eapply sup_sections; [done|apply Kill_sections].
Qed.

Lemma startServer_sections i r fs d d' fs' ws : startServer i r fs d = Some (d', fs', ws) -> rtc section d d'.
Proof.
  unfold startServer. destruct (negb _); [by intros [= <- _ _]|]. destruct (db_sup d) as [s|] eqn:Hs; [|done].
  cbn [mbind option_bind]. destruct (start i s) as [[s' res]|] eqn:E; [|done]. cbn [mbind option_bind]. cbv zeta.
  pose proof (sup_sections _ _ d Hs (start_sections _ _ _ _ E)) as Hd.
  destruct (negb _); [|destruct (ensured i) as [[queue err]|]]; intros [= <- _ _]; (done || by apply and_note).
Qed.

Lemma corrupt_sections i r fs d d' fs' ws : corrupt i r fs d = Some (d', fs', ws) -> rtc section d d'.
Proof.
  unfold corrupt. destruct (negb _); [by intros [= <- _ _]|]. destruct (readJSON _ _ _) as [[mode queue] [w|]]; [by intros [= <- _ _]|].
  cbv zeta. destruct (db_sup d) as [s|] eqn:Hs; [|done]. cbn [mbind option_bind].
  pose proof (sup_sections _ _ d Hs (stop_sections i s)) as Hd. destruct (damage _ _ _ _ _) as [fs1 [what|err]]; [|by intros [= <- _ _]].
  destruct (Supervisor_Verify _ _ _) as [[verify code]|]; [|done]. cbn [mbind option_bind].
  destruct (start i (stop i s)) as [[s' res]|] eqn:E; [|done]. cbn [mbind option_bind]. intros [= <- _ _]. apply and_note.
  exact (more_sup_sections d (stop i s) s' (note (EvLab what) (with_sup (stop i s) d)) (and_note _ _ _ Hd) eq_refl (start_sections _ _ _ _ E)).
Qed.

Lemma repair_sections i r fs d d' fs' ws : repair i r fs d = Some (d', fs', ws) -> rtc section d d'.
Proof.
  unfold repair. destruct (negb _); [by intros [= <- _ _]|]. destruct (readJSON _ _ _) as [queue w]. cbv zeta.
  destruct (db_sup d) as [s|] eqn:Hs; [|done]. cbn [mbind option_bind].
  destruct (Supervisor_Repair _ _ _ _ _ _ _ _) as [[[fs1 s1] res]|] eqn:ER; [|done]. cbn [mbind option_bind].
  assert (rtc section d (with_sup s1 d)) as Hd
    by (eapply sup_sections; [done|]; etrans; [apply (stop_sections i)|by eapply Repair_sections]).
  destruct res as [| | | |off]; [by intros [= <- _ _]..|].
  destruct (start i s1) as [[s' res]|] eqn:E; [|done]. cbn [mbind option_bind]. intros [= <- _ _].
  exact (more_sup_sections d s1 s' (note EvRepaired (with_sup s1 d)) (and_note _ _ _ Hd) eq_refl (start_sections _ _ _ _ E)).
Qed.

(** Every request that no other comes between is a sequence of sections. *)
Lemma dispatch_sections i r fs d d' fs' ws : dispatch i r fs d = Some (d', fs', ws) -> rtc section d d'.
Proof.
  unfold dispatch, DashRoutes. cbn [find fst snd].
  repeat match goal with |- context [if ?c then Some _ else _] => destruct c end; cbn [fmap option_fmap option_map snd].
  - unfold snapshotHandler. destruct (snapshot i d); [|done]. cbn [mbind option_bind]. by intros [= <- _ _].
  - apply submit_sections.
  - apply config_sections.
  - apply burst_sections.
  - unfold compactHandler. cbv zeta. destruct (Compact_result _) as [[before after] [err|]]; intros [= <- _ _]; [done|].
    apply rtc_once, sc_note.
  - apply killServer_sections.
  - apply startServer_sections.
  - apply corrupt_sections.
  - apply repair_sections.
  - by intros [= <- _ _].
Qed.

Lemma dispatch_effect i r fs d :
  dash_ok d -> dir_printed (di_readDir i) ->
  exists d' fs' ws, dispatch i r fs d = Some (d', fs', ws) /\
    if DashRoutes (dq_Method r) (dq_Path r) then effect (is_config r) (is_lab r) i d fs d' fs' ws
    else d' = d /\ fs' = fs /\ ws = [].
Proof.
  intros Hd Hpr. unfold dispatch. destruct (DashRoutes _ _) as [h|] eqn:ER; [|by eexists _, _, _].
  by apply DashRoutes_effect.
Qed.

(** The command comes up with a sound dashboard, or says why not. *)
Lemma jobrunner_ok f statErr i :
  exists o, jobrunner f statErr i = Some o /\
    forall d, o = inl d -> dash_ok d /\ db_managed d = bool_decide (fl_queueURL f = "") /\
      rn_desired (db_runner d) = clampWorkers (fl_workers f).
Proof.
  unfold jobrunner. cbv zeta.
  assert (forall sup ev (managed : bool), (if managed then is_Some sup else sup = None) -> (forall s, sup = Some s -> sup_ok s) ->
    dash_ok (NewDashboard sup NewRunner [ev] managed)) as H0
    by (intros; split; cbn; [apply NewRunner_ok|done..|unfold eventsMax; lia]).
  assert (forall sup ev (managed : bool), dash_ok (NewDashboard sup NewRunner [ev] managed) ->
    exists o : Dashboard + Fatal, match ensured i with
      | Some (queue, err) => Some (inr (NoQueues queue err))
      | None => runner ← SetWorkers (fl_workers f) NewRunner; Some (inl (with_runner runner (NewDashboard sup NewRunner [ev] managed)))
      end = Some o /\ forall d, o = inl d -> dash_ok d /\ db_managed d = managed /\ rn_desired (db_runner d) = clampWorkers (fl_workers f)) as H1.
  { intros sup ev managed Hok. destruct (ensured i) as [[queue err]|]; [by eexists|].
    destruct (SetWorkers_correct (fl_workers f) NewRunner (ro_maps _ NewRunner_ok)) as (r & E & _ & (ws & nx & st & Hr) & _).
    rewrite E. cbn [mbind option_bind]. eexists. split; [reflexivity|]. intros d [= <-]. split_and!; [|done|by rewrite Hr].
    apply with_runner_ok; [done|]. eapply SetWorkers_ok; [apply NewRunner_ok|exact E]. }
  case_bool_decide as Hurl.
  - destruct statErr as [err|]; [by eexists|].
    destruct (start_keeps i (NewSupervisor (fl_queueBin f) (fl_dataDir f) (fl_queueAddr f))) as (s & res & -> & [_ Hk] & _).
    { split; [done| |done]. split; cbn; [lia|done|apply not_elem_of_nil]. }
    cbn [mbind option_bind]. destruct (startedOk res); [|by eexists]. apply H1, H0; [by eexists|]. intros ? [= <-]. apply Hk.
    split; [done| |done]. split; cbn; [lia|done|apply not_elem_of_nil].
  - destruct (Healthy_result _); [|by eexists]. by apply H1, H0.
Qed.

(** C22: The dashboard stays sound, and answers. [jobrunner] either says why it stops or comes up with as many workers as asked for, cut to 0..32. From there let the critical sections of the supervisor, its pane, the runner and the event log come in any order, those of requests that overlap, of workers, and of the goroutine that waits for the server's process: the pool keeps its invariant, the event log its 60 lines and the server's log pane its 300 lines, none of them empty, and the shutdown goes through. In every such state a request that no other section comes between, whatever its method, path and body and whatever system calls and the queue server return, is itself a sequence of sections and gets an answer, of status 200, 400 or 502 if there is a route for it. Such a request never changes which server is supervised, and an attached dashboard changes nothing outside its own counters. It changes the runner's settings and pool only through [/api/config]. It changes a file only as a POST to one of the two routes of the lab, only once the supervisor has seen the server down, and then the file is the log of one queue, or a backup that did not exist. If the process is seen to die when it is killed, it is down for the lab. *)
Theorem dashboard_safe f statErr i0 dies :
  exists o, jobrunner f statErr i0 = Some o /\
    (forall d0, o = inl d0 -> Z.of_nat (size (rn_stops (db_runner d0))) = clampWorkers (fl_workers f) /\
      Z.of_nat (size (rn_workers (db_runner d0))) = clampWorkers (fl_workers f)) /\
    forall d0 d, o = inl d0 -> rtc section d0 d ->
      dash_ok d /\ db_managed d = bool_decide (fl_queueURL f = "") /\ is_Some (jobrunner_stop dies d) /\
      (forall i s, db_sup d = Some s -> di_dies i = true -> sp_running (stop i s) = false) /\
      forall i r fs, dir_printed (di_readDir i) -> exists d' fs' ws, dispatch i r fs d = Some (d', fs', ws) /\ rtc section d d' /\
        if DashRoutes (dq_Method r) (dq_Path r) then effect (is_config r) (is_lab r) i d fs d' fs' ws
        else d' = d /\ fs' = fs /\ ws = [].
Proof.
  destruct (jobrunner_ok f statErr i0) as (o & Eo & Ho). exists o. split; [done|]. split.
  { intros d0 ->. destruct (Ho d0 eq_refl) as ([Hr _ _ _] & _ & <-). rewrite <- (ro_size _ Hr).
    by rewrite <- !size_dom, (mp_dom _ (ro_maps _ Hr)). }
  intros d0 d -> Hrun. destruct (Ho d0 eq_refl) as (Hd0 & Hm0 & _). destruct (sections_ok _ _ Hrun Hd0) as [Hd Hm].
  split_and!; [done|congruence| | |].
  - unfold jobrunner_stop. destruct (SetWorkers_correct 0 (db_runner d) (ro_maps _ (da_runner _ Hd))) as (r & -> & _).
    cbn [mbind option_bind]. cbv zeta. cbn [with_runner db_managed db_sup]. destruct (managed_cases d Hd) as [-> |(-> & s & -> & _)]; by eexists.
  - intros i s Hs. apply stop_stops. by apply Hd.
  - intros i r fs Hpr. destruct (dispatch_effect i r fs d Hd Hpr) as (d' & fs' & ws & E & He).
    exists d', fs', ws. split_and!; [done|by eapply dispatch_sections|done].
Qed.

(** ** Witness *)

(** A world in which the server starts at once and answers 201 to everything. *)
Definition ex_dash_in (readDir : list DirEntry) (polls : list Poll) : DashIn :=
  mkDashIn (fun _ => Answered StatusCreated [] None) (fun _ _ _ => inr (EIO "connection refused")) (fun _ => (0, 0%nat)) (seq 0) 0 0 [] true
    (mkStartIn (bytes_of_string "--- starting ---") None [] polls true) None None None None None None None (inl readDir) 88 noRepairIO.
Definition ex_flags : Flags := mkFlags "artie-queue" "127.0.0.1:8080" "data" "" 3.
Definition ex_lab_req (mode : string) : DashReq :=
  mkDashReq "POST" ["api"; "lab"; "corrupt"] (-1) (encodeBody [("mode", marshalString mode); ("queue", marshalString "jobs")]) None.

Definition ex_dash_files : gmap string (list byte) := {["data/jobs/wal.log" := repeat x2a 100]}.

(** The demo starts with its three workers, and the lab is asked to tear a tail. *)
Lemma dashboard_safe_witness :
  exists d d' fs' ws, jobrunner ex_flags None (ex_dash_in [] [PHealthy None]) = Some (inl d) /\ size (rn_workers (db_runner d)) = 3%nat /\
    dispatch (ex_dash_in [] [PHealthy None]) (ex_lab_req "tail") ex_dash_files d = Some (d', fs', ws) /\
    effect false true (ex_dash_in [] [PHealthy None]) d ex_dash_files d' fs' ws.
Proof.
  destruct (dashboard_safe ex_flags None (ex_dash_in [] [PHealthy None]) true) as (o & Eo & H3 & Ho).
  destruct o as [d|fatal]; [|exfalso; vm_compute in Eo; discriminate Eo].
  destruct (H3 d eq_refl) as [_ Hw].
  destruct (Ho d d eq_refl (rtc_refl _ _)) as (_ & _ & _ & _ & Hall).
  destruct (Hall (ex_dash_in [] [PHealthy None]) (ex_lab_req "tail") ex_dash_files (Forall_nil_2 _)) as (d' & fs' & ws & E & _ & He).
  exists d, d', fs', ws. split; [exact Eo|]. split; [exact (Nat2Z.inj _ 3 Hw)|]. split; [exact E|exact He].
Defined.
