(* ===== verification/LabTruth.v ===== *)
(** * The corruption lab tells the truth

    The dashboard's lab, from the request to the explanation it prints, over the
    supervisor, the damaged log, [verify] and the server's start: what it says of a
    damaged record and of a torn tail is what the server does. *)

From Stdlib Require Import ZArith Lia Floats.SpecFloat.
From stdpp Require Import relations fin_map_dom.
From S2P Require Import Prelude GoInt Errors WalRecord Replay ReplayProps GoHeap Message Heaps Codec Index QueueSpec.
From S2P Require Import IndexInv IndexRefine Durable Log LogInv LogProps Queue Load QueueInv QueueOps QueueTick Recovery.
From S2P Require Import Writer Compact Snapshot CompactProps Json JsonProps QueueTrace Sample QueueProps Inspect Manager ManagerProps Main.
From S2P Require Import Damage MainProps Request Server Report Lab LabProps Client ClientProps Runner RunnerProps Dashboard DashboardSafe.

Implicit Types (q : Queue) (m : Manager) (e : DirEntry) (d : Dashboard) (s : Supervisor) (i : DashIn).

(** ** A directory with a torn log *)

(** The entry, with another file at the log's path. *)
Definition with_file (b : list byte) e : DirEntry :=
  mkDirEntry (de_Name e) (de_IsDir e) (de_Stat e) (de_path e) (OpenOk (plainFile b)) (mkDisk b []) (de_clock e) (de_io e) (de_now e).

(** What a start makes of an entry. *)
Definition entry_Load e : option (Queue + Err) :=
  snd <$> Load (de_Name e) (de_path e) (de_view e) (de_clock e) (de_io e) (de_disk e) (de_now e).

Lemma openManager_loop_swap pre e e' post m0 :
  de_Name e' = de_Name e -> de_IsDir e' = de_IsDir e -> de_Stat e' = de_Stat e -> entry_Load e' = entry_Load e ->
  openManager_loop (pre ++ e' :: post) m0 = openManager_loop (pre ++ e :: post) m0.
Proof.
  intros Hn Hd Hs HL. revert m0. induction pre as [|x pre IH]; intros m0.
  - cbn [app openManager_loop]. rewrite Hd, Hs, Hn. unfold entry_Load in HL. rewrite Hn in HL.
    destruct (negb (de_IsDir e)); [done|]. destruct (negb _); [done|].
    destruct (Load (de_Name e) (de_path e') _ _ _ _ _) as [[d1 r1]|], (Load (de_Name e) (de_path e) _ _ _ _ _) as [[d2 r2]|]; try done.
    cbn [fmap option_fmap option_map snd] in HL. injection HL as ->. done.
  - cbn [app openManager_loop]. destruct (negb (de_IsDir x)); [done|]. destruct (negb _); [done|].
    destruct (Load _ _ _ _ _ _ _) as [[d1 [q|err]]|]; cbn [mbind option_bind]; [apply IH|by destruct (Is _ err)|done].
Qed.

Section Torn.
Context (m : Manager) (pre : list DirEntry) (e : DirEntry) (post : list DirEntry) (q : Queue).
Context (img : list byte) (es : list Entry) (fs : gmap string (list byte)) (s : Supervisor).
Context (HL : lab_directory m pre e post q img es fs s).

Let torn := img ++ tornFragment.

Lemma torn_replays : replays_to torn es (EndTorn (Z.of_nat (length img)) 16) /\ replays_to img es (EndClean (Z.of_nat (length img))).
Proof using HL.
  destruct (lab_image _ _ _ _ _ _ _ _ _ HL) as [Himg _]. destruct (lb_clean _ _ _ _ _ _ _ _ _ HL) as [v Hrp].
  destruct (lab_sound _ _ _ _ _ _ _ _ _ HL) as (_ & _ & [_ _ _ _ (img1 & Hv & _ & Hcr)] & Hr).
  rewrite (lb_view _ _ _ _ _ _ _ _ _ HL) in Hv. assert (img1 = img) as -> by (unfold plainFile in Hv; congruence).
  destruct (crash_history q img Hr Hcr) as (es' & ending & c & Hrp' & _ & Hok & _).
  rewrite (replays_to_fun _ _ _ _ _ Hrp' Hrp) in Hok. unfold torn. rewrite Himg. split; [by apply torn_fragment_replays|].
  by apply encode_all_replays_to.
Qed.

Lemma torn_tear :
  TruncateTailMidRecord (de_Name e) None None None fs s
  = (<[de_path e := torn]> fs, inl (mkAppended (Z.of_nat (length img)) (de_path e))).
Proof using HL.
  unfold TruncateTailMidRecord. by rewrite (lb_stopped _ _ _ _ _ _ _ _ _ HL), (lb_path _ _ _ _ _ _ _ _ _ HL), (lb_file _ _ _ _ _ _ _ _ _ HL).
Qed.

(** [verify] accepts the directory. *)
Lemma torn_verify : exists report, verifyReport (sp_dir s) (inl (pre ++ with_file torn e :: post)) = Some (report, 0).
Proof using HL.
  destruct (lab_sound _ _ _ _ _ _ _ _ _ HL) as (Hpre & Hpost & [Hd Hs _ _ _] & _). destruct torn_replays as [Ht _].
  pose proof (lb_marker _ _ _ _ _ _ _ _ _ HL) as Hc. apply Forall_app in Hc as [Hc1 [Hce Hc2]%Forall_cons].
  destruct (verify_loop_sound pre (with_file torn e :: post) 0 0 Hpre Hc1) as (oks & f & Hoks & E1).
  destruct (verify_loop_sound post [] (f + 1) 0 Hpost Hc2) as (oks2 & f2 & Hoks2 & E2).
  rewrite app_nil_r in E2. cbn [verify_loop mbind option_bind] in E2.
  destruct (replays_to_verify (de_path e) torn es _ Ht) as (res & counts & HR).
  unfold verifyReport, runVerify. rewrite E1. cbn [verify_loop with_file de_IsDir de_Stat de_path de_view].
  rewrite Hd, (bool_decide_eq_true_2 _ Hs), HR. cbn [negb mbind option_bind]. rewrite E2. cbn [mbind option_bind].
  rewrite app_nil_r. set (line := VOk _ _ _ _ _).
  assert (Forall reads_clean (oks ++ line :: oks2)) as Hall by (apply Forall_app; split; [done|by constructor]).
  destruct (clean_lines _ Hall) as (ts & -> & _). cbn [mbind option_bind]. by eexists.
Qed.

(** And the server opens it, as if the log were not torn. *)
Lemma torn_opens root ids closeErr :
  exists m', OpenManager root None (inl (pre ++ with_file torn e :: post)) ids closeErr = Some (m', None) /\
    OpenManager root None (inl (pre ++ e :: post)) ids closeErr = Some (m', None) /\
    forall name, option_Forall2 recovered (mg_queues m !! name) (mg_queues m' !! name).
Proof using HL.
  destruct (lab_sound _ _ _ _ _ _ _ _ _ HL) as (_ & _ & [_ _ Hio _ (img1 & Hv & Hdk & _)] & _).
  pose proof (lb_view _ _ _ _ _ _ _ _ _ HL) as Hv'. assert (img1 = img) as -> by (rewrite Hv' in Hv; unfold plainFile in Hv; congruence).
  destruct (OpenManager_restarts m (pre ++ e :: post) root ids closeErr) as (m' & E & Hm'); [by eapply lb_good|by eapply lb_directory|].
  exists m'. split; [|by split]. unfold OpenManager in *. destruct torn_replays as [Ht Hc].
  rewrite (openManager_loop_swap pre e (with_file torn e) post); [done..|].
  unfold entry_Load. cbn [with_file de_Name de_path de_view de_clock de_io de_disk de_now]. rewrite Hv', Hdk, Hio. by eapply torn_Load.
Qed.
End Torn.

(** ** The server's process *)

(** The turns a start waits for the process that serves these entries: it exits if
    the manager does not open, and answers at last if it does. *)
Definition process_polls (polls : list Poll) (root : string) (entries : list DirEntry) (ids : list string)
    (closeErr : string -> option Err) : Prop :=
  match OpenManager root None (inl entries) ids closeErr with
  | Some (_, None) => exists n rest, polls = replicate n PSilent ++ PHealthy None :: rest
  | Some (_, Some _) => exists n err rest, polls = replicate n PSilent ++ PExited err :: rest
  | None => False
  end.

Lemma start_loop_silent n polls dies s : start_loop (replicate n PSilent ++ polls) dies s = start_loop polls dies s.
Proof. by induction n. Qed.

(** A start of a process that comes up, or exits. *)
Lemma start_process i s n p rest :
  sup_ok s -> sp_running s = false -> si_execErr (di_start i) = None -> si_polls (di_start i) = replicate n PSilent ++ p :: rest ->
  p <> PSilent -> exists s' res, start i s = Some (s', res) /\
    match p with
    | PHealthy None => startedOk res = true /\ sp_running s' = true
    | _ => startedOk res = false /\ sp_running s' = false
    end.
Proof.
  intros Hok Hr He Hp Hne. unfold start, Supervisor_Start. rewrite Hr, He, Hp. cbv zeta.
  destruct (logLine_keeps (si_banner (di_start i)) s) as [_ Hk]. destruct (Hk Hok) as [Hm Hpane _].
  destruct (ring_Write_ok (si_output (di_start i)) (sp_logs (logLine (si_banner (di_start i)) s))) as (w & -> & _); [lia|done|].
  cbn [mbind option_bind]. rewrite start_loop_silent. destruct p as [err| |[err|]]; [|done|..]; cbn [start_loop]; eexists _, _; (split; [reflexivity|done]).
Qed.

(** ** The lab *)

(** The world the lab works in: no operation fails, the directory is as the damage
    leaves it, and the process behaves as the server. *)
Record lab_world i (entries : list DirEntry) (root : string) (ids : list string) (closeErr : string -> option Err) : Prop := {
  lw_flip : di_readErr i = None /\ di_flipErr i = None;
  lw_tear : di_openErr i = None /\ di_statErr i = None /\ di_tailErr i = None;
  lw_verify : di_verifyErr i = None;
  lw_readDir : di_readDir i = inl entries;
  lw_exec : si_execErr (di_start i) = None;
  lw_process : process_polls (si_polls (di_start i)) root entries ids closeErr;
}.

(** The handler, once the damage is done, [verify] has spoken, and the server has
    come up or not. *)
Lemma corrupt_run i r fs d s mode queue name tail fs' what verify code n p rest :
  dash_ok d -> db_managed d = true -> db_sup d = Some s -> readJSON corruptFields r ("", "") = ((mode, queue), None) ->
  (if bool_decide (queue = "") then Target (db_runner d) else queue) = name -> tail = bool_decide (mode = "tail") ->
  damage i (if tail then "tail" else "midlog") name fs (stop i s) = (fs', inl what) ->
  Supervisor_Verify (di_verifyErr i) (di_readDir i) (stop i s) = Some (verify, code) ->
  sp_running (stop i s) = false -> si_execErr (di_start i) = None -> si_polls (di_start i) = replicate n PSilent ++ p :: rest ->
  p <> PSilent ->
  exists d' s' logs more, let ok := match p with PHealthy None => true | _ => false end in
    corrupt i r fs d = Some (d', fs', [okObject ([("mode", ShText (if tail then "tail" else "midlog")); ("what", ShWhat what);
      ("verify", ShBytes verify); ("verify_code", ShInt code); ("started", ShBool ok); ("logs", ShLines logs);
      ("explanation", ShText (explanationText (explain (if tail then "tail" else "midlog") ok)))] ++ more)]) /\
    db_sup d' = Some s' /\ sp_running s' = ok.
Proof.
  intros Hd Hm Hs ER Hq Ht ED HV Hr He Hp Hne. unfold corrupt. rewrite Hm, ER, Hs, Hq. cbn [negb mbind option_bind]. cbv zeta.
  assert ((if bool_decide (mode = "tail") then mode else "midlog") = if tail then "tail" else "midlog") as ->
    by (rewrite Ht; case_bool_decide as E; [exact E|done]).
  rewrite ED, HV. cbn [mbind option_bind].
  destruct (start_process i (stop i s) n p rest) as (s' & res & -> & Hres); [by apply stop_keeps, (da_sup _ Hd)|done..|].
  cbn [mbind option_bind]. set (ok := match p with PHealthy None => true | _ => false end).
  assert (startedOk res = ok /\ sp_running s' = ok) as [-> Hr'] by (unfold ok; by destruct p as [| |[|]]).
  eexists _, s', _, _. split; [reflexivity|]. by destruct ok.
Qed.

(** C20: The corruption lab tells the truth. A well-formed request to the lab of a dashboard that runs its own server, over the directory of any reachable queues, for a queue whose log ended cleanly, with no operation failing, no other request in between, and a process that does what [runServe] does: the explanation is never one of the two that begin with "Unexpected". For a torn tail, [verify] exits 0, the server is reported as started and runs, and the manager it opened is exactly the one a restart without the damage opens, which has recovered every queue of the directory, the torn one included. For a flipped byte, [verify] exits 2 and its text names the offset of the record that holds the byte, the server is reported as not started and does not run, and what it refused with is the corruption of that log at that offset. *)
Theorem lab_tells_the_truth i r fs d s mode queue tail m pre e post q img es root ids closeErr :
  dash_ok d -> db_managed d = true -> db_sup d = Some s ->
  readJSON corruptFields r ("", "") = ((mode, queue), None) ->
  (if bool_decide (queue = "") then Target (db_runner d) else queue) = de_Name e ->
  lab_directory m pre e post q img es fs (stop i s) ->
  bool_decide (mode = "tail") = tail ->
  let entries := pre ++ (if tail then with_file (img ++ tornFragment) e else with_view (OpenOk (plainFile (flipped img))) e) :: post in
  lab_world i entries root ids closeErr ->
  exists d' s' what verify logs more,
    corrupt i r fs d = Some (d', <[de_path e := if tail then img ++ tornFragment else flipped img]> fs,
      [okObject ([("mode", ShText (if tail then "tail" else "midlog")); ("what", ShWhat what); ("verify", ShBytes verify);
        ("verify_code", ShInt (if tail then 0 else 2)); ("started", ShBool tail); ("logs", ShLines logs);
        ("explanation", ShText (explanationText (if tail then TornTailTruncated else CorruptionRefused)))] ++ more)]) /\
    db_sup d' = Some s' /\ sp_running s' = tail /\
    if tail then exists m', OpenManager root None (inl entries) ids closeErr = Some (m', None) /\
      OpenManager root None (inl (pre ++ e :: post)) ids closeErr = Some (m', None) /\
      forall name, option_Forall2 recovered (mg_queues m !! name) (mg_queues m' !! name)
    else exists es1 t p es2 reason, hit es (length img / 2) es1 t p es2 /\
      let off := Z.of_nat (length (encode_all es1)) in parseOffset verify = Some off /\
      OpenManager root None (inl entries) ids closeErr
        = Some (mkManager root ∅, Some (ELoadingQueue (de_Name e) (CorruptionError (de_path e) off reason))).
Proof.
  intros Hd Hm Hs ER Hq HL Hmode. cbv zeta. destruct tail.
  - intros [_ (H1 & H2 & H3) Hv Hrd Hx Hpr]. destruct (torn_opens _ _ _ _ _ _ _ _ _ HL root ids closeErr) as (m' & EO & EO' & Hm').
    unfold process_polls in Hpr. rewrite EO in Hpr. destruct Hpr as (n & rest & Hp).
    destruct (torn_verify _ _ _ _ _ _ _ _ _ HL) as (verify & HV).
    destruct (corrupt_run i r fs d s mode queue (de_Name e) true (<[de_path e := img ++ tornFragment]> fs) (inr (mkAppended (Z.of_nat (length img)) (de_path e))) verify 0 n
      (PHealthy None) rest Hd Hm Hs ER Hq (eq_sym Hmode)) as (d' & s' & logs & more & E & Hs' & Hr'); [| |by eapply lb_stopped|done..|].
    + unfold damage. rewrite bool_decide_eq_true_2, H1, H2, H3 by done. by rewrite (torn_tear _ _ _ _ _ _ _ _ _ HL).
    + by rewrite Hv, Hrd.
    + exists d', s'. eexists _, verify, logs, more. split_and!; [exact E|done..|]. by exists m'.
  - intros [(H1 & H2) _ Hv Hrd Hx Hpr].
    destruct (lab_verify _ _ _ _ _ _ _ _ _ HL) as (es1 & t & p & es2 & verify & reason & res & counts & Hhit & _ & _ & HV & HP).
    destruct (lab_image _ _ _ _ _ _ _ _ _ HL) as [_ Hb]. destruct (lb_clean _ _ _ _ _ _ _ _ _ HL) as [v Hrp].
    destruct (damaged_refused m pre e post q img es _ _ _ _ root Signalled ids closeErr (lb_good _ _ _ _ _ _ _ _ _ HL)
      (lb_directory _ _ _ _ _ _ _ _ _ HL) (lb_queue _ _ _ _ _ _ _ _ _ HL) (lb_view _ _ _ _ _ _ _ _ _ HL) Hrp Hb (flip_ne _))
      as (es1' & t' & p' & es2' & reason' & Hhit' & EO & _).
    assert (length (encode_all es1') = length (encode_all es1)) as El
      by (rewrite (hit_offset _ _ _ _ _ _ Hhit), (hit_offset _ _ _ _ _ _ Hhit'); done).
    rewrite El in EO. fold (flipped img) in EO. unfold process_polls in Hpr. rewrite EO in Hpr. destruct Hpr as (n & err & rest & Hp).
    pose proof (lab_flip _ _ _ _ _ _ _ _ _ HL) as HF. set (fl := mkFlipped _ _ _ _) in HF.
    destruct (corrupt_run i r fs d s mode queue (de_Name e) false (<[de_path e := flipped img]> fs)
      (inl fl) verify 2 n
      (PExited err) rest Hd Hm Hs ER Hq (eq_sym Hmode)) as (d' & s' & logs & more & E & Hs' & Hr'); [| |by eapply lb_stopped|done..|].
    + unfold damage. rewrite bool_decide_eq_false_2, H1, H2 by done. by rewrite HF.
    + rewrite Hv, Hrd. exact HV.
    + exists d', s'. eexists _, verify, logs, more. split_and!; [exact E|done..|]. exists es1, t, p, es2, reason'. by split_and!.
Qed.

(** ** Witness *)

Definition ex_dash : Dashboard := mkDashboard (Some ex_sup) NewRunner [] true.

Lemma ex_dash_ok : dash_ok ex_dash.
Proof.
  split; cbn; [apply NewRunner_ok|by eexists| |unfold eventsMax; lia]. intros s [= <-].
  split; [done| |done]. split; cbn; [lia|done|apply not_elem_of_nil].
Qed.

Definition ex_torn_entries : list DirEntry :=
  ex_before ++ with_file (ex_img ex_big ++ tornFragment) (ex_jobs (ex_img ex_big)) :: ex_after.

Lemma ex_world_torn : lab_world (ex_dash_in ex_torn_entries [PHealthy None]) ex_torn_entries "data" [] (fun _ => None).
Proof.
  split; [done..|]. destruct (torn_opens _ _ _ _ _ _ _ _ _ ex_lab_big "data" [] (fun _ => None)) as (m' & E & _).
  unfold process_polls, ex_torn_entries. rewrite E. by exists 0%nat, [].
Qed.

Lemma ex_world_flipped :
  lab_world (ex_dash_in (ex_lab_entries ex_big) [PSilent; PExited (Some "exit status 2")]) (ex_lab_entries ex_big) "data" [] (fun _ => None).
Proof.
  split; [done..|]. destruct (lab_image _ _ _ _ _ _ _ _ _ ex_lab_big) as [_ Hb]. destruct (lb_clean _ _ _ _ _ _ _ _ _ ex_lab_big) as [v Hrp].
  destruct (damaged_refused (ex_mgr ex_big) ex_before (ex_jobs (ex_img ex_big)) ex_after ex_big (ex_img ex_big) _ _ _ _ _ "data" Signalled []
    (fun _ => None) (lb_good _ _ _ _ _ _ _ _ _ ex_lab_big) (lb_directory _ _ _ _ _ _ _ _ _ ex_lab_big) (lb_queue _ _ _ _ _ _ _ _ _ ex_lab_big)
    eq_refl Hrp Hb (flip_ne _)) as (? & ? & ? & ? & reason & _ & EO & _).
  unfold process_polls, ex_lab_entries, flipped. rewrite EO. by exists 1%nat, (Some "exit status 2"), [].
Qed.

(** Both modes, on the queue with one large message. *)
Lemma lab_tells_the_truth_witness :
  (exists d' s' what verify logs more,
    corrupt (ex_dash_in ex_torn_entries [PHealthy None]) (ex_lab_req "tail") ex_lab_files ex_dash
      = Some (d', <[de_path (ex_jobs (ex_img ex_big)) := ex_img ex_big ++ tornFragment]> ex_lab_files,
          [okObject ([("mode", ShText "tail"); ("what", ShWhat what); ("verify", ShBytes verify); ("verify_code", ShInt 0); ("started", ShBool true);
            ("logs", ShLines logs); ("explanation", ShText (explanationText TornTailTruncated))] ++ more)]) /\
    db_sup d' = Some s' /\ sp_running s' = true) /\
  (exists d' s' what verify logs more,
    corrupt (ex_dash_in (ex_lab_entries ex_big) [PSilent; PExited (Some "exit status 2")]) (ex_lab_req "midlog") ex_lab_files ex_dash
      = Some (d', <[de_path (ex_jobs (ex_img ex_big)) := flipped (ex_img ex_big)]> ex_lab_files,
          [okObject ([("mode", ShText "midlog"); ("what", ShWhat what); ("verify", ShBytes verify); ("verify_code", ShInt 2); ("started", ShBool false);
            ("logs", ShLines logs); ("explanation", ShText (explanationText CorruptionRefused))] ++ more)]) /\
    db_sup d' = Some s' /\ sp_running s' = false /\ parseOffset verify = Some 192).
Proof.
  split.
  - destruct (lab_tells_the_truth (ex_dash_in ex_torn_entries [PHealthy None]) (ex_lab_req "tail") ex_lab_files ex_dash ex_sup "tail" "jobs" true
      (ex_mgr ex_big) ex_before (ex_jobs (ex_img ex_big)) ex_after ex_big (ex_img ex_big) (ex_records ex_big) "data" [] (fun _ => None)
      ex_dash_ok eq_refl eq_refl ltac:(vm_compute; reflexivity) eq_refl ex_lab_big eq_refl ex_world_torn)
      as (d' & s' & what & verify & logs & more & E & Hs & Hr & _).
    exists d', s', what, verify, logs, more. split; [exact E|]. split; [exact Hs|exact Hr].
  - destruct (lab_tells_the_truth (ex_dash_in (ex_lab_entries ex_big) [PSilent; PExited (Some "exit status 2")]) (ex_lab_req "midlog") ex_lab_files
      ex_dash ex_sup "midlog" "jobs" false (ex_mgr ex_big) ex_before (ex_jobs (ex_img ex_big)) ex_after ex_big (ex_img ex_big) (ex_records ex_big)
      "data" [] (fun _ => None) ex_dash_ok eq_refl eq_refl ltac:(vm_compute; reflexivity) eq_refl ex_lab_big eq_refl ex_world_flipped)
      as (d' & s' & what & verify & logs & more & E & Hs & Hr & es1 & t & p & es2 & reason & Hhit & Hoff & _).
    rewrite (ex_big_hit _ _ _ _ Hhit) in Hoff.
    exists d', s', what, verify, logs, more. split; [exact E|]. split; [exact Hs|]. split; [exact Hr|exact Hoff].
Defined.
